(* ===== verification/_CoqProject ===== *)
-Q . S2P
Prelude.v
Words.v
Primitives.v
Demo.v
Wire.v
Kdf.v
PqKem.v
Identity.v
IdentityProps.v
Ratchet.v
RatchetProps.v
Handshake.v
Session.v
SessionProps.v
SessionExchange.v
Conversation.v
SessionConversation.v
Envelope.v
Inbox.v
Safety.v
Enclave.v
EnclaveSession.v
RelayStore.v
RelayStoreProps.v
RelayPersistence.v
Mesh.v
MeshProps.v
MeshFlood.v
GroupState.v
Group.v
GroupProps.v
GroupFork.v
Url.v
RelayServer.v
RelayServerProps.v
RelayMain.v
Net.v
NetProps.v
Transports.v
NetSession.v
DemoPeer.v
DemoPeerProps.v
Ffi.v
FfiProps.v
FfiSession.v
