(* ===== verification/Prelude.v ===== *)
(** * Clarity: a verification development

    A model of the Rust code of the Clarity messenger (core/, relay/, net/ with its
    example demo_peer, mesh/, group/, ffi/ under src/) with theorems about it. This file holds what all the
    others share; this comment documents the whole.

    ** The program

    Two users talk through an untrusted relay. An account (core/identity) publishes
    a signed bundle of prekeys; a peer fetches it, verifies it, and runs a handshake
    (core/handshake: X25519 four ways and ML-KEM, core/pqkem) whose result seeds a
    Double Ratchet (core/ratchet, core/kdf). A session (core/session) is the ratchet,
    the identities it is bound to and the handshake header it repeats until the peer
    answers. Messages and bundles are encoded by core/wire, put in sealed envelopes
    (core/envelope) addressed to rotating inboxes (core/inbox), and compared out of
    band by safety numbers (core/safety). core/enclave keeps account and session
    sealed with the host. The relay stores prekeys and mailboxes (relay/store), over
    HTTP (relay/server, relay/protocol, relay/main); net is its client. mesh carries
    frames between phones without a relay. group wraps the MLS library. ffi exports
    all of it, but groups, to C. net/examples/demo_peer is a whole user at the command
    line: account, session, envelope, inboxes and client in one program.

    ** Files

    - [Prelude] (this file): results, the state-and-error monad [mut] of a method on
      [&mut self], with its notation, laws and hints ([clarity]); reflexive-transitive
      closure; BTreeMap iteration.
    - [Words]: [word w], a [w]-bit integer with its bound; [array n]; little-endian
      bytes. [Primitives]: the cryptographic crates and bincode as type classes, each
      with a class of laws. [Demo]: a toy instance of every class, for the witnesses.
    - [Wire] (core/wire.rs, core/error.rs), [Kdf], [PqKem], [Identity], [Handshake],
      [Ratchet], [Session], [Envelope], [Inbox], [Safety], [Enclave]: the file of core/
      of that name, one definition per function, under the function's name.
      core/transport.rs is the class [MessageTransport] in [Mesh].
    - [RelayStore] (relay/store.rs), [Url] and [RelayServer] (relay/server.rs,
      relay/protocol.rs), [RelayMain] (relay/main.rs), [Net] (net/lib.rs), [Mesh] (mesh/),
      [GroupState] and [Group] (group/lib.rs: persistence, and the operations), [Ffi] (ffi/:
      the exported functions, under their names), [DemoPeer] (net/examples/demo_peer.rs:
      [peer_main] is its [main], cut at the places where it calls or loops).
    - [IdentityProps], [RatchetProps], [SessionProps], [RelayStoreProps],
      [RelayPersistence], [RelayServerProps], [MeshProps], [FfiProps]: the theorems about
      one component; those of small components are in the component's own file.
      [GroupProps] (members and a delivery service), [MeshFlood] (delivery by flooding),
      [NetProps] (client and relay), [SessionExchange] (a first message and its reply in
      closed form), [Conversation] (two ratchets and a network), [SessionConversation]
      (the two applications above them: accounts, bundle, first messages, restarts),
      [FfiSession] (the same through the handles and buffers of two hosts),
      [EnclaveSession] (the same with everything sealed, against a network that makes
      things up), [Transports] (one envelope over the relay's transport and over that of the
      mesh), [GroupFork] (two commits in one epoch), [NetSession]
      (accounts, sessions, client and relay together) and [DemoPeerProps] (the
      command-line peer against an application behind the relay): the theorems about
      several. Each of these is proved from the one below: a step of two hosts is a step of
      two applications ([FfiSession.view_step], [EnclaveSession.seal_step]), which is a
      step of two ratchets ([SessionConversation.shadow_step]).

    ** How the code is modelled

    A function that mutates is a function to its result and the new state; a method
    that returns [Result] and mutates has type [mut S E A], which keeps what was
    written before an early return. Integers have their width: [wsucc] and [wrap] wrap
    around, as the release build does. A value drawn from the random generator, a
    reading of a clock, the outcome of a disk operation, the place the allocator picks
    are arguments. A HashMap is a [gmap]; where the iteration order reaches the result
    the order is an argument. A panic is an error of its own ([Url]); so is undefined
    behaviour ([Ffi]). Erasing memory (zeroize) has no observable result and is left
    out, as are log lines.

    ** What is assumed

    Nothing is an axiom. Libraries are classes, and a theorem that relies on their
    behaviour has the class of laws as a hypothesis: [X25519Laws] (Diffie-Hellman
    commutes, keys survive their encoding), [SymCryptoLaws] (the AEAD opens what it sealed
    and nothing else, and adds 16 bytes), [Ed25519Laws], [MlKemLaws]
    (correctness, not secrecy), [BincodeLaws], [Base64Laws], [JsonLaws],
    [QueryEncoderLaws], [JsonArrayLaws], [ContentLaws] (round trips), [OpenMlsLaws] (RFC 9420: epochs,
    commits, welcomes; and what OpenMLS asks before it opens something: that the storage
    holds the keys of the epoch, that the secret was not used before, the window of the
    message numbers), a fresh allocator in [FfiProps]. That no signature is forged and
    that random values differ are explicit hypotheses where they are used. Secrecy is a
    computational claim and is not stated. Every law class has an instance, at which the
    witnesses apply the theorems.

    ** What is shown

    - Delivery. [Conversation.conversation_delivers]: whatever a network loses, delays
      or reorders, a message in transit opens at its recipient, across ratchet turns,
      within the skip limits; [conversation_in_step] is the underlying agreement of the
      states. [SessionConversation.sessions_deliver] lifts it to sessions, from
      [Session::initiate] on, with first messages in any order and with restarts, and
      [FfiSession.ffi_sessions_deliver] to the C interface.
      [EnclaveSession.sealed_sessions_withstand]: behind the enclave they also survive
      whatever else the network sends that is refused. [Transports.either_transport_delivers]:
      one sealed envelope is collected and opened by its recipient over either
      implementation of [MessageTransport]: the relay's, addressed to the rotating inbox,
      and the mesh's, addressed to the identity, along any contacts with a route.
      [DemoPeerProps.demo_peer_round_trip]: a message and its answer through every layer,
      from the command line over client, HTTP, handler, store, rotating inboxes and
      envelopes, and back. [MeshProps]: integrity, hop limit and deduplication of the mesh;
      [MeshFlood.mesh_eventually_delivers]: any history of contacts that contains a route
      delivers, in a network of at most [ttl + 1] nodes, and [mesh_bound_is_sharp] that
      this is the most.
      [GroupProps.group_agreement]: clients that follow one order of commits agree on
      the members, accept the next commit and the messages within the window, and report
      who said what.
    - Refinement. [Enclave.enclave_refines]: sealed operations are the plain ones.
      [NetProps.relay_transparent]: a client call is the store operation.
      [RelayServerProps.serve_refines_store]: the request loop only performs store
      operations; [rate_limiter_exact]: it admits what a count of the calls of the
      minute admits. [FfiProps.publish_from_bytes_agrees].
    - Safety and durability. Genuine keys only ([initiate_only_with_genuine_keys]);
      prekeys given out once; caps of mailboxes and of a
      node's memory; [RelayPersistence]: after any interleaving of requests and flushes a
      clear dirty flag means the file holds the state, and a crash leaves the old or
      the new snapshot. [FfiProps.ffi_memory_safe]: a host that keeps the ownership table
      [exported] never reaches undefined behaviour and leaks only what it keeps.
    - Errors. What a refused request, envelope, export or frame leaves behind, and the
      cases where the code loses something: a replayed message, an unauthenticated
      header, a garbage first message, an identity that is claimed and not checked; and,
      beside the claims, [RatchetProps.cached_key_is_spent_on_failure],
      [RatchetProps.full_cache_desynchronizes], [RelayMain.ttl_days_wraps],
      [RelayPersistence.flush_forces_write], [GroupFork.concurrent_adds_fork].
    - Encodings. Envelopes, exports, query strings and message lists round trip;
      truncated exports are refused.
    - Termination. [RatchetProps.skip_loop_terminates]; [DemoPeerProps.demo_peer_ends].

    ** Bounds and fuel

    Two loops have fuel. [Ratchet.skip_loop] gets [until - n_recv], at most
    [MAX_SKIP] = 1000, and [skip_loop_terminates] shows that the loop ends by then, with
    that result. [DemoPeer.strip_all] gets the length of the text, of which every turn
    removes a byte ([strip_all_done]). Every other recursion is structural; the polling
    loop of [DemoPeer] runs over the turns it is given, and [demo_peer_ends] says how many
    are enough. There every call on the relay takes a time of its own, or never returns,
    as the client sets no limit: the theorem says that only this keeps the program from
    ending, and bounds the end by the time the calls take. [fits32] in theorems on ratchets
    bounds the number of messages of one chain by the 32-bit counter.

    ** Not modelled

    core/lib.rs and relay/lib.rs are re-exports. The cryptographic crates, bincode,
    serde_json, base64, tiny_http, ureq and OpenMLS are interfaces, as above; sockets and
    threads of the HTTP library are outside, requests come one at a time, as
    [serve_on_with] takes them (the interleavings of [RelayPersistence] are those of the
    store's own locks). The Flutter application is not Rust. Tests are not modelled. *)
From stdpp Require Export base tactics numbers list gmap sorting strings.
From Stdlib Require Export Lia.

Create HintDb clarity.
Create Rewrite HintDb clarity.

(** ** Results: the values of a fallible Rust function *)

Inductive result (E A : Type) : Type :=
| Ok (a : A)
| Err (e : E).
Arguments Ok {E A} _.
Arguments Err {E A} _.

#[export] Instance result_eq_dec `{EqDecision E, EqDecision A} : EqDecision (result E A).
Proof. solve_decision. Defined.

Definition is_ok {E A} (r : result E A) : bool :=
  match r with Ok _ => true | Err _ => false end.

Definition ok {E A} (r : result E A) : option A :=
  match r with Ok a => Some a | Err _ => None end.

Definition ok_or {E A} (o : option A) (e : E) : result E A :=
  match o with Some a => Ok a | None => Err e end.

Definition map_err {E F A} (f : E -> F) (r : result E A) : result F A :=
  match r with Ok a => Ok a | Err e => Err (f e) end.

(** [x <-? m ; k] is Rust's [let x = m?; k] in a function that mutates nothing. *)
Definition rbind {E A B} (m : result E A) (k : A -> result E B) : result E B :=
  match m with Ok a => k a | Err e => Err e end.

Lemma rbind_Ok {E A B} (m : result E A) (k : A -> result E B) b :
  rbind m k = Ok b <-> exists a, m = Ok a /\ k a = Ok b.
Proof.
  destruct m as [a|e]; cbn; split; [by eauto| |done|].
  - by intros (a' & [= <-] & Hk).
  - by intros (a' & Hm & _).
Qed.

Lemma rbind_Err {E A B} (m : result E A) (k : A -> result E B) e :
  rbind m k = Err e <-> m = Err e \/ exists a, m = Ok a /\ k a = Err e.
Proof.
  destruct m as [a|e']; cbn; split; [by eauto| |intros [= <-]; by left|].
  - by intros [?|(a' & [= <-] & Hk)].
  - by intros [[= <-]|(a' & Hm & _)].
Qed.

Lemma ok_or_Ok {E A} (o : option A) (e : E) a : ok_or o e = Ok a <-> o = Some a.
Proof. destruct o; cbn; split; by intros [= ->]. Qed.

Lemma map_err_Ok {E F A} (f : E -> F) (r : result E A) a : map_err f r = Ok a <-> r = Ok a.
Proof. destruct r; cbn; split; by intros [= ->]. Qed.

(** ** Fallible functions on a [&mut self]

    A Rust method [fn f(&mut self) -> Result<A, E>] keeps every mutation it made
    before an early return, so its meaning is a function to a result AND a state. *)
Definition mut (S E A : Type) : Type := S -> result E A * S.

Definition sret {S E A} (a : A) : mut S E A := fun s => (Ok a, s).
Definition sthrow {S E A} (e : E) : mut S E A := fun s => (Err e, s).
Definition sget {S E} : mut S E S := fun s => (Ok s, s).
Definition smodify {S E} (f : S -> S) : mut S E unit := fun s => (Ok tt, f s).
Definition slift {S E A} (r : result E A) : mut S E A := fun s => (r, s).
Definition sbind {S E A B} (m : mut S E A) (k : A -> mut S E B) : mut S E B :=
  fun s => match m s with
           | (Ok a, s') => k a s'
           | (Err e, s') => (Err e, s')
           end.

Declare Scope clarity_scope.
Delimit Scope clarity_scope with clarity.
Notation "x <-? m ; k" := (rbind m (fun x => k))
  (at level 20, m at level 100, k at level 200, right associativity) : clarity_scope.
Notation "'let!' x ':=' m 'in' k" := (sbind m (fun x => k))
  (at level 10, x binder, m at level 100, k at level 200) : clarity_scope.
Notation "m ';!' k" := (sbind m (fun _ => k))
  (at level 199, k at level 200, right associativity) : clarity_scope.
Open Scope clarity_scope.

Section MutLaws.
Context {S E : Type}.

Lemma sbind_ok {A B} (m : mut S E A) (k : A -> mut S E B) s a s' :
  m s = (Ok a, s') -> sbind m k s = k a s'.
Proof. unfold sbind. by intros ->. Qed.

Lemma sbind_err {A B} (m : mut S E A) (k : A -> mut S E B) s e s' :
  m s = (Err e, s') -> sbind m k s = (Err e, s').
Proof. unfold sbind. by intros ->. Qed.

Lemma sbind_Ok {A B} (m : mut S E A) (k : A -> mut S E B) s b s' :
  sbind m k s = (Ok b, s') -> exists a s1, m s = (Ok a, s1) /\ k a s1 = (Ok b, s').
Proof. unfold sbind. destruct (m s) as [[a|e] s1]; [by eauto|done]. Qed.

Lemma sbind_mret_l {A B} (a : A) (k : A -> mut S E B) s : sbind (sret a) k s = k a s.
Proof. done. Qed.

Lemma sbind_assoc {A B C} (m : mut S E A) (k : A -> mut S E B) (h : B -> mut S E C) s :
  sbind (sbind m k) h s = sbind m (fun a => sbind (k a) h) s.
Proof. unfold sbind. by destruct (m s) as [[a|e] s']. Qed.

(** A predicate that every step keeps is kept by the composition, whether or
    not it returns early. *)
Definition keeps {A} (I : S -> Prop) (m : mut S E A) : Prop :=
  forall s, I s -> I (m s).2.

Lemma keeps_bind {A B} (I : S -> Prop) (m : mut S E A) (k : A -> mut S E B) :
  keeps I m -> (forall a, keeps I (k a)) -> keeps I (sbind m k).
Proof.
  intros Hm Hk s Hs. unfold sbind. specialize (Hm s Hs).
  destruct (m s) as [[a|e] s']; [by apply Hk | done].
Qed.

Lemma keeps_sret {A} (I : S -> Prop) (a : A) : keeps I (sret a).
Proof. by intros s. Qed.

Lemma keeps_sthrow {A} (I : S -> Prop) (e : E) : keeps I (sthrow (A:=A) e).
Proof. by intros s. Qed.

Lemma keeps_sget (I : S -> Prop) : keeps I sget.
Proof. by intros s. Qed.

Lemma keeps_slift {A} (I : S -> Prop) (r : result E A) : keeps I (slift r).
Proof. by intros s. Qed.

(** Every error the function can return satisfies [P]. *)
Definition throws {A} (P : E -> Prop) (m : mut S E A) : Prop :=
  forall s e, (m s).1 = Err e -> P e.

Lemma throws_bind {A B} (P : E -> Prop) (m : mut S E A) (k : A -> mut S E B) :
  throws P m -> (forall a, throws P (k a)) -> throws P (sbind m k).
Proof.
  intros Hm Hk s e. unfold sbind. specialize (Hm s).
  destruct (m s) as [[a|e'] s']; [apply Hk|]. intros [= <-]. by apply Hm.
Qed.

Lemma throws_sret {A} (P : E -> Prop) (a : A) : throws P (sret a).
Proof. done. Qed.

Lemma keeps_smodify (I : S -> Prop) (f : S -> S) : (forall s, I s -> I (f s)) -> keeps I (smodify (E := E) f).
Proof. intros Hf s. apply Hf. Qed.

Lemma throws_smodify (P : E -> Prop) (f : S -> S) : throws P (smodify (S := S) f).
Proof. done. Qed.
End MutLaws.

(** What a composition keeps and throws follows from its steps. *)
#[export] Hint Resolve keeps_bind keeps_sret keeps_sthrow keeps_sget keeps_slift keeps_smodify : clarity.
#[export] Hint Resolve throws_bind throws_sret throws_smodify : clarity.

(** ** Reflexive-transitive closure of a step relation *)
Section Star.
Context {A : Type} (R : A -> A -> Prop).

Inductive star : A -> A -> Prop :=
| star_refl a : star a a
| star_step a b c : star a b -> R b c -> star a c.

Lemma star_invariant (I : A -> Prop) :
  (forall a b, I a -> R a b -> I b) -> forall a b, star a b -> I a -> I b.
Proof. intros Hstep a b Hab. induction Hab; eauto. Qed.

Lemma star_trans a b c : star a b -> star b c -> star a c.
Proof. intros Hab Hbc. revert Hab. induction Hbc; eauto using star. Qed.
End Star.

(** ** Scripts

    A step relation run by a function from actions to the next state, if the
    action is a step: how the witnesses reach a state by evaluation. *)
Section Script.
Context {A T : Type} (act : A -> T -> option T) (R : T -> T -> Prop).
Hypothesis act_step : forall a w w', act a w = Some w' -> R w w'.

Fixpoint script (acts : list A) (w : T) : option T :=
  match acts with
  | [] => Some w
  | a :: acts => match act a w with Some w => script acts w | None => None end
  end.

Definition script_end (acts : list A) (w : T) : T := default w (script acts w).
Definition script_ok (acts : list A) (w : T) : bool :=
  match script acts w with Some _ => true | None => false end.

Lemma script_star acts w w' : script acts w = Some w' -> star R w w'.
Proof.
  revert w. induction acts as [|a acts IH]; intros w; cbn; [intros [= <-]; apply star_refl|].
  destruct (act a w) as [w1|] eqn:Ha; [|done]. intros Hs. eapply star_trans; [|by apply IH].
  eapply star_step; [apply star_refl|by apply (act_step a)].
Qed.

Lemma script_reaches acts w : script_ok acts w = true -> star R w (script_end acts w).
Proof.
  unfold script_ok, script_end. destruct (script acts w) eqn:Hs; [|done]. intros _. by apply (script_star acts).
Qed.
End Script.

(** ** Ordered maps

    A [BTreeMap] is a finite map whose iteration order is the key order:
    [btree_iter] is the sorted list of its entries. *)
Section BTree.
Context {K V : Type} `{Countable K} (R : relation K) `{!RelDecision R}.

Definition entry_le (a b : K * V) : Prop := R a.1 b.1.
#[export] Instance entry_le_dec : RelDecision entry_le.
Proof. intros a b. unfold entry_le. apply _. Defined.

#[export] Instance entry_le_trans `{!Transitive R} : Transitive entry_le.
Proof. intros a b c. unfold entry_le. by transitivity (b.1). Qed.
#[export] Instance entry_le_total `{!Total R} : Total entry_le.
Proof. intros a b. apply (total R). Qed.

Definition btree_iter (m : gmap K V) : list (K * V) := merge_sort entry_le (map_to_list m).

Lemma btree_iter_perm m : btree_iter m ≡ₚ map_to_list m.
Proof. apply merge_sort_Permutation. Qed.

Lemma btree_iter_elem m k v : (k, v) ∈ btree_iter m <-> m !! k = Some v.
Proof. by rewrite btree_iter_perm, elem_of_map_to_list. Qed.

Lemma btree_iter_length m : length (btree_iter m) = size m.
Proof. by rewrite btree_iter_perm, length_map_to_list. Qed.

(** [into_iter().collect()]: the entries are inserted in turn, so the last
    value of a key stays. *)
Definition btree_collect (l : list (K * V)) : gmap K V :=
  foldl (fun m kv => <[kv.1 := kv.2]> m) ∅ l.

Lemma btree_collect_list_to_map l : NoDup l.*1 -> btree_collect l = list_to_map l.
Proof.
  unfold btree_collect. intros Hl.
  assert (forall m : gmap K V, (forall k, k ∈ l.*1 -> m !! k = None) ->
    foldl (fun m kv => <[kv.1 := kv.2]> m) m l = list_to_map l ∪ m) as Hgen.
  { induction l as [|[k v] l IH]; intros m Hm; simpl in *; [by rewrite (left_id_L ∅ _)|].
    apply NoDup_cons in Hl as [Hk Hl].
    rewrite IH; [|done|].
    - rewrite <-insert_union_l, <-insert_union_r; [done|]. by apply not_elem_of_list_to_map.
    - intros k' Hk'. rewrite lookup_insert_ne by (by intros ->). apply Hm. by right. }
  rewrite Hgen; [by rewrite (right_id_L ∅ _)|]. intros. apply lookup_empty.
Qed.

(** Collecting the entries back gives the map: [m.iter().collect() == m]. *)
Lemma btree_collect_iter m : btree_collect (btree_iter m) = m.
Proof.
  rewrite btree_collect_list_to_map
    by (rewrite btree_iter_perm; apply NoDup_fst_map_to_list).
  transitivity (list_to_map (M:=gmap K V) (map_to_list m)).
  - symmetry. apply list_to_map_proper; [|by rewrite btree_iter_perm].
    apply NoDup_fst_map_to_list.
  - apply list_to_map_to_list.
Qed.

Lemma btree_iter_keys_NoDup m : NoDup (btree_iter m).*1.
Proof. rewrite btree_iter_perm. apply NoDup_fst_map_to_list. Qed.

Lemma btree_iter_sorted `{!Transitive R, !Total R} m :
  StronglySorted entry_le (btree_iter m).
Proof. apply StronglySorted_merge_sort; apply _. Qed.

Lemma btree_iter_nil m : btree_iter m = [] <-> m = ∅.
Proof.
  split.
  - intros Hm. apply map_to_list_empty_iff. apply Permutation_nil.
    by rewrite <-btree_iter_perm, Hm.
  - intros ->. apply Permutation_nil. rewrite btree_iter_perm. by rewrite map_to_list_empty.
Qed.
End BTree.
Arguments btree_iter : simpl never.
Arguments btree_collect : simpl never.
