(* ===== verification/Words.v ===== *)
(** * Machine words and byte arrays

    [word w] is an unsigned Rust integer of [w] bits, carrying its range in its
    type; arithmetic is on the underlying [N] with the reduction written out.
    [array n] is a Rust [[u8; n]]: a byte list carrying its length. *)
From S2P Require Import Prelude.
From Stdlib Require Import Eqdep_dec.

Local Open Scope N_scope.

(** ** Words *)

Record word (w : N) : Set := Word { wval : N; wbound : (wval <? 2 ^ w) = true }.
Arguments Word {w} _ _.
Arguments wval {w} _.
Arguments wbound {w} _.
Coercion wval : word >-> N.

Abbreviation u8 := (word 8).
Abbreviation u16 := (word 16).
Abbreviation u32 := (word 32).
Abbreviation u64 := (word 64).

(** A bound proof that evaluates to [eq_refl] on closed words, so that closed
    words with equal values are convertible. *)
Definition norm_true (b : bool) : b = true -> b = true :=
  match b with true => fun _ => eq_refl | false => fun H => H end.

Lemma wrap_bound w n : (n mod 2 ^ w <? 2 ^ w) = true.
Proof. apply N.ltb_lt, N.mod_lt, N.pow_nonzero. lia. Qed.

(** [wrap w n] is [n as uW] and the result of the wrapping arithmetic of a
    release build. *)
Definition wrap (w n : N) : word w := Word (n mod 2 ^ w) (norm_true _ (wrap_bound w n)).

Definition wadd {w} (a b : word w) : word w := wrap w (a + b).
Definition wsucc {w} (a : word w) : word w := wrap w (a + 1).
(** [saturating_sub] *)
Definition wsat_sub {w} (a b : word w) : word w := wrap w (a - b).

Lemma word_lt {w} (a : word w) : wval a < 2 ^ w.
Proof. apply N.ltb_lt, wbound. Qed.

Lemma word_eq {w} (a b : word w) : wval a = wval b -> a = b.
Proof.
  destruct a as [a Ha], b as [b Hb]; simpl. intros ->. f_equal.
  apply UIP_dec, bool_dec.
Qed.

Lemma wval_inj_iff {w} (a b : word w) : a = b <-> wval a = wval b.
Proof. split; [by intros ->|apply word_eq]. Qed.

Lemma wval_wrap w n : wval (wrap w n) = n mod 2 ^ w.
Proof. done. Qed.

Lemma wval_wrap_small w n : n < 2 ^ w -> wval (wrap w n) = n.
Proof. intros. by apply N.mod_small. Qed.

Lemma wrap_wval {w} (a : word w) : wrap w a = a.
Proof. apply word_eq, wval_wrap_small, word_lt. Qed.

Lemma wval_wsucc {w} (a : word w) : wval a + 1 < 2 ^ w -> wval (wsucc a) = wval a + 1.
Proof. apply wval_wrap_small. Qed.

Lemma wval_wsat_sub {w} (a b : word w) : wval (wsat_sub a b) = wval a - wval b.
Proof. apply wval_wrap_small. pose proof (word_lt a). lia. Qed.

#[export] Instance word_eq_dec w : EqDecision (word w).
Proof.
  refine (fun a b => cast_if (decide (wval a = wval b)));
    [by apply word_eq|by intros ->].
Defined.

#[export] Program Instance word_countable w : Countable (word w) :=
  inj_countable wval (fun n => Some (wrap w n)) _.
Next Obligation. intros w a. cbv beta. f_equal. apply wrap_wval. Qed.

#[export] Instance word_inhabited w : Inhabited (word w) := populate (wrap w 0).

(** Order of [Ord] on an unsigned integer. *)
Definition wle {w} (a b : word w) : Prop := wval a <= wval b.
#[export] Instance wle_dec w : RelDecision (@wle w).
Proof. intros a b. unfold wle. apply _. Defined.
#[export] Instance wle_trans w : Transitive (@wle w).
Proof. intros a b c. unfold wle. lia. Qed.
#[export] Instance wle_total w : Total (@wle w).
Proof. intros a b. unfold wle. lia. Qed.
#[export] Instance wle_antisym w : AntiSymm (=) (@wle w).
Proof. intros a b. unfold wle. intros. apply word_eq. lia. Qed.

(** Poses the range of every word of a given width in the context. *)
Ltac word_bounds :=
  repeat match goal with
  | a : word ?w |- _ =>
      lazymatch goal with
      | _ : wval a < 2 ^ w |- _ => fail
      | _ => pose proof (word_lt a)
      end
  end.
Ltac word_lia := word_bounds; change (2 ^ 8) with 256 in *; change (2 ^ 32) with 4294967296 in *;
  change (2 ^ 64) with 18446744073709551616 in *; lia.

(** ** Counters: words as natural numbers *)

Definition cnt {w} (a : word w) : nat := N.to_nat (wval a).
Definition u32_of (i : nat) : u32 := wrap 32 (N.of_nat i).

(** [i] fits a [u32]. *)
Definition fits32 (i : nat) : Prop := N.of_nat i < 2 ^ 32.

Lemma wval_u32_of i : fits32 i -> wval (u32_of i) = N.of_nat i.
Proof. apply wval_wrap_small. Qed.

Lemma cnt_u32_of i : fits32 i -> cnt (u32_of i) = i.
Proof. intros Hi. unfold cnt. by rewrite wval_u32_of, Nat2N.id. Qed.

Lemma u32_of_cnt (a : u32) : u32_of (cnt a) = a.
Proof. unfold u32_of, cnt. rewrite N2Nat.id. apply wrap_wval. Qed.

Lemma fits32_cnt (a : u32) : fits32 (cnt a).
Proof. unfold fits32, cnt. rewrite N2Nat.id. apply word_lt. Qed.

Lemma u32_of_inj i j : fits32 i -> fits32 j -> u32_of i = u32_of j -> i = j.
Proof. intros Hi Hj Heq. by rewrite <-(cnt_u32_of i), Heq, cnt_u32_of. Qed.

Lemma cnt_inj (a b : u32) : cnt a = cnt b -> a = b.
Proof. intros Heq. by rewrite <-(u32_of_cnt a), Heq, u32_of_cnt. Qed.

Lemma u32_of_pair_ne {A} (x y : A) i j :
  fits32 i -> fits32 j -> i <> j -> (x, u32_of i) <> (y, u32_of j).
Proof. intros Hi Hj Hne Heq. apply (f_equal snd) in Heq. by apply u32_of_inj in Heq. Qed.

Lemma wsucc_u32_of i : fits32 (S i) -> wsucc (u32_of i) = u32_of (S i).
Proof.
  intros Hi. apply word_eq. unfold fits32 in Hi. unfold wsucc.
  rewrite wval_u32_of by (unfold fits32; lia). rewrite wval_wrap_small by lia.
  rewrite wval_u32_of by done. lia.
Qed.

Lemma fits32_le i j : (i <= j)%nat -> fits32 j -> fits32 i.
Proof. unfold fits32. lia. Qed.

(** Solves [fits32 i] from a hypothesis on a larger number. *)
Ltac fits :=
  match goal with
  | H : fits32 ?j |- fits32 ?i => apply (fits32_le i j); [lia|exact H]
  end.

(** ** Bytes of strings *)

Definition byte_of_ascii (c : Ascii.ascii) : u8 := wrap 8 (Ascii.N_of_ascii c).
Definition ascii_of_byte (b : u8) : Ascii.ascii := Ascii.ascii_of_N b.

Definition bytes_of_string (s : string) : list u8 :=
  map byte_of_ascii (String.list_ascii_of_string s).

(** ** Little-endian encodings ([to_le_bytes], [from_le_bytes]) *)

Fixpoint le_bytes (k : nat) (n : N) : list u8 :=
  match k with
  | O => []
  | S k => wrap 8 n :: le_bytes k (n / 256)
  end.

Fixpoint le_value (bs : list u8) : N :=
  match bs with
  | [] => 0
  | b :: bs => b + 256 * le_value bs
  end.

Lemma length_le_bytes k n : length (le_bytes k n) = k.
Proof. revert n. induction k; intros; simpl; auto. Qed.

Lemma le_value_bytes k n : le_value (le_bytes k n) = n mod 256 ^ N.of_nat k.
Proof.
  revert n. induction k as [|k IH]; intros n; cbn [le_bytes le_value].
  - by rewrite N.mod_1_r.
  - rewrite IH, wval_wrap, Nat2N.inj_succ, N.pow_succ_r'. change (2 ^ 8) with 256.
    by rewrite N.Div0.mod_mul_r.
Qed.

Lemma le_value_bound bs : le_value bs < 256 ^ N.of_nat (length bs).
Proof.
  induction bs as [|b bs IH]; cbn [le_value length]; [done|].
  rewrite Nat2N.inj_succ, N.pow_succ_r'. pose proof (word_lt b) as Hb.
  change (2 ^ 8) with 256 in Hb. nia.
Qed.

Lemma le_bytes_value bs : le_bytes (length bs) (le_value bs) = bs.
Proof.
  induction bs as [|b bs IH]; cbn [le_value length le_bytes]; [done|].
  pose proof (word_lt b) as Hb. change (2 ^ 8) with 256 in Hb.
  replace (b + 256 * le_value bs) with (le_value bs * 256 + b) by lia.
  f_equal.
  - apply word_eq. rewrite wval_wrap. change (2 ^ 8) with 256.
    rewrite N.add_comm, N.Div0.mod_add. by apply N.mod_small.
  - rewrite N.div_add_l, (N.div_small b), N.add_0_r by lia. apply IH.
Qed.

(** ** Byte arrays *)

Record array (n : nat) : Set := Array { abytes : list u8; alen : (length abytes =? n)%nat = true }.
Arguments Array {n} _ _.
Arguments abytes {n} _.
Arguments alen {n} _.
Coercion abytes : array >-> list.

Abbreviation key32 := (array 32).

Lemma array_length {n} (a : array n) : length (abytes a) = n.
Proof. apply Nat.eqb_eq, alen. Qed.

Lemma array_eq {n} (a b : array n) : abytes a = abytes b -> a = b.
Proof.
  destruct a as [a Ha], b as [b Hb]; simpl. intros ->. f_equal.
  apply UIP_dec, bool_dec.
Qed.

(** [<[u8; n]>::try_from(slice)]: fails exactly on a length mismatch. *)
Definition array_of (n : nat) (l : list u8) : option (array n) :=
  match decide (length l = n) with
  | left H => Some (Array l (norm_true _ (proj2 (Nat.eqb_eq _ _) H)))
  | right _ => None
  end.

Lemma array_of_abytes {n} (a : array n) : array_of n (abytes a) = Some a.
Proof.
  unfold array_of. destruct (decide _) as [H|H].
  - f_equal. by apply array_eq.
  - by destruct H; apply array_length.
Qed.

Lemma array_of_Some n l (a : array n) : array_of n l = Some a <-> abytes a = l.
Proof.
  split; [|intros <-; apply array_of_abytes].
  unfold array_of. by destruct (decide _); intros; simplify_eq.
Qed.

Lemma array_of_None n l : array_of n l = None <-> length l <> n.
Proof. unfold array_of. by destruct (decide _). Qed.

Lemma array_of_is_Some n l : length l = n -> exists a, array_of n l = Some a /\ abytes a = l.
Proof. intros H. unfold array_of. destruct (decide _); [eauto|done]. Qed.

#[export] Instance array_eq_dec n : EqDecision (array n).
Proof.
  refine (fun a b => cast_if (decide (abytes a = abytes b)));
    [by apply array_eq|by intros ->].
Defined.

#[export] Program Instance array_countable n : Countable (array n) :=
  inj_countable abytes (array_of n) _.
Next Obligation. intros n a. apply array_of_abytes. Qed.

(** An array from a list known to have the right length: [copy_from_slice]. *)
Definition mk_array {n} (l : list u8) (H : length l = n) : array n :=
  Array l (norm_true _ (proj2 (Nat.eqb_eq _ _) H)).

Lemma split_length_l {n m} (a : array (n + m)) : length (take n (abytes a)) = n.
Proof. rewrite length_take, array_length. lia. Qed.

Lemma split_length_r {n m} (a : array (n + m)) : length (drop n (abytes a)) = m.
Proof. rewrite length_drop, array_length. lia. Qed.

(** [out.copy_from_slice(&a[..n])] and [out.copy_from_slice(&a[n..])]. *)
Definition split_array {n m} (a : array (n + m)) : array n * array m :=
  (mk_array (take n a) (split_length_l a), mk_array (drop n a) (split_length_r a)).

Lemma split_array_app {n m} (a : array (n + m)) :
  abytes a = (split_array a).1 ++ (split_array a).2.
Proof. simpl. by rewrite take_drop. Qed.

Lemma app_array_length {n m} (a : array n) (b : array m) : length (a ++ b) = (n + m)%nat.
Proof. by rewrite length_app, !array_length. Qed.

Definition app_array {n m} (a : array n) (b : array m) : array (n + m) :=
  mk_array (a ++ b) (app_array_length a b).

(** [[b; n]] *)
Definition fill_array (n : nat) (b : u8) : array n := mk_array (replicate n b) (length_replicate n b).

(** ** The lexicographic order of [Ord] on byte slices *)

Fixpoint bytes_leb (l k : list u8) : bool :=
  match l, k with
  | [], _ => true
  | _ :: _, [] => false
  | x :: l, y :: k => (wval x <? wval y) || ((wval x =? wval y) && bytes_leb l k)
  end.

Lemma bytes_leb_refl l : bytes_leb l l = true.
Proof. induction l as [|x l IH]; simpl; [done|]. by rewrite N.eqb_refl, IH, orb_true_r. Qed.

Lemma bytes_leb_total l k : bytes_leb l k = false -> bytes_leb k l = true.
Proof.
  revert k. induction l as [|x l IH]; intros [|y k]; simpl; try done.
  rewrite !orb_true_iff, !andb_true_iff, orb_false_iff, andb_false_iff.
  intros [Hlt [Hne|Hlk]].
  - left. rewrite N.ltb_ge, N.eqb_neq, N.ltb_lt in *. lia.
  - rewrite N.ltb_ge, N.ltb_lt, N.eqb_eq in *.
    destruct (decide (wval x = wval y)); [right; auto|left; lia].
Qed.

Lemma bytes_leb_antisymm l k : bytes_leb l k = true -> bytes_leb k l = true -> l = k.
Proof.
  revert k. induction l as [|x l IH]; intros [|y k]; simpl; try done.
  rewrite !orb_true_iff, !andb_true_iff. intros H1 H2.
  rewrite !N.ltb_lt, !N.eqb_eq in *. assert (x = y) as -> by (apply word_eq; lia).
  f_equal. apply IH; [destruct H1 as [|[]]|destruct H2 as [|[]]]; done || lia.
Qed.

Lemma bytes_leb_trans l k h :
  bytes_leb l k = true -> bytes_leb k h = true -> bytes_leb l h = true.
Proof.
  revert k h. induction l as [|x l IH]; intros [|y k] [|z h]; simpl; try done.
  rewrite !orb_true_iff, !andb_true_iff. intros [H1|[H1 H1']] [H2|[H2 H2']];
    rewrite ?N.ltb_lt, ?N.eqb_eq in *; [left; lia|left; lia|left; lia|].
  right. split; [congruence|eauto].
Qed.

(** The derived [Ord] on the key tuple [([u8; 32], u32)] of the skipped-key cache. *)
Definition skip_key_le (a b : key32 * u32) : Prop :=
  (bytes_leb a.1 b.1 && (negb (bytes_leb b.1 a.1) || (wval a.2 <=? wval b.2))) = true.

#[export] Instance skip_key_le_dec : RelDecision skip_key_le.
Proof. intros a b. unfold skip_key_le. apply _. Defined.
