(* ===== verification/Primitives.v ===== *)
(** * The cryptographic primitives and the serializer, as interfaces

    The crates the core calls (x25519-dalek, ed25519-dalek, ml-kem, sha2, hmac,
    hkdf, chacha20poly1305, bincode) are not part of the repository. Each is a
    class of operations, with the documented behaviour the code relies on as a
    class of laws. A value drawn from the OS random generator is an argument of
    the operation that draws it. *)
From S2P Require Import Prelude Words.

(** ** x25519-dalek *)
Class X25519 := {
  StaticSecret : Type;
  secret_from : key32 -> StaticSecret;           (** [StaticSecret::from] *)
  secret_bytes : StaticSecret -> key32;          (** [to_bytes] *)
  public_of : StaticSecret -> key32;             (** [PublicKey::from(&s).to_bytes()] *)
  diffie_hellman : StaticSecret -> key32 -> key32
}.

Class X25519Laws `{X25519} : Prop := {
  secret_from_bytes s : secret_from (secret_bytes s) = s;
  secret_bytes_from b : secret_bytes (secret_from b) = b;
  dh_comm a b : diffie_hellman a (public_of b) = diffie_hellman b (public_of a)
}.

(** ** sha2, hmac, hkdf and chacha20poly1305 *)
Class SymCrypto := {
  sha256 : list u8 -> key32;
  sha512 : list u8 -> array 64;
  hmac_sha256 : list u8 -> list u8 -> key32;     (** key, message *)
  (** [Hkdf::<Sha256>::new(Some(salt), ikm).expand(info, &mut [0; n])] for a
      valid output length [n]. *)
  hkdf_sha256 : list u8 -> list u8 -> list u8 -> forall n : nat, array n;
  xchacha_encrypt : key32 -> array 24 -> list u8 -> list u8 -> list u8;          (** key, nonce, msg, aad *)
  xchacha_decrypt : key32 -> array 24 -> list u8 -> list u8 -> option (list u8)
}.

(** The AEAD opens what it sealed, opens nothing else (the ciphertext and tag of
    a key, nonce, message and associated data are determined), and appends a
    16-byte tag. *)
Class SymCryptoLaws `{SymCrypto} : Prop := {
  xchacha_open_seal k n p ad : xchacha_decrypt k n (xchacha_encrypt k n p ad) ad = Some p;
  xchacha_seal_open k n c ad p : xchacha_decrypt k n c ad = Some p -> c = xchacha_encrypt k n p ad;
  xchacha_length k n p ad : length (xchacha_encrypt k n p ad) = length p + 16
}.

(** ** ed25519-dalek *)
Class Ed25519 := {
  SigningKey : Type;
  VerifyingKey : Type;
  Signature : Type;
  signing_from : key32 -> SigningKey;            (** [SigningKey::from_bytes] *)
  signing_bytes : SigningKey -> key32;
  verifying_key : SigningKey -> VerifyingKey;
  verifying_bytes : VerifyingKey -> key32;
  verifying_from : key32 -> option VerifyingKey; (** [VerifyingKey::from_bytes] *)
  ed_sign : SigningKey -> list u8 -> Signature;
  signature_bytes : Signature -> array 64;
  signature_from : list u8 -> option Signature;  (** [Signature::from_slice] *)
  ed_verify : VerifyingKey -> list u8 -> Signature -> bool
}.

Class Ed25519Laws `{Ed25519} : Prop := {
  signing_from_bytes k : signing_from (signing_bytes k) = k;
  verifying_from_bytes k :
    verifying_from (verifying_bytes (verifying_key k)) = Some (verifying_key k);
  signature_from_bytes s : signature_from (signature_bytes s) = Some s;
  verify_sign k m : ed_verify (verifying_key k) m (ed_sign k m) = true
}.

(** ** ml-kem: the ML-KEM-1024 parameter set *)
Definition MLKEM_EK_LEN : nat := 1568.
Definition MLKEM_CT_LEN : nat := 1568.
Definition MLKEM_DK_LEN : nat := 3168.

Class MlKem := {
  DecapKey : Type;
  EncapKey : Type;
  EncapSeed : Type;                              (** the randomness of [encapsulate] *)
  encapsulation_key : DecapKey -> EncapKey;
  encap_bytes : EncapKey -> array MLKEM_EK_LEN;  (** [as_bytes] *)
  encap_from : array MLKEM_EK_LEN -> EncapKey;   (** [from_bytes] *)
  decap_bytes : DecapKey -> array MLKEM_DK_LEN;
  decap_from : array MLKEM_DK_LEN -> DecapKey;
  kem_encapsulate : EncapKey -> EncapSeed -> option (array MLKEM_CT_LEN * key32);
  kem_decapsulate : DecapKey -> array MLKEM_CT_LEN -> option key32
}.

Class MlKemLaws `{MlKem} : Prop := {
  encap_from_bytes k : encap_from (encap_bytes k) = k;
  decap_from_bytes k : decap_from (decap_bytes k) = k;
  kem_correct d s ct ss :
    kem_encapsulate (encapsulation_key d) s = Some (ct, ss) -> kem_decapsulate d ct = Some ss
}.

(** ** bincode

    [bincode::serialize(..).expect(..)] and [bincode::deserialize] at one type;
    the error is the text of the decoding error. *)
Class Bincode (A : Type) := {
  bincode_serialize : A -> list u8;
  bincode_deserialize : list u8 -> result string A
}.

Class BincodeLaws (A : Type) `{Bincode A} : Prop := {
  bincode_roundtrip x : bincode_deserialize (bincode_serialize x) = Ok x
}.

Lemma bincode_inj `{BincodeLaws A} (x y : A) :
  bincode_serialize x = bincode_serialize y -> x = y.
Proof.
  intros Hxy. apply (f_equal bincode_deserialize) in Hxy.
  rewrite !bincode_roundtrip in Hxy. by injection Hxy.
Qed.
