(* ===== verification/Demo.v ===== *)
(** * Concrete instances of the interfaces

    Small total functions that satisfy every law of [Primitives]. They stand for
    no real primitive: the theorems are proved for every instance, and the
    witnesses evaluate them at this one. *)
From S2P Require Import Prelude Words Primitives.

Module Demo.

Local Open Scope N_scope.

(** ** A keyed checksum with [n] output bytes *)
Fixpoint checksum (acc : N) (l : list u8) : N :=
  match l with
  | [] => acc
  | b :: l => checksum (N.land (acc * 31 + b + 7) 65535) l
  end.

(** Sixteen bits of the checksum at positions 0 and 32, zeros elsewhere. *)
Definition digest (n : nat) (parts : list (list u8)) : array n :=
  let s := checksum 1 (concat (map (fun p => wrap 8 (N.of_nat (length p)) :: p) parts)) in
  let t := s * 7 + 3 in
  mk_array (resize n (wrap 8 0)
              ([wrap 8 s; wrap 8 (s / 256)] ++ replicate 30 (wrap 8 0) ++ [wrap 8 t; wrap 8 (t / 256)]))
    (length_resize _ _ _).

Lemma zip_wadd_comm {w} (l k : list (word w)) : zip_with wadd l k = zip_with wadd k l.
Proof.
  revert k. induction l as [|x l IH]; intros [|y k]; simpl; try done.
  f_equal; [|apply IH]. unfold wadd. by rewrite N.add_comm.
Qed.

#[export] Instance x25519 : X25519 := {
  StaticSecret := key32;
  secret_from b := b;
  secret_bytes s := s;
  public_of s := s;
  diffie_hellman a p := digest 32 [zip_with wadd (abytes a) (abytes p)]
}.

#[export] Instance x25519_laws : X25519Laws.
Proof.
  split; [done|done|]. intros a b. cbn -[digest]. by rewrite zip_wadd_comm.
Qed.

Definition tag (k : key32) (n : array 24) (p ad : list u8) : list u8 :=
  digest 16 [abytes k; abytes n; p; ad].

#[export] Instance sym_crypto : SymCrypto := {
  sha256 m := digest 32 [m];
  sha512 m := digest 64 [m];
  hmac_sha256 k m := digest 32 [k; m];
  hkdf_sha256 salt ikm info n := digest n [salt; ikm; info];
  xchacha_encrypt k n p ad := p ++ tag k n p ad;
  xchacha_decrypt k n c ad :=
    let p := take (length c - 16) c in
    if decide (c = p ++ tag k n p ad) then Some p else None
}.

#[export] Instance sym_crypto_laws : SymCryptoLaws.
Proof.
  assert (forall k n p ad, take (length (p ++ tag k n p ad) - 16) (p ++ tag k n p ad) = p) as Htake.
  { intros. rewrite length_app. unfold tag at 1. rewrite array_length.
    rewrite Nat.add_sub. by rewrite take_app_length. }
  split.
  - intros. cbn -[take tag length]. rewrite Htake. by rewrite decide_True.
  - intros k n c ad p. cbn -[take tag length]. case_decide as Hc; [|done].
    intros [= Hp]. rewrite Hp in Hc. done.
  - intros. cbn -[take tag length]. rewrite length_app. unfold tag. by rewrite array_length.
Qed.

#[export] Instance ed25519 : Ed25519 := {
  SigningKey := key32;
  VerifyingKey := key32;
  Signature := array 64;
  signing_from b := b;
  signing_bytes k := k;
  verifying_key k := k;
  verifying_bytes k := k;
  verifying_from b := Some b;
  ed_sign k m := digest 64 [abytes k; m];
  signature_bytes s := s;
  signature_from l := array_of 64 l;
  ed_verify k m s := bool_decide (s = digest 64 [abytes k; m])
}.

#[export] Instance ed25519_laws : Ed25519Laws.
Proof.
  split; try done.
  - intros s. apply array_of_abytes.
  - intros k m. by apply bool_decide_eq_true.
Qed.

Lemma pad_length n (l : list u8) : length (resize n (wrap 8 0) l) = n.
Proof. apply length_resize. Qed.

(** A key encapsulation whose keys are padded seeds, for any sizes above 32. *)
Definition resize_array {n} (m : nat) (a : array n) : array m :=
  mk_array (resize m (wrap 8 0) (abytes a)) (pad_length _ _).

Definition toy_encapsulate {ek} (ct : nat) (k : array ek) (s : key32) : option (array ct * key32) :=
  Some (resize_array ct s, digest 32 [take 32 (abytes k); abytes s]).

Definition toy_decapsulate {dk ct} (d : array dk) (c : array ct) : option key32 :=
  Some (digest 32 [take 32 (abytes d); take 32 (abytes c)]).

Lemma take_resize n m (l : list u8) :
  (n <= m)%nat -> (n <= length l)%nat -> take n (resize m (wrap 8 0) l) = take n l.
Proof.
  intros Hm Hl. rewrite resize_spec, take_app_le, take_take; [f_equal; lia|].
  rewrite length_take. lia.
Qed.

Lemma toy_correct dk ek ct (d : array dk) (s : key32) (c : array ct) (ss : key32) :
  (32 <= dk)%nat -> (32 <= ek)%nat -> (32 <= ct)%nat ->
  toy_encapsulate ct (resize_array ek d) s = Some (c, ss) -> toy_decapsulate d c = Some ss.
Proof.
  intros Hdk Hek Hct [= <- <-]. unfold toy_decapsulate. cbn -[resize take digest].
  rewrite !take_resize by (rewrite ?array_length; lia).
  by rewrite (take_ge (abytes s)) by (rewrite array_length; lia).
Qed.

#[export] Instance ml_kem : MlKem := {
  DecapKey := array MLKEM_DK_LEN;
  EncapKey := array MLKEM_EK_LEN;
  EncapSeed := key32;
  encapsulation_key d := resize_array MLKEM_EK_LEN d;
  encap_bytes k := k;
  encap_from b := b;
  decap_bytes k := k;
  decap_from b := b;
  kem_encapsulate k s := toy_encapsulate MLKEM_CT_LEN k s;
  kem_decapsulate d ct := toy_decapsulate d ct
}.

#[export] Instance ml_kem_laws : MlKemLaws.
Proof.
  split; [done|done|]. intros d s ct ss.
  apply toy_correct; apply Nat.leb_le; vm_compute; reflexivity.
Qed.

#[local] Unset Program Cases.

(** ** A self-delimiting codec

    [enc] and [dec] with the law [dec (enc x ++ rest) = Some (x, rest)], closed
    under the type formers of the serialized structures. *)
Class Codec (A : Type) := {
  enc : A -> list u8;
  dec : list u8 -> option (A * list u8);
  dec_enc x rest : dec (enc x ++ rest) = Some (x, rest)
}.

#[export] Instance codec_bincode `{Codec A} : Bincode A := {
  bincode_serialize := enc;
  bincode_deserialize bs :=
    match dec bs with Some (x, _) => Ok x | None => Err "decode"%string end
}.

#[export] Instance codec_bincode_laws `{Codec A} : BincodeLaws A.
Proof.
  split. intros x. cbn. rewrite <-(app_nil_r (enc x)). by rewrite dec_enc.
Qed.

#[export] Program Instance unit_codec : Codec unit :=
  {| enc _ := []; dec l := Some (tt, l) |}.
Next Obligation. by intros []. Qed.

(** Words of at most 64 bits, on eight bytes. *)
Definition word_dec (w : N) (l : list u8) : option (word w * list u8) :=
  if decide (8 <= length l)%nat then Some (wrap w (le_value (take 8 l)), drop 8 l) else None.

Lemma word_dec_enc w (x : word w) rest : (w <= 64) -> word_dec w (le_bytes 8 x ++ rest) = Some (x, rest).
Proof.
  intros Hw. unfold word_dec. rewrite decide_True by (rewrite length_app, length_le_bytes; lia).
  rewrite take_app_length', drop_app_length' by (by rewrite length_le_bytes).
  rewrite le_value_bytes, N.mod_small; [by rewrite wrap_wval|].
  eapply N.lt_le_trans; [apply word_lt|].
  change (256 ^ N.of_nat 8) with (2 ^ 64). apply N.pow_le_mono_r; lia.
Qed.

#[export] Instance u8_codec : Codec u8 :=
  {| enc (x : u8) := le_bytes 8 x; dec := word_dec 8; dec_enc x r := word_dec_enc 8 x r ltac:(lia) |}.
#[export] Instance u32_codec : Codec u32 :=
  {| enc (x : u32) := le_bytes 8 x; dec := word_dec 32; dec_enc x r := word_dec_enc 32 x r ltac:(lia) |}.
#[export] Instance u64_codec : Codec u64 :=
  {| enc (x : u64) := le_bytes 8 x; dec := word_dec 64; dec_enc x r := word_dec_enc 64 x r ltac:(lia) |}.

#[export] Program Instance array_codec n : Codec (array n) := {|
  enc a := abytes a;
  dec l := match array_of n (take n l) with Some a => Some (a, drop n l) | None => None end
|}.
Next Obligation.
  intros n a rest. cbv beta. rewrite take_app_length', drop_app_length' by (by rewrite array_length).
  by rewrite array_of_abytes.
Qed.

(** A list: each element preceded by 1, the end marked by 0. *)
Fixpoint list_enc {A} (e : A -> list u8) (l : list A) : list u8 :=
  match l with
  | [] => [wrap 8 0]
  | x :: l => wrap 8 1 :: e x ++ list_enc e l
  end.

Fixpoint list_dec {A} (d : list u8 -> option (A * list u8)) (fuel : nat) (bs : list u8)
  : option (list A * list u8) :=
  match fuel, bs with
  | S fuel, b :: bs =>
      if N.eqb b 0 then Some ([], bs)
      else match d bs with
           | Some (x, bs) =>
               match list_dec d fuel bs with
               | Some (l, bs) => Some (x :: l, bs)
               | None => None
               end
           | None => None
           end
  | _, _ => None
  end.

Lemma list_dec_enc `{Codec A} (l : list A) fuel rest :
  (length (list_enc enc l) <= fuel)%nat -> list_dec dec fuel (list_enc enc l ++ rest) = Some (l, rest).
Proof.
  revert fuel. induction l as [|x l IH]; intros [|fuel] Hfuel; cbn in Hfuel |- *; try lia; [done|].
  rewrite <-app_assoc, dec_enc, IH; [done|]. rewrite length_app in Hfuel. lia.
Qed.

#[export] Program Instance list_codec `{Codec A} : Codec (list A) := {|
  enc := list_enc enc;
  dec bs := list_dec dec (length bs) bs
|}.
Next Obligation. intros A ? l rest. cbv beta. apply list_dec_enc. rewrite length_app. lia. Qed.

#[export] Program Instance pair_codec `{Codec A, Codec B} : Codec (A * B) := {|
  enc p := enc p.1 ++ enc p.2;
  dec bs := match dec bs with
            | Some (a, bs) => match dec bs with Some (b, bs) => Some ((a, b), bs) | None => None end
            | None => None
            end
|}.
Next Obligation. intros A ? B ? [a b] rest. cbn. by rewrite <-app_assoc, !dec_enc. Qed.

#[export] Program Instance option_codec `{Codec A} : Codec (option A) := {|
  enc o := match o with None => [wrap 8 0] | Some a => wrap 8 1 :: enc a end;
  dec bs := match bs with
            | b :: bs => if N.eqb b 0 then Some (None, bs)
                         else match dec bs with Some (a, bs) => Some (Some a, bs) | None => None end
            | [] => None
            end
|}.
Next Obligation. intros A ? [a|] rest; cbn; [|done]. by rewrite dec_enc. Qed.

#[export] Program Instance sum_codec `{Codec A, Codec B} : Codec (A + B) := {|
  enc s := match s with inl a => wrap 8 0 :: enc a | inr b => wrap 8 1 :: enc b end;
  dec bs := match bs with
            | b :: bs => if N.eqb b 0
                         then match dec bs with Some (a, bs) => Some (inl a, bs) | None => None end
                         else match dec bs with Some (a, bs) => Some (inr a, bs) | None => None end
            | [] => None
            end
|}.
Next Obligation. intros A ? B ? [a|b] rest; cbn; by rewrite dec_enc. Qed.

(** A structure through the tuple of its fields. *)
Program Definition iso_codec {A B} `{Codec B} (f : A -> B) (g : B -> A)
    (Hgf : forall x, g (f x) = x) : Codec A := {|
  enc x := enc (f x);
  dec bs := match dec bs with Some (y, bs) => Some (g y, bs) | None => None end
|}.
Next Obligation. intros A B ? f g Hgf x rest. cbv beta. rewrite dec_enc. cbv iota beta. by rewrite Hgf. Qed.

(** Byte lists and keys for the witnesses. *)
Definition bytes (l : list N) : list u8 := map (wrap 8) l.
Definition key (n : N) : key32 := fill_array 32 (wrap 8 n).
Definition secret (n : N) : @StaticSecret x25519 := key n.

(** Keys that differ in their first byte differ. *)
Lemma keys_differ (k k' : key32) :
  bool_decide (head (abytes k) = head (abytes k')) = false -> k <> k'.
Proof. intros Hd ->. by rewrite bool_decide_eq_false in Hd. Qed.

End Demo.
