(* ===== verification/Wire.v ===== *)
(** * Wire types and their encoding (core/src/wire.rs, core/src/error.rs)

    The structures that travel between the parties, the core's error type, and
    [encode]/[decode] of messages and bundles over the serializer interface. *)
From S2P Require Import Prelude Words Primitives Demo.
From stdpp Require Import pretty.

Inductive Error : Set :=
| BadSignature
| MalformedKey
| Decrypt
| UnknownPrekey
| Wire (message : string)
| UnexpectedMessage.

#[export] Instance Error_eq_dec : EqDecision Error.
Proof. solve_decision. Defined.

Definition PROTOCOL_VERSION : u8 := wrap 8 1.

Definition OneTimePrekeyPublics : Type := list (u32 * key32).

Record PreKeyBundle : Set := mkBundle {
  pb_identity_ed : key32;
  pb_identity_dh : key32;
  pb_identity_dh_sig : list u8;
  pb_signed_prekey : key32;
  pb_signed_prekey_id : u32;
  pb_signed_prekey_sig : list u8;
  pb_kyber_prekey : list u8;
  pb_kyber_prekey_id : u32;
  pb_kyber_prekey_sig : list u8;
  pb_one_time_prekey : option key32;
  pb_one_time_prekey_id : option u32
}.

Record RatchetHeader : Set := mkHeader {
  rh_dh_pub : key32;
  rh_pn : u32;
  rh_n : u32
}.

Record HandshakeHeader : Set := mkHandshake {
  hs_identity_ed : key32;
  hs_identity_dh : key32;
  hs_ephemeral_dh : key32;
  hs_signed_prekey_id : u32;
  hs_one_time_prekey_id : option u32;
  hs_kyber_prekey_id : u32;
  hs_kyber_ciphertext : list u8
}.

Inductive Message : Set :=
| PreKey (handshake : HandshakeHeader) (header : RatchetHeader) (ciphertext : list u8)
| Normal (header : RatchetHeader) (ciphertext : list u8).

#[export] Instance PreKeyBundle_eq_dec : EqDecision PreKeyBundle.
Proof. solve_decision. Defined.
#[export] Instance RatchetHeader_eq_dec : EqDecision RatchetHeader.
Proof. solve_decision. Defined.
#[export] Instance HandshakeHeader_eq_dec : EqDecision HandshakeHeader.
Proof. solve_decision. Defined.
#[export] Instance Message_eq_dec : EqDecision Message.
Proof. solve_decision. Defined.

(** The base bundle: no one-time prekey. *)
Definition without_one_time (b : PreKeyBundle) : PreKeyBundle :=
  {| pb_identity_ed := pb_identity_ed b;
     pb_identity_dh := pb_identity_dh b;
     pb_identity_dh_sig := pb_identity_dh_sig b;
     pb_signed_prekey := pb_signed_prekey b;
     pb_signed_prekey_id := pb_signed_prekey_id b;
     pb_signed_prekey_sig := pb_signed_prekey_sig b;
     pb_kyber_prekey := pb_kyber_prekey b;
     pb_kyber_prekey_id := pb_kyber_prekey_id b;
     pb_kyber_prekey_sig := pb_kyber_prekey_sig b;
     pb_one_time_prekey := None;
     pb_one_time_prekey_id := None |}.

(** The bundle with one of the pool's prekeys attached. *)
Definition with_one_time (b : PreKeyBundle) (id : u32) (public : key32) : PreKeyBundle :=
  {| pb_identity_ed := pb_identity_ed b;
     pb_identity_dh := pb_identity_dh b;
     pb_identity_dh_sig := pb_identity_dh_sig b;
     pb_signed_prekey := pb_signed_prekey b;
     pb_signed_prekey_id := pb_signed_prekey_id b;
     pb_signed_prekey_sig := pb_signed_prekey_sig b;
     pb_kyber_prekey := pb_kyber_prekey b;
     pb_kyber_prekey_id := pb_kyber_prekey_id b;
     pb_kyber_prekey_sig := pb_kyber_prekey_sig b;
     pb_one_time_prekey := Some public;
     pb_one_time_prekey_id := Some id |}.

Definition message_header (m : Message) : RatchetHeader :=
  match m with
  | PreKey _ header _ => header
  | Normal header _ => header
  end.

(** ** [Message::encode] and [Message::decode] *)
Section Encoding.
Context `{Bincode Message, Bincode PreKeyBundle}.

Definition message_encode (m : Message) : list u8 :=
  let out := [PROTOCOL_VERSION] in
  let body := bincode_serialize m in
  out ++ body.

Definition message_decode (bytes : list u8) : result Error Message :=
  match bytes with
  | [] => Err (Wire "empty message")
  | version :: body =>
      if decide (version <> PROTOCOL_VERSION)
      then Err (Wire ("unsupported version " +:+ pretty (wval version)))
      else map_err Wire (bincode_deserialize body)
  end.

Definition bundle_encode (b : PreKeyBundle) : list u8 := bincode_serialize b.

Definition bundle_decode (bytes : list u8) : result Error PreKeyBundle :=
  map_err Wire (bincode_deserialize bytes).

Lemma message_decode_encode `{!BincodeLaws Message} m :
  message_decode (message_encode m) = Ok m.
Proof. cbn. rewrite decide_False by tauto. by rewrite bincode_roundtrip. Qed.

Lemma bundle_decode_encode `{!BincodeLaws PreKeyBundle} b :
  bundle_decode (bundle_encode b) = Ok b.
Proof. unfold bundle_decode, bundle_encode. by rewrite bincode_roundtrip. Qed.

(** Everything [decode] refuses is refused with a [Wire] error, and what it
    accepts starts with the version byte. *)
Lemma message_decode_cases bytes :
  match message_decode bytes with
  | Ok m => exists body, bytes = PROTOCOL_VERSION :: body /\ bincode_deserialize body = Ok m
  | Err e => exists s, e = Wire s
  end.
Proof.
  destruct bytes as [|v body]; simpl; [eauto|].
  destruct (decide (v = PROTOCOL_VERSION)) as [->|Hv]; [rewrite decide_False by tauto|by rewrite decide_True by done; eauto].
  destruct (bincode_deserialize body) eqn:E; simpl; eauto.
Qed.

(** A message survives its encoding: [Message::decode] of
    [Message::encode] gives the message back, its first byte is the protocol
    version, and two messages with the same bytes are the same message. *)
Theorem message_roundtrip `{!BincodeLaws Message} (m m' : Message) :
  message_decode (message_encode m) = Ok m /\
  head (message_encode m) = Some PROTOCOL_VERSION /\
  (message_encode m = message_encode m' -> m = m').
Proof.
  split_and!; [apply message_decode_encode|done|].
  intros Heq. apply (f_equal message_decode) in Heq.
  rewrite !message_decode_encode in Heq. by injection Heq.
Qed.
End Encoding.

(** ** Codecs of the wire types for evaluation *)
Module WireDemo.
Import Demo.

#[export] Instance header_codec : Codec RatchetHeader :=
  iso_codec (fun h => (rh_dh_pub h, rh_pn h, rh_n h))
            (fun '(a, b, c) => mkHeader a b c) ltac:(by intros []).

#[export] Instance handshake_codec : Codec HandshakeHeader :=
  iso_codec
    (fun h => (hs_identity_ed h, hs_identity_dh h, hs_ephemeral_dh h, hs_signed_prekey_id h,
               hs_one_time_prekey_id h, hs_kyber_prekey_id h, hs_kyber_ciphertext h))
    (fun '(a, b, c, d, e, f, g) => mkHandshake a b c d e f g) ltac:(by intros []).

#[export] Instance bundle_codec : Codec PreKeyBundle :=
  iso_codec
    (fun b => (pb_identity_ed b, pb_identity_dh b, pb_identity_dh_sig b, pb_signed_prekey b,
               pb_signed_prekey_id b, pb_signed_prekey_sig b, pb_kyber_prekey b,
               pb_kyber_prekey_id b, pb_kyber_prekey_sig b, pb_one_time_prekey b,
               pb_one_time_prekey_id b))
    (fun '(a, b, c, d, e, f, g, h, i, j, k) => mkBundle a b c d e f g h i j k)
    ltac:(by intros []).

#[export] Instance message_codec : Codec Message :=
  iso_codec
    (fun m => match m with PreKey hs h c => inl (hs, h, c) | Normal h c => inr (h, c) end)
    (fun s => match s with inl (hs, h, c) => PreKey hs h c | inr (h, c) => Normal h c end)
    ltac:(by intros []).

Definition sample : Message :=
  Normal (mkHeader (key 9) (wrap 32 3) (wrap 32 7)) (bytes [1; 2; 250]%N).
End WireDemo.

Import Demo WireDemo.

Lemma message_roundtrip_witness :
  message_decode (message_encode WireDemo.sample) = Ok WireDemo.sample /\
  head (message_encode WireDemo.sample) = Some PROTOCOL_VERSION /\
  (message_encode WireDemo.sample = message_encode WireDemo.sample ->
   WireDemo.sample = WireDemo.sample).
Proof. apply (message_roundtrip WireDemo.sample WireDemo.sample). Defined.
