(* ===== verification/Kdf.v ===== *)
(** * Key derivation and authenticated encryption (core/src/kdf.rs) *)
From S2P Require Import Prelude Words Primitives Wire.

Section Kdf.
Context `{Sym : SymCrypto}.

(** [HKDF(salt = root_key, ikm = dh_output)], split into the next root key and
    a chain key. *)
Definition kdf_rk (root_key dh_output : key32) : key32 * key32 :=
  let okm := hkdf_sha256 root_key dh_output (bytes_of_string "ClarityRootKDF-v1") (32 + 32) in
  split_array okm.

Definition hmac_one (key : key32) (input : list u8) : key32 := hmac_sha256 key input.

(** [(next_chain_key, message_key)] *)
Definition kdf_ck (chain_key : key32) : key32 * key32 :=
  let message_key := hmac_one chain_key [wrap 8 1] in
  let next_chain := hmac_one chain_key [wrap 8 2] in
  (next_chain, message_key).

Definition derive_message_material (message_key : key32) : key32 * array 24 :=
  let okm := hkdf_sha256 (fill_array 32 (wrap 8 0)) message_key
               (bytes_of_string "ClarityMsgKey-v1") (32 + 24) in
  split_array okm.

Definition aead_seal (message_key : key32) (plaintext associated_data : list u8) : list u8 :=
  let '(key, nonce) := derive_message_material message_key in
  xchacha_encrypt key nonce plaintext associated_data.

Definition aead_open (message_key : key32) (ciphertext associated_data : list u8)
  : result Error (list u8) :=
  let '(key, nonce) := derive_message_material message_key in
  ok_or (xchacha_decrypt key nonce ciphertext associated_data) Decrypt.

Definition kdf_root_from_ikm (ikm : list u8) : key32 :=
  hkdf_sha256 (bytes_of_string "Clarity-PQXDH-salt-v1") ikm
    (bytes_of_string "Clarity-PQXDH-root-v1") 32.

(** ** The symmetric chain: the key schedule one chain key determines *)

(** The chain key after [i] steps, and the [i]-th message key. *)
Definition chain_at (ck : key32) (i : nat) : key32 := Nat.iter i (fun k => (kdf_ck k).1) ck.
Definition mk_at (ck : key32) (i : nat) : key32 := (kdf_ck (chain_at ck i)).2.

Lemma chain_at_0 ck : chain_at ck 0 = ck.
Proof. done. Qed.

Lemma chain_at_S ck i : chain_at ck (S i) = (kdf_ck (chain_at ck i)).1.
Proof. done. Qed.

Lemma kdf_ck_at ck i : kdf_ck (chain_at ck i) = (chain_at ck (S i), mk_at ck i).
Proof. done. Qed.

(** ** Sealing and opening *)
Context `{!SymCryptoLaws}.

Lemma aead_open_seal k p ad : aead_open k (aead_seal k p ad) ad = Ok p.
Proof.
  unfold aead_open, aead_seal. destruct (derive_message_material k) as [key nonce].
  by rewrite xchacha_open_seal.
Qed.

Lemma aead_open_Ok k c ad p : aead_open k c ad = Ok p <-> c = aead_seal k p ad.
Proof.
  split; [|intros ->; apply aead_open_seal].
  unfold aead_open, aead_seal. destruct (derive_message_material k) as [key nonce].
  destruct (xchacha_decrypt _ _ _ _) as [p'|] eqn:E; [|done].
  intros [= ->]. by apply xchacha_seal_open.
Qed.

Lemma aead_open_Err k c ad e : aead_open k c ad = Err e -> e = Decrypt.
Proof.
  unfold aead_open. destruct (derive_message_material k) as [key nonce].
  destruct (xchacha_decrypt _ _ _ _) as [p'|]; [done|]. by intros [= <-].
Qed.

Lemma aead_seal_length k p ad : length (aead_seal k p ad) = length p + 16.
Proof.
  unfold aead_seal. destruct (derive_message_material k) as [key nonce].
  apply xchacha_length.
Qed.

Lemma aead_seal_inj k p p' ad : aead_seal k p ad = aead_seal k p' ad -> p = p'.
Proof.
  intros Heq. pose proof (aead_open_seal k p ad) as Hop. rewrite Heq, aead_open_seal in Hop.
  by injection Hop.
Qed.
End Kdf.

Arguments kdf_rk : simpl never.
Arguments kdf_ck : simpl never.
Arguments aead_seal : simpl never.
Arguments aead_open : simpl never.
Arguments kdf_root_from_ikm : simpl never.
Arguments chain_at : simpl never.
Arguments mk_at : simpl never.

#[export] Hint Rewrite @aead_open_seal using typeclasses eauto : clarity.
