(* ===== verification/PqKem.v ===== *)
(** * The ML-KEM wrapper (core/src/pqkem.rs)

    Byte-oriented access to the key encapsulation: length checks on the way in,
    opaque failures on the way out. *)
From S2P Require Import Prelude Words Primitives Wire.

Definition KYBER_PUBLIC_LEN : nat := 1568.
Definition KYBER_CIPHERTEXT_LEN : nat := 1568.
Definition KYBER_SHARED_LEN : nat := 32.

Section PqKem.
Context `{Kem : MlKem}.

Record KyberKeyPair := mkKyber { kyber_decap : DecapKey }.

Definition kyber_public_bytes (k : KyberKeyPair) : list u8 :=
  encap_bytes (encapsulation_key (kyber_decap k)).

Definition kyber_private_bytes (k : KyberKeyPair) : list u8 := decap_bytes (kyber_decap k).

Definition kyber_from_private_bytes (bytes : list u8) : result Error KyberKeyPair :=
  arr <-? ok_or (array_of MLKEM_DK_LEN bytes) MalformedKey;
  Ok (mkKyber (decap_from arr)).

Definition kyber_decapsulate (k : KyberKeyPair) (ciphertext : list u8) : result Error key32 :=
  ct <-? ok_or (array_of MLKEM_CT_LEN ciphertext) MalformedKey;
  ok_or (kem_decapsulate (kyber_decap k) ct) Decrypt.

(** [pqkem::encapsulate]: the ciphertext and the shared secret. *)
Definition encapsulate (public_key : list u8) (seed : EncapSeed)
  : result Error (list u8 * key32) :=
  arr <-? ok_or (array_of MLKEM_EK_LEN public_key) MalformedKey;
  p <-? ok_or (kem_encapsulate (encap_from arr) seed) Decrypt;
  Ok (abytes p.1, p.2).

Context `{!MlKemLaws}.

Lemma kyber_private_roundtrip k : kyber_from_private_bytes (kyber_private_bytes k) = Ok k.
Proof.
  unfold kyber_from_private_bytes, kyber_private_bytes. rewrite array_of_abytes. cbn.
  rewrite decap_from_bytes. by destruct k.
Qed.

(** What is encapsulated to a key pair's published bytes, that key pair
    decapsulates. *)
Lemma decapsulate_encapsulate k seed ct ss :
  encapsulate (kyber_public_bytes k) seed = Ok (ct, ss) -> kyber_decapsulate k ct = Ok ss.
Proof.
  unfold encapsulate, kyber_decapsulate, kyber_public_bytes.
  rewrite array_of_abytes. cbn. rewrite encap_from_bytes.
  destruct (kem_encapsulate _ _) as [[c s]|] eqn:E; cbn; [|done].
  intros [= <- <-]. rewrite array_of_abytes. cbn. by rewrite (kem_correct _ _ _ _ E).
Qed.

Lemma encapsulate_length pk seed ct ss :
  encapsulate pk seed = Ok (ct, ss) -> length pk = KYBER_PUBLIC_LEN /\ length ct = KYBER_CIPHERTEXT_LEN.
Proof.
  unfold encapsulate. destruct (array_of _ pk) as [arr|] eqn:E; cbn; [|done].
  apply array_of_Some in E as <-. destruct (kem_encapsulate _ _) as [[c s]|]; cbn; [|done].
  intros [= <- <-]. split; apply array_length.
Qed.

Lemma decapsulate_malformed k ct :
  length ct <> KYBER_CIPHERTEXT_LEN -> kyber_decapsulate k ct = Err MalformedKey.
Proof.
  intros Hct. unfold kyber_decapsulate. destruct (array_of _ ct) as [c|] eqn:E; [|done].
  apply array_of_Some in E as <-. by rewrite array_length in Hct.
Qed.
End PqKem.
