(* ===== verification/Identity.v ===== *)
(** * Accounts and prekey bundles (core/src/identity.rs)

    The account, its pool of one-time prekeys, the signed bundle it publishes,
    the client-side verification of a fetched bundle, and persistence. *)
From S2P Require Import Prelude Words Primitives Wire PqKem Demo.

Definition SIG_CTX_IDENTITY_DH : list u8 := bytes_of_string "Clarity-sig-identity-dh-v1".
Definition SIG_CTX_SIGNED_PREKEY : list u8 := bytes_of_string "Clarity-sig-signed-prekey-v1".
Definition SIG_CTX_KYBER_PREKEY : list u8 := bytes_of_string "Clarity-sig-kyber-prekey-v1".

Definition DEFAULT_ONE_TIME_PREKEYS : u32 := wrap 32 100.

(** The private fields of [StoredAccount], the serialized form. *)
Record StoredAccount : Set := mkStoredAccount {
  sa_ed_signing : key32;
  sa_dh_identity : key32;
  sa_signed_prekey_id : u32;
  sa_signed_prekey : key32;
  sa_kyber_prekey_id : u32;
  sa_kyber_private : list u8;
  sa_one_time_prekeys : list (u32 * key32);
  sa_next_opk_id : u32
}.

Section Identity.
Context `{X : X25519, Ed : Ed25519, Kem : MlKem}.

Record Account := mkAccount {
  ed_signing : SigningKey;
  dh_identity : StaticSecret;
  signed_prekey_id : u32;
  signed_prekey : StaticSecret;
  kyber_prekey_id : u32;
  kyber : KyberKeyPair;
  one_time_prekeys : gmap u32 StaticSecret;
  next_opk_id : u32
}.

Definition set_one_time_prekeys (a : Account) (m : gmap u32 StaticSecret) : Account :=
  mkAccount (ed_signing a) (dh_identity a) (signed_prekey_id a) (signed_prekey a)
    (kyber_prekey_id a) (kyber a) m (next_opk_id a).
Definition set_next_opk_id (a : Account) (n : u32) : Account :=
  mkAccount (ed_signing a) (dh_identity a) (signed_prekey_id a) (signed_prekey a)
    (kyber_prekey_id a) (kyber a) (one_time_prekeys a) n.

(** ** Creation *)

(** The one-time prekeys of ids [0..count]; [rng i] is the [i]-th drawn secret. *)
Definition mint_prekeys (rng : nat -> StaticSecret) (count : u32) : gmap u32 StaticSecret :=
  foldl (fun m i => <[wrap 32 (N.of_nat i) := rng i]> m) ∅ (seq 0 (N.to_nat count)).

Definition generate_with_prekeys (ed : SigningKey) (dh spk : StaticSecret) (ky : KyberKeyPair)
    (rng : nat -> StaticSecret) (count : u32) : Account :=
  mkAccount ed dh (wrap 32 0) spk (wrap 32 0) ky (mint_prekeys rng count) count.

Definition generate (ed : SigningKey) (dh spk : StaticSecret) (ky : KyberKeyPair)
    (rng : nat -> StaticSecret) : Account :=
  generate_with_prekeys ed dh spk ky rng DEFAULT_ONE_TIME_PREKEYS.

(** ** Publication *)

Definition identity_public (a : Account) : key32 := verifying_bytes (verifying_key (ed_signing a)).
Definition identity_dh_public (a : Account) : key32 := public_of (dh_identity a).

Definition sign (a : Account) (context message : list u8) : list u8 :=
  let buf := context ++ message in
  signature_bytes (ed_sign (ed_signing a) buf).

Definition bundle (a : Account) : PreKeyBundle :=
  let identity_dh_pub := public_of (dh_identity a) in
  let signed_prekey_pub := public_of (signed_prekey a) in
  let kyber_pub := kyber_public_bytes (kyber a) in
  let '(one_time_prekey, one_time_prekey_id) :=
    match btree_iter wle (one_time_prekeys a) with
    | (id, sk) :: _ => (Some (public_of sk), Some id)
    | [] => (None, None)
    end in
  {| pb_identity_ed := identity_public a;
     pb_identity_dh := identity_dh_pub;
     pb_identity_dh_sig := sign a SIG_CTX_IDENTITY_DH identity_dh_pub;
     pb_signed_prekey := signed_prekey_pub;
     pb_signed_prekey_id := signed_prekey_id a;
     pb_signed_prekey_sig := sign a SIG_CTX_SIGNED_PREKEY signed_prekey_pub;
     pb_kyber_prekey := kyber_pub;
     pb_kyber_prekey_id := kyber_prekey_id a;
     pb_kyber_prekey_sig := sign a SIG_CTX_KYBER_PREKEY kyber_pub;
     pb_one_time_prekey := one_time_prekey;
     pb_one_time_prekey_id := one_time_prekey_id |}.

(** ** Lookup and consumption *)

Definition account_signed_prekey (a : Account) (id : u32) : result Error StaticSecret :=
  if decide (id = signed_prekey_id a) then Ok (signed_prekey a) else Err UnknownPrekey.

Definition take_one_time_prekey (id : u32) : mut Account Error StaticSecret := fun a =>
  (ok_or (one_time_prekeys a !! id) UnknownPrekey,
   set_one_time_prekeys a (delete id (one_time_prekeys a))).

Definition one_time_prekeys_remaining (a : Account) : nat := size (one_time_prekeys a).

Definition one_time_prekey_publics (a : Account) : OneTimePrekeyPublics :=
  map (fun '(id, sk) => (id, public_of sk)) (btree_iter wle (one_time_prekeys a)).

(** One iteration of the minting loop, and the loop: [rng] gives the secrets in
    the order they are drawn. *)
Definition replenish_one (sk : StaticSecret) (a : Account) : u32 * Account :=
  let id := next_opk_id a in
  let a := set_next_opk_id a (wsucc (next_opk_id a)) in
  (id, set_one_time_prekeys a (<[id := sk]> (one_time_prekeys a))).

Fixpoint replenish_loop (count : nat) (rng : nat -> StaticSecret) (a : Account)
  : list u32 * Account :=
  match count with
  | O => ([], a)
  | S count =>
      let '(id, a) := replenish_one (rng 0%nat) a in
      let '(ids, a) := replenish_loop count (fun i => rng (S i)) a in
      (id :: ids, a)
  end.

Definition replenish_one_time_prekeys (count : u32) (rng : nat -> StaticSecret) (a : Account)
  : list u32 * Account :=
  replenish_loop (N.to_nat count) rng a.

(** ** Persistence *)
Context `{!Bincode StoredAccount}.

Definition stored_account (a : Account) : StoredAccount :=
  {| sa_ed_signing := signing_bytes (ed_signing a);
     sa_dh_identity := secret_bytes (dh_identity a);
     sa_signed_prekey_id := signed_prekey_id a;
     sa_signed_prekey := secret_bytes (signed_prekey a);
     sa_kyber_prekey_id := kyber_prekey_id a;
     sa_kyber_private := kyber_private_bytes (kyber a);
     sa_one_time_prekeys :=
       map (fun '(id, sk) => (id, secret_bytes sk)) (btree_iter wle (one_time_prekeys a));
     sa_next_opk_id := next_opk_id a |}.

Definition to_bytes (a : Account) : list u8 := bincode_serialize (stored_account a).

Definition from_bytes (bytes : list u8) : result Error Account :=
  stored <-? map_err Wire (bincode_deserialize bytes);
  ky <-? kyber_from_private_bytes (sa_kyber_private stored);
  Ok {| ed_signing := signing_from (sa_ed_signing stored);
        dh_identity := secret_from (sa_dh_identity stored);
        signed_prekey_id := sa_signed_prekey_id stored;
        signed_prekey := secret_from (sa_signed_prekey stored);
        kyber_prekey_id := sa_kyber_prekey_id stored;
        kyber := ky;
        one_time_prekeys :=
          btree_collect (map (fun '(id, sk) => (id, secret_from sk)) (sa_one_time_prekeys stored));
        next_opk_id := sa_next_opk_id stored |}.

(** ** Verification of a fetched bundle *)

Definition verify_sig (vk : VerifyingKey) (context message sig_bytes : list u8)
  : result Error unit :=
  sig <-? ok_or (signature_from sig_bytes) BadSignature;
  let buf := context ++ message in
  if ed_verify vk buf sig then Ok tt else Err BadSignature.

Definition verify_bundle (b : PreKeyBundle) : result Error unit :=
  vk <-? ok_or (verifying_from (pb_identity_ed b)) MalformedKey;
  _ <-? verify_sig vk SIG_CTX_IDENTITY_DH (pb_identity_dh b) (pb_identity_dh_sig b);
  _ <-? verify_sig vk SIG_CTX_SIGNED_PREKEY (pb_signed_prekey b) (pb_signed_prekey_sig b);
  _ <-? verify_sig vk SIG_CTX_KYBER_PREKEY (pb_kyber_prekey b) (pb_kyber_prekey_sig b);
  Ok tt.

(** ** The pool of one-time prekeys *)

(** Every id in the pool was handed out by the counter. *)
Definition pool_ok (a : Account) : Prop :=
  forall id sk, one_time_prekeys a !! id = Some sk -> (wval id < wval (next_opk_id a))%N.

Lemma mint_prekeys_lookup rng count id :
  mint_prekeys rng count !! id =
    if decide (wval id < wval count)%N then Some (rng (N.to_nat id)) else None.
Proof.
  unfold mint_prekeys.
  assert (forall n : nat, (N.of_nat n <= wval count)%N ->
    foldl (fun m i => <[wrap 32 (N.of_nat i) := rng i]> m) (∅ : gmap u32 StaticSecret) (seq 0 n) !! id =
    if decide (wval id < N.of_nat n)%N then Some (rng (N.to_nat id)) else None) as Hgen.
  { induction n as [|n IH]; intros Hn.
    - cbn. rewrite decide_False by lia. apply lookup_empty.
    - rewrite seq_S, foldl_app. cbn [foldl Nat.add].
      assert (wval (wrap 32 (N.of_nat n)) = N.of_nat n) as Hw.
      { apply wval_wrap_small. pose proof (word_lt count). lia. }
      destruct (decide (id = wrap 32 (N.of_nat n))) as [->|Hne].
      + rewrite lookup_insert_eq, decide_True by lia. by rewrite Hw, Nat2N.id.
      + rewrite lookup_insert_ne, IH by (done || lia).
        assert (wval id <> N.of_nat n).
        { intros Heq. apply Hne, word_eq. by rewrite Hw. }
        repeat case_decide; done || lia. }
  rewrite Hgen by lia. by rewrite N2Nat.id.
Qed.

Lemma generate_pool_ok ed dh spk ky rng count :
  pool_ok (generate_with_prekeys ed dh spk ky rng count).
Proof. intros id sk. cbn. rewrite mint_prekeys_lookup. by case_decide. Qed.

Lemma take_pool_ok id : keeps pool_ok (take_one_time_prekey id).
Proof. intros a Ha id' sk. cbn. intros [_ Hid]%lookup_delete_Some. eauto. Qed.

Lemma replenish_loop_spec count rng a :
  (wval (next_opk_id a) + N.of_nat count < 2 ^ 32)%N ->
  let r := replenish_loop count rng a in
  wval (next_opk_id r.2) = (wval (next_opk_id a) + N.of_nat count)%N /\
  map wval r.1 = map (fun i => wval (next_opk_id a) + N.of_nat i)%N (seq 0 count) /\
  (forall id, one_time_prekeys r.2 !! id =
     if decide (wval (next_opk_id a) <= wval id < wval (next_opk_id a) + N.of_nat count)%N
     then Some (rng (N.to_nat (wval id - wval (next_opk_id a))%N))
     else one_time_prekeys a !! id).
Proof.
  revert rng a. induction count as [|count IH]; intros rng a Hb; cbn.
  - split_and!; [lia|done|]. intros id. by rewrite decide_False by lia.
  - set (a' := set_one_time_prekeys _ _).
    assert (wval (next_opk_id a') = (wval (next_opk_id a) + 1)%N) as Hn.
    { cbn. apply wval_wsucc. lia. }
    specialize (IH (fun i => rng (S i)) a' ltac:(rewrite Hn; lia)).
    destruct (replenish_loop _ _ a') as [ids a''] eqn:E. cbn in *.
    destruct IH as (IH1 & IH2 & IH3). rewrite Hn in *. split_and!; [lia| |].
    + rewrite IH2. f_equal; [lia|]. rewrite <-seq_shift, map_map. apply map_ext. intros i. lia.
    + intros id. rewrite IH3. repeat case_decide; try lia.
      * do 2 f_equal. lia.
      * assert (id = next_opk_id a) as -> by (apply word_eq; lia).
        by rewrite lookup_insert_eq, N.sub_diag.
      * by rewrite lookup_insert_ne by (intros <-; lia).
Qed.

(** ** Signatures *)

(** What an accepted signature means. *)
Definition signed_by (vk : VerifyingKey) (context message sig_bytes : list u8) : Prop :=
  exists sig, signature_from sig_bytes = Some sig /\ ed_verify vk (context ++ message) sig = true.

Lemma verify_sig_Ok vk context message sig_bytes :
  verify_sig vk context message sig_bytes = Ok tt <-> signed_by vk context message sig_bytes.
Proof.
  unfold verify_sig, signed_by. split.
  - destruct (signature_from sig_bytes) as [s|]; cbn; [|done].
    destruct (ed_verify _ _ _) eqn:E; [eauto|done].
  - intros (s & -> & Hv). cbn. by rewrite Hv.
Qed.

Lemma verify_sig_Err vk context message sig_bytes e :
  verify_sig vk context message sig_bytes = Err e -> e = BadSignature.
Proof.
  unfold verify_sig. destruct (signature_from sig_bytes) as [s|]; cbn; [|by intros [= <-]].
  destruct (ed_verify _ _ _); [done|]. by intros [= <-].
Qed.

Lemma verify_bundle_Ok b :
  verify_bundle b = Ok tt <->
  exists vk, verifying_from (pb_identity_ed b) = Some vk /\
    signed_by vk SIG_CTX_IDENTITY_DH (pb_identity_dh b) (pb_identity_dh_sig b) /\
    signed_by vk SIG_CTX_SIGNED_PREKEY (pb_signed_prekey b) (pb_signed_prekey_sig b) /\
    signed_by vk SIG_CTX_KYBER_PREKEY (pb_kyber_prekey b) (pb_kyber_prekey_sig b).
Proof.
  unfold verify_bundle. rewrite rbind_Ok. setoid_rewrite ok_or_Ok.
  split; intros (vk & Hvk & Hb); exists vk; (split; [done|]).
  - apply rbind_Ok in Hb as ([] & H1 & Hb). apply rbind_Ok in Hb as ([] & H2 & Hb).
    apply rbind_Ok in Hb as ([] & H3 & _). by rewrite <-!verify_sig_Ok.
  - rewrite <-!verify_sig_Ok in Hb. destruct Hb as (-> & H2 & H3). cbv [rbind].
    by rewrite H2, H3.
Qed.

(** The three contexts separate the signed messages. *)
Lemma contexts_separate c c' m m' :
  c ∈ [SIG_CTX_IDENTITY_DH; SIG_CTX_SIGNED_PREKEY; SIG_CTX_KYBER_PREKEY] ->
  c' ∈ [SIG_CTX_IDENTITY_DH; SIG_CTX_SIGNED_PREKEY; SIG_CTX_KYBER_PREKEY] ->
  c ++ m = c' ++ m' -> c = c' /\ m = m'.
Proof.
  intros Hc Hc' Heq.
  assert (take 13 c = take 13 c') as Hpre.
  { apply (f_equal (take 13)) in Heq. rewrite !elem_of_cons, elem_of_nil in Hc, Hc'.
    rewrite !take_app_le in Heq; [done|..]; [destruct Hc' as [->|[->|[->|[]]]]|destruct Hc as [->|[->|[->|[]]]]];
      vm_compute; lia. }
  rewrite !elem_of_cons, elem_of_nil in Hc, Hc'.
  destruct Hc as [->|[->|[->|[]]]], Hc' as [->|[->|[->|[]]]];
    solve [split; [done|by apply app_inv_head in Heq] | by vm_compute in Hpre].
Qed.

(** The messages an account's identity key signs when it publishes. *)
Definition signed_messages (a : Account) : list (list u8) :=
  [SIG_CTX_IDENTITY_DH ++ public_of (dh_identity a);
   SIG_CTX_SIGNED_PREKEY ++ public_of (signed_prekey a);
   SIG_CTX_KYBER_PREKEY ++ kyber_public_bytes (kyber a)].

Lemma signed_messages_inv a c m :
  c ∈ [SIG_CTX_IDENTITY_DH; SIG_CTX_SIGNED_PREKEY; SIG_CTX_KYBER_PREKEY] ->
  c ++ m ∈ signed_messages a ->
  (c = SIG_CTX_IDENTITY_DH -> m = public_of (dh_identity a)) /\
  (c = SIG_CTX_SIGNED_PREKEY -> m = public_of (signed_prekey a)) /\
  (c = SIG_CTX_KYBER_PREKEY -> m = kyber_public_bytes (kyber a)).
Proof.
  intros Hc. unfold signed_messages. rewrite !elem_of_cons, elem_of_nil.
  intros [Heq|[Heq|[Heq|[]]]];
    apply contexts_separate in Heq as [-> ->]; try done;
    try (rewrite !elem_of_cons; tauto);
    split_and!; intros Habs; done || by vm_compute in Habs.
Qed.

Context `{!X25519Laws, !Ed25519Laws, !MlKemLaws, !BincodeLaws StoredAccount}.

Lemma verify_sig_sign a c m :
  verify_sig (verifying_key (ed_signing a)) c m (sign a c m) = Ok tt.
Proof.
  apply verify_sig_Ok. unfold signed_by, sign. rewrite signature_from_bytes.
  eexists. split; [done|]. apply verify_sign.
Qed.

Lemma verify_bundle_bundle a : verify_bundle (bundle a) = Ok tt.
Proof.
  unfold verify_bundle, bundle. destruct (match btree_iter _ _ with [] => _ | _ => _ end).
  cbn -[verify_sig sign]. unfold identity_public. rewrite verifying_from_bytes.
  cbn -[verify_sig sign]. by rewrite !verify_sig_sign.
Qed.

Lemma map_pair_bytes_from (l : list (u32 * StaticSecret)) :
  map (fun '(id, sk) => (id, secret_from sk)) (map (fun '(id, sk) => (id, secret_bytes sk)) l) = l.
Proof.
  rewrite map_map. rewrite <-(map_id l) at 2. apply map_ext. intros [id sk].
  by rewrite secret_from_bytes.
Qed.

Lemma from_bytes_to_bytes a : from_bytes (to_bytes a) = Ok a.
Proof.
  unfold from_bytes, to_bytes. rewrite bincode_roundtrip. cbn -[btree_iter].
  rewrite kyber_private_roundtrip. cbn -[btree_iter].
  rewrite map_pair_bytes_from, signing_from_bytes, !secret_from_bytes.
  rewrite (btree_collect_iter wle). by destruct a.
Qed.
End Identity.
