(* ===== verification/IdentityProps.v ===== *)
(** * Properties of accounts and bundles (core/src/identity.rs)

    What a verified bundle guarantees and what it leaves open, the life of a
    one-time prekey, and the persistence of an account. *)
From S2P Require Import Prelude Words Primitives Wire PqKem Identity Demo.

Section IdentityProps.
Context `{X : X25519, Ed : Ed25519, Kem : MlKem}.

(** ** Verified bundles *)

(** The signatures a bundle carries, each with its context and message. *)
Definition bundle_signatures (b : PreKeyBundle) : list (list u8 * list u8 * list u8) :=
  [(SIG_CTX_IDENTITY_DH, abytes (pb_identity_dh b), pb_identity_dh_sig b);
   (SIG_CTX_SIGNED_PREKEY, abytes (pb_signed_prekey b), pb_signed_prekey_sig b);
   (SIG_CTX_KYBER_PREKEY, pb_kyber_prekey b, pb_kyber_prekey_sig b)].

(** None of the signatures of [b] is a forgery of [a]'s: those that verify
    under [a]'s identity key are on messages [a] signed. *)
Definition no_forgery (a : Account) (b : PreKeyBundle) : Prop :=
  forall c m s, (c, m, s) ∈ bundle_signatures b ->
    signed_by (verifying_key (ed_signing a)) c m s -> c ++ m ∈ signed_messages a.

(** The prekey server replaces what no signature covers. *)
Definition with_unsigned (b : PreKeyBundle) (spk_id kyber_id : u32)
    (opk : option key32) (opk_id : option u32) : PreKeyBundle :=
  {| pb_identity_ed := pb_identity_ed b;
     pb_identity_dh := pb_identity_dh b;
     pb_identity_dh_sig := pb_identity_dh_sig b;
     pb_signed_prekey := pb_signed_prekey b;
     pb_signed_prekey_id := spk_id;
     pb_signed_prekey_sig := pb_signed_prekey_sig b;
     pb_kyber_prekey := pb_kyber_prekey b;
     pb_kyber_prekey_id := kyber_id;
     pb_kyber_prekey_sig := pb_kyber_prekey_sig b;
     pb_one_time_prekey := opk;
     pb_one_time_prekey_id := opk_id |}.

Lemma verify_with_unsigned b i j o oi : verify_bundle (with_unsigned b i j o oi) = verify_bundle b.
Proof. done. Qed.

Context `{!X25519Laws, !Ed25519Laws, !MlKemLaws}.

Lemma bundle_signatures_signed a :
  forall c m s, (c, m, s) ∈ bundle_signatures (bundle a) -> c ++ m ∈ signed_messages a.
Proof.
  intros c m s. unfold bundle_signatures, bundle, signed_messages.
  destruct (match btree_iter _ _ with [] => _ | _ => _ end). cbn -[app sign public_of].
  rewrite !elem_of_cons, elem_of_nil.
  intros [[= -> -> ->]|[[= -> -> ->]|[[= -> -> ->]|[]]]]; tauto.
Qed.

(** A prekey server can neither put a key of its own into any of the three
    signed places nor move a signature from one place to another. *)
Lemma verified_bundle_authentic a b :
  pb_identity_ed b = identity_public a -> no_forgery a b -> verify_bundle b = Ok tt ->
  pb_identity_dh b = identity_dh_public a /\
  pb_signed_prekey b = public_of (signed_prekey a) /\
  pb_kyber_prekey b = kyber_public_bytes (kyber a).
Proof.
  intros Hed Hforge (vk & Hvk & Hs1 & Hs2 & Hs3)%verify_bundle_Ok.
  rewrite Hed in Hvk. unfold identity_public in Hvk. rewrite verifying_from_bytes in Hvk.
  injection Hvk as <-. unfold no_forgery, bundle_signatures in Hforge.
  assert (forall c m s, (c, m, s) ∈ bundle_signatures b ->
    c ∈ [SIG_CTX_IDENTITY_DH; SIG_CTX_SIGNED_PREKEY; SIG_CTX_KYBER_PREKEY]) as Hctx.
  { intros c m s. unfold bundle_signatures. rewrite !elem_of_cons, elem_of_nil.
    intros [[= -> _ _]|[[= -> _ _]|[[= -> _ _]|[]]]]; tauto. }
  assert (forall c m s, (c, m, s) ∈ bundle_signatures b ->
    signed_by (verifying_key (ed_signing a)) c m s ->
    (c = SIG_CTX_IDENTITY_DH -> m = public_of (dh_identity a)) /\
    (c = SIG_CTX_SIGNED_PREKEY -> m = public_of (signed_prekey a)) /\
    (c = SIG_CTX_KYBER_PREKEY -> m = kyber_public_bytes (kyber a))) as Hmsg.
  { intros c m s Hin Hs. apply signed_messages_inv; eauto. }
  unfold bundle_signatures in Hmsg.
  split_and!; [apply array_eq|apply array_eq|];
    eapply Hmsg; (reflexivity || eassumption || (rewrite !elem_of_cons; tauto)).
Qed.

(** The prekey ids and the one-time prekey are under no signature: the
    bundle an honest account publishes still verifies after the prekey server
    replaced them by anything, and then carries the server's values next to the
    account's authentic keys. *)
Theorem bundle_unsigned_fields a spk_id kyber_id opk opk_id :
  let b := with_unsigned (bundle a) spk_id kyber_id opk opk_id in
  verify_bundle b = Ok tt /\
  pb_signed_prekey b = public_of (signed_prekey a) /\
  pb_signed_prekey_id b = spk_id /\ pb_kyber_prekey_id b = kyber_id /\
  pb_one_time_prekey b = opk /\ pb_one_time_prekey_id b = opk_id.
Proof.
  cbv zeta. rewrite verify_with_unsigned, verify_bundle_bundle.
  split_and!; try done. unfold bundle. by destruct (match btree_iter _ _ with [] => _ | _ => _ end).
Qed.

(** ** The pool of one-time prekeys *)

(** The published bundle offers the one-time prekey with the lowest id in
    the pool, and none exactly when the pool is empty; the published list gives
    the public half of every secret in the pool, in the order of the ids. *)
Theorem bundle_offers_lowest_prekey a :
  (forall id, pb_one_time_prekey_id (bundle a) = Some id ->
     (exists sk, one_time_prekeys a !! id = Some sk /\
        pb_one_time_prekey (bundle a) = Some (public_of sk)) /\
     (forall id', is_Some (one_time_prekeys a !! id') -> (wval id <= wval id')%N)) /\
  (pb_one_time_prekey_id (bundle a) = None <-> one_time_prekeys a = ∅) /\
  StronglySorted (fun x y => (wval x.1 <= wval y.1)%N) (one_time_prekey_publics a) /\
  (forall id p, (id, p) ∈ one_time_prekey_publics a <->
     exists sk, one_time_prekeys a !! id = Some sk /\ p = public_of sk).
Proof.
  pose proof (btree_iter_sorted wle (one_time_prekeys a)) as Hsort.
  pose proof (btree_iter_elem wle (one_time_prekeys a)) as Hel.
  pose proof (btree_iter_nil wle (one_time_prekeys a)) as Hnil.
  unfold bundle, one_time_prekey_publics. split_and!.
  - intros id. destruct (btree_iter _ _) as [|[id0 sk] l]; cbn; [done|].
    intros [= ->]. split.
    + exists sk. split; [|done]. apply Hel. by left.
    + intros id' [sk' Hsk']. apply Hel in Hsk'.
      apply elem_of_cons in Hsk' as [[= -> ->]|Hin]; [done|].
      apply StronglySorted_inv in Hsort as [_ Hall]. rewrite Forall_forall in Hall.
      apply (Hall (id', sk') Hin).
  - rewrite <-Hnil. by destruct (btree_iter _ _) as [|[id sk] l]; cbn.
  - clear Hel Hnil. induction Hsort as [|[id sk] l Hs IH Hall]; cbn; constructor; [done|].
    rewrite Forall_map. eapply Forall_impl; [exact Hall|]. by intros [].
  - intros id p. rewrite list_elem_of_fmap. split.
    + intros ([id' sk] & [= -> ->] & Hin). exists sk. by rewrite <-Hel.
    + intros (sk & Hsk & ->). exists (id, sk). by rewrite Hel.
Qed.

(** What an application does to the pool, below the 2^32-th prekey minted. *)
Inductive pool_step : Account -> Account -> Prop :=
| pool_take id a : pool_step a (take_one_time_prekey id a).2
| pool_replenish count rng a :
    (wval (next_opk_id a) + wval count < 2 ^ 32)%N ->
    pool_step a (replenish_one_time_prekeys count rng a).2.

(** [id] was handed out and is gone. *)
Definition spent (id : u32) (a : Account) : Prop :=
  pool_ok a /\ (wval id < wval (next_opk_id a))%N /\ one_time_prekeys a !! id = None.

Lemma spent_step id a a' : spent id a -> pool_step a a' -> spent id a'.
Proof.
  intros (Hok & Hlt & Hnone) Hstep. revert Hok Hlt Hnone. destruct Hstep as [id' a|count rng a Hb]; intros.
  - split_and!; [by apply take_pool_ok|done|]. cbn. rewrite lookup_delete_None. by right.
  - unfold replenish_one_time_prekeys.
    destruct (replenish_loop_spec (N.to_nat count) rng a) as (Hn & _ & Hl); [lia|].
    split_and!.
    + intros id' sk. rewrite Hl, Hn. case_decide; [lia|]. intros Hsk%Hok. lia.
    + rewrite Hn. lia.
    + rewrite Hl, decide_False by lia. done.
Qed.

(** C26: a one-time prekey is given out at most once: from a freshly generated
    account, after any takes and replenishments that stay below the 2^32 ids there are, a
    successful take gives the
    pooled secret, and whatever happens to the account afterwards, a second take
    of the same id is refused with [UnknownPrekey], because replenishing never
    reuses an id. *)
Theorem one_time_prekey_taken_once ed dh spk ky rng count a id sk a' :
  star pool_step (generate_with_prekeys ed dh spk ky rng count) a ->
  (take_one_time_prekey id a).1 = Ok sk ->
  star pool_step (take_one_time_prekey id a).2 a' ->
  one_time_prekeys a !! id = Some sk /\ take_one_time_prekey id a' = (Err UnknownPrekey, a').
Proof.
  intros Hreach Htake Hafter. cbn in Htake. apply ok_or_Ok in Htake. split; [done|].
  assert (pool_ok a) as Hok.
  { eapply (star_invariant pool_step pool_ok); [|exact Hreach|apply generate_pool_ok].
    clear. intros a b Ha Hstep. revert Ha. destruct Hstep as [id' a|count rng a Hb]; intros Ha; [by apply take_pool_ok|].
    destruct (replenish_loop_spec (N.to_nat count) rng a) as (Hn & _ & Hl); [lia|].
    intros id' sk. unfold replenish_one_time_prekeys. rewrite Hl, Hn. case_decide; [lia|].
    intros Hsk%Ha. lia. }
  assert (spent id a') as (_ & _ & Hnone).
  { eapply (star_invariant pool_step (spent id)); [apply spent_step|exact Hafter|].
    split_and!; [by apply take_pool_ok|by eapply Hok|]. cbn. apply lookup_delete_eq. }
  unfold take_one_time_prekey. rewrite Hnone, delete_id by done. by destruct a'.
Qed.

#[local] Arguments wsucc : simpl never.

Lemma pool_ok_replenish_one sk a :
  pool_ok a -> (wval (next_opk_id a) + 1 < 2 ^ 32)%N -> pool_ok (replenish_one sk a).2.
Proof.
  intros Hok Hb id sk'. cbn. rewrite wval_wsucc by done. rewrite lookup_insert_Some.
  intros [[<- _]|[_ Hsk%Hok]]; lia.
Qed.

Lemma replenish_loop_size count rng a :
  pool_ok a -> (wval (next_opk_id a) + N.of_nat count < 2 ^ 32)%N ->
  size (one_time_prekeys (replenish_loop count rng a).2) = size (one_time_prekeys a) + count.
Proof.
  revert rng a. induction count as [|count IH]; intros rng a Hok Hb; cbn; [lia|].
  pose proof (pool_ok_replenish_one (rng 0) a Hok ltac:(lia)) as Hok'.
  specialize (IH (fun i => rng (S i)) _ Hok').
  cbn in IH. rewrite wval_wsucc in IH by lia.
  destruct (replenish_loop count _ _) as [ids a''] eqn:E. cbn in *. rewrite IH by lia.
  rewrite map_size_insert_None; [lia|].
  destruct (one_time_prekeys a !! next_opk_id a) eqn:Hsk; [|done]. apply Hok in Hsk. lia.
Qed.

(** Replenishing hands out exactly [count] fresh ids, consecutive from the
    counter, puts the newly drawn secrets under them, leaves every other entry
    of the pool as it was and moves the counter past them. *)
Theorem replenish_extends_pool a count rng :
  pool_ok a -> (wval (next_opk_id a) + wval count < 2 ^ 32)%N ->
  let '(ids, a') := replenish_one_time_prekeys count rng a in
  length ids = N.to_nat count /\ NoDup ids /\
  (forall i id, ids !! i = Some id ->
     one_time_prekeys a !! id = None /\ one_time_prekeys a' !! id = Some (rng i)) /\
  (forall id, id ∉ ids -> one_time_prekeys a' !! id = one_time_prekeys a !! id) /\
  one_time_prekeys_remaining a' = one_time_prekeys_remaining a + N.to_nat count /\
  wval (next_opk_id a') = (wval (next_opk_id a) + wval count)%N.
Proof.
  intros Hok Hb. unfold replenish_one_time_prekeys, one_time_prekeys_remaining.
  pose proof (replenish_loop_size (N.to_nat count) rng a Hok ltac:(lia)) as Hsize.
  destruct (replenish_loop_spec (N.to_nat count) rng a) as (Hn & Hids & Hl); [lia|].
  destruct (replenish_loop _ rng a) as [ids a']. cbn in Hsize, Hn, Hids, Hl |- *.
  assert (forall i id, ids !! i = Some id ->
    i < N.to_nat count /\ wval id = (wval (next_opk_id a) + N.of_nat i)%N) as Hix.
  { intros i id Hi. apply (f_equal (lookup i)) in Hids.
    rewrite !list_lookup_fmap, Hi in Hids. cbn in Hids.
    destruct (seq 0 _ !! i) as [j|] eqn:Hj; [|done]. apply lookup_seq in Hj as [-> Hlt].
    injection Hids. auto. }
  assert (length ids = N.to_nat count) as Hlen.
  { apply (f_equal length) in Hids. by rewrite !length_map, length_seq in Hids. }
  split_and!; [done| | |  |done|lia].
  - apply NoDup_alt. intros i j id [_ Hi]%Hix [_ Hj]%Hix. lia.
  - intros i id [Hi Hw]%Hix. split.
    + destruct (one_time_prekeys a !! id) eqn:Hsk; [|done]. apply Hok in Hsk. lia.
    + rewrite Hl, decide_True by lia. do 2 f_equal. lia.
  - intros id Hnot. rewrite Hl, decide_False; [done|]. intros Hin. apply Hnot.
    destruct (lookup_lt_is_Some_2 ids (N.to_nat (wval id - wval (next_opk_id a)))) as [id' Hid']; [lia|].
    replace id with id'; [by eapply list_elem_of_lookup_2|]. apply word_eq.
    apply Hix in Hid' as [_ Hid']. lia.
Qed.

(** ** Persistence *)
Context `{!Bincode StoredAccount, !BincodeLaws StoredAccount}.

(** An account survives [to_bytes] and [from_bytes] with every secret, the
    pool and the id counter; two accounts with the same bytes are the same; a
    stored account whose ML-KEM key has the wrong length is refused with
    [MalformedKey]. *)
Theorem account_roundtrip a a' s :
  from_bytes (to_bytes a) = Ok a /\
  (to_bytes a = to_bytes a' -> a = a') /\
  (length (sa_kyber_private s) <> MLKEM_DK_LEN -> from_bytes (bincode_serialize s) = Err MalformedKey).
Proof.
  split_and!; [apply from_bytes_to_bytes| |].
  - intros Heq. apply (f_equal from_bytes) in Heq. rewrite !from_bytes_to_bytes in Heq. by injection Heq.
  - intros Hlen. unfold from_bytes. rewrite bincode_roundtrip. cbn.
    unfold kyber_from_private_bytes. by rewrite (proj2 (array_of_None _ _) Hlen).
Qed.
End IdentityProps.

(** ** Concrete accounts *)
Module IdentityDemo.
Import Demo WireDemo.

#[export] Instance stored_account_codec : Codec StoredAccount :=
  iso_codec
    (fun s => (sa_ed_signing s, sa_dh_identity s, sa_signed_prekey_id s, sa_signed_prekey s,
               sa_kyber_prekey_id s, sa_kyber_private s, sa_one_time_prekeys s, sa_next_opk_id s))
    (fun '(a, b, c, d, e, f, g, h) => mkStoredAccount a b c d e f g h) ltac:(by intros []).

Definition signing (n : N) : @SigningKey ed25519 := key n.
Definition kyber_pair (n : N) : @KyberKeyPair ml_kem := mkKyber (resize_array MLKEM_DK_LEN (key n)).
Definition draws (n : N) : nat -> @StaticSecret x25519 := fun i => secret (n + N.of_nat i).

Definition alice : Account :=
  generate_with_prekeys (signing 11) (secret 12) (secret 13) (kyber_pair 14) (draws 40) (wrap 32 0).
Definition bob : Account :=
  generate_with_prekeys (signing 21) (secret 22) (secret 23) (kyber_pair 24) (draws 50) (wrap 32 3).
End IdentityDemo.

Import Demo WireDemo IdentityDemo.

Lemma bundle_unsigned_fields_witness :
  let b := with_unsigned (bundle bob) (wrap 32 5) (wrap 32 6) (Some (key 66)) (Some (wrap 32 9)) in
  verify_bundle b = Ok tt /\
  pb_signed_prekey b = public_of (signed_prekey bob) /\
  pb_signed_prekey_id b = wrap 32 5 /\ pb_kyber_prekey_id b = wrap 32 6 /\
  pb_one_time_prekey b = Some (key 66) /\ pb_one_time_prekey_id b = Some (wrap 32 9).
Proof. apply (bundle_unsigned_fields bob (wrap 32 5) (wrap 32 6) (Some (key 66)) (Some (wrap 32 9))). Defined.

Lemma one_time_prekey_taken_once_witness :
  one_time_prekeys bob !! wrap 32 1 = Some (draws 50 1) /\
  let a := (replenish_one_time_prekeys (wrap 32 2) (draws 60) (take_one_time_prekey (wrap 32 1) bob).2).2 in
  take_one_time_prekey (wrap 32 1) a = (Err UnknownPrekey, a).
Proof.
  apply (one_time_prekey_taken_once (signing 21) (secret 22) (secret 23) (kyber_pair 24) (draws 50)
           (wrap 32 3) bob (wrap 32 1) (draws 50 1)).
  - apply star_refl.
  - vm_compute. reflexivity.
  - eapply star_step; [apply star_refl|]. apply pool_replenish. vm_compute. reflexivity.
Defined.

Lemma replenish_extends_pool_witness :
  let '(ids, a') := replenish_one_time_prekeys (wrap 32 2) (draws 60) bob in
  length ids = 2 /\ NoDup ids /\
  (forall i id, ids !! i = Some id ->
     one_time_prekeys bob !! id = None /\ one_time_prekeys a' !! id = Some (draws 60 i)) /\
  (forall id, id ∉ ids -> one_time_prekeys a' !! id = one_time_prekeys bob !! id) /\
  one_time_prekeys_remaining a' = one_time_prekeys_remaining bob + 2 /\
  wval (next_opk_id a') = (wval (next_opk_id bob) + 2)%N.
Proof.
  apply (replenish_extends_pool bob (wrap 32 2) (draws 60)).
  - apply generate_pool_ok.
  - vm_compute. reflexivity.
Defined.

Lemma account_roundtrip_witness :
  from_bytes (to_bytes bob) = Ok bob /\
  (to_bytes bob = to_bytes alice -> bob = alice) /\
  from_bytes (bincode_serialize (mkStoredAccount (key 1) (key 2) (wrap 32 0) (key 3) (wrap 32 0)
    [] [] (wrap 32 0))) = Err MalformedKey.
Proof.
  destruct (account_roundtrip bob alice (mkStoredAccount (key 1) (key 2) (wrap 32 0) (key 3)
    (wrap 32 0) [] [] (wrap 32 0))) as (Hround & Hinj & Hbad).
  split_and!; [exact Hround|exact Hinj|]. apply Hbad. discriminate.
Defined.
