(* ===== verification/Ratchet.v ===== *)
(** * The Double Ratchet (core/src/ratchet.rs)

    The ratchet state and its operations. Methods on [&mut self] are functions in
    [mut DoubleRatchet Error]: what they wrote before an early return stays
    written. *)
From S2P Require Import Prelude Words Primitives Wire Kdf Demo.

Definition MAX_SKIP : N := 1000.
Definition MAX_SKIPPED_CACHE : nat := 4000.
Arguments MAX_SKIPPED_CACHE : simpl never.

(** The serialized form, [StoredRatchet]. *)
Record StoredRatchet : Set := mkStoredRatchet {
  sr_root_key : key32;
  sr_dh_self : key32;
  sr_dh_self_pub : key32;
  sr_dh_remote : option key32;
  sr_chain_send : option key32;
  sr_chain_recv : option key32;
  sr_n_send : u32;
  sr_n_recv : u32;
  sr_pn : u32;
  sr_skipped : list ((key32 * u32) * key32)
}.

Section Ratchet.
Context `{X : X25519, Sym : SymCrypto, !Bincode RatchetHeader}.

Record DoubleRatchet := mkRatchet {
  root_key : key32;
  dh_self : StaticSecret;
  dh_self_pub : key32;
  dh_remote : option key32;
  chain_send : option key32;
  chain_recv : option key32;
  n_send : u32;
  n_recv : u32;
  pn : u32;
  skipped : gmap (key32 * u32) key32
}.

Definition set_chain_send (r : DoubleRatchet) (c : option key32) : DoubleRatchet :=
  mkRatchet (root_key r) (dh_self r) (dh_self_pub r) (dh_remote r) c (chain_recv r)
    (n_send r) (n_recv r) (pn r) (skipped r).
Definition set_chain_recv (r : DoubleRatchet) (c : option key32) : DoubleRatchet :=
  mkRatchet (root_key r) (dh_self r) (dh_self_pub r) (dh_remote r) (chain_send r) c
    (n_send r) (n_recv r) (pn r) (skipped r).
Definition set_n_send (r : DoubleRatchet) (n : u32) : DoubleRatchet :=
  mkRatchet (root_key r) (dh_self r) (dh_self_pub r) (dh_remote r) (chain_send r) (chain_recv r)
    n (n_recv r) (pn r) (skipped r).
Definition set_n_recv (r : DoubleRatchet) (n : u32) : DoubleRatchet :=
  mkRatchet (root_key r) (dh_self r) (dh_self_pub r) (dh_remote r) (chain_send r) (chain_recv r)
    (n_send r) n (pn r) (skipped r).
Definition set_skipped (r : DoubleRatchet) (m : gmap (key32 * u32) key32) : DoubleRatchet :=
  mkRatchet (root_key r) (dh_self r) (dh_self_pub r) (dh_remote r) (chain_send r) (chain_recv r)
    (n_send r) (n_recv r) (pn r) m.

Definition dh (secret : StaticSecret) (their_pub : key32) : key32 :=
  diffie_hellman secret their_pub.

Definition associated_data (prefix : list u8) (header : RatchetHeader) : list u8 :=
  let header_bytes := bincode_serialize header in
  prefix ++ header_bytes.

(** ** Initialization; [fresh] is the secret drawn *)

Definition init_initiator (fresh : StaticSecret) (root remote_dh_pub : key32) : DoubleRatchet :=
  let dh_self := fresh in
  let dh_self_pub := public_of dh_self in
  let '(root_key, chain_send) := kdf_rk root (dh dh_self remote_dh_pub) in
  mkRatchet root_key dh_self dh_self_pub (Some remote_dh_pub) (Some chain_send) None
    (wrap 32 0) (wrap 32 0) (wrap 32 0) ∅.

Definition init_responder (root : key32) (dh_self : StaticSecret) : DoubleRatchet :=
  let dh_self_pub := public_of dh_self in
  mkRatchet root dh_self dh_self_pub None None None (wrap 32 0) (wrap 32 0) (wrap 32 0) ∅.

(** ** Sending *)

Definition encrypt (plaintext ad_prefix : list u8)
  : mut DoubleRatchet Error (RatchetHeader * list u8) := fun r =>
  match chain_send r with
  | None => (Err UnexpectedMessage, r)
  | Some ck =>
      let '(next_ck, mk) := kdf_ck ck in
      let header := mkHeader (dh_self_pub r) (pn r) (n_send r) in
      let r := set_chain_send r (Some next_ck) in
      let r := set_n_send r (wsucc (n_send r)) in
      let ad := associated_data ad_prefix header in
      let ciphertext := aead_seal mk plaintext ad in
      (Ok (header, ciphertext), r)
  end.

(** ** Receiving *)

(** The loop of [skip_message_keys]: while [n_recv < until], cache the key of
    message [n_recv]. [fuel] is the number of iterations left; [skip_loop_fuel]
    shows that [until - n_recv] of them are enough. *)
Fixpoint skip_loop (fuel : nat) (remote ck : key32) (until : u32)
  : mut DoubleRatchet Error key32 := fun r =>
  if decide (wval (n_recv r) < wval until)%N then
    match fuel with
    | O => (Ok ck, r)
    | S fuel =>
        let '(next_ck, mk) := kdf_ck ck in
        if decide (MAX_SKIPPED_CACHE <= size (skipped r)) then (Err Decrypt, r)
        else
          let r := set_skipped r (<[(remote, n_recv r) := mk]> (skipped r)) in
          let r := set_n_recv r (wsucc (n_recv r)) in
          skip_loop fuel remote next_ck until r
    end
  else (Ok ck, r).

Definition skip_message_keys (until : u32) : mut DoubleRatchet Error unit := fun r =>
  match chain_recv r with
  | None => (Ok tt, r)
  | Some ck =>
      if decide (wval until < wval (n_recv r))%N then (Ok tt, r)
      else if decide (MAX_SKIP < wval until - wval (n_recv r))%N then (Err Decrypt, r)
      else match dh_remote r with
           | None => (Err Decrypt, r)
           | Some remote =>
               (let! ck := skip_loop (N.to_nat (wval until - wval (n_recv r))) remote ck until in
                smodify (fun r => set_chain_recv r (Some ck))) r
           end
  end.

Definition dh_ratchet (fresh : StaticSecret) (remote_pub : key32) (r : DoubleRatchet)
  : DoubleRatchet :=
  let pn := n_send r in
  let '(root_key1, chain_recv) := kdf_rk (root_key r) (dh (dh_self r) remote_pub) in
  let new_self := fresh in
  let dh_self_pub := public_of new_self in
  let '(root_key2, chain_send) := kdf_rk root_key1 (dh new_self remote_pub) in
  mkRatchet root_key2 new_self dh_self_pub (Some remote_pub) (Some chain_send) (Some chain_recv)
    (wrap 32 0) (wrap 32 0) pn (skipped r).

(** Step 3 of [decrypt]: take the next key of the receiving chain and open. *)
Definition decrypt_next (ciphertext ad : list u8) : mut DoubleRatchet Error (list u8) := fun r =>
  match chain_recv r with
  | None => (Err Decrypt, r)
  | Some ck =>
      let '(next_ck, mk) := kdf_ck ck in
      let r := set_chain_recv r (Some next_ck) in
      let r := set_n_recv r (wsucc (n_recv r)) in
      (aead_open mk ciphertext ad, r)
  end.

(** [fresh] is the secret drawn if the message turns the DH ratchet. *)
Definition decrypt (fresh : StaticSecret) (header : RatchetHeader) (ciphertext ad_prefix : list u8)
  : mut DoubleRatchet Error (list u8) := fun r =>
  let ad := associated_data ad_prefix header in
  match skipped r !! (rh_dh_pub header, rh_n header) with
  | Some mk =>
      (aead_open mk ciphertext ad,
       set_skipped r (delete (rh_dh_pub header, rh_n header) (skipped r)))
  | None =>
      ((if decide (dh_remote r <> Some (rh_dh_pub header))
        then skip_message_keys (rh_pn header) ;!
             smodify (dh_ratchet fresh (rh_dh_pub header))
        else sret tt) ;!
       skip_message_keys (rh_n header) ;!
       decrypt_next ciphertext ad) r
  end.

(** ** Persistence *)
Context `{!Bincode StoredRatchet}.

Definition stored_ratchet (r : DoubleRatchet) : StoredRatchet :=
  {| sr_root_key := root_key r;
     sr_dh_self := secret_bytes (dh_self r);
     sr_dh_self_pub := dh_self_pub r;
     sr_dh_remote := dh_remote r;
     sr_chain_send := chain_send r;
     sr_chain_recv := chain_recv r;
     sr_n_send := n_send r;
     sr_n_recv := n_recv r;
     sr_pn := pn r;
     sr_skipped := btree_iter skip_key_le (skipped r) |}.

Definition ratchet_serialize (r : DoubleRatchet) : list u8 := bincode_serialize (stored_ratchet r).

Definition ratchet_deserialize (bytes : list u8) : result Error DoubleRatchet :=
  s <-? map_err Wire (bincode_deserialize bytes);
  Ok {| root_key := sr_root_key s;
        dh_self := secret_from (sr_dh_self s);
        dh_self_pub := sr_dh_self_pub s;
        dh_remote := sr_dh_remote s;
        chain_send := sr_chain_send s;
        chain_recv := sr_chain_recv s;
        n_send := sr_n_send s;
        n_recv := sr_n_recv s;
        pn := sr_pn s;
        skipped := btree_collect (sr_skipped s) |}.

Lemma ratchet_deserialize_serialize `{!X25519Laws, !BincodeLaws StoredRatchet} r :
  ratchet_deserialize (ratchet_serialize r) = Ok r.
Proof.
  unfold ratchet_deserialize, ratchet_serialize. rewrite bincode_roundtrip. cbn.
  rewrite secret_from_bytes, (btree_collect_iter skip_key_le). by destruct r.
Qed.

(** ** The skipped-key loop *)

(** The cache after the keys of messages [i .. i + len - 1] of the chain with
    first key [k] went in under [remote]. *)
Fixpoint cache_range (remote k : key32) (i len : nat) (m : gmap (key32 * u32) key32)
  : gmap (key32 * u32) key32 :=
  match len with
  | O => m
  | S len => cache_range remote k (S i) len (<[(remote, u32_of i) := mk_at k i]> m)
  end.

Lemma cache_range_lookup remote k i len m p n :
  fits32 (i + len) ->
  cache_range remote k i len m !! (p, n) =
    if decide (p = remote /\ i <= cnt n < i + len) then Some (mk_at k (cnt n)) else m !! (p, n).
Proof.
  revert i m. induction len as [|len IH]; intros i m Hfit; cbn [cache_range].
  { rewrite decide_False; [done|lia]. }
  rewrite IH by fits.
  assert (fits32 i) as Hi by fits.
  destruct (decide ((remote, u32_of i) = (p, n))) as [[= <- <-]|Hne].
  - rewrite lookup_insert_eq, cnt_u32_of by done.
    rewrite decide_False by lia. by rewrite decide_True by (split; [done|lia]).
  - rewrite lookup_insert_ne by done.
    assert (p = remote -> cnt n <> i) as Hni.
    { intros -> Hc. apply Hne. f_equal. apply cnt_inj. by rewrite cnt_u32_of. }
    apply decide_ext. split; intros [-> Hb]; (split; [done|]); specialize (Hni eq_refl); lia.
Qed.

Lemma cache_range_size remote k i len m : size (cache_range remote k i len m) <= size m + len.
Proof.
  revert i m. induction len as [|len IH]; intros i m; cbn; [lia|].
  etrans; [apply IH|]. rewrite map_size_insert. case_match; cbn; lia.
Qed.

Lemma cache_range_size_fresh remote k i len m :
  fits32 (i + len) -> (forall j, i <= j < i + len -> m !! (remote, u32_of j) = None) ->
  size (cache_range remote k i len m) = size m + len.
Proof.
  revert i m. induction len as [|len IH]; intros i m Hfit Hm; cbn; [lia|].
  rewrite IH.
  - rewrite map_size_insert_None by (apply Hm; lia). lia.
  - fits.
  - intros j Hj. rewrite lookup_insert_ne; [apply Hm; lia|].
    apply u32_of_pair_ne; [fits|fits|lia].
Qed.

(** [r] after caching [len] keys of the receiving chain [k] from number [i]. *)
Definition skipped_to (remote k : key32) (i len : nat) (r : DoubleRatchet) : DoubleRatchet :=
  set_n_recv (set_skipped r (cache_range remote k i len (skipped r))) (u32_of (i + len)).

Lemma skipped_to_cons remote k i len r :
  skipped_to remote k (S i) len
    (set_n_recv (set_skipped r (<[(remote, u32_of i) := mk_at k i]> (skipped r))) (u32_of (S i)))
  = skipped_to remote k i (S len) r.
Proof. unfold skipped_to. cbn. by rewrite Nat.add_succ_r. Qed.

Lemma skip_loop_ok fuel remote k i len r :
  n_recv r = u32_of i -> fits32 (i + len) -> len <= fuel ->
  size (skipped r) + len <= MAX_SKIPPED_CACHE ->
  skip_loop fuel remote (chain_at k i) (u32_of (i + len)) r
  = (Ok (chain_at k (i + len)), skipped_to remote k i len r).
Proof.
  revert fuel i r. induction len as [|len IH]; intros fuel i r Hi Hfit Hfuel Hsize.
  - rewrite Nat.add_0_r. destruct fuel; cbn [skip_loop]; rewrite decide_False by (rewrite Hi; apply N.lt_irrefl);
      f_equal; unfold skipped_to; rewrite Nat.add_0_r, <-Hi; by destruct r.
  - destruct fuel as [|fuel]; [lia|]. cbn [skip_loop].
    assert (fits32 i) as Hfi by fits.
    assert (fits32 (S i)) as Hfsi by fits.
    rewrite decide_True by (rewrite Hi, !wval_u32_of by done; lia).
    rewrite kdf_ck_at, decide_False by lia. cbn [n_recv set_skipped]. rewrite Hi, wsucc_u32_of by done.
    replace (i + S len) with (S i + len) by lia. rewrite IH; cbn; [|done|..].
    + f_equal. apply skipped_to_cons.
    + fits.
    + lia.
    + rewrite map_size_insert. case_match; cbn; lia.
Qed.

(** The fuel [skip_message_keys] gives is enough: more of it changes nothing. *)
Lemma skip_loop_fuel fuel fuel' remote ck until r :
  N.to_nat (wval until - wval (n_recv r)) <= fuel -> fuel <= fuel' ->
  skip_loop fuel' remote ck until r = skip_loop fuel remote ck until r.
Proof.
  revert fuel' ck r. induction fuel as [|fuel IH]; intros fuel' ck r Hfuel Hle.
  - destruct fuel'; cbn [skip_loop]; by rewrite !decide_False by lia.
  - destruct fuel' as [|fuel']; [lia|]. cbn [skip_loop]. case_decide as Hlt; [|done].
    destruct (kdf_ck ck) as [next_ck mk]. case_decide; [done|]. apply IH; [|lia].
    cbn [n_recv set_n_recv set_skipped]. pose proof (word_lt until).
    rewrite wval_wsucc by lia. lia.
Qed.

(** When the cache fills up inside the loop, the loop stops with the counter
    moved past the keys it stored; the chain key it was given is not updated. *)
Lemma skip_loop_full fuel remote k i len r :
  n_recv r = u32_of i -> fits32 (i + len) -> len <= fuel ->
  size (skipped r) <= MAX_SKIPPED_CACHE ->
  MAX_SKIPPED_CACHE < size (skipped r) + len ->
  (forall j, i <= j < i + len -> skipped r !! (remote, u32_of j) = None) ->
  skip_loop fuel remote (chain_at k i) (u32_of (i + len)) r
  = (Err Decrypt, skipped_to remote k i (MAX_SKIPPED_CACHE - size (skipped r)) r).
Proof.
  revert fuel i r. induction len as [|len IH]; intros fuel i r Hi Hfit Hfuel Hcap Hsize Hm; [lia|].
  destruct fuel as [|fuel]; [lia|]. cbn [skip_loop].
  assert (fits32 i) as Hfi by fits.
  assert (fits32 (S i)) as Hfsi by fits.
  rewrite decide_True by (rewrite Hi, !wval_u32_of by done; lia).
  rewrite kdf_ck_at. case_decide as Hfull.
  - replace (MAX_SKIPPED_CACHE - size (skipped r)) with 0 by lia.
    f_equal. unfold skipped_to. rewrite Nat.add_0_r, <-Hi. by destruct r.
  - cbn [n_recv set_skipped]. rewrite Hi, wsucc_u32_of by done.
    replace (i + S len) with (S i + len) by lia.
    assert (size (<[(remote, u32_of i):=mk_at k i]> (skipped r)) = S (size (skipped r))) as Hsz.
    { apply map_size_insert_None, Hm. lia. }
    rewrite IH; cbn; rewrite ?Hsz; [|done|fits|lia..|].
    + rewrite skipped_to_cons, <-Nat.sub_succ_l by lia. by rewrite Nat.sub_succ.
    + intros j Hj. rewrite lookup_insert_ne; [apply Hm; lia|].
      apply u32_of_pair_ne; [done|fits|lia].
Qed.

(** ** Skipping and receiving on one chain *)

(** The receiving chain of [r] has first key [k] and is at message [i]. *)
Definition receiving (r : DoubleRatchet) (remote k : key32) (i : nat) : Prop :=
  dh_remote r = Some remote /\ chain_recv r = Some (chain_at k i) /\ n_recv r = u32_of i /\ fits32 i.

Lemma receiving_set_skipped r m remote k i :
  receiving r remote k i -> receiving (set_skipped r m) remote k i.
Proof. done. Qed.

Definition skipped_chain (remote k : key32) (i j : nat) (r : DoubleRatchet) : DoubleRatchet :=
  set_chain_recv (skipped_to remote k i (j - i) r) (Some (chain_at k j)).

(** [r] after message [j] of its receiving chain was taken at position [i]. *)
Definition received (remote k : key32) (i j : nat) (r : DoubleRatchet) : DoubleRatchet :=
  mkRatchet (root_key r) (dh_self r) (dh_self_pub r) (dh_remote r) (chain_send r)
    (Some (chain_at k (S j))) (n_send r) (wsucc (u32_of j)) (pn r)
    (cache_range remote k i (j - i) (skipped r)).

Lemma skip_no_chain until r : chain_recv r = None -> skip_message_keys until r = (Ok tt, r).
Proof. unfold skip_message_keys. by intros ->. Qed.

Lemma skip_behind until r :
  (wval until < wval (n_recv r))%N -> skip_message_keys until r = (Ok tt, r).
Proof. unfold skip_message_keys. intros. destruct (chain_recv r); [by rewrite decide_True|done]. Qed.

Lemma skip_too_far until ck r :
  chain_recv r = Some ck -> (MAX_SKIP < wval until - wval (n_recv r))%N ->
  skip_message_keys until r = (Err Decrypt, r).
Proof.
  unfold skip_message_keys, MAX_SKIP. intros -> Hgap.
  by rewrite decide_False, decide_True by lia.
Qed.

Lemma skip_ok remote k i j r :
  receiving r remote k i -> i <= j -> fits32 j -> j - i <= N.to_nat MAX_SKIP ->
  size (skipped r) + (j - i) <= MAX_SKIPPED_CACHE ->
  skip_message_keys (u32_of j) r = (Ok tt, skipped_chain remote k i j r).
Proof.
  intros (Hrem & Hck & Hn & Hi) Hij Hj Hgap Hsize. unfold skip_message_keys.
  rewrite Hck, Hn, Hrem, !wval_u32_of by done. unfold MAX_SKIP in *.
  rewrite !decide_False by lia. unfold sbind.
  pose proof (skip_loop_ok (N.to_nat (N.of_nat j - N.of_nat i)) remote k i (j - i) r) as Hl.
  replace (i + (j - i)) with j in Hl by lia. rewrite Hl by (done || lia). done.
Qed.

Lemma receive_ok remote k i j r ct ad :
  receiving r remote k i -> i <= j -> fits32 j -> j - i <= N.to_nat MAX_SKIP ->
  size (skipped r) + (j - i) <= MAX_SKIPPED_CACHE ->
  (skip_message_keys (u32_of j) ;! decrypt_next ct ad) r
  = (aead_open (mk_at k j) ct ad, received remote k i j r).
Proof.
  intros. rewrite (sbind_ok _ _ _ tt (skipped_chain remote k i j r)) by (by apply skip_ok).
  unfold decrypt_next, skipped_chain. cbn. rewrite kdf_ck_at. f_equal.
  unfold received. by replace (i + (j - i)) with j by lia.
Qed.

(** A number that is behind the counter and not cached takes the next key of
    the chain, whatever the number says. *)
Lemma receive_behind remote k i n r ct ad :
  receiving r remote k i -> (wval n < wval (n_recv r))%N ->
  (skip_message_keys n ;! decrypt_next ct ad) r
  = (aead_open (mk_at k i) ct ad,
     set_n_recv (set_chain_recv r (Some (chain_at k (S i)))) (wsucc (u32_of i))).
Proof.
  intros (Hrem & Hck & Hn & Hi) Hlt. rewrite (sbind_ok _ _ _ tt r) by (by apply skip_behind).
  unfold decrypt_next. rewrite Hck, kdf_ck_at. cbn. by rewrite Hn.
Qed.

(** ** The three ways [decrypt] finds a key *)

Lemma decrypt_cached fresh h ct ad mk r :
  skipped r !! (rh_dh_pub h, rh_n h) = Some mk ->
  decrypt fresh h ct ad r
  = (aead_open mk ct (associated_data ad h),
     set_skipped r (delete (rh_dh_pub h, rh_n h) (skipped r))).
Proof. unfold decrypt. by intros ->. Qed.

Lemma decrypt_same_chain fresh h ct ad r :
  skipped r !! (rh_dh_pub h, rh_n h) = None -> dh_remote r = Some (rh_dh_pub h) ->
  decrypt fresh h ct ad r
  = (skip_message_keys (rh_n h) ;! decrypt_next ct (associated_data ad h)) r.
Proof. unfold decrypt. intros -> Hrem. by rewrite decide_False by (by rewrite Hrem; tauto). Qed.

Lemma decrypt_new_chain fresh h ct ad r :
  skipped r !! (rh_dh_pub h, rh_n h) = None -> dh_remote r <> Some (rh_dh_pub h) ->
  decrypt fresh h ct ad r
  = ((skip_message_keys (rh_pn h) ;! smodify (dh_ratchet fresh (rh_dh_pub h))) ;!
     skip_message_keys (rh_n h) ;! decrypt_next ct (associated_data ad h)) r.
Proof. unfold decrypt. intros -> Hrem. by rewrite decide_True by done. Qed.

(** The DH step starts a receiving chain at 0 with the key derived from the
    root. *)
Definition ratcheted_key (remote : key32) (r : DoubleRatchet) : key32 :=
  (kdf_rk (root_key r) (dh (dh_self r) remote)).2.

Lemma dh_ratchet_receiving fresh remote r :
  receiving (dh_ratchet fresh remote r) remote (ratcheted_key remote r) 0.
Proof.
  unfold dh_ratchet, ratcheted_key, receiving.
  destruct (kdf_rk (root_key r) _) as [rk ckr]. destruct (kdf_rk rk _). by split_and!.
Qed.

Lemma dh_ratchet_skipped fresh remote r : skipped (dh_ratchet fresh remote r) = skipped r.
Proof.
  unfold dh_ratchet. destruct (kdf_rk (root_key r) _) as [rk ckr]. by destruct (kdf_rk rk _).
Qed.

(** ** The cache bound *)

Definition cache_ok (r : DoubleRatchet) : Prop := size (skipped r) <= MAX_SKIPPED_CACHE.

Lemma skip_loop_cache_ok fuel remote ck until : keeps cache_ok (skip_loop fuel remote ck until).
Proof.
  revert ck. induction fuel as [|fuel IH]; intros ck r Hr; cbn [skip_loop]; case_decide; try done.
  destruct (kdf_ck ck). case_decide; [done|]. apply IH. unfold cache_ok in *. cbn.
  rewrite map_size_insert. case_match; cbn; lia.
Qed.
Lemma set_chain_recv_cache_ok r c : cache_ok r -> cache_ok (set_chain_recv r c).
Proof. done. Qed.
#[local] Hint Resolve skip_loop_cache_ok set_chain_recv_cache_ok : clarity.

Lemma skip_cache_ok until : keeps cache_ok (skip_message_keys until).
Proof.
  intros r Hr. unfold skip_message_keys. repeat case_match; try done.
  revert Hr. apply keeps_bind; auto with clarity.
Qed.

Lemma decrypt_next_cache_ok ct ad : keeps cache_ok (decrypt_next ct ad).
Proof. intros r Hr. unfold decrypt_next. repeat case_match; done. Qed.
#[local] Hint Resolve skip_cache_ok decrypt_next_cache_ok : clarity.

Lemma dh_ratchet_cache_ok fresh remote r : cache_ok r -> cache_ok (dh_ratchet fresh remote r).
Proof. unfold cache_ok. by rewrite dh_ratchet_skipped. Qed.
#[local] Hint Resolve dh_ratchet_cache_ok : clarity.

Lemma decrypt_cache_ok fresh h ct ad : keeps cache_ok (decrypt fresh h ct ad).
Proof.
  intros r Hr. unfold decrypt. destruct (skipped r !! _) eqn:E.
  - unfold cache_ok in *. cbn. rewrite map_size_delete, E. cbn. lia.
  - revert Hr. apply keeps_bind; [case_decide|]; auto with clarity.
Qed.

Lemma encrypt_cache_ok pt ad : keeps cache_ok (encrypt pt ad).
Proof. intros r Hr. unfold encrypt. repeat case_match; done. Qed.

(** The only error of the receiving side is [Decrypt]. *)
Lemma skip_loop_throws fuel remote ck until : throws (eq Decrypt) (skip_loop fuel remote ck until).
Proof.
  revert ck. induction fuel as [|fuel IH]; intros ck r e; cbn [skip_loop]; case_decide; try done.
  destruct (kdf_ck ck). case_decide; [by intros [= <-]|]. apply IH.
Qed.
#[local] Hint Resolve skip_loop_throws : clarity.

Lemma skip_throws until : throws (eq Decrypt) (skip_message_keys until).
Proof.
  intros r e. unfold skip_message_keys. repeat case_match; try done; try (by intros [= <-]).
  apply throws_bind; auto with clarity.
Qed.
#[local] Hint Resolve skip_throws : clarity.

Lemma decrypt_throws fresh h ct ad : throws (eq Decrypt) (decrypt fresh h ct ad).
Proof.
  assert (forall ad', throws (eq Decrypt) (decrypt_next ct ad')) as Hnext.
  { intros ad' r e. unfold decrypt_next. repeat case_match; [|by intros [= <-]].
    intros He%aead_open_Err. done. }
  intros r e. unfold decrypt. destruct (skipped r !! _).
  - intros He%aead_open_Err. done.
  - apply throws_bind; [case_decide|]; auto with clarity.
Qed.
(** ** What a sending chain produces *)

Definition sealed_as (r : DoubleRatchet) (k : key32) (ad : list u8) (n : nat) (pt : list u8)
  : RatchetHeader * list u8 :=
  let h := mkHeader (dh_self_pub r) (pn r) (u32_of n) in
  (h, aead_seal (mk_at k n) pt (associated_data ad h)).

Lemma encrypt_ok pt ad r k n :
  chain_send r = Some (chain_at k n) -> n_send r = u32_of n ->
  encrypt pt ad r
  = (Ok (sealed_as r k ad n pt),
     set_n_send (set_chain_send r (Some (chain_at k (S n)))) (wsucc (u32_of n))).
Proof. unfold encrypt, sealed_as. intros Hck <-. by rewrite Hck, kdf_ck_at. Qed.

(** ** What the receiving side depends on *)

(** The fields that decide how a message is opened. *)
Definition same_recv (r r' : DoubleRatchet) : Prop :=
  chain_recv r = chain_recv r' /\ n_recv r = n_recv r' /\ dh_remote r = dh_remote r' /\
  skipped r = skipped r'.

(** [m] does the same to states that agree on these fields. *)
Definition on_recv {A} (m : mut DoubleRatchet Error A) : Prop :=
  forall r r', same_recv r r' -> (m r).1 = (m r').1 /\ same_recv (m r).2 (m r').2.

Lemma on_recv_bind {A B} (m : mut DoubleRatchet Error A) (k : A -> mut DoubleRatchet Error B) :
  on_recv m -> (forall a, on_recv (k a)) -> on_recv (sbind m k).
Proof.
  intros Hm Hk r r' Hr. unfold sbind. destruct (Hm r r' Hr) as [Hres Hst].
  destruct (m r) as [[a|e] s], (m r') as [[a'|e'] s']; cbn in Hres, Hst; try done.
  - injection Hres as <-. by apply Hk.
  - by injection Hres as <-.
Qed.

Lemma on_recv_skip_loop fuel remote ck until : on_recv (skip_loop fuel remote ck until).
Proof.
  revert ck. induction fuel as [|fuel IH]; intros ck r r' (Hc & Hn & Hd & Hs); cbn [skip_loop];
    rewrite Hn; (case_decide; [|by split]); [by split|].
  destruct (kdf_ck ck). rewrite Hs. case_decide; [by split_and!|].
  apply IH. unfold same_recv. cbn. rewrite Hn. by split_and!.
Qed.

Lemma on_recv_skip until : on_recv (skip_message_keys until).
Proof.
  intros r r' Hr. pose proof Hr as (Hc & Hn & Hd & Hs). unfold skip_message_keys. rewrite Hc, Hn, Hd.
  destruct (chain_recv r') as [ck|]; [|done]. case_decide; [done|]. case_decide; [done|].
  destruct (dh_remote r') as [remote|]; [|done].
  apply on_recv_bind; [apply on_recv_skip_loop| |done].
  intros ck' r1 r1' (? & ? & ? & ?). by split_and!.
Qed.

Lemma on_recv_decrypt_next ct ad : on_recv (decrypt_next ct ad).
Proof.
  intros r r' Hr. pose proof Hr as (Hc & Hn & Hd & Hs). unfold decrypt_next. rewrite Hc.
  destruct (chain_recv r') as [ck|]; [|done]. destruct (kdf_ck ck). cbn. rewrite Hn. by split_and!.
Qed.

(** The secret drawn for the reply decides nothing about the message at hand. *)
Lemma decrypt_fresh fresh fresh' h ct ad r :
  (decrypt fresh h ct ad r).1 = (decrypt fresh' h ct ad r).1.
Proof.
  unfold decrypt. destruct (skipped r !! _); [done|]. case_decide; [|done].
  rewrite !sbind_assoc. destruct (skip_message_keys (rh_pn h) r) as [[[]|e] r1] eqn:E.
  2:{ by rewrite !(sbind_err _ _ _ _ _ E). }
  rewrite !(sbind_ok _ _ _ _ _ E). unfold smodify.
  apply (on_recv_bind (skip_message_keys (rh_n h))); [apply on_recv_skip|intros; apply on_recv_decrypt_next|].
  unfold dh_ratchet. destruct (kdf_rk (root_key r1) _) as [rk ck].
  destruct (kdf_rk rk (dh fresh _)), (kdf_rk rk (dh fresh' _)). by split_and!.
Qed.
End Ratchet.
