(* ===== verification/RatchetProps.v ===== *)
(** * Properties of a single ratchet (core/src/ratchet.rs)

    What one party's state guarantees whatever arrives: the bound on the cache,
    the termination of the loop that fills it, the numbering and keys of what it
    sends, the refusal of large gaps, and the exact state left behind by a message
    that is rejected. *)
From S2P Require Import Prelude Words Primitives Wire Kdf Ratchet Demo.

Section RatchetProps.
Context `{X : X25519, Sym : SymCrypto, !Bincode RatchetHeader}.

(** One operation of an application on its ratchet, with any inputs: in
    particular any header and ciphertext a network can deliver. *)
Inductive ratchet_op : DoubleRatchet -> DoubleRatchet -> Prop :=
| op_encrypt pt ad r : ratchet_op r (encrypt pt ad r).2
| op_decrypt fresh h ct ad r : ratchet_op r (decrypt fresh h ct ad r).2.

Lemma ratchet_op_cache_ok r r' : cache_ok r -> ratchet_op r r' -> cache_ok r'.
Proof. intros Hr Hop. revert Hr. destruct Hop; [apply encrypt_cache_ok|apply decrypt_cache_ok]. Qed.

(** From either initial state, whatever sequence of calls and inputs
    follows, accepted or rejected, the cache of skipped keys never holds more
    than [MAX_SKIPPED_CACHE] keys. *)
Theorem ratchet_cache_bounded root remote (s : StaticSecret) r0 r :
  r0 = init_initiator s root remote \/ r0 = init_responder root s ->
  star ratchet_op r0 r -> size (skipped r) <= MAX_SKIPPED_CACHE.
Proof.
  intros Hinit Hstar. apply (star_invariant ratchet_op cache_ok ratchet_op_cache_ok _ _ Hstar).
  unfold cache_ok. destruct Hinit as [->| ->]; [|cbn; rewrite map_size_empty; unfold MAX_SKIPPED_CACHE; lia].
  unfold init_initiator. destruct (kdf_rk _ _). cbn. rewrite map_size_empty. unfold MAX_SKIPPED_CACHE. lia.
Qed.

(** ** The loop of [skip_message_keys]

    The [while] as the machine it is: a state is the chain key held in the local
    variable and the ratchet; [skip_step] is one turn of the body that reaches
    its end, [skip_exit] the two ways out. *)

Inductive skip_step (remote : key32) (until : u32) : key32 * DoubleRatchet -> key32 * DoubleRatchet -> Prop :=
| skip_turn ck next_ck mk r :
    (wval (n_recv r) < wval until)%N -> kdf_ck ck = (next_ck, mk) -> size (skipped r) < MAX_SKIPPED_CACHE ->
    skip_step remote until (ck, r)
      (next_ck, set_n_recv (set_skipped r (<[(remote, n_recv r) := mk]> (skipped r))) (wsucc (n_recv r))).

Inductive skip_exit (until : u32) : key32 * DoubleRatchet -> result Error key32 * DoubleRatchet -> Prop :=
| exit_reached ck r : ~ (wval (n_recv r) < wval until)%N -> skip_exit until (ck, r) (Ok ck, r)
| exit_full ck r :
    (wval (n_recv r) < wval until)%N -> MAX_SKIPPED_CACHE <= size (skipped r) ->
    skip_exit until (ck, r) (Err Decrypt, r).

(** The turns still to do. *)
Definition skip_left (until : u32) (st : key32 * DoubleRatchet) : nat :=
  N.to_nat (wval until - wval (n_recv st.2)).

Lemma skip_step_left remote until st st' :
  skip_step remote until st st' -> S (skip_left until st') = skip_left until st.
Proof.
  destruct 1 as [ck next_ck mk r Hlt _ _]. unfold skip_left. cbn [snd n_recv set_n_recv set_skipped].
  pose proof (word_lt until). rewrite wval_wsucc by lia. lia.
Qed.

Lemma skip_step_det remote until st st1 st2 :
  skip_step remote until st st1 -> skip_step remote until st st2 -> st1 = st2.
Proof. destruct 1 as [? ? ? ? ? Hk]. inversion 1. congruence. Qed.

Lemma skip_exit_stuck remote until st out st' :
  skip_exit until st out -> ~ skip_step remote until st st'.
Proof. destruct 1; inversion 1; first [contradiction|lia]. Qed.

Lemma skip_exit_det until st out out' : skip_exit until st out -> skip_exit until st out' -> out = out'.
Proof. by destruct 1; inversion 1. Qed.

(** The machine follows the function, in at most as many turns as its fuel. *)
Lemma skip_loop_runs remote until fuel ck r :
  skip_left until (ck, r) <= fuel ->
  exists n st, n <= skip_left until (ck, r) /\ nsteps (skip_step remote until) n (ck, r) st /\
    skip_exit until st (skip_loop fuel remote ck until r).
Proof.
  revert ck r. induction fuel as [|fuel IH]; intros ck r Hfuel; cbn [skip_loop]; case_decide as Hlt.
  - unfold skip_left in Hfuel. cbn [snd] in Hfuel. lia.
  - exists 0, (ck, r). split_and!; [lia|constructor|by constructor].
  - destruct (kdf_ck ck) as [next_ck mk] eqn:Hk. case_decide as Hfull.
    { exists 0, (ck, r). split_and!; [lia|constructor|by constructor]. }
    assert (skip_step remote until (ck, r) _) as Hstep by (constructor; [done|exact Hk|lia]).
    pose proof (skip_step_left _ _ _ _ Hstep) as Hleft.
    destruct (IH next_ck _ ltac:(rewrite <-Hleft in Hfuel; exact (le_S_n _ _ Hfuel))) as (n & st & Hn & Hrun & Hexit).
    exists (S n), st. split_and!; [lia| |exact Hexit]. econstructor; [exact Hstep|exact Hrun].
  - exists 0, (ck, r). split_and!; [lia|constructor|by constructor].
Qed.

Lemma skip_runs_agree remote until n st st1 n' st2 out out' :
  nsteps (skip_step remote until) n st st1 -> skip_exit until st1 out ->
  nsteps (skip_step remote until) n' st st2 -> skip_exit until st2 out' -> out = out'.
Proof.
  intros Hrun. revert n'. induction Hrun as [st|n st sta st1 Hstep Hrun IH]; intros n' Hout Hrun' Hout'.
  - inversion Hrun'; subst; [by eapply skip_exit_det|].
    exfalso. by eapply (skip_exit_stuck remote); [exact Hout|eassumption].
  - inversion Hrun' as [|n'' ? stb ? Hstep' Hrun'']; subst.
    + exfalso. by eapply (skip_exit_stuck remote); [exact Hout'|exact Hstep].
    + rewrite (skip_step_det _ _ _ _ _ Hstep Hstep') in IH. by eapply IH.
Qed.

(** C17: the loop of [skip_message_keys] terminates and the model runs it to its
    end. No state admits an infinite run of turns; from every state the loop
    leaves, within [until - n_recv] turns, and the only result it can leave with,
    whatever turns led there, is the one [skip_loop] computes with the fuel
    [skip_message_keys] gives it. A larger gap being refused first, no header
    makes the loop turn more than [MAX_SKIP] times. *)
Theorem skip_loop_terminates remote until :
  well_founded (flip (skip_step remote until)) /\
  forall ck r,
    (exists n st, n <= skip_left until (ck, r) /\ nsteps (skip_step remote until) n (ck, r) st /\
       skip_exit until st (skip_loop (skip_left until (ck, r)) remote ck until r)) /\
    (forall n st out, nsteps (skip_step remote until) n (ck, r) st -> skip_exit until st out ->
       out = skip_loop (skip_left until (ck, r)) remote ck until r) /\
    (chain_recv r = Some ck -> dh_remote r = Some remote ->
     skip_message_keys until r
     = if decide (skip_left until (ck, r) <= N.to_nat MAX_SKIP) then
         match skip_loop (skip_left until (ck, r)) remote ck until r with
         | (Ok ck', r') => (Ok tt, set_chain_recv r' (Some ck'))
         | (Err e, r') => (Err e, r')
         end
       else (Err Decrypt, r)).
Proof.
  split; [|intros ck r; split_and!].
  - apply (Wf_nat.well_founded_lt_compat _ (skip_left until)).
    intros st st' Hstep. rewrite <-(skip_step_left _ _ _ _ Hstep). lia.
  - by apply skip_loop_runs.
  - intros n st out Hrun Hexit.
    destruct (skip_loop_runs remote until _ ck r (le_n _)) as (n' & st' & _ & Hrun' & Hexit').
    eapply skip_runs_agree; [exact Hrun|exact Hexit|exact Hrun'|exact Hexit'].
  - intros Hck Hrem. unfold skip_message_keys, skip_left. cbn [snd]. rewrite Hck, Hrem.
    repeat case_decide; try lia; [|done|].
    + replace (N.to_nat (wval until - wval (n_recv r))) with 0 by lia. cbn [skip_loop].
      rewrite decide_False by lia. rewrite <-Hck. by destruct r.
    + unfold sbind. by destruct (skip_loop _ _ _ _ _) as [[?|?] ?].
Qed.

(** ** Sending *)

(** The messages of a list of plaintexts sent one after the other. *)
Fixpoint encrypt_all (pts : list (list u8)) (ad : list u8)
  : mut DoubleRatchet Error (list (RatchetHeader * list u8)) :=
  match pts with
  | [] => sret []
  | pt :: pts => let! m := encrypt pt ad in let! ms := encrypt_all pts ad in sret (m :: ms)
  end.

(** A party whose sending chain has first key [k] and is at number [n]
    sends the next messages with numbers [n], [n+1], ... and seals the one with
    number [m] under the [m]-th key of the chain, bound to its header and to the
    session prefix; no number, hence no key of the chain, is used twice before
    the 32-bit counter is exhausted. *)
Theorem encrypt_all_numbered pts ad r k n :
  chain_send r = Some (chain_at k n) -> n_send r = u32_of n -> fits32 (n + length pts) ->
  encrypt_all pts ad r
  = (Ok (zip_with (sealed_as r k ad) (seq n (length pts)) pts),
     set_n_send (set_chain_send r (Some (chain_at k (n + length pts)))) (u32_of (n + length pts)))
  /\ NoDup (map (fun n => rh_n (sealed_as r k ad n []).1) (seq n (length pts))).
Proof.
  intros Hck Hn Hfit. split.
  - revert n r Hck Hn Hfit. induction pts as [|pt pts IH]; intros n r Hck Hn Hfit; cbn.
    + rewrite Nat.add_0_r, <-Hck, <-Hn. by destruct r.
    + cbn in Hfit. rewrite (sbind_ok _ _ _ _ _ (encrypt_ok pt ad r k n Hck Hn)).
      erewrite sbind_ok; [|eapply (IH (S n))]; cbn; [|done|..].
      * unfold sret. by rewrite !Nat.add_succ_r.
      * rewrite wsucc_u32_of by fits. done.
      * fits.
  - apply NoDup_fmap_2_strong; [|apply NoDup_seq].
    intros i j Hi%elem_of_seq Hj%elem_of_seq. cbn. apply u32_of_inj; fits.
Qed.

(** ** Refusals that change nothing *)

(** On the current chain, a message more than [MAX_SKIP] ahead of the
    counter is refused with [Decrypt] and the ratchet is left exactly as it was:
    no key is derived or cached. *)
Theorem decrypt_refuses_large_gap fresh h ct ad r ck :
  skipped r !! (rh_dh_pub h, rh_n h) = None -> dh_remote r = Some (rh_dh_pub h) ->
  chain_recv r = Some ck -> (MAX_SKIP < wval (rh_n h) - wval (n_recv r))%N ->
  decrypt fresh h ct ad r = (Err Decrypt, r).
Proof.
  intros Hskip Hrem Hck Hgap. rewrite decrypt_same_chain by done.
  apply sbind_err. by eapply skip_too_far.
Qed.

(** ** Rejected messages that change the ratchet *)

(** C38: a message of the current chain whose number is behind the counter
    and not cached -- a second copy of a message already received -- is opened
    with the key of the NEXT message, and the chain moves on; the genuine next
    message, number [i], is then opened with the key of number [i + 1]. *)
Theorem replay_takes_next_key fresh fresh' h ct h' ct' ad r k i :
  receiving r (rh_dh_pub h) k i -> fits32 (S i) ->
  cnt (rh_n h) < i -> skipped r !! (rh_dh_pub h, rh_n h) = None ->
  rh_dh_pub h' = rh_dh_pub h -> rh_n h' = u32_of i -> skipped r !! (rh_dh_pub h', rh_n h') = None ->
  let '(res, r') := decrypt fresh h ct ad r in
  res = aead_open (mk_at k i) ct (associated_data ad h) /\
  receiving r' (rh_dh_pub h) k (S i) /\
  (decrypt fresh' h' ct' ad r').1 = aead_open (mk_at k (S i)) ct' (associated_data ad h').
Proof.
  intros Hr Hfit Hlt Hskip Hpub Hn Hskip'. pose proof Hr as (Hrem & Hck & Hnr & Hi).
  rewrite decrypt_same_chain by done. rewrite (receive_behind (rh_dh_pub h) k i); [|done|].
  2:{ rewrite Hnr, wval_u32_of by done. unfold cnt in Hlt. lia. }
  rewrite wsucc_u32_of by done. set (r' := set_n_recv _ _).
  assert (receiving r' (rh_dh_pub h) k (S i)) as Hr' by (by split_and!).
  split_and!; [done|done|].
  rewrite decrypt_same_chain; [|done|by rewrite Hpub]. rewrite (receive_behind (rh_dh_pub h) k (S i)); [done|done|].
  change (n_recv r') with (u32_of (S i)). rewrite Hn, !wval_u32_of by done. lia.
Qed.

(** C39: a message that names a ratchet key other than the current one turns
    the DH ratchet before anything is authenticated: whether or not the
    ciphertext opens, the root key, the peer key, both chains and the own key
    pair are afterwards those derived from the key in the header. *)
Theorem unauthenticated_header_turns_ratchet fresh h ct ad r k i :
  receiving r k i.1 i.2 -> dh_remote r <> Some (rh_dh_pub h) ->
  skipped r !! (rh_dh_pub h, rh_n h) = None ->
  i.2 <= cnt (rh_pn h) -> cnt (rh_pn h) - i.2 <= N.to_nat MAX_SKIP -> cnt (rh_n h) <= N.to_nat MAX_SKIP ->
  size (skipped r) + (cnt (rh_pn h) - i.2) + cnt (rh_n h) <= MAX_SKIPPED_CACHE ->
  let r1 := dh_ratchet fresh (rh_dh_pub h) r in
  let '(res, r') := decrypt fresh h ct ad r in
  res = aead_open (mk_at (ratcheted_key (rh_dh_pub h) r) (cnt (rh_n h))) ct (associated_data ad h) /\
  root_key r' = root_key r1 /\ dh_self r' = fresh /\ dh_self_pub r' = public_of fresh /\
  dh_remote r' = Some (rh_dh_pub h) /\ chain_send r' = chain_send r1 /\
  chain_recv r' = Some (chain_at (ratcheted_key (rh_dh_pub h) r) (S (cnt (rh_n h)))).
Proof.
  destruct i as [ck i]; cbn. intros Hr Hrem Hskip Hpn Hgap Hgap' Hsize.
  rewrite decrypt_new_chain by done. rewrite sbind_assoc.
  rewrite <-(u32_of_cnt (rh_pn h)), (sbind_ok _ _ _ tt (skipped_chain k ck i (cnt (rh_pn h)) r)).
  2:{ apply skip_ok; [done|done|apply fits32_cnt|done|lia]. }
  rewrite (sbind_ok _ _ _ tt (dh_ratchet fresh (rh_dh_pub h) (skipped_chain k ck i (cnt (rh_pn h)) r))) by done.
  set (r0 := skipped_chain _ _ _ _ r).
  assert (ratcheted_key (rh_dh_pub h) r0 = ratcheted_key (rh_dh_pub h) r) as Hkey by done.
  pose proof (dh_ratchet_receiving fresh (rh_dh_pub h) r0) as Hr0. rewrite Hkey in Hr0.
  assert (size (skipped (dh_ratchet fresh (rh_dh_pub h) r0)) + (cnt (rh_n h) - 0) <= MAX_SKIPPED_CACHE) as Hsz.
  { rewrite dh_ratchet_skipped. cbn.
    pose proof (cache_range_size k ck i (cnt (rh_pn h) - i) (skipped r)). lia. }
  pose proof (receive_ok _ _ 0 (cnt (rh_n h)) _ ct (associated_data ad h) Hr0
    ltac:(lia) (fits32_cnt _) ltac:(lia) Hsz) as Hrec.
  rewrite u32_of_cnt in Hrec. rewrite Hrec. unfold received, dh_ratchet; cbn.
  destruct (kdf_rk (root_key r) _) as [rk ckr]. destruct (kdf_rk rk _). by split_and!.
Qed.

(** A cached key is removed before the message that names it is
    authenticated: after any message with the number of a skipped one, genuine
    or not, the key is gone and nothing else changed. *)
Theorem cached_key_is_spent_on_failure fresh h ct ad r mk :
  skipped r !! (rh_dh_pub h, rh_n h) = Some mk ->
  decrypt fresh h ct ad r
  = (aead_open mk ct (associated_data ad h),
     set_skipped r (delete (rh_dh_pub h, rh_n h) (skipped r)))
  /\ skipped (decrypt fresh h ct ad r).2 !! (rh_dh_pub h, rh_n h) = None.
Proof.
  intros Hmk. rewrite (decrypt_cached _ _ _ _ mk) by done. split; [done|]. cbn.
  apply lookup_delete_eq.
Qed.

(** When the cache fills up while a gap is skipped, [decrypt] fails
    with [Decrypt] and leaves the message counter past the keys it stored while
    the chain key stays where it was: counter and chain key no longer belong to
    the same message. *)
Theorem full_cache_desynchronizes fresh h ct ad r k i :
  receiving r (rh_dh_pub h) k i -> i <= cnt (rh_n h) -> cnt (rh_n h) - i <= N.to_nat MAX_SKIP ->
  size (skipped r) <= MAX_SKIPPED_CACHE ->
  MAX_SKIPPED_CACHE < size (skipped r) + (cnt (rh_n h) - i) ->
  (forall j, i <= j <= cnt (rh_n h) -> skipped r !! (rh_dh_pub h, u32_of j) = None) ->
  let '(res, r') := decrypt fresh h ct ad r in
  res = Err Decrypt /\
  n_recv r' = u32_of (i + (MAX_SKIPPED_CACHE - size (skipped r))) /\
  chain_recv r' = Some (chain_at k i) /\
  size (skipped r') = MAX_SKIPPED_CACHE.
Proof.
  intros (Hrem & Hck & Hn & Hi) Hle Hgap Hcap Hfull Hm. pose proof (fits32_cnt (rh_n h)) as Hfit.
  rewrite decrypt_same_chain; [|rewrite <-(u32_of_cnt (rh_n h)); by apply Hm; lia|done].
  unfold skip_message_keys, MAX_SKIP in *. unfold sbind at 1. rewrite Hck, Hn, Hrem.
  assert (wval (rh_n h) = N.of_nat (cnt (rh_n h))) as Hw by (unfold cnt; lia).
  rewrite wval_u32_of, !decide_False by (done || lia).
  pose proof (skip_loop_full (N.to_nat (wval (rh_n h) - N.of_nat i)) (rh_dh_pub h) k i (cnt (rh_n h) - i) r) as Hl.
  replace (i + (cnt (rh_n h) - i)) with (cnt (rh_n h)) in Hl by lia. rewrite u32_of_cnt in Hl.
  rewrite (sbind_err _ _ _ _ _ (Hl Hn Hfit ltac:(lia) Hcap Hfull ltac:(intros; apply Hm; lia))).
  split_and!; [done|done|done|]. cbn. rewrite cache_range_size_fresh; [lia|fits|]. intros. apply Hm. lia.
Qed.
End RatchetProps.

(** ** Concrete states *)
Module RatchetDemo.
Import Demo WireDemo.

Definition prefix : list u8 := bytes [1; 2; 3]%N.
Definition sender : DoubleRatchet := init_initiator (secret 3) (key 1) (key 2).
Definition sender_key : key32 := (kdf_rk (key 1) (dh (secret 3) (key 2))).2.
Definition hello : list u8 := bytes [104; 105]%N.

(** The peer of [sender], and what [sender] sends it. *)
Definition idle : DoubleRatchet := init_responder (key 1) (secret 2).
Definition msg (n : nat) : RatchetHeader * list u8 := sealed_as sender sender_key prefix n hello.
Definition deliver (n : nat) (r : DoubleRatchet) : result Error (list u8) * DoubleRatchet :=
  decrypt (secret 5) (msg n).1 (msg n).2 prefix r.

(** After messages 0 and 1, and after message 3 alone. *)
Definition at_two : DoubleRatchet := (deliver 1 (deliver 0 idle).2).2.
Definition skipped_three : DoubleRatchet := (deliver 3 idle).2.

Definition header (pub n : nat) : RatchetHeader :=
  mkHeader (key (N.of_nat pub)) (u32_of 0) (u32_of n).

(** [at_two] with 3999 keys of another chain in its cache. *)
Definition crowded : DoubleRatchet :=
  set_skipped at_two (cache_range (key 9) (key 7) 0 3999 ∅).

Lemma crowded_size : size (skipped crowded) = 3999.
Proof.
  change (skipped crowded) with (cache_range (key 9) (key 7) 0 3999 ∅).
  rewrite cache_range_size_fresh, map_size_empty; [done|reflexivity|].
  intros. apply lookup_empty.
Qed.

Lemma crowded_lookup n : skipped crowded !! (key 3, n) = None.
Proof.
  change (skipped crowded) with (cache_range (key 9) (key 7) 0 3999 ∅).
  rewrite cache_range_lookup, decide_False by (done || (intros [Habs _]; discriminate Habs)).
  apply lookup_empty.
Qed.
End RatchetDemo.

Import Demo WireDemo RatchetDemo.

Lemma ratchet_cache_bounded_witness :
  size (skipped (decrypt (secret 5) (header 8 900) hello prefix sender).2) <= MAX_SKIPPED_CACHE.
Proof.
  apply (ratchet_cache_bounded (key 1) (key 2) (secret 3) sender).
  - left. reflexivity.
  - eapply star_step; [apply star_refl|]. apply op_decrypt.
Defined.

Lemma encrypt_all_numbered_witness :
  encrypt_all [hello; hello] prefix sender
  = (Ok (zip_with (sealed_as sender sender_key prefix) (seq 0 2) [hello; hello]),
     set_n_send (set_chain_send sender (Some (chain_at sender_key 2))) (u32_of 2))
  /\ NoDup (map (fun n => rh_n (sealed_as sender sender_key prefix n []).1) (seq 0 2)).
Proof.
  apply (encrypt_all_numbered [hello; hello] prefix sender sender_key 0);
    vm_compute; reflexivity.
Defined.

Lemma decrypt_refuses_large_gap_witness :
  decrypt (secret 6) (header 3 1003) hello prefix at_two = (Err Decrypt, at_two).
Proof.
  eapply decrypt_refuses_large_gap; vm_compute; reflexivity.
Defined.

(** The genuine message 2 is lost once message 0 came a second time. *)
Lemma replay_takes_next_key_witness :
  (deliver 2 at_two).1 = Ok hello /\
  (deliver 2 (deliver 0 at_two).2).1 = Err Decrypt /\
  let '(res, r') := deliver 0 at_two in
  res = aead_open (mk_at sender_key 2) (msg 0).2 (associated_data prefix (msg 0).1) /\
  receiving r' (key 3) sender_key 3 /\
  (deliver 2 r').1 = aead_open (mk_at sender_key 3) (msg 2).2 (associated_data prefix (msg 2).1).
Proof.
  split; [vm_compute; reflexivity|]. split; [vm_compute; reflexivity|].
  apply (replay_takes_next_key (secret 5) (secret 5) (msg 0).1 (msg 0).2 (msg 2).1 (msg 2).2 prefix at_two sender_key 2).
  - split_and!; vm_compute; reflexivity.
  - vm_compute; reflexivity.
  - vm_compute. lia.
  - vm_compute; reflexivity.
  - vm_compute; reflexivity.
  - vm_compute; reflexivity.
  - vm_compute; reflexivity.
Defined.

(** The next genuine message is lost after a forged header. *)
Lemma unauthenticated_header_turns_ratchet_witness :
  (deliver 2 at_two).1 = Ok hello /\
  (decrypt (secret 6) (header 8 0) hello prefix at_two).1 = Err Decrypt /\
  (deliver 2 (decrypt (secret 6) (header 8 0) hello prefix at_two).2).1 = Err Decrypt /\
  let h := mkHeader (key 8) (u32_of 2) (u32_of 0) in
  let r1 := dh_ratchet (secret 6) (key 8) at_two in
  let '(res, r') := decrypt (secret 6) h hello prefix at_two in
  res = aead_open (mk_at (ratcheted_key (key 8) at_two) 0) hello (associated_data prefix h) /\
  root_key r' = root_key r1 /\ dh_self r' = secret 6 /\ dh_self_pub r' = public_of (secret 6) /\
  dh_remote r' = Some (key 8) /\ chain_send r' = chain_send r1 /\
  chain_recv r' = Some (chain_at (ratcheted_key (key 8) at_two) 1).
Proof.
  do 3 (split; [vm_compute; reflexivity|]).
  apply (unauthenticated_header_turns_ratchet (secret 6) (mkHeader (key 8) (u32_of 2) (u32_of 0))
    hello prefix at_two (key 3) (sender_key, 2)).
  - split_and!; vm_compute; reflexivity.
  - vm_compute. discriminate.
  - vm_compute; reflexivity.
  - vm_compute. lia.
  - apply Nat.leb_le. vm_compute. reflexivity.
  - apply Nat.leb_le. vm_compute. reflexivity.
  - apply Nat.leb_le. vm_compute. reflexivity.
Defined.

Lemma cached_key_is_spent_on_failure_witness :
  (deliver 1 skipped_three).1 = Ok hello /\
  (deliver 1 (decrypt (secret 5) (msg 1).1 hello prefix skipped_three).2).1 = Err Decrypt /\
  decrypt (secret 5) (msg 1).1 hello prefix skipped_three
  = (aead_open (mk_at sender_key 1) hello (associated_data prefix (msg 1).1),
     set_skipped skipped_three (delete (key 3, u32_of 1) (skipped skipped_three)))
  /\ skipped (decrypt (secret 5) (msg 1).1 hello prefix skipped_three).2 !! (key 3, u32_of 1) = None.
Proof.
  do 2 (split; [vm_compute; reflexivity|]).
  apply (cached_key_is_spent_on_failure (secret 5) (msg 1).1 hello prefix skipped_three (mk_at sender_key 1)).
  vm_compute; reflexivity.
Defined.

Lemma full_cache_desynchronizes_witness :
  let '(res, r') := decrypt (secret 5) (header 3 5) hello prefix crowded in
  res = Err Decrypt /\
  n_recv r' = u32_of (2 + (MAX_SKIPPED_CACHE - size (skipped crowded))) /\
  chain_recv r' = Some (chain_at sender_key 2) /\
  size (skipped r') = MAX_SKIPPED_CACHE.
Proof.
  apply (full_cache_desynchronizes (secret 5) (header 3 5) hello prefix crowded sender_key 2).
  - apply (receiving_set_skipped at_two). split_and!; vm_compute; reflexivity.
  - apply Nat.leb_le. vm_compute. reflexivity.
  - apply Nat.leb_le. vm_compute. reflexivity.
  - rewrite crowded_size. apply Nat.leb_le. vm_compute. reflexivity.
  - rewrite crowded_size. apply Nat.ltb_lt. vm_compute. reflexivity.
  - intros. apply crowded_lookup.
Defined.
