(* ===== verification/Handshake.v ===== *)
(** * The initial key agreement (core/src/handshake.rs)

    X3DH with an ML-KEM leg, on both sides. [ephemeral] and [seed] are the values
    [initiate] draws. *)
From S2P Require Import Prelude Words Primitives Wire Kdf PqKem Identity.

Section Handshake.
Context `{X : X25519, Sym : SymCrypto, Ed : Ed25519, Kem : MlKem}.

Definition dh (secret : StaticSecret) (their_pub : key32) : key32 :=
  diffie_hellman secret their_pub.

Definition clone_secret (secret : StaticSecret) : StaticSecret := secret_from (secret_bytes secret).

(** The root secret, the header to send and the responder's signed prekey. *)
Definition initiate (ephemeral : StaticSecret) (seed : EncapSeed) (my : Account) (bundle : PreKeyBundle)
  : result Error (key32 * HandshakeHeader * key32) :=
  let ephemeral_pub := public_of ephemeral in
  let ikm :=
    dh (dh_identity my) (pb_signed_prekey bundle) ++
    dh ephemeral (pb_identity_dh bundle) ++
    dh ephemeral (pb_signed_prekey bundle) ++
    match pb_one_time_prekey bundle with
    | Some opk => abytes (dh ephemeral opk)
    | None => []
    end in
  k <-? encapsulate (pb_kyber_prekey bundle) seed;
  let '(kyber_ciphertext, kyber_secret) := k in
  let ikm := ikm ++ kyber_secret in
  let root := kdf_root_from_ikm ikm in
  let header :=
    {| hs_identity_ed := identity_public my;
       hs_identity_dh := public_of (dh_identity my);
       hs_ephemeral_dh := ephemeral_pub;
       hs_signed_prekey_id := pb_signed_prekey_id bundle;
       hs_one_time_prekey_id := pb_one_time_prekey_id bundle;
       hs_kyber_prekey_id := pb_kyber_prekey_id bundle;
       hs_kyber_ciphertext := kyber_ciphertext |} in
  Ok (root, header, pb_signed_prekey bundle).

(** [my.take_one_time_prekey(id)?] for an initiator that used one. *)
Definition take_used_prekey (id : option u32) : mut Account Error (option StaticSecret) :=
  match id with
  | Some id => let! sk := take_one_time_prekey id in sret (Some sk)
  | None => sret None
  end.

Definition respond (hs : HandshakeHeader) : mut Account Error key32 := fun my =>
  if decide (hs_kyber_prekey_id hs <> kyber_prekey_id my) then (Err UnknownPrekey, my)
  else
    (let! spk := slift (account_signed_prekey my (hs_signed_prekey_id hs)) in
     let signed_prekey := clone_secret spk in
     let identity_dh := clone_secret (dh_identity my) in
     let! one_time := take_used_prekey (hs_one_time_prekey_id hs) in
     let ikm :=
       dh signed_prekey (hs_identity_dh hs) ++
       dh identity_dh (hs_ephemeral_dh hs) ++
       dh signed_prekey (hs_ephemeral_dh hs) ++
       match one_time with
       | Some opk => abytes (dh opk (hs_ephemeral_dh hs))
       | None => []
       end in
     let! my := sget in
     let! kyber_secret := slift (kyber_decapsulate (kyber my) (hs_kyber_ciphertext hs)) in
     sret (kdf_root_from_ikm (ikm ++ kyber_secret))) my.

(** ** The outcome of a response *)

(** The keys the header names are in the account. *)
Definition names_keys_of (my : Account) (hs : HandshakeHeader) : Prop :=
  hs_kyber_prekey_id hs = kyber_prekey_id my /\ hs_signed_prekey_id hs = signed_prekey_id my.

Lemma take_used_prekey_ok id my sk :
  one_time_prekeys my !! id = Some sk ->
  take_used_prekey (Some id) my
  = (Ok (Some sk), set_one_time_prekeys my (delete id (one_time_prekeys my))).
Proof. intros Hsk. cbn. unfold sbind, take_one_time_prekey. by rewrite Hsk. Qed.

Lemma initiate_identity ephemeral seed my b root hs spk :
  initiate ephemeral seed my b = Ok (root, hs, spk) ->
  hs_identity_ed hs = identity_public my /\ hs_identity_dh hs = identity_dh_public my /\
  hs_ephemeral_dh hs = public_of ephemeral /\ spk = pb_signed_prekey b.
Proof.
  unfold initiate. destruct (encapsulate _ _) as [[ct ss]|]; cbn -[app]; [|done].
  by intros [= <- <- <-].
Qed.

Lemma initiate_prekey_id ephemeral seed my b root hs spk :
  initiate ephemeral seed my b = Ok (root, hs, spk) ->
  hs_one_time_prekey_id hs = pb_one_time_prekey_id b.
Proof.
  unfold initiate. destruct (encapsulate _ _) as [[ct ss]|]; cbn -[app]; [|done].
  by intros [= <- <- <-].
Qed.

Context `{!X25519Laws}.

Lemma clone_secret_id s : clone_secret s = s.
Proof. apply secret_from_bytes. Qed.

(** Whether it succeeds or not, a response changes nothing but the pool, from
    which it removes at most the prekey the header names. *)
Lemma respond_state hs my :
  (respond hs my).2 = my \/
  exists id, hs_one_time_prekey_id hs = Some id /\
    (respond hs my).2 = set_one_time_prekeys my (delete id (one_time_prekeys my)).
Proof.
  unfold respond. case_decide as Hk; [by left|]. unfold sbind, slift.
  destruct (account_signed_prekey _ _) as [spk|e]; [|by left].
  unfold take_used_prekey. destruct (hs_one_time_prekey_id hs) as [id|]; cbn.
  - right. exists id. split; [done|]. unfold sbind, take_one_time_prekey.
    destruct (one_time_prekeys my !! id); cbn; [|done].
    by destruct (kyber_decapsulate _ _).
  - left. by destruct (kyber_decapsulate _ _).
Qed.

Context `{!MlKemLaws}.

(** The bundle shows the account's keys; its one-time prekey, if it has one, is
    that of a secret in the pool under the id next to it. *)
Definition bundle_of (my : Account) (b : PreKeyBundle) : Prop :=
  pb_identity_dh b = identity_dh_public my /\
  pb_signed_prekey b = public_of (signed_prekey my) /\
  pb_kyber_prekey b = kyber_public_bytes (kyber my) /\
  pb_signed_prekey_id b = signed_prekey_id my /\ pb_kyber_prekey_id b = kyber_prekey_id my /\
  match pb_one_time_prekey_id b, pb_one_time_prekey b with
  | Some id, Some p => exists sk, one_time_prekeys my !! id = Some sk /\ p = public_of sk
  | None, None => True
  | _, _ => False
  end.

(** The account after the prekey the bundle offered is spent. *)
Definition spend_offered (b : PreKeyBundle) (my : Account) : Account :=
  match pb_one_time_prekey_id b with
  | Some id => set_one_time_prekeys my (delete id (one_time_prekeys my))
  | None => my
  end.

Lemma respond_initiate ephemeral seed alice bob b root hs spk :
  bundle_of bob b ->
  initiate ephemeral seed alice b = Ok (root, hs, spk) ->
  respond hs bob = (Ok root, spend_offered b bob) /\ spk = public_of (signed_prekey bob).
Proof.
  intros (Hdh & Hspk & Hky & Hsid & Hkid & Hopk) Hinit.
  unfold initiate in Hinit. rewrite Hky in Hinit.
  destruct (encapsulate (kyber_public_bytes (kyber bob)) seed) as [[ct ss]|e] eqn:Henc; [|done].
  apply decapsulate_encapsulate in Henc. cbn -[app abytes dh] in Hinit.
  injection Hinit as <- <- <-. split; [|done].
  unfold respond. cbn [hs_kyber_prekey_id hs_signed_prekey_id hs_one_time_prekey_id hs_identity_dh
    hs_ephemeral_dh hs_kyber_ciphertext].
  rewrite decide_False by (rewrite Hkid; tauto). unfold account_signed_prekey, spend_offered.
  unfold sbind at 1, slift at 1. rewrite decide_True by (by rewrite Hsid).
  rewrite !clone_secret_id, Hdh, Hspk. unfold dh, identity_dh_public.
  rewrite (dh_comm (dh_identity alice)), !(dh_comm ephemeral).
  destruct (pb_one_time_prekey_id b) as [id|], (pb_one_time_prekey b) as [p|]; try done.
  - destruct Hopk as (sk & Hsk & ->).
    rewrite (sbind_ok _ _ _ _ _ (take_used_prekey_ok _ _ _ Hsk)).
    unfold sbind, sget, slift, sret. cbn -[app]. rewrite Henc. by rewrite (dh_comm ephemeral).
  - unfold sbind, sget, slift, sret. cbn -[app]. by rewrite Henc.
Qed.

Lemma bundle_of_bundle `{!Ed25519Laws} my : bundle_of my (bundle my).
Proof.
  unfold bundle_of, bundle. pose proof (btree_iter_elem wle (one_time_prekeys my)) as Hel.
  destruct (btree_iter _ _) as [|[id sk] l]; cbn; split_and!; try done.
  exists sk. split; [|done]. apply Hel. by left.
Qed.

Lemma initiate_total ephemeral seed alice bob b :
  bundle_of bob b -> is_Some (kem_encapsulate (encapsulation_key (kyber_decap (kyber bob))) seed) ->
  exists root hs, initiate ephemeral seed alice b = Ok (root, hs, pb_signed_prekey b).
Proof.
  intros (_ & _ & Hky & _) [[ct ss] Hkem]. unfold initiate. rewrite Hky.
  unfold encapsulate, kyber_public_bytes. rewrite array_of_abytes. cbn [ok_or rbind].
  rewrite encap_from_bytes, Hkem. cbn -[app]. eauto.
Qed.
End Handshake.
