(* ===== verification/Session.v ===== *)
(** * Sessions (core/src/session.rs)

    One end of a conversation: the ratchet, the associated-data prefix and the
    handshake header that is attached until the peer is heard from. *)
From S2P Require Import Prelude Words Primitives Wire Kdf PqKem Identity Handshake Ratchet.

(** The serialized form, [StoredSession]. *)
Record StoredSession : Set := mkStoredSession {
  ss_ratchet : list u8;
  ss_ad_prefix : list u8;
  ss_pending_handshake : option HandshakeHeader
}.

Section Session.
Context `{X : X25519, Sym : SymCrypto, Ed : Ed25519, Kem : MlKem}.
Context `{!Bincode RatchetHeader}.

Record Session := mkSession {
  ratchet : DoubleRatchet;
  ad_prefix_of : list u8;
  pending_handshake : option HandshakeHeader
}.

Definition set_pending_handshake (s : Session) (p : option HandshakeHeader) : Session :=
  mkSession (ratchet s) (ad_prefix_of s) p.

(** [self.ratchet.f(..)]: a method of the ratchet, run on the session. *)
Definition on_ratchet {A} (f : mut DoubleRatchet Error A) : mut Session Error A := fun s =>
  let '(res, r) := f (ratchet s) in (res, mkSession r (ad_prefix_of s) (pending_handshake s)).

Definition ad_prefix (initiator_ed responder_ed : key32) : list u8 := initiator_ed ++ responder_ed.

Definition session_initiate (ephemeral : StaticSecret) (seed : EncapSeed) (fresh : StaticSecret)
    (me : Account) (their_bundle : PreKeyBundle) : result Error Session :=
  _ <-? verify_bundle their_bundle;
  h <-? Handshake.initiate ephemeral seed me their_bundle;
  let '(root, handshake_header, remote_spk) := h in
  let ad := ad_prefix (hs_identity_ed handshake_header) (pb_identity_ed their_bundle) in
  let r := init_initiator fresh root remote_spk in
  Ok (mkSession r ad (Some handshake_header)).

Definition session_respond (fresh : StaticSecret) (first_message : Message)
  : mut Account Error (Session * list u8) :=
  match first_message with
  | Normal _ _ => sthrow UnexpectedMessage
  | PreKey handshake_header header ciphertext =>
      let! root := Handshake.respond handshake_header in
      let! me := sget in
      let ad := ad_prefix (hs_identity_ed handshake_header) (identity_public me) in
      let! spk := slift (account_signed_prekey me (hs_signed_prekey_id handshake_header)) in
      let r := init_responder root (secret_from (secret_bytes spk)) in
      let '(res, r) := Ratchet.decrypt fresh header ciphertext ad r in
      let! plaintext := slift res in
      sret (mkSession r ad None, plaintext)
  end.

Definition session_encrypt (plaintext : list u8) : mut Session Error Message := fun s =>
  (let! m := on_ratchet (Ratchet.encrypt plaintext (ad_prefix_of s)) in
   let! s := sget in
   let '(header, ciphertext) := m in
   sret match pending_handshake s with
        | Some hs => PreKey hs header ciphertext
        | None => Normal header ciphertext
        end) s.

Definition message_parts (m : Message) : RatchetHeader * list u8 :=
  match m with
  | PreKey _ header ciphertext => (header, ciphertext)
  | Normal header ciphertext => (header, ciphertext)
  end.

Definition session_decrypt (fresh : StaticSecret) (message : Message)
  : mut Session Error (list u8) := fun s =>
  let '(header, ciphertext) := message_parts message in
  (let! plaintext := on_ratchet (Ratchet.decrypt fresh header ciphertext (ad_prefix_of s)) in
   smodify (fun s => set_pending_handshake s None) ;!
   sret plaintext) s.

(** ** Persistence *)
Context `{!Bincode StoredRatchet, !Bincode StoredSession}.

Definition session_serialize (s : Session) : list u8 :=
  let stored := {| ss_ratchet := ratchet_serialize (ratchet s);
                   ss_ad_prefix := ad_prefix_of s;
                   ss_pending_handshake := pending_handshake s |} in
  bincode_serialize stored.

Definition session_deserialize (bytes : list u8) : result Error Session :=
  s <-? map_err Wire (bincode_deserialize bytes);
  r <-? ratchet_deserialize (ss_ratchet s);
  Ok (mkSession r (ss_ad_prefix s) (ss_pending_handshake s)).

Lemma session_deserialize_serialize
    `{!X25519Laws, !BincodeLaws StoredRatchet, !BincodeLaws StoredSession} s :
  session_deserialize (session_serialize s) = Ok s.
Proof.
  unfold session_deserialize, session_serialize. rewrite bincode_roundtrip. cbn.
  rewrite ratchet_deserialize_serialize. by destruct s.
Qed.

(** ** Sending and receiving through the session *)

Lemma session_encrypt_ok pt s h ct r' :
  Ratchet.encrypt pt (ad_prefix_of s) (ratchet s) = (Ok (h, ct), r') ->
  session_encrypt pt s
  = (Ok match pending_handshake s with Some hs => PreKey hs h ct | None => Normal h ct end,
     mkSession r' (ad_prefix_of s) (pending_handshake s)).
Proof. intros Henc. unfold session_encrypt, sbind, on_ratchet. by rewrite Henc. Qed.

Lemma session_decrypt_eq fresh m s :
  session_decrypt fresh m s
  = let '(res, r') := Ratchet.decrypt fresh (message_parts m).1 (message_parts m).2 (ad_prefix_of s) (ratchet s) in
    (res, mkSession r' (ad_prefix_of s) (if is_ok res then None else pending_handshake s)).
Proof.
  unfold session_decrypt, sbind, on_ratchet. destruct (message_parts m) as [h ct]. cbn.
  by destruct (Ratchet.decrypt _ _ _ _ _) as [[pt|e] r'].
Qed.
End Session.
