(* ===== verification/SessionProps.v ===== *)
(** * Properties of session establishment (core/src/handshake.rs, core/src/session.rs)

    Agreement of the two sides of the handshake, delivery of the first message,
    consumption of one-time prekeys, the pending handshake, persistence, and what
    a response does not check. *)
From S2P Require Import Prelude Words Primitives Wire Kdf PqKem Identity IdentityProps Handshake Ratchet Session Demo.

Section SessionProps.
Context `{X : X25519, Sym : SymCrypto, Ed : Ed25519, Kem : MlKem}.
Context `{!Bincode RatchetHeader}.
Context `{!X25519Laws, !SymCryptoLaws, !Ed25519Laws, !MlKemLaws}.

(** ** Key agreement *)

(** PQXDH agreement: the responder reconstructs from the handshake header
    exactly the root secret the initiator derived, for every bundle that shows
    its keys, and its account afterwards lacks the offered one-time prekey and
    nothing else. *)
Theorem handshake_agreement ephemeral seed alice bob b root hs spk :
  bundle_of bob b ->
  Handshake.initiate ephemeral seed alice b = Ok (root, hs, spk) ->
  Handshake.respond hs bob = (Ok root, spend_offered b bob) /\
  spk = public_of (signed_prekey bob) /\
  hs_identity_ed hs = identity_public alice /\ hs_identity_dh hs = identity_dh_public alice.
Proof.
  intros Hb Hinit. destruct (respond_initiate _ _ _ _ _ _ _ _ Hb Hinit) as [Hresp Hspk].
  by destruct (initiate_identity _ _ _ _ _ _ _ Hinit) as (? & ? & _).
Qed.

(** ** The first message *)

(** The responder's half before the first message is opened. *)
Definition responder_start (root : key32) (bob : Account) : DoubleRatchet :=
  init_responder root (signed_prekey bob).

(** Responding is decrypting on the responder's initial ratchet. *)
Lemma session_respond_eq fresh hs h ct bob bob' root :
  Handshake.respond hs bob = (Ok root, bob') ->
  session_respond fresh (PreKey hs h ct) bob
  = let ad := ad_prefix (hs_identity_ed hs) (identity_public bob) in
    let '(res, r) := Ratchet.decrypt fresh h ct ad (responder_start root bob) in
    (match res with Ok pt => Ok (mkSession r ad None, pt) | Err e => Err e end, bob').
Proof.
  intros Hresp. unfold session_respond. rewrite (sbind_ok _ _ _ _ _ Hresp).
  assert (hs_signed_prekey_id hs = signed_prekey_id bob) as Hid.
  { unfold respond in Hresp. case_decide; [done|].
    unfold sbind at 1, slift at 1, account_signed_prekey in Hresp. by case_decide. }
  assert (identity_public bob' = identity_public bob /\
    account_signed_prekey bob' (hs_signed_prekey_id hs) = Ok (signed_prekey bob)) as [Hpub Hspk].
  { unfold account_signed_prekey. pose proof (respond_state hs bob) as Hst. rewrite Hresp in Hst.
    destruct Hst as [Heq|(id & _ & Heq)]; cbn in Heq; rewrite Heq; cbn; by rewrite decide_True. }
  unfold sbind at 1, sget. rewrite Hpub, Hspk. unfold sbind at 1, slift at 1. cbv beta iota.
  rewrite secret_from_bytes. unfold responder_start. cbv zeta.
  by destruct (Ratchet.decrypt _ _ _ _ _) as [[pt|e] r].
Qed.

(** The session an initiator has after handing a list of plaintexts to
    [encrypt], and the messages. *)
Fixpoint session_encrypt_all (pts : list (list u8)) : mut Session Error (list Message) :=
  match pts with
  | [] => sret []
  | pt :: pts => let! m := session_encrypt pt in let! ms := session_encrypt_all pts in sret (m :: ms)
  end.

Definition session_sealed (s : Session) (k : key32) (n : nat) (pt : list u8) : Message :=
  let h := mkHeader (dh_self_pub (ratchet s)) (pn (ratchet s)) (u32_of n) in
  let ct := aead_seal (mk_at k n) pt (associated_data (ad_prefix_of s) h) in
  match pending_handshake s with Some hs => PreKey hs h ct | None => Normal h ct end.

Definition sent (s : Session) (k : key32) (n : nat) : Session :=
  mkSession (set_n_send (set_chain_send (ratchet s) (Some (chain_at k n))) (u32_of n))
    (ad_prefix_of s) (pending_handshake s).

Lemma session_encrypt_all_ok pts s k n :
  chain_send (ratchet s) = Some (chain_at k n) -> n_send (ratchet s) = u32_of n ->
  fits32 (n + length pts) ->
  session_encrypt_all pts s
  = (Ok (zip_with (session_sealed s k) (seq n (length pts)) pts), sent s k (n + length pts)).
Proof.
  revert s n. induction pts as [|pt pts IH]; intros s n Hck Hn Hfit; cbn.
  - rewrite Nat.add_0_r. unfold sent, sret. rewrite <-Hck, <-Hn. by destruct s as [[] ? ?].
  - cbn in Hfit.
    assert (session_encrypt pt s = (Ok (session_sealed s k n pt), sent s k (S n))) as Henc.
    { rewrite (session_encrypt_ok _ _ _ _ _ (encrypt_ok pt (ad_prefix_of s) (ratchet s) k n Hck Hn)).
      by rewrite wsucc_u32_of by fits. }
    rewrite (sbind_ok _ _ _ _ _ Henc).
    rewrite (sbind_ok _ _ _ _ _ (IH (sent s k (S n)) (S n) eq_refl eq_refl ltac:(fits))).
    unfold sret. by rewrite Nat.add_succ_r.
Qed.

(** The responder opens any of the first messages of an initiator's ratchet. *)
Lemma responder_opens fresh fresh' root bob ad n pt :
  n <= N.to_nat MAX_SKIP -> fits32 n ->
  let ck := (kdf_rk root (Ratchet.dh fresh (public_of (signed_prekey bob)))).2 in
  let h := mkHeader (public_of fresh) (wrap 32 0) (u32_of n) in
  Ratchet.decrypt fresh' h (aead_seal (mk_at ck n) pt (associated_data ad h)) ad (responder_start root bob)
  = (Ok pt, received (public_of fresh) ck 0 n
              (dh_ratchet fresh' (public_of fresh) (responder_start root bob))).
Proof.
  intros Hn Hfit ck h. rewrite decrypt_new_chain; [|apply lookup_empty|done].
  rewrite sbind_assoc, (sbind_ok _ _ _ tt (responder_start root bob)) by (by apply skip_no_chain).
  rewrite (sbind_ok _ _ _ tt (dh_ratchet fresh' (public_of fresh) (responder_start root bob))) by done.
  pose proof (dh_ratchet_receiving fresh' (public_of fresh) (responder_start root bob)) as Hr.
  assert (ratcheted_key (public_of fresh) (responder_start root bob) = ck) as Hck.
  { unfold ck, ratcheted_key, Ratchet.dh. by rewrite dh_comm. }
  rewrite Hck in Hr. cbn [h rh_n].
  rewrite (receive_ok _ _ _ _ _ _ _ Hr) by (done || lia || (rewrite dh_ratchet_skipped; cbn;
    rewrite map_size_empty; unfold MAX_SKIP, MAX_SKIPPED_CACHE in *; lia)).
  by rewrite aead_open_seal.
Qed.

Definition with_identity_ed (hs : HandshakeHeader) (ed : key32) : HandshakeHeader :=
  {| hs_identity_ed := ed;
     hs_identity_dh := hs_identity_dh hs;
     hs_ephemeral_dh := hs_ephemeral_dh hs;
     hs_signed_prekey_id := hs_signed_prekey_id hs;
     hs_one_time_prekey_id := hs_one_time_prekey_id hs;
     hs_kyber_prekey_id := hs_kyber_prekey_id hs;
     hs_kyber_ciphertext := hs_kyber_ciphertext hs |}.

(** The [n]-th message of a new initiator's ratchet, under a claimed identity. *)
Definition first_message (fresh : StaticSecret) (root : key32) (bob : Account) (hs : HandshakeHeader)
    (n : nat) (pt : list u8) : Message :=
  let ck := (kdf_rk root (Ratchet.dh fresh (public_of (signed_prekey bob)))).2 in
  let h := mkHeader (public_of fresh) (wrap 32 0) (u32_of n) in
  PreKey hs h (aead_seal (mk_at ck n) pt
    (associated_data (ad_prefix (hs_identity_ed hs) (identity_public bob)) h)).

Lemma first_message_opens ephemeral seed fresh fresh' my bob b root hs spk ed n pt :
  bundle_of bob b -> Handshake.initiate ephemeral seed my b = Ok (root, hs, spk) ->
  n <= N.to_nat MAX_SKIP -> fits32 n ->
  session_respond fresh' (first_message fresh root bob (with_identity_ed hs ed) n pt) bob
  = (Ok (mkSession (received (public_of fresh)
                      (kdf_rk root (Ratchet.dh fresh (public_of (signed_prekey bob)))).2 0 n
                      (dh_ratchet fresh' (public_of fresh) (responder_start root bob)))
           (ad_prefix ed (identity_public bob)) None, pt), spend_offered b bob).
Proof.
  intros Hb Hinit Hn Hfit. destruct (respond_initiate _ _ _ _ _ _ _ _ Hb Hinit) as [Hresp _].
  unfold first_message. rewrite (session_respond_eq fresh' (with_identity_ed hs ed) _ _ bob _ root Hresp).
  cbn [hs_identity_ed with_identity_ed]. cbv zeta. by rewrite (responder_opens fresh fresh' root bob _ n pt).
Qed.

(** The initiator's session as [initiate] leaves it. *)
Lemma session_initiate_Ok ephemeral seed fresh alice b sa :
  session_initiate ephemeral seed fresh alice b = Ok sa ->
  verify_bundle b = Ok tt /\
  exists root hs, Handshake.initiate ephemeral seed alice b = Ok (root, hs, pb_signed_prekey b) /\
    sa = mkSession (init_initiator fresh root (pb_signed_prekey b))
           (ad_prefix (identity_public alice) (pb_identity_ed b)) (Some hs).
Proof.
  unfold session_initiate. intros ([] & Hv & Hinit)%rbind_Ok. split; [done|].
  apply rbind_Ok in Hinit as ([[root hs] spk] & Hhs & [= <-]).
  destruct (initiate_identity _ _ _ _ _ _ _ Hhs) as (Hed & _ & _ & ->). exists root, hs.
  by rewrite Hed.
Qed.

(** Establishment: an initiator that gets a verified bundle of the
    responder's and sends messages before hearing back can have them lost or
    reordered: whichever of the first [MAX_SKIP + 1] arrives first establishes
    the session, delivers its own plaintext, agrees on the associated data,
    spends the offered one-time prekey, and leaves the keys of the earlier ones
    ready for them to come later. *)
Theorem first_message_establishes ephemeral seed fresh fresh' alice bob b pts n pt sa :
  bundle_of bob b -> pb_identity_ed b = identity_public bob ->
  session_initiate ephemeral seed fresh alice b = Ok sa ->
  fits32 (length pts) -> pts !! n = Some pt -> n <= N.to_nat MAX_SKIP ->
  exists ck ms m sb,
    session_encrypt_all pts sa = (Ok ms, sent sa ck (length pts)) /\
    length ms = length pts /\ ms !! n = Some m /\
    session_respond fresh' m bob = (Ok (sb, pt), spend_offered b bob) /\
    ad_prefix_of sb = ad_prefix (identity_public alice) (identity_public bob) /\
    ad_prefix_of sb = ad_prefix_of sa /\ pending_handshake sb = None /\
    receiving (ratchet sb) (dh_self_pub (ratchet sa)) ck (S n) /\
    (forall i, i < n -> skipped (ratchet sb) !! (dh_self_pub (ratchet sa), u32_of i) = Some (mk_at ck i)).
Proof.
  intros Hb Hed Hinit Hfit Hpt Hn. pose proof (lookup_lt_Some _ _ _ Hpt) as Hlt.
  apply session_initiate_Ok in Hinit as (_ & root & hs & Hhs & ->).
  destruct (respond_initiate _ _ _ _ _ _ _ _ Hb Hhs) as [Hresp Hspk].
  destruct (initiate_identity _ _ _ _ _ _ _ Hhs) as (Hided & _ & _ & _).
  set (ck := (kdf_rk root (Ratchet.dh fresh (public_of (signed_prekey bob)))).2).
  set (sa := mkSession _ _ _).
  assert (ratchet sa = init_initiator fresh root (public_of (signed_prekey bob))) as Hr by (unfold sa; by rewrite Hspk).
  assert (chain_send (ratchet sa) = Some (chain_at ck 0) /\ n_send (ratchet sa) = u32_of 0 /\
    dh_self_pub (ratchet sa) = public_of fresh /\ pn (ratchet sa) = wrap 32 0) as (Hck & Hns & Hpub & Hpn).
  { rewrite Hr. unfold init_initiator, ck. by destruct (kdf_rk root _). }
  exists ck. pose proof (session_encrypt_all_ok pts sa ck 0 Hck Hns Hfit) as Henc. rewrite Nat.add_0_l in Henc.
  eexists _, (session_sealed sa ck n pt), _. split; [exact Henc|].
  split; [by rewrite length_zip_with, length_seq, Nat.min_id|].
  split; [rewrite lookup_zip_with, Hpt, (lookup_seq_lt 0 (length pts) n) by done; done|].
  assert (fits32 n) as Hfn by fits.
  split.
  { unfold session_sealed. cbn [sa pending_handshake]. rewrite (session_respond_eq _ _ _ _ _ _ _ Hresp).
    rewrite Hpub, Hpn, Hided. cbn [sa ad_prefix_of]. rewrite Hed.
    rewrite (responder_opens fresh fresh' root bob _ n pt Hn Hfn). reflexivity. }
  cbn [ratchet ad_prefix_of pending_handshake sa]. rewrite Hed. cbn [sa ratchet] in Hpub. rewrite Hpub.
  split_and!; try done.
  - unfold receiving, received. cbn [dh_remote chain_recv n_recv].
    split_and!; [|done|apply wsucc_u32_of; fits|fits].
    unfold dh_ratchet. destruct (kdf_rk _ _). by destruct (kdf_rk _ _).
  - intros i Hi. unfold received. cbn. rewrite cache_range_lookup by fits.
    rewrite decide_True by (rewrite cnt_u32_of by fits; split; [done|lia]). by rewrite cnt_u32_of by fits.
Qed.

(** C7: what a malicious prekey server can and cannot put into a session:
    whatever bundle it returns for the responder's identity, if none of its
    signatures is forged, [Session::initiate] either refuses it or derives the root
    secret from the responder's own identity key and signed prekey, the
    Diffie-Hellman value with the one-time prekey the bundle carries, if it carries
    one -- it is under no signature, and is the server's word --, and an ML-KEM secret
    that was encapsulated to the responder's own key; it starts the ratchet against
    the responder's own signed prekey, and the header it attaches names what was
    used. *)
Theorem initiate_only_with_genuine_keys ephemeral seed fresh alice bob b sa :
  pb_identity_ed b = identity_public bob -> no_forgery bob b ->
  session_initiate ephemeral seed fresh alice b = Ok sa ->
  exists ct (ss : key32),
    let root := kdf_root_from_ikm
      ((Handshake.dh (dh_identity alice) (public_of (signed_prekey bob)) ++
        Handshake.dh ephemeral (public_of (dh_identity bob)) ++
        Handshake.dh ephemeral (public_of (signed_prekey bob)) ++
        match pb_one_time_prekey b with
        | Some opk => abytes (Handshake.dh ephemeral opk)
        | None => []
        end) ++ ss) in
    ratchet sa = init_initiator fresh root (public_of (signed_prekey bob)) /\
    kyber_decapsulate (kyber bob) ct = Ok ss /\
    pending_handshake sa = Some (mkHandshake (identity_public alice) (identity_dh_public alice) (public_of ephemeral)
      (pb_signed_prekey_id b) (pb_one_time_prekey_id b) (pb_kyber_prekey_id b) ct) /\
    ad_prefix_of sa = ad_prefix (identity_public alice) (identity_public bob).
Proof.
  intros Hed Hforge Hinit. apply session_initiate_Ok in Hinit as (Hv & root & hs & Hhs & ->).
  destruct (verified_bundle_authentic bob b Hed Hforge Hv) as (Hdh & Hspk & Hky).
  unfold Handshake.initiate in Hhs. rewrite Hky in Hhs.
  destruct (encapsulate _ seed) as [[ct ss]|] eqn:Henc; [|done]. apply decapsulate_encapsulate in Henc.
  cbn -[app abytes Handshake.dh] in Hhs. rewrite Hdh, Hspk in Hhs. unfold identity_dh_public in Hhs.
  injection Hhs as <- <-.
  exists ct, ss. cbn [ratchet pending_handshake ad_prefix_of]. rewrite Hspk, Hed. by split_and!.
Qed.

(** ** What a response refuses, and what a refusal costs *)

Definition names_missing_prekey (hs : HandshakeHeader) (my : Account) : Prop :=
  exists id, hs_one_time_prekey_id hs = Some id /\ one_time_prekeys my !! id = None.

Lemma respond_refused hs my :
  hs_kyber_prekey_id hs <> kyber_prekey_id my \/
  hs_signed_prekey_id hs <> signed_prekey_id my \/ names_missing_prekey hs my ->
  respond hs my = (Err UnknownPrekey, my).
Proof.
  intros Hbad. unfold respond, account_signed_prekey. case_decide as Hk; [done|]. unfold sbind, slift.
  case_decide as Hs; [|done]. cbn. destruct Hbad as [?|[?|(id & -> & Hid)]]; [tauto|done|].
  unfold take_used_prekey, sbind, take_one_time_prekey. rewrite Hid, delete_id by done. by destruct my.
Qed.

Lemma session_respond_err fresh hs h ct my e my' :
  respond hs my = (Err e, my') -> session_respond fresh (PreKey hs h ct) my = (Err e, my').
Proof. intros Hresp. unfold session_respond. by rewrite (sbind_err _ _ _ _ _ Hresp). Qed.

(** A response is refused with [UnknownPrekey], and the account left as it
    was, when the header names another ML-KEM prekey, another signed prekey, or a
    one-time prekey that is not in the pool; a first message that is no prekey
    message is refused with [UnexpectedMessage]. *)
Theorem respond_refusals fresh hs h ct my :
  hs_kyber_prekey_id hs <> kyber_prekey_id my \/
  hs_signed_prekey_id hs <> signed_prekey_id my \/
  names_missing_prekey hs my ->
  session_respond fresh (PreKey hs h ct) my = (Err UnknownPrekey, my) /\
  session_respond fresh (Normal h ct) my = (Err UnexpectedMessage, my).
Proof.
  intros Hbad. split; [|done]. by apply session_respond_err, respond_refused.
Qed.

Lemma respond_named hs my id sk :
  names_keys_of my hs -> hs_one_time_prekey_id hs = Some id -> one_time_prekeys my !! id = Some sk ->
  exists ikm, respond hs my
  = ((k <-? kyber_decapsulate (kyber my) (hs_kyber_ciphertext hs); Ok (kdf_root_from_ikm (ikm ++ abytes k))),
     set_one_time_prekeys my (delete id (one_time_prekeys my))).
Proof.
  intros [Hk Hs] Hid Hsk. unfold respond, account_signed_prekey. rewrite Hk, Hs, Hid.
  rewrite decide_False by tauto. unfold sbind at 1, slift at 1. rewrite decide_True by done.
  rewrite (sbind_ok _ _ _ _ _ (take_used_prekey_ok _ _ _ Hsk)).
  unfold sbind, sget, slift, sret. eexists. by destruct (kyber_decapsulate _ _).
Qed.

(** Past the three checks the named one-time prekey is gone. *)
Lemma session_respond_spends fresh hs h ct my id sk :
  names_keys_of my hs -> hs_one_time_prekey_id hs = Some id -> one_time_prekeys my !! id = Some sk ->
  (session_respond fresh (PreKey hs h ct) my).2 = set_one_time_prekeys my (delete id (one_time_prekeys my)).
Proof.
  intros Hnames Hid Hsk. destruct (respond_named hs my id sk Hnames Hid Hsk) as [ikm Hst%(f_equal snd)].
  destruct (respond hs my) as [[root|e] my'] eqn:Hresp; cbn in Hst; subst my'.
  - rewrite (session_respond_eq _ _ _ _ _ _ _ Hresp). cbv zeta.
    by destruct (Ratchet.decrypt _ _ _ _ _) as [[pt|e] r].
  - unfold session_respond. by rewrite (sbind_err _ _ _ _ _ Hresp).
Qed.

(** C36: the one-time prekey is spent before anything is authenticated: a
    message that names the responder's prekeys and is otherwise garbage is
    refused, and the genuine first message of the initiator the prekey was
    offered to is refused from then on. *)
Theorem garbage_spends_prekey ephemeral seed fresh alice bob b root hs spk id garbage gh gct h ct :
  bundle_of bob b -> pb_one_time_prekey_id b = Some id ->
  Handshake.initiate ephemeral seed alice b = Ok (root, hs, spk) ->
  names_keys_of bob garbage -> hs_one_time_prekey_id garbage = Some id ->
  length (hs_kyber_ciphertext garbage) <> KYBER_CIPHERTEXT_LEN ->
  let '(res, bob') := session_respond fresh (PreKey garbage gh gct) bob in
  res = Err MalformedKey /\
  session_respond fresh (PreKey hs h ct) bob' = (Err UnknownPrekey, bob') /\
  one_time_prekeys_remaining bob' + 1 = one_time_prekeys_remaining bob.
Proof.
  intros Hb Hid Hinit Hnames Hgid Hlen.
  assert (exists sk, one_time_prekeys bob !! id = Some sk) as [sk Hsk].
  { destruct Hb as (_ & _ & _ & _ & _ & Hopk). rewrite Hid in Hopk.
    destruct (pb_one_time_prekey b); [|done]. destruct Hopk as (sk & Hsk & _). eauto. }
  pose proof (session_respond_spends fresh garbage gh gct bob id sk Hnames Hgid Hsk) as Hst.
  assert ((session_respond fresh (PreKey garbage gh gct) bob).1 = Err MalformedKey) as Hres.
  { destruct (respond_named garbage bob id sk Hnames Hgid Hsk) as [ikm Hresp].
    rewrite decapsulate_malformed in Hresp by done. by rewrite (session_respond_err _ _ _ _ _ _ _ Hresp). }
  destruct (session_respond fresh (PreKey garbage gh gct) bob) as [res bob']. cbn in Hres, Hst. subst.
  split; [done|]. split.
  - assert (hs_one_time_prekey_id hs = Some id) as Hhid.
    { by rewrite (initiate_prekey_id _ _ _ _ _ _ _ Hinit). }
    apply session_respond_err, respond_refused. right; right. exists id. split; [done|].
    cbn. apply lookup_delete_eq.
  - unfold one_time_prekeys_remaining. cbn. rewrite map_size_delete, Hsk. cbn.
    assert (size (one_time_prekeys bob) <> 0); [|lia].
    apply map_size_non_empty_iff. intros Hem. by rewrite Hem in Hsk.
Qed.

(** ** Replays and claims of identity *)

(** A first message that established a session and comes again: if it
    named a one-time prekey the copy is refused with [UnknownPrekey]; if the pool
    was empty when the bundle was fetched, nothing stops it, and the copy
    establishes a second session and delivers the same plaintext again. *)
Theorem replayed_first_message fresh fresh' hs h ct bob sb pt bob' :
  session_respond fresh (PreKey hs h ct) bob = (Ok (sb, pt), bob') ->
  match hs_one_time_prekey_id hs with
  | Some _ => session_respond fresh' (PreKey hs h ct) bob' = (Err UnknownPrekey, bob')
  | None => exists sb', session_respond fresh' (PreKey hs h ct) bob' = (Ok (sb', pt), bob')
  end.
Proof.
  intros Hs. destruct (respond hs bob) as [[root|e] bob1] eqn:Hresp.
  2:{ by rewrite (session_respond_err _ _ _ _ _ _ _ Hresp) in Hs. }
  pose proof (respond_state hs bob) as Hst. rewrite Hresp in Hst. cbn in Hst.
  pose proof Hs as Hs'. rewrite (session_respond_eq _ _ _ _ _ _ _ Hresp) in Hs'. cbv zeta in Hs'.
  destruct (Ratchet.decrypt fresh h ct _ _) as [[pt'|e] r] eqn:Hdec; [|done].
  injection Hs' as <- <- <-.
  destruct (hs_one_time_prekey_id hs) as [id|] eqn:Hid.
  - apply session_respond_err, respond_refused. right; right. exists id. split; [done|].
    destruct Hst as [->|(id' & [= <-] & ->)]; [|cbn; apply lookup_delete_eq].
    destruct (one_time_prekeys bob !! id) as [sk|] eqn:Hsk; [exfalso|done].
    assert (names_keys_of bob hs) as Hnames.
    { split; apply dec_stable; intros Hne; by rewrite (respond_refused hs bob) in Hresp by tauto. }
    destruct (respond_named hs bob id sk Hnames Hid Hsk) as [ikm Hr]. rewrite Hr in Hresp.
    injection Hresp as _ Heq. apply (f_equal one_time_prekeys) in Heq. cbn in Heq.
    apply (f_equal (lookup id)) in Heq. by rewrite lookup_delete_eq, Hsk in Heq.
  - destruct Hst as [->|(id' & [=] & _)]. rewrite (session_respond_eq _ _ _ _ _ _ _ Hresp). cbv zeta.
    pose proof (decrypt_fresh fresh fresh' h ct (ad_prefix (hs_identity_ed hs) (identity_public bob))
      (responder_start root bob)) as Hf. rewrite Hdec in Hf. cbn in Hf.
    destruct (Ratchet.decrypt fresh' _ _ _ _) as [res r']; cbn in Hf. subst res. eauto.
Qed.

(** C37: the response does not bind the identity key the handshake claims to
    the DH identity it uses: anyone holding an account of its own can fetch the
    responder's bundle, claim any victim's identity key in the header, and the
    responder accepts the session, delivers the plaintext, and fixes the
    victim's identity as the initiator in the session's associated data. *)
Theorem respond_accepts_claimed_identity ephemeral seed fresh fresh' mallory victim bob b root hs spk pt :
  bundle_of bob b ->
  Handshake.initiate ephemeral seed mallory b = Ok (root, hs, spk) ->
  let forged := with_identity_ed hs victim in
  let ad := ad_prefix victim (identity_public bob) in
  exists h ct r sb,
    Ratchet.encrypt pt ad (init_initiator fresh root spk) = (Ok (h, ct), r) /\
    session_respond fresh' (PreKey forged h ct) bob = (Ok (sb, pt), spend_offered b bob) /\
    ad_prefix_of sb = ad_prefix victim (identity_public bob).
Proof.
  intros Hb Hinit forged ad.
  pose proof (first_message_opens _ _ fresh fresh' _ _ _ _ _ _ victim 0 pt Hb Hinit (Nat.le_0_l _) eq_refl) as Ho.
  destruct (respond_initiate _ _ _ _ _ _ _ _ Hb Hinit) as [_ ->].
  unfold first_message in Ho. unfold init_initiator.
  destruct (kdf_rk root (Ratchet.dh fresh _)) as [rk ck].
  eexists _, _, _, _. split; [|split; [exact Ho|reflexivity]]. reflexivity.
Qed.

(** ** The pending handshake *)

(** The application's calls on an established session. *)
Inductive session_op : Session -> Session -> Prop :=
| sop_encrypt pt s : session_op s (session_encrypt pt s).2
| sop_decrypt fresh m s : session_op s (session_decrypt fresh m s).2.

Lemma session_encrypt_cases pt s :
  match session_encrypt pt s with
  | (Ok m, s') => m = match pending_handshake s with
                      | Some hs => PreKey hs (message_header m) (message_parts m).2
                      | None => Normal (message_header m) (message_parts m).2
                      end /\ pending_handshake s' = pending_handshake s
  | (Err e, s') => e = UnexpectedMessage /\ s' = s
  end.
Proof.
  unfold session_encrypt, sbind, on_ratchet.
  destruct (Ratchet.encrypt pt (ad_prefix_of s) (ratchet s)) as [[[h ct]|e] r'] eqn:Henc; cbn.
  - by destruct (pending_handshake s).
  - unfold Ratchet.encrypt in Henc. destruct (chain_send (ratchet s)) as [ck|].
    + by destruct (kdf_ck ck).
    + injection Henc as <- <-. by destruct s.
Qed.

(** The handshake header travels on every message until the peer is heard:
    a session with a pending handshake sends nothing but prekey messages that
    carry it, through any number of rejected messages; the first message that
    opens clears it, and from then on, whatever the application does, everything
    sent is a normal message. *)
Theorem pending_handshake_until_heard s hs :
  pending_handshake s = Some hs ->
  (forall pt m s', session_encrypt pt s = (Ok m, s') ->
     m = PreKey hs (message_header m) (message_parts m).2 /\ pending_handshake s' = Some hs) /\
  (forall fresh m e s', session_decrypt fresh m s = (Err e, s') -> pending_handshake s' = Some hs) /\
  (forall fresh m pt s' s'' pt' m' s3, session_decrypt fresh m s = (Ok pt, s') -> star session_op s' s'' ->
     session_encrypt pt' s'' = (Ok m', s3) -> m' = Normal (message_header m') (message_parts m').2).
Proof.
  intros Hp. split_and!.
  - intros pt m s' Henc. pose proof (session_encrypt_cases pt s) as Hc. rewrite Henc, Hp in Hc. done.
  - intros fresh m e s'. rewrite session_decrypt_eq.
    destruct (Ratchet.decrypt _ _ _ _ _) as [[pt|e'] r']; intros [= -> <-]. done.
  - intros fresh m pt s' s'' pt' m' s3 Hdec Hstar Henc.
    assert (pending_handshake s'' = None) as Hnone.
    { apply (star_invariant session_op (fun s => pending_handshake s = None)) with (2 := Hstar).
      - intros a b Ha Hop. revert Ha. destruct Hop as [pt0 a|fresh0 m0 a]; intros Ha.
        + pose proof (session_encrypt_cases pt0 a) as Hc.
          destruct (session_encrypt pt0 a) as [[m0|e] s0]; cbn.
          * destruct Hc as [_ ->]. done.
          * by destruct Hc as [_ ->].
        + rewrite session_decrypt_eq. destruct (Ratchet.decrypt _ _ _ _ _) as [[pt0|e] r0]; done.
      - rewrite session_decrypt_eq in Hdec.
        destruct (Ratchet.decrypt _ _ _ _ _) as [[pt0|e] r0]; [|done]. by injection Hdec as _ <-. }
    pose proof (session_encrypt_cases pt' s'') as Hc. rewrite Henc, Hnone in Hc. by destruct Hc.
Qed.

(** ** Persistence *)
Context `{!Bincode StoredRatchet, !Bincode StoredSession, !BincodeLaws StoredRatchet, !BincodeLaws StoredSession}.

(** A session survives [serialize] and [deserialize] whole: ratchet, cache
    of skipped keys, prefix and pending handshake, so that the restored session
    behaves like the saved one; two sessions with the same bytes are the same;
    bytes whose outer layer does not decode are refused with [Wire]. *)
Theorem session_roundtrip s s' bytes :
  session_deserialize (session_serialize s) = Ok s /\
  (session_serialize s = session_serialize s' -> s = s') /\
  (forall e, session_deserialize bytes = Err e -> exists text, e = Wire text).
Proof.
  split_and!; [apply session_deserialize_serialize| |].
  - intros Heq. apply (f_equal session_deserialize) in Heq.
    rewrite !session_deserialize_serialize in Heq. by injection Heq.
  - intros e. unfold session_deserialize, ratchet_deserialize.
    destruct (bincode_deserialize bytes) as [st|t]; cbn; [|intros [= <-]; eauto].
    destruct (bincode_deserialize (ss_ratchet st)) as [sr|t]; cbn; [done|intros [= <-]; eauto].
Qed.
End SessionProps.

(** ** A concrete establishment *)
Module SessionDemo.
Import Demo WireDemo IdentityDemo.

#[export] Instance stored_ratchet_codec : Codec StoredRatchet :=
  iso_codec
    (fun r => (sr_root_key r, sr_dh_self r, sr_dh_self_pub r, sr_dh_remote r, sr_chain_send r,
               sr_chain_recv r, sr_n_send r, sr_n_recv r, sr_pn r, sr_skipped r))
    (fun '(a, b, c, d, e, f, g, h, i, j) => mkStoredRatchet a b c d e f g h i j) ltac:(by intros []).

#[export] Instance stored_session_codec : Codec StoredSession :=
  iso_codec (fun s => (ss_ratchet s, ss_ad_prefix s, ss_pending_handshake s))
    (fun '(a, b, c) => mkStoredSession a b c) ltac:(by intros []).

Definition seed : EncapSeed := key 32.
Definition hello (n : N) : list u8 := bytes [104; 105; n]%N.

Lemma bob_encapsulates :
  is_Some (kem_encapsulate (encapsulation_key (kyber_decap (kyber bob))) seed).
Proof. eexists. reflexivity. Qed.

Lemma alice_initiates b :
  bundle_of bob b -> exists root hs,
  Handshake.initiate (secret 31) seed alice b = Ok (root, hs, pb_signed_prekey b).
Proof. intros Hb. exact (initiate_total (secret 31) seed alice bob b Hb bob_encapsulates). Qed.

Lemma alice_session b :
  bundle_of bob b -> verify_bundle b = Ok tt ->
  exists sa, session_initiate (secret 31) seed (secret 33) alice b = Ok sa.
Proof.
  intros Hb Hv. unfold session_initiate. rewrite Hv. destruct (alice_initiates b Hb) as (root & hs & ->).
  cbn [rbind]. eauto.
Qed.

(** The bundle of [bob] after the server exhausted the pool, and one with a
    one-time prekey of the server's. *)
Definition bob_empty : Account := set_one_time_prekeys bob ∅.
Definition tampered : PreKeyBundle :=
  with_unsigned (bundle bob) (wrap 32 0) (wrap 32 0) (Some (key 66)) (Some (wrap 32 9)).
Definition no_prekey : PreKeyBundle := with_unsigned (bundle bob) (wrap 32 0) (wrap 32 0) None None.

Lemma bundle_of_no_prekey : bundle_of bob no_prekey.
Proof. destruct (bundle_of_bundle bob) as (? & ? & ? & _). by split_and!. Qed.
End SessionDemo.

Import Demo WireDemo IdentityDemo SessionDemo.

Lemma handshake_agreement_witness :
  exists root hs spk,
    Handshake.initiate (secret 31) seed alice (bundle bob) = Ok (root, hs, spk) /\
    Handshake.respond hs bob = (Ok root, spend_offered (bundle bob) bob) /\
    spk = public_of (signed_prekey bob) /\
    hs_identity_ed hs = identity_public alice /\ hs_identity_dh hs = identity_dh_public alice.
Proof.
  destruct (alice_initiates (bundle bob) (bundle_of_bundle bob)) as (root & hs & Hinit).
  exists root, hs, (pb_signed_prekey (bundle bob)). split; [exact Hinit|].
  exact (handshake_agreement _ _ _ _ _ _ _ _ (bundle_of_bundle bob) Hinit).
Defined.

Lemma first_message_establishes_witness :
  exists sa ck ms m sb,
    session_encrypt_all [hello 0; hello 1; hello 2] sa = (Ok ms, sent sa ck 3) /\
    length ms = 3 /\ ms !! 2 = Some m /\
    session_respond (secret 34) m bob = (Ok (sb, hello 2), spend_offered (bundle bob) bob) /\
    ad_prefix_of sb = ad_prefix (identity_public alice) (identity_public bob) /\
    ad_prefix_of sb = ad_prefix_of sa /\ pending_handshake sb = None /\
    receiving (ratchet sb) (dh_self_pub (ratchet sa)) ck 3 /\
    (forall i, i < 2 -> skipped (ratchet sb) !! (dh_self_pub (ratchet sa), u32_of i) = Some (mk_at ck i)).
Proof.
  destruct (alice_session (bundle bob) (bundle_of_bundle bob) (verify_bundle_bundle bob)) as [sa Hsa].
  exists sa. eapply (first_message_establishes _ _ _ (secret 34) _ bob (bundle bob) [hello 0; hello 1; hello 2] 2 (hello 2)).
  - exact (bundle_of_bundle bob).
  - reflexivity.
  - exact Hsa.
  - reflexivity.
  - reflexivity.
  - unfold MAX_SKIP. lia.
Defined.

(** The prekey server offered a one-time prekey of its own. *)
Lemma initiate_only_with_genuine_keys_witness :
  exists sa, session_initiate (secret 31) seed (secret 33) alice tampered = Ok sa /\
  exists ct (ss : key32),
    let root := kdf_root_from_ikm
      ((Handshake.dh (dh_identity alice) (public_of (signed_prekey bob)) ++
        Handshake.dh (secret 31) (public_of (dh_identity bob)) ++
        Handshake.dh (secret 31) (public_of (signed_prekey bob)) ++
        abytes (Handshake.dh (secret 31) (key 66))) ++ ss) in
    ratchet sa = init_initiator (secret 33) root (public_of (signed_prekey bob)) /\
    kyber_decapsulate (kyber bob) ct = Ok ss /\
    pending_handshake sa = Some (mkHandshake (identity_public alice) (identity_dh_public alice) (public_of (secret 31))
      (wrap 32 0) (Some (wrap 32 9)) (wrap 32 0) ct) /\
    ad_prefix_of sa = ad_prefix (identity_public alice) (identity_public bob).
Proof.
  assert (exists sa, session_initiate (secret 31) seed (secret 33) alice tampered = Ok sa) as [sa Hsa].
  { unfold session_initiate, tampered. rewrite verify_with_unsigned, verify_bundle_bundle.
    unfold Handshake.initiate, encapsulate. destruct (bundle_of_bundle bob) as (_ & _ & Hky & _).
    cbn [with_unsigned pb_kyber_prekey]. rewrite Hky. unfold kyber_public_bytes. rewrite array_of_abytes.
    cbn [ok_or rbind]. rewrite encap_from_bytes. destruct bob_encapsulates as [[ct ss] ->].
    cbn [ok_or rbind]. eauto. }
  exists sa. split; [exact Hsa|].
  apply (initiate_only_with_genuine_keys (secret 31) seed (secret 33) alice bob tampered sa).
  - reflexivity.
  - intros c m s Hin _. exact (bundle_signatures_signed bob c m s Hin).
  - exact Hsa.
Defined.

Lemma respond_refusals_witness :
  let hs := mkHandshake (key 1) (key 2) (key 3) (wrap 32 0) (Some (wrap 32 7)) (wrap 32 0) [] in
  let h := mkHeader (key 3) (wrap 32 0) (wrap 32 0) in
  session_respond (secret 34) (PreKey hs h []) bob = (Err UnknownPrekey, bob) /\
  session_respond (secret 34) (Normal h []) bob = (Err UnexpectedMessage, bob).
Proof.
  cbv zeta. apply respond_refusals. right; right. exists (wrap 32 7). split; reflexivity.
Defined.

Lemma garbage_spends_prekey_witness :
  exists root hs spk,
  Handshake.initiate (secret 31) seed alice (bundle bob) = Ok (root, hs, spk) /\
  let garbage := mkHandshake (key 1) (key 2) (key 3) (wrap 32 0) (Some (wrap 32 0)) (wrap 32 0) [] in
  let h := mkHeader (key 3) (wrap 32 0) (wrap 32 0) in
  let '(res, bob') := session_respond (secret 34) (PreKey garbage h []) bob in
  res = Err MalformedKey /\
  session_respond (secret 34) (PreKey hs h []) bob' = (Err UnknownPrekey, bob') /\
  one_time_prekeys_remaining bob' + 1 = one_time_prekeys_remaining bob.
Proof.
  destruct (alice_initiates (bundle bob) (bundle_of_bundle bob)) as (root & hs & Hinit).
  exists root, hs, (pb_signed_prekey (bundle bob)). split; [exact Hinit|]. cbv zeta.
  apply (garbage_spends_prekey (secret 31) seed (secret 34) alice bob (bundle bob) root hs
    (pb_signed_prekey (bundle bob)) (wrap 32 0)).
  - exact (bundle_of_bundle bob).
  - reflexivity.
  - exact Hinit.
  - split; reflexivity.
  - reflexivity.
  - discriminate.
Defined.

(** Without a one-time prekey the copy is accepted. *)
Lemma replayed_first_message_witness :
  exists hs h ct sb sb',
    hs_one_time_prekey_id hs = None /\
    session_respond (secret 34) (PreKey hs h ct) bob = (Ok (sb, hello 1), bob) /\
    session_respond (secret 35) (PreKey hs h ct) bob = (Ok (sb', hello 1), bob).
Proof.
  destruct (alice_initiates no_prekey bundle_of_no_prekey) as (root & hs & Hinit).
  pose proof (first_message_opens _ _ (secret 33) (secret 34) _ _ _ _ _ _ (hs_identity_ed hs) 0 (hello 1)
    bundle_of_no_prekey Hinit (Nat.le_0_l _) eq_refl) as Ho.
  assert (hs_one_time_prekey_id (with_identity_ed hs (hs_identity_ed hs)) = None) as Hnone.
  { exact (initiate_prekey_id _ _ _ _ _ _ _ Hinit). }
  pose proof (replayed_first_message (secret 34) (secret 35) _ _ _ _ _ _ _ Ho) as Hr.
  rewrite Hnone in Hr. destruct Hr as [sb' Hr].
  eexists _, _, _, _, sb'. split; [exact Hnone|]. split; [exact Ho|exact Hr].
Defined.

(** [alice] as the attacker, the identity of key 99 as the victim. *)
Lemma respond_accepts_claimed_identity_witness :
  exists root hs spk, Handshake.initiate (secret 31) seed alice (bundle bob) = Ok (root, hs, spk) /\
  let forged := with_identity_ed hs (key 99) in
  let ad := ad_prefix (key 99) (identity_public bob) in
  exists h ct r sb,
    Ratchet.encrypt (hello 1) ad (init_initiator (secret 33) root spk) = (Ok (h, ct), r) /\
    session_respond (secret 34) (PreKey forged h ct) bob = (Ok (sb, hello 1), spend_offered (bundle bob) bob) /\
    ad_prefix_of sb = ad_prefix (key 99) (identity_public bob).
Proof.
  destruct (alice_initiates (bundle bob) (bundle_of_bundle bob)) as (root & hs & Hinit).
  exists root, hs, (pb_signed_prekey (bundle bob)). split; [exact Hinit|].
  exact (respond_accepts_claimed_identity _ _ (secret 33) (secret 34) _ (key 99) _ _ _ _ _ (hello 1)
    (bundle_of_bundle bob) Hinit).
Defined.

Lemma pending_handshake_until_heard_witness :
  let hs := mkHandshake (key 1) (key 2) (key 3) (wrap 32 0) None (wrap 32 0) [] in
  let s := mkSession (init_initiator (secret 3) (key 1) (key 2)) [] (Some hs) in
  (forall pt m s', session_encrypt pt s = (Ok m, s') ->
     m = PreKey hs (message_header m) (message_parts m).2 /\ pending_handshake s' = Some hs) /\
  (forall fresh m e s', session_decrypt fresh m s = (Err e, s') -> pending_handshake s' = Some hs) /\
  (forall fresh m pt s' s'' pt' m' s3, session_decrypt fresh m s = (Ok pt, s') -> star session_op s' s'' ->
     session_encrypt pt' s'' = (Ok m', s3) -> m' = Normal (message_header m') (message_parts m').2).
Proof. cbv zeta. apply pending_handshake_until_heard. reflexivity. Defined.

Lemma session_roundtrip_witness :
  let s := mkSession (init_initiator (secret 3) (key 1) (key 2)) (hello 4) None in
  session_deserialize (session_serialize s) = Ok s /\
  (session_serialize s = session_serialize s -> s = s) /\
  (forall e, session_deserialize (bytes [1; 2]%N) = Err e -> exists text, e = Wire text).
Proof. cbv zeta. apply session_roundtrip. Defined.
