(* ===== verification/SessionExchange.v ===== *)
(** * The first exchange of a session (core/src/session.rs)

    The first message and the reply to it, in closed form: what the layers above
    use without going through the invariant of whole conversations. *)
From S2P Require Import Prelude Words Primitives Wire Kdf PqKem Identity IdentityProps Handshake.
From S2P Require Import Ratchet Session SessionProps.

Section Exchange.
Context `{X : X25519, Sym : SymCrypto, Ed : Ed25519, Kem : MlKem}.
Context `{!Bincode RatchetHeader}.
Context `{!X25519Laws, !SymCryptoLaws, !Ed25519Laws, !MlKemLaws}.

#[local] Arguments u32_of : simpl never.
#[local] Arguments wsucc : simpl never.

(** The root key and the sending chain of a new initiator. *)
Definition opening_root (root : key32) (fresh : StaticSecret) (spk : key32) : key32 :=
  (kdf_rk root (Ratchet.dh fresh spk)).1.
Definition opening_chain (root : key32) (fresh : StaticSecret) (spk : key32) : key32 :=
  (kdf_rk root (Ratchet.dh fresh spk)).2.

Lemma init_initiator_eq fresh root spk :
  init_initiator fresh root spk
  = mkRatchet (opening_root root fresh spk) fresh (public_of fresh) (Some spk)
      (Some (chain_at (opening_chain root fresh spk) 0)) None (wrap 32 0) (wrap 32 0) (wrap 32 0) ∅.
Proof. unfold init_initiator, opening_root, opening_chain. by destruct (kdf_rk root _). Qed.

(** The responder's sending chain once the DH ratchet turned on the first message. *)
Definition reply_chain (root : key32) (fresh fresh' : StaticSecret) (spk : key32) : key32 :=
  (kdf_rk (opening_root root fresh spk) (Ratchet.dh fresh (public_of fresh'))).2.

Lemma responder_turned fresh fresh' root bob :
  let r := dh_ratchet fresh' (public_of fresh) (responder_start root bob) in
  chain_send r = Some (chain_at (reply_chain root fresh fresh' (public_of (signed_prekey bob))) 0) /\
  n_send r = u32_of 0 /\ dh_self_pub r = public_of fresh' /\ pn r = wrap 32 0.
Proof.
  unfold dh_ratchet, responder_start, reply_chain, opening_root, Ratchet.dh. cbn [root_key dh_self init_responder].
  rewrite (dh_comm (signed_prekey bob)). destruct (kdf_rk root _) as [rk ck]. cbn [fst].
  rewrite (dh_comm fresh'). by destruct (kdf_rk rk _) as [rk' ck'].
Qed.

(** The initiator opens the first reply. *)
Lemma initiator_opens fresh fresh' fresh'' root spk k n ad pt :
  public_of fresh' <> spk ->
  let h := mkHeader (public_of fresh') (wrap 32 0) (u32_of 0) in
  exists r, Ratchet.decrypt fresh'' h
    (aead_seal (mk_at (reply_chain root fresh fresh' spk) 0) pt (associated_data ad h)) ad
    (set_n_send (set_chain_send (init_initiator fresh root spk) (Some k)) n) = (Ok pt, r).
Proof.
  intros Hne h. rewrite init_initiator_eq. set (r0 := set_n_send _ _).
  rewrite decrypt_new_chain; [|apply lookup_empty|by intros [= ->]].
  rewrite sbind_assoc, (sbind_ok _ _ _ tt r0) by (by apply skip_no_chain).
  rewrite (sbind_ok _ _ _ tt (dh_ratchet fresh'' (public_of fresh') r0)) by done.
  pose proof (dh_ratchet_receiving fresh'' (public_of fresh') r0) as Hr.
  change (ratcheted_key (public_of fresh') r0) with (reply_chain root fresh fresh' spk) in Hr.
  cbn [h rh_n]. rewrite (receive_ok _ _ _ _ _ _ _ Hr) by (done || lia || (rewrite dh_ratchet_skipped; cbn;
    rewrite map_size_empty; unfold MAX_SKIP, MAX_SKIPPED_CACHE in *; lia)).
  rewrite aead_open_seal. by eexists.
Qed.

(** An initiator's session before and after its first message. *)
Definition opened (root : key32) (hs : HandshakeHeader) (fresh : StaticSecret) (me bob : Account) : Session :=
  mkSession (init_initiator fresh root (public_of (signed_prekey bob)))
    (ad_prefix (identity_public me) (identity_public bob)) (Some hs).
Definition opened_once (root : key32) (hs : HandshakeHeader) (fresh : StaticSecret) (me bob : Account) : Session :=
  let spk := public_of (signed_prekey bob) in
  mkSession (set_n_send (set_chain_send (init_initiator fresh root spk)
                          (Some (chain_at (opening_chain root fresh spk) 1))) (wsucc (u32_of 0)))
    (ad_prefix (identity_public me) (identity_public bob)) (Some hs).

Lemma session_initiate_opened ephemeral seed fresh me bob b sa :
  bundle_of bob b -> pb_identity_ed b = identity_public bob ->
  session_initiate ephemeral seed fresh me b = Ok sa ->
  exists root hs spk, Handshake.initiate ephemeral seed me b = Ok (root, hs, spk) /\
    hs_identity_ed hs = identity_public me /\ sa = opened root hs fresh me bob.
Proof.
  intros Hb Hed Hinit. destruct (session_initiate_Ok _ _ _ _ _ _ Hinit) as (_ & root & hs & Hhs & ->).
  destruct (initiate_identity _ _ _ _ _ _ _ Hhs) as (Hid & _).
  assert (pb_signed_prekey b = public_of (signed_prekey bob)) as Hspk by apply Hb.
  eexists root, hs, _. split_and!; [exact Hhs|done|]. unfold opened. by rewrite Hspk, Hed.
Qed.

Lemma first_sent root hs fresh me bob pt :
  hs_identity_ed hs = identity_public me ->
  session_encrypt pt (opened root hs fresh me bob)
  = (Ok (first_message fresh root bob (with_identity_ed hs (hs_identity_ed hs)) 0 pt),
     opened_once root hs fresh me bob).
Proof.
  intros Hid. set (spk := public_of (signed_prekey bob)).
  pose proof (encrypt_ok pt (ad_prefix (identity_public me) (identity_public bob))
    (init_initiator fresh root spk) (opening_chain root fresh spk) 0) as Henc.
  rewrite init_initiator_eq in Henc. specialize (Henc eq_refl eq_refl). rewrite <-init_initiator_eq in Henc.
  pose proof (session_encrypt_ok pt (opened root hs fresh me bob) _ _ _ Henc) as Hs. rewrite Hs.
  assert (with_identity_ed hs (hs_identity_ed hs) = hs) as -> by (by destruct hs).
  unfold first_message, sealed_as. cbn [opened pending_handshake ad_prefix_of].
  by rewrite init_initiator_eq, Hid.
Qed.

(** The first message makes the responder's session and gives its plaintext,
    and whatever the responder then replies first, the initiator opens. *)
Lemma first_exchange ephemeral seed fresh fresh' me bob b sa pt :
  bundle_of bob b -> pb_identity_ed b = identity_public bob ->
  session_initiate ephemeral seed fresh me b = Ok sa ->
  public_of fresh' <> public_of (signed_prekey bob) ->
  exists m sa' sb,
    session_encrypt pt sa = (Ok m, sa') /\
    session_respond fresh' m bob = (Ok (sb, pt), spend_offered b bob) /\
    ad_prefix_of sb = ad_prefix (identity_public me) (identity_public bob) /\
    ad_prefix_of sb = ad_prefix_of sa /\
    forall rt, exists m' sb', session_encrypt rt sb = (Ok m', sb') /\
      forall fresh'', exists sa'', session_decrypt fresh'' m' sa' = (Ok rt, sa'').
Proof.
  intros Hb Hed Hinit Hne.
  destruct (session_initiate_opened _ _ _ _ _ _ _ Hb Hed Hinit) as (root & hs & spk0 & Hhs & Hid & ->).
  set (spk := public_of (signed_prekey bob)) in *.
  eexists _, _, _. split; [by apply first_sent|].
  split; [apply (first_message_opens _ _ fresh fresh' _ _ _ _ _ _ _ 0 pt Hb Hhs (Nat.le_0_l _) eq_refl)|].
  split; [cbn [ad_prefix_of]; by rewrite Hid|].
  split; [cbn [ad_prefix_of opened]; by rewrite Hid|]. intros rt.
  destruct (responder_turned fresh fresh' root bob) as (Hck & Hn & Hpub & Hpn).
  set (rb := dh_ratchet fresh' (public_of fresh) (responder_start root bob)) in *.
  set (sb := mkSession _ _ _).
  pose proof (session_encrypt_ok _ _ _ _ _ (encrypt_ok rt (ad_prefix_of sb) (ratchet sb) _ 0 Hck Hn)) as Hrep.
  eexists _, _. split; [exact Hrep|]. intros fresh''. rewrite session_decrypt_eq.
  cbn [message_parts pending_handshake sb fst snd ad_prefix_of ratchet opened_once].
  cbn [received dh_self_pub pn]. rewrite Hpub, Hpn, Hid. fold spk.
  match goal with |- context [set_n_send (set_chain_send _ (Some ?k)) ?n] =>
    destruct (initiator_opens fresh fresh' fresh'' root spk k n
      (ad_prefix (identity_public me) (identity_public bob)) rt Hne) as [r Hr] end.
  rewrite Hr. by eexists.
Qed.
End Exchange.
