(* ===== verification/Conversation.v ===== *)
(** * Two ratchets over a network that loses and reorders

    The initiator's and the responder's ratchets of one session, with a network
    between them that may lose, delay and reorder their messages in any way (it
    does not forge any). The invariant relates the two states through the
    sequence of sending chains they created. *)
From S2P Require Import Prelude Words Primitives Wire Kdf Ratchet Demo.

Section Conversation.
Context `{X : X25519, Sym : SymCrypto, !Bincode RatchetHeader}.

#[local] Arguments u32_of : simpl never.
#[local] Arguments wsucc : simpl never.

(** ** The world *)

(** A message in transit, with the plaintext it was made from; [true] is the
    initiator. *)
Record packet := mkPacket {
  p_from : bool;
  p_header : RatchetHeader;
  p_ct : list u8;
  p_plain : list u8
}.

Record world := mkWorld {
  initiator : DoubleRatchet;
  responder : DoubleRatchet;
  net : list packet;
  used : list key32        (** the ratchet public keys drawn so far *)
}.

Definition get (s : bool) (w : world) : DoubleRatchet := if s then initiator w else responder w.
Definition put (s : bool) (r : DoubleRatchet) (w : world) : world :=
  if s then mkWorld r (responder w) (net w) (used w) else mkWorld (initiator w) r (net w) (used w).
Definition with_net (w : world) (n : list packet) : world :=
  mkWorld (initiator w) (responder w) n (used w).
Definition with_used (w : world) (u : list key32) : world :=
  mkWorld (initiator w) (responder w) (net w) u.

(** The limits of the code on one received header: [MAX_SKIP] per skip and
    [MAX_SKIPPED_CACHE] in all. *)
Definition previous_gap (r : DoubleRatchet) (h : RatchetHeader) : nat :=
  match chain_recv r with Some _ => cnt (rh_pn h) - cnt (n_recv r) | None => 0 end.

Definition within_limits (r : DoubleRatchet) (h : RatchetHeader) : Prop :=
  match skipped r !! (rh_dh_pub h, rh_n h) with
  | Some _ => True
  | None =>
      if decide (dh_remote r = Some (rh_dh_pub h))
      then cnt (rh_n h) - cnt (n_recv r) <= N.to_nat MAX_SKIP /\
           size (skipped r) + (cnt (rh_n h) - cnt (n_recv r)) <= MAX_SKIPPED_CACHE
      else previous_gap r h <= N.to_nat MAX_SKIP /\ cnt (rh_n h) <= N.to_nat MAX_SKIP /\
           size (skipped r) + previous_gap r h + cnt (rh_n h) <= MAX_SKIPPED_CACHE
  end.

Variable ad : list u8.    (** the session's associated-data prefix *)

Inductive step : world -> world -> Prop :=
| step_send s pt h ct r' w :
    encrypt pt ad (get s w) = (Ok (h, ct), r') -> fits32 (S (cnt (n_send (get s w)))) ->
    step w (with_net (put s r' w) (mkPacket s h ct pt :: net w))
| step_deliver p rest fresh res r' w :
    net w ≡ₚ p :: rest -> public_of fresh ∉ used w ->
    within_limits (get (negb (p_from p)) w) (p_header p) ->
    decrypt fresh (p_header p) (p_ct p) ad (get (negb (p_from p)) w) = (res, r') ->
    step w (with_used (with_net (put (negb (p_from p)) r' w) rest) (public_of fresh :: used w))
| step_lose p rest w :
    net w ≡ₚ p :: rest -> step w (with_net w rest).

Definition start (root : key32) (spk fresh : StaticSecret) : world :=
  mkWorld (init_initiator fresh root (public_of spk)) (init_responder root spk) []
    [public_of fresh; public_of spk].

(** ** The chains *)

(** One sending chain: its ratchet key, first chain key, the [pn] its messages
    carry, and the number of messages sent on it. Chain 0 is the responder's
    signed prekey, on which nothing is sent; odd chains are the initiator's. *)
Record chain := mkChain {
  c_pub : key32;
  c_key : key32;
  c_pn : u32;
  c_count : nat
}.

Definition owner (i : nat) : bool := Nat.odd i.

Lemma owner_S i : owner (S i) = negb (owner i).
Proof. unfold owner. by rewrite Nat.odd_succ, Nat.negb_odd. Qed.

(** [cs'] has the chains of [cs], which may have grown, and possibly more. *)
Definition extends (cs cs' : list chain) : Prop :=
  forall i c, cs !! i = Some c -> exists c', cs' !! i = Some c' /\
    c_pub c' = c_pub c /\ c_key c' = c_key c /\ c_pn c' = c_pn c /\ c_count c <= c_count c'.

(** What the party that owns chain [t] and has not created a later one has. *)
Definition sending_ok (cs : list chain) (t : nat) (r : DoubleRatchet) : Prop :=
  exists c, cs !! t = Some c /\ public_of (dh_self r) = c_pub c /\ dh_self_pub r = c_pub c /\
    pn r = c_pn c /\ n_send r = u32_of (c_count c) /\ fits32 (c_count c) /\
    chain_send r = match t with O => None | S _ => Some (chain_at (c_key c) (c_count c)) end.

Definition receiving_ok (cs : list chain) (t : nat) (r : DoubleRatchet) : Prop :=
  match t with
  | O => dh_remote r = None /\ chain_recv r = None
  | S t => exists c, cs !! t = Some c /\ dh_remote r = Some (c_pub c) /\
      match t with
      | O => chain_recv r = None
      | S _ => exists i, receiving r (c_pub c) (c_key c) i /\ i <= c_count c
      end
  end.

Definition skipped_ok (cs : list chain) (t : nat) (r : DoubleRatchet) : Prop :=
  forall q n mk, skipped r !! (q, n) = Some mk ->
    exists j c, S j <= t /\ cs !! j = Some c /\ q = c_pub c /\ mk = mk_at (c_key c) (cnt n) /\
      (S j = t -> cnt n < cnt (n_recv r)).

Definition side_ok (cs : list chain) (t : nat) (r : DoubleRatchet) : Prop :=
  sending_ok cs t r /\ receiving_ok cs t r /\ skipped_ok cs t r.

(** The key of message [n] of chain [i] is within reach of the party at [t]: the
    chain is still to be opened, or not yet that far, or the key is cached. *)
Definition available (t : nat) (r : DoubleRatchet) (i : nat) (c : chain) (n : nat) : Prop :=
  i = S t \/ (S i = t /\ cnt (n_recv r) <= n) \/
  skipped r !! (c_pub c, u32_of n) = Some (mk_at (c_key c) n).

(** [p] is message [n] of chain [i]. *)
Definition packet_of (cs : list chain) (p : packet) (i : nat) (c : chain) (n : nat) : Prop :=
  cs !! i = Some c /\ 1 <= i /\ n < c_count c /\ fits32 (S n) /\ p_from p = owner i /\
  p_header p = mkHeader (c_pub c) (c_pn c) (u32_of n) /\
  p_ct p = aead_seal (mk_at (c_key c) n) (p_plain p) (associated_data ad (p_header p)).

Definition packet_id (p : packet) : key32 * u32 := (rh_dh_pub (p_header p), rh_n (p_header p)).

(** The chains the party [s] is at, when the newest is [S k]. *)
Definition top (k : nat) (s : bool) : nat := if decide (owner k = s) then k else S k.

Record inv (w : world) (cs : list chain) (k : nat) : Prop := mkInv {
  inv_length : length cs = S (S k);
  inv_side s : side_ok cs (top k s) (get s w);
  inv_link c : cs !! S k = Some c ->
    kdf_rk (root_key (get (owner k) w)) (dh (dh_self (get (owner k) w)) (c_pub c))
    = (root_key (get (owner (S k)) w), c_key c);
  inv_fits c : c ∈ cs -> fits32 (c_count c);
  inv_pubs : NoDup (c_pub <$> cs);
  inv_used : forall c, c ∈ cs -> c_pub c ∈ used w;
  inv_pn i c c2 : cs !! i = Some c -> cs !! S (S i) = Some c2 -> c_pn c2 = u32_of (c_count c);
  inv_ids : NoDup (packet_id <$> net w);
  inv_net p : p ∈ net w -> exists i c n, packet_of cs p i c n /\
    available (top k (negb (p_from p))) (get (negb (p_from p)) w) i c n
}.
(** ** Chains only grow *)

Lemma extends_lookup cs cs' i c :
  extends cs cs' -> cs !! i = Some c -> exists c', cs' !! i = Some c' /\
    c_pub c' = c_pub c /\ c_key c' = c_key c /\ c_pn c' = c_pn c /\ c_count c <= c_count c'.
Proof. intros Hext. apply Hext. Qed.

Lemma extends_app cs l : extends cs (cs ++ l).
Proof.
  intros i c Hc. exists c. split; [|by split_and!]. by apply lookup_app_l_Some.
Qed.

Definition grown (c : chain) : chain := mkChain (c_pub c) (c_key c) (c_pn c) (S (c_count c)).

Lemma extends_grow cs t c : cs !! t = Some c -> extends cs (<[t := grown c]> cs).
Proof.
  intros Ht i c' Hc'. destruct (decide (i = t)) as [->|Hne].
  - rewrite Ht in Hc'. injection Hc' as <-. exists (grown c). rewrite list_lookup_insert_eq.
    + split_and!; try done. cbn. lia.
    + by eapply lookup_lt_Some.
  - exists c'. rewrite list_lookup_insert_ne by done. by split_and!.
Qed.

Lemma receiving_ok_extends cs cs' t r : extends cs cs' -> receiving_ok cs t r -> receiving_ok cs' t r.
Proof.
  intros Hext Hr. destruct t as [|t]; [done|]. destruct Hr as (c & Hc & Hrem & Hrec).
  destruct (Hext _ _ Hc) as (c' & Hc' & Hpub & Hkey & _ & Hcount).
  exists c'. rewrite Hpub, Hkey. split_and!; [done|done|].
  destruct t; [done|]. destruct Hrec as (i & Hi & Hle). exists i. split; [done|lia].
Qed.

Lemma skipped_ok_extends cs cs' t r : extends cs cs' -> skipped_ok cs t r -> skipped_ok cs' t r.
Proof.
  intros Hext Hk q n mk Hmk. destruct (Hk _ _ _ Hmk) as (j & c & Hj & Hc & -> & -> & Hlt).
  destruct (Hext _ _ Hc) as (c' & Hc' & Hpub & Hkey & _ & _).
  exists j, c'. rewrite Hpub, Hkey. by split_and!.
Qed.

Lemma side_ok_extends cs cs' t r :
  extends cs cs' -> cs' !! t = cs !! t -> side_ok cs t r -> side_ok cs' t r.
Proof.
  intros Hext Ht (Hs & Hr & Hk). split_and!.
  - unfold sending_ok in *. by rewrite Ht.
  - by eapply receiving_ok_extends.
  - by eapply skipped_ok_extends.
Qed.

Lemma packet_of_extends cs cs' p i c n :
  extends cs cs' -> packet_of cs p i c n ->
  exists c', packet_of cs' p i c' n /\ c_pub c' = c_pub c /\ c_key c' = c_key c.
Proof.
  intros Hext (Hc & Hi & Hn & Hfit & Hfrom & Hh & Hct).
  destruct (Hext _ _ Hc) as (c' & Hc' & Hpub & Hkey & Hpn & Hcount).
  exists c'. split; [|done]. unfold packet_of. rewrite Hpub, Hkey, Hpn. split_and!; try done. lia.
Qed.

Lemma available_chain t r i c c' n :
  c_pub c' = c_pub c -> c_key c' = c_key c -> available t r i c n -> available t r i c' n.
Proof. unfold available. by intros -> ->. Qed.

(** The receiving side alone decides what is available. *)
Lemma available_same_recv t r r' i c n : same_recv r r' -> available t r i c n -> available t r' i c n.
Proof. intros (_ & Hn & _ & Hs). unfold available. by rewrite Hn, Hs. Qed.

Lemma receiving_ok_same_recv cs t r r' : same_recv r r' -> receiving_ok cs t r -> receiving_ok cs t r'.
Proof.
  intros (Hc & Hn & Hd & _). unfold receiving_ok, receiving. destruct t; by rewrite <- ?Hd, <- ?Hc, <- ?Hn.
Qed.

Lemma skipped_ok_same_recv cs t r r' : same_recv r r' -> skipped_ok cs t r -> skipped_ok cs t r'.
Proof. intros (_ & Hn & _ & Hs). unfold skipped_ok. by rewrite Hn, Hs. Qed.

(** ** Sides *)

Lemma top_owner k : top k (owner k) = k.
Proof. unfold top. by rewrite decide_True. Qed.

Lemma top_owner_S k : top k (owner (S k)) = S k.
Proof. unfold top. rewrite decide_False; [done|]. rewrite owner_S. by destruct (owner k). Qed.

Lemma top_cases k s : (s = owner k /\ top k s = k) \/ (s = owner (S k) /\ top k s = S k).
Proof.
  unfold top. rewrite owner_S. destruct (decide (owner k = s)) as [<-|Hne]; [by left|].
  right. split; [|done]. by destruct (owner k), s.
Qed.

Lemma owner_top k s : owner (top k s) = s.
Proof. by destruct (top_cases k s) as [[-> ->]|[-> ->]]. Qed.

Lemma top_neg k s : top k (negb s) <> top k s.
Proof. intros Heq. apply (f_equal owner) in Heq. rewrite !owner_top in Heq. by destruct s. Qed.

Lemma top_bounds k s : k <= top k s <= S k.
Proof. destruct (top_cases k s) as [[_ ->]|[_ ->]]; lia. Qed.

Lemma get_put s r w : get s (put s r w) = r.
Proof. by destruct s. Qed.

Lemma get_put_neg s r w : get (negb s) (put s r w) = get (negb s) w.
Proof. by destruct s. Qed.

Lemma get_with_net s w n : get s (with_net w n) = get s w.
Proof. by destruct s. Qed.

Lemma get_with_used s w u : get s (with_used w u) = get s w.
Proof. by destruct s. Qed.

Lemma net_put s r w : net (put s r w) = net w.
Proof. by destruct s. Qed.

Lemma used_put s r w : used (put s r w) = used w.
Proof. by destruct s. Qed.

Lemma pubs_inj cs i j c c' :
  NoDup (c_pub <$> cs) -> cs !! i = Some c -> cs !! j = Some c' -> c_pub c = c_pub c' -> i = j.
Proof.
  intros Hnd Hi Hj Heq. eapply (NoDup_lookup (c_pub <$> cs) i j (c_pub c)); [done|..].
  - by rewrite list_lookup_fmap, Hi.
  - by rewrite list_lookup_fmap, Hj, Heq.
Qed.

(** ** The start *)

Definition first_chain (root : key32) (spk fresh : StaticSecret) : list chain :=
  [mkChain (public_of spk) root (wrap 32 0) 0;
   mkChain (public_of fresh) (kdf_rk root (dh fresh (public_of spk))).2 (wrap 32 0) 0].

Context `{!X25519Laws, !SymCryptoLaws}.

Lemma inv_start root spk fresh :
  public_of fresh <> public_of spk -> inv (start root spk fresh) (first_chain root spk fresh) 0.
Proof.
  intros Hne. unfold start, first_chain, init_initiator.
  destruct (kdf_rk root (dh fresh (public_of spk))) as [rk ck] eqn:Hkdf. split; cbn.
  - done.
  - intros [|]; unfold top; cbn.
    + split_and!.
      * eexists. split; [done|]. cbn. by split_and!.
      * eexists. split; [done|]. by split_and!.
      * intros q n mk. cbn. by rewrite lookup_empty.
    + split_and!.
      * eexists. split; [done|]. cbn. by split_and!.
      * done.
      * intros q n mk. cbn. by rewrite lookup_empty.
  - intros c [= <-]. cbn. unfold dh in *. by rewrite dh_comm, Hkdf.
  - intros c. rewrite !elem_of_cons, elem_of_nil. by intros [->|[->|[]]].
  - apply NoDup_cons. split; [|apply NoDup_singleton]. intros Heq%list_elem_of_singleton. by apply Hne.
  - intros c. rewrite !elem_of_cons, elem_of_nil. intros [->|[->|[]]]; cbn [c_pub]; set_solver.
  - intros [|[|i]]; cbn; [|done..]. done.
  - apply NoDup_nil_2.
  - by intros p Hp%elem_of_nil.
Qed.
(** ** Sending keeps the invariant *)

Lemma sending_ok_encrypt cs t c r pt h ct r' :
  cs !! t = Some c -> sending_ok cs t r -> fits32 (S (cnt (n_send r))) ->
  encrypt pt ad r = (Ok (h, ct), r') ->
  packet_of (<[t := grown c]> cs) (mkPacket (owner t) h ct pt) t (grown c) (c_count c) /\
  sending_ok (<[t := grown c]> cs) t r' /\ same_recv r r' /\
  root_key r' = root_key r /\ dh_self r' = dh_self r.
Proof.
  intros Ht (c0 & Hc0 & Hself & Hpub & Hpn & Hn & Hfit & Hck) Hfit' Henc.
  rewrite Ht in Hc0. injection Hc0 as <-. rewrite Hn, cnt_u32_of in Hfit' by done.
  assert (t < length cs) as Hlen by (by eapply lookup_lt_Some).
  destruct t as [|t]; [unfold encrypt in Henc; by rewrite Hck in Henc|].
  rewrite (encrypt_ok pt ad r (c_key c) (c_count c) Hck Hn) in Henc.
  unfold sealed_as in Henc. rewrite Hpub, Hpn in Henc. injection Henc as <- <- <-.
  split_and!; try done.
  - unfold packet_of. cbn [p_from p_header p_ct p_plain c_pub c_key c_pn c_count grown].
    rewrite list_lookup_insert_eq by done. split_and!; done || lia.
  - exists (grown c). rewrite list_lookup_insert_eq by done. cbn -[owner].
    split_and!; try done. by apply wsucc_u32_of.
Qed.

(** The peer has not passed the next message of a chain. *)
Lemma fresh_available w cs k s c :
  inv w cs k -> cs !! top k s = Some c -> 1 <= top k s ->
  available (top k (negb s)) (get (negb s) w) (top k s) (grown c) (c_count c).
Proof.
  intros Hinv Hc Ht. destruct (inv_side _ _ _ Hinv (negb s)) as (_ & Hr & _).
  destruct (top_cases k s) as [[-> Heq]|[-> Heq]]; rewrite Heq in *.
  - rewrite <- owner_S, top_owner_S in *. right; left. split; [done|].
    destruct Hr as (c' & Hc' & _ & Hrec). rewrite Hc in Hc'. injection Hc' as <-.
    destruct k as [|k]; [lia|]. destruct Hrec as (i & (_ & _ & -> & Hi) & Hle). by rewrite cnt_u32_of.
  - rewrite owner_S, negb_involutive, top_owner in *. by left.
Qed.

Lemma inv_send w cs k s pt h ct r' :
  inv w cs k -> encrypt pt ad (get s w) = (Ok (h, ct), r') ->
  fits32 (S (cnt (n_send (get s w)))) ->
  exists cs', inv (with_net (put s r' w) (mkPacket s h ct pt :: net w)) cs' k.
Proof.
  intros Hinv Henc Hfit. set (t := top k s).
  destruct (inv_side _ _ _ Hinv s) as (Hs & Hr & Hk). fold t in Hs, Hr, Hk.
  destruct (lookup_lt_is_Some_2 cs t) as [c Hc].
  { rewrite (inv_length _ _ _ Hinv). pose proof (top_bounds k s). lia. }
  destruct (sending_ok_encrypt _ _ _ _ _ _ _ _ Hc Hs Hfit Henc) as (Hp & Hs' & Hsame & Hroot & Hdh).
  assert (owner t = s) as Ho by apply owner_top. rewrite Ho in Hp.
  pose proof (extends_grow cs t c Hc) as Hext.
  assert ((c_pub <$> <[t := grown c]> cs) = (c_pub <$> cs)) as Hpubs.
  { rewrite list_fmap_insert. apply list_insert_id. by rewrite list_lookup_fmap, Hc. }
  assert (forall s', root_key (get s' (put s r' w)) = root_key (get s' w) /\
    dh_self (get s' (put s r' w)) = dh_self (get s' w)) as Hcore.
  { intros s'. destruct (decide (s' = s)) as [->|Hne]; [by rewrite get_put|].
    replace s' with (negb s) by (by destruct s, s'). by rewrite get_put_neg. }
  assert (forall i c', <[t := grown c]> cs !! i = Some c' ->
    exists c0, cs !! i = Some c0 /\ c_pub c' = c_pub c0 /\ c_key c' = c_key c0 /\ c_pn c' = c_pn c0 /\
      (i <> t -> c' = c0)) as Hback.
  { intros i c' [(<- & <- & _)|[Hne Hi]]%list_lookup_insert_Some; [exists c|exists c']; by split_and!. }
  exists (<[t := grown c]> cs). split.
  - rewrite length_insert. apply (inv_length _ _ _ Hinv).
  - intros s'. rewrite get_with_net. destruct (decide (s' = s)) as [->|Hne].
    + rewrite get_put. fold t. split_and!; [done|..].
      * eapply receiving_ok_extends, receiving_ok_same_recv; done.
      * eapply skipped_ok_extends, skipped_ok_same_recv; done.
    + replace s' with (negb s) by (by destruct s, s'). rewrite get_put_neg.
      apply side_ok_extends with cs; [done| |apply (inv_side _ _ _ Hinv)].
      apply list_lookup_insert_ne. intros Heq. by apply (top_neg k s).
  - intros c' (c0 & Hc0 & -> & -> & _)%Hback. rewrite !get_with_net, !(proj1 (Hcore _)), !(proj2 (Hcore _)).
    by apply (inv_link _ _ _ Hinv).
  - intros c' [i [(<- & <- & _)|[_ Hi]]%list_lookup_insert_Some]%list_elem_of_lookup_1.
    + destruct Hp as (_ & _ & _ & Hfc & _). done.
    + apply (inv_fits _ _ _ Hinv). by eapply list_elem_of_lookup_2.
  - rewrite Hpubs. apply (inv_pubs _ _ _ Hinv).
  - intros c' [i (c0 & Hc0 & -> & _)%Hback]%list_elem_of_lookup_1. cbn. rewrite used_put.
    apply (inv_used _ _ _ Hinv). by eapply list_elem_of_lookup_2.
  - intros i c1 c2 Hc1 (c2' & Hc2' & _ & _ & -> & _)%Hback.
    destruct (Hback _ _ Hc1) as (c1' & Hc1' & _ & _ & _ & Heq).
    rewrite (inv_pn _ _ _ Hinv _ _ _ Hc1' Hc2'), Heq; [done|].
    apply lookup_lt_Some in Hc2'. rewrite (inv_length _ _ _ Hinv) in Hc2'.
    pose proof (top_bounds k s). lia.
  - cbn. rewrite NoDup_cons. split; [|apply (inv_ids _ _ _ Hinv)].
    intros (q & Heq & Hq)%list_elem_of_fmap.
    destruct (inv_net _ _ _ Hinv q Hq) as (i & cq & n & (Hcq & Hi & Hn & Hfn & _ & Hhq & _) & _).
    destruct Hp as (_ & _ & _ & Hfc & _ & Hhp & _). cbn in Hhp. unfold packet_id in Heq. cbn in Heq.
    rewrite Hhq, Hhp in Heq. cbn in Heq. apply pair_equal_spec in Heq as [Hpq Hnq].
    assert (i = t) as -> by (eapply pubs_inj; [apply (inv_pubs _ _ _ Hinv)|exact Hcq|exact Hc|done]).
    rewrite Hc in Hcq. injection Hcq as <-. apply u32_of_inj in Hnq; [lia|fits|fits].
  - cbn. intros q [->|Hq]%elem_of_cons.
    + exists t, (grown c), (c_count c). split; [done|]. cbn [p_from]. rewrite get_with_net, get_put_neg.
      apply (fresh_available w cs k s c Hinv Hc). by destruct Hp as (_ & ? & _).
    + destruct (inv_net _ _ _ Hinv q Hq) as (i & cq & n & Hpq & Hav).
      destruct (packet_of_extends _ _ _ _ _ _ Hext Hpq) as (cq' & Hpq' & Hpub & Hkey).
      exists i, cq', n. split; [done|]. rewrite get_with_net. apply (available_chain _ _ _ cq); [done|done|].
      destruct (decide (negb (p_from q) = s)) as [Heq|Hne].
      * rewrite Heq in *. rewrite get_put. by apply (available_same_recv _ (get s w)).
      * replace (negb (p_from q)) with (negb s) in * by (by destruct (p_from q), s). by rewrite get_put_neg.
Qed.
(** ** Receiving on a known chain *)

(** Every other message stays within reach. *)
Definition keeps_available (cs : list chain) (t t' : nat) (r r' : DoubleRatchet) (c : chain) (n : nat) : Prop :=
  forall i' c' n', cs !! i' = Some c' -> 1 <= i' -> n' < c_count c' -> fits32 n' ->
    (c_pub c', n') <> (c_pub c, n) ->
    available t r i' c' n' -> available t' r' i' c' n'.

Lemma deliver_cached fresh cs t r p i c n mk :
  side_ok cs t r -> NoDup (c_pub <$> cs) -> packet_of cs p i c n ->
  skipped r !! (c_pub c, u32_of n) = Some mk ->
  let '(res, r') := decrypt fresh (p_header p) (p_ct p) ad r in
  res = Ok (p_plain p) /\ side_ok cs t r' /\ root_key r' = root_key r /\ dh_self r' = dh_self r /\
  keeps_available cs t t r r' c n.
Proof.
  intros (Hs & Hr & Hk) Hnd (Hc & Hi & Hn & Hfit & Hfrom & Hh & Hct) Hmk.
  destruct (Hk _ _ _ Hmk) as (j & cj & Hj & Hcj & Hpub & -> & _).
  assert (i = j) as <- by (eapply pubs_inj; eauto). rewrite Hc in Hcj. injection Hcj as <-.
  rewrite cnt_u32_of in Hmk by fits.
  rewrite (decrypt_cached _ _ _ _ (mk_at (c_key c) n)) by (by rewrite Hh).
  split; [rewrite Hct; apply aead_open_seal|]. split; [|split_and!; [done|done|]].
  - split_and!; [done|done|]. intros q m mk Hq. cbn in Hq. apply lookup_delete_Some in Hq as [_ Hq].
    apply (Hk _ _ _ Hq).
  - intros i' c' n' Hc' _ _ Hfit' Hne [->|[[Hi' Hle]|Hav]]; [by left|by right; left|].
    right; right. cbn. rewrite lookup_delete_ne; [done|]. rewrite Hh. cbn.
    intros [Hpub' Hn']%pair_equal_spec. apply Hne.
    apply u32_of_inj in Hn'; [by rewrite Hpub', Hn'|fits|done].
Qed.

(** The state after taking message [n] of the chain [c] the party is on at [i0]
    keeps what it knew and caches the messages in between. *)
Lemma received_skipped_ok cs t r c i0 n :
  skipped_ok cs (S t) r -> cs !! t = Some c -> fits32 (S n) -> cnt (n_recv r) = i0 -> i0 <= n ->
  skipped_ok cs (S t) (received (c_pub c) (c_key c) i0 n r).
Proof.
  intros Hk Hc Hfit Hi0 Hle q m mk Hq. unfold received in *. cbn in Hq |- *.
  rewrite cache_range_lookup in Hq by fits. rewrite wsucc_u32_of, cnt_u32_of by done.
  case_decide as Hm.
  - destruct Hm as [-> Hm]. injection Hq as <-. exists t, c. split_and!; try done; lia.
  - destruct (Hk _ _ _ Hq) as (j & cj & Hj & Hcj & -> & -> & Hlt). exists j, cj.
    split_and!; try done; lia.
Qed.

Lemma received_keeps r c i0 n q m mk :
  fits32 (S n) -> i0 <= n -> (q = c_pub c -> mk = mk_at (c_key c) (cnt m)) ->
  skipped r !! (q, m) = Some mk ->
  skipped (received (c_pub c) (c_key c) i0 n r) !! (q, m) = Some mk.
Proof.
  intros Hfit Hle Hmk Hq. unfold received. cbn. rewrite cache_range_lookup by fits.
  case_decide as Hm; [|done]. destruct Hm as [-> _]. by rewrite (Hmk eq_refl).
Qed.

Lemma received_caches r c i0 n m :
  fits32 (S n) -> i0 <= m < n ->
  skipped (received (c_pub c) (c_key c) i0 n r) !! (c_pub c, u32_of m) = Some (mk_at (c_key c) m).
Proof.
  intros Hfit Hm. unfold received. cbn. rewrite cache_range_lookup, cnt_u32_of by fits.
  rewrite decide_True; [done|]. split; [done|lia].
Qed.

Lemma deliver_current fresh cs t r p i c n :
  side_ok cs t r -> NoDup (c_pub <$> cs) -> packet_of cs p i c n ->
  S i = t -> cnt (n_recv r) <= n -> skipped r !! (c_pub c, u32_of n) = None ->
  within_limits r (p_header p) ->
  let '(res, r') := decrypt fresh (p_header p) (p_ct p) ad r in
  res = Ok (p_plain p) /\ side_ok cs t r' /\ root_key r' = root_key r /\ dh_self r' = dh_self r /\
  keeps_available cs t t r r' c n.
Proof.
  intros (Hs & Hr & Hk) Hnd (Hc & Hi & Hn & Hfit & Hfrom & Hh & Hct) <- Hle Hnone Hlim.
  cbn [receiving_ok] in Hr. destruct Hr as (c0 & Hc0 & Hrem & Hrec). rewrite Hc in Hc0. injection Hc0 as <-.
  destruct i as [|i]; [lia|]. destruct Hrec as (i0 & Hrec & Hle0).
  assert (cnt (n_recv r) = i0) as Hi0 by (destruct Hrec as (_ & _ & -> & ?); by rewrite cnt_u32_of).
  unfold within_limits in Hlim. rewrite Hh in Hlim. cbn in Hlim. rewrite Hnone, decide_True in Hlim by done.
  rewrite cnt_u32_of, Hi0 in Hlim by fits. rewrite Hi0 in Hle.
  rewrite decrypt_same_chain; [|by rewrite Hh|by rewrite Hh]. assert (rh_n (p_header p) = u32_of n) as -> by (by rewrite Hh).
  rewrite (receive_ok _ _ _ _ _ _ _ Hrec Hle) by (fits || lia).
  split; [rewrite Hct; apply aead_open_seal|].
  assert (n_recv (received (c_pub c) (c_key c) i0 n r) = u32_of (S n)) as Hnr by (by apply wsucc_u32_of).
  split; [split_and!|split_and!; [done|done|]].
  - exact Hs.
  - exists c. split_and!; [done|done|]. exists (S n). split; [|lia]. by split_and!.
  - by apply received_skipped_ok.
  - intros i' c' n' Hc' _ _ Hfit' Hne [->|[[Hi' Hle']|Hav]]; [by left| |].
    + right. injection Hi' as ->. rewrite Hc in Hc'. injection Hc' as <-. rewrite Hi0 in Hle'.
      destruct (decide (n' < n)) as [Hlt|Hge].
      * right. apply received_caches; [done|lia].
      * left. split; [done|]. rewrite Hnr, cnt_u32_of by done.
        assert (n' <> n) by (intros ->; by apply Hne). lia.
    + right; right. apply received_keeps; [done|done| |done].
      intros Hpub. assert (i' = S i) as -> by (eapply pubs_inj; eauto).
      rewrite Hc in Hc'. injection Hc' as <-. by rewrite cnt_u32_of.
Qed.

(** ** Receiving the first message of a new chain *)

(** Skipping to the end of the previous chain caches what is left of it. *)
Definition skipped_previous (cs : list chain) (k gap : nat) (r r1 : DoubleRatchet) : Prop :=
  root_key r1 = root_key r /\ dh_self r1 = dh_self r /\ n_send r1 = n_send r /\
  size (skipped r1) <= size (skipped r) + gap /\
  (forall q m mk, skipped r1 !! (q, m) = Some mk ->
     exists j c, S j <= k /\ cs !! j = Some c /\ q = c_pub c /\ mk = mk_at (c_key c) (cnt m)) /\
  (forall i c n, cs !! i = Some c -> i <> S k -> 1 <= i -> n < c_count c ->
     fits32 n -> available k r i c n -> skipped r1 !! (c_pub c, u32_of n) = Some (mk_at (c_key c) n)).

Lemma skip_previous cs k r h :
  side_ok cs k r -> NoDup (c_pub <$> cs) ->
  (forall i c, cs !! i = Some c -> S i = k -> rh_pn h = u32_of (c_count c) /\ fits32 (c_count c)) ->
  previous_gap r h <= N.to_nat MAX_SKIP ->
  size (skipped r) + previous_gap r h <= MAX_SKIPPED_CACHE ->
  exists r1, skip_message_keys (rh_pn h) r = (Ok tt, r1) /\ skipped_previous cs k (previous_gap r h) r r1.
Proof.
  intros (_ & Hr & Hk) Hnd Hpn Hgap Hsize.
  assert (chain_recv r = None -> (forall i c, cs !! i = Some c -> 1 <= i -> S i <> k) ->
    exists r1, skip_message_keys (rh_pn h) r = (Ok tt, r1) /\ skipped_previous cs k (previous_gap r h) r r1)
    as Hnochain.
  { intros Hnone Hno. exists r. split; [by apply skip_no_chain|]. split_and!; try done; [lia| |].
    - intros q m mk Hq. destruct (Hk _ _ _ Hq) as (j & c & ? & ? & ? & ? & _). eauto 10.
    - intros i c n Hc Hi Hi1 Hn Hfit [->|[[Hi' _]|Hav]]; [done| |done]. by destruct (Hno i c Hc Hi1). }
  destruct k as [|[|k]].
  - apply Hnochain; [by destruct Hr|]. lia.
  - destruct Hr as (c & _ & _ & Hnone). apply Hnochain; [done|]. lia.
  - clear Hnochain. destruct Hr as (c & Hc & Hrem & i0 & Hrec & Hle).
    destruct (Hpn _ _ Hc eq_refl) as [Hh Hfc].
    pose proof Hrec as (_ & Hck & Hnr & Hfi).
    unfold previous_gap in Hgap, Hsize |- *. rewrite Hck, Hh, Hnr, !cnt_u32_of in Hgap, Hsize |- * by done.
    exists (skipped_chain (c_pub c) (c_key c) i0 (c_count c) r).
    split; [by apply skip_ok|]. split_and!; try done.
    + apply cache_range_size.
    + intros q m mk Hq. cbn in Hq. rewrite cache_range_lookup in Hq by fits. case_decide as Hm.
      * destruct Hm as [-> Hm]. injection Hq as <-. exists (S k), c. split_and!; done || lia.
      * destruct (Hk _ _ _ Hq) as (j & c' & ? & ? & ? & ? & _). eauto 10.
    + intros i c' n Hc' Hi Hi1 Hn Hfit Hav. cbn.
      rewrite cache_range_lookup, cnt_u32_of by (done || fits).
      case_decide as Hm.
      * destruct Hm as [Hpub _]. assert (i = S k) as -> by (eapply pubs_inj; eauto).
        rewrite Hc in Hc'. by injection Hc' as <-.
      * destruct Hav as [->|[[[= ->] Hge]|Hav]]; [done| |done].
        rewrite Hc in Hc'. injection Hc' as <-. rewrite Hnr, cnt_u32_of in Hge by done.
        destruct Hm. split; [done|lia].
Qed.

Lemma deliver_new fresh cs k r p c n rootY :
  side_ok cs k r -> NoDup (c_pub <$> cs) -> packet_of cs p (S k) c n -> length cs = S (S k) ->
  (forall i c', cs !! i = Some c' -> S i = k -> c_pn c = u32_of (c_count c') /\ fits32 (c_count c')) ->
  kdf_rk (root_key r) (dh (dh_self r) (c_pub c)) = (rootY, c_key c) ->
  skipped r !! (c_pub c, u32_of n) = None -> within_limits r (p_header p) ->
  let '(res, r') := decrypt fresh (p_header p) (p_ct p) ad r in
  res = Ok (p_plain p) /\
  exists key, let c' := mkChain (public_of fresh) key (n_send r) 0 in
    side_ok (cs ++ [c']) (S (S k)) r' /\
    kdf_rk rootY (dh fresh (c_pub c)) = (root_key r', key) /\
    keeps_available cs k (S (S k)) r r' c n.
Proof.
  intros Hside Hnd Hp Hlen Hpn Hlink Hnone Hlim. pose proof Hp as (Hc & _ & Hn & Hfit & _ & Hh & Hct).
  assert (dh_remote r <> Some (c_pub c)) as Hrem.
  { destruct Hside as (_ & Hr & _). destruct k as [|k]; [by destruct Hr as [-> _]|].
    destruct Hr as (c0 & Hc0 & -> & _). intros [= Heq]. assert (k = S (S k)) by (by eapply pubs_inj). lia. }
  assert (rh_dh_pub (p_header p) = c_pub c /\ rh_n (p_header p) = u32_of n /\ rh_pn (p_header p) = c_pn c)
    as (Hhpub & Hhn & Hhpn) by (by rewrite Hh).
  unfold within_limits in Hlim. rewrite Hhpub, Hhn, Hnone, decide_False, cnt_u32_of in Hlim by (done || fits).
  destruct Hlim as (Hgap & Hskip & Hsize).
  destruct (skip_previous cs k r (p_header p) Hside Hnd) as (r1 & Hr1 & Hroot & Hself & Hns & Hsz & Hdom & Hkeep);
    [by rewrite Hhpn|done|lia|].
  rewrite decrypt_new_chain; [|by rewrite Hhpub, Hhn|by rewrite Hhpub].
  rewrite sbind_assoc, (sbind_ok _ _ _ _ _ Hr1), Hhpub, Hhn.
  set (r2 := dh_ratchet fresh (c_pub c) r1).
  rewrite (sbind_ok _ _ _ tt r2) by done.
  assert (receiving r2 (c_pub c) (c_key c) 0) as Hrec.
  { pose proof (dh_ratchet_receiving fresh (c_pub c) r1) as Hrec. unfold ratcheted_key in Hrec.
    rewrite Hroot, Hself, Hlink in Hrec. exact Hrec. }
  assert (skipped r2 = skipped r1) as Hs2 by apply dh_ratchet_skipped.
  assert (n_recv r2 = u32_of 0) as Hn2 by (by destruct Hrec as (_ & _ & ? & _)).
  rewrite (receive_ok _ _ _ _ _ _ _ Hrec) by (fits || rewrite ?Hs2; lia).
  split; [rewrite Hct; apply aead_open_seal|].
  exists (kdf_rk rootY (dh fresh (c_pub c))).2.
  assert (root_key r2 = (kdf_rk rootY (dh fresh (c_pub c))).1 /\
    chain_send r2 = Some (kdf_rk rootY (dh fresh (c_pub c))).2 /\ dh_self r2 = fresh /\
    dh_self_pub r2 = public_of fresh /\ pn r2 = n_send r /\ n_send r2 = u32_of 0) as
    (Hroot2 & Hck2 & Hself2 & Hpub2 & Hpn2 & Hns2).
  { unfold r2, dh_ratchet. rewrite Hroot, Hself, Hlink. by destruct (kdf_rk rootY _). }
  cbv zeta. set (c' := mkChain _ _ _ _).
  assert ((cs ++ [c']) !! S (S k) = Some c') as Hc' by (by rewrite <-Hlen, list_lookup_middle).
  assert ((cs ++ [c']) !! S k = Some c) as Hcc by (by apply lookup_app_l_Some).
  assert (n_recv (received (c_pub c) (c_key c) 0 n r2) = u32_of (S n)) as Hnr by (by apply wsucc_u32_of).
  split; [split_and!|split].
  - exists c'. split_and!; done.
  - exists c. destruct Hrec as (Hrem2 & _). split_and!; [done|exact Hrem2|]. exists (S n). by split_and!.
  - apply received_skipped_ok; [|done|done|by rewrite Hn2|lia].
    intros q m mk Hq. rewrite Hs2 in Hq. destruct (Hdom _ _ _ Hq) as (j & cj & Hj & Hcj & ? & ?).
    exists j, cj. split_and!; try done; [lia|by apply lookup_app_l_Some|lia].
  - cbn. rewrite Hroot2. by destruct (kdf_rk rootY _).
  - intros i' ci n' Hci Hi1 Hlt Hfit' Hne Hav. destruct (decide (i' = S k)) as [->|Hik].
    + right. rewrite Hc in Hci. injection Hci as <-. destruct (decide (n' < n)) as [Hb|Hb].
      * right. apply received_caches; [done|lia].
      * left. split; [done|]. rewrite Hnr, cnt_u32_of by done.
        assert (n' <> n) by (intros ->; by apply Hne). lia.
    + right; right. apply received_keeps; [done|lia| |].
      * intros Hpub. destruct Hik. by eapply pubs_inj.
      * rewrite Hs2. by apply (Hkeep i').
Qed.

(** ** Delivery and loss keep the invariant *)

Lemma rest_ids w cs k p rest :
  inv w cs k -> net w ≡ₚ p :: rest ->
  p ∈ net w /\ NoDup (packet_id <$> rest) /\
  (forall q, q ∈ rest -> q ∈ net w /\ packet_id q <> packet_id p).
Proof.
  intros Hinv Hnet. pose proof (inv_ids _ _ _ Hinv) as Hnd. rewrite Hnet in Hnd. cbn in Hnd.
  apply NoDup_cons in Hnd as [Hp Hnd]. split_and!; [rewrite Hnet; by left|done|].
  intros q Hq. split; [rewrite Hnet; by right|]. intros Heq. apply Hp. rewrite <-Heq.
  by apply list_elem_of_fmap_2.
Qed.

Lemma packet_id_ne cs p q i i' c c' n n' :
  packet_of cs p i c n -> packet_of cs q i' c' n' -> packet_id q <> packet_id p ->
  (c_pub c', n') <> (c_pub c, n).
Proof.
  intros (_ & _ & _ & _ & _ & Hp & _) (_ & _ & _ & _ & _ & Hq & _) Hne [Hpub Hn]%pair_equal_spec.
  apply Hne. unfold packet_id. by rewrite Hp, Hq, Hpub, Hn.
Qed.

Lemma inv_lose w cs k p rest : inv w cs k -> net w ≡ₚ p :: rest -> inv (with_net w rest) cs k.
Proof.
  intros Hinv Hnet. destruct (rest_ids _ _ _ _ _ Hinv Hnet) as (_ & Hnd & Hrest).
  destruct Hinv; split; try done. intros q Hq. rewrite get_with_net. by apply inv_net0, Hrest.
Qed.

(** The world after [s] moved to [r'] by taking a message off the network. *)
Definition after (s : bool) (r' : DoubleRatchet) (rest : list packet) (pub : key32) (w : world) : world :=
  with_used (with_net (put s r' w) rest) (pub :: used w).

Lemma get_after s r' rest pub w : get s (after s r' rest pub w) = r'.
Proof. by destruct s. Qed.

Lemma get_after_neg s r' rest pub w : get (negb s) (after s r' rest pub w) = get (negb s) w.
Proof. by destruct s. Qed.

Lemma inv_receive w cs k p rest s r' pub i c n :
  inv w cs k -> net w ≡ₚ p :: rest -> s = negb (p_from p) -> packet_of cs p i c n ->
  side_ok cs (top k s) r' -> root_key r' = root_key (get s w) -> dh_self r' = dh_self (get s w) ->
  keeps_available cs (top k s) (top k s) (get s w) r' c n ->
  inv (after s r' rest pub w) cs k.
Proof.
  intros Hinv Hnet -> Hp Hside Hroot Hself Hkeep. set (s := negb (p_from p)) in *.
  destruct (rest_ids _ _ _ _ _ Hinv Hnet) as (_ & Hnd & Hrest).
  assert (forall s', root_key (get s' (after s r' rest pub w)) = root_key (get s' w) /\
    dh_self (get s' (after s r' rest pub w)) = dh_self (get s' w)) as Hcore.
  { intros s'. destruct (decide (s' = s)) as [->|Hne]; [by rewrite get_after|].
    replace s' with (negb s) by (by destruct s, s'). by rewrite get_after_neg. }
  split.
  - apply (inv_length _ _ _ Hinv).
  - intros s'. destruct (decide (s' = s)) as [->|Hne]; [by rewrite get_after|].
    replace s' with (negb s) by (by destruct s, s'). rewrite get_after_neg. apply (inv_side _ _ _ Hinv).
  - intros c0 Hc0. rewrite !(proj1 (Hcore _)), !(proj2 (Hcore _)). by apply (inv_link _ _ _ Hinv).
  - apply (inv_fits _ _ _ Hinv).
  - apply (inv_pubs _ _ _ Hinv).
  - intros c0 Hc0. right. by apply (inv_used _ _ _ Hinv).
  - apply (inv_pn _ _ _ Hinv).
  - done.
  - intros q Hq. apply Hrest in Hq as [Hq Hne].
    destruct (inv_net _ _ _ Hinv q Hq) as (i' & c' & n' & Hq' & Hav). exists i', c', n'. split; [done|].
    destruct (decide (negb (p_from q) = s)) as [Heq|Hnes].
    + rewrite Heq in *. rewrite get_after. pose proof Hq' as (Hc' & ? & ? & ? & _).
      apply (Hkeep i'); try done; [fits|]. by eapply packet_id_ne.
    + replace (negb (p_from q)) with (negb s) in * by (by destruct (p_from q), s). by rewrite get_after_neg.
Qed.

Lemma inv_turn w cs k p rest r' fresh c n key :
  inv w cs k -> net w ≡ₚ p :: rest -> owner k = negb (p_from p) -> packet_of cs p (S k) c n ->
  public_of fresh ∉ used w ->
  let c' := mkChain (public_of fresh) key (n_send (get (owner k) w)) 0 in
  side_ok (cs ++ [c']) (S (S k)) r' ->
  kdf_rk (root_key (get (owner (S k)) w)) (dh fresh (c_pub c)) = (root_key r', key) ->
  keeps_available cs k (S (S k)) (get (owner k) w) r' c n ->
  inv (after (owner k) r' rest (public_of fresh) w) (cs ++ [c']) (S k).
Proof.
  intros Hinv Hnet Ho Hp Hfresh c' Hside Hkdf Hkeep. set (s := owner k) in *.
  destruct (rest_ids _ _ _ _ _ Hinv Hnet) as (_ & Hnd & Hrest).
  pose proof (inv_length _ _ _ Hinv) as Hlen. pose proof Hp as (Hc & _).
  assert (top (S k) s = S (S k)) as Htop.
  { unfold top. rewrite decide_False; [done|]. rewrite owner_S. subst s. by destruct (owner k). }
  assert (forall s', s' <> s -> s' = owner (S k)) as Hother.
  { intros s' Hne. rewrite owner_S. subst s. by destruct (owner k), s'. }
  assert (get (owner (S k)) (after s r' rest (public_of fresh) w) = get (owner (S k)) w) as Hget.
  { rewrite owner_S. apply get_after_neg. }
  split.
  - rewrite length_app, Hlen. cbn. lia.
  - intros s'. destruct (decide (s' = s)) as [->|Hne]; [by rewrite get_after, Htop|].
    rewrite (Hother s' Hne), top_owner, Hget. apply side_ok_extends with cs.
    + apply extends_app.
    + apply lookup_app_l. lia.
    + pose proof (inv_side _ _ _ Hinv (owner (S k))) as Hs. by rewrite top_owner_S in Hs.
  - intros c0 Hc0. rewrite <-Hlen, list_lookup_middle in Hc0 by done. injection Hc0 as <-.
    assert (owner (S (S k)) = s) as -> by (by rewrite !owner_S, negb_involutive).
    rewrite Hget, get_after. cbn [c_pub c_key c'].
    pose proof (inv_side _ _ _ Hinv (owner (S k))) as ((c0 & Hc0 & Hself & _) & _).
    rewrite top_owner_S, Hc in Hc0. injection Hc0 as <-. unfold dh in *. by rewrite dh_comm, Hself.
  - intros c0 [Hc0|Hc0%list_elem_of_singleton]%elem_of_app; [by apply (inv_fits _ _ _ Hinv)|by subst c0].
  - rewrite fmap_app. apply NoDup_app. split_and!; [apply (inv_pubs _ _ _ Hinv)| |apply NoDup_singleton].
    intros q (c0 & -> & Hc0)%list_elem_of_fmap Hq%list_elem_of_singleton. apply Hfresh. cbn in Hq.
    rewrite <-Hq. by apply (inv_used _ _ _ Hinv).
  - intros c0 [Hc0|Hc0%list_elem_of_singleton]%elem_of_app; [right; by apply (inv_used _ _ _ Hinv)|].
    subst c0. by left.
  - intros i c1 c2 Hc1 Hc2. destruct (decide (S (S i) < length cs)) as [Hlt|Hge].
    + rewrite lookup_app_l in Hc1, Hc2 by lia. by apply (inv_pn _ _ _ Hinv i).
    + assert (i = k) as ->.
      { apply lookup_lt_Some in Hc2. rewrite length_app in Hc2. cbn in Hc2. lia. }
      rewrite <-Hlen, list_lookup_middle in Hc2 by done. injection Hc2 as <-. cbn [c_pn c'].
      rewrite lookup_app_l in Hc1 by lia.
      pose proof (inv_side _ _ _ Hinv s) as ((c0 & Hc0 & _ & _ & _ & Hns & _) & _).
      unfold s in Hc0. rewrite top_owner, Hc1 in Hc0. by injection Hc0 as <-.
  - done.
  - intros q Hq. apply Hrest in Hq as [Hq Hne].
    destruct (inv_net _ _ _ Hinv q Hq) as (i' & c1 & n' & Hq' & Hav). exists i', c1, n'.
    destruct (packet_of_extends cs (cs ++ [c']) _ _ _ _ (extends_app _ _) Hq') as (c2 & Hq2 & Hpub & Hkey).
    assert (c2 = c1) as ->.
    { destruct Hq' as (Hc1 & _), Hq2 as (Hc2 & _). rewrite (lookup_app_l_Some _ _ _ _ Hc1) in Hc2. by injection Hc2. }
    split; [done|]. pose proof Hq' as (Hc1 & ? & ? & ? & _).
    destruct (decide (negb (p_from q) = s)) as [Heq|Hnes].
    + rewrite Heq in *. rewrite get_after, Htop. apply (Hkeep i'); try done; [fits|by eapply packet_id_ne|].
      unfold s in Hav. by rewrite top_owner in Hav.
    + rewrite (Hother _ Hnes) in *. by rewrite top_owner, Hget; rewrite top_owner_S in Hav.
Qed.

Lemma inv_deliver w cs k p rest fresh :
  inv w cs k -> net w ≡ₚ p :: rest -> public_of fresh ∉ used w ->
  within_limits (get (negb (p_from p)) w) (p_header p) ->
  let '(res, r') := decrypt fresh (p_header p) (p_ct p) ad (get (negb (p_from p)) w) in
  res = Ok (p_plain p) /\
  exists cs' k', inv (after (negb (p_from p)) r' rest (public_of fresh) w) cs' k'.
Proof.
  intros Hinv Hnet Hfresh Hlim. set (s := negb (p_from p)) in *.
  destruct (rest_ids _ _ _ _ _ Hinv Hnet) as (Hin & _).
  destruct (inv_net _ _ _ Hinv p Hin) as (i & c & n & Hp & Hav). fold s in Hav.
  pose proof (inv_side _ _ _ Hinv s) as Hside. pose proof (inv_pubs _ _ _ Hinv) as Hnd.
  destruct (skipped (get s w) !! (c_pub c, u32_of n)) as [mk|] eqn:Hmk.
  - pose proof (deliver_cached fresh _ _ _ _ _ _ _ _ Hside Hnd Hp Hmk) as Hd.
    destruct (decrypt _ _ _ _ _) as [res r']. destruct Hd as (-> & Hside' & Hroot & Hself & Hkeep).
    split; [done|]. exists cs, k. by eapply inv_receive.
  - destruct Hav as [Hi|[[Hi Hle]|Hav]]; [| |by rewrite Hmk in Hav].
    + pose proof Hp as (Hc & _ & _ & _ & Hfrom & _).
      assert (s = owner k /\ top k s = k) as [Hs Htop].
      { destruct (top_cases k s) as [?|[_ Ht]]; [done|]. apply lookup_lt_Some in Hc.
        rewrite (inv_length _ _ _ Hinv) in Hc. lia. }
      rewrite Htop in *. subst i. rewrite Hs in Hside, Hlim, Hmk |- *.
      pose proof (deliver_new fresh cs k _ p c n (root_key (get (owner (S k)) w)) Hside Hnd Hp
        (inv_length _ _ _ Hinv)) as Hd.
      pose proof (inv_link _ _ _ Hinv c Hc) as Hlink.
      destruct (decrypt _ _ _ _ _) as [res r'].
      destruct Hd as (-> & key & Hside' & Hkdf & Hkeep); [|done|done|done|].
      { intros j cj Hcj <-. split; [by eapply (inv_pn _ _ _ Hinv)|].
        apply (inv_fits _ _ _ Hinv). by eapply list_elem_of_lookup_2. }
      split; [done|]. eexists _, (S k). by eapply inv_turn.
    + pose proof (deliver_current fresh _ _ _ _ _ _ _ Hside Hnd Hp Hi Hle Hmk Hlim) as Hd.
      destruct (decrypt _ _ _ _ _) as [res r']. destruct Hd as (-> & Hside' & Hroot & Hself & Hkeep).
      split; [done|]. exists cs, k. by eapply inv_receive.
Qed.

Lemma inv_step w w' cs k : inv w cs k -> step w w' -> exists cs' k', inv w' cs' k'.
Proof.
  intros Hinv Hstep. revert Hinv. destruct Hstep as [s pt h ct r' w Henc Hfit|p rest fresh res r' w Hnet Hfresh Hlim Hdec|p rest w Hnet]; intros Hinv.
  - destruct (inv_send _ _ _ _ _ _ _ _ Hinv Henc Hfit) as [cs' ?]. by exists cs', k.
  - pose proof (inv_deliver _ _ _ _ _ _ Hinv Hnet Hfresh Hlim) as Hd. rewrite Hdec in Hd. by destruct Hd.
  - exists cs, k. by eapply inv_lose.
Qed.

Lemma inv_reachable root spk fresh w :
  public_of fresh <> public_of spk -> star step (start root spk fresh) w -> exists cs k, inv w cs k.
Proof.
  intros Hne Hstar. apply (star_invariant step (fun w => exists cs k, inv w cs k)) with (2 := Hstar).
  - intros a b (cs & k & Hinv) Hstep. by eapply inv_step.
  - eexists _, _. by apply inv_start.
Qed.

(** C6: correctness of the Double Ratchet: whatever the two parties of a
    session send in any order, and however the network delays, reorders and loses
    the messages over any number of turns of the DH ratchet, every message still
    in transit decrypts at its recipient to exactly the plaintext it was made
    from, as long as the secrets drawn are fresh and the gaps stay within
    [MAX_SKIP] and [MAX_SKIPPED_CACHE]. *)
Theorem conversation_delivers root spk a0 fresh w p :
  public_of a0 <> public_of spk -> star step (start root spk a0) w ->
  p ∈ net w -> public_of fresh ∉ used w ->
  within_limits (get (negb (p_from p)) w) (p_header p) ->
  (decrypt fresh (p_header p) (p_ct p) ad (get (negb (p_from p)) w)).1 = Ok (p_plain p).
Proof.
  intros Hne Hstar Hin Hfresh Hlim.
  destruct (inv_reachable _ _ _ _ Hne Hstar) as (cs & k & Hinv).
  apply elem_of_Permutation in Hin as [rest Hnet].
  pose proof (inv_deliver _ _ _ _ _ _ Hinv Hnet Hfresh Hlim) as Hd.
  by destruct (decrypt _ _ _ _ _); destruct Hd.
Qed.

(** C21: the two parties stay in step: in every reachable state one of them
    is the newest sender, the other has a receiving key schedule that derives
    the newest sender's chain from its own root key and the sender's public key,
    and the initiator can always send, the responder once it has received. *)
Theorem conversation_in_step root spk a0 w :
  public_of a0 <> public_of spk -> star step (start root spk a0) w ->
  chain_send (initiator w) <> None /\
  (chain_send (responder w) <> None <-> dh_remote (responder w) <> None) /\
  exists s k n,
    chain_send (get s w) = Some (chain_at k n) /\ n_send (get s w) = u32_of n /\
    dh_self_pub (get s w) = public_of (dh_self (get s w)) /\
    kdf_rk (root_key (get (negb s) w)) (dh (dh_self (get (negb s) w)) (dh_self_pub (get s w)))
    = (root_key (get s w), k).
Proof.
  intros Hne Hstar. destruct (inv_reachable _ _ _ _ Hne Hstar) as (cs & k & Hinv).
  split_and!.
  - destruct (inv_side _ _ _ Hinv true) as ((c & _ & _ & _ & _ & _ & _ & Hck) & _).
    cbn in Hck. rewrite Hck. pose proof (owner_top k true) as Ho. by destruct (top k true).
  - destruct (inv_side _ _ _ Hinv false) as ((c & _ & _ & _ & _ & _ & _ & Hck) & Hr & _).
    cbn in Hck, Hr. rewrite Hck. destruct (top k false); [by destruct Hr as [-> _]|].
    destruct Hr as (c' & _ & -> & _). done.
  - destruct (inv_side _ _ _ Hinv (owner (S k))) as ((c & Hc & Hself & Hpub & _ & Hn & _ & Hck) & _).
    rewrite top_owner_S in Hc, Hck. exists (owner (S k)), (c_key c), (c_count c).
    split_and!; [done|done|by rewrite Hself|]. rewrite owner_S, negb_involutive, <-owner_S, Hpub.
    by apply (inv_link _ _ _ Hinv).
Qed.
End Conversation.

(** ** Running a conversation *)
Section Script.
Context `{X : X25519, Sym : SymCrypto, !Bincode RatchetHeader}.
Variable ad : list u8.

#[export] Instance within_limits_dec r h : Decision (within_limits r h).
Proof. unfold within_limits. repeat case_match; apply _. Defined.

Inductive action :=
| Send (s : bool) (pt : list u8)
| Deliver (i : nat) (fresh : StaticSecret).

(** [None] when the action is not a step. *)
Definition act (a : action) (w : world) : option world :=
  match a with
  | Send s pt =>
      match encrypt pt ad (get s w) with
      | (Ok (h, ct), r') =>
          if decide (fits32 (S (cnt (n_send (get s w)))))
          then Some (with_net (put s r' w) (mkPacket s h ct pt :: net w))
          else None
      | _ => None
      end
  | Deliver i fresh =>
      match net w !! i with
      | Some p =>
          if decide ((public_of fresh ∉ used w) /\ within_limits (get (negb (p_from p)) w) (p_header p))
          then Some (after (negb (p_from p))
                      (decrypt fresh (p_header p) (p_ct p) ad (get (negb (p_from p)) w)).2
                      (delete i (net w)) (public_of fresh) w)
          else None
      | None => None
      end
  end.

Lemma act_step a w w' : act a w = Some w' -> step ad w w'.
Proof.
  destruct a as [s pt|i fresh]; cbn.
  - destruct (encrypt pt ad (get s w)) as [[[h ct]|e] r'] eqn:Henc; [|done].
    case_decide; [|done]. intros [= <-]. by econstructor.
  - destruct (net w !! i) as [p|] eqn:Hp; [|done]. case_decide as Hok; [|done]. destruct Hok as [Hf Hl].
    intros [= <-]. unfold after. eapply step_deliver; [|done|done|apply surjective_pairing].
    by apply delete_Permutation.
Qed.

Lemma head_in {A} (x : A) l : (1 <=? length l) = true -> default x (head l) ∈ l.
Proof. destruct l; [done|]. intros _. by left. Qed.
End Script.

Module ConversationDemo.
Import Demo WireDemo.

Definition prefix : list u8 := bytes [1; 2; 3]%N.
Definition text (n : N) : list u8 := bytes [104; 105; n]%N.

(** The initiator sends two messages that arrive in the wrong order across a
    reply: message 1, the reply, the first message of the next chain, and only
    then message 0. *)
Definition acts : list action :=
  [Send true (text 0); Send true (text 1); Deliver 0 (secret 5);
   Send false (text 2); Deliver 0 (secret 6); Send true (text 3); Deliver 0 (secret 7)].
Definition begun : world := start (key 1) (secret 2) (secret 3).
Definition late : world := script_end (act prefix) acts begun.
Definition late_packet : packet := default (mkPacket true (mkHeader (key 0) (u32_of 0) (u32_of 0)) [] []) (head (net late)).

Lemma late_reachable : star (step prefix) begun late.
Proof. apply (script_reaches (act prefix) _ (act_step prefix)). vm_compute. reflexivity. Qed.
End ConversationDemo.

Import Demo WireDemo ConversationDemo.

Lemma conversation_delivers_witness :
  length (net late) = 1 /\ p_plain late_packet = text 0 /\
  (decrypt (secret 9) (p_header late_packet) (p_ct late_packet) prefix
     (get (negb (p_from late_packet)) late)).1 = Ok (p_plain late_packet).
Proof.
  split; [vm_compute; reflexivity|]. split; [vm_compute; reflexivity|].
  apply (conversation_delivers prefix (key 1) (secret 2) (secret 3)).
  - apply keys_differ. vm_compute. reflexivity.
  - exact late_reachable.
  - apply head_in. vm_compute. reflexivity.
  - apply (bool_decide_unpack _). vm_compute. exact I.
  - apply (bool_decide_unpack _). vm_compute. exact I.
Defined.

Lemma conversation_in_step_witness :
  chain_send (initiator late) <> None /\
  (chain_send (responder late) <> None <-> dh_remote (responder late) <> None) /\
  exists s k n,
    chain_send (get s late) = Some (chain_at k n) /\ n_send (get s late) = u32_of n /\
    dh_self_pub (get s late) = public_of (dh_self (get s late)) /\
    kdf_rk (root_key (get (negb s) late)) (dh (dh_self (get (negb s) late)) (dh_self_pub (get s late)))
    = (root_key (get s late), k).
Proof.
  apply (conversation_in_step prefix (key 1) (secret 2) (secret 3)).
  - apply keys_differ. vm_compute. reflexivity.
  - exact late_reachable.
Defined.
