(* ===== verification/SessionConversation.v ===== *)
(** * Two applications' sessions, from the bundle on

    The conversation of [Conversation] one layer up, as the applications have it:
    the initiator's session comes from [Session::initiate] on the responder's
    bundle, the responder has an account and no session until a first message
    arrives; messages travel as bytes; either side may save and reload its state,
    and the responder's account serves other peers and mints prekeys meanwhile. *)
From S2P Require Import Prelude Words Primitives Wire Kdf PqKem Identity IdentityProps Handshake.
From S2P Require Import Ratchet Session SessionProps Conversation Demo.

Section SessionConversation.
Context `{X : X25519, Sym : SymCrypto, Ed : Ed25519, Kem : MlKem}.
Context `{!Bincode RatchetHeader, !Bincode Message, !Bincode StoredAccount,
          !Bincode StoredRatchet, !Bincode StoredSession}.

#[local] Arguments u32_of : simpl never.
#[local] Arguments wsucc : simpl never.

(** ** The two applications *)

(** A message in transit, with the plaintext it was made from; [true] is the
    initiator. What travels is [message_encode] of it. *)
Record parcel := mkParcel {
  c_from : bool;
  c_msg : Message;
  c_plain : list u8
}.

Record apps := mkApps {
  session_a : Session;        (** the initiator's *)
  session_b : option Session; (** the responder's, once it has one *)
  account : Account;         (** the responder's *)
  transit : list parcel;
  drawn : list key32         (** the ratchet public keys drawn so far *)
}.

Definition session_of (s : bool) (w : apps) : option Session := if s then Some (session_a w) else session_b w.
Definition put_session (s : bool) (ses : Session) (w : apps) : apps :=
  if s then mkApps ses (session_b w) (account w) (transit w) (drawn w)
  else mkApps (session_a w) (Some ses) (account w) (transit w) (drawn w).
Definition put_account (a : Account) (w : apps) : apps :=
  mkApps (session_a w) (session_b w) a (transit w) (drawn w).
Definition with_transit (t : list parcel) (w : apps) : apps :=
  mkApps (session_a w) (session_b w) (account w) t (drawn w).
Definition with_drawn (d : list key32) (w : apps) : apps :=
  mkApps (session_a w) (session_b w) (account w) (transit w) d.

(** An application handed the bytes of a message: a session of its own opens it;
    without one, the responder's account makes one of it. *)
Definition take_in (s : bool) (fresh : StaticSecret) (bytes : list u8) (w : apps)
  : result Error (list u8) * apps :=
  match message_decode bytes with
  | Err e => (Err e, w)
  | Ok m =>
      match session_of s w with
      | Some ses => let '(res, ses') := session_decrypt fresh m ses in (res, put_session s ses' w)
      | None =>
          match session_respond fresh m (account w) with
          | (Ok (ses, pt), a) => (Ok pt, put_session s ses (put_account a w))
          | (Err e, a) => (Err e, put_account a w)
          end
      end
  end.

(** The limits of the code on a received header. *)
Definition acceptable (s : bool) (w : apps) (h : RatchetHeader) : Prop :=
  match session_of s w with
  | Some ses => within_limits (ratchet ses) h
  | None => cnt (rh_n h) <= N.to_nat MAX_SKIP
  end.

(** What the responder's account does besides: first messages of other peers,
    whose bundles offered another one-time prekey than [offered]; replenishing,
    below the 2^32-th prekey; saving and loading. *)
Definition prekey_of (m : Message) : option u32 :=
  match m with PreKey hs _ _ => hs_one_time_prekey_id hs | Normal _ _ => None end.

Inductive account_step (offered : option u32) : Account -> Account -> Prop :=
| acc_other_peer fresh m a :
    (forall id, offered = Some id -> prekey_of m <> Some id) ->
    account_step offered a (session_respond fresh m a).2
| acc_replenish count rng a :
    (wval (next_opk_id a) + wval count < 2 ^ 32)%N ->
    account_step offered a (replenish_one_time_prekeys count rng a).2
| acc_reload a a' : from_bytes (to_bytes a) = Ok a' -> account_step offered a a'.

Variable offered : option u32.

Inductive app_step : apps -> apps -> Prop :=
| app_send s pt m ses ses' w :
    session_of s w = Some ses -> fits32 (S (cnt (n_send (ratchet ses)))) ->
    session_encrypt pt ses = (Ok m, ses') ->
    app_step w (with_transit (mkParcel s m pt :: transit w) (put_session s ses' w))
| app_receive p rest fresh w :
    transit w ≡ₚ p :: rest -> public_of fresh ∉ drawn w ->
    acceptable (negb (c_from p)) w (message_header (c_msg p)) ->
    app_step w (with_drawn (public_of fresh :: drawn w) (with_transit rest
                 (take_in (negb (c_from p)) fresh (message_encode (c_msg p)) w).2))
| app_lose p rest w :
    transit w ≡ₚ p :: rest -> app_step w (with_transit rest w)
| app_reload s ses ses' w :
    session_of s w = Some ses -> session_deserialize (session_serialize ses) = Ok ses' ->
    app_step w (put_session s ses' w)
| app_account a w :
    account_step offered (account w) a -> app_step w (put_account a w).

(** After [Session::initiate], whose last draw was [fresh]. *)
Definition opening (sa : Session) (bob : Account) (fresh : StaticSecret) : apps :=
  mkApps sa None bob [] [public_of fresh; public_of (signed_prekey bob)].

(** ** The account meanwhile *)
Context `{!X25519Laws, !SymCryptoLaws, !Ed25519Laws, !MlKemLaws, !BincodeLaws Message,
          !BincodeLaws StoredAccount, !BincodeLaws StoredRatchet, !BincodeLaws StoredSession}.

(** The keys two states of an account share whatever its pool. *)
Definition same_keys (a a' : Account) : Prop :=
  ed_signing a' = ed_signing a /\ dh_identity a' = dh_identity a /\
  signed_prekey a' = signed_prekey a /\ signed_prekey_id a' = signed_prekey_id a /\
  kyber a' = kyber a /\ kyber_prekey_id a' = kyber_prekey_id a.

Lemma same_keys_trans a b c : same_keys a b -> same_keys b c -> same_keys a c.
Proof. intros (?&?&?&?&?&?) (?&?&?&?&?&?). unfold same_keys. split_and!; congruence. Qed.

Lemma replenish_loop_same_keys count rng a : same_keys a (replenish_loop count rng a).2.
Proof.
  revert rng a. induction count as [|count IH]; intros rng a; cbn; [by split_and!|].
  pose proof (IH (fun i => rng (S i)) (replenish_one (rng 0) a).2) as Hk. cbn in Hk.
  destruct (replenish_loop count _ _) as [ids a']. exact Hk.
Qed.

(** The account can still answer the initiator that holds bundle [b]. *)
Record ready (b : PreKeyBundle) (a0 a : Account) : Prop := mkReady {
  ready_bundle : bundle_of a b;
  ready_keys : same_keys a0 a;
  ready_pool : pool_ok a
}.

Lemma session_respond_state fresh m a :
  (session_respond fresh m a).2 = a \/
  exists id, prekey_of m = Some id /\
    (session_respond fresh m a).2 = set_one_time_prekeys a (delete id (one_time_prekeys a)).
Proof.
  destruct m as [hs h ct|h ct]; [|by left]. cbn [prekey_of].
  assert ((session_respond fresh (PreKey hs h ct) a).2 = (respond hs a).2) as ->; [|apply respond_state].
  destruct (respond hs a) as [[root|e] a'] eqn:Hresp; cbn [snd].
  - rewrite (session_respond_eq _ _ _ _ _ _ _ Hresp). cbv zeta.
    by destruct (Ratchet.decrypt _ _ _ _ _) as [[pt|e] r].
  - by rewrite (session_respond_err _ _ _ _ _ _ _ Hresp).
Qed.

Lemma bundle_of_pool b a a' :
  bundle_of a b -> same_keys a a' ->
  (forall id, pb_one_time_prekey_id b = Some id -> one_time_prekeys a' !! id = one_time_prekeys a !! id) ->
  bundle_of a' b.
Proof.
  unfold bundle_of, identity_dh_public. intros (?&?&?&?&?&Hopk) (?&Hdh&Hspk&Hsid&Hky&Hkid) Hpool.
  rewrite Hdh, Hspk, Hsid, Hky, Hkid. split_and!; try done.
  destruct (pb_one_time_prekey_id b) as [id|]; [|done]. by rewrite (Hpool id eq_refl).
Qed.

Lemma ready_step b a0 a a' :
  ready b a0 a -> account_step (pb_one_time_prekey_id b) a a' -> ready b a0 a'.
Proof.
  intros [Hb Hk Hp] Hstep. revert Hb Hk Hp. destruct Hstep as [fresh m a Hm|count rng a Hlt|a a' Hload]; intros.
  - destruct (session_respond_state fresh m a) as [->|(id & Hid & ->)]; [done|].
    split; [|done|].
    + apply (bundle_of_pool _ _ _ Hb); [by split_and!|]. intros id' Hid'. cbn.
      apply lookup_delete_ne. intros <-. by apply (Hm id).
    + intros id' sk. cbn. intros [_ Hin]%lookup_delete_Some. by eapply Hp.
  - unfold replenish_one_time_prekeys.
    pose proof (replenish_loop_same_keys (N.to_nat count) rng a) as Hsame.
    destruct (replenish_loop_spec (N.to_nat count) rng a) as (Hn & _ & Hl); [lia|].
    split; [|by eapply same_keys_trans|].
    + apply (bundle_of_pool _ _ _ Hb); [done|]. intros id Hid. rewrite Hl, decide_False; [done|].
      destruct Hb as (_&_&_&_&_&Hopk). rewrite Hid in Hopk.
      destruct (pb_one_time_prekey b) as [p|]; [|done].
      destruct Hopk as (sk & Hsk & _). apply Hp in Hsk. lia.
    + intros id sk. rewrite Hl, Hn. case_decide; [lia|]. intros Hsk%Hp. lia.
  - rewrite from_bytes_to_bytes in Hload. injection Hload as <-. by split.
Qed.

(** ** Sending stays possible *)

Definition can_send (r : DoubleRatchet) : Prop := chain_send r <> None.

Lemma skip_loop_can_send fuel remote ck until : keeps can_send (skip_loop fuel remote ck until).
Proof.
  revert ck. induction fuel as [|fuel IH]; intros ck r Hr; cbn [skip_loop]; case_decide; try done.
  destruct (kdf_ck ck). case_decide; [done|]. by apply IH.
Qed.
#[local] Hint Resolve skip_loop_can_send : clarity.

Lemma skip_can_send until : keeps can_send (skip_message_keys until).
Proof.
  intros r Hr. unfold skip_message_keys. repeat case_match; try done.
  revert Hr. apply keeps_bind; auto with clarity.
Qed.

Lemma decrypt_next_can_send ct ad : keeps can_send (decrypt_next ct ad).
Proof. intros r Hr. unfold decrypt_next. repeat case_match; done. Qed.

Lemma dh_ratchet_can_send fresh remote r : can_send (dh_ratchet fresh remote r).
Proof. unfold dh_ratchet. destruct (kdf_rk _ _) as [rk ck]. by destruct (kdf_rk _ _). Qed.
#[local] Hint Resolve skip_can_send decrypt_next_can_send dh_ratchet_can_send : clarity.

Lemma decrypt_can_send fresh h ct ad : keeps can_send (Ratchet.decrypt fresh h ct ad).
Proof.
  intros r Hr. unfold Ratchet.decrypt. destruct (skipped r !! _); [done|].
  revert Hr. apply keeps_bind; [case_decide|]; auto with clarity.
Qed.

Lemma encrypt_can_send pt ad : keeps can_send (Ratchet.encrypt pt ad).
Proof. intros r Hr. unfold Ratchet.encrypt. repeat case_match; done. Qed.

(** The first message a responder opens gives it a sending chain. *)
Lemma responder_can_send root spk fresh h ct ad pt r :
  Ratchet.decrypt fresh h ct ad (init_responder root spk) = (Ok pt, r) -> can_send r.
Proof.
  intros Hd. rewrite decrypt_new_chain in Hd; [|apply lookup_empty|done].
  rewrite sbind_assoc, (sbind_ok _ _ _ tt (init_responder root spk)) in Hd by (by apply skip_no_chain).
  rewrite (sbind_ok _ _ _ tt (dh_ratchet fresh (rh_dh_pub h) (init_responder root spk))) in Hd by done.
  revert Hd. generalize (dh_ratchet_can_send fresh (rh_dh_pub h) (init_responder root spk)).
  generalize (dh_ratchet fresh (rh_dh_pub h) (init_responder root spk)) as r0. intros r0 Hr0 Hd.
  assert (keeps can_send (skip_message_keys (rh_n h) ;! decrypt_next ct (associated_data ad h))) as Hk
    by auto with clarity.
  specialize (Hk r0 Hr0). by rewrite Hd in Hk.
Qed.

Lemma session_encrypt_total pt s : can_send (ratchet s) -> exists m, (session_encrypt pt s).1 = Ok m.
Proof.
  unfold can_send. intros Hck. unfold session_encrypt, sbind, on_ratchet, Ratchet.encrypt.
  destruct (chain_send (ratchet s)) as [ck|]; [|done]. destruct (kdf_ck ck). eexists. done.
Qed.
End SessionConversation.

(** ** The sessions simulate the ratchets *)
Section Simulation.
Context `{X : X25519, Sym : SymCrypto, Ed : Ed25519, Kem : MlKem}.
Context `{!Bincode RatchetHeader, !Bincode Message, !Bincode StoredAccount,
          !Bincode StoredRatchet, !Bincode StoredSession}.
Context `{!X25519Laws, !SymCryptoLaws, !Ed25519Laws, !MlKemLaws, !BincodeLaws Message,
          !BincodeLaws StoredAccount, !BincodeLaws StoredRatchet, !BincodeLaws StoredSession}.

(** The handshake: its header, the root it derives, the bundle it was made on,
    and the responder's account at the time. *)
Context (hs : HandshakeHeader) (root : key32) (b : PreKeyBundle) (bob : Account).
Hypothesis responds : forall a, ready b bob a -> respond hs a = (Ok root, spend_offered b a).

Let ad : list u8 := ad_prefix (hs_identity_ed hs) (identity_public bob).
Let waiting : DoubleRatchet := init_responder root (signed_prekey bob).

Definition packet_for (p : parcel) : packet :=
  mkPacket (c_from p) (message_parts (c_msg p)).1 (message_parts (c_msg p)).2 (c_plain p).

Definition ratchet_of (s : bool) (w : apps) : DoubleRatchet :=
  match session_of s w with Some ses => ratchet ses | None => waiting end.

(** A first message: the initiator's, with the handshake header. *)
Definition is_first (p : parcel) : Prop := c_from p = true /\ exists h ct, c_msg p = PreKey hs h ct.

Record shadow (w : apps) (v : world) : Prop := mkShadow {
  sh_get s : get s v = ratchet_of s w;
  sh_net : net v = packet_for <$> transit w;
  sh_used : used v = drawn w;
  sh_session s ses : session_of s w = Some ses -> ad_prefix_of ses = ad /\ can_send (ratchet ses);
  sh_first : session_b w = None ->
    ready b bob (account w) /\ pending_handshake (session_a w) = Some hs /\ Forall is_first (transit w)
}.

Lemma message_header_parts m : message_header m = (message_parts m).1.
Proof. by destruct m. Qed.

Lemma acceptable_limits s w h : acceptable s w h -> within_limits (ratchet_of s w) h.
Proof.
  unfold acceptable, ratchet_of. destruct (session_of s w) as [ses|]; [done|].
  unfold within_limits, waiting, previous_gap. cbn. intros Hle. rewrite lookup_empty.
  rewrite decide_False by done. rewrite map_size_empty. unfold MAX_SKIP, MAX_SKIPPED_CACHE in *. lia.
Qed.

Lemma session_of_put s ses w : session_of s (put_session s ses w) = Some ses.
Proof. by destruct s. Qed.

Lemma session_of_put_neg s s' ses w :
  s' <> s -> session_of s' (put_session s ses w) = session_of s' w.
Proof. by destruct s, s'. Qed.

Lemma session_b_put s ses w : session_b w = None -> session_b (put_session s ses w) = None -> s = true.
Proof. by destruct s. Qed.

(** What a party opens with its ratchet it opens with its session, and then
    both have a session. *)
Lemma take_in_opens w v p fresh pt r' :
  shadow w v -> p ∈ transit w ->
  Ratchet.decrypt fresh (p_header (packet_for p)) (p_ct (packet_for p)) ad (get (negb (c_from p)) v)
    = (Ok pt, r') ->
  can_send r' /\
  exists a, take_in (negb (c_from p)) fresh (message_encode (c_msg p)) w
    = (Ok pt, put_session (negb (c_from p)) (mkSession r' ad None) (put_account a w)) /\
    session_b (put_session (negb (c_from p)) (mkSession r' ad None) (put_account a w)) <> None.
Proof.
  intros Hsh Hp Hdec. rewrite (sh_get _ _ Hsh) in Hdec. unfold ratchet_of in Hdec.
  unfold take_in. rewrite message_decode_encode.
  destruct (session_of (negb (c_from p)) w) as [ses|] eqn:Hses.
  - destruct (sh_session _ _ Hsh _ _ Hses) as [Had Hcan]. split.
    { pose proof (decrypt_can_send fresh (p_header (packet_for p)) (p_ct (packet_for p)) ad _ Hcan) as Hk.
      by rewrite Hdec in Hk. }
    exists (account w). rewrite session_decrypt_eq, Had. cbn [packet_for p_header p_ct] in Hdec. rewrite Hdec.
    cbn [is_ok]. split; [by destruct w, (negb (c_from p))|].
    destruct (negb (c_from p)) eqn:Hs; [|done]. cbn. intros Hb.
    destruct (sh_first _ _ Hsh Hb) as (_ & _ & Hall). rewrite Forall_forall in Hall.
    destruct (Hall p Hp) as [Hfrom _]. by rewrite Hfrom in Hs.
  - destruct (negb (c_from p)) eqn:Hs; [done|]. cbn [session_of] in Hses.
    destruct (sh_first _ _ Hsh Hses) as (Hready & _ & Hall). rewrite Forall_forall in Hall.
    destruct (Hall p Hp) as (_ & h & ct & Hm). split; [by eapply responder_can_send|].
    rewrite Hm. rewrite (session_respond_eq _ _ _ _ _ _ _ (responds _ Hready)). cbv zeta.
    unfold packet_for in Hdec. rewrite Hm in Hdec. cbn [message_parts p_header p_ct fst snd] in Hdec.
    pose proof (ready_keys _ _ _ Hready) as (Hed & _ & Hspk & _). unfold responder_start. rewrite Hspk.
    assert (identity_public (account w) = identity_public bob) as -> by (unfold identity_public; by rewrite Hed).
    change (ad_prefix (hs_identity_ed hs) (identity_public bob)) with ad. fold waiting. rewrite Hdec.
    by eexists.
Qed.

(** A shadow after one party's session moved, whatever happened in transit. *)
Lemma shadow_move w v v' s ses a t d :
  shadow w v -> (forall s', get s' v' = if decide (s' = s) then ratchet ses else get s' v) ->
  net v' = packet_for <$> t -> used v' = d ->
  ad_prefix_of ses = ad -> can_send (ratchet ses) ->
  let w' := with_drawn d (with_transit t (put_session s ses (put_account a w))) in
  (session_b w' = None ->
   ready b bob a /\ pending_handshake (session_a w') = Some hs /\ Forall is_first t) ->
  shadow w' v'.
Proof.
  intros Hsh Hget Hnet Hused Had Hcan w' Hfirst.
  assert (forall s', session_of s' w' = if decide (s' = s) then Some ses else session_of s' w) as Hses.
  { intros s'. subst w'. by destruct s, s', w. }
  split; [|by destruct s|by destruct s| |].
  - intros s'. rewrite Hget. unfold ratchet_of. rewrite Hses.
    case_decide; [done|]. apply (sh_get _ _ Hsh).
  - intros s' ses'. rewrite Hses. case_decide; [by intros [= <-]|]. apply (sh_session _ _ Hsh).
  - intros Hb. destruct (Hfirst Hb) as (Hr & Hp & Ht). split_and!; [by destruct s|done|by destruct s].
Qed.

Lemma get_put_decide s r v s' : get s' (put s r v) = if decide (s' = s) then r else get s' v.
Proof. by destruct s, s'. Qed.

Lemma shadow_send w v s pt m ses ses' :
  shadow w v -> session_of s w = Some ses -> fits32 (S (cnt (n_send (ratchet ses)))) ->
  session_encrypt pt ses = (Ok m, ses') ->
  exists v', step ad v v' /\
    shadow (with_transit (mkParcel s m pt :: transit w) (put_session s ses' w)) v'.
Proof.
  intros Hsh Hses Hfit Henc. destruct (sh_session _ _ Hsh _ _ Hses) as [Had Hcan].
  assert (get s v = ratchet ses) as Hget by (rewrite (sh_get _ _ Hsh); unfold ratchet_of; by rewrite Hses).
  destruct (Ratchet.encrypt pt ad (ratchet ses)) as [[[h ct]|e] r'] eqn:Hr.
  2:{ unfold session_encrypt, sbind, on_ratchet in Henc. rewrite Had, Hr in Henc. done. }
  rewrite <-Had in Hr. rewrite (session_encrypt_ok _ _ _ _ _ Hr) in Henc. rewrite Had in Hr.
  injection Henc as <- <-.
  assert (can_send r') as Hcan'.
  { pose proof (encrypt_can_send pt ad _ Hcan) as Hk. by rewrite Hr in Hk. }
  eexists. split; [apply (step_send ad s pt h ct r' v)|]; [by rewrite Hget..|].
  set (m := match pending_handshake ses with Some hs' => PreKey hs' h ct | None => Normal h ct end).
  assert (packet_for (mkParcel s m pt) = mkPacket s h ct pt) as Hpk.
  { subst m. unfold packet_for. by destruct (pending_handshake ses). }
  pose proof (shadow_move w v (with_net (put s r' v) (mkPacket s h ct pt :: net v)) s
    (mkSession r' (ad_prefix_of ses) (pending_handshake ses)) (account w) (mkParcel s m pt :: transit w)
    (drawn w) Hsh) as Hmove.
  assert (with_drawn (drawn w) (with_transit (mkParcel s m pt :: transit w)
    (put_session s (mkSession r' (ad_prefix_of ses) (pending_handshake ses)) (put_account (account w) w)))
    = with_transit (mkParcel s m pt :: transit w)
        (put_session s (mkSession r' (ad_prefix_of ses) (pending_handshake ses)) w)) as Heq
    by (by destruct w, s).
  cbv zeta in Hmove. rewrite Heq in Hmove. apply Hmove; try done.
  - intros s'. rewrite get_with_net. apply get_put_decide.
  - cbn [net with_net]. by rewrite fmap_cons, Hpk, (sh_net _ _ Hsh).
  - cbn [used with_net]. by rewrite used_put, (sh_used _ _ Hsh).
  - intros Hb. destruct s; [|done]. cbn in Hses. injection Hses as <-. cbn in Hb.
    destruct (sh_first _ _ Hsh Hb) as (Hr0 & Hp & Hall). split_and!; [done|done|].
    constructor; [|done]. subst m. rewrite Hp. split; [done|]. by eexists _, _.
Qed.

Lemma shadow_receive w v p rest fresh cs k :
  shadow w v -> inv ad v cs k -> transit w ≡ₚ p :: rest -> public_of fresh ∉ drawn w ->
  acceptable (negb (c_from p)) w (message_header (c_msg p)) ->
  let '(res, w1) := take_in (negb (c_from p)) fresh (message_encode (c_msg p)) w in
  res = Ok (c_plain p) /\
  exists v', step ad v v' /\ shadow (with_drawn (public_of fresh :: drawn w) (with_transit rest w1)) v'.
Proof.
  intros Hsh Hinv Ht Hfresh Hacc.
  assert (net v ≡ₚ packet_for p :: (packet_for <$> rest)) as Hnet.
  { by rewrite (sh_net _ _ Hsh), Ht. }
  assert (within_limits (get (negb (p_from (packet_for p))) v) (p_header (packet_for p))) as Hlim.
  { rewrite (sh_get _ _ Hsh). apply acceptable_limits in Hacc. by rewrite message_header_parts in Hacc. }
  rewrite <-(sh_used _ _ Hsh) in Hfresh |- *.
  pose proof (inv_deliver _ _ _ _ _ _ _ Hinv Hnet Hfresh Hlim) as Hd.
  destruct (Ratchet.decrypt _ _ _ _ _) as [res r'] eqn:Hdec. destruct Hd as [-> _].
  cbn [packet_for p_from p_plain] in Hdec.
  destruct (take_in_opens w v p fresh _ _ Hsh ltac:(rewrite Ht; by left) Hdec) as (Hcan & a & -> & Hb).
  split; [done|]. eexists. split; [by eapply (step_deliver ad _ _ fresh)|].
  apply (shadow_move w v _ _ (mkSession r' ad None) a rest _ Hsh); try done.
  intros s'. rewrite get_with_used, get_with_net. apply get_put_decide.
Qed.

(** Every step of the applications is a step of the ratchets or none. *)
Lemma shadow_step w w' v cs k :
  shadow w v -> inv ad v cs k -> app_step (pb_one_time_prekey_id b) w w' ->
  exists v', star (step ad) v v' /\ shadow w' v'.
Proof.
  intros Hsh Hinv Hstep. revert Hsh.
  destruct Hstep as [s pt m ses ses' w Hses Hfit Henc|p rest fresh w Ht Hfresh Hacc|p rest w Ht
    |s ses ses' w Hses Hload|a w Hacc]; intros Hsh.
  - destruct (shadow_send _ _ _ _ _ _ _ Hsh Hses Hfit Henc) as (v' & Hv & Hsh').
    exists v'. split; [|done]. eapply star_step; [apply star_refl|exact Hv].
  - pose proof (shadow_receive _ _ _ _ _ _ _ Hsh Hinv Ht Hfresh Hacc) as Hr.
    destruct (take_in _ _ _ _) as [res w1]. destruct Hr as (_ & v' & Hv & Hsh').
    exists v'. split; [|done]. eapply star_step; [apply star_refl|exact Hv].
  - exists (with_net v (packet_for <$> rest)). split.
    + eapply star_step; [apply star_refl|]. apply (step_lose ad (packet_for p)).
      by rewrite (sh_net _ _ Hsh), Ht.
    + destruct Hsh as [Hget Hnet Hused Hs Hf]. split.
      * intros []; [exact (Hget true)|exact (Hget false)].
      * done.
      * done.
      * exact Hs.
      * intros Hb. destruct (Hf Hb) as (? & ? & Hall). split_and!; [done|done|].
        rewrite Ht in Hall. by apply Forall_cons in Hall as [_ ?].
  - exists v. split; [apply star_refl|]. rewrite session_deserialize_serialize in Hload.
    injection Hload as <-. assert (put_session s ses w = w) as ->; [|done].
    destruct w, s; cbn in *; [by injection Hses as ->|by subst].
  - exists v. split; [apply star_refl|]. destruct Hsh as [Hget Hnet Hused Hs Hf]. split; [done|done|done|exact Hs|].
    intros Hb. destruct (Hf Hb) as (? & ? & ?). split_and!; [|done|done]. by eapply ready_step.
Qed.
End Simulation.

Section Establishment.
Context `{X : X25519, Sym : SymCrypto, Ed : Ed25519, Kem : MlKem}.
Context `{!Bincode RatchetHeader, !Bincode Message, !Bincode StoredAccount,
          !Bincode StoredRatchet, !Bincode StoredSession}.
Context `{!X25519Laws, !SymCryptoLaws, !Ed25519Laws, !MlKemLaws, !BincodeLaws Message,
          !BincodeLaws StoredAccount, !BincodeLaws StoredRatchet, !BincodeLaws StoredSession}.

(** In every state the applications reach, their sessions shadow a reachable
    state of the two ratchets. *)
Lemma apps_shadow ephemeral seed fresh0 me bob b sa w :
  bundle_of bob b -> pb_identity_ed b = identity_public bob -> pool_ok bob ->
  session_initiate ephemeral seed fresh0 me b = Ok sa ->
  public_of fresh0 <> public_of (signed_prekey bob) ->
  star (app_step (pb_one_time_prekey_id b)) (opening sa bob fresh0) w ->
  exists hs root v,
    (forall a, ready b bob a -> respond hs a = (Ok root, spend_offered b a)) /\
    star (step (ad_prefix (hs_identity_ed hs) (identity_public bob))) (start root (signed_prekey bob) fresh0) v /\
    shadow hs root b bob w v.
Proof.
  intros Hb Hed Hpool Hinit Hne Hstar.
  destruct (session_initiate_Ok _ _ _ _ _ _ Hinit) as (_ & root & hs & Hhs & ->).
  destruct (initiate_identity _ _ _ _ _ _ _ Hhs) as (Hid & _).
  assert (forall a, ready b bob a -> respond hs a = (Ok root, spend_offered b a)) as Hresp.
  { intros a [Hba _ _]. by destruct (respond_initiate _ _ _ _ _ _ _ _ Hba Hhs). }
  assert (pb_signed_prekey b = public_of (signed_prekey bob)) as Hspk by apply Hb.
  exists hs, root. cut (exists v, star (step (ad_prefix (hs_identity_ed hs) (identity_public bob)))
    (start root (signed_prekey bob) fresh0) v /\ shadow hs root b bob w v).
  { intros (v & ? & ?). by exists v. }
  refine (star_invariant (app_step (pb_one_time_prekey_id b)) (fun w => exists v,
    star (step (ad_prefix (hs_identity_ed hs) (identity_public bob))) (start root (signed_prekey bob) fresh0) v /\
    shadow hs root b bob w v) _ _ _ Hstar _).
  - intros w1 w2 (v & Hv & Hsh) Hstep. destruct (inv_reachable _ _ _ _ _ Hne Hv) as (cs & k & Hinv).
    destruct (shadow_step hs root b bob Hresp _ _ _ _ _ Hsh Hinv Hstep) as (v' & Hv' & Hsh').
    exists v'. split; [by eapply star_trans|done].
  - exists (start root (signed_prekey bob) fresh0). split; [apply star_refl|]. split.
    + intros []; [|done]. unfold ratchet_of. cbn [session_of opening session_a get start initiator ratchet].
      by rewrite Hspk.
    + done.
    + done.
    + intros [] ses; [|done]. cbn. intros [= <-]. cbn [ad_prefix_of ratchet]. rewrite <-Hid, Hed.
      split; [done|]. unfold can_send, init_initiator. by destruct (kdf_rk _ _).
    + intros _. by split_and!.
Qed.

(** What the claims on reachable states come from. *)
Lemma apps_take_in ephemeral seed fresh0 me bob b sa w p fresh :
  bundle_of bob b -> pb_identity_ed b = identity_public bob -> pool_ok bob ->
  session_initiate ephemeral seed fresh0 me b = Ok sa ->
  public_of fresh0 <> public_of (signed_prekey bob) ->
  star (app_step (pb_one_time_prekey_id b)) (opening sa bob fresh0) w ->
  p ∈ transit w -> public_of fresh ∉ drawn w ->
  acceptable (negb (c_from p)) w (message_header (c_msg p)) ->
  (take_in (negb (c_from p)) fresh (message_encode (c_msg p)) w).1 = Ok (c_plain p).
Proof.
  intros Hb Hed Hpool Hinit Hne Hstar [rest Ht]%elem_of_Permutation Hfresh Hacc.
  destruct (apps_shadow _ _ _ _ _ _ _ _ Hb Hed Hpool Hinit Hne Hstar) as (hs & root & v & Hresp & Hv & Hsh).
  destruct (inv_reachable _ _ _ _ _ Hne Hv) as (cs & k & Hinv).
  pose proof (shadow_receive _ _ _ _ Hresp _ _ _ _ _ _ _ Hsh Hinv Ht Hfresh Hacc) as Hr.
  by destruct (take_in _ _ _ _) as [res w1], Hr.
Qed.

(** C1: correctness of sessions from the bundle on: once an initiator has run
    [Session::initiate] on a bundle of the responder's, then whatever the two
    applications send in whatever order, however the network delays, reorders and
    loses it, however often either side saves and reloads its state, and whatever
    other peers and replenishments the responder's account sees meanwhile: every
    message in transit, a first message or a later one, is accepted by its
    recipient, which makes the session if it has none yet, and gives exactly the
    plaintext it was made from, as long as the ratchet secrets are fresh and the
    gaps within the limits; and both sides can always send, the responder from
    its first message on. *)
Theorem sessions_deliver ephemeral seed fresh0 me bob b sa w :
  bundle_of bob b -> pb_identity_ed b = identity_public bob -> pool_ok bob ->
  session_initiate ephemeral seed fresh0 me b = Ok sa ->
  public_of fresh0 <> public_of (signed_prekey bob) ->
  star (app_step (pb_one_time_prekey_id b)) (opening sa bob fresh0) w ->
  (forall p fresh, p ∈ transit w -> public_of fresh ∉ drawn w ->
     acceptable (negb (c_from p)) w (message_header (c_msg p)) ->
     (take_in (negb (c_from p)) fresh (message_encode (c_msg p)) w).1 = Ok (c_plain p)) /\
  (forall s ses pt, session_of s w = Some ses -> exists m, (session_encrypt pt ses).1 = Ok m).
Proof.
  intros Hb Hed Hpool Hinit Hne Hstar. split.
  - intros p fresh. by apply (apps_take_in ephemeral seed fresh0 me bob b sa).
  - intros s ses pt Hses. apply session_encrypt_total.
    destruct (apps_shadow _ _ _ _ _ _ _ _ Hb Hed Hpool Hinit Hne Hstar) as (hs & root & v & _ & _ & Hsh).
    by destruct (sh_session _ _ _ _ _ _ Hsh _ _ Hses).
Qed.
End Establishment.

(** ** Running the applications *)
Section Script.
Context `{X : X25519, Sym : SymCrypto, Ed : Ed25519, Kem : MlKem}.
Context `{!Bincode RatchetHeader, !Bincode Message, !Bincode StoredAccount,
          !Bincode StoredRatchet, !Bincode StoredSession}.
Variable offered : option u32.

#[export] Instance acceptable_dec s w h : Decision (acceptable s w h).
Proof. unfold acceptable. case_match; apply _. Defined.

Inductive app_action :=
| Sends (s : bool) (pt : list u8)
| Receives (i : nat) (fresh : StaticSecret)
| Reloads (s : bool).

(** [None] when the action is not a step. *)
Definition app_act (a : app_action) (w : apps) : option apps :=
  match a with
  | Sends s pt =>
      match session_of s w with
      | Some ses =>
          match session_encrypt pt ses with
          | (Ok m, ses') =>
              if decide (fits32 (S (cnt (n_send (ratchet ses)))))
              then Some (with_transit (mkParcel s m pt :: transit w) (put_session s ses' w))
              else None
          | _ => None
          end
      | None => None
      end
  | Receives i fresh =>
      match transit w !! i with
      | Some p =>
          if decide ((public_of fresh ∉ drawn w) /\ acceptable (negb (c_from p)) w (message_header (c_msg p)))
          then Some (with_drawn (public_of fresh :: drawn w) (with_transit (delete i (transit w))
                      (take_in (negb (c_from p)) fresh (message_encode (c_msg p)) w).2))
          else None
      | None => None
      end
  | Reloads s =>
      match session_of s w with
      | Some ses =>
          match session_deserialize (session_serialize ses) with
          | Ok ses' => Some (put_session s ses' w)
          | Err _ => None
          end
      | None => None
      end
  end.

Lemma app_act_step a w w' : app_act a w = Some w' -> app_step offered w w'.
Proof.
  destruct a as [s pt|i fresh|s]; unfold app_act.
  - destruct (session_of s w) as [ses|] eqn:Hses; [|done].
    destruct (session_encrypt pt ses) as [[m|e] ses'] eqn:Henc; [|done].
    case_decide; [|done]. intros [= <-]. by econstructor.
  - destruct (transit w !! i) as [p|] eqn:Hp; [|done]. case_decide as Hok; [|done].
    destruct Hok as [Hf Hl]. intros [= <-]. apply app_receive; [by apply delete_Permutation|done|done].
  - destruct (session_of s w) as [ses|] eqn:Hses; [|done].
    destruct (session_deserialize _) as [ses'|e] eqn:Hload; [|done]. intros [= <-]. by econstructor.
Qed.

End Script.

Module AppsDemo.
Import Demo WireDemo IdentityDemo SessionDemo.

(** Two first messages that arrive in the wrong order around a reply, with both
    sides restarted in between. *)
Definition acts : list app_action :=
  [Sends true (hello 0); Sends true (hello 1); Receives 0 (secret 71); Reloads false;
   Sends false (hello 2); Reloads true; Receives 0 (secret 72); Sends true (hello 3)].
Definition sa : Session :=
  match session_initiate (secret 31) seed (secret 33) alice (bundle bob) with
  | Ok s => s
  | Err _ => mkSession (init_responder (key 0) (secret 0)) [] None
  end.
Definition begun : apps := opening sa bob (secret 33).
Definition now : apps := script_end app_act acts begun.

Lemma now_reachable : star (app_step (pb_one_time_prekey_id (bundle bob))) begun now.
Proof.
  unfold now. generalize (pb_one_time_prekey_id (bundle bob)). intros o.
  refine (script_reaches app_act _ (app_act_step o) acts begun _). vm_compute. reflexivity.
Qed.
End AppsDemo.

Import Demo WireDemo IdentityDemo SessionDemo AppsDemo.

Lemma sessions_deliver_witness :
  map (fun p => (c_from p, c_plain p)) (transit now) = [(true, hello 3); (true, hello 0)] /\
  (forall p fresh, p ∈ transit now -> public_of fresh ∉ drawn now ->
     acceptable (negb (c_from p)) now (message_header (c_msg p)) ->
     (take_in (negb (c_from p)) fresh (message_encode (c_msg p)) now).1 = Ok (c_plain p)) /\
  (forall s ses pt, session_of s now = Some ses -> exists m, (session_encrypt pt ses).1 = Ok m).
Proof.
  split; [vm_compute; reflexivity|].
  apply (sessions_deliver (secret 31) seed (secret 33) alice bob (bundle bob) sa).
  - exact (bundle_of_bundle bob).
  - reflexivity.
  - apply generate_pool_ok.
  - destruct (alice_session (bundle bob) (bundle_of_bundle bob) (verify_bundle_bundle bob)) as [s Hs].
    unfold sa. rewrite Hs. reflexivity.
  - apply keys_differ. vm_compute. reflexivity.
  - exact now_reachable.
Defined.
