(* ===== verification/Envelope.v ===== *)
(** * Sealed-sender envelopes (core/src/envelope.rs)

    Padding to size buckets, sealing to the recipient's identity DH key, and
    opening. [eph_secret] is the secret [seal_envelope] draws. *)
From S2P Require Import Prelude Words Primitives Wire Kdf PqKem Identity Demo IdentityProps.

Local Open Scope N_scope.

Definition SEALED_ENVELOPE_VERSION : u8 := wrap 8 2.
Definition HEADER_LEN : nat := 1 + 32.
Definition INNER_PREFIX_LEN : nat := 64.
Definition LEN_PREFIX : nat := 4.
Definition MIN_BUCKET : N := 512.
Definition MAX_POW2_BUCKET : N := 8 * 1024.

(** ** Padding *)

(** [usize::next_power_of_two] and [usize::div_ceil]; a length stays below
    [isize::MAX], so neither overflows. *)
Definition next_power_of_two (n : N) : N := 2 ^ N.log2_up n.
Definition div_ceil (n d : N) : N := (n + d - 1) / d.

Definition bucket (len : N) : N :=
  let needed := len + N.of_nat LEN_PREFIX in
  if needed <=? MIN_BUCKET then MIN_BUCKET
  else if needed <=? MAX_POW2_BUCKET then next_power_of_two needed
  else div_ceil needed MAX_POW2_BUCKET * MAX_POW2_BUCKET.

Record OpenedEnvelope : Set := mkOpened {
  oe_sender_identity_ed : key32;
  oe_sender_identity_dh : key32;
  oe_payload : list u8
}.

Section Envelope.
Context `{X : X25519, Sym : SymCrypto, Ed : Ed25519, Kem : MlKem}.

Definition derive_seal_key (shared eph_pub recipient_dh : key32) : key32 :=
  let info := bytes_of_string "Clarity-sealed-v1" ++ eph_pub ++ recipient_dh in
  hkdf_sha256 (bytes_of_string "Clarity-sealed-salt-v1") shared info 32.

Definition blen (l : list u8) : N := N.of_nat (length l).

(** The padded plaintext of an envelope. *)
Definition seal_inner (sender : Account) (payload : list u8) : list u8 :=
  let padded := N.to_nat (bucket (blen payload)) in
  let inner := identity_public sender ++ identity_dh_public sender ++
               le_bytes 4 (wrap 32 (blen payload)) ++ payload in
  resize (INNER_PREFIX_LEN + padded) (wrap 8 0) inner.

Definition seal_envelope (eph_secret : StaticSecret) (sender : Account)
    (recipient_identity_dh : key32) (payload : list u8) : list u8 :=
  let eph_pub := public_of eph_secret in
  let shared := diffie_hellman eph_secret recipient_identity_dh in
  let seal_key := derive_seal_key shared eph_pub recipient_identity_dh in
  let ciphertext := aead_seal seal_key (seal_inner sender payload) eph_pub in
  [SEALED_ENVELOPE_VERSION] ++ eph_pub ++ ciphertext.

(** [None] is an index out of range, where Rust would panic. *)
Definition array_at (n start : nat) (l : list u8) : option (array n) :=
  array_of n (take n (drop start l)).

(** What [open_envelope] does with a plaintext that opened. *)
Definition parse_inner (inner : list u8) : result Error OpenedEnvelope :=
  if decide (length inner < INNER_PREFIX_LEN + LEN_PREFIX)%nat then Err Decrypt
  else
    let payload_len := le_value (take LEN_PREFIX (drop INNER_PREFIX_LEN inner)) in
    let start := (INNER_PREFIX_LEN + LEN_PREFIX)%nat in
    if decide (N.of_nat (length inner - start) < payload_len) then Err Decrypt
    else
      match array_at 32 0 inner, array_at 32 32 inner with
      | Some sender_ed, Some sender_dh =>
          Ok (mkOpened sender_ed sender_dh (take (N.to_nat payload_len) (drop start inner)))
      | _, _ => Err Decrypt
      end.

Definition open_envelope (recipient : Account) (blob : list u8) : result Error OpenedEnvelope :=
  if decide (length blob <= HEADER_LEN)%nat then Err Decrypt
  else if decide (head blob <> Some SEALED_ENVELOPE_VERSION) then Err Decrypt
  else
    match array_at 32 1 blob with
    | None => Err Decrypt
    | Some eph_pub =>
        let ciphertext := drop HEADER_LEN blob in
        let recipient_dh_pub := identity_dh_public recipient in
        let shared := diffie_hellman (dh_identity recipient) eph_pub in
        let seal_key := derive_seal_key shared eph_pub recipient_dh_pub in
        inner <-? aead_open seal_key ciphertext eph_pub;
        parse_inner inner
    end.

(** ** Lemmas on padding *)

Lemma next_power_of_two_ge n : n <= next_power_of_two n.
Proof.
  unfold next_power_of_two. destruct (N.leb_spec n 1) as [Hn|Hn].
  - rewrite N.log2_up_eqn0 by done. cbn. lia.
  - by apply N.log2_up_spec.
Qed.

Lemma next_power_of_two_lt n : 1 < n -> next_power_of_two n < 2 * n.
Proof.
  intros Hn. unfold next_power_of_two. pose proof (proj1 (N.log2_up_spec n Hn)) as Hlt.
  assert (0 < N.log2_up n) by (by apply N.log2_up_pos).
  rewrite <-(N.succ_pred_pos (N.log2_up n)), N.pow_succ_r' by done. lia.
Qed.

Lemma div_ceil_spec n d : 0 < d -> n <= div_ceil n d * d < n + d.
Proof.
  intros Hd. unfold div_ceil.
  pose proof (N.div_mod' (n + d - 1) d) as Hdm. pose proof (N.mod_lt (n + d - 1) d ltac:(lia)) as Hm.
  rewrite (N.mul_comm d) in Hdm. remember ((n + d - 1) / d * d) as m eqn:E. clear E.
  remember ((n + d - 1) mod d) as r eqn:E. clear E. lia.
Qed.

Lemma next_power_of_two_mono n m : n <= m -> next_power_of_two n <= next_power_of_two m.
Proof. intros. apply N.pow_le_mono_r; [lia|]. by apply N.log2_up_le_mono. Qed.

Lemma bucket_fits len : len + 4 <= bucket len.
Proof.
  unfold bucket. change (N.of_nat LEN_PREFIX) with 4.
  destruct (N.leb_spec (len + 4) MIN_BUCKET); [done|].
  destruct (N.leb_spec (len + 4) MAX_POW2_BUCKET); [apply next_power_of_two_ge|].
  by apply div_ceil_spec.
Qed.

(** The buckets: a power of two from 512 to 8192, or a multiple of 8192. *)
Lemma bucket_small len : len + 4 <= MAX_POW2_BUCKET ->
  exists e, 9 <= e <= 13 /\ bucket len = 2 ^ e.
Proof.
  intros Hlen. unfold bucket. change (N.of_nat LEN_PREFIX) with 4.
  destruct (N.leb_spec (len + 4) MIN_BUCKET) as [Hm|Hm]; [by exists 9|].
  rewrite (proj2 (N.leb_le _ _) Hlen). exists (N.log2_up (len + 4)). split; [|done].
  unfold MIN_BUCKET, MAX_POW2_BUCKET in *. split.
  - change 9 with (N.log2_up 512). apply N.log2_up_le_mono. lia.
  - change 13 with (N.log2_up (8 * 1024)). by apply N.log2_up_le_mono.
Qed.

Lemma bucket_large len : MAX_POW2_BUCKET < len + 4 ->
  exists q, 2 <= q /\ bucket len = q * MAX_POW2_BUCKET /\ bucket len < len + 4 + MAX_POW2_BUCKET.
Proof.
  intros Hlen. unfold bucket. change (N.of_nat LEN_PREFIX) with 4. unfold MIN_BUCKET, MAX_POW2_BUCKET in *.
  destruct (N.leb_spec (len + 4) 512); [lia|]. destruct (N.leb_spec (len + 4) (8 * 1024)); [lia|].
  pose proof (div_ceil_spec (len + 4) (8 * 1024) ltac:(lia)).
  exists (div_ceil (len + 4) (8 * 1024)). split_and!; [nia|done|lia].
Qed.

(** The padding of an envelope hides the payload's length up to its
    bucket: a bucket holds the payload and its length prefix, is a power of two
    between 512 and 8192 or a larger multiple of 8192, never shrinks when the
    payload grows, and costs less than the payload again or less than 8 KiB. *)
Theorem bucket_spec len len' :
  len + 4 <= bucket len /\
  ((exists e, 9 <= e <= 13 /\ bucket len = 2 ^ e) \/
   (exists q, 2 <= q /\ bucket len = q * MAX_POW2_BUCKET)) /\
  (len <= len' -> bucket len <= bucket len') /\
  (512 < len + 4 -> bucket len < 2 * (len + 4)) /\
  (MAX_POW2_BUCKET < len + 4 -> bucket len < len + 4 + MAX_POW2_BUCKET).
Proof.
  split_and!.
  - apply bucket_fits.
  - destruct (N.leb_spec (len + 4) MAX_POW2_BUCKET) as [H1|H1].
    + left. by apply bucket_small.
    + right. destruct (bucket_large _ H1) as (q & ? & ? & _). by exists q.
  - intros Hle. unfold bucket. change (N.of_nat LEN_PREFIX) with 4.
    pose proof (next_power_of_two_ge (len' + 4)). pose proof (next_power_of_two_mono (len + 4) (len' + 4)).
    pose proof (div_ceil_spec (len' + 4) MAX_POW2_BUCKET ltac:(done)) as Hd'.
    pose proof (next_power_of_two_mono (len + 4) MAX_POW2_BUCKET) as Hp.
    change (next_power_of_two MAX_POW2_BUCKET) with MAX_POW2_BUCKET in Hp.
    unfold MIN_BUCKET, MAX_POW2_BUCKET in *.
    destruct (N.leb_spec (len + 4) 512), (N.leb_spec (len' + 4) 512),
      (N.leb_spec (len + 4) (8 * 1024)), (N.leb_spec (len' + 4) (8 * 1024)); try lia.
    unfold div_ceil. apply N.mul_le_mono_r, N.Div0.div_le_mono. lia.
  - intros Hbig. unfold bucket. change (N.of_nat LEN_PREFIX) with 4. unfold MIN_BUCKET.
    destruct (N.leb_spec (len + 4) 512); [lia|].
    destruct (N.leb_spec (len + 4) MAX_POW2_BUCKET); [apply next_power_of_two_lt; lia|].
    pose proof (div_ceil_spec (len + 4) MAX_POW2_BUCKET ltac:(done)). lia.
  - intros Hbig. destruct (bucket_large _ Hbig) as (q & _ & _ & ?). done.
Qed.

(** ** Sealing and opening *)

Lemma seal_inner_app sender payload :
  seal_inner sender payload =
    identity_public sender ++ identity_dh_public sender ++
    le_bytes 4 (wrap 32 (blen payload)) ++ payload ++
    replicate (N.to_nat (bucket (blen payload)) - LEN_PREFIX - length payload) (wrap 8 0).
Proof.
  unfold seal_inner. rewrite resize_ge.
  - rewrite !length_app, !array_length, length_le_bytes, <-!app_assoc.
    do 5 f_equal. unfold INNER_PREFIX_LEN, LEN_PREFIX. lia.
  - rewrite !length_app, !array_length, length_le_bytes. unfold INNER_PREFIX_LEN, blen.
    pose proof (bucket_fits (N.of_nat (length payload))). lia.
Qed.

Lemma seal_inner_length sender payload :
  length (seal_inner sender payload) = (INNER_PREFIX_LEN + N.to_nat (bucket (blen payload)))%nat.
Proof. unfold seal_inner. apply length_resize. Qed.

Lemma array_at_app {n m} (l : list u8) (a : array n) k :
  length l = m -> array_at n m (l ++ a ++ k) = Some a.
Proof.
  intros <-. unfold array_at. rewrite drop_app_length, take_app_length'; [apply array_of_abytes|].
  by rewrite array_length.
Qed.

Lemma parse_seal_inner sender payload :
  parse_inner (seal_inner sender payload)
  = Ok (mkOpened (identity_public sender) (identity_dh_public sender)
          (take (N.to_nat (blen payload mod 2 ^ 32)) payload)).
Proof.
  unfold parse_inner. pose proof (bucket_fits (blen payload)) as Hb. unfold blen in *.
  rewrite seal_inner_length. unfold INNER_PREFIX_LEN, LEN_PREFIX, blen in *.
  rewrite decide_False by lia.
  pose proof (N.Div0.mod_le (N.of_nat (length payload)) (2 ^ 32)) as Hmod.
  assert (le_value (take 4 (drop 64 (seal_inner sender payload))) = N.of_nat (length payload) mod 2 ^ 32) as Hlen.
  { rewrite seal_inner_app. unfold blen.
    rewrite (app_assoc (identity_public sender)), drop_app_length'
      by (by rewrite length_app, !array_length).
    rewrite take_app_length' by (by rewrite length_le_bytes). rewrite le_value_bytes, wval_wrap.
    apply N.mod_small. change (256 ^ N.of_nat 4) with (2 ^ 32). by apply N.mod_lt. }
  rewrite Hlen, decide_False by lia.
  assert (array_at 32 0 (seal_inner sender payload) = Some (identity_public sender)) as ->.
  { rewrite seal_inner_app. exact (array_at_app [] (identity_public sender) _ eq_refl). }
  assert (array_at 32 32 (seal_inner sender payload) = Some (identity_dh_public sender)) as ->.
  { rewrite seal_inner_app. by apply array_at_app, array_length. }
  do 2 f_equal. rewrite seal_inner_app. unfold blen.
  rewrite (app_assoc (identity_public sender)), (app_assoc (_ ++ _)), drop_app_length'
    by (by rewrite !length_app, !array_length, length_le_bytes).
  rewrite take_app_le by lia. done.
Qed.

Lemma take_drop_split (l : list u8) i j :
  drop i l = take j (drop i l) ++ drop (i + j) l.
Proof. by rewrite <-drop_drop, take_drop. Qed.

Lemma parse_inner_Ok inner o :
  parse_inner inner = Ok o ->
  inner = oe_sender_identity_ed o ++ oe_sender_identity_dh o ++ le_bytes 4 (blen (oe_payload o)) ++
          oe_payload o ++ drop (68 + length (oe_payload o)) inner /\
  blen (oe_payload o) = blen (oe_payload o).
Proof.
  unfold parse_inner, INNER_PREFIX_LEN, LEN_PREFIX. case_decide as Hlen; [done|].
  set (n := le_value _). case_decide as Hn; [done|].
  destruct (array_at 32 0 inner) as [ed|] eqn:Hed; [|done].
  destruct (array_at 32 32 inner) as [dh|] eqn:Hdh; [|done]. intros [= <-].
  cbn [oe_sender_identity_ed oe_sender_identity_dh oe_payload]. split; [|done].
  apply array_of_Some in Hed as ->, Hdh as ->.
  assert (length (take (N.to_nat n) (drop 68 inner)) = N.to_nat n) as Hp.
  { rewrite length_take, length_drop. lia. }
  assert (le_bytes 4 n = take 4 (drop 64 inner)) as Hle.
  { unfold n. rewrite <-(le_bytes_value (take 4 (drop 64 inner))) at 2.
    by rewrite length_take, length_drop, Nat.min_l by lia. }
  unfold blen. rewrite Hp, N2Nat.id, Hle.
  change (take 32 (drop 0 inner)) with (take 32 inner).
  rewrite <-(take_drop_split inner 68), <-(take_drop_split inner 64), <-(take_drop_split inner 32).
  by rewrite take_drop.
Qed.

Lemma parse_inner_Err inner e : parse_inner inner = Err e -> e = Decrypt.
Proof.
  unfold parse_inner. case_decide; [by intros [= <-]|]. case_decide; [by intros [= <-]|].
  destruct (array_at 32 0 inner); [|by intros [= <-]]. destruct (array_at 32 32 inner); [done|by intros [= <-]].
Qed.

(** Opening looks at the key, not at the version, only past the three checks. *)
Lemma open_envelope_blob recipient eph_pub ciphertext :
  (0 < length ciphertext)%nat ->
  open_envelope recipient ([SEALED_ENVELOPE_VERSION] ++ abytes eph_pub ++ ciphertext)
  = (inner <-? aead_open (derive_seal_key (diffie_hellman (dh_identity recipient) eph_pub) eph_pub
                   (identity_dh_public recipient)) ciphertext eph_pub;
     parse_inner inner).
Proof.
  intros Hc. unfold open_envelope, HEADER_LEN.
  rewrite decide_False by (rewrite !length_app, array_length; cbn; lia).
  rewrite decide_False by (cbn; tauto).
  rewrite (array_at_app [SEALED_ENVELOPE_VERSION] eph_pub ciphertext) by done.
  rewrite app_assoc, drop_app_length' by (by rewrite length_app, array_length).
  done.
Qed.

Lemma aead_open_length `{!SymCryptoLaws} k c ad p : aead_open k c ad = Ok p -> length c = (length p + 16)%nat.
Proof. intros ->%aead_open_Ok. apply aead_seal_length. Qed.

Context `{!X25519Laws, !SymCryptoLaws}.

Lemma open_seal_envelope eph sender recipient payload :
  open_envelope recipient (seal_envelope eph sender (identity_dh_public recipient) payload)
  = Ok (mkOpened (identity_public sender) (identity_dh_public sender)
          (take (N.to_nat (blen payload mod 2 ^ 32)) payload)).
Proof.
  unfold seal_envelope. rewrite open_envelope_blob by (rewrite aead_seal_length; lia).
  unfold identity_dh_public at 2 3. rewrite dh_comm.
  rewrite aead_open_seal. cbn [rbind]. apply parse_seal_inner.
Qed.

Lemma take_short payload : blen payload < 2 ^ 32 -> take (N.to_nat (blen payload mod 2 ^ 32)) payload = payload.
Proof. intros Hlt. rewrite N.mod_small by done. unfold blen. rewrite Nat2N.id. by apply take_ge. Qed.

(** C28: an envelope sealed to an account opens under it and gives back the
    sender's two identity keys and the payload, cut at the length the 32-bit
    prefix can say (the whole payload below 4 GiB); the size of the blob is
    113 bytes and the bucket, whoever sent it and whatever is inside. *)
Theorem envelope_opens eph sender recipient payload :
  open_envelope recipient (seal_envelope eph sender (identity_dh_public recipient) payload)
  = Ok (mkOpened (identity_public sender) (identity_dh_public sender)
          (take (N.to_nat (blen payload mod 2 ^ 32)) payload)) /\
  (blen payload < 2 ^ 32 -> take (N.to_nat (blen payload mod 2 ^ 32)) payload = payload) /\
  blen (seal_envelope eph sender (identity_dh_public recipient) payload) = 113 + bucket (blen payload).
Proof.
  split_and!.
  - apply open_seal_envelope.
  - apply take_short.
  - unfold seal_envelope, blen at 1. rewrite !length_app, array_length, aead_seal_length, seal_inner_length.
    unfold INNER_PREFIX_LEN. cbn [length]. lia.
Qed.

(** C29: opening fails in one way only, and accepts nothing but what some
    sender sealed under the key it agreed with this account: whatever opens is
    the version byte, an ephemeral key and the AEAD of a plaintext of at least 68
    bytes that starts with the two keys reported and a length it really holds. *)
Theorem open_envelope_cases recipient blob :
  match open_envelope recipient blob with
  | Err e => e = Decrypt
  | Ok o => exists (eph_pub : key32) inner len,
      let seal_key := derive_seal_key (diffie_hellman (dh_identity recipient) eph_pub) eph_pub
                        (identity_dh_public recipient) in
      blob = [SEALED_ENVELOPE_VERSION] ++ abytes eph_pub ++ aead_seal seal_key inner eph_pub /\
      inner = oe_sender_identity_ed o ++ oe_sender_identity_dh o ++ le_bytes 4 len ++
              oe_payload o ++ drop (68 + length (oe_payload o)) inner /\
      len = blen (oe_payload o)
  end.
Proof.
  destruct (open_envelope recipient blob) as [o|e] eqn:Hopen.
  - unfold open_envelope in Hopen. case_decide as Hlen; [done|]. case_decide as Hver; [done|].
    unfold HEADER_LEN in *. destruct (array_at 32 1 blob) as [eph|] eqn:Heph; [|done].
    apply rbind_Ok in Hopen as (inner & Hinner & Hparse). apply aead_open_Ok in Hinner.
    apply parse_inner_Ok in Hparse. exists eph, inner, (blen (oe_payload o)). cbv zeta.
    split; [|done]. rewrite <-Hinner.
    destruct blob as [|v blob]; [cbn in Hlen; lia|].
    assert (v = SEALED_ENVELOPE_VERSION) as -> by (by injection Hver).
    apply array_of_Some in Heph. rewrite Heph. symmetry. apply (f_equal (cons SEALED_ENVELOPE_VERSION)). apply (take_drop 32).
  - unfold open_envelope in Hopen. case_decide; [by injection Hopen|]. case_decide; [by injection Hopen|].
    destruct (array_at 32 1 blob); [|by injection Hopen].
    apply rbind_Err in Hopen as [He|(inner & _ & He)]; [by apply aead_open_Err in He|].
    by apply parse_inner_Err in He.
Qed.
End Envelope.

Import Demo WireDemo IdentityDemo.

Lemma envelope_opens_witness :
  let payload := bytes [1; 2; 3] in
  open_envelope bob (seal_envelope (secret 41) alice (identity_dh_public bob) payload)
  = Ok (mkOpened (identity_public alice) (identity_dh_public alice)
          (take (N.to_nat (blen payload mod 2 ^ 32)) payload)) /\
  (blen payload < 2 ^ 32 -> take (N.to_nat (blen payload mod 2 ^ 32)) payload = payload) /\
  blen (seal_envelope (secret 41) alice (identity_dh_public bob) payload) = 113 + bucket (blen payload).
Proof. cbv zeta. apply (envelope_opens (secret 41) alice bob (bytes [1; 2; 3])). Defined.

Lemma open_envelope_cases_witness :
  match open_envelope bob (bytes [2; 7]) with
  | Err e => e = Decrypt
  | Ok o => exists (eph_pub : key32) inner len,
      let seal_key := derive_seal_key (diffie_hellman (dh_identity bob) eph_pub) eph_pub
                        (identity_dh_public bob) in
      bytes [2; 7] = [SEALED_ENVELOPE_VERSION] ++ abytes eph_pub ++ aead_seal seal_key inner eph_pub /\
      inner = oe_sender_identity_ed o ++ oe_sender_identity_dh o ++ le_bytes 4 len ++
              oe_payload o ++ drop (68 + length (oe_payload o)) inner /\
      len = blen (oe_payload o)
  end.
Proof. apply (open_envelope_cases bob (bytes [2; 7])). Defined.
