(* ===== verification/Inbox.v ===== *)
(** * Rotating inbox identifiers (core/src/inbox.rs) *)
From S2P Require Import Prelude Words Primitives Demo.

Local Open Scope N_scope.

Definition INBOX_EPOCH_SECONDS : N := 86400.

Definition epoch_for_unix (unix_seconds : u64) : u64 := wrap 64 (unix_seconds / INBOX_EPOCH_SECONDS).

Section Inbox.
Context `{Sym : SymCrypto}.

(** The bytes that are hashed. *)
Definition inbox_input (identity_ed : key32) (epoch : u64) : list u8 :=
  bytes_of_string "Clarity-inbox-v1" ++ identity_ed ++ le_bytes 8 epoch.

Definition inbox_id (identity_ed : key32) (epoch : u64) : key32 := sha256 (inbox_input identity_ed epoch).

(** The epochs of the range [from_epoch..=to_epoch]. *)
Definition epoch_range (from_epoch to_epoch : u64) : list u64 :=
  map (fun i => wrap 64 (from_epoch + N.of_nat i)) (seq 0 (N.to_nat (to_epoch - from_epoch + 1))).

Definition inbox_window (identity_ed : key32) (from_epoch to_epoch : u64) : list key32 :=
  if to_epoch <? from_epoch then []
  else map (fun e => inbox_id identity_ed e) (epoch_range from_epoch to_epoch).

Lemma epoch_range_elem (from_epoch to_epoch e : u64) :
  from_epoch <= to_epoch -> e ∈ epoch_range from_epoch to_epoch <-> from_epoch <= e <= to_epoch.
Proof.
  intros Hle. unfold epoch_range. rewrite list_elem_of_fmap. pose proof (word_lt to_epoch). split.
  - intros (i & -> & Hi%elem_of_seq). rewrite wval_wrap_small by lia. lia.
  - intros He. exists (N.to_nat (e - from_epoch)). rewrite elem_of_seq. split; [|lia].
    apply word_eq. rewrite wval_wrap_small by (pose proof (word_lt e); lia). lia.
Qed.

Lemma inbox_input_inj (id id' : key32) (e e' : u64) : inbox_input id e = inbox_input id' e' -> id = id' /\ e = e'.
Proof.
  unfold inbox_input. intros Heq%app_inv_head.
  apply app_inj_1 in Heq as [Hid He]; [|by rewrite !array_length]. split; [by apply array_eq|].
  apply (f_equal le_value) in He. rewrite !le_value_bytes in He. apply word_eq.
  change (256 ^ N.of_nat 8) with (2 ^ 64) in He.
  pose proof (word_lt e). pose proof (word_lt e'). by rewrite !N.mod_small in He.
Qed.

(** The epoch before and after, as a receiver's window has them. *)
Definition window_around (identity_ed : key32) (last now : u64) : list key32 :=
  inbox_window identity_ed (wsat_sub (epoch_for_unix last) (wrap 64 1)) (wsucc (epoch_for_unix now)).

Lemma epoch_for_unix_val (t : u64) : wval (epoch_for_unix t) = t / INBOX_EPOCH_SECONDS.
Proof.
  apply wval_wrap_small. eapply N.le_lt_trans; [|apply (word_lt t)].
  apply N.Div0.div_le_upper_bound. unfold INBOX_EPOCH_SECONDS. lia.
Qed.

Lemma div_skew a b d : 0 < d -> a <= b + d -> a / d <= b / d + 1.
Proof.
  intros Hd Hle. rewrite <-(N.div_add b 1 d) by lia. apply N.Div0.div_le_mono. lia.
Qed.

(** A window around two times covers what was sent since the earlier one, on a
    clock at most one epoch off. *)
Lemma window_around_covers (id : key32) (last now sent : u64) :
  last <= sent + INBOX_EPOCH_SECONDS -> sent <= now + INBOX_EPOCH_SECONDS ->
  now + INBOX_EPOCH_SECONDS < 2 ^ 64 -> last <= now ->
  inbox_id id (epoch_for_unix sent) ∈ window_around id last now.
Proof.
  intros Hlast Hsent Hmax Hle. unfold window_around, inbox_window, INBOX_EPOCH_SECONDS in *.
  assert (wval (wsat_sub (epoch_for_unix last) (wrap 64 1)) = last / 86400 - 1) as Hfrom
    by (by rewrite wval_wsat_sub, epoch_for_unix_val).
  assert (wval (wsucc (epoch_for_unix now)) = now / 86400 + 1) as Hto.
  { rewrite wval_wsucc; rewrite epoch_for_unix_val; [done|].
    assert (now / INBOX_EPOCH_SECONDS <= now) by (apply N.Div0.div_le_upper_bound; unfold INBOX_EPOCH_SECONDS; lia).
    lia. }
  pose proof (epoch_for_unix_val sent) as Hs. unfold INBOX_EPOCH_SECONDS in Hs.
  assert (last / 86400 - 1 <= sent / 86400 <= now / 86400 + 1) as [Hlo Hhi].
  { pose proof (div_skew last sent 86400 ltac:(done) Hlast).
    pose proof (div_skew sent now 86400 ltac:(done) Hsent). lia. }
  rewrite Hfrom, Hto. destruct (N.ltb_spec (now / 86400 + 1) (last / 86400 - 1)) as [Hlt|_]; [lia|].
  apply list_elem_of_fmap. exists (epoch_for_unix sent). split; [done|].
  apply epoch_range_elem; rewrite Hfrom, Hto; lia.
Qed.

(** Polling finds the mail: the window lists the inbox of every epoch of
    the range, oldest first and no other, and is empty exactly for an inverted
    range; distinct identities or epochs never hash the same bytes; and a
    receiver that polls from the epoch before its last poll to the epoch after
    now covers every inbox a sender used since that last poll whose clock is at
    most one epoch off. *)
Theorem inbox_window_covers (id id' : key32) (from_epoch to_epoch e e' last now sent : u64) :
  (inbox_window id from_epoch to_epoch = [] <-> to_epoch < from_epoch) /\
  (from_epoch <= to_epoch ->
     length (inbox_window id from_epoch to_epoch) = N.to_nat (to_epoch - from_epoch + 1) /\
     forall i, (i < length (inbox_window id from_epoch to_epoch))%nat ->
       inbox_window id from_epoch to_epoch !! i = Some (inbox_id id (wrap 64 (from_epoch + N.of_nat i)))) /\
  (inbox_input id e = inbox_input id' e' -> id = id' /\ e = e') /\
  (last <= sent + INBOX_EPOCH_SECONDS -> sent <= now + INBOX_EPOCH_SECONDS ->
     now + INBOX_EPOCH_SECONDS < 2 ^ 64 -> last <= now ->
     inbox_id id (epoch_for_unix sent) ∈ window_around id last now).
Proof.
  split_and!.
  - unfold inbox_window. destruct (N.ltb_spec to_epoch from_epoch) as [Hlt|Hge]; [done|].
    split; [|lia]. intros Hnil. apply (f_equal length) in Hnil. unfold epoch_range in Hnil.
    rewrite !length_map, length_seq in Hnil. cbn in Hnil. lia.
  - intros Hle. unfold inbox_window. destruct (N.ltb_spec to_epoch from_epoch); [lia|].
    unfold epoch_range. rewrite !length_map, length_seq. split; [done|]. intros i Hi.
    rewrite !list_lookup_fmap, lookup_seq_lt by done. done.
  - apply inbox_input_inj.
  - apply window_around_covers.
Qed.
End Inbox.
