(* ===== verification/Safety.v ===== *)
(** * Safety numbers (core/src/safety.rs) *)
From S2P Require Import Prelude Words Primitives Demo.

Local Open Scope N_scope.

Definition ITERATIONS : N := 5200.
Definition CHUNKS_PER_IDENTITY : nat := 6.

Abbreviation chars := (list Ascii.ascii).

(** [format!("{value:05}")] for a value below 100000. *)
Definition digit (d : N) : Ascii.ascii := Ascii.ascii_of_N (48 + d).
Fixpoint padded_digits (width : nat) (n : N) : chars :=
  match width with
  | O => []
  | S width => padded_digits width (n / 10) ++ [digit (n mod 10)]
  end.
Definition space : Ascii.ascii := Ascii.ascii_of_N 32.

Section Safety.
Context `{Sym : SymCrypto}.

Definition fingerprint (identity : key32) : array 64 :=
  let digest := sha512 (bytes_of_string "Clarity-safety-number-v1" ++ identity) in
  N.iter (ITERATIONS - 1) (fun digest : array 64 => sha512 (digest ++ identity)) digest.

(** [acc = (acc << 8) | byte] over five bytes from [start]; at most 40 bits. *)
Definition chunk_acc (fp : array 64) (start : nat) : N :=
  foldl (fun acc b => N.lor (N.shiftl acc 8) (wval b)) 0 (take 5 (drop start (abytes fp))).

Definition chunk_value (fp : array 64) (chunk_index : nat) : N :=
  chunk_acc fp (chunk_index * 5) mod 100000.

Definition push_digits (out : chars) (fp : array 64) : chars :=
  foldl (fun out chunk_index =>
    let out := if (0 <? chunk_index)%nat then out ++ [space] else out in
    out ++ padded_digits 5 (chunk_value fp chunk_index))
    out (seq 0 CHUNKS_PER_IDENTITY).

Definition safety_number (identity_a identity_b : key32) : chars :=
  let fp_a := fingerprint identity_a in
  let fp_b := fingerprint identity_b in
  let '(first, second) := if bytes_leb fp_a fp_b then (fp_a, fp_b) else (fp_b, fp_a) in
  push_digits (push_digits [] first ++ [space]) second.

(** ** Digits *)

Lemma length_padded_digits width n : length (padded_digits width n) = width.
Proof. revert n. induction width as [|w IH]; intros n; cbn; [done|]. rewrite length_app, IH. cbn. lia. Qed.

Lemma digit_inj a b : a < 10 -> b < 10 -> digit a = digit b -> a = b.
Proof.
  unfold digit. intros Ha Hb Heq. apply (f_equal Ascii.N_of_ascii) in Heq.
  rewrite !Ascii.N_ascii_embedding in Heq by lia. lia.
Qed.

Lemma padded_digits_inj width n m :
  n < 10 ^ N.of_nat width -> m < 10 ^ N.of_nat width ->
  padded_digits width n = padded_digits width m -> n = m.
Proof.
  revert n m. induction width as [|w IH]; intros n m Hn Hm Heq.
  - cbn in Hn, Hm. lia.
  - rewrite Nat2N.inj_succ, N.pow_succ_r' in Hn, Hm. cbn in Heq.
    apply app_inj_2 in Heq as [Hhi Hlo]; [|done].
    apply (f_equal head) in Hlo. cbn in Hlo. apply (inj Some) in Hlo.
    apply digit_inj in Hlo; [|apply N.mod_lt; lia..].
    apply IH in Hhi; [|apply N.Div0.div_lt_upper_bound; lia..].
    rewrite (N.div_mod' n 10), (N.div_mod' m 10). lia.
Qed.

Lemma chunk_value_bound fp i : chunk_value fp i < 10 ^ N.of_nat 5.
Proof. apply N.mod_lt. done. Qed.

(** Six groups of five digits, separated by spaces. *)
Definition groups (fp : array 64) : chars :=
  padded_digits 5 (chunk_value fp 0) ++ [space] ++ padded_digits 5 (chunk_value fp 1) ++ [space] ++
  padded_digits 5 (chunk_value fp 2) ++ [space] ++ padded_digits 5 (chunk_value fp 3) ++ [space] ++
  padded_digits 5 (chunk_value fp 4) ++ [space] ++ padded_digits 5 (chunk_value fp 5).

Lemma push_digits_groups out fp : push_digits out fp = out ++ groups fp.
Proof.
  unfold push_digits, groups, CHUNKS_PER_IDENTITY. cbn -[padded_digits chunk_value app].
  by rewrite <-!app_assoc.
Qed.

Definition chunks (fp : array 64) : list N := map (chunk_value fp) (seq 0 CHUNKS_PER_IDENTITY).

#[local] Arguments chunks : simpl never.

Lemma groups_inj fp fp' : groups fp = groups fp' -> chunks fp = chunks fp'.
Proof.
  unfold groups. intros Heq.
  assert (forall i j (l l' : chars), padded_digits 5 (chunk_value fp i) ++ l = padded_digits 5 (chunk_value fp' j) ++ l' ->
    chunk_value fp i = chunk_value fp' j /\ l = l') as Hcut.
  { intros i j l l' H%app_inj_1; [|by rewrite !length_padded_digits]. destruct H as [H ->]. split; [|done].
    apply padded_digits_inj in H; [done|apply chunk_value_bound..]. }
  repeat (apply Hcut in Heq as [?E Heq]; apply app_inv_head in Heq).
  rewrite <-(app_nil_r (padded_digits 5 (chunk_value fp 5))), <-(app_nil_r (padded_digits 5 (chunk_value fp' 5))) in Heq.
  apply Hcut in Heq as [E4 _]. unfold chunks, CHUNKS_PER_IDENTITY. cbn. congruence.
Qed.

Lemma length_groups fp : length (groups fp) = 35%nat.
Proof. unfold groups. rewrite !length_app, !length_padded_digits. done. Qed.

Lemma safety_number_groups a b :
  exists first second, first :: [second] ≡ₚ fingerprint a :: [fingerprint b] /\
    safety_number a b = groups first ++ [space] ++ groups second.
Proof.
  unfold safety_number. destruct (bytes_leb _ _); eexists _, _; (split; [|by rewrite !push_digits_groups, <-app_assoc]).
  - done.
  - apply Permutation_swap.
Qed.

(** C40: both contacts see the same number, whoever computes it: the safety
    number does not depend on the order of the two identities; it is twelve
    groups of five digits separated by single spaces; and two pairs of
    identities show the same number only if their fingerprints have the same
    digit groups, in one order or the other. *)
Theorem safety_number_agreement a b c d :
  safety_number a b = safety_number b a /\
  length (safety_number a b) = 71%nat /\
  (safety_number a b = safety_number c d ->
     [chunks (fingerprint a); chunks (fingerprint b)] ≡ₚ [chunks (fingerprint c); chunks (fingerprint d)]).
Proof.
  split_and!.
  - unfold safety_number.
    destruct (bytes_leb (fingerprint a) (fingerprint b)) eqn:Hab, (bytes_leb (fingerprint b) (fingerprint a)) eqn:Hba; try done.
    + assert (fingerprint a = fingerprint b) as -> by (apply array_eq; by apply bytes_leb_antisymm). done.
    + by apply bytes_leb_total in Hab; rewrite Hab in Hba.
  - destruct (safety_number_groups a b) as (f & s & _ & ->). rewrite !length_app, !length_groups. done.
  - destruct (safety_number_groups a b) as (f & s & Hp & ->), (safety_number_groups c d) as (f' & s' & Hp' & ->).
    intros Heq. apply app_inj_1 in Heq as [Hf Hs]; [|by rewrite !length_groups]. apply app_inv_head in Hs.
    apply groups_inj in Hf, Hs. apply (fmap_Permutation chunks) in Hp, Hp'. cbn in Hp, Hp'.
    by rewrite <-Hp, <-Hp', Hf, Hs.
Qed.
End Safety.
