(* ===== verification/Enclave.v ===== *)
(** * The enclave boundary (core/src/enclave.rs)

    Every operation takes sealed state and returns sealed state; the host holds
    nothing else. The values an operation draws are its arguments. *)
From S2P Require Import Prelude Words Primitives Wire Kdf PqKem Identity Handshake Ratchet Session.
From S2P Require Import Demo IdentityProps SessionProps.

Definition SEAL_AD_ACCOUNT : list u8 := bytes_of_string "Clarity-seal-account-v1".
Definition SEAL_AD_SESSION : list u8 := bytes_of_string "Clarity-seal-session-v1".

Record Sealed : Set := mkSealed { sealed_bytes : list u8 }.
Record Enclave : Set := mkEnclave { seal_key : key32 }.

(** [random] is what [random_bytes] draws. *)
Definition initialize (random : key32) : Enclave := mkEnclave random.
Definition from_seal_key (key : key32) : Enclave := mkEnclave key.

Section Enclave.
Context `{X : X25519, Sym : SymCrypto, Ed : Ed25519, Kem : MlKem}.
Context `{!Bincode RatchetHeader, !Bincode StoredAccount, !Bincode StoredRatchet, !Bincode StoredSession}.

Definition seal_secret (e : Enclave) (context plaintext : list u8) : Sealed :=
  mkSealed (aead_seal (seal_key e) plaintext context).

Definition open_account (e : Enclave) (sealed : Sealed) : result Error Account :=
  bytes <-? aead_open (seal_key e) (sealed_bytes sealed) SEAL_AD_ACCOUNT;
  from_bytes bytes.

Definition open_session (e : Enclave) (sealed : Sealed) : result Error Session :=
  bytes <-? aead_open (seal_key e) (sealed_bytes sealed) SEAL_AD_SESSION;
  session_deserialize bytes.

Definition create_account (ed : SigningKey) (dh spk : StaticSecret) (ky : KyberKeyPair)
    (rng : nat -> StaticSecret) (e : Enclave) : Sealed * key32 :=
  let account := generate ed dh spk ky rng in
  let identity := identity_public account in
  (seal_secret e SEAL_AD_ACCOUNT (to_bytes account), identity).

Definition account_bundle (e : Enclave) (sealed_account : Sealed)
  : result Error (PreKeyBundle * OneTimePrekeyPublics) :=
  account <-? open_account e sealed_account;
  Ok (without_one_time (bundle account), one_time_prekey_publics account).

Definition enclave_initiate (ephemeral : StaticSecret) (seed : EncapSeed) (fresh : StaticSecret)
    (e : Enclave) (sealed_account : Sealed) (b : PreKeyBundle) : result Error Sealed :=
  account <-? open_account e sealed_account;
  session <-? session_initiate ephemeral seed fresh account b;
  Ok (seal_secret e SEAL_AD_SESSION (session_serialize session)).

Definition enclave_respond (fresh : StaticSecret) (e : Enclave) (sealed_account : Sealed) (first : Message)
  : result Error (Sealed * Sealed * list u8) :=
  account <-? open_account e sealed_account;
  let '(res, account) := session_respond fresh first account in
  p <-? res;
  let '(session, plaintext) := p in
  let new_account := seal_secret e SEAL_AD_ACCOUNT (to_bytes account) in
  let sealed_session := seal_secret e SEAL_AD_SESSION (session_serialize session) in
  Ok (new_account, sealed_session, plaintext).

Definition enclave_encrypt (e : Enclave) (sealed_session : Sealed) (plaintext : list u8)
  : result Error (Sealed * Message) :=
  session <-? open_session e sealed_session;
  let '(res, session) := session_encrypt plaintext session in
  message <-? res;
  Ok (seal_secret e SEAL_AD_SESSION (session_serialize session), message).

Definition enclave_decrypt (fresh : StaticSecret) (e : Enclave) (sealed_session : Sealed) (message : Message)
  : result Error (Sealed * list u8) :=
  session <-? open_session e sealed_session;
  let '(res, session) := session_decrypt fresh message session in
  plaintext <-? res;
  Ok (seal_secret e SEAL_AD_SESSION (session_serialize session), plaintext).

(** ** Refinement *)

(** The sealed forms of an account and of a session. *)
Definition sealed_account (e : Enclave) (a : Account) : Sealed := seal_secret e SEAL_AD_ACCOUNT (to_bytes a).
Definition sealed_session (e : Enclave) (s : Session) : Sealed := seal_secret e SEAL_AD_SESSION (session_serialize s).

(** What the host keeps when a call fails: the state it passed in. *)
Definition commit {S E A B} (seal : S -> A -> B) (r : result E A * S) : result E B :=
  match r with (Ok a, s) => Ok (seal s a) | (Err e, _) => Err e end.

Context `{!X25519Laws, !SymCryptoLaws, !Ed25519Laws, !MlKemLaws}.
Context `{!BincodeLaws StoredAccount, !BincodeLaws StoredRatchet, !BincodeLaws StoredSession}.

Lemma open_sealed_account e a : open_account e (sealed_account e a) = Ok a.
Proof.
  unfold open_account, sealed_account, seal_secret. cbn [sealed_bytes]. rewrite aead_open_seal.
  apply from_bytes_to_bytes.
Qed.

Lemma open_sealed_session e s : open_session e (sealed_session e s) = Ok s.
Proof.
  unfold open_session, sealed_session, seal_secret. cbn [sealed_bytes]. rewrite aead_open_seal.
  apply session_deserialize_serialize.
Qed.

(** C8: the enclave is the plain API behind a seal: on the sealed form of an
    account or session each of its operations (and, from nothing, the creation of an
    account) returns exactly what the plain
    operation returns, with the state it leaves sealed again; a failed call
    returns the plain error and no state, so the host is left with the state it
    passed in and a rejected message changes nothing. *)
Theorem enclave_refines e a s ephemeral seed fresh b first m pt ed dh spk ky rng :
  create_account ed dh spk ky rng e
    = (sealed_account e (generate ed dh spk ky rng), identity_public (generate ed dh spk ky rng)) /\
  enclave_initiate ephemeral seed fresh e (sealed_account e a) b
    = (s <-? session_initiate ephemeral seed fresh a b; Ok (sealed_session e s)) /\
  enclave_respond fresh e (sealed_account e a) first
    = commit (fun a' '(s', p) => (sealed_account e a', sealed_session e s', p)) (session_respond fresh first a) /\
  enclave_encrypt e (sealed_session e s) pt
    = commit (fun s' m => (sealed_session e s', m)) (session_encrypt pt s) /\
  enclave_decrypt fresh e (sealed_session e s) m
    = commit (fun s' p => (sealed_session e s', p)) (session_decrypt fresh m s) /\
  account_bundle e (sealed_account e a)
    = Ok (without_one_time (bundle a), one_time_prekey_publics a) /\
  verify_bundle (without_one_time (bundle a)) = Ok tt.
Proof.
  unfold enclave_initiate, enclave_respond, enclave_encrypt, enclave_decrypt, account_bundle.
  rewrite !open_sealed_account, !open_sealed_session. cbn [rbind]. split_and!.
  - done.
  - done.
  - by destruct (session_respond fresh first a) as [[[s' p]|er] a'].
  - by destruct (session_encrypt pt s) as [[m'|er] s'].
  - by destruct (session_decrypt fresh m s) as [[p|er] s'].
  - done.
  - exact (verify_bundle_bundle a).
Qed.

(** A blob the host hands back is accepted as an account or as a session
    only if it was sealed under this enclave's key in that very role, and it is
    refused with [Decrypt] when it does not open. *)
Theorem enclave_accepts_only_sealed e x :
  match open_session e x with
  | Ok s => exists bytes, x = seal_secret e SEAL_AD_SESSION bytes /\ session_deserialize bytes = Ok s
  | Err er => er = Decrypt \/ exists bytes, x = seal_secret e SEAL_AD_SESSION bytes
  end /\
  match open_account e x with
  | Ok a => exists bytes, x = seal_secret e SEAL_AD_ACCOUNT bytes /\ from_bytes bytes = Ok a
  | Err er => er = Decrypt \/ exists bytes, x = seal_secret e SEAL_AD_ACCOUNT bytes
  end.
Proof.
  assert (forall ad p, aead_open (seal_key e) (sealed_bytes x) ad = Ok p -> x = seal_secret e ad p) as Hx.
  { intros ad p Hp%aead_open_Ok. destruct x as [c]. cbn in Hp. unfold seal_secret. by rewrite Hp. }
  unfold open_session, open_account. split.
  - destruct (aead_open _ _ SEAL_AD_SESSION) as [p|er] eqn:Hp; cbn [rbind].
    + apply Hx in Hp. destruct (session_deserialize p) eqn:Hd; eauto.
    + left. by apply aead_open_Err in Hp.
  - destruct (aead_open _ _ SEAL_AD_ACCOUNT) as [p|er] eqn:Hp; cbn [rbind].
    + apply Hx in Hp. destruct (from_bytes p) eqn:Hd; eauto.
    + left. by apply aead_open_Err in Hp.
Qed.

(** The enclave cannot tell an old sealed session from the current one: a
    host that passes the same sealed session to [encrypt] twice gets two messages
    with one header, their ciphertexts sealed under one key and one nonce. *)
Theorem enclave_rollback_reuses_key e s k n pt pt' :
  chain_send (ratchet s) = Some (chain_at k n) -> n_send (ratchet s) = u32_of n -> fits32 (S n) ->
  exists s' h ct ct' wrap_message,
    enclave_encrypt e (sealed_session e s) pt = Ok (sealed_session e s', wrap_message h ct) /\
    enclave_encrypt e (sealed_session e s) pt' = Ok (sealed_session e s', wrap_message h ct') /\
    (forall h c, message_parts (wrap_message h c) = (h, c)) /\
    ct = aead_seal (mk_at k n) pt (associated_data (ad_prefix_of s) h) /\
    ct' = aead_seal (mk_at k n) pt' (associated_data (ad_prefix_of s) h).
Proof.
  intros Hck Hn Hfit. unfold enclave_encrypt. rewrite !open_sealed_session. cbn [rbind].
  rewrite !(session_encrypt_ok _ _ _ _ _ (encrypt_ok _ (ad_prefix_of s) (ratchet s) k n Hck Hn)).
  eexists _, _, _, _, (fun h c => match pending_handshake s with Some hs => PreKey hs h c | None => Normal h c end).
  split_and!; [reflexivity|reflexivity| |reflexivity|reflexivity].
  intros h c. by destruct (pending_handshake s).
Qed.
End Enclave.

Import Demo WireDemo IdentityDemo SessionDemo.

Definition demo_session : Session :=
  mkSession (init_initiator (secret 3) (key 1) (key 2)) (hello 4) None.

Lemma enclave_refines_witness :
  let e := mkEnclave (key 70) in
  let m := Normal (mkHeader (key 3) (wrap 32 0) (wrap 32 0)) [] in
  let made := generate (signing 11) (secret 12) (secret 13) (kyber_pair 14) (draws 40) in
  create_account (signing 11) (secret 12) (secret 13) (kyber_pair 14) (draws 40) e
    = (sealed_account e made, identity_public made) /\
  enclave_initiate (secret 31) seed (secret 33) e (sealed_account e alice) (bundle bob)
    = (s <-? session_initiate (secret 31) seed (secret 33) alice (bundle bob); Ok (sealed_session e s)) /\
  enclave_respond (secret 33) e (sealed_account e alice) m
    = commit (fun a' '(s', p) => (sealed_account e a', sealed_session e s', p)) (session_respond (secret 33) m alice) /\
  enclave_encrypt e (sealed_session e demo_session) (hello 1)
    = commit (fun s' m => (sealed_session e s', m)) (session_encrypt (hello 1) demo_session) /\
  enclave_decrypt (secret 33) e (sealed_session e demo_session) m
    = commit (fun s' p => (sealed_session e s', p)) (session_decrypt (secret 33) m demo_session) /\
  account_bundle e (sealed_account e alice)
    = Ok (without_one_time (bundle alice), one_time_prekey_publics alice) /\
  verify_bundle (without_one_time (bundle alice)) = Ok tt.
Proof.
  cbv zeta. exact (enclave_refines (mkEnclave (key 70)) alice demo_session (secret 31) seed (secret 33) (bundle bob)
    (Normal (mkHeader (key 3) (wrap 32 0) (wrap 32 0)) []) (Normal (mkHeader (key 3) (wrap 32 0) (wrap 32 0)) []) (hello 1)
    (signing 11) (secret 12) (secret 13) (kyber_pair 14) (draws 40)).
Defined.

Lemma enclave_accepts_only_sealed_witness :
  let e := mkEnclave (key 70) in
  let x := mkSealed (hello 1) in
  match open_session e x with
  | Ok s => exists bytes, x = seal_secret e SEAL_AD_SESSION bytes /\ session_deserialize bytes = Ok s
  | Err er => er = Decrypt \/ exists bytes, x = seal_secret e SEAL_AD_SESSION bytes
  end /\
  match open_account e x with
  | Ok a => exists bytes, x = seal_secret e SEAL_AD_ACCOUNT bytes /\ from_bytes bytes = Ok a
  | Err er => er = Decrypt \/ exists bytes, x = seal_secret e SEAL_AD_ACCOUNT bytes
  end.
Proof.
  pose proof (enclave_accepts_only_sealed (mkEnclave (key 70)) (mkSealed (hello 1))) as Hok.
  cbv zeta. exact Hok.
Defined.

Lemma enclave_rollback_reuses_key_witness :
  let e := mkEnclave (key 70) in
  let k := (kdf_rk (key 1) (Ratchet.dh (secret 3) (key 2))).2 in
  exists s' h ct ct' wrap_message,
    enclave_encrypt e (sealed_session e demo_session) (hello 1) = Ok (sealed_session e s', wrap_message h ct) /\
    enclave_encrypt e (sealed_session e demo_session) (hello 2) = Ok (sealed_session e s', wrap_message h ct') /\
    (forall h c, message_parts (wrap_message h c) = (h, c)) /\
    ct = aead_seal (mk_at k 0) (hello 1) (associated_data (ad_prefix_of demo_session) h) /\
    ct' = aead_seal (mk_at k 0) (hello 2) (associated_data (ad_prefix_of demo_session) h).
Proof.
  cbv zeta.
  apply (enclave_rollback_reuses_key (mkEnclave (key 70)) demo_session
           (kdf_rk (key 1) (Ratchet.dh (secret 3) (key 2))).2 0 (hello 1) (hello 2)).
  - reflexivity.
  - reflexivity.
  - reflexivity.
Defined.
