(* ===== verification/EnclaveSession.v ===== *)
(** * Sessions behind the enclave

    Two hosts that hold nothing but sealed blobs, on a network that besides
    losing, delaying and reordering hands them anything it likes. Their calls of the
    enclave are the steps of the two applications of [SessionConversation] with the
    state sealed, except that a refused message leaves the blobs as they were: what
    an attacker can do to a session of the plain interface by messages that do not
    authenticate ([RatchetProps], [SessionProps.garbage_spends_prekey]) it cannot do
    to a sealed one. *)
From S2P Require Import Prelude Words Primitives Wire Kdf PqKem Identity IdentityProps Handshake.
From S2P Require Import Ratchet Session SessionProps Enclave Conversation SessionConversation Demo.

Section EnclaveSession.
Context `{X : X25519, Sym : SymCrypto, Ed : Ed25519, Kem : MlKem}.
Context `{!Bincode RatchetHeader, !Bincode Message, !Bincode StoredAccount,
          !Bincode StoredRatchet, !Bincode StoredSession}.

(** The enclave of each host; [true] is the initiator's. *)
Variable enclave_of : bool -> Enclave.

(** ** The two hosts *)

Record sealed_hosts := mkSealedHosts {
  blob_a : Sealed;         (** the initiator's session *)
  blob_b : option Sealed;  (** the responder's, once it has one *)
  blob_account : Sealed;   (** the responder's account *)
  flying : list parcel;
  keys_drawn : list key32
}.

Definition blob_of (s : bool) (h : sealed_hosts) : option Sealed := if s then Some (blob_a h) else blob_b h.
Definition put_blob (s : bool) (x : Sealed) (h : sealed_hosts) : sealed_hosts :=
  if s then mkSealedHosts x (blob_b h) (blob_account h) (flying h) (keys_drawn h)
  else mkSealedHosts (blob_a h) (Some x) (blob_account h) (flying h) (keys_drawn h).
Definition put_blob_account (x : Sealed) (h : sealed_hosts) : sealed_hosts :=
  mkSealedHosts (blob_a h) (blob_b h) x (flying h) (keys_drawn h).
Definition with_flying (t : list parcel) (h : sealed_hosts) : sealed_hosts :=
  mkSealedHosts (blob_a h) (blob_b h) (blob_account h) t (keys_drawn h).
Definition with_keys_drawn (d : list key32) (h : sealed_hosts) : sealed_hosts :=
  mkSealedHosts (blob_a h) (blob_b h) (blob_account h) (flying h) d.

(** A host handed the bytes of a message. It keeps the blobs a call returns and,
    when the call fails, the ones it had. *)
Definition host_take_in (s : bool) (fresh : StaticSecret) (bytes : list u8) (h : sealed_hosts)
  : result Error (list u8) * sealed_hosts :=
  match message_decode bytes with
  | Err er => (Err er, h)
  | Ok m =>
      match blob_of s h with
      | Some x =>
          match enclave_decrypt fresh (enclave_of s) x m with
          | Ok (x', pt) => (Ok pt, put_blob s x' h)
          | Err er => (Err er, h)
          end
      | None =>
          match enclave_respond fresh (enclave_of s) (blob_account h) m with
          | Ok (acct, x', pt) => (Ok pt, put_blob s x' (put_blob_account acct h))
          | Err er => (Err er, h)
          end
      end
  end.

(** The limits of the code on a received header, inside the seal. *)
Definition acceptable_sealed (s : bool) (h : sealed_hosts) (hd : RatchetHeader) : Prop :=
  match blob_of s h with
  | Some x => match open_session (enclave_of s) x with
              | Ok ses => within_limits (ratchet ses) hd
              | Err _ => False
              end
  | None => cnt (rh_n hd) <= N.to_nat MAX_SKIP
  end.

Definition room_to_send (s : bool) (x : Sealed) : Prop :=
  match open_session (enclave_of s) x with
  | Ok ses => fits32 (S (cnt (n_send (ratchet ses))))
  | Err _ => False
  end.

(** [h_refuse] is the attacker's step: any bytes at all, to either host, as often
    as it likes, that the recipient refuses. *)
Inductive host_step (offered : option u32) : sealed_hosts -> sealed_hosts -> Prop :=
| h_send s pt x x' m h :
    blob_of s h = Some x -> room_to_send s x ->
    enclave_encrypt (enclave_of s) x pt = Ok (x', m) ->
    host_step offered h (with_flying (mkParcel s m pt :: flying h) (put_blob s x' h))
| h_receive p rest fresh h :
    flying h ≡ₚ p :: rest -> public_of fresh ∉ keys_drawn h ->
    acceptable_sealed (negb (c_from p)) h (message_header (c_msg p)) ->
    host_step offered h (with_keys_drawn (public_of fresh :: keys_drawn h) (with_flying rest
      (host_take_in (negb (c_from p)) fresh (message_encode (c_msg p)) h).2))
| h_lose p rest h : flying h ≡ₚ p :: rest -> host_step offered h (with_flying rest h)
| h_refuse s fresh bytes er h h' :
    host_take_in s fresh bytes h = (Err er, h') -> host_step offered h h'
| h_other_peer fresh m acct x pt h :
    (forall id, offered = Some id -> prekey_of m <> Some id) ->
    enclave_respond fresh (enclave_of false) (blob_account h) m = Ok (acct, x, pt) ->
    host_step offered h (put_blob_account acct h).

(** ** Sealing the applications *)
Context `{!X25519Laws, !SymCryptoLaws, !Ed25519Laws, !MlKemLaws, !BincodeLaws Message,
          !BincodeLaws StoredAccount, !BincodeLaws StoredRatchet, !BincodeLaws StoredSession}.

Definition seal_apps (w : apps) : sealed_hosts :=
  mkSealedHosts (sealed_session (enclave_of true) (session_a w)) (sealed_session (enclave_of false) <$> session_b w)
    (sealed_account (enclave_of false) (account w)) (transit w) (drawn w).

Lemma blob_of_seal s w : blob_of s (seal_apps w) = sealed_session (enclave_of s) <$> session_of s w.
Proof. by destruct s. Qed.

Lemma put_blob_seal s ses w :
  put_blob s (sealed_session (enclave_of s) ses) (seal_apps w) = seal_apps (put_session s ses w).
Proof. by destruct s. Qed.

Lemma enclave_decrypt_sealed fresh s ses m :
  enclave_decrypt fresh (enclave_of s) (sealed_session (enclave_of s) ses) m
  = commit (fun ses' pt => (sealed_session (enclave_of s) ses', pt)) (session_decrypt fresh m ses).
Proof.
  unfold enclave_decrypt. rewrite open_sealed_session. cbn [rbind].
  by destruct (session_decrypt fresh m ses) as [[pt|er] ses'].
Qed.

Lemma enclave_respond_sealed fresh s a m :
  enclave_respond fresh (enclave_of s) (sealed_account (enclave_of s) a) m
  = commit (fun a' '(ses, pt) => (sealed_account (enclave_of s) a', sealed_session (enclave_of s) ses, pt))
      (session_respond fresh m a).
Proof.
  unfold enclave_respond. rewrite open_sealed_account. cbn [rbind].
  by destruct (session_respond fresh m a) as [[[ses pt]|er] a'].
Qed.

Lemma enclave_encrypt_sealed s ses pt :
  enclave_encrypt (enclave_of s) (sealed_session (enclave_of s) ses) pt
  = commit (fun ses' m => (sealed_session (enclave_of s) ses', m)) (session_encrypt pt ses).
Proof.
  unfold enclave_encrypt. rewrite open_sealed_session. cbn [rbind].
  by destruct (session_encrypt pt ses) as [[m|er] ses'].
Qed.

(** A host takes in what the application takes in; only of a failure it keeps
    nothing. *)
Lemma host_take_in_seal s fresh bytes w :
  host_take_in s fresh bytes (seal_apps w)
  = let '(res, w') := take_in s fresh bytes w in (res, if is_ok res then seal_apps w' else seal_apps w).
Proof.
  unfold host_take_in, take_in. destruct (message_decode bytes) as [m|er]; [|done].
  rewrite blob_of_seal. destruct (session_of s w) as [ses|] eqn:Hses; cbn [fmap option_fmap option_map].
  - rewrite enclave_decrypt_sealed. destruct (session_decrypt fresh m ses) as [[pt|er] ses']; [|done].
    cbn [commit is_ok]. by rewrite put_blob_seal.
  - destruct s; [done|]. change (blob_account (seal_apps w)) with (sealed_account (enclave_of false) (account w)).
    rewrite enclave_respond_sealed. by destruct (session_respond fresh m (account w)) as [[[ses pt]|er] a].
Qed.

Lemma acceptable_seal s w hd : acceptable_sealed s (seal_apps w) hd <-> acceptable s w hd.
Proof.
  unfold acceptable_sealed, acceptable. rewrite blob_of_seal.
  destruct (session_of s w) as [ses|]; cbn [fmap option_fmap option_map]; [|done].
  by rewrite open_sealed_session.
Qed.

(** Every step of the hosts from sealed applications is a step of the
    applications, or none; [Hopens] is what the applications promise of a reachable
    state. *)
Lemma seal_step offered w h' :
  (forall p fresh, p ∈ transit w -> public_of fresh ∉ drawn w ->
     acceptable (negb (c_from p)) w (message_header (c_msg p)) ->
     (take_in (negb (c_from p)) fresh (message_encode (c_msg p)) w).1 = Ok (c_plain p)) ->
  host_step offered (seal_apps w) h' -> exists w', star (app_step offered) w w' /\ h' = seal_apps w'.
Proof.
  intros Hopens Hstep. remember (seal_apps w) as h eqn:Hh.
  destruct Hstep as [s pt x x' m h Hx Hroom Henc|p rest fresh h Ht Hfresh Hacc|p rest h Ht
    |s fresh bytes er h h' Hres|fresh m acct x pt h Hm Hresp]; subst h.
  - rewrite blob_of_seal in Hx. destruct (session_of s w) as [ses|] eqn:Hses; [|done]. injection Hx as <-.
    unfold room_to_send in Hroom. rewrite open_sealed_session in Hroom. rewrite enclave_encrypt_sealed in Henc.
    destruct (session_encrypt pt ses) as [[m'|er] ses'] eqn:Hs; [|done]. injection Henc as <- <-.
    eexists. split; [eapply star_step; [apply star_refl|by eapply app_send]|]. by rewrite put_blob_seal.
  - apply acceptable_seal in Hacc. change (flying (seal_apps w)) with (transit w) in Ht.
    change (keys_drawn (seal_apps w)) with (drawn w) in *.
    eexists. split; [eapply star_step; [apply star_refl|by eapply (app_receive offered p rest fresh)]|].
    rewrite host_take_in_seal. specialize (Hopens p fresh ltac:(rewrite Ht; by left) Hfresh Hacc).
    destruct (take_in _ _ _ _) as [res w']. cbn [fst] in Hopens. by rewrite Hopens.
  - eexists. split; [eapply star_step; [apply star_refl|by eapply (app_lose offered p)]|done].
  - exists w. split; [apply star_refl|]. rewrite host_take_in_seal in Hres.
    destruct (take_in _ _ _ _) as [[pt|er'] w']; [done|]. by injection Hres as _ <-.
  - change (blob_account (seal_apps w)) with (sealed_account (enclave_of false) (account w)) in Hresp.
    rewrite enclave_respond_sealed in Hresp.
    destruct (session_respond fresh m (account w)) as [[[ses pt']|er] a] eqn:Hs; [|done]. injection Hresp as <- _ _.
    exists (put_account a w). split; [|done]. eapply star_step; [apply star_refl|]. apply app_account.
    pose proof (acc_other_peer offered fresh m (account w) Hm) as Hacc. by rewrite Hs in Hacc.
Qed.

(** The hosts after [Enclave::initiate], whose last draw was [fresh]. *)
Definition sealed_opening (x : Sealed) (bob : Account) (fresh : StaticSecret) : sealed_hosts :=
  mkSealedHosts x None (sealed_account (enclave_of false) bob) [] [public_of fresh; public_of (signed_prekey bob)].

(** In every state the hosts reach, their blobs are those of applications that
    can reach theirs. *)
Lemma hosts_sealed ephemeral seed fresh0 me bob b x h :
  bundle_of bob b -> pb_identity_ed b = identity_public bob -> pool_ok bob ->
  enclave_initiate ephemeral seed fresh0 (enclave_of true) (sealed_account (enclave_of true) me) b = Ok x ->
  public_of fresh0 <> public_of (signed_prekey bob) ->
  star (host_step (pb_one_time_prekey_id b)) (sealed_opening x bob fresh0) h ->
  exists sa w, session_initiate ephemeral seed fresh0 me b = Ok sa /\
    star (app_step (pb_one_time_prekey_id b)) (opening sa bob fresh0) w /\ h = seal_apps w.
Proof.
  intros Hb Hed Hpool Hinit Hne Hstar. unfold enclave_initiate in Hinit. rewrite open_sealed_account in Hinit.
  cbn [rbind] in Hinit. destruct (session_initiate ephemeral seed fresh0 me b) as [sa|er] eqn:Hsa; [|done].
  injection Hinit as <-. exists sa. cut (exists w, star (app_step (pb_one_time_prekey_id b)) (opening sa bob fresh0) w /\
    h = seal_apps w); [intros (w & ? & ?); by exists w|].
  refine (star_invariant (host_step (pb_one_time_prekey_id b)) (fun h => exists w,
    star (app_step (pb_one_time_prekey_id b)) (opening sa bob fresh0) w /\ h = seal_apps w) _ _ _ Hstar _).
  - intros h1 h2 (w & Hw & ->) Hstep.
    destruct (seal_step (pb_one_time_prekey_id b) w h2) as (w' & Hw' & ->); [|done|].
    + intros p fresh. by apply (apps_take_in ephemeral seed fresh0 me bob b sa).
    + exists w'. split; [by eapply star_trans|done].
  - exists (opening sa bob fresh0). by split; [apply star_refl|].
Qed.

(** C4: sessions behind the enclave withstand the network: from
    [Enclave::initiate] on a bundle of the responder's, whatever the hosts send,
    however the network loses, delays and reorders, whatever it replays, alters or
    makes up that the recipient refuses, and whichever other peers' first messages
    the responder's account answers, each genuine message in transit is opened by
    the recipient's next enclave call on the blobs it holds, to exactly its
    plaintext, as long as the ratchet secrets are fresh and the gaps within the
    limits; and a host with a sealed session can always send. *)
Theorem sealed_sessions_withstand ephemeral seed fresh0 me bob b x h :
  bundle_of bob b -> pb_identity_ed b = identity_public bob -> pool_ok bob ->
  enclave_initiate ephemeral seed fresh0 (enclave_of true) (sealed_account (enclave_of true) me) b = Ok x ->
  public_of fresh0 <> public_of (signed_prekey bob) ->
  star (host_step (pb_one_time_prekey_id b)) (sealed_opening x bob fresh0) h ->
  (forall p fresh, p ∈ flying h -> public_of fresh ∉ keys_drawn h ->
     acceptable_sealed (negb (c_from p)) h (message_header (c_msg p)) ->
     (host_take_in (negb (c_from p)) fresh (message_encode (c_msg p)) h).1 = Ok (c_plain p)) /\
  (forall s y pt, blob_of s h = Some y -> exists r, enclave_encrypt (enclave_of s) y pt = Ok r).
Proof.
  intros Hb Hed Hpool Hinit Hne Hstar.
  destruct (hosts_sealed _ _ _ _ _ _ _ _ Hb Hed Hpool Hinit Hne Hstar) as (sa & w & Hsa & Hw & ->). split.
  - intros p fresh Hp Hfresh Hacc%acceptable_seal. rewrite host_take_in_seal.
    pose proof (apps_take_in _ _ _ _ _ _ _ _ _ _ Hb Hed Hpool Hsa Hne Hw Hp Hfresh Hacc) as Hok.
    by destruct (take_in _ _ _ _).
  - intros s y pt. rewrite blob_of_seal. destruct (session_of s w) as [ses|] eqn:Hses; [|done]. intros [= <-].
    destruct (apps_shadow _ _ _ _ _ _ _ _ Hb Hed Hpool Hsa Hne Hw) as (hs & root & v & _ & _ & Hsh).
    destruct (sh_session _ _ _ _ _ _ Hsh _ _ Hses) as [_ Hcan].
    destruct (session_encrypt_total pt ses Hcan) as [m Hm]. rewrite enclave_encrypt_sealed.
    destruct (session_encrypt pt ses) as [res ses']. cbn in Hm. rewrite Hm. by eexists.
Qed.
End EnclaveSession.

(** ** Running the hosts *)
Section Script.
Context `{X : X25519, Sym : SymCrypto, Ed : Ed25519, Kem : MlKem}.
Context `{!Bincode RatchetHeader, !Bincode Message, !Bincode StoredAccount,
          !Bincode StoredRatchet, !Bincode StoredSession}.
Context (enclave_of : bool -> Enclave) (offered : option u32).

#[export] Instance acceptable_sealed_dec s h hd : Decision (acceptable_sealed enclave_of s h hd).
Proof. unfold acceptable_sealed. repeat case_match; apply _. Defined.
#[export] Instance room_to_send_dec s x : Decision (room_to_send enclave_of s x).
Proof. unfold room_to_send. case_match; apply _. Defined.

Inductive sealed_action :=
| HostSends (s : bool) (pt : list u8)
| HostReceives (i : nat) (fresh : StaticSecret)
| HostRefuses (s : bool) (fresh : StaticSecret) (bytes : list u8).

(** [None] when the action is not a step. *)
Definition sealed_act (a : sealed_action) (h : sealed_hosts) : option sealed_hosts :=
  match a with
  | HostSends s pt =>
      match blob_of s h with
      | Some x =>
          match enclave_encrypt (enclave_of s) x pt with
          | Ok (x', m) =>
              if decide (room_to_send enclave_of s x)
              then Some (with_flying (mkParcel s m pt :: flying h) (put_blob s x' h))
              else None
          | Err _ => None
          end
      | None => None
      end
  | HostReceives i fresh =>
      match flying h !! i with
      | Some p =>
          if decide ((public_of fresh ∉ keys_drawn h) /\
                     acceptable_sealed enclave_of (negb (c_from p)) h (message_header (c_msg p)))
          then Some (with_keys_drawn (public_of fresh :: keys_drawn h) (with_flying (delete i (flying h))
                      (host_take_in enclave_of (negb (c_from p)) fresh (message_encode (c_msg p)) h).2))
          else None
      | None => None
      end
  | HostRefuses s fresh bytes =>
      match host_take_in enclave_of s fresh bytes h with
      | (Err _, h') => Some h'
      | (Ok _, _) => None
      end
  end.

Lemma sealed_act_step a h h' : sealed_act a h = Some h' -> host_step enclave_of offered h h'.
Proof.
  destruct a as [s pt|i fresh|s fresh bytes]; unfold sealed_act.
  - destruct (blob_of s h) as [x|] eqn:Hx; [|done].
    destruct (enclave_encrypt _ x pt) as [[x' m]|er] eqn:Henc; [|done].
    case_decide; [|done]. intros [= <-]. by econstructor.
  - destruct (flying h !! i) as [p|] eqn:Hp; [|done]. case_decide as Hok; [|done].
    destruct Hok as [Hf Hl]. intros [= <-]. apply h_receive; [by apply delete_Permutation|done|done].
  - destruct (host_take_in _ _ _ _ _) as [[pt|er] h1] eqn:Hres; [done|]. intros [= <-]. by eapply h_refuse.
Qed.
End Script.

Module SealedDemo.
Import Demo WireDemo IdentityDemo SessionDemo.

Definition vaults (s : bool) : Enclave := from_seal_key (if s then key 70 else key 71).
Definition blob : Sealed :=
  match enclave_initiate (secret 31) seed (secret 33) (vaults true) (sealed_account (vaults true) alice) (bundle bob) with
  | Ok x => x
  | Err _ => mkSealed []
  end.
Definition begun : sealed_hosts := sealed_opening vaults blob bob (secret 33).

(** What the attacker sends: a first message that names the responder's one-time
    prekey and is garbage, a header with a ratchet key of its own, bytes that are no
    message, and the initiator's first message over again. *)
Definition garbage : list u8 :=
  message_encode (PreKey (mkHandshake (key 1) (key 2) (key 3) (wrap 32 0) (Some (wrap 32 0)) (wrap 32 0) [])
                         (mkHeader (key 3) (wrap 32 0) (wrap 32 0)) []).
Definition forged : list u8 := message_encode (Normal (mkHeader (key 9) (wrap 32 0) (wrap 32 0)) []).
Definition replayed : list u8 :=
  match flying (script_end (sealed_act vaults) [HostSends true (hello 0)] begun) with
  | p :: _ => message_encode (c_msg p)
  | [] => []
  end.

Definition acts : list sealed_action :=
  [HostSends true (hello 0); HostRefuses false (secret 81) garbage; HostSends true (hello 1);
   HostReceives 1 (secret 71); HostRefuses false (secret 82) replayed; HostRefuses false (secret 83) forged;
   HostSends false (hello 2); HostRefuses true (secret 84) (hello 9)].
Definition now : sealed_hosts := script_end (sealed_act vaults) acts begun.

Definition on_its_way (h : sealed_hosts) : list (bool * list u8) := map (fun p => (c_from p, c_plain p)) (flying h).

(** The one evaluation of the script. *)
Lemma acts_run :
  option_map on_its_way (script (sealed_act vaults) acts begun)
  = Some [(false, hello 2); (true, hello 1)].
Proof. vm_cast_no_check (eq_refl (Some [(false, hello 2); (true, hello 1)])). Qed.

Lemma now_runs : script (sealed_act vaults) acts begun = Some now.
Proof.
  unfold now, script_end. pose proof acts_run as Hrun.
  destruct (script (sealed_act vaults) acts begun); [reflexivity|discriminate Hrun].
Qed.

Lemma now_on_its_way : on_its_way now = [(false, hello 2); (true, hello 1)].
Proof.
  pose proof acts_run as Hrun. rewrite now_runs in Hrun. cbn [option_map] in Hrun.
  revert Hrun. generalize (on_its_way now). intros l Hl. exact (Some_inj _ _ Hl).
Qed.

Lemma sealed_now_reachable offered : star (host_step vaults offered) begun now.
Proof. exact (script_star (sealed_act vaults) _ (sealed_act_step vaults offered) acts begun now now_runs). Qed.
End SealedDemo.

Import Demo WireDemo IdentityDemo SessionDemo SealedDemo.

Lemma sealed_sessions_withstand_witness :
  on_its_way now = [(false, hello 2); (true, hello 1)] /\
  (forall p fresh, p ∈ flying now -> public_of fresh ∉ keys_drawn now ->
     acceptable_sealed vaults (negb (c_from p)) now (message_header (c_msg p)) ->
     (host_take_in vaults (negb (c_from p)) fresh (message_encode (c_msg p)) now).1 = Ok (c_plain p)) /\
  (forall s y pt, blob_of s now = Some y -> exists r, enclave_encrypt (vaults s) y pt = Ok r).
Proof.
  split; [exact now_on_its_way|].
  apply (sealed_sessions_withstand vaults (secret 31) seed (secret 33) alice bob (bundle bob) blob).
  - exact (bundle_of_bundle bob).
  - reflexivity.
  - apply generate_pool_ok.
  - unfold blob, enclave_initiate. rewrite open_sealed_account. cbn [rbind].
    destruct (alice_session (bundle bob) (bundle_of_bundle bob) (verify_bundle_bundle bob)) as [s ->]. reflexivity.
  - apply keys_differ. vm_compute. reflexivity.
  - apply sealed_now_reachable.
Defined.
