(* ===== verification/RelayStore.v ===== *)
(** * The relay's store (relay/src/store.rs)

    Published prekeys, mailboxes with expiry and caps, and the snapshot file.
    An operation that reads the clock takes the time as an argument; the file
    system is a map from paths to contents, and every call that can fail takes
    its outcome as an argument. *)
From S2P Require Import Prelude Words Primitives Wire PqKem Identity Demo.
From stdpp Require Import pretty.

Definition SNAPSHOT_VERSION : u8 := wrap 8 1.
Definition FLUSH_INTERVAL_SECS : N := 1.

Record StoreLimits : Set := mkLimits {
  mail_ttl_secs : u64;
  max_message_bytes : nat;
  max_mailbox_messages : nat;
  max_mailbox_bytes : nat
}.

Inductive StoreError : Set := MessageTooLarge.

Record StoredKeys : Set := mkKeys {
  base_bundle : PreKeyBundle;
  one_time : list (u32 * key32)
}.

Record QueuedMessage : Set := mkQueued {
  enqueued_at : u64;
  qm_bytes : list u8
}.

Record Inner : Set := mkInner {
  keys : gmap key32 StoredKeys;
  queues : gmap key32 (list QueuedMessage)
}.

Record Snapshot : Set := mkSnapshot {
  version : u8;
  snapshot_inner : Inner
}.

(** A path in its directory, and [with_extension("tmp")]. *)
Record Path : Set := mkPath { p_dir : string; p_stem : string; p_ext : option string }.
Definition with_extension (p : Path) (ext : string) : Path := mkPath (p_dir p) (p_stem p) (Some ext).

#[export] Instance Path_eq_dec : EqDecision Path.
Proof. solve_decision. Defined.

(** Instants of the monotonic clock, in nanoseconds since the earliest one that
    the platform can represent: the start of the clock on some, long before it on
    others. *)
Definition Instant : Set := N.
Definition elapsed_secs (now last : Instant) : N := (now - last) / 1000000000.
(** [Instant::checked_sub] of whole seconds: there is no instant before 0. *)
Definition checked_sub (now : Instant) (secs : N) : option Instant :=
  if (now <? secs * 1000000000)%N then None else Some (now - secs * 1000000000)%N.

Record Persistence : Set := mkPersistence {
  path : Path;
  dirty : bool;
  last_flush : Instant
}.

Record RelayStore : Set := mkStore {
  inner : Inner;
  limits : StoreLimits;
  persistence : option Persistence
}.

Definition Inner_default : Inner := mkInner ∅ ∅.

Definition with_limits (l : StoreLimits) : RelayStore := mkStore Inner_default l None.

Definition StoreLimits_default : StoreLimits :=
  {| mail_ttl_secs := wrap 64 (30 * 24 * 60 * 60);
     max_message_bytes := N.to_nat (256 * 1024);
     max_mailbox_messages := N.to_nat 10000;
     max_mailbox_bytes := N.to_nat (32 * 1024 * 1024) |}.

Definition store_new : RelayStore := with_limits StoreLimits_default.

Definition set_inner (s : RelayStore) (i : Inner) : RelayStore := mkStore i (limits s) (persistence s).
Definition set_persistence (s : RelayStore) (p : option Persistence) : RelayStore :=
  mkStore (inner s) (limits s) p.
Definition set_queues (i : Inner) (q : gmap key32 (list QueuedMessage)) : Inner := mkInner (keys i) q.
Definition set_keys (i : Inner) (k : gmap key32 StoredKeys) : Inner := mkInner k (queues i).
Definition set_dirty (p : Persistence) (d : bool) : Persistence := mkPersistence (path p) d (last_flush p).

Definition mark_dirty (s : RelayStore) : RelayStore :=
  set_persistence s (option_map (fun p => set_dirty p true) (persistence s)).

(** ** The prekey directory *)

Definition publish (base : PreKeyBundle) (pool : list (u32 * key32)) (s : RelayStore) : RelayStore :=
  let identity := pb_identity_ed base in
  let base := without_one_time base in
  mark_dirty (set_inner s (set_keys (inner s) (<[identity := mkKeys base pool]> (keys (inner s))))).

Definition fetch_bundle (identity : key32) (s : RelayStore) : option PreKeyBundle * RelayStore :=
  match keys (inner s) !! identity with
  | None => (None, s)
  | Some stored =>
      match one_time stored with
      | [] => (Some (base_bundle stored), s)
      | (id, public) :: rest =>
          (Some (with_one_time (base_bundle stored) id public),
           mark_dirty (set_inner s (set_keys (inner s)
             (<[identity := mkKeys (base_bundle stored) rest]> (keys (inner s))))))
      end
  end.

Definition one_time_remaining (identity : key32) (s : RelayStore) : nat :=
  match keys (inner s) !! identity with Some k => length (one_time k) | None => 0 end.

(** ** Mailboxes *)

(** [queue.iter().map(|m| m.bytes.len()).sum()] *)
Definition total_bytes (q : list QueuedMessage) : nat := sum_list_with (fun m => length (qm_bytes m)) q.

(** [while queue.len() > max { queue.pop_front(); }] *)
Fixpoint cap_count (max : nat) (q : list QueuedMessage) : list QueuedMessage :=
  if decide (max < length q) then match q with [] => [] | _ :: q' => cap_count max q' end else q.

(** [while total > max { match queue.pop_front() { Some(d) => total -= d.len(), None => break } }] *)
Fixpoint cap_bytes (max total : nat) (q : list QueuedMessage) : list QueuedMessage :=
  if decide (max < total)
  then match q with [] => [] | m :: q' => cap_bytes max (total - length (qm_bytes m)) q' end
  else q.

Definition enqueue_at (recipient : key32) (message : list u8) (now : u64) (s : RelayStore)
  : result StoreError unit * RelayStore :=
  if decide (max_message_bytes (limits s) < length message) then (Err MessageTooLarge, s)
  else
    let queue := default [] (queues (inner s) !! recipient) ++ [mkQueued now message] in
    let queue := cap_count (max_mailbox_messages (limits s)) queue in
    let queue := cap_bytes (max_mailbox_bytes (limits s)) (total_bytes queue) queue in
    (Ok tt, mark_dirty (set_inner s (set_queues (inner s) (<[recipient := queue]> (queues (inner s)))))).

Definition fresh_enough (cutoff : u64) (m : QueuedMessage) : bool := (wval cutoff <=? wval (enqueued_at m))%N.

Definition poll_at (recipient : key32) (now : u64) (s : RelayStore) : list (list u8) * RelayStore :=
  let cutoff := wsat_sub now (mail_ttl_secs (limits s)) in
  match queues (inner s) !! recipient with
  | None => ([], s)
  | Some queue =>
      (map qm_bytes (List.filter (fresh_enough cutoff) queue),
       mark_dirty (set_inner s (set_queues (inner s) (delete recipient (queues (inner s))))))
  end.

(** What [retain] leaves of one mailbox: nothing of an empty one. *)
Definition retain_queue (cutoff : u64) (q : list QueuedMessage) : option (list QueuedMessage) :=
  match List.filter (fresh_enough cutoff) q with [] => None | q' => Some q' end.

Definition expired_count (cutoff : u64) (q : list QueuedMessage) : nat :=
  length q - length (List.filter (fresh_enough cutoff) q).

Definition sweep_expired_at (now : u64) (s : RelayStore) : nat * RelayStore :=
  let cutoff := wsat_sub now (mail_ttl_secs (limits s)) in
  let removed := map_fold (fun _ q n => expired_count cutoff q + n) 0 (queues (inner s)) in
  let s := set_inner s (set_queues (inner s) (omap (retain_queue cutoff) (queues (inner s)))) in
  (removed, if decide (0 < removed) then mark_dirty s else s).

(** The three operations at the current time, [unix] being what [now_unix()] reads
    from the system clock; a clock before 1970, where it panics, is left out. *)
Definition enqueue (unix : u64) (recipient : key32) (message : list u8) (s : RelayStore)
  : result StoreError unit * RelayStore := enqueue_at recipient message unix s.
Definition poll (unix : u64) (recipient : key32) (s : RelayStore) : list (list u8) * RelayStore :=
  poll_at recipient unix s.
Definition sweep_expired (unix : u64) (s : RelayStore) : nat * RelayStore := sweep_expired_at unix s.

(** [split_bundle]: what an account uploads. *)
Definition split_bundle `{X25519, Ed25519, MlKem} (account : Account) : PreKeyBundle * list (u32 * key32) :=
  (without_one_time (bundle account), one_time_prekey_publics account).

(** ** The snapshot file *)

Inductive IoError : Set :=
| NotFound
| Other (message : string)
| Device.

Section Files.
Context `{!Bincode Snapshot}.

(** [std::fs::read] *)
Definition Disk : Type := Path -> result IoError (list u8).
Definition read_file (disk : Disk) (p : Path) : result IoError (list u8) := disk p.

Definition store_open (disk : Disk) (now : Instant) (p : Path) (l : StoreLimits)
  : result IoError RelayStore :=
  let opened i := Ok (mkStore i l (Some (mkPersistence p false now))) in
  match read_file disk p with
  | Ok bytes =>
      snapshot <-? map_err (fun e => Other ("corrupt relay state: " +:+ e)) (bincode_deserialize bytes);
      if decide (version snapshot <> SNAPSHOT_VERSION)
      then Err (Other ("relay state version " +:+ pretty (wval (version snapshot)) +:+ " unsupported (expected 1)"))
      else opened (snapshot_inner snapshot)
  | Err NotFound => opened Inner_default
  | Err e => Err e
  end.

(** The effects of a flush on the disk, in order. *)
Inductive disk_op : Set :=
| WriteFile (p : Path) (bytes : list u8)
| RenameFile (from to : Path).

Definition snapshot_bytes (i : Inner) : list u8 := bincode_serialize (mkSnapshot SNAPSHOT_VERSION i).

(** [io] tells for each disk operation whether it succeeds; the result is the
    outcome, the store and the operations attempted. *)
Definition maybe_flush (now : Instant) (io : disk_op -> option IoError) (s : RelayStore)
  : result IoError unit * RelayStore * list disk_op :=
  match persistence s with
  | None => (Ok tt, s, [])
  | Some p =>
      if decide (dirty p = false \/ (elapsed_secs now (last_flush p) < FLUSH_INTERVAL_SECS)%N)
      then (Ok tt, s, [])
      else
        let bytes := snapshot_bytes (inner s) in
        let tmp := with_extension (path p) "tmp" in
        match io (WriteFile tmp bytes) with
        | Some e => (Err e, s, [WriteFile tmp bytes])
        | None =>
            match io (RenameFile tmp (path p)) with
            | Some e => (Err e, s, [WriteFile tmp bytes; RenameFile tmp (path p)])
            | None =>
                (Ok tt, set_persistence s (Some (mkPersistence (path p) false now)),
                 [WriteFile tmp bytes; RenameFile tmp (path p)])
            end
        end
  end.

Definition flush (now : Instant) (io : disk_op -> option IoError) (s : RelayStore)
  : result IoError unit * RelayStore * list disk_op :=
  let s := set_persistence s
    (option_map (fun p => mkPersistence (path p) true
                            (default now (checked_sub now (FLUSH_INTERVAL_SECS + 1)))) (persistence s)) in
  maybe_flush now io s.

End Files.
