(* ===== verification/RelayStoreProps.v ===== *)
(** * Properties of the relay's store (relay/src/store.rs)

    Mailboxes against their specification as bounded queues, the caps over any
    sequence of requests, the prekey directory, and expiry. Durability is in
    [RelayPersistence]. *)
From S2P Require Import Prelude Words Primitives Wire PqKem Identity Demo RelayStore.

(** ** Mailboxes as bounded queues *)

(** The longest suffix that satisfies [ok]. *)
Fixpoint longest_suffix {A} (ok : list A -> bool) (q : list A) : list A :=
  if ok q then q else match q with [] => [] | _ :: q' => longest_suffix ok q' end.

Lemma longest_suffix_spec {A} (ok : list A -> bool) q :
  ok [] = true ->
  exists k, longest_suffix ok q = drop k q /\ ok (drop k q) = true /\
    forall j, j < k -> ok (drop j q) = false.
Proof.
  intros Hnil. induction q as [|x q (k & Hk & Hok & Hmin)]; cbn [longest_suffix].
  - exists 0. rewrite Hnil. split_and!; [done|done|lia].
  - destruct (ok (x :: q)) eqn:Hx; [exists 0; split_and!; done || lia|].
    exists (S k). split_and!; [done|done|]. intros [|j] Hj; [done|]. apply Hmin. lia.
Qed.

Lemma cap_count_drop max q : cap_count max q = drop (length q - max) q.
Proof.
  induction q as [|m q IH]; cbn [cap_count].
  - by case_decide.
  - case_decide as Hlen.
    + rewrite IH. cbn [length] in *. replace (S (length q) - max) with (S (length q - max)) by lia. done.
    + replace (length (m :: q) - max) with 0 by lia. done.
Qed.

Definition bytes_ok (max : nat) (q : list QueuedMessage) : bool := total_bytes q <=? max.

Lemma cap_bytes_suffix max q : cap_bytes max (total_bytes q) q = longest_suffix (bytes_ok max) q.
Proof.
  induction q as [|m q IH]; cbn [cap_bytes longest_suffix].
  - case_decide; by destruct (bytes_ok max []).
  - unfold bytes_ok at 1. case_decide as Hlt.
    + rewrite (proj2 (Nat.leb_gt _ _) Hlt), <-IH. f_equal.
      unfold total_bytes. cbn [sum_list_with]. lia.
    + by rewrite (proj2 (Nat.leb_le _ _)) by lia.
Qed.

Lemma total_bytes_app q q' : total_bytes (q ++ q') = total_bytes q + total_bytes q'.
Proof. apply sum_list_with_app. Qed.

Lemma total_bytes_drop k q : total_bytes (drop k q) <= total_bytes q.
Proof. rewrite <-(take_drop k q) at 2. rewrite total_bytes_app. lia. Qed.

Definition mailbox (s : RelayStore) (r : key32) : list QueuedMessage := default [] (queues (inner s) !! r).

Definition within_caps (l : StoreLimits) (q : list QueuedMessage) : bool :=
  (length q <=? max_mailbox_messages l) && (total_bytes q <=? max_mailbox_bytes l).

(** Dropping to the count cap and then to the byte cap is dropping to both. *)
Lemma longest_suffix_caps l q :
  longest_suffix (bytes_ok (max_mailbox_bytes l)) (drop (length q - max_mailbox_messages l) q)
  = longest_suffix (within_caps l) q.
Proof.
  unfold within_caps. induction q as [|m q IH]; [done|].
  destruct (Nat.leb_spec (length (m :: q)) (max_mailbox_messages l)) as [Hle|Hgt].
  - replace (length (m :: q) - max_mailbox_messages l) with 0 by lia. cbn [drop longest_suffix].
    rewrite (proj2 (Nat.leb_le _ _) Hle). unfold bytes_ok at 1. cbn [andb].
    destruct (total_bytes (m :: q) <=? max_mailbox_bytes l); [done|].
    cbn [length] in *. by replace (length q - max_mailbox_messages l) with 0 in IH by lia.
  - cbn [longest_suffix]. rewrite (proj2 (Nat.leb_gt _ _) Hgt). cbn [andb length] in *. rewrite <-IH.
    by replace (S (length q) - max_mailbox_messages l) with (S (length q - max_mailbox_messages l)) by lia.
Qed.

Lemma enqueue_ok r m now s :
  length m <= max_message_bytes (limits s) ->
  enqueue_at r m now s
  = (Ok tt, mark_dirty (set_inner s (set_queues (inner s)
      (<[r := longest_suffix (within_caps (limits s)) (mailbox s r ++ [mkQueued now m])]> (queues (inner s)))))).
Proof.
  intros Hlen. unfold enqueue_at. rewrite decide_False by lia.
  by rewrite cap_bytes_suffix, cap_count_drop, longest_suffix_caps.
Qed.

(** Enqueueing against its specification: a message above the size limit
    is refused and nothing changes; any other is appended to its mailbox, which
    keeps the longest suffix that satisfies both the count and the byte cap -- the
    oldest messages go first and no more of them than necessary --, and no other
    mailbox and no published key is touched; a message that fits the caps on its
    own is never the one dropped. *)
Theorem enqueue_keeps_newest r m now s :
  (max_message_bytes (limits s) < length m -> enqueue_at r m now s = (Err MessageTooLarge, s)) /\
  (length m <= max_message_bytes (limits s) ->
   let s' := (enqueue_at r m now s).2 in
   (enqueue_at r m now s).1 = Ok tt /\
   (exists k, mailbox s' r = drop k (mailbox s r ++ [mkQueued now m]) /\
      within_caps (limits s) (mailbox s' r) = true /\
      forall j, j < k -> within_caps (limits s) (drop j (mailbox s r ++ [mkQueued now m])) = false) /\
   (1 <= max_mailbox_messages (limits s) -> length m <= max_mailbox_bytes (limits s) ->
      last (mailbox s' r) = Some (mkQueued now m)) /\
   (forall r', r' <> r -> queues (inner s') !! r' = queues (inner s) !! r') /\
   keys (inner s') = keys (inner s)).
Proof.
  split; [intros Hlen; unfold enqueue_at; by rewrite decide_True|].
  intros Hlen. cbv zeta. rewrite enqueue_ok by done. cbn [fst snd].
  set (q := mailbox s r ++ [mkQueued now m]).
  destruct (longest_suffix_spec (within_caps (limits s)) q) as (k & Hk & Hok & Hmin); [done|].
  assert (mailbox (mark_dirty (set_inner s (set_queues (inner s)
    (<[r:=longest_suffix (within_caps (limits s)) q]> (queues (inner s)))))) r = drop k q) as Hbox.
  { unfold mailbox. cbn. by rewrite lookup_insert_eq, <-Hk. }
  split_and!; [done|exists k; rewrite Hbox; by split_and!| | |done].
  - intros Hone Hbytes. rewrite Hbox. assert (k < length q) as Hlt.
    { apply Nat.nle_gt. intros Hge.
      assert (within_caps (limits s) (drop (length q - 1) q) = false) as Hbad.
      { apply Hmin. unfold q in *. rewrite length_app in *. cbn in *. lia. }
      unfold q in Hbad. rewrite length_app, drop_app_length' in Hbad by (cbn; lia).
      unfold within_caps, total_bytes in Hbad. cbn [length sum_list_with qm_bytes] in Hbad.
      rewrite Nat.add_0_r in Hbad.
      apply andb_false_iff in Hbad as [Hbad|Hbad]; apply Nat.leb_gt in Hbad; lia. }
    unfold q in *. rewrite length_app in Hlt. cbn in Hlt.
    rewrite drop_app_le by lia. apply last_snoc.
  - intros r' Hne. cbn. by apply lookup_insert_ne.
Qed.

(** ** The caps of every mailbox *)

Definition mailbox_ok (l : StoreLimits) (q : list QueuedMessage) : Prop :=
  length q <= max_mailbox_messages l /\ total_bytes q <= max_mailbox_bytes l /\
  Forall (fun m => length (qm_bytes m) <= max_message_bytes l) q.

Definition store_ok (s : RelayStore) : Prop :=
  forall r q, queues (inner s) !! r = Some q -> mailbox_ok (limits s) q.

(** The requests a relay serves, and the flushes of its loop. *)
Inductive store_op `{!Bincode Snapshot} : RelayStore -> RelayStore -> Prop :=
| so_publish b pool s : store_op s (publish b pool s)
| so_fetch id s : store_op s (fetch_bundle id s).2
| so_enqueue r m now s : store_op s (enqueue_at r m now s).2
| so_poll r now s : store_op s (poll_at r now s).2
| so_sweep now s : store_op s (sweep_expired_at now s).2
| so_maybe_flush now io s : store_op s (maybe_flush now io s).1.2
| so_flush now io s : store_op s (flush now io s).1.2.

Lemma mailbox_ok_sublist l q q' : q' `sublist_of` q -> mailbox_ok l q -> mailbox_ok l q'.
Proof.
  intros Hsub (Hc & Hb & Hm). split_and!.
  - pose proof (sublist_length _ _ Hsub). lia.
  - clear Hc Hm. enough (total_bytes q' <= total_bytes q) by lia. clear Hb.
    unfold total_bytes. induction Hsub; cbn; lia.
  - clear Hc Hb. induction Hsub; rewrite ?Forall_cons in *; tauto.
Qed.

Lemma filter_sublist {A} (f : A -> bool) l : List.filter f l `sublist_of` l.
Proof. induction l as [|x l IH]; cbn; [constructor|]. destruct (f x); by constructor. Qed.

Lemma flush_inner `{!Bincode Snapshot} now io s :
  inner (maybe_flush now io s).1.2 = inner s /\ limits (maybe_flush now io s).1.2 = limits s.
Proof.
  unfold maybe_flush. destruct (persistence s); [|done]. case_decide; [done|].
  destruct (io _); [done|]. by destruct (io _).
Qed.

Lemma store_op_ok `{!Bincode Snapshot} s s' :
  store_op s s' -> store_ok s -> store_ok s' /\ limits s' = limits s.
Proof.
  intros Hop Hs. revert Hs. destruct Hop as [b pool s|id s|r m now s|r now s|now s|now io s|now io s]; intros Hs.
  - done.
  - unfold fetch_bundle. destruct (keys (inner s) !! id) as [k|]; [|done]. by destruct (one_time k) as [|[i p] rest].
  - destruct (decide (length m <= max_message_bytes (limits s))) as [Hle|Hgt].
    2:{ unfold enqueue_at. by rewrite decide_True by lia. }
    rewrite enqueue_ok by done. split; [|done]. intros r' q. cbn. rewrite lookup_insert_Some.
    intros [[<- <-]|[_ Hq]]; [|by apply (Hs r')].
    set (l := limits s) in *. set (q := _ ++ _).
    destruct (longest_suffix_spec (within_caps l) q) as (k & -> & Hok & _); [done|].
    apply andb_true_iff in Hok as [Hc Hb]. apply Nat.leb_le in Hc, Hb. split_and!; [done|done|].
    apply Forall_drop. unfold q, mailbox. apply Forall_app. split; [|by constructor].
    destruct (queues (inner s) !! r) as [q0|] eqn:Hq0; cbn; [|constructor]. by apply (Hs _ _ Hq0).
  - unfold poll_at. destruct (queues (inner s) !! r) as [q|]; [|done]. split; [|done].
    intros r' q'. cbn. intros [_ Hq']%lookup_delete_Some. by apply (Hs r').
  - unfold sweep_expired_at. split; [|by case_decide].
    assert (forall s1, queues (inner s1) = omap (retain_queue (wsat_sub now (mail_ttl_secs (limits s)))) (queues (inner s)) ->
      limits s1 = limits s -> store_ok s1) as Hgen.
    { intros s1 Hq1 Hl r q. rewrite Hq1, Hl, lookup_omap_Some. intros (q0 & Hret & Hq0).
      unfold retain_queue in Hret. destruct (List.filter _ q0) as [|m q'] eqn:Hf; [done|]. injection Hret as <-.
      eapply mailbox_ok_sublist; [|by apply (Hs r)]. rewrite <-Hf. apply filter_sublist. }
    cbn. case_decide; by apply Hgen.
  - destruct (flush_inner now io s) as [Hi Hl]. unfold store_ok. by rewrite Hi, Hl.
  - unfold flush. set (s1 := set_persistence _ _). destruct (flush_inner now io s1) as [Hi Hl].
    unfold store_ok. by rewrite Hi, Hl.
Qed.

(** C24: the bounds of the store: from an empty store kept in memory, whatever
    requests are served, with whatever clock readings, no mailbox ever holds more
    messages, more bytes or a larger message than the limits the store was created
    with. *)
Theorem store_caps_invariant `{!Bincode Snapshot} l s r q :
  star store_op (with_limits l) s -> queues (inner s) !! r = Some q ->
  length q <= max_mailbox_messages l /\ total_bytes q <= max_mailbox_bytes l /\
  Forall (fun m => length (qm_bytes m) <= max_message_bytes l) q.
Proof.
  intros Hstar Hq.
  assert (store_ok s /\ limits s = l) as [Hok Hl].
  { apply (star_invariant store_op (fun s => store_ok s /\ limits s = l)) with (2 := Hstar).
    - intros a b [Ha Hla] Hop. destruct (store_op_ok _ _ Hop Ha) as [? ->]. done.
    - split; [|done]. intros r' q'. cbn. by rewrite lookup_empty. }
  rewrite <-Hl. exact (Hok r q Hq).
Qed.

(** ** Delivery and expiry *)

(** Messages and arrival times, handed to one mailbox in turn. *)
Definition enqueue_all (r : key32) (ms : list QueuedMessage) (s : RelayStore) : RelayStore :=
  foldl (fun s m => (enqueue_at r (qm_bytes m) (enqueued_at m) s).2) s ms.

Definition cutoff (now : u64) (s : RelayStore) : u64 := wsat_sub now (mail_ttl_secs (limits s)).

Lemma within_caps_prefix l q q' : within_caps l (q ++ q') = true -> within_caps l q = true.
Proof.
  unfold within_caps. rewrite !andb_true_iff, !Nat.leb_le, length_app, total_bytes_app. lia.
Qed.

Lemma longest_suffix_all {A} (ok : list A -> bool) q : ok q = true -> longest_suffix ok q = q.
Proof. intros Hq. destruct q; cbn; by rewrite Hq. Qed.

Lemma enqueue_all_mailbox r ms s :
  Forall (fun m => length (qm_bytes m) <= max_message_bytes (limits s)) ms ->
  within_caps (limits s) (mailbox s r ++ ms) = true ->
  mailbox (enqueue_all r ms s) r = mailbox s r ++ ms /\
  limits (enqueue_all r ms s) = limits s /\ keys (inner (enqueue_all r ms s)) = keys (inner s) /\
  (ms <> [] -> is_Some (queues (inner (enqueue_all r ms s)) !! r)) /\
  (forall r', r' <> r -> queues (inner (enqueue_all r ms s)) !! r' = queues (inner s) !! r').
Proof.
  revert s. induction ms as [|m ms IH]; intros s Hsz Hcap; cbn [enqueue_all foldl].
  - by rewrite app_nil_r.
  - apply Forall_cons in Hsz as [Hm Hsz]. fold (enqueue_all r ms (enqueue_at r (qm_bytes m) (enqueued_at m) s).2).
    rewrite enqueue_ok by done. cbn [snd]. rewrite longest_suffix_all.
    2:{ apply (within_caps_prefix _ _ ms). rewrite <-app_assoc. by destruct m. }
    set (s1 := mark_dirty _).
    assert (mailbox s1 r = mailbox s r ++ [m]) as Hbox.
    { unfold mailbox at 1. cbn. rewrite lookup_insert_eq. by destruct m. }
    destruct (IH s1) as (H1 & H2 & H3 & H4 & H5); [done|by rewrite Hbox, <-app_assoc|].
    split_and!; [by rewrite H1, Hbox, <-app_assoc|done|done| |].
    + intros _. destruct ms as [|m' ms]; [|by apply H4]. cbn. rewrite lookup_insert_eq. eauto.
    + intros r' Hne. rewrite H5 by done. cbn. by apply lookup_insert_ne.
Qed.

(** C25: store and forward: messages enqueued for a mailbox come out of the
    next poll after what it held before, all of them, in the order they arrived
    and byte for byte, except those older than the time to live; the mailbox is
    empty afterwards and a second poll returns nothing; polling changes no other
    mailbox. *)
Theorem mailbox_delivers r ms s now now' :
  Forall (fun m => length (qm_bytes m) <= max_message_bytes (limits s)) ms ->
  within_caps (limits s) (mailbox s r ++ ms) = true ->
  let '(out, s') := poll_at r now (enqueue_all r ms s) in
  out = map qm_bytes (List.filter (fresh_enough (cutoff now s)) (mailbox s r ++ ms)) /\
  mailbox s' r = [] /\ poll_at r now' s' = ([], s') /\
  (forall r', r' <> r -> mailbox s' r' = mailbox s r').
Proof.
  intros Hsz Hcap. destruct (enqueue_all_mailbox r ms s Hsz Hcap) as (Hbox & Hlim & _ & _ & Hother).
  set (s1 := enqueue_all r ms s) in *. unfold mailbox in Hbox at 1.
  unfold poll_at at 1. rewrite Hlim. fold (cutoff now s).
  destruct (queues (inner s1) !! r) as [q|] eqn:Hq; cbn in Hbox.
  - split_and!; [by rewrite Hbox| | |].
    + unfold mailbox. cbn. by rewrite lookup_delete_eq.
    + unfold poll_at. cbn. by rewrite lookup_delete_eq.
    + intros r' Hne. unfold mailbox. cbn. rewrite lookup_delete_ne by done. by rewrite Hother.
  - split_and!; [by rewrite <-Hbox| | |].
    + unfold mailbox. by rewrite Hq.
    + unfold poll_at. by rewrite Hq.
    + intros r' Hne. unfold mailbox. by rewrite Hother.
Qed.

Lemma filter_filter {A} (f g : A -> bool) l :
  (forall x, f x = true -> g x = true) -> List.filter f (List.filter g l) = List.filter f l.
Proof.
  intros Hfg. induction l as [|x l IH]; cbn; [done|].
  destruct (g x) eqn:Hg; cbn; [by rewrite IH|]. destruct (f x) eqn:Hf; [|done].
  by rewrite Hfg in Hg.
Qed.

Lemma fresh_enough_mono c c' m : (wval c <= wval c')%N -> fresh_enough c' m = true -> fresh_enough c m = true.
Proof. unfold fresh_enough. rewrite !N.leb_le. lia. Qed.

(** Sweeping is invisible to the owner of a mailbox: a later poll returns
    exactly what it would have returned without the sweep; the sweep leaves no
    expired message and no empty mailbox, keeps the rest in order, and does
    nothing to the published keys. *)
Theorem sweep_is_transparent r now now' s :
  (wval now <= wval now')%N ->
  let s' := (sweep_expired_at now s).2 in
  (poll_at r now' s').1 = (poll_at r now' s).1 /\
  (forall r q, queues (inner s') !! r = Some q ->
     q <> [] /\ q = List.filter (fresh_enough (cutoff now s)) (mailbox s r) /\
     Forall (fun m => (wval (cutoff now s) <= wval (enqueued_at m))%N) q) /\
  keys (inner s') = keys (inner s).
Proof.
  intros Hle. cbv zeta. unfold sweep_expired_at. fold (cutoff now s). set (removed := map_fold _ _ _).
  assert (exists s', (removed, if decide (0 < removed) then mark_dirty (set_inner s (set_queues (inner s)
      (omap (retain_queue (cutoff now s)) (queues (inner s))))) else
      set_inner s (set_queues (inner s) (omap (retain_queue (cutoff now s)) (queues (inner s))))) = (removed, s') /\
    queues (inner s') = omap (retain_queue (cutoff now s)) (queues (inner s)) /\
    keys (inner s') = keys (inner s) /\ limits s' = limits s) as (s' & -> & Hq & Hk & Hl).
  { eexists. split; [done|]. by case_decide. }
  cbn [snd]. assert (wval (cutoff now s) <= wval (cutoff now' s))%N as Hcut.
  { unfold cutoff. rewrite !wval_wsat_sub. lia. }
  split_and!; [| |done].
  - unfold poll_at. rewrite Hq, Hl, lookup_omap. fold (cutoff now' s).
    destruct (queues (inner s) !! r) as [q|]; cbn; [|done]. unfold retain_queue.
    pose proof (filter_filter (fresh_enough (cutoff now' s)) (fresh_enough (cutoff now s)) q
      (fun m => fresh_enough_mono _ _ m Hcut)) as Hff.
    destruct (List.filter (fresh_enough (cutoff now s)) q); cbn; by rewrite <-Hff.
  - intros r' q. rewrite Hq, lookup_omap_Some. intros (q0 & Hret & Hq0). unfold retain_queue in Hret.
    unfold mailbox. rewrite Hq0. cbn.
    destruct (List.filter (fresh_enough (cutoff now s)) q0) as [|m q'] eqn:Hf; [done|]. injection Hret as <-.
    split_and!; [done|done|]. rewrite <-Hf. apply Forall_forall. intros x Hx%list_elem_of_In.
    apply filter_In in Hx as [_ Hx]. by apply N.leb_le.
Qed.

(** ** The directory *)

Fixpoint fetch_many (n : nat) (id : key32) (s : RelayStore) : list (option PreKeyBundle) * RelayStore :=
  match n with
  | O => ([], s)
  | S n => let '(b, s) := fetch_bundle id s in let '(bs, s) := fetch_many n id s in (b :: bs, s)
  end.

(** What the [i]-th fetch after a publication returns. *)
Definition dispensed (b : PreKeyBundle) (pool : list (u32 * key32)) (i : nat) : option PreKeyBundle :=
  Some match pool !! i with
       | Some (id, public) => with_one_time b id public
       | None => b
       end.

Lemma fetch_many_dispenses n id s b pool :
  keys (inner s) !! id = Some (mkKeys b pool) ->
  (fetch_many n id s).1 = map (dispensed b pool) (seq 0 n) /\
  keys (inner (fetch_many n id s).2) !! id = Some (mkKeys b (drop n pool)).
Proof.
  revert s pool. induction n as [|n IH]; intros s pool Hs; [by rewrite drop_0|].
  cbn [fetch_many]. unfold fetch_bundle. rewrite Hs. cbn [one_time base_bundle].
  destruct pool as [|[i p] pool].
  - destruct (IH s [] Hs) as [Hl Hk]. destruct (fetch_many n id s) as [bs s']. cbn in *.
    split; [|by rewrite drop_nil in *]. rewrite Hl, <-seq_shift, map_map. done.
  - set (s1 := mark_dirty _). destruct (IH s1 pool) as [Hl Hk].
    { cbn. apply lookup_insert_eq. }
    destruct (fetch_many n id s1) as [bs s']. cbn in *. split; [|done].
    rewrite Hl, <-seq_shift, map_map. done.
Qed.

(** C27: the directory hands out each one-time prekey once: after a
    publication the fetches return the published bundle with the pool's prekeys
    in order, one each, and without any once the pool is empty; what is returned
    verifies exactly if the published bundle does; distinct ids in the pool are
    never handed out twice; and other identities' entries are not touched. *)
Theorem directory_dispenses_once `{X25519, Ed25519} base pool s n :
  let id := pb_identity_ed base in
  let s1 := publish base pool s in
  let '(bs, s') := fetch_many n id s1 in
  bs = map (dispensed (without_one_time base) pool) (seq 0 n) /\
  one_time_remaining id s' = length pool - n /\
  (forall b, Some b ∈ bs -> verify_bundle b = verify_bundle base) /\
  (NoDup pool.*1 -> forall i j b b' x, bs !! i = Some (Some b) -> bs !! j = Some (Some b') ->
     pb_one_time_prekey_id b = Some x -> pb_one_time_prekey_id b' = Some x -> i = j).
Proof.
  cbv zeta. set (id := pb_identity_ed base).
  pose proof (fetch_many_dispenses n id (publish base pool s) (without_one_time base) pool) as Hf.
  destruct (fetch_many n id _) as [bs s']. cbn [fst snd] in Hf.
  destruct Hf as [-> Hk]; [cbn; apply lookup_insert_eq|]. split_and!; [done| | |].
  - unfold one_time_remaining. rewrite Hk. cbn. by rewrite length_drop.
  - intros b Hb. apply list_elem_of_fmap in Hb as (i & [= ->] & _).
    by destruct (pool !! i) as [[i' p]|].
  - intros Hnd i j b b' x Hi Hj Hx Hx'.
    assert (forall i b, map (dispensed (without_one_time base) pool) (seq 0 n) !! i = Some (Some b) ->
      pb_one_time_prekey_id b = Some x -> exists p, pool !! i = Some (x, p)) as Hget.
    { clear. intros i b Hi Hx. rewrite list_lookup_fmap in Hi.
      destruct (seq 0 n !! i) as [i'|] eqn:Hs; [|done]. apply lookup_seq in Hs as [-> _].
      cbn in Hi. injection Hi as <-. destruct (pool !! i) as [[i' p]|]; cbn in Hx; [|done].
      injection Hx as ->. eauto. }
    destruct (Hget _ _ Hi Hx) as [p Hp], (Hget _ _ Hj Hx') as [p' Hp'].
    apply (NoDup_lookup _ _ _ x Hnd); by rewrite list_lookup_fmap, ?Hp, ?Hp'.
Qed.

(** ** A concrete store *)
Module RelayDemo.
Import Demo WireDemo.

#[export] Instance queued_codec : Codec QueuedMessage :=
  iso_codec (fun m => (enqueued_at m, qm_bytes m)) (fun '(a, b) => mkQueued a b) ltac:(by intros []).
#[export] Instance keys_codec : Codec StoredKeys :=
  iso_codec (fun k => (base_bundle k, one_time k)) (fun '(a, b) => mkKeys a b) ltac:(by intros []).
#[export] Instance gmap_codec `{Countable K, Codec K, Codec V} : Codec (gmap K V) :=
  iso_codec (map_to_list (M := gmap K V)) list_to_map (list_to_map_to_list (M := gmap K)).
#[export] Instance inner_codec : Codec Inner :=
  iso_codec (fun i => (keys i, queues i)) (fun '(a, b) => mkInner a b) ltac:(by intros []).
#[export] Instance snapshot_codec : Codec Snapshot :=
  iso_codec (fun s => (version s, snapshot_inner s)) (fun '(a, b) => mkSnapshot a b) ltac:(by intros []).

(** Ten seconds to live, messages of at most four bytes, two messages and six
    bytes to a mailbox. *)
Definition small : StoreLimits := mkLimits (wrap 64 10) 4 2 6.
Definition letter (t : N) (l : list N) : QueuedMessage := mkQueued (wrap 64 t) (bytes l).
Definition served : RelayStore :=
  enqueue_all (key 1) [letter 0 [1; 1]; letter 20 [2; 2; 2]; letter 25 [3]]%N (with_limits small).
End RelayDemo.

Import Demo WireDemo RelayDemo.

(** Three messages for a mailbox of two. *)
Lemma store_caps_invariant_witness :
  exists q, queues (inner served) !! key 1 = Some q /\
  length q <= max_mailbox_messages small /\ total_bytes q <= max_mailbox_bytes small /\
  Forall (fun m => length (qm_bytes m) <= max_message_bytes small) q.
Proof.
  exists [letter 20 [2; 2; 2]; letter 25 [3]]%N. split; [vm_compute; reflexivity|].
  apply (store_caps_invariant small served (key 1)).
  - apply star_step with (2 := so_enqueue (key 1) (bytes [3]%N) (wrap 64 25) _).
    apply star_step with (2 := so_enqueue (key 1) (bytes [2; 2; 2]%N) (wrap 64 20) _).
    apply star_step with (2 := so_enqueue (key 1) (bytes [1; 1]%N) (wrap 64 0) _).
    apply star_refl.
  - vm_compute. reflexivity.
Defined.

Lemma mailbox_delivers_witness :
  let ms := [letter 0 [1; 1]; letter 20 [2; 2; 2]]%N in
  let '(out, s') := poll_at (key 1) (wrap 64 25) (enqueue_all (key 1) ms (with_limits small)) in
  out = map qm_bytes (List.filter (fresh_enough (cutoff (wrap 64 25) (with_limits small)))
                        (mailbox (with_limits small) (key 1) ++ ms)) /\
  mailbox s' (key 1) = [] /\ poll_at (key 1) (wrap 64 25) s' = ([], s') /\
  (forall r', r' <> key 1 -> mailbox s' r' = mailbox (with_limits small) r').
Proof.
  cbv zeta. apply (mailbox_delivers (key 1) [letter 0 [1; 1]; letter 20 [2; 2; 2]]%N (with_limits small)).
  - repeat constructor; cbn; lia.
  - vm_compute. reflexivity.
Defined.

Lemma sweep_is_transparent_witness :
  let s' := (sweep_expired_at (wrap 64 15) served).2 in
  (poll_at (key 1) (wrap 64 26) s').1 = (poll_at (key 1) (wrap 64 26) served).1 /\
  (forall r q, queues (inner s') !! r = Some q ->
     q <> [] /\ q = List.filter (fresh_enough (cutoff (wrap 64 15) served)) (mailbox served r) /\
     Forall (fun m => (wval (cutoff (wrap 64 15) served) <= wval (enqueued_at m))%N) q) /\
  keys (inner s') = keys (inner served).
Proof. apply (sweep_is_transparent (key 1)). vm_compute. discriminate. Defined.
