(* ===== verification/RelayPersistence.v ===== *)
(** * Durability of the relay's store (relay/src/store.rs)

    What is on disk after a flush, a failed flush or a crash in the middle of
    one, and the dirty flag when requests and flushes interleave. *)
From S2P Require Import Prelude Words Primitives Wire PqKem Identity Demo RelayStore RelayStoreProps.

Section Persistence.
Context `{!Bincode Snapshot, !BincodeLaws Snapshot}.

(** ** The disk *)

Definition apply_op (o : disk_op) (d : Disk) : Disk :=
  match o with
  | WriteFile p bytes => fun q => if decide (q = p) then Ok bytes else d q
  | RenameFile from to =>
      fun q => if decide (q = to) then d from else if decide (q = from) then Err NotFound else d q
  end.

Definition apply_ops (os : list disk_op) (d : Disk) : Disk := foldl (fun d o => apply_op o d) d os.

(** What a crash or an error while the operations [os] are attempted can leave:
    some of them done, and the next one, if it is a write, torn. A rename is
    atomic. *)
Inductive interrupted (os : list disk_op) (d : Disk) : Disk -> Prop :=
| interrupted_between k : interrupted os d (apply_ops (take k os) d)
| interrupted_write k p bytes torn :
    os !! k = Some (WriteFile p bytes) ->
    interrupted os d (apply_op (WriteFile p torn) (apply_ops (take k os) d)).

Lemma open_snapshot d now p l i :
  d p = Ok (snapshot_bytes i) -> store_open d now p l = Ok (mkStore i l (Some (mkPersistence p false now))).
Proof.
  intros Hd. unfold store_open, read_file. rewrite Hd. unfold snapshot_bytes. rewrite bincode_roundtrip.
  cbn [map_err rbind version snapshot_inner]. by rewrite decide_False by tauto.
Qed.

(** The operations of a flush: nothing, or the write to the temporary file and,
    unless that failed, the rename. *)
Lemma maybe_flush_cases now io s p :
  persistence s = Some p ->
  let tmp := with_extension (path p) "tmp" in
  let w := WriteFile tmp (snapshot_bytes (inner s)) in
  let mv := RenameFile tmp (path p) in
  maybe_flush now io s = (Ok tt, s, []) \/
  (exists e, maybe_flush now io s = (Err e, s, [w])) \/
  (exists e, maybe_flush now io s = (Err e, s, [w; mv])) \/
  maybe_flush now io s
    = (Ok tt, set_persistence s (Some (mkPersistence (path p) false now)), [w; mv]).
Proof.
  intros Hp. cbv zeta. unfold maybe_flush. rewrite Hp. case_decide; [by left|right].
  destruct (io (WriteFile _ _)) as [e|]; [by left; exists e|right].
  destruct (io (RenameFile _ _)) as [e|]; [left; by exists e|by right].
Qed.

Lemma with_extension_ne p : p_ext p <> Some "tmp"%string -> p <> with_extension p "tmp".
Proof. intros Hne Heq. apply Hne. by rewrite Heq. Qed.

Lemma interrupted_path s p os d d' :
  p_ext (path p) <> Some "tmp"%string ->
  let tmp := with_extension (path p) "tmp" in
  let w := WriteFile tmp (snapshot_bytes (inner s)) in
  let mv := RenameFile tmp (path p) in
  os = [] \/ os = [w] \/ os = [w; mv] -> interrupted os d d' ->
  d' (path p) = d (path p) \/ d' (path p) = Ok (snapshot_bytes (inner s)).
Proof.
  intros Hext%with_extension_ne tmp w mv Hos Hd.
  assert (forall d0 bytes, apply_op (WriteFile tmp bytes) d0 (path p) = d0 (path p)) as Hw.
  { intros d0 bytes. cbn. by rewrite decide_False. }
  assert (apply_op mv (apply_op w d) (path p) = Ok (snapshot_bytes (inner s))) as Hmv.
  { cbn. rewrite decide_True by done. by rewrite decide_True. }
  destruct Hd as [k|k q bytes torn Hk].
  - destruct Hos as [->|[->| ->]]; destruct k as [|[|k]]; cbn [take apply_ops foldl]; eauto.
    rewrite take_nil. cbn [foldl]. eauto.
  - assert (k = 0 /\ q = tmp) as [-> ->].
    { destruct Hos as [->|[->| ->]]; destruct k as [|[|k]]; cbn in Hk; try done; split; try done; by injection Hk. }
    left. cbn [take apply_ops foldl]. apply Hw.
Qed.

(** C11: crash consistency: whenever a flush is attempted, and wherever it is
    cut off, the snapshot file holds either what it held before or the whole
    current state, never a torn or mixed one, and opening it gives back that
    state; a flush that fails leaves the store as it was, dirty, so that the next
    one tries again; one that succeeds with the store dirty has put the current
    state on disk. *)
Theorem flush_crash_consistent now io s p d :
  persistence s = Some p -> p_ext (path p) <> Some "tmp"%string ->
  let '(res, s', os) := maybe_flush now io s in
  (forall d', interrupted os d d' -> d' (path p) = d (path p) \/ d' (path p) = Ok (snapshot_bytes (inner s))) /\
  (forall d' now' l, d' (path p) = Ok (snapshot_bytes (inner s)) ->
     store_open d' now' (path p) l = Ok (mkStore (inner s) l (Some (mkPersistence (path p) false now')))) /\
  (forall e, res = Err e -> s' = s) /\
  (res = Ok tt -> dirty p = true -> (FLUSH_INTERVAL_SECS <= elapsed_secs now (last_flush p))%N ->
     apply_ops os d (path p) = Ok (snapshot_bytes (inner s)) /\
     persistence s' = Some (mkPersistence (path p) false now) /\ inner s' = inner s).
Proof.
  intros Hp Hext. pose proof (with_extension_ne _ Hext) as Hne.
  assert (forall os d', os = [] \/ os = [WriteFile (with_extension (path p) "tmp") (snapshot_bytes (inner s))] \/
    os = [WriteFile (with_extension (path p) "tmp") (snapshot_bytes (inner s));
          RenameFile (with_extension (path p) "tmp") (path p)] ->
    interrupted os d d' -> d' (path p) = d (path p) \/ d' (path p) = Ok (snapshot_bytes (inner s))) as Hint.
  { intros os d' Hos. by apply interrupted_path. }
  pose proof (fun d' now' l => open_snapshot d' now' (path p) l (inner s)) as Hopen.
  destruct (maybe_flush_cases now io s p Hp) as [Heq|[[e Heq]|[[e Heq]|Heq]]];
    rewrite Heq; (split; [intros d'; apply Hint; tauto|split; [exact Hopen|split; [done|]]]); try done.
  - intros _ Hdirty Hel. exfalso. unfold maybe_flush in Heq. rewrite Hp in Heq.
    rewrite decide_False in Heq; [|intros [Hd|Hlt]; [by rewrite Hd in Hdirty|lia]].
    destruct (io (WriteFile _ _)); [done|]. by destruct (io (RenameFile _ _)).
  - intros _ _ _. split_and!; [|done|done]. cbn. by rewrite !decide_True.
Qed.

(** What [open] makes of a file: a missing file is an empty store, a
    snapshot of another version and bytes that do not decode are refused, and
    every other read error is passed on; nothing else is refused. *)
Theorem open_cases d now p l :
  match store_open d now p l with
  | Ok s => limits s = l /\ persistence s = Some (mkPersistence p false now) /\
      ((d p = Err NotFound /\ inner s = Inner_default) \/
       (exists bytes snap, d p = Ok bytes /\ bincode_deserialize bytes = Ok snap /\
          version snap = SNAPSHOT_VERSION /\ inner s = snapshot_inner snap))
  | Err e => (d p = Err e /\ e <> NotFound) \/
      (exists bytes, d p = Ok bytes /\ exists text, e = Other text /\
         forall snap, bincode_deserialize bytes = Ok snap -> version snap <> SNAPSHOT_VERSION)
  end.
Proof.
  unfold store_open, read_file. destruct (d p) as [bytes|e] eqn:Hd.
  - destruct (bincode_deserialize bytes) as [snap|text] eqn:Hs; cbn [map_err rbind].
    + case_decide as Hv.
      * right. exists bytes. split; [done|]. eexists. split; [done|]. intros snap'. by rewrite Hs; intros [= <-].
      * split_and!; [done|done|]. right. exists bytes, snap. by split_and!.
    + right. exists bytes. split; [done|]. eexists. split; [done|]. intros snap. by rewrite Hs.
  - destruct e; [by split_and!; eauto|by left|by left].
Qed.

(** [flush] writes the current state whatever the dirty flag and the
    throttle say, provided the monotonic clock is at least two seconds past the
    earliest instant of the platform; before that the instant it needs cannot be
    represented, and it returns [Ok] without writing anything. *)
Theorem flush_forces_write now io s p d :
  persistence s = Some p -> p_ext (path p) <> Some "tmp"%string ->
  ((2000000000 <= now)%N -> (forall o, io o = None) ->
     let '(res, s', os) := flush now io s in
     res = Ok tt /\ apply_ops os d (path p) = Ok (snapshot_bytes (inner s)) /\ inner s' = inner s) /\
  ((now < 2000000000)%N -> exists s', flush now io s = (Ok tt, s', [])).
Proof.
  intros Hp Hext. pose proof (with_extension_ne _ Hext) as Hne. unfold flush, checked_sub.
  change ((FLUSH_INTERVAL_SECS + 1) * 1000000000)%N with 2000000000%N. rewrite Hp.
  split; intros Hnow.
  - intros Hio. rewrite (proj2 (N.ltb_ge _ _) Hnow). cbn [default option_map]. unfold maybe_flush. cbn [persistence set_persistence].
    rewrite decide_False.
    2:{ intros [?|Hlt]; [done|]. cbn [last_flush] in Hlt. unfold elapsed_secs, FLUSH_INTERVAL_SECS, id in Hlt.
        replace (now - (now - 2000000000))%N with 2000000000%N in Hlt by lia.
        change (2000000000 / 1000000000)%N with 2%N in Hlt. lia. }
    rewrite !Hio. split_and!; [done| |done]. cbn. by rewrite !decide_True.
  - rewrite (proj2 (N.ltb_lt _ _) Hnow). cbn [default option_map]. unfold maybe_flush. cbn [persistence set_persistence].
    rewrite decide_True; [eauto|]. right. cbn [last_flush]. unfold elapsed_secs. by rewrite N.sub_diag.
Qed.
End Persistence.

(** ** The dirty flag under concurrency

    Requests change the state under one lock and set the dirty flag under
    another, afterwards; a flush holds the second lock from reading the flag to
    clearing it and reads the state in between. *)

(** Two states no request can tell apart: an empty mailbox is as good as none. *)
#[export] Instance Inner_equiv : Equiv Inner := fun i j =>
  keys i = keys j /\ forall r, default [] (queues i !! r) = default [] (queues j !! r).

#[export] Instance Inner_equivalence : Equivalence (≡@{Inner}).
Proof.
  split.
  - by intros i.
  - intros i j [Hk Hq]. split; [done|]. intros r. by rewrite Hq.
  - intros i j k [Hk Hq] [Hk' Hq']. split; [congruence|]. intros r. by rewrite Hq.
Qed.

Section Concurrency.
Context `{!Bincode Snapshot, !BincodeLaws Snapshot}.
Variables (l : StoreLimits) (file : Path).

Definition store_at (i : Inner) (p : Persistence) : RelayStore := mkStore i l (Some p).
(** The store as a request finds it, its flag clear. *)
Definition clean_store (i : Inner) : RelayStore := store_at i (mkPersistence file false 0%N).
Definition marked (s : RelayStore) : bool :=
  match persistence s with Some p => dirty p | None => false end.

(** A request takes the state [i] to a state and does or does not mark it. *)
Inductive request (i : Inner) : RelayStore -> Prop :=
| rq_publish b pool : request i (publish b pool (clean_store i))
| rq_fetch id : request i (fetch_bundle id (clean_store i)).2
| rq_enqueue r m now : request i (enqueue_at r m now (clean_store i)).2
| rq_poll r now : request i (poll_at r now (clean_store i)).2
| rq_sweep now : request i (sweep_expired_at now (clean_store i)).2.

Record shared := mkShared {
  memory : Inner;
  disk : Disk;
  pers : Persistence;
  unmarked : nat;              (** requests past the first lock, before the second *)
  writing : option Inner       (** a flush under way, and the state it read *)
}.

(** [il_force] is the first half of [flush]; a flush under way holds the lock
    that [il_mark] and [il_force] wait for. What a failed flush leaves on the disk
    is any interruption of what it attempted. *)
Inductive interleave : shared -> shared -> Prop :=
| il_request m d p u w s :
    request m s ->
    interleave (mkShared m d p u w) (mkShared (inner s) d p (if marked s then S u else u) w)
| il_mark m d p u : interleave (mkShared m d p (S u) None) (mkShared m d (set_dirty p true) u None)
| il_force m d p u last : interleave (mkShared m d p u None) (mkShared m d (mkPersistence (path p) true last) u None)
| il_flush_begin m d p u : interleave (mkShared m d p u None) (mkShared m d p u (Some m))
| il_flush_end m d p u i now io res s p' os d' :
    maybe_flush now io (store_at i p) = (res, s, os) -> persistence s = Some p' ->
    match res with Ok _ => d' = apply_ops os d | Err _ => interrupted os d d' end ->
    interleave (mkShared m d p u (Some i)) (mkShared m d' p' u None).

Lemma map_fold_sum_zero (f : list QueuedMessage -> nat) (m : gmap key32 (list QueuedMessage)) :
  map_fold (fun _ q n => f q + n) 0 m = 0 -> forall r q, m !! r = Some q -> f q = 0.
Proof.
  apply (map_fold_weak_ind (fun n m => n = 0 -> forall r q, m !! r = Some q -> f q = 0)).
  - intros _ r q. by rewrite lookup_empty.
  - intros r q m' n Hr IH Hn r' q'. rewrite lookup_insert_Some.
    intros [[<- <-]|[_ Hq']]; [lia|]. eapply IH; [lia|done].
Qed.

Lemma filter_all_length {A} (f : A -> bool) x :
  length x - length (List.filter f x) = 0 -> List.filter f x = x.
Proof.
  induction x as [|a x IH]; cbn; [done|].
  pose proof (List.filter_length_le f x). destruct (f a); cbn; intros Hl; [by rewrite IH by lia|lia].
Qed.

(** What does not mark the state does not change it. *)
Lemma request_unmarked i s : request i s -> marked s = false -> inner s ≡ i.
Proof.
  intros Hr. destruct Hr as [b pool|id|r m now|r now|now]; intros Hm.
  - done.
  - unfold fetch_bundle in *. cbn in *. destruct (keys i !! id) as [k|]; [|done]. by destruct (one_time k) as [|[? ?] ?].
  - unfold enqueue_at in *. by case_decide.
  - unfold poll_at in *. cbn in *. by destruct (queues i !! r).
  - unfold sweep_expired_at in *. cbn [snd] in *. case_decide as Hpos; [done|].
    split; [done|]. intros r. cbn. rewrite lookup_omap.
    destruct (queues i !! r) as [q|] eqn:Hq; cbn; [|done].
    set (c := wsat_sub now _) in *.
    assert (expired_count c q = 0) as Hzero.
    { eapply map_fold_sum_zero; [|exact Hq]. cbn in Hpos. unfold expired_count in *. lia. }
    unfold expired_count in Hzero. apply filter_all_length in Hzero. unfold retain_queue. rewrite Hzero.
    by destruct q.
Qed.

(** Opening the file gives back a state no request can tell from [m]. *)
Definition recovers (d : Disk) (m : Inner) : Prop :=
  forall now, exists i, store_open d now file l = Ok (store_at i (mkPersistence file false now)) /\ i ≡ m.

Lemma recovers_proper d m m' : recovers d m -> m' ≡ m -> recovers d m'.
Proof. intros Hr Heq now. destruct (Hr now) as (i & Ho & Hi). exists i. split; [done|]. by rewrite Heq. Qed.

Lemma store_open_recovers d now i p :
  store_open d now file l = Ok (store_at i p) -> path p = file /\ recovers d i.
Proof.
  intros Hopen. assert (forall now', exists p', store_open d now' file l = Ok (store_at i p') /\
    p' = mkPersistence file false now' /\ path p = file) as Hany.
  { intros now'. revert Hopen. unfold store_open. destruct (read_file d file) as [bs|e].
    - destruct (map_err _ _) as [sn|e]; cbn [rbind]; [|done]. case_decide; [done|].
      intros [= <- <-]. eexists. by split_and!.
    - destruct e; try done. intros [= <- <-]. eexists. by split_and!. }
  split; [by destruct (Hany now) as (? & _ & _ & ?)|].
  intros now'. destruct (Hany now') as (p' & Ho & -> & _). exists i. by split.
Qed.

Definition flag_ok (c : shared) : Prop :=
  path (pers c) = file /\
  (dirty (pers c) = false -> unmarked c = 0 -> recovers (disk c) (memory c)) /\
  (forall i, writing c = Some i -> unmarked c = 0 -> memory c ≡ i).

Lemma flush_end_ok m d p u i now io res s p' os d' :
  flag_ok (mkShared m d p u (Some i)) ->
  maybe_flush now io (store_at i p) = (res, s, os) -> persistence s = Some p' ->
  match res with Ok _ => d' = apply_ops os d | Err _ => interrupted os d d' end ->
  flag_ok (mkShared m d' p' u None).
Proof.
  intros (Hpath & Hclean & Hread) Hflush Hp' Hd'. unfold flag_ok. cbn [pers disk memory unmarked writing] in *.
  destruct (maybe_flush_cases now io (store_at i p) p eq_refl) as [Hc|[[e Hc]|[[e Hc]|Hc]]];
    rewrite Hc in Hflush; apply pair_equal_spec in Hflush as [[<- <-]%pair_equal_spec <-];
    cbn in Hp'; injection Hp' as <-; (split; [done|]); (split; [|done]).
  - by subst d'.
  - intros Hdirty. exfalso. revert Hc. unfold maybe_flush. cbn. by rewrite decide_True by auto.
  - intros Hdirty. exfalso. revert Hc. unfold maybe_flush. cbn. by rewrite decide_True by auto.
  - intros _ Hu now'. exists i. split; [|by rewrite (Hread i)].
    apply open_snapshot. subst d'. cbn. rewrite Hpath. by rewrite !decide_True by done.
Qed.

Lemma interleave_flag_ok c c' : flag_ok c -> interleave c c' -> flag_ok c'.
Proof.
  intros Hok Hstep. destruct Hstep as [m d p u w s Hr|m d p u|m d p u last|m d p u|].
  - pose proof (request_unmarked _ _ Hr) as Hun. destruct Hok as (Hpath & Hclean & Hread). unfold flag_ok. cbn in *.
    destruct (marked s); [by split_and!|]. specialize (Hun eq_refl). split_and!; [done| |].
    + intros Hd Hu. eapply recovers_proper; [by apply Hclean|done].
    + intros i Hw Hu. rewrite Hun. auto.
  - by destruct Hok as (Hpath & _ & _).
  - by destruct Hok as (Hpath & _ & _).
  - destruct Hok as (Hpath & Hclean & _). split_and!; [done|done|]. by intros i [= <-].
  - by eapply flush_end_ok.
Qed.

(** C10: no mutation is forgotten: from a store just opened, however requests,
    flag updates, flushes and failed flushes interleave, whenever the dirty flag is
    clear and no request is between its two locks, opening the file on disk gives
    back a store that no request can tell from the one in memory; in particular a
    request that changes the state while a flush is writing leaves the flag set. *)
Theorem clean_flag_means_saved d0 now i p c :
  store_open d0 now file l = Ok (store_at i p) ->
  star interleave (mkShared i d0 p 0 None) c ->
  dirty (pers c) = false -> unmarked c = 0 -> recovers (disk c) (memory c).
Proof.
  intros Hopen Hstar. assert (flag_ok c) as (_ & Hok & _); [|exact Hok].
  apply (star_invariant interleave flag_ok interleave_flag_ok) with (1 := Hstar).
  apply store_open_recovers in Hopen as [Hp Hrec]. by split_and!.
Qed.
End Concurrency.

Import Demo WireDemo RelayDemo.

Definition dirty_store : RelayStore :=
  mkStore (inner served) small (Some (mkPersistence (mkPath "var" "relay" (Some "db"%string)) true 0%N)).

(** A flush a second after the last one. *)
Lemma flush_crash_consistent_witness :
  let p := mkPersistence (mkPath "var" "relay" (Some "db"%string)) true 0%N in
  let '(res, s', os) := maybe_flush 5000000000%N (fun _ => None) dirty_store in
  (forall d', interrupted os (fun _ => Err NotFound) d' ->
     d' (path p) = Err NotFound \/ d' (path p) = Ok (snapshot_bytes (inner dirty_store))) /\
  (forall d' now' l, d' (path p) = Ok (snapshot_bytes (inner dirty_store)) ->
     store_open d' now' (path p) l
     = Ok (mkStore (inner dirty_store) l (Some (mkPersistence (path p) false now')))) /\
  (forall e, res = Err e -> s' = dirty_store) /\
  (res = Ok tt -> dirty p = true -> (FLUSH_INTERVAL_SECS <= elapsed_secs 5000000000 (last_flush p))%N ->
     apply_ops os (fun _ => Err NotFound) (path p) = Ok (snapshot_bytes (inner dirty_store)) /\
     persistence s' = Some (mkPersistence (path p) false 5000000000%N) /\ inner s' = inner dirty_store).
Proof.
  cbv zeta. exact (flush_crash_consistent 5000000000%N (fun _ => None) dirty_store
    (mkPersistence (mkPath "var" "relay" (Some "db"%string)) true 0%N) (fun _ => Err NotFound)
    eq_refl ltac:(discriminate)).
Defined.

Lemma flush_forces_write_witness :
  let p := mkPersistence (mkPath "var" "relay" (Some "db"%string)) true 0%N in
  ((2000000000 <= 5000000000)%N -> (forall o : disk_op, None = @None IoError) ->
     let '(res, s', os) := flush 5000000000%N (fun _ => None) dirty_store in
     res = Ok tt /\ apply_ops os (fun _ => Err NotFound) (path p) = Ok (snapshot_bytes (inner dirty_store)) /\
     inner s' = inner dirty_store) /\
  ((5000000000 < 2000000000)%N -> exists s', flush 5000000000%N (fun _ => None) dirty_store = (Ok tt, s', [])).
Proof.
  cbv zeta. exact (flush_forces_write 5000000000%N (fun _ => None) dirty_store
    (mkPersistence (mkPath "var" "relay" (Some "db"%string)) true 0%N) (fun _ => Err NotFound)
    eq_refl ltac:(discriminate)).
Defined.

(** A message arrives while a flush is writing; the next flush saves it. *)
Lemma clean_flag_means_saved_witness :
  let file := mkPath "var" "relay" (Some "db"%string) in
  let i := Inner_default in
  let s := (enqueue_at (key 2) (bytes [9]%N) (wrap 64 30) (clean_store small file i)).2 in
  exists d p, dirty p = false /\ recovers small file d (inner s).
Proof.
  set (file := mkPath "var" "relay" (Some "db"%string)). set (i := Inner_default).
  set (s := (enqueue_at (key 2) (bytes [9]%N) (wrap 64 30) (clean_store small file i)).2). cbv zeta.
  set (p0 := mkPersistence file true 0%N). set (ok := fun _ : disk_op => @None IoError).
  set (f1 := maybe_flush 5000000000%N ok (store_at small i p0)).
  set (p1 := mkPersistence file false 5000000000%N).
  set (f2 := maybe_flush 7000000000%N ok (store_at small (inner s) (set_dirty p1 true))).
  set (p2 := mkPersistence file false 7000000000%N).
  set (d0 := fun _ : Path => @Err IoError (list u8) NotFound).
  set (d1 := apply_ops f1.2 d0). set (d2 := apply_ops f2.2 d1).
  exists d2, p2. split; [reflexivity|].
  apply (clean_flag_means_saved small file d0 0%N i (mkPersistence file false 0%N)
    (mkShared (inner s) d2 p2 0 None)); [reflexivity| |reflexivity..].
  eapply star_step;
    [|apply (il_flush_end small file (inner s) d1 (set_dirty p1 true) 0 (inner s) 7000000000%N ok (Ok tt) f2.1.2 p2 f2.2 d2); reflexivity].
  eapply star_step; [|apply (il_flush_begin small file)].
  eapply star_step; [|apply (il_mark small file (inner s) d1 p1 0)].
  eapply star_step;
    [|apply (il_flush_end small file (inner s) d0 p0 1 i 5000000000%N ok (Ok tt) f1.1.2 p1 f1.2 d1); reflexivity].
  eapply star_step; [|apply (il_request small file i d0 p0 0 (Some i) s); apply rq_enqueue].
  eapply star_step; [|apply (il_flush_begin small file)].
  eapply star_step; [|apply (il_force small file i d0 (mkPersistence file false 0%N) 0 0%N)].
  apply star_refl.
Defined.
