(* ===== verification/Mesh.v ===== *)
(** * The store-carry-forward mesh (mesh/src/frame.rs, mesh/src/lib.rs)

    Frames, one node's state and operations, and the transport an application
    sees. [msg_id] is the identifier [originate] draws. *)
From S2P Require Import Prelude Words Primitives Demo.

Abbreviation id16 := (array 16).

Record MeshFrame : Set := mkFrame {
  mf_msg_id : id16;
  mf_recipient : key32;
  mf_ttl : u8;
  mf_payload : list u8
}.

#[export] Instance MeshFrame_eq_dec : EqDecision MeshFrame.
Proof. solve_decision. Defined.

Inductive MeshError : Set := Decode (message : string).

Section Frames.
Context `{!Bincode MeshFrame}.

Definition frame_encode (f : MeshFrame) : list u8 := bincode_serialize f.
Definition frame_decode (bytes : list u8) : result MeshError MeshFrame :=
  map_err Decode (bincode_deserialize bytes).
End Frames.

Definition DEFAULT_TTL : u8 := wrap 8 16.
Definition SEEN_CAP : nat := N.to_nat 8192.
Definition STORE_CAP : nat := N.to_nat 2048.
Arguments SEEN_CAP : simpl never.
Arguments STORE_CAP : simpl never.

Inductive Reception : Set :=
| Duplicate
| Accepted (for_me will_forward : bool).

Record MeshNode : Set := mkNode {
  me : key32;
  node_ttl : u8;
  seen : gset id16;
  seen_order : list id16;
  store : gmap id16 MeshFrame;
  store_order : list id16;
  inbox : list (list u8)
}.

Definition with_ttl (me : key32) (ttl : u8) : MeshNode := mkNode me ttl ∅ [] ∅ [] [].
Definition node_new (me : key32) : MeshNode := with_ttl me DEFAULT_TTL.

Definition set_seen (n : MeshNode) (s : gset id16) (o : list id16) : MeshNode :=
  mkNode (me n) (node_ttl n) s o (store n) (store_order n) (inbox n).
Definition set_store (n : MeshNode) (s : gmap id16 MeshFrame) (o : list id16) : MeshNode :=
  mkNode (me n) (node_ttl n) (seen n) (seen_order n) s o (inbox n).
Definition set_inbox (n : MeshNode) (i : list (list u8)) : MeshNode :=
  mkNode (me n) (node_ttl n) (seen n) (seen_order n) (store n) (store_order n) i.

Definition mark_seen (id : id16) (n : MeshNode) : MeshNode :=
  if decide (id ∈ seen n) then n
  else
    let s := {[id]} ∪ seen n in
    let order := seen_order n ++ [id] in
    if decide (SEEN_CAP < length order)
    then match order with
         | old :: order => set_seen n (s ∖ {[old]}) order
         | [] => set_seen n s order
         end
    else set_seen n s order.

Definition store_frame (f : MeshFrame) (n : MeshNode) : MeshNode :=
  let id := mf_msg_id f in
  let s := <[id := f]> (store n) in
  match store n !! id with
  | Some _ => set_store n s (store_order n)
  | None =>
      let order := store_order n ++ [id] in
      if decide (STORE_CAP < length order)
      then match order with
           | old :: order => set_store n (delete old s) order
           | [] => set_store n s order
           end
      else set_store n s order
  end.

Definition originate (msg_id : id16) (recipient : key32) (payload : list u8) (n : MeshNode)
  : MeshFrame * MeshNode :=
  let frame := mkFrame msg_id recipient (node_ttl n) payload in
  let n := mark_seen msg_id n in
  (frame, store_frame frame n).

Definition with_frame_ttl (f : MeshFrame) (ttl : u8) : MeshFrame :=
  mkFrame (mf_msg_id f) (mf_recipient f) ttl (mf_payload f).

Definition handle_incoming (frame : MeshFrame) (n : MeshNode) : Reception * MeshNode :=
  if decide (mf_msg_id frame ∈ seen n) then (Duplicate, n)
  else
    let n := mark_seen (mf_msg_id frame) n in
    let for_me := bool_decide (mf_recipient frame = me n) in
    let n := if for_me then set_inbox n (inbox n ++ [mf_payload frame]) else n in
    let forward_ttl := wsat_sub (mf_ttl frame) (wrap 8 1) in
    let will_forward := (0 <? wval forward_ttl)%N in
    let n := if will_forward then store_frame (with_frame_ttl frame forward_ttl) n else n in
    (Accepted for_me will_forward, n).

Definition outbound (n : MeshNode) : list MeshFrame := omap (fun id => store n !! id) (store_order n).
Definition on_new_peer (n : MeshNode) : list MeshFrame := outbound n.

Definition take_inbox (n : MeshNode) : list (list u8) * MeshNode := (inbox n, set_inbox n []).
Definition stored (n : MeshNode) : nat := size (store n).

(** ** The transport *)

(** core/src/transport.rs: what an application asks of any transport. [draw]
    is what the transport draws for a message. *)
Definition TransportError : Set := string.

Class MessageTransport (T draw : Type) := {
  send : draw -> key32 -> list u8 -> mut T TransportError unit;
  receive : key32 -> mut T TransportError (list (list u8))
}.

Section Transport.
Context `{!Bincode MeshFrame}.

Definition display_mesh_error (e : MeshError) : TransportError :=
  match e with Decode m => "mesh frame decode error: " +:+ m end.

Definition ingest (frame_bytes : list u8) : mut MeshNode TransportError Reception := fun n =>
  match map_err display_mesh_error (frame_decode frame_bytes) with
  | Ok frame => let '(r, n) := handle_incoming frame n in (Ok r, n)
  | Err e => (Err e, n)
  end.

Definition pending_broadcast (n : MeshNode) : list (list u8) := map frame_encode (outbound n).

#[export] Instance mesh_transport : MessageTransport MeshNode id16 := {
  send msg_id recipient payload n := (Ok tt, (originate msg_id recipient payload n).2);
  receive _ n := let '(ms, n) := take_inbox n in (Ok ms, n)
}.
End Transport.

(** ** The invariant of a node *)

Record mesh_ok (n : MeshNode) : Prop := mkMeshOk {
  ok_seen id : id ∈ seen n <-> id ∈ seen_order n;
  ok_seen_nodup : NoDup (seen_order n);
  ok_seen_cap : length (seen_order n) <= SEEN_CAP;
  ok_store id : is_Some (store n !! id) <-> id ∈ store_order n;
  ok_store_nodup : NoDup (store_order n);
  ok_store_cap : length (store_order n) <= STORE_CAP;
  ok_store_id id f : store n !! id = Some f -> mf_msg_id f = id
}.

Lemma mesh_ok_new me ttl : mesh_ok (with_ttl me ttl).
Proof.
  split; cbn; try done; try apply NoDup_nil_2; try lia.
  - intros id. set_solver.
  - intros id. rewrite lookup_empty, elem_of_nil. split; [by intros []|done].
Qed.

(** Pushing a new element on a bounded queue. *)
Definition push_capped {A} (cap : nat) (x : A) (l : list A) : list A :=
  if decide (cap < length (l ++ [x])) then tail (l ++ [x]) else l ++ [x].

Lemma NoDup_tail {A} (l : list A) : NoDup l -> NoDup (tail l).
Proof. destruct l; [done|]. by intros [_ ?]%NoDup_cons. Qed.

Lemma push_capped_nodup {A} cap (x : A) l : NoDup l -> x ∉ l -> NoDup (push_capped cap x l).
Proof.
  intros Hl Hx. assert (NoDup (l ++ [x])) as Hnd.
  { apply NoDup_app. split_and!; [done| |apply NoDup_singleton]. intros y Hy ->%list_elem_of_singleton. done. }
  unfold push_capped. case_decide; [by apply NoDup_tail|done].
Qed.

Lemma push_capped_length {A} cap (x : A) l : length l <= cap -> length (push_capped cap x l) <= cap.
Proof.
  intros Hl. unfold push_capped. case_decide as Hc; [|lia].
  rewrite length_app in Hc. destruct l; cbn in *; [lia|]. rewrite length_app. cbn. lia.
Qed.

Lemma mark_seen_eq id n :
  id ∉ seen n ->
  seen_order (mark_seen id n) = push_capped SEEN_CAP id (seen_order n) /\
  (mesh_ok n -> forall x, x ∈ seen (mark_seen id n) <-> x ∈ push_capped SEEN_CAP id (seen_order n)).
Proof.
  intros Hid. unfold mark_seen, push_capped. rewrite decide_False by done.
  destruct (seen_order n ++ [id]) as [|old order] eqn:Ho; [by destruct (seen_order n)|].
  case_decide; cbn [seen_order seen set_seen tail]; (split; [done|]); intros Hok x.
  - assert (NoDup (old :: order)) as Hnd.
    { rewrite <-Ho. apply NoDup_app. split_and!; [apply (ok_seen_nodup _ Hok)| |apply NoDup_singleton].
      intros y Hy ->%list_elem_of_singleton. by apply Hid, (ok_seen _ Hok). }
    apply NoDup_cons in Hnd as [Hold _].
    assert (x ∈ old :: order <-> x ∈ seen n \/ x = id) as Hx.
    { rewrite <-Ho, elem_of_app, list_elem_of_singleton, (ok_seen _ Hok). done. }
    rewrite elem_of_cons in Hx. set_solver.
  - assert (x ∈ old :: order <-> x ∈ seen n \/ x = id) as Hx.
    { rewrite <-Ho, elem_of_app, list_elem_of_singleton, (ok_seen _ Hok). done. }
    set_solver.
Qed.

Lemma mark_seen_other id n :
  store (mark_seen id n) = store n /\ store_order (mark_seen id n) = store_order n /\
  inbox (mark_seen id n) = inbox n /\ me (mark_seen id n) = me n /\ node_ttl (mark_seen id n) = node_ttl n.
Proof.
  unfold mark_seen. case_decide; [done|]. destruct (seen_order n ++ [id]); by case_decide.
Qed.

Lemma mark_seen_ok id n : mesh_ok n -> mesh_ok (mark_seen id n).
Proof.
  intros Hok. destruct (decide (id ∈ seen n)) as [Hin|Hin].
  { unfold mark_seen. by rewrite decide_True. }
  destruct (mark_seen_eq id n Hin) as [Ho Hs]. specialize (Hs Hok).
  destruct (mark_seen_other id n) as (H1 & H2 & _).
  split; rewrite ?Ho, ?H1, ?H2; try apply Hok.
  - exact Hs.
  - apply push_capped_nodup; [apply Hok|]. by rewrite <-(ok_seen _ Hok).
  - apply push_capped_length, Hok.
Qed.

Lemma store_frame_other f n :
  seen (store_frame f n) = seen n /\ seen_order (store_frame f n) = seen_order n /\
  inbox (store_frame f n) = inbox n /\ me (store_frame f n) = me n.
Proof.
  unfold store_frame. destruct (store n !! _); [done|]. case_decide; [|done].
  by destruct (store_order n ++ _).
Qed.

(** A frame that is new to the store pushes out the oldest one when it is full. *)
Lemma store_frame_new f n :
  mesh_ok n -> store n !! mf_msg_id f = None ->
  store_order (store_frame f n) = push_capped STORE_CAP (mf_msg_id f) (store_order n) /\
  (forall id, store (store_frame f n) !! id =
     if decide (id ∈ push_capped STORE_CAP (mf_msg_id f) (store_order n))
     then <[mf_msg_id f := f]> (store n) !! id else None).
Proof.
  intros Hok Hnone. unfold store_frame. rewrite Hnone. set (id0 := mf_msg_id f) in *.
  assert (id0 ∉ store_order n) as Hnew.
  { intros Hin%(ok_store _ Hok). rewrite Hnone in Hin. by destruct Hin. }
  assert (forall id, is_Some (<[id0 := f]> (store n) !! id) <-> id ∈ store_order n ++ [id0]) as Hdom.
  { intros id. rewrite lookup_insert_is_Some, elem_of_app, list_elem_of_singleton, (ok_store _ Hok).
    destruct (decide (id0 = id)); naive_solver. }
  unfold push_capped. case_decide as Hcap.
  - destruct (store_order n ++ [id0]) as [|old order] eqn:Ho; [by destruct (store_order n)|].
    cbn [store_order store set_store tail]. split; [done|]. intros id.
    assert (NoDup (old :: order)) as Hnd.
    { rewrite <-Ho. apply NoDup_app. split_and!; [apply (ok_store_nodup _ Hok)| |apply NoDup_singleton].
      by intros y Hy ->%list_elem_of_singleton. }
    apply NoDup_cons in Hnd as [Hold _]. destruct (decide (id = old)) as [->|Hne].
    + by rewrite lookup_delete_eq, decide_False.
    + rewrite lookup_delete_ne by done. case_decide as Hin; [done|]. apply eq_None_not_Some.
      rewrite Hdom, elem_of_cons. tauto.
  - split; [done|]. intros id. case_decide as Hin; [done|]. apply eq_None_not_Some. by rewrite Hdom.
Qed.

Lemma store_frame_ok f n : mesh_ok n -> mesh_ok (store_frame f n).
Proof.
  intros Hok. destruct (store_frame_other f n) as (H1 & H2 & _).
  destruct (store n !! mf_msg_id f) as [f0|] eqn:Hf.
  - unfold store_frame. rewrite Hf. destruct Hok; split; try done; cbn.
    + intros id. rewrite lookup_insert_is_Some, <-ok_store0.
      destruct (decide (mf_msg_id f = id)) as [<-|]; naive_solver.
    + intros id g. rewrite lookup_insert_Some. intros [[<- <-]|[_ Hg]]; [done|eauto].
  - destruct (store_frame_new f n Hok Hf) as [Ho Hs].
    assert (mf_msg_id f ∉ store_order n) as Hnew.
    { intros Hin%(ok_store _ Hok). rewrite Hf in Hin. by destruct Hin. }
    split; rewrite ?H1, ?H2, ?Ho; try apply Hok.
    + intros id. rewrite Hs. case_decide as Hin; [|naive_solver].
      split; [done|]. intros _. apply lookup_insert_is_Some.
      unfold push_capped in Hin.
      assert (id ∈ store_order n ++ [mf_msg_id f]) as Hin'.
      { case_decide; [|done]. destruct (store_order n ++ [_]); cbn in Hin; [done|by right]. }
      rewrite elem_of_app, list_elem_of_singleton, <-(ok_store _ Hok) in Hin'.
      destruct (decide (mf_msg_id f = id)); naive_solver.
    + by apply push_capped_nodup; [apply Hok|].
    + apply push_capped_length, Hok.
    + intros id g. rewrite Hs. case_decide; [|done]. rewrite lookup_insert_Some.
      intros [[<- <-]|[_ Hg]]; [done|by apply (ok_store_id _ Hok)].
Qed.

Lemma set_inbox_ok n i : mesh_ok n -> mesh_ok (set_inbox n i).
Proof. by intros []; split. Qed.

Lemma originate_ok id r p n : mesh_ok n -> mesh_ok (originate id r p n).2.
Proof. intros Hok. by apply store_frame_ok, mark_seen_ok. Qed.

Lemma handle_incoming_ok f n : mesh_ok n -> mesh_ok (handle_incoming f n).2.
Proof.
  intros Hok. unfold handle_incoming. case_decide; [done|]. cbn [snd].
  pose proof (mark_seen_ok (mf_msg_id f) n Hok) as Hok1.
  assert (mesh_ok (if bool_decide (mf_recipient f = me (mark_seen (mf_msg_id f) n))
    then set_inbox (mark_seen (mf_msg_id f) n) (inbox (mark_seen (mf_msg_id f) n) ++ [mf_payload f])
    else mark_seen (mf_msg_id f) n)) as Hok2 by (case_bool_decide; [by apply set_inbox_ok|done]).
  by destruct (0 <? _)%N; [apply store_frame_ok|].
Qed.
