(* ===== verification/MeshProps.v ===== *)
(** * Properties of the mesh (mesh/src/lib.rs)

    Bounds of a node's memory, deduplication, the hop limit, integrity of a
    network of nodes, and delivery through the transport interface. *)
From S2P Require Import Prelude Words Primitives Demo Mesh.

(** ** What happens to one node *)
Inductive mesh_act : Set :=
| Originate (msg_id : id16) (recipient : key32) (payload : list u8)
| Incoming (frame : MeshFrame)
| TakeInbox.

Definition mesh_do (a : mesh_act) (n : MeshNode) : MeshNode :=
  match a with
  | Originate id r p => (originate id r p n).2
  | Incoming f => (handle_incoming f n).2
  | TakeInbox => (take_inbox n).2
  end.

Definition mesh_run (acts : list mesh_act) (n : MeshNode) : MeshNode := foldl (fun n a => mesh_do a n) n acts.

Lemma mesh_do_ok a n : mesh_ok n -> mesh_ok (mesh_do a n).
Proof. destruct a; [apply originate_ok|apply handle_incoming_ok|apply set_inbox_ok]. Qed.

Lemma mesh_run_ok acts n : mesh_ok n -> mesh_ok (mesh_run acts n).
Proof. revert n. induction acts as [|a acts IH]; intros n Hn; [done|]. by apply IH, mesh_do_ok. Qed.

Lemma omap_store (n : MeshNode) l :
  (forall id, id ∈ l -> is_Some (store n !! id)) ->
  length (omap (fun id => store n !! id) l) = length l /\
  forall i id f, l !! i = Some id -> store n !! id = Some f -> omap (fun id => store n !! id) l !! i = Some f.
Proof.
  induction l as [|x l IH]; intros Hl; [done|].
  destruct (Hl x) as [f0 Hf0]; [by left|]. destruct IH as [Hlen Hix]; [intros; apply Hl; by right|].
  cbn. rewrite Hf0. cbn. split; [by rewrite Hlen|]. intros [|i] id f; cbn.
  - intros [= <-]. by rewrite Hf0.
  - apply Hix.
Qed.

(** C32: the memory of a node is bounded whatever it originates or receives:
    at most [SEEN_CAP] identifiers and [STORE_CAP] frames; and what it offers a
    peer is exactly its store, each frame once, in the order they came. *)
Theorem mesh_node_bounded my_id ttl acts :
  let n := mesh_run acts (with_ttl my_id ttl) in
  size (seen n) <= SEEN_CAP /\ stored n <= STORE_CAP /\
  length (outbound n) = stored n /\ NoDup (map mf_msg_id (outbound n)) /\
  (forall f, f ∈ outbound n <-> store n !! mf_msg_id f = Some f) /\
  map mf_msg_id (outbound n) = store_order n.
Proof.
  cbv zeta. pose proof (mesh_run_ok acts _ (mesh_ok_new my_id ttl)) as Hok.
  set (n := mesh_run acts _) in *.
  assert (seen n = list_to_set (seen_order n)) as Hseen.
  { apply set_eq. intros id. by rewrite elem_of_list_to_set, (ok_seen _ Hok). }
  assert (dom (store n) = list_to_set (store_order n)) as Hdom.
  { apply set_eq. intros id. by rewrite elem_of_list_to_set, elem_of_dom, (ok_store _ Hok). }
  assert (stored n = length (store_order n)) as Hstored.
  { unfold stored. rewrite <-size_dom, Hdom. apply size_list_to_set, Hok. }
  destruct (omap_store n (store_order n)) as [Hlen Hix]; [intros id; apply Hok|]. fold (outbound n) in Hlen, Hix.
  assert (map mf_msg_id (outbound n) = store_order n) as Hids.
  { apply list_eq_same_length with (length (store_order n)); [done|by rewrite length_map|].
    intros i a b Hi Ha Hb. destruct (ok_store _ Hok b) as [_ Hs].
    destruct Hs as [f Hf]; [by eapply list_elem_of_lookup_2|].
    rewrite list_lookup_fmap, (Hix _ _ _ Hb Hf) in Ha. cbn in Ha. injection Ha as <-.
    by apply (ok_store_id _ Hok). }
  split_and!; [| |by rewrite Hlen|by rewrite Hids; apply Hok| |done].
  - rewrite Hseen, size_list_to_set by apply Hok. apply Hok.
  - rewrite Hstored. apply Hok.
  - intros f. unfold outbound. rewrite list_elem_of_omap. split.
    + intros (id & _ & Hf). pose proof (ok_store_id _ Hok _ _ Hf) as <-. done.
    + intros Hf. exists (mf_msg_id f). split; [|done]. apply (ok_store _ Hok). eauto.
Qed.

(** ** Deduplication *)

(** [id] was marked and at most [k] others since. *)
Definition recent (k : nat) (id : id16) (n : MeshNode) : Prop :=
  exists pre post, seen_order n = pre ++ id :: post /\ length post <= k.

Lemma recent_mark k id id' n :
  mesh_ok n -> recent k id n -> S (S k) <= SEEN_CAP -> recent (S k) id (mark_seen id' n).
Proof.
  intros Hok (pre & post & Ho & Hp) Hk. destruct (decide (id' ∈ seen n)) as [Hin|Hin].
  { unfold mark_seen. rewrite decide_True by done. exists pre, post. split; [done|lia]. }
  unfold recent. rewrite (proj1 (mark_seen_eq id' n Hin)). unfold push_capped. rewrite Ho, <-app_assoc. cbn [app].
  assert (length (post ++ [id']) <= S k) as Hp' by (rewrite length_app; cbn; lia).
  case_decide as Hc; [|eauto]. destruct pre as [|x pre]; [|exists pre, (post ++ [id']); done].
  cbn [app] in Hc. cbn [length] in Hc. lia.
Qed.

Lemma recent_same_order k id n n' : seen_order n' = seen_order n -> recent k id n -> recent k id n'.
Proof. unfold recent. by intros ->. Qed.

Lemma recent_le k k' id n : k <= k' -> recent k id n -> recent k' id n.
Proof. intros Hle (pre & post & ? & ?). exists pre, post. split; [done|lia]. Qed.

Lemma handle_incoming_order f n :
  mf_msg_id f ∉ seen n -> seen_order (handle_incoming f n).2 = seen_order (mark_seen (mf_msg_id f) n).
Proof.
  intros Hf. unfold handle_incoming. rewrite decide_False by done. cbn [snd].
  destruct (0 <? _)%N; [rewrite (proj1 (proj2 (store_frame_other _ _)))|]; by case_bool_decide.
Qed.

Lemma recent_do k id a n :
  mesh_ok n -> recent k id n -> S (S k) <= SEEN_CAP -> recent (S k) id (mesh_do a n).
Proof.
  intros Hok Hr Hk. destruct a as [i r p|f|]; cbn [mesh_do].
  - unfold originate. cbn [snd]. eapply recent_same_order; [apply store_frame_other|]. by apply recent_mark.
  - destruct (decide (mf_msg_id f ∈ seen n)) as [Hin|Hin].
    + unfold handle_incoming. rewrite decide_True by done. by apply (recent_le k); [lia|].
    + eapply recent_same_order; [by apply handle_incoming_order|]. by apply recent_mark.
  - by apply (recent_le k); [lia|].
Qed.

Lemma recent_run k id acts n :
  mesh_ok n -> recent k id n -> S (k + length acts) <= SEEN_CAP -> recent (k + length acts) id (mesh_run acts n).
Proof.
  revert k n. induction acts as [|a acts IH]; intros k n Hok Hr Hk; cbn in *.
  - by rewrite Nat.add_0_r.
  - rewrite Nat.add_succ_r. apply (IH (S k)); [by apply mesh_do_ok|apply recent_do; done || lia|cbn; lia].
Qed.

Lemma recent_seen k id n : mesh_ok n -> recent k id n -> id ∈ seen n.
Proof.
  intros Hok (pre & post & Ho & _). rewrite (ok_seen _ Hok), Ho. apply elem_of_app. right. by left.
Qed.

Lemma SEEN_CAP_pos : 1 <= SEEN_CAP.
Proof. unfold SEEN_CAP. lia. Qed.

Lemma recent_marked id n : mesh_ok n -> id ∉ seen n -> recent 0 id (mark_seen id n).
Proof.
  intros Hok Hid. destruct (mark_seen_eq id n Hid) as [Ho _]. unfold recent. rewrite Ho. unfold push_capped.
  case_decide as Hc; [|by exists (seen_order n), []].
  destruct (seen_order n) as [|x l]; [cbn in Hc; pose proof SEEN_CAP_pos; lia|]. by exists l, [].
Qed.

(** C30: a frame is processed once: once a node has accepted or originated a
    message, it treats every further copy as a duplicate and changes nothing --
    no second delivery, no second forwarding -- for as long as fewer than
    [SEEN_CAP] other things happened to it since. *)
Theorem mesh_deduplicates n f f' acts :
  mesh_ok n -> mf_msg_id f ∉ seen n -> mf_msg_id f' = mf_msg_id f -> length acts < SEEN_CAP ->
  let n' := mesh_run acts (handle_incoming f n).2 in
  handle_incoming f' n' = (Duplicate, n') /\
  (forall r p, handle_incoming f' (mesh_run acts (originate (mf_msg_id f) r p n).2)
               = (Duplicate, mesh_run acts (originate (mf_msg_id f) r p n).2)).
Proof.
  intros Hok Hf Hid Hacts. cbv zeta.
  assert (forall n1, mesh_ok n1 -> recent 0 (mf_msg_id f) n1 ->
    handle_incoming f' (mesh_run acts n1) = (Duplicate, mesh_run acts n1)) as Hdup.
  { intros n1 Hok1 Hr. unfold handle_incoming. rewrite decide_True; [done|]. rewrite Hid.
    eapply recent_seen; [by apply mesh_run_ok|]. apply (recent_run 0); [done|done|cbn; lia]. }
  split; [|intros r p]; apply Hdup.
  - by apply handle_incoming_ok.
  - eapply recent_same_order; [by apply handle_incoming_order|]. by apply recent_marked.
  - by apply originate_ok.
  - eapply recent_same_order; [apply store_frame_other|]. by apply recent_marked.
Qed.

(** ** Carrying a frame along a path *)

Lemma push_capped_last {A} cap (x : A) l : 1 <= cap -> x ∈ push_capped cap x l.
Proof.
  intros Hcap. unfold push_capped. case_decide as Hc; [|apply elem_of_app; right; by left].
  destruct l as [|y l]; [cbn in Hc; lia|]. cbn. apply elem_of_app. right. by left.
Qed.

Lemma store_frame_lookup f n : mesh_ok n -> store (store_frame f n) !! mf_msg_id f = Some f.
Proof.
  intros Hok. destruct (store n !! mf_msg_id f) as [f0|] eqn:Hf.
  - unfold store_frame. rewrite Hf. cbn. apply lookup_insert_eq.
  - rewrite (proj2 (store_frame_new f n Hok Hf)), decide_True, lookup_insert_eq; [done|].
    apply push_capped_last. unfold STORE_CAP. lia.
Qed.

(** The node met the message neither in the air nor in its store. *)
Definition fresh_to (id : id16) (n : MeshNode) : Prop :=
  mesh_ok n /\ (id ∉ seen n) /\ store n !! id = None.

Definition delivered (f : MeshFrame) (n : MeshNode) : list (list u8) :=
  if decide (mf_recipient f = me n) then [mf_payload f] else [].

Lemma handle_fresh f n :
  fresh_to (mf_msg_id f) n ->
  exists n', handle_incoming f n
    = (Accepted (bool_decide (mf_recipient f = me n)) (1 <? wval (mf_ttl f))%N, n') /\
  inbox n' = inbox n ++ delivered f n /\
  store n' !! mf_msg_id f
    = (if (1 <? wval (mf_ttl f))%N then Some (with_frame_ttl f (wsat_sub (mf_ttl f) (wrap 8 1))) else None).
Proof.
  intros (Hok & Hseen & Hstore). unfold handle_incoming. rewrite decide_False by done.
  destruct (mark_seen_other (mf_msg_id f) n) as (Hs & _ & Hi & Hme & _).
  pose proof (mark_seen_ok (mf_msg_id f) n Hok) as Hok1. set (n1 := mark_seen _ n) in *.
  rewrite Hme. set (n2 := if bool_decide _ then _ else _).
  assert (mesh_ok n2 /\ store n2 = store n /\ inbox n2 = inbox n ++ delivered f n) as (Hok2 & Hs2 & Hi2).
  { unfold n2, delivered. case_bool_decide as Hd.
    - rewrite decide_True by done. split_and!; [by apply set_inbox_ok|done|]. cbn. by rewrite Hi.
    - rewrite decide_False by done. by rewrite app_nil_r. }
  assert ((0 <? wval (wsat_sub (mf_ttl f) (wrap 8 1)))%N = (1 <? wval (mf_ttl f))%N) as Hfwd.
  { rewrite wval_wsat_sub. change (wval (wrap 8 1)) with 1%N.
    destruct (N.ltb_spec 1 (wval (mf_ttl f))), (N.ltb_spec 0 (wval (mf_ttl f) - 1)); lia. }
  rewrite Hfwd. eexists. split; [done|]. destruct (1 <? wval (mf_ttl f))%N.
  - rewrite (proj1 (proj2 (proj2 (store_frame_other _ _)))). split; [done|].
    by apply (store_frame_lookup (with_frame_ttl f _)).
  - split; [done|]. by rewrite Hs2.
Qed.

(** What a node broadcasts of a message. *)
Definition offers (id : id16) (n : MeshNode) : option MeshFrame :=
  List.find (fun f => bool_decide (mf_msg_id f = id)) (outbound n).

Lemma offers_stored id n : mesh_ok n -> offers id n = store n !! id.
Proof.
  intros Hok. unfold offers. destruct (List.find _ (outbound n)) as [f|] eqn:Hf.
  - apply List.find_some in Hf as [Hin Hid%bool_decide_eq_true]. apply list_elem_of_In, list_elem_of_omap in Hin as (x & _ & Hx).
    pose proof (ok_store_id _ Hok x f Hx). congruence.
  - destruct (store n !! id) as [f|] eqn:Hid; [|done].
    assert (f ∈ outbound n) as Hin.
    { apply list_elem_of_omap. exists id. split; [|done]. apply (ok_store _ Hok). by eexists. }
    apply list_elem_of_In in Hin. pose proof (List.find_none _ _ Hf f Hin) as Hne.
    apply bool_decide_eq_false in Hne. by rewrite (ok_store_id _ Hok id f Hid) in Hne.
Qed.

(** Node after node meets the one before it, and receives what that one
    broadcasts of the message. *)
Fixpoint relay (id : id16) (prev : MeshNode) (path : list MeshNode) : list (Reception * MeshNode) :=
  match path with
  | [] => []
  | n :: path =>
      match offers id prev with
      | Some f => let '(r, n') := handle_incoming f n in (r, n') :: relay id n' path
      | None => []
      end
  end.

Lemma relay_none id prev path : offers id prev = None -> relay id prev path = [].
Proof. intros Ho. destruct path as [|n path]; cbn; [done|]. by rewrite Ho. Qed.

Lemma relay_spec f prev path :
  mesh_ok prev -> store prev !! mf_msg_id f = Some f -> Forall (fresh_to (mf_msg_id f)) path ->
  length (relay (mf_msg_id f) prev path) = Nat.min (length path) (Nat.max 1 (cnt (mf_ttl f))) /\
  forall i r n', relay (mf_msg_id f) prev path !! i = Some (r, n') -> exists n, path !! i = Some n /\
    r = Accepted (bool_decide (mf_recipient f = me n)) (bool_decide (S i < cnt (mf_ttl f))) /\
    inbox n' = inbox n ++ delivered f n.
Proof.
  revert f prev. induction path as [|n path IH]; intros f prev Hok Hst Hall; [by split|].
  apply Forall_cons in Hall as [Hn Hall]. cbn [relay length]. rewrite offers_stored, Hst by done.
  pose proof (handle_incoming_ok f n (proj1 Hn)) as Hok1.
  destruct (handle_fresh f n Hn) as (n1 & Hh & Hinbox & Hst1). rewrite Hh in Hok1 |- *. cbn [snd] in Hok1.
  set (t := cnt (mf_ttl f)).
  assert (wval (mf_ttl f) = N.of_nat t) as Ht by (unfold t, cnt; lia). rewrite Ht in Hst1 |- *.
  assert ((1 <? N.of_nat t)%N = bool_decide (1 < t)) as Hdec.
  { destruct (N.ltb_spec 1 (N.of_nat t)); symmetry; [apply bool_decide_true|apply bool_decide_false]; lia. }
  rewrite Hdec in Hst1 |- *. destruct (bool_decide_reflect (1 < t)) as [Hlt|Hlt].
  - set (f1 := with_frame_ttl f _) in *. destruct (IH f1 n1 Hok1 Hst1 Hall) as [Hlen Hix].
    change (mf_msg_id f1) with (mf_msg_id f) in *.
    assert (cnt (mf_ttl f1) = t - 1) as Ht1.
    { change (mf_ttl f1) with (wsat_sub (mf_ttl f) (wrap 8 1)). unfold cnt. rewrite wval_wsat_sub, Ht. change (wval (wrap 8 1)) with 1%N. lia. }
    split; [cbn [length]; rewrite Hlen, Ht1; lia|]. intros [|i] r n'; cbn [lookup list_lookup].
    + intros [= <- <-]. exists n. split_and!; [done| |done]. f_equal. symmetry. by apply bool_decide_true.
    + intros Hi. destruct (Hix i r n' Hi) as (n0 & Hn0 & -> & Hin). exists n0. split_and!; [done| |done].
      rewrite Ht1. f_equal. apply bool_decide_ext. lia.
  - rewrite relay_none by (by rewrite offers_stored).
    split; [cbn [length]; lia|]. intros [|i] r n'; cbn [lookup list_lookup]; [|done].
    intros [= <- <-]. exists n. split_and!; [done| |done]. f_equal. symmetry. by apply bool_decide_false.
Qed.

(** C31: the hop limit: a message originated with time to live [t] and carried
    from node to node along a path of nodes that do not know it, each receiving what
    the one before it broadcasts, is accepted by exactly the first [max 1 t] of them
    (by all, if the path is shorter): the originator broadcasts it even with
    [t = 0]. Each puts it in its inbox if and only if it is the recipient, and the
    one after [t - 1] others is the first that does not forward it. *)
Theorem mesh_hop_limit origin id recipient payload path :
  mesh_ok origin -> Forall (fresh_to id) path ->
  let run := relay id (originate id recipient payload origin).2 path in
  length run = Nat.min (length path) (Nat.max 1 (cnt (node_ttl origin))) /\
  forall i r n', run !! i = Some (r, n') -> exists n, path !! i = Some n /\
    r = Accepted (bool_decide (recipient = me n)) (bool_decide (S i < cnt (node_ttl origin))) /\
    inbox n' = inbox n ++ (if decide (recipient = me n) then [payload] else []).
Proof.
  cbv zeta. intros Hok Hall. set (f := mkFrame id recipient (node_ttl origin) payload).
  apply (relay_spec f); [by apply originate_ok| |done].
  apply (store_frame_lookup f). by apply mark_seen_ok.
Qed.

(** ** A network of nodes *)

(** The nodes, and for each message originated anywhere its recipient, payload
    and time to live. *)
Record network := mkNetwork {
  nodes : list MeshNode;
  origins : gmap id16 (key32 * list u8 * u8)
}.

Inductive net_step : network -> network -> Prop :=
| net_originate i n id r p w :
    nodes w !! i = Some n -> origins w !! id = None ->
    net_step w (mkNetwork (<[i := (originate id r p n).2]> (nodes w)) (<[id := (r, p, node_ttl n)]> (origins w)))
| net_meet i j n m f w :
    nodes w !! i = Some n -> nodes w !! j = Some m -> f ∈ outbound n ->
    net_step w (mkNetwork (<[j := (handle_incoming f m).2]> (nodes w)) (origins w))
| net_take i n w :
    nodes w !! i = Some n ->
    net_step w (mkNetwork (<[i := (take_inbox n).2]> (nodes w)) (origins w)).

(** A frame is what was originated, with a time to live that only went down. *)
Definition genuine (o : gmap id16 (key32 * list u8 * u8)) (f : MeshFrame) : Prop :=
  exists t, o !! mf_msg_id f = Some (mf_recipient f, mf_payload f, t) /\ (wval (mf_ttl f) <= wval t)%N.

Definition node_genuine (o : gmap id16 (key32 * list u8 * u8)) (n : MeshNode) : Prop :=
  (forall id f, store n !! id = Some f -> genuine o f) /\
  (forall p, p ∈ inbox n -> exists id t, o !! id = Some (me n, p, t)).

Lemma genuine_insert o id x f : o !! id = None -> genuine o f -> genuine (<[id := x]> o) f.
Proof.
  intros Hid (t & Hf & Ht). exists t. split; [|done]. rewrite lookup_insert_ne; [done|]. intros ->. by rewrite Hf in Hid.
Qed.

Lemma store_frame_sub f n id g :
  store (store_frame f n) !! id = Some g -> g = f \/ store n !! id = Some g.
Proof.
  unfold store_frame. intros Hg.
  assert (<[mf_msg_id f := f]> (store n) !! id = Some g) as Hin.
  { destruct (store n !! mf_msg_id f); [done|]. case_decide; [|done].
    destruct (store_order n ++ _); [done|]. cbn in Hg. by apply lookup_delete_Some in Hg as [_ Hg]. }
  apply lookup_insert_Some in Hin as [[_ <-]|[_ Hin]]; eauto.
Qed.

Lemma node_genuine_store o f n : node_genuine o n -> genuine o f -> node_genuine o (store_frame f n).
Proof.
  intros [Hs Hi] Hf. destruct (store_frame_other f n) as (_ & _ & Hin & Hme). split.
  - intros id g [->|Hg]%store_frame_sub; eauto.
  - rewrite Hin, Hme. exact Hi.
Qed.

Lemma node_genuine_mark o id n : node_genuine o n -> node_genuine o (mark_seen id n).
Proof.
  intros [Hs Hi]. destruct (mark_seen_other id n) as (H1 & _ & H3 & H4 & _). split; [by rewrite H1|by rewrite H3, H4].
Qed.

Lemma node_genuine_insert o id x n : o !! id = None -> node_genuine o n -> node_genuine (<[id := x]> o) n.
Proof.
  intros Hid [Hs Hi]. split.
  - intros id' f Hf. apply genuine_insert; eauto.
  - intros p Hp. destruct (Hi p Hp) as (id' & t & Ho). exists id', t.
    rewrite lookup_insert_ne; [done|]. intros ->. by rewrite Ho in Hid.
Qed.

Lemma node_genuine_handle o f n : node_genuine o n -> genuine o f -> node_genuine o (handle_incoming f n).2.
Proof.
  intros Hn Hf. unfold handle_incoming. case_decide; [done|]. cbn [snd].
  apply (node_genuine_mark _ (mf_msg_id f)) in Hn. set (n1 := mark_seen _ n) in *.
  assert (node_genuine o (if bool_decide (mf_recipient f = me n1) then set_inbox n1 (inbox n1 ++ [mf_payload f]) else n1)) as Hn2.
  { case_bool_decide as Hme; [|done]. destruct Hn as [Hs Hi]. split; [done|]. cbn.
    intros p [Hp|Hp%list_elem_of_singleton]%elem_of_app; [by apply Hi|]. subst p.
    destruct Hf as (t & Ho & _). exists (mf_msg_id f), t. by rewrite Ho, Hme. }
  destruct (0 <? _)%N eqn:Hfwd; [|done]. apply node_genuine_store; [done|].
  destruct Hf as (t & Ho & Ht). exists t. split; [done|]. cbn [mf_ttl with_frame_ttl].
  rewrite wval_wsat_sub. lia.
Qed.

Lemma net_step_genuine w w' :
  Forall (node_genuine (origins w)) (nodes w) -> net_step w w' ->
  Forall (node_genuine (origins w')) (nodes w').
Proof.
  intros Hall Hstep. revert Hall. destruct Hstep as [i n id r p w Hi Hid|i j n m f w Hi Hj Hf|i n w Hi]; intros Hall; cbn.
  - assert (Forall (node_genuine (<[id := (r, p, node_ttl n)]> (origins w))) (nodes w)) as Hall'.
    { eapply Forall_impl; [exact Hall|]. intros m. by apply node_genuine_insert. }
    apply Forall_insert; [done|]. unfold originate. cbn [snd].
    apply node_genuine_store; [apply node_genuine_mark; by eapply Forall_lookup_1|].
    exists (node_ttl n). cbn. by rewrite lookup_insert_eq.
  - apply Forall_insert; [done|]. apply node_genuine_handle; [by eapply Forall_lookup_1|].
    apply list_elem_of_omap in Hf as (id & _ & Hf). by eapply Forall_lookup_1 in Hall as [Hs _]; [eapply Hs|].
  - apply Forall_insert; [done|]. eapply Forall_lookup_1 in Hall as [Hs _]; [|exact Hi]. split; [done|].
    by intros q Hq%elem_of_nil.
Qed.

(** C23: integrity of the mesh: in a network of nodes that carry, store, drop
    and exchange frames in any order, everything in a node's inbox was originated
    somewhere for this very node with this very payload, and every frame any node
    carries is an originated one, unchanged but for a time to live that is at
    most the one it started with. *)
Theorem mesh_integrity ids ttl w i n :
  star net_step (mkNetwork (map (fun id => with_ttl id ttl) ids) ∅) w -> nodes w !! i = Some n ->
  (forall p, p ∈ inbox n -> exists id t, origins w !! id = Some (me n, p, t)) /\
  (forall f, f ∈ outbound n -> exists t, origins w !! mf_msg_id f = Some (mf_recipient f, mf_payload f, t) /\
     (wval (mf_ttl f) <= wval t)%N).
Proof.
  intros Hstar Hi.
  assert (Forall (node_genuine (origins w)) (nodes w)) as Hall.
  { apply (star_invariant net_step (fun w => Forall (node_genuine (origins w)) (nodes w))) with (2 := Hstar).
    - intros a b Ha Hab. by eapply net_step_genuine.
    - cbn. apply Forall_map, Forall_true. intros id. split; cbn.
      + intros id' f. by rewrite lookup_empty.
      + by intros p Hp%elem_of_nil. }
  eapply Forall_lookup_1 in Hall as [Hs Hin]; [|exact Hi]. split; [done|].
  intros f Hf. apply list_elem_of_omap in Hf as (id & _ & Hf). exact (Hs _ _ Hf).
Qed.

(** ** Through the transport *)
Section Transport.
Context `{!Bincode MeshFrame, !BincodeLaws MeshFrame}.

(** Two devices in range: what one sends to the other is among the frames
    it broadcasts; ingesting that broadcast accepts it, and receiving returns the
    payload after what was waiting, and nothing the second time; bytes that do
    not decode are refused and change nothing. *)
Theorem mesh_transport_delivers id payload a b junk e :
  mesh_ok a -> fresh_to id b ->
  let a' := (send id (me b) payload a).2 in
  (exists bytes r b', bytes ∈ pending_broadcast a' /\ ingest bytes b = (Ok r, b') /\
     r = Accepted true (1 <? wval (node_ttl a))%N /\
     (receive (me b) b').1 = Ok (inbox b ++ [payload]) /\
     (receive (me b) (receive (me b) b').2).1 = Ok []) /\
  (bincode_deserialize (A := MeshFrame) junk = Err e ->
     ingest junk b = (Err ("mesh frame decode error: " +:+ e), b)).
Proof.
  intros Ha Hb. cbv zeta. set (f := mkFrame id (me b) (node_ttl a) payload). split.
  - assert (mesh_ok (mark_seen id a)) as Ha1 by (by apply mark_seen_ok).
    destruct (handle_fresh f b Hb) as (b' & Hh & Hin & _).
    exists (frame_encode f), (Accepted true (1 <? wval (node_ttl a))%N), b'. split_and!.
    + apply list_elem_of_fmap. exists f. split; [done|]. cbn. unfold originate. cbn [snd].
      apply list_elem_of_omap. exists id. fold f.
      pose proof (store_frame_lookup f _ Ha1) as Hl. split; [|done].
      apply (ok_store _ (store_frame_ok f _ Ha1)). eauto.
    + unfold ingest, frame_decode, frame_encode. rewrite bincode_roundtrip. cbn [map_err]. rewrite Hh.
      by rewrite bool_decide_true.
    + done.
    + cbn. rewrite Hin. unfold delivered. by rewrite decide_True.
    + done.
  - intros He. unfold ingest, frame_decode. by rewrite He.
Qed.
End Transport.

(** ** A concrete mesh *)
Module MeshDemo.
Import Demo.

#[export] Instance frame_codec : Codec MeshFrame :=
  iso_codec (fun f => (mf_msg_id f, mf_recipient f, mf_ttl f, mf_payload f))
    (fun '(a, b, c, d) => mkFrame a b c d) ltac:(by intros []).

Definition tag16 (n : N) : id16 := fill_array 16 (wrap 8 n).
Definition phone (n : N) : MeshNode := with_ttl (key n) (wrap 8 2).

Lemma phone_fresh id n : fresh_to id (phone n).
Proof. split_and!; [apply mesh_ok_new|apply not_elem_of_empty|apply lookup_empty]. Qed.
End MeshDemo.

Import Demo MeshDemo.

Lemma mesh_deduplicates_witness :
  let f := mkFrame (tag16 5) (key 2) (wrap 8 4) (bytes [1]%N) in
  let n' := mesh_run [TakeInbox; Incoming f] (handle_incoming f (phone 2)).2 in
  handle_incoming f n' = (Duplicate, n') /\
  (forall r p, handle_incoming f (mesh_run [TakeInbox; Incoming f] (originate (tag16 5) r p (phone 2)).2)
     = (Duplicate, mesh_run [TakeInbox; Incoming f] (originate (tag16 5) r p (phone 2)).2)).
Proof.
  set (f := mkFrame (tag16 5) (key 2) (wrap 8 4) (bytes [1]%N)). cbv zeta.
  apply (mesh_deduplicates (phone 2) f f [TakeInbox; Incoming f]).
  - apply mesh_ok_new.
  - apply not_elem_of_empty.
  - reflexivity.
  - unfold SEEN_CAP. cbn [length]. lia.
Defined.

(** Time to live two on a path of three. *)
Lemma mesh_hop_limit_witness :
  let path := [phone 2; phone 3; phone 4] in
  let run := relay (tag16 5) (originate (tag16 5) (key 3) (bytes [1]%N) (phone 1)).2 path in
  length run = 2 /\
  forall i r n', run !! i = Some (r, n') -> exists n, path !! i = Some n /\
    r = Accepted (bool_decide (key 3 = me n)) (bool_decide (S i < cnt (node_ttl (phone 1)))) /\
    inbox n' = inbox n ++ (if decide (key 3 = me n) then [bytes [1]%N] else []).
Proof.
  apply (mesh_hop_limit (phone 1) (tag16 5) (key 3) (bytes [1]%N) [phone 2; phone 3; phone 4]).
  - apply (phone_fresh (tag16 5)).
  - do 3 (apply Forall_cons; split; [apply phone_fresh|]). by apply Forall_nil.
Defined.

Definition two_phones : network := mkNetwork (map (fun id => with_ttl id (wrap 8 2)) [key 1; key 2]) ∅.

(** Phone 1 originates a message for phone 2 and meets it. *)
Lemma mesh_integrity_witness :
  let f := (originate (tag16 5) (key 2) (bytes [1]%N) (phone 1)).1 in
  let n := (handle_incoming f (phone 2)).2 in
  let o := <[tag16 5 := (key 2, bytes [1]%N, wrap 8 2)]> (∅ : gmap id16 (key32 * list u8 * u8)) in
  (forall p, p ∈ inbox n -> exists id t, o !! id = Some (me n, p, t)) /\
  (forall f, f ∈ outbound n -> exists t, o !! mf_msg_id f = Some (mf_recipient f, mf_payload f, t) /\
     (wval (mf_ttl f) <= wval t)%N).
Proof.
  set (f := (originate (tag16 5) (key 2) (bytes [1]%N) (phone 1)).1).
  set (n1 := (originate (tag16 5) (key 2) (bytes [1]%N) (phone 1)).2).
  set (n := (handle_incoming f (phone 2)).2). set (o := <[_ := _]> _). cbv zeta.
  apply (mesh_integrity [key 1; key 2] (wrap 8 2) (mkNetwork [n1; n] o) 1 n); [|reflexivity].
  eapply star_step; [eapply star_step; [apply star_refl|]|].
  - apply (net_originate 0 (phone 1) (tag16 5) (key 2) (bytes [1]%N) two_phones); reflexivity.
  - apply (net_meet 0 1 n1 (phone 2) f (mkNetwork [n1; phone 2] o)); [reflexivity|reflexivity|].
    apply (list_elem_of_lookup_2 _ 0). vm_compute. reflexivity.
Defined.

Lemma mesh_transport_delivers_witness :
  let a' := (send (tag16 5) (me (phone 2)) (bytes [1]%N) (phone 1)).2 in
  (exists bytes r b', bytes ∈ pending_broadcast a' /\ ingest bytes (phone 2) = (Ok r, b') /\
     r = Accepted true (1 <? wval (node_ttl (phone 1)))%N /\
     (receive (me (phone 2)) b').1 = Ok (inbox (phone 2) ++ [Demo.bytes [1]%N]) /\
     (receive (me (phone 2)) (receive (me (phone 2)) b').2).1 = Ok []) /\
  (bincode_deserialize (A := MeshFrame) (bytes [7]%N) = Err "decode"%string ->
     ingest (bytes [7]%N) (phone 2) = (Err ("mesh frame decode error: " +:+ "decode"), phone 2)).
Proof.
  cbv zeta. apply (mesh_transport_delivers (tag16 5) (bytes [1]%N) (phone 1) (phone 2) (bytes [7]%N) "decode").
  - apply mesh_ok_new.
  - apply phone_fresh.
Defined.
