(* ===== verification/MeshFlood.v ===== *)
(** * Flooding reaches the recipient (mesh/src/lib.rs)

    In a network whose stores do not overflow and that has at most one node more
    than the time to live, a message is never starved: whoever has it keeps handing
    it on, as long as anybody lacks it, so any sequence of contacts that contains a
    route delivers it, whatever else happens in between. With two nodes more than
    the time to live it can be: [mesh_bound_is_sharp]. *)
From S2P Require Import Prelude Words Primitives Demo Mesh MeshProps.

Abbreviation Origins := (gmap id16 (key32 * list u8 * u8)).

(** ** A node that does not overflow *)

(** What a node has seen and stores was originated. *)
Definition known (o : Origins) (n : MeshNode) : Prop :=
  forall x, x ∈ seen_order n \/ x ∈ store_order n -> x ∈ dom o.

Lemma few_known (o : Origins) x l :
  NoDup l -> x ∉ l -> (forall y, y ∈ l -> y ∈ dom o) -> x ∈ dom o -> length (l ++ [x]) <= size o.
Proof.
  intros Hnd Hx Hl Ho.
  assert (NoDup (l ++ [x])) as Hnd'.
  { apply NoDup_app. split_and!; [done| |apply NoDup_singleton]. intros y Hy ->%list_elem_of_singleton. done. }
  rewrite <-size_dom, <-(size_list_to_set (C := gset id16)) by exact Hnd'. apply subseteq_size.
  intros y Hy%elem_of_list_to_set%elem_of_app. destruct Hy as [Hy| ->%list_elem_of_singleton]; auto.
Qed.

Lemma push_capped_fits {A} cap (x : A) l : length (l ++ [x]) <= cap -> push_capped cap x l = l ++ [x].
Proof. intros Hl. unfold push_capped. by rewrite decide_False by lia. Qed.

Lemma SEEN_STORE : STORE_CAP <= SEEN_CAP.
Proof. unfold STORE_CAP, SEEN_CAP. lia. Qed.

Lemma mark_seen_known (o : Origins) x n :
  mesh_ok n -> known o n -> x ∈ dom o -> size o <= STORE_CAP ->
  (forall y, y ∈ seen (mark_seen x n) <-> y = x \/ y ∈ seen n) /\ known o (mark_seen x n).
Proof.
  intros Hok Hk Hx Hsize. pose proof SEEN_STORE as Hcap.
  destruct (decide (x ∈ seen n)) as [Hin|Hin].
  { unfold mark_seen. rewrite decide_True by done. split; [|done]. intros y. naive_solver. }
  destruct (mark_seen_eq x n Hin) as [Ho Hs]. specialize (Hs Hok).
  assert (length (seen_order n ++ [x]) <= size o) as Hlen.
  { apply few_known; [apply Hok|by rewrite <-(ok_seen _ Hok)| |done]. intros y Hy. apply Hk. by left. }
  rewrite push_capped_fits in Ho, Hs by lia. split.
  - intros y. rewrite Hs, elem_of_app, list_elem_of_singleton, (ok_seen _ Hok). tauto.
  - destruct (mark_seen_other x n) as (_ & Hso & _). intros y. rewrite Ho, Hso, elem_of_app, list_elem_of_singleton.
    intros [[Hy| ->]|Hy]; [apply Hk; by left|done|apply Hk; by right].
Qed.

Lemma store_frame_known (o : Origins) f n :
  mesh_ok n -> known o n -> mf_msg_id f ∈ dom o -> size o <= STORE_CAP ->
  (forall y, store (store_frame f n) !! y = <[mf_msg_id f := f]> (store n) !! y) /\ known o (store_frame f n).
Proof.
  intros Hok Hk Hf Hsize. destruct (store_frame_other f n) as (Hs1 & Hs2 & _).
  destruct (store n !! mf_msg_id f) as [f0|] eqn:Hst.
  { unfold store_frame. rewrite Hst. by split. }
  destruct (store_frame_new f n Hok Hst) as [Ho Hs].
  assert (mf_msg_id f ∉ store_order n) as Hnew.
  { intros Hin%(ok_store _ Hok). rewrite Hst in Hin. by destruct Hin. }
  assert (length (store_order n ++ [mf_msg_id f]) <= size o) as Hlen.
  { apply few_known; [apply Hok|done| |done]. intros y Hy. apply Hk. by right. }
  rewrite push_capped_fits in Ho, Hs by lia. split.
  - intros y. rewrite Hs. case_decide as Hin; [done|]. symmetry.
    rewrite elem_of_app, list_elem_of_singleton in Hin. rewrite lookup_insert_ne by naive_solver.
    apply eq_None_not_Some. rewrite (ok_store _ Hok). naive_solver.
  - intros y. rewrite Hs2, Ho, elem_of_app, list_elem_of_singleton.
    intros [Hy|[Hy| ->]]; [apply Hk; by left|apply Hk; by right|done].
Qed.

(** Hearing one frame. *)
Lemma handle_known (o : Origins) f n :
  mesh_ok n -> known o n -> mf_msg_id f ∈ dom o -> size o <= STORE_CAP -> mf_msg_id f ∉ seen n ->
  let n' := (handle_incoming f n).2 in
  (forall y, y ∈ seen n' <-> y = mf_msg_id f \/ y ∈ seen n) /\
  (forall y, store n' !! y = if (1 <? wval (mf_ttl f))%N
     then <[mf_msg_id f := with_frame_ttl f (wsat_sub (mf_ttl f) (wrap 8 1))]> (store n) !! y else store n !! y) /\
  inbox n' = inbox n ++ delivered f n /\ me n' = me n /\ known o n'.
Proof.
  intros Hok Hk Hf Hsize Hseen. unfold handle_incoming. rewrite decide_False by done. cbn [snd].
  destruct (mark_seen_other (mf_msg_id f) n) as (Hs & _ & Hi & Hme & _).
  destruct (mark_seen_known o (mf_msg_id f) n Hok Hk Hf Hsize) as [Hseen1 Hk1].
  pose proof (mark_seen_ok (mf_msg_id f) n Hok) as Hok1. set (n1 := mark_seen _ n) in *.
  rewrite Hme. set (n2 := if bool_decide _ then _ else _).
  assert (mesh_ok n2 /\ known o n2 /\ seen n2 = seen n1 /\ store n2 = store n /\ me n2 = me n /\
          inbox n2 = inbox n ++ delivered f n) as (Hok2 & Hk2 & Hsn2 & Hs2 & Hme2 & Hi2).
  { unfold n2, delivered. case_bool_decide as Hd.
    - rewrite decide_True by done. split_and!; [by apply set_inbox_ok|done..|]. cbn. by rewrite Hi.
    - rewrite decide_False by done. by rewrite app_nil_r. }
  assert ((0 <? wval (wsat_sub (mf_ttl f) (wrap 8 1)))%N = (1 <? wval (mf_ttl f))%N) as ->.
  { rewrite wval_wsat_sub. change (wval (wrap 8 1)) with 1%N.
    destruct (N.ltb_spec 1 (wval (mf_ttl f))), (N.ltb_spec 0 (wval (mf_ttl f) - 1)); lia. }
  destruct (1 <? wval (mf_ttl f))%N.
  - set (g := with_frame_ttl f _). destruct (store_frame_other g n2) as (H1 & _ & H3 & H4).
    destruct (store_frame_known o g n2 Hok2 Hk2 Hf Hsize) as [Hst Hkn].
    rewrite H1, H3, H4, Hsn2, Hi2, Hme2. split_and!; [done| |done|done|done]. intros y. by rewrite Hst, Hs2.
  - rewrite Hsn2, Hs2, Hi2, Hme2. by split_and!.
Qed.

(** ** Contacts *)

(** A node that comes into range ingests all that the other broadcasts. *)
Definition hear (fs : list MeshFrame) (m : MeshNode) : MeshNode :=
  foldl (fun m f => (handle_incoming f m).2) m fs.

(** What happens from [w] on: contacts, in order, and, in between, messages that
    start, single frames that get through and inboxes that are emptied; [taken]
    is what the applications took. *)
Inductive trace (w : network) : list (nat * nat) -> list (nat * list u8) -> network -> Prop :=
| trace_start : trace w [] [] w
| trace_originate l taken i n id r p v :
    trace w l taken v -> nodes v !! i = Some n -> origins v !! id = None ->
    trace w l taken
      (mkNetwork (<[i := (originate id r p n).2]> (nodes v)) (<[id := (r, p, node_ttl n)]> (origins v)))
| trace_meet l taken i j n m f v :
    trace w l taken v -> nodes v !! i = Some n -> nodes v !! j = Some m -> f ∈ outbound n ->
    trace w l taken (mkNetwork (<[j := (handle_incoming f m).2]> (nodes v)) (origins v))
| trace_take l taken i n v :
    trace w l taken v -> nodes v !! i = Some n ->
    trace w l (taken ++ map (pair i) (inbox n)) (mkNetwork (<[i := (take_inbox n).2]> (nodes v)) (origins v))
| trace_contact l taken i j n m v :
    trace w l taken v -> nodes v !! i = Some n -> nodes v !! j = Some m ->
    trace w (l ++ [(i, j)]) taken (mkNetwork (<[j := hear (outbound n) m]> (nodes v)) (origins v)).

(** Contacts that lead from one node to another. *)
Inductive route (a : nat) : list (nat * nat) -> nat -> Prop :=
| route_here : route a [] a
| route_on l u v : route a l u -> route a (l ++ [(u, v)]) v.

(** ** Networks that do not overflow *)

Definition sound_node (o : Origins) (n : MeshNode) : Prop := mesh_ok n /\ known o n /\ node_genuine o n.

Lemma genuine_known o f : genuine o f -> mf_msg_id f ∈ dom o.
Proof. intros (t & Ho & _). by apply elem_of_dom_2 in Ho. Qed.

Lemma sound_handle o f n :
  sound_node o n -> genuine o f -> size o <= STORE_CAP -> sound_node o (handle_incoming f n).2.
Proof.
  intros (Hok & Hk & Hg) Hf Hsize. split_and!.
  - by apply handle_incoming_ok.
  - destruct (decide (mf_msg_id f ∈ seen n)) as [Hin|Hin].
    + unfold handle_incoming. by rewrite decide_True.
    + apply (handle_known o f n Hok Hk (genuine_known _ _ Hf) Hsize Hin).
  - by apply node_genuine_handle.
Qed.

Lemma sound_insert (o : Origins) x v n : o !! x = None -> sound_node o n -> sound_node (<[x := v]> o) n.
Proof.
  intros Hx (Hok & Hk & Hg). split_and!; [done| |by apply node_genuine_insert].
  intros y Hy. rewrite dom_insert, elem_of_union. right. by apply Hk.
Qed.

Lemma sound_originate (o : Origins) x r p n :
  o !! x = None -> sound_node o n -> size o < STORE_CAP ->
  let o' := <[x := (r, p, node_ttl n)]> o in
  let n' := (originate x r p n).2 in
  sound_node o' n' /\ (forall y, y ∈ seen n' <-> y = x \/ y ∈ seen n) /\
  (forall y, store n' !! y = <[x := mkFrame x r (node_ttl n) p]> (store n) !! y) /\
  inbox n' = inbox n /\ me n' = me n.
Proof.
  cbv zeta. intros Hx Hn Hsize. pose proof (sound_insert o x (r, p, node_ttl n) n Hx Hn) as (Hok & Hk & Hg).
  set (o' := <[x := _]> o) in *.
  assert (x ∈ dom o') as Hxo by (unfold o'; rewrite dom_insert; set_solver).
  assert (size o' <= STORE_CAP) as Hsize' by (unfold o'; rewrite map_size_insert, Hx; cbn; lia).
  unfold originate. cbn [snd]. set (f := mkFrame x r (node_ttl n) p).
  destruct (mark_seen_known o' x n Hok Hk Hxo Hsize') as [Hs1 Hk1].
  destruct (mark_seen_other x n) as (Hst & _ & Hi & Hme & _).
  pose proof (mark_seen_ok x n Hok) as Hok1.
  destruct (store_frame_known o' f (mark_seen x n) Hok1 Hk1 Hxo Hsize') as [Hs2 Hk2].
  destruct (store_frame_other f (mark_seen x n)) as (H1 & _ & H3 & H4).
  rewrite H1, H3, H4, Hi, Hme. split_and!; [|exact Hs1| |done|done].
  - split_and!; [by apply store_frame_ok|done|]. apply node_genuine_store; [by apply node_genuine_mark|].
    exists (node_ttl n). unfold o'. by rewrite lookup_insert_eq.
  - intros y. by rewrite Hs2, Hst.
Qed.

Lemma sound_take o n : sound_node o n -> sound_node o (take_inbox n).2.
Proof.
  intros (Hok & Hk & Hs & Hi). split_and!; [by apply set_inbox_ok|done|].
  split; [done|]. by intros q Hq%elem_of_nil.
Qed.

Lemma outbound_stored n f : f ∈ outbound n -> exists x, store n !! x = Some f.
Proof. intros (x & _ & Hf)%list_elem_of_omap. by exists x. Qed.

Definition sound (w : network) : Prop := forall i n, nodes w !! i = Some n -> sound_node (origins w) n.

Lemma sound_put w j m : sound w -> sound_node (origins w) m -> sound (mkNetwork (<[j := m]> (nodes w)) (origins w)).
Proof.
  intros Hw Hm i n. cbn [nodes origins]. rewrite list_lookup_insert_Some. intros [(-> & <- & _)|[_ Hi]]; eauto.
Qed.

Lemma sound_step w w' : sound w -> net_step w w' -> size (origins w') <= STORE_CAP -> sound w'.
Proof.
  intros Hw Hstep. destruct Hstep as [i n id r p w Hi Hid|i j n m f w Hi Hj Hf|i n w Hi]; cbn [origins]; intros Hsize.
  - rewrite map_size_insert, Hid in Hsize. cbn in Hsize.
    intros k m. cbn [nodes origins]. rewrite list_lookup_insert_Some. intros [(-> & <- & _)|[_ Hk]].
    + apply sound_originate; [done|by apply (Hw k)|lia].
    + apply sound_insert; [done|by apply (Hw k)].
  - apply outbound_stored in Hf as (x & Hf). apply sound_put; [done|].
    apply sound_handle; [by apply (Hw j)| |done]. destruct (Hw i n Hi) as (_ & _ & Hg & _). by apply (Hg x).
  - apply sound_put; [done|]. apply sound_take. by apply (Hw i).
Qed.

Lemma net_step_origins w w' : net_step w w' -> size (origins w) <= size (origins w').
Proof. destruct 1 as [i n id r p w Hi Hid| |]; cbn [origins]; [|lia..]. rewrite map_size_insert, Hid. cbn. lia. Qed.

Lemma sound_reachable ids ttl w :
  star net_step (mkNetwork (map (fun x => with_ttl x ttl) ids) ∅) w -> size (origins w) <= STORE_CAP -> sound w.
Proof.
  intros Hstar. remember (mkNetwork _ _) as w0 eqn:Hw0. induction Hstar as [w|w w1 w2 Hstar IH Hstep]; intros Hsize.
  - subst w. intros i n. cbn [nodes origins]. rewrite list_lookup_fmap. destruct (ids !! i) as [x|]; [|done].
    intros [= <-]. split_and!; [apply mesh_ok_new| |].
    + intros y. cbn. by intros [Hy%elem_of_nil|Hy%elem_of_nil].
    + split; cbn; [intros y f; by rewrite lookup_empty|by intros q Hq%elem_of_nil].
  - pose proof (net_step_origins _ _ Hstep) as Hle.
    eapply sound_step; [|exact Hstep|exact Hsize]. apply IH; [exact Hw0|lia].
Qed.

(** ** The spread of one message *)
Section Spread.
Context (id : id16) (r : key32) (p : list u8) (t : u8) (a N : nat).

Definition has (w : network) (i : nat) : Prop := exists n, nodes w !! i = Some n /\ id ∈ seen n.
Definition count (ns : list MeshNode) : nat := length (filter (fun n => id ∈ seen n) ns).

(** A copy that can be handed on as far as there are nodes that lack it. *)
Definition lively (w : network) (f : MeshFrame) : Prop :=
  mf_msg_id f = id -> cnt t < cnt (mf_ttl f) + count (nodes w).

Record spreading (w : network) (taken : list (nat * list u8)) : Prop := {
  sp_nodes : length (nodes w) = N;
  sp_sound : sound w;
  sp_origin : origins w !! id = Some (r, p, t);
  sp_stored i n f : nodes w !! i = Some n -> store n !! id = Some f -> id ∈ seen n /\ lively w f;
  (** who has it carries it, or nobody lacks it any more *)
  sp_carried i n : nodes w !! i = Some n -> id ∈ seen n -> is_Some (store n !! id) \/ N <= count (nodes w);
  sp_inbox i n : nodes w !! i = Some n -> id ∈ seen n -> i <> a -> me n = r -> p ∈ inbox n \/ (i, p) ∈ taken
}.

Lemma count_insert ns j n m :
  ns !! j = Some m ->
  count (<[j := n]> ns) + (if decide (id ∈ seen m) then 1 else 0)
  = count ns + (if decide (id ∈ seen n) then 1 else 0).
Proof.
  intros Hj. pose proof (lookup_lt_Some _ _ _ Hj) as Hlt. unfold count.
  rewrite insert_take_drop by done. rewrite <-(take_drop_middle ns j m Hj) at 3.
  rewrite !filter_app, !filter_cons, !length_app. repeat case_decide; cbn [length]; lia.
Qed.

Lemma count_le ns : count ns <= length ns.
Proof. apply length_filter. Qed.

Lemma count_missing ns j m : ns !! j = Some m -> id ∉ seen m -> count ns < length ns.
Proof.
  intros Hj Hm. pose proof (lookup_lt_Some _ _ _ Hj) as Hlt. unfold count.
  rewrite <-(take_drop_middle ns j m Hj). rewrite filter_app, filter_cons, decide_False by done.
  rewrite !length_app. cbn [length].
  pose proof (length_filter (fun n => id ∈ seen n) (take j ns)). pose proof (length_filter (fun n => id ∈ seen n) (drop (S j) ns)). lia.
Qed.

Lemma count_full ns j m : length ns <= count ns -> ns !! j = Some m -> id ∈ seen m.
Proof.
  intros Hfull Hj. destruct (decide (id ∈ seen m)) as [Hm|Hm]; [done|].
  pose proof (count_missing ns j m Hj Hm). lia.
Qed.

(** One node changes, and keeps the message if it had it. *)
Lemma spreading_put w taken taken' o j m m' :
  spreading w taken -> nodes w !! j = Some m ->
  let w' := mkNetwork (<[j := m']> (nodes w)) o in
  sound w' -> o !! id = Some (r, p, t) -> (id ∈ seen m -> id ∈ seen m') ->
  (forall f, store m' !! id = Some f -> id ∈ seen m' /\ lively w' f) ->
  (id ∈ seen m' -> is_Some (store m' !! id) \/ N <= count (nodes w')) ->
  (id ∈ seen m' -> j <> a -> me m' = r -> p ∈ inbox m' \/ (j, p) ∈ taken') ->
  (forall x, x ∈ taken -> x ∈ taken') ->
  spreading w' taken' /\ count (nodes w) <= count (nodes w').
Proof.
  cbv zeta. intros Hsp Hj Hsound Ho Hseen Hstore Hcar Hin Htk.
  assert (count (nodes w) <= count (<[j := m']> (nodes w))) as Hcount.
  { pose proof (count_insert (nodes w) j m' m Hj) as Hc. repeat case_decide; try lia. tauto. }
  split; [|exact Hcount]. constructor; cbn [nodes origins]; try done.
  - rewrite length_insert. apply Hsp.
  - intros i n f. rewrite list_lookup_insert_Some. intros [(-> & <- & _)|[_ Hi]]; [apply Hstore|].
    intros Hf. destruct (sp_stored _ _ Hsp i n f Hi Hf) as [Hs Hl]. split; [done|].
    intros Hid. specialize (Hl Hid). cbn [nodes]. lia.
  - intros i n. rewrite list_lookup_insert_Some. intros [(-> & <- & _)|[_ Hi]]; [done|].
    intros Hn. destruct (sp_carried _ _ Hsp i n Hi Hn); [by left|right; lia].
  - intros i n. rewrite list_lookup_insert_Some. intros [(-> & <- & _)|[_ Hi]]; [done|].
    intros Hs Hne Hme. destruct (sp_inbox _ _ Hsp i n Hi Hs Hne Hme); eauto.
Qed.

Lemma spreading_handle w taken j m f :
  N <= S (cnt t) -> size (origins w) <= STORE_CAP ->
  spreading w taken -> nodes w !! j = Some m -> genuine (origins w) f -> lively w f ->
  let w' := mkNetwork (<[j := (handle_incoming f m).2]> (nodes w)) (origins w) in
  spreading w' taken /\ count (nodes w) <= count (nodes w') /\ (mf_msg_id f = id -> has w' j).
Proof.
  cbv zeta. intros Hbig Hsize Hsp Hj Hg Hlive. pose proof (lookup_lt_Some _ _ _ Hj) as Hlt.
  pose proof (sp_sound _ _ Hsp j m Hj) as Hm. pose proof Hm as (Hok & Hk & Hgn).
  destruct (decide (mf_msg_id f ∈ seen m)) as [Hin|Hin].
  { assert ((handle_incoming f m).2 = m) as -> by (unfold handle_incoming; by rewrite decide_True).
    rewrite list_insert_id by done. destruct w as [ns o]. cbn [nodes origins] in *. split_and!; [done|lia|].
    intros Hid. exists m. by rewrite <-Hid. }
  destruct (handle_known (origins w) f m Hok Hk (genuine_known _ _ Hg) Hsize Hin) as (Hs & Hst & Hi & Hme & _).
  set (m' := (handle_incoming f m).2) in *.
  set (w' := mkNetwork (<[j := m']> (nodes w)) (origins w)).
  assert (sound w') as Hsound by (apply sound_put; [apply Hsp|by apply sound_handle]).
  assert (mf_msg_id f = id -> (id ∉ seen m) /\ count (nodes w') = S (count (nodes w)) /\
    (1 < cnt (mf_ttl f) \/ N <= count (nodes w'))) as Hnew.
  { intros Hid. rewrite Hid in Hin. pose proof (count_insert (nodes w) j m' m Hj) as Hc.
    rewrite decide_False, decide_True in Hc; [|by apply Hs; left|done].
    specialize (Hlive Hid). cbn [w' nodes]. split_and!; [done|lia|lia]. }
  assert (mf_msg_id f = id -> wval (mf_ttl f) = N.of_nat (cnt (mf_ttl f))) as Hw by (unfold cnt; lia).
  destruct (spreading_put w taken taken (origins w) j m m' Hsp Hj Hsound (sp_origin _ _ Hsp)) as [Hsp' Hcount].
  - intros Hid. apply Hs. by right.
  - intros g. rewrite Hst. destruct (decide (mf_msg_id f = id)) as [Hid|Hid].
    + destruct (Hnew Hid) as (Hno & Hc & _). destruct (N.ltb_spec 1 (wval (mf_ttl f))) as [Httl|Httl].
      2:{ intros Hf. by destruct (sp_stored _ _ Hsp j m g Hj Hf). }
      rewrite Hid, lookup_insert_eq. intros [= <-]. split; [apply Hs; by left|].
      intros _. fold w'. rewrite Hc. specialize (Hlive Hid). cbn [with_frame_ttl mf_ttl]. unfold cnt in *.
      rewrite wval_wsat_sub. change (wval (wrap 8 1)) with 1%N. lia.
    + intros Hgs. assert (store m !! id = Some g) as Hg'.
      { destruct (1 <? _)%N; [by rewrite lookup_insert_ne in Hgs|done]. }
      destruct (sp_stored _ _ Hsp j m g Hj Hg') as [Hsn Hl]. split; [apply Hs; by right|].
      intros Hgid. specialize (Hl Hgid). fold w'. pose proof (count_insert (nodes w) j m' m Hj) as Hc.
      rewrite !decide_True in Hc; [|apply Hs; by right|done]. cbn [w' nodes]. lia.
  - intros [Hid|Hid]%Hs.
    + destruct (Hnew (eq_sym Hid)) as (_ & _ & [Httl|Hfull]); [left|by right].
      rewrite Hst, (proj2 (N.ltb_lt 1 _)) by (rewrite (Hw (eq_sym Hid)); lia).
      rewrite <-Hid, lookup_insert_eq. by eexists.
    + destruct (sp_carried _ _ Hsp j m Hj Hid) as [[g Hg']|Hfull].
      * left. rewrite Hst. destruct (1 <? _)%N; [|by exists g].
        rewrite lookup_insert_ne; [by exists g|]. intros Heq. by rewrite Heq in Hin.
      * right. pose proof (count_insert (nodes w) j m' m Hj) as Hc.
        rewrite !decide_True in Hc; [|apply Hs; by right|done]. cbn [w' nodes]. lia.
  - intros Hid Hne Hmr. rewrite Hme in Hmr. rewrite Hi. apply Hs in Hid as [Hid|Hid].
    + left. apply elem_of_app. right. destruct Hg as (t' & Ho & _). rewrite <-Hid, (sp_origin _ _ Hsp) in Ho.
      injection Ho as Hr Hp _. unfold delivered. rewrite decide_True by congruence. rewrite <-Hp. by left.
    + destruct (sp_inbox _ _ Hsp j m Hj Hid Hne Hmr) as [Hp|Hp]; [left; apply elem_of_app; by left|by right].
  - done.
  - fold w' in Hsp', Hcount. split_and!; [done|done|]. intros Hid. exists m'. cbn [w' nodes].
    rewrite list_lookup_insert_eq by done. split; [done|]. apply Hs. by left.
Qed.

(** Whoever has the message has it for good. *)
Lemma has_put w j m m' o i :
  nodes w !! j = Some m -> (id ∈ seen m -> id ∈ seen m') -> has w i ->
  has (mkNetwork (<[j := m']> (nodes w)) o) i.
Proof.
  intros Hj Hs (n & Hi & Hn). pose proof (lookup_lt_Some _ _ _ Hj). unfold has. cbn [nodes].
  destruct (decide (j = i)) as [->|Hne].
  - exists m'. rewrite list_lookup_insert_eq by done. split; [done|]. apply Hs. congruence.
  - exists n. by rewrite list_lookup_insert_ne.
Qed.

Lemma has_handle w j m f i :
  sound w -> size (origins w) <= STORE_CAP -> genuine (origins w) f -> nodes w !! j = Some m ->
  has w i -> has (mkNetwork (<[j := (handle_incoming f m).2]> (nodes w)) (origins w)) i.
Proof.
  intros Hw Hsize Hg Hj. apply (has_put w j m); [done|]. intros Hm. destruct (Hw j m Hj) as (Hok & Hk & _).
  destruct (decide (mf_msg_id f ∈ seen m)) as [Hin|Hin].
  - unfold handle_incoming. by rewrite decide_True.
  - apply (handle_known _ _ _ Hok Hk (genuine_known _ _ Hg) Hsize Hin). by right.
Qed.

Lemma spreading_hear fs w taken j m :
  N <= S (cnt t) -> size (origins w) <= STORE_CAP -> spreading w taken -> nodes w !! j = Some m ->
  Forall (fun f => genuine (origins w) f /\ lively w f) fs ->
  let w' := mkNetwork (<[j := hear fs m]> (nodes w)) (origins w) in
  spreading w' taken /\ (forall f, f ∈ fs -> mf_msg_id f = id -> has w' j) /\ (forall i, has w i -> has w' i).
Proof.
  cbv zeta. intros Hbig. revert w m. induction fs as [|f fs IH]; intros w m Hsize Hsp Hj Hfs.
  { cbn [hear foldl]. rewrite list_insert_id by done. destruct w. split_and!; [done|by intros f Hf%elem_of_nil|done]. }
  apply Forall_cons in Hfs as [[Hg Hl] Hfs]. pose proof (lookup_lt_Some _ _ _ Hj) as Hlt.
  destruct (spreading_handle w taken j m f Hbig Hsize Hsp Hj Hg Hl) as (Hsp1 & Hcount & Hhas).
  set (m1 := (handle_incoming f m).2) in *. set (w1 := mkNetwork (<[j := m1]> (nodes w)) (origins w)) in *.
  destruct (IH w1 m1 Hsize Hsp1) as (Hsp2 & Hhas2 & Hmono).
  - cbn [w1 nodes]. by apply list_lookup_insert_eq.
  - eapply Forall_impl; [exact Hfs|]. intros g [Hgg Hgl]. split; [done|]. intros Hid. specialize (Hgl Hid). lia.
  - cbn [w1 nodes origins] in Hsp2, Hhas2, Hmono. rewrite list_insert_insert_eq in Hsp2, Hhas2, Hmono.
    change (hear (f :: fs) m) with (hear fs m1). split_and!; [done| |].
    + intros g [->|Hin]%elem_of_cons Hid; [by apply Hmono, Hhas|by eapply Hhas2].
    + intros i Hi. apply Hmono. apply (has_handle w j m f i); [apply Hsp|done..].
Qed.

Lemma outbound_lively w taken i n :
  spreading w taken -> nodes w !! i = Some n -> Forall (fun f => genuine (origins w) f /\ lively w f) (outbound n).
Proof.
  intros Hsp Hi. apply Forall_forall. intros f (x & Hf)%outbound_stored.
  destruct (sp_sound _ _ Hsp i n Hi) as (Hok & _ & Hg & _). split; [by eapply Hg|]. intros Hid.
  pose proof (ok_store_id _ Hok x f Hf) as Hx. apply (sp_stored _ _ Hsp i n f Hi); [|done]. congruence.
Qed.

Lemma outbound_carried w taken i n :
  spreading w taken -> nodes w !! i = Some n -> id ∈ seen n ->
  (exists f, f ∈ outbound n /\ mf_msg_id f = id) \/ N <= count (nodes w).
Proof.
  intros Hsp Hi Hs. destruct (sp_carried _ _ Hsp i n Hi Hs) as [[f Hf]|Hfull]; [left|by right].
  destruct (sp_sound _ _ Hsp i n Hi) as (Hok & _). exists f. split; [|by apply (ok_store_id _ Hok)].
  apply list_elem_of_omap. exists id. split; [|done]. apply (ok_store _ Hok). by eexists.
Qed.

Lemma spreading_originate w taken i n id' r' p' :
  spreading w taken -> nodes w !! i = Some n -> origins w !! id' = None -> size (origins w) < STORE_CAP ->
  let w' := mkNetwork (<[i := (originate id' r' p' n).2]> (nodes w)) (<[id' := (r', p', node_ttl n)]> (origins w)) in
  spreading w' taken /\ (forall j, has w j -> has w' j).
Proof.
  cbv zeta. intros Hsp Hi Hid' Hsize. pose proof (sp_sound _ _ Hsp i n Hi) as Hn.
  destruct (sound_originate _ id' r' p' n Hid' Hn Hsize) as (Hn' & Hs & Hst & Hin & Hme).
  assert (id' <> id) as Hne by (intros ->; by rewrite (sp_origin _ _ Hsp) in Hid').
  set (n' := (originate id' r' p' n).2) in *. set (o' := <[id' := _]> (origins w)) in *.
  assert (sound (mkNetwork (<[i := n']> (nodes w)) o')) as Hsound.
  { intros k m. cbn [nodes origins]. rewrite list_lookup_insert_Some. intros [(-> & <- & _)|[_ Hk]]; [done|].
    apply sound_insert; [done|by apply (sp_sound _ _ Hsp k)]. }
  split; [|intros j; apply (has_put w i n); [done|]; intros Hx; apply Hs; by right].
  apply (spreading_put w taken taken o' i n n' Hsp Hi Hsound).
  - unfold o'. rewrite lookup_insert_ne by done. apply Hsp.
  - intros Hx. apply Hs. by right.
  - intros f. rewrite Hst, lookup_insert_ne by done. intros Hf.
    destruct (sp_stored _ _ Hsp i n f Hi Hf) as [Hx Hl]. split; [apply Hs; by right|].
    intros Hfid. specialize (Hl Hfid). cbn [nodes]. pose proof (count_insert (nodes w) i n' n Hi) as Hc.
    rewrite !decide_True in Hc; [|apply Hs; by right|done]. lia.
  - intros [Hx|Hx]%Hs; [done|].
    destruct (sp_carried _ _ Hsp i n Hi Hx) as [Hc|Hfull]; [left; by rewrite Hst, lookup_insert_ne|right].
    pose proof (count_insert (nodes w) i n' n Hi) as Hc. rewrite !decide_True in Hc; [|apply Hs; by right|done].
    cbn [nodes]. lia.
  - intros [Hx|Hx]%Hs Hia Hmr; [done|]. rewrite Hin. apply (sp_inbox _ _ Hsp i n Hi Hx Hia). congruence.
  - done.
Qed.

Lemma spreading_take w taken i n :
  spreading w taken -> nodes w !! i = Some n ->
  let w' := mkNetwork (<[i := (take_inbox n).2]> (nodes w)) (origins w) in
  spreading w' (taken ++ map (pair i) (inbox n)) /\ (forall j, has w j -> has w' j).
Proof.
  cbv zeta. intros Hsp Hi. pose proof (sp_sound _ _ Hsp i n Hi) as Hn.
  split; [|intros j; by apply (has_put w i n)].
  apply (spreading_put w taken _ (origins w) i n _ Hsp Hi); [|apply Hsp|done| | | |].
  - apply sound_put; [apply Hsp|by apply sound_take].
  - intros f Hf. destruct (sp_stored _ _ Hsp i n f Hi Hf) as [Hx Hl]. split; [done|].
    intros Hfid. specialize (Hl Hfid). cbn [nodes]. pose proof (count_insert (nodes w) i (take_inbox n).2 n Hi) as Hc.
    rewrite !decide_True in Hc by done. lia.
  - intros Hx. destruct (sp_carried _ _ Hsp i n Hi Hx) as [Hc|Hfull]; [by left|right].
    pose proof (count_insert (nodes w) i (take_inbox n).2 n Hi) as Hc. rewrite !decide_True in Hc by done.
    cbn [nodes]. lia.
  - intros Hx Hia Hmr. right. rewrite elem_of_app. destruct (sp_inbox _ _ Hsp i n Hi Hx Hia Hmr) as [Hp|Hp]; [right|by left].
    apply list_elem_of_fmap. by exists p.
  - intros x Hx. apply elem_of_app. by left.
Qed.

(** ** The contacts of a trace carry the message along its routes *)

Lemma trace_origins w l taken v : trace w l taken v -> size (origins w) <= size (origins v).
Proof.
  induction 1 as [|l taken i n x r' p' v _ IH _ Hx|l taken i j n m f v _ IH|l taken i n v _ IH|l taken i j n m v _ IH];
    cbn [origins]; try lia. rewrite map_size_insert, Hx. cbn. lia.
Qed.

Lemma trace_spreading w l taken v :
  N <= S (cnt t) -> spreading w [] -> has w a -> trace w l taken v -> size (origins v) <= STORE_CAP ->
  spreading v taken /\ (forall ls u, route a ls u -> sublist ls l -> has v u).
Proof.
  intros Hbig Hsp Ha Htrace.
  induction Htrace as [|l taken i n x r' p' v _ IH Hi Hx|l taken i j n m f v _ IH Hi Hj Hf|l taken i n v _ IH Hi
    |l taken i j n m v _ IH Hi Hj]; cbn [origins]; intros Hsize.
  - split; [done|]. intros ls u Hr Hsub. apply sublist_nil_r in Hsub as ->. inversion Hr as [|l' ? ? ? Hl]; subst; [done|].
    by destruct l'.
  - rewrite map_size_insert, Hx in Hsize. cbn in Hsize. destruct (IH ltac:(lia)) as [Hv Hroute].
    destruct (spreading_originate v taken i n x r' p' Hv Hi Hx ltac:(lia)) as [Hv' Hmono]. eauto.
  - destruct (IH Hsize) as [Hv Hroute]. pose proof (outbound_lively v taken i n Hv Hi) as Hall.
    rewrite Forall_forall in Hall. destruct (Hall f Hf) as [Hg Hl].
    destruct (spreading_handle v taken j m f Hbig Hsize Hv Hj Hg Hl) as (Hv' & _ & _). split; [done|].
    intros ls u Hr Hsub. apply (has_handle v j m f u); [apply Hv|done..|by eapply Hroute].
  - destruct (IH Hsize) as [Hv Hroute]. destruct (spreading_take v taken i n Hv Hi) as [Hv' Hmono]. eauto.
  - destruct (IH Hsize) as [Hv Hroute]. pose proof (outbound_lively v taken i n Hv Hi) as Hall.
    destruct (spreading_hear _ v taken j m Hbig Hsize Hv Hj Hall) as (Hv' & Hhas & Hmono). split; [done|].
    intros ls u Hr (l1 & l2 & -> & Hl1 & Hl2)%sublist_app_r.
    apply sublist_cons_r in Hl2 as [Hl2|(l3 & -> & Hl3)].
    + apply sublist_nil_r in Hl2 as ->. rewrite app_nil_r in Hr. eauto.
    + apply sublist_nil_r in Hl3 as ->. inversion Hr as [Hnil|l' u' v' Hr' Heq]; [by destruct l1|]; subst v'.
      apply app_inj_tail in Heq as [-> [= -> ->]]. destruct (Hroute _ _ Hr' Hl1) as (n' & Hn' & Hs').
      assert (n' = n) as -> by congruence.
      destruct (outbound_carried v taken i n Hv Hi Hs') as [(f & Hf & Hid)|Hfull]; [by eapply Hhas|].
      apply Hmono. exists m. split; [done|]. apply (count_full (nodes v) j); [|done].
      by rewrite (sp_nodes _ _ Hv).
Qed.

End Spread.

Lemma star_length w w' : star net_step w w' -> length (nodes w') = length (nodes w).
Proof.
  induction 1 as [|w w1 w2 _ IH Hstep]; [done|]. rewrite <-IH. destruct Hstep; cbn [nodes]; apply length_insert.
Qed.

(** One node comes into range of another, and such contacts in turn. *)
Definition meet (ns : list MeshNode) (c : nat * nat) : list MeshNode :=
  match ns !! c.1, ns !! c.2 with
  | Some n, Some m => <[c.2 := hear (outbound n) m]> ns
  | _, _ => ns
  end.
Definition meetings (l : list (nat * nat)) (ns : list MeshNode) : list MeshNode := foldl meet ns l.

Definition in_range (ns : list MeshNode) (c : nat * nat) : bool := (c.1 <? length ns) && (c.2 <? length ns).

Lemma meet_length ns c : length (meet ns c) = length ns.
Proof. unfold meet. repeat case_match; try done. apply length_insert. Qed.

Lemma meetings_trace w l taken v l' :
  trace w l taken v -> forallb (in_range (nodes v)) l' = true ->
  trace w (l ++ l') taken (mkNetwork (meetings l' (nodes v)) (origins v)).
Proof.
  revert l v. induction l' as [|[i j] l' IH]; intros l v Hv Hl'; [rewrite app_nil_r; by destruct v|].
  cbn [forallb] in Hl'. apply andb_true_iff in Hl' as [[Hi Hj]%andb_true_iff Hl'].
  apply Nat.ltb_lt, lookup_lt_is_Some_2 in Hi as [n Hi]. apply Nat.ltb_lt, lookup_lt_is_Some_2 in Hj as [m Hj].
  cbn [meetings foldl fst snd] in *. rewrite cons_middle, app_assoc.
  assert (meet (nodes v) (i, j) = <[j := hear (outbound n) m]> (nodes v)) as Hmeet.
  { unfold meet. cbn [fst snd]. by rewrite Hi, Hj. }
  apply (IH (l ++ [(i, j)]) (mkNetwork (meet (nodes v) (i, j)) (origins v))).
  - rewrite Hmeet. by eapply trace_contact.
  - cbn [nodes]. unfold in_range in *. by rewrite meet_length.
Qed.

Lemma handle_me f n : me (handle_incoming f n).2 = me n.
Proof.
  unfold handle_incoming. case_decide; [done|]. cbn [snd].
  destruct (mark_seen_other (mf_msg_id f) n) as (_ & _ & _ & Hme & _).
  destruct (0 <? _)%N; [rewrite (proj2 (proj2 (proj2 (store_frame_other _ _))))|]; by case_bool_decide.
Qed.

Lemma hear_me fs n : me (hear fs n) = me n.
Proof.
  revert n. induction fs as [|f fs IH]; intros n; [done|].
  change (hear (f :: fs) n) with (hear fs (handle_incoming f n).2). by rewrite IH, handle_me.
Qed.

Lemma meetings_me l ns u n :
  ns !! u = Some n -> exists m, meetings l ns !! u = Some m /\ me m = me n.
Proof.
  revert ns n. induction l as [|[i j] l IH]; intros ns n Hn; [by exists n|]. cbn [meetings foldl].
  assert (exists m, meet ns (i, j) !! u = Some m /\ me m = me n) as (m & Hm & <-); [|by apply IH].
  unfold meet. cbn [fst snd]. destruct (ns !! i) as [a|]; [|by exists n]. destruct (ns !! j) as [b|] eqn:Hj; [|by exists n].
  destruct (decide (j = u)) as [->|Hne]; [|exists n; by rewrite list_lookup_insert_ne].
  rewrite list_lookup_insert_eq by (by apply lookup_lt_Some in Hj). eexists. split; [done|].
  rewrite hear_me. congruence.
Qed.

(** The network just after the message started. *)
Lemma spreading_start w a n id r p :
  sound w -> nodes w !! a = Some n -> origins w !! id = None -> size (origins w) < STORE_CAP ->
  let w' := mkNetwork (<[a := (originate id r p n).2]> (nodes w)) (<[id := (r, p, node_ttl n)]> (origins w)) in
  spreading id r p (node_ttl n) a (length (nodes w)) w' [] /\ has id w' a.
Proof.
  cbv zeta. intros Hsound Ha Hid Hsize. pose proof (lookup_lt_Some _ _ _ Ha) as Hlt.
  destruct (sound_originate (origins w) id r p n Hid (Hsound a n Ha) Hsize) as (Hn' & Hs & Hst & Hin & Hme).
  set (n' := (originate id r p n).2) in *. set (o' := <[id := _]> (origins w)) in *.
  assert (forall i m, nodes w !! i = Some m -> (id ∉ seen m) /\ store m !! id = None) as Hnone.
  { intros i m Hi. destruct (Hsound i m Hi) as (Hok & Hk & _). apply not_elem_of_dom in Hid. split.
    - intros Hx%(ok_seen _ Hok). apply Hid, Hk. by left.
    - apply eq_None_not_Some. intros Hx%(ok_store _ Hok). apply Hid, Hk. by right. }
  assert (id ∈ seen n') as Hseen by (apply Hs; by left).
  assert (store n' !! id = Some (mkFrame id r (node_ttl n) p)) as Hstore by (by rewrite Hst, lookup_insert_eq).
  split; [|exists n'; cbn [nodes]; by rewrite list_lookup_insert_eq]. constructor; cbn [nodes origins].
  - apply length_insert.
  - intros i m. cbn [nodes origins]. rewrite list_lookup_insert_Some. intros [(-> & <- & _)|[_ Hi]]; [done|].
    apply sound_insert; [done|by apply (Hsound i)].
  - unfold o'. by rewrite lookup_insert_eq.
  - intros i m f. rewrite list_lookup_insert_Some. intros [(-> & <- & _)|[_ Hi]].
    + rewrite Hstore. intros [= <-]. split; [done|]. intros _. cbn [mf_ttl nodes].
      pose proof (count_insert id (nodes w) i n' n Ha) as Hc.
      rewrite decide_False, decide_True in Hc; [lia|done|by apply (Hnone i)].
    + by rewrite (proj2 (Hnone i m Hi)).
  - intros i m. rewrite list_lookup_insert_Some. intros [(-> & <- & _)|[_ Hi]]; [left; by eexists|].
    intros Hx. by destruct (Hnone i m Hi).
  - intros i m. rewrite list_lookup_insert_Some. intros [(-> & <- & _)|[_ Hi]]; [done|].
    intros Hx. by destruct (Hnone i m Hi).
Qed.

(** The message spreads along every route of the contacts. *)
Lemma flood_spreads ids ttl w0 a n id r p l taken v :
  star net_step (mkNetwork (map (fun x => with_ttl x ttl) ids) ∅) w0 ->
  nodes w0 !! a = Some n -> origins w0 !! id = None -> length ids <= S (cnt (node_ttl n)) ->
  trace (mkNetwork (<[a := (originate id r p n).2]> (nodes w0)) (<[id := (r, p, node_ttl n)]> (origins w0))) l taken v ->
  size (origins v) <= STORE_CAP ->
  spreading id r p (node_ttl n) a (length ids) v taken /\ forall ls u, route a ls u -> sublist ls l -> has id v u.
Proof.
  intros Hstar Ha Hid Hbig Htrace Hsize.
  pose proof (trace_origins _ _ _ _ Htrace) as Hle. cbn [origins] in Hle. rewrite map_size_insert, Hid in Hle. cbn in Hle.
  pose proof (sound_reachable _ _ _ Hstar ltac:(lia)) as Hsound.
  destruct (spreading_start w0 a n id r p Hsound Ha Hid ltac:(lia)) as [Hsp Hhas].
  rewrite (star_length _ _ Hstar) in Hsp. cbn [nodes] in Hsp. rewrite length_map in Hsp.
  exact (trace_spreading id r p (node_ttl n) a (length ids) _ l taken v Hbig Hsp Hhas Htrace Hsize).
Qed.

(** C22: flooding delivers. Take any network of at most [ttl + 1] nodes, in any state
    it can reach, in which no store has overflowed; let a node originate a message,
    and let anything happen: other messages, frames that get through one by one,
    duplicates, inboxes emptied by their applications. If among all the contacts
    there is, in this order but with any others in between, a route from the
    originator to the recipient, the payload has been put in the recipient's inbox.
    No detour can starve it: a copy that arrives early by a long way round, and
    makes the node refuse the copies that come by shorter ways, has hops left to
    reach every node that lacks it. [mesh_bound_is_sharp] shows that no larger
    network has this. *)
Theorem mesh_eventually_delivers ids ttl w0 a n id r p l taken v ls u :
  star net_step (mkNetwork (map (fun x => with_ttl x ttl) ids) ∅) w0 ->
  nodes w0 !! a = Some n -> origins w0 !! id = None -> length ids <= S (cnt (node_ttl n)) ->
  trace (mkNetwork (<[a := (originate id r p n).2]> (nodes w0)) (<[id := (r, p, node_ttl n)]> (origins w0))) l taken v ->
  size (origins v) <= STORE_CAP ->
  route a ls u -> sublist ls l -> u <> a ->
  exists m, nodes v !! u = Some m /\ (id ∈ seen m) /\ (me m = r -> p ∈ inbox m \/ (u, p) ∈ taken).
Proof.
  intros Hstar Ha Hid Hbig Htrace Hsize Hroute Hsub Hu.
  destruct (flood_spreads _ _ _ _ _ _ _ _ _ _ _ Hstar Ha Hid Hbig Htrace Hsize) as [Hv Hall].
  destruct (Hall ls u Hroute Hsub) as (m & Hm & Hseen). exists m. split_and!; [done|done|].
  intros Hmr. by eapply sp_inbox.
Qed.

(** ** A concrete network *)
Module FloodDemo.
Import Demo MeshDemo.

Definition phones (n : nat) : list key32 := map (fun i => key (N.of_nat i)) (seq 1 n).
(** [n] phones with two hops to live, the last of which is written to. *)
Definition quiet (n : nat) : network := mkNetwork (map (fun x => with_ttl x (wrap 8 2)) (phones n)) ∅.
Definition at_ (i : nat) (w : network) : MeshNode := default (phone 9) (nodes w !! i).
Definition hi : list u8 := bytes [104; 105]%N.
Definition begun (n : nat) : network :=
  mkNetwork (<[0 := (originate (tag16 7) (key (N.of_nat n)) hi (at_ 0 (quiet n))).2]> (nodes (quiet n)))
    (<[tag16 7 := (key (N.of_nat n), hi, wrap 8 2)]> (origins (quiet n))).
Definition after (l : list (nat * nat)) (w : network) : network := mkNetwork (meetings l (nodes w)) (origins w).

Lemma begun_trace n l :
  forallb (in_range (nodes (begun n))) l = true -> trace (begun n) l [] (after l (begun n)).
Proof. apply (meetings_trace (begun n) [] [] (begun n) l), trace_start. Qed.

(** The first of three phones meets the second, which meets both others. *)
Definition chain : list (nat * nat) := [(0, 1); (1, 0); (1, 2)].
Definition met : network := after chain (begun 3).

(** Of four phones the third first hears the message from the second, at the last
    of its two hops; then it meets the originator, and then the recipient. *)
Definition detour : list (nat * nat) := [(0, 1); (1, 2); (0, 2); (2, 3)].
End FloodDemo.

Import FloodDemo.

Lemma mesh_eventually_delivers_witness :
  inbox (at_ 2 met) = [hi] /\
  exists m, nodes met !! 2 = Some m /\ (MeshDemo.tag16 7 ∈ seen m) /\
    (me m = Demo.key 3 -> hi ∈ inbox m \/ (2, hi) ∈ []).
Proof.
  split; [vm_compute; reflexivity|].
  apply (mesh_eventually_delivers (phones 3) (wrap 8 2) (quiet 3) 0 (at_ 0 (quiet 3)) (MeshDemo.tag16 7) (Demo.key 3)
    hi chain [] met [(0, 1); (1, 2)] 2).
  - apply star_refl.
  - reflexivity.
  - reflexivity.
  - apply Nat.leb_le. vm_compute. reflexivity.
  - apply (begun_trace 3 chain). reflexivity.
  - apply Nat.leb_le. vm_compute. reflexivity.
  - apply (route_on 0 [(0, 1)] 1 2), (route_on 0 [] 0 1), route_here.
  - repeat constructor.
  - discriminate.
Defined.

(** The bound of [mesh_eventually_delivers] is the best one: with two nodes
    more than the time to live, a recipient two hops away, on a route of the very
    contacts that took place, can be starved by a copy that came a longer way: the
    node in between refuses the originator's own copy and has nothing to hand on. *)
Theorem mesh_bound_is_sharp :
  exists l v,
    trace (begun 4) l [] v /\ length (phones 4) = S (S (cnt (node_ttl (at_ 0 (quiet 4))))) /\
    route 0 [(0, 2); (2, 3)] 3 /\ sublist [(0, 2); (2, 3)] l /\
    me (at_ 3 v) = Demo.key 4 /\ origins v !! MeshDemo.tag16 7 = Some (Demo.key 4, hi, wrap 8 2) /\
    (MeshDemo.tag16 7 ∈ seen (at_ 2 v)) /\ outbound (at_ 2 v) = [] /\
    (MeshDemo.tag16 7 ∉ seen (at_ 3 v)) /\ inbox (at_ 3 v) = [].
Proof.
  exists detour, (after detour (begun 4)). split; [apply begun_trace; reflexivity|].
  split; [vm_compute; reflexivity|]. split; [apply (route_on 0 [(0, 2)] 2 3), (route_on 0 [] 0 2), route_here|].
  split; [by do 2 apply sublist_cons; repeat constructor|].
  split; [vm_compute; reflexivity|]. split; [vm_compute; reflexivity|].
  split; [apply (bool_decide_unpack _); vm_compute; exact I|]. split; [vm_compute; reflexivity|].
  split; [apply (bool_decide_unpack _); vm_compute; exact I|]. vm_compute. reflexivity.
Qed.
