(* ===== verification/GroupState.v ===== *)
(** * Persistence of a group client (group/src/lib.rs)

    The framing of byte strings, the cursor that reads it back, and
    [export_state]/[import_state]. The MLS library (OpenMLS) is a parameter: its
    key store is a map from keys to values, and [signer_read] looks a signature
    key pair up in it. *)
From S2P Require Import Prelude Words Primitives Demo.

Local Open Scope N_scope.

Inductive Error : Set :=
| Mls (message : string)
| Codec (message : string)
| State
| UnknownGroup.

Abbreviation bytes := (list u8).

(** ** The cursor *)

Record Cursor : Set := mkCursor { c_bytes : bytes; c_i : N }.

Definition cursor_new (b : bytes) : Cursor := mkCursor b 0.

(** [usize::checked_add] and [slice.get(i..end)]. *)
Definition checked_add (a b : N) : option N := if a + b <? 2 ^ 64 then Some (a + b) else None.
Definition get_range (l : bytes) (i j : N) : option bytes :=
  if (i <=? j) && (j <=? N.of_nat (length l))
  then Some (take (N.to_nat (j - i)) (drop (N.to_nat i) l)) else None.

Definition read_u32 (c : Cursor) : option u32 * Cursor :=
  match checked_add (c_i c) 4 with
  | None => (None, c)
  | Some e =>
      match get_range (c_bytes c) (c_i c) e with
      | None => (None, c)
      | Some slice => (Some (wrap 32 (le_value slice)), mkCursor (c_bytes c) e)
      end
  end.

Definition read_bytes (c : Cursor) : option bytes * Cursor :=
  match read_u32 c with
  | (None, c) => (None, c)
  | (Some len, c) =>
      match checked_add (c_i c) len with
      | None => (None, c)
      | Some e =>
          match get_range (c_bytes c) (c_i c) e with
          | None => (None, c)
          | Some out => (Some out, mkCursor (c_bytes c) e)
          end
      end
  end.

Definition is_done (c : Cursor) : bool := c_i c =? N.of_nat (length (c_bytes c)).

(** ** Framing *)

Definition len32 (b : bytes) : bytes := le_bytes 4 (wrap 32 (N.of_nat (length b))).

Definition frame (fields : list bytes) : bytes :=
  foldl (fun out f => out ++ len32 f ++ f) [] fields.

Fixpoint read_fields (count : nat) (c : Cursor) : option (list bytes) * Cursor :=
  match count with
  | O => (Some [], c)
  | S count =>
      match read_bytes c with
      | (None, c) => (None, c)
      | (Some f, c) =>
          match read_fields count c with
          | (None, c) => (None, c)
          | (Some fs, c) => (Some (f :: fs), c)
          end
      end
  end.

Definition unframe (b : bytes) (count : nat) : option (list bytes) :=
  match read_fields count (cursor_new b) with
  | (Some out, c) => if is_done c then Some out else None
  | (None, _) => None
  end.

(** ** The client

    [provider] is its storage, the only part of it that is exported; [credential]
    is built again from the identity and the public key, so it is not kept. *)
Section Client.
Context {Signer : Type} (signer_public : Signer -> bytes)
  (signer_read : gmap bytes bytes -> bytes -> option Signer).

Record GroupClient := mkClient {
  gc_storage : gmap bytes bytes;
  gc_signer : Signer;
  gc_identity : bytes
}.

(** The store section; [values] is the storage in the order it is iterated. *)
Definition store_bytes (values : list (bytes * bytes)) : bytes :=
  foldl (fun out kv => out ++ len32 kv.1 ++ kv.1 ++ len32 kv.2 ++ kv.2)
    (le_bytes 4 (wrap 32 (N.of_nat (length values)))) values.

Definition export_state (values : list (bytes * bytes)) (c : GroupClient) : bytes :=
  frame [gc_identity c; signer_public (gc_signer c); store_bytes values].

(** The loop of [import_state] that fills the storage. *)
Fixpoint read_values (count : nat) (values : gmap bytes bytes) (c : Cursor)
  : option (gmap bytes bytes) * Cursor :=
  match count with
  | O => (Some values, c)
  | S count =>
      match read_bytes c with
      | (None, c) => (None, c)
      | (Some k, c) =>
          match read_bytes c with
          | (None, c) => (None, c)
          | (Some v, c) => read_values count (<[k := v]> values) c
          end
      end
  end.

Definition read_storage (store : bytes) : option (gmap bytes bytes) :=
  match read_u32 (cursor_new store) with
  | (None, _) => None
  | (Some count, c) =>
      match read_values (N.to_nat count) ∅ c with
      | (Some values, c) => if is_done c then Some values else None
      | (None, _) => None
      end
  end.

Definition import_state (b : bytes) : result Error GroupClient :=
  match unframe b 3 with
  | Some [identity; public; store] =>
      storage <-? ok_or (read_storage store) State;
      signer <-? ok_or (signer_read storage public) State;
      Ok (mkClient storage signer identity)
  | _ => Err State
  end.

(** ** Reading what was framed *)

Definition short (b : bytes) : Prop := N.of_nat (length b) < 2 ^ 32.
(** Rust slices have at most [isize::MAX] bytes. *)
Definition addressable (b : bytes) : Prop := N.of_nat (length b) < 2 ^ 63.

(** The cursor stands after [pre], with [rest] still to come. *)
Definition at_ (c : Cursor) (pre rest : bytes) : Prop :=
  c_bytes c = pre ++ rest /\ c_i c = N.of_nat (length pre) /\ addressable (pre ++ rest).

Lemma checked_add_small a b : a + b < 2 ^ 64 -> checked_add a b = Some (a + b).
Proof. intros Hb. unfold checked_add. by rewrite (proj2 (N.ltb_lt _ _) Hb). Qed.

Lemma get_range_at pre x rest :
  get_range (pre ++ x ++ rest) (N.of_nat (length pre)) (N.of_nat (length pre) + N.of_nat (length x)) = Some x.
Proof.
  unfold get_range. rewrite !length_app.
  rewrite (proj2 (N.leb_le _ _)), (proj2 (N.leb_le _ _)) by lia. cbn [andb]. f_equal.
  rewrite Nat2N.id, drop_app_length. replace (N.to_nat _) with (length x) by lia.
  apply take_app_length.
Qed.

Lemma get_range_Some l i j x :
  get_range l i j = Some x ->
  i <= j <= N.of_nat (length l) /\ x = take (N.to_nat (j - i)) (drop (N.to_nat i) l) /\
  N.of_nat (length x) = j - i.
Proof.
  unfold get_range. destruct (_ && _) eqn:Hb; [|done]. apply andb_true_iff in Hb as [Hi Hj].
  apply N.leb_le in Hi, Hj. intros [= <-]. split_and!; [done|done|done|].
  rewrite length_take, length_drop. lia.
Qed.

Lemma read_u32_at c pre x rest :
  at_ c pre (x ++ rest) -> length x = 4%nat ->
  exists c', read_u32 c = (Some (wrap 32 (le_value x)), c') /\ at_ c' (pre ++ x) rest.
Proof.
  intros (Hb & Hi & Had) Hx. unfold read_u32, at_. rewrite Hb, Hi.
  assert (N.of_nat (length pre) + 4 < 2 ^ 64) as Hlt.
  { unfold addressable in Had. rewrite !length_app, Hx in Had. change (2 ^ 63) with 9223372036854775808 in Had.
    change (2 ^ 64) with 18446744073709551616. lia. }
  rewrite checked_add_small by done. replace 4 with (N.of_nat (length x)) by lia. rewrite get_range_at.
  eexists. split; [done|]. cbn [c_bytes c_i]. rewrite <-app_assoc. split_and!; [done| |done].
  rewrite length_app. lia.
Qed.

Lemma read_bytes_at c pre f rest :
  at_ c pre (len32 f ++ f ++ rest) -> short f ->
  exists c', read_bytes c = (Some f, c') /\ at_ c' (pre ++ len32 f ++ f) rest.
Proof.
  intros Hat Hf. unfold read_bytes.
  destruct (read_u32_at _ _ _ _ Hat (length_le_bytes _ _)) as (c1 & -> & Hb & Hi & Had).
  assert (wval (wrap 32 (le_value (len32 f))) = N.of_nat (length f)) as Hlen.
  { unfold len32. rewrite le_value_bytes, !wval_wrap. change (256 ^ N.of_nat 4) with (2 ^ 32).
    rewrite !N.Div0.mod_mod. by apply N.mod_small. }
  rewrite Hlen, Hi, checked_add_small.
  2:{ unfold addressable in Had. rewrite !length_app in *. change (2 ^ 63) with 9223372036854775808 in Had.
      change (2 ^ 64) with 18446744073709551616. lia. }
  rewrite Hb, get_range_at. eexists. split; [done|]. unfold at_. cbn [c_bytes c_i].
  rewrite <-!app_assoc in *. split_and!; [done| |done]. rewrite !length_app. lia.
Qed.

(** [frame] as a concatenation. *)
Definition framed (fields : list bytes) : bytes := concat (map (fun f => len32 f ++ f) fields).

Lemma foldl_app {A} (g : A -> bytes) l out : foldl (fun out x => out ++ g x) out l = out ++ concat (map g l).
Proof.
  revert out. induction l as [|x l IH]; intros out; cbn; [by rewrite app_nil_r|]. by rewrite IH, <-app_assoc.
Qed.

Lemma frame_framed fields : frame fields = framed fields.
Proof. unfold frame, framed. by rewrite (foldl_app (fun f => len32 f ++ f)). Qed.

Lemma store_bytes_framed values :
  store_bytes values
  = le_bytes 4 (wrap 32 (N.of_nat (length values))) ++ framed (concat (map (fun kv => [kv.1; kv.2]) values)).
Proof.
  unfold store_bytes, framed. rewrite (foldl_app (fun kv => len32 kv.1 ++ kv.1 ++ len32 kv.2 ++ kv.2)). f_equal.
  induction values as [|[k v] values IH]; [done|].
  cbn [map concat fst snd app]. by rewrite IH, <-!app_assoc.
Qed.

Lemma read_fields_at fields c pre rest :
  at_ c pre (framed fields ++ rest) -> Forall short fields ->
  exists c', read_fields (length fields) c = (Some fields, c') /\ at_ c' (pre ++ framed fields) rest.
Proof.
  revert c pre. induction fields as [|f fields IH]; intros c pre Hat Hs; cbn [length read_fields].
  - exists c. unfold framed in *. cbn in *. by rewrite app_nil_r.
  - apply Forall_cons in Hs as [Hf Hs]. unfold framed in Hat. cbn in Hat. rewrite <-!app_assoc in Hat.
    destruct (read_bytes_at _ _ _ _ Hat Hf) as (c1 & -> & Hat1).
    destruct (IH c1 _ Hat1 Hs) as (c2 & -> & Hat2). exists c2. split; [done|].
    unfold framed in *. cbn. by rewrite <-!app_assoc in *.
Qed.

Lemma at_end_done c pre : at_ c pre [] -> is_done c = true.
Proof. intros (Hb & Hi & _). unfold is_done. rewrite Hb, Hi, app_nil_r. apply N.eqb_refl. Qed.

Lemma at_start b : addressable b -> at_ (cursor_new b) [] b.
Proof. intros Hb. unfold at_. by split_and!. Qed.

Lemma unframe_frame fields :
  Forall short fields -> addressable (frame fields) -> unframe (frame fields) (length fields) = Some fields.
Proof.
  rewrite frame_framed. intros Hs Had. unfold unframe.
  destruct (read_fields_at fields (cursor_new (framed fields)) [] []) as (c & -> & Hat); [|done|].
  - rewrite app_nil_r. by apply at_start.
  - by rewrite (at_end_done _ _ Hat).
Qed.

(** ** Nothing else is read *)

Lemma len32_inj f g : short f -> short g -> len32 f = len32 g -> length f = length g.
Proof.
  unfold short, len32. intros Hf Hg Heq. apply (f_equal le_value) in Heq.
  rewrite !le_value_bytes, !wval_wrap in Heq. change (256 ^ N.of_nat 4) with (2 ^ 32) in Heq.
  rewrite !N.Div0.mod_mod, !N.mod_small in Heq by done. lia.
Qed.

Lemma framed_cons f fields : framed (f :: fields) = len32 f ++ f ++ framed fields.
Proof. unfold framed. cbn [map concat]. by rewrite <-app_assoc. Qed.

(** No framing of so many fields is a proper prefix of another. *)
Lemma framed_prefix_free fs gs x :
  length fs = length gs -> Forall short fs -> Forall short gs -> framed fs ++ x = framed gs -> fs = gs /\ x = [].
Proof.
  revert gs. induction fs as [|f fs IH]; intros [|g gs] Hlen Hf Hg Heq; try done.
  rewrite !framed_cons, <-!app_assoc in Heq. apply Forall_cons in Hf as [Hf Hfs], Hg as [Hg Hgs].
  apply app_inj_1 in Heq as [Hl Heq]; [|by unfold len32; rewrite !length_le_bytes].
  apply app_inj_1 in Heq as [-> Heq]; [|by apply len32_inj].
  injection Hlen as Hlen. by destruct (IH gs Hlen Hfs Hgs Heq) as [-> ->].
Qed.

Lemma read_u32_inv c pre rest w c' :
  at_ c pre rest -> read_u32 c = (Some w, c') ->
  exists x rest', rest = x ++ rest' /\ length x = 4%nat /\ w = wrap 32 (le_value x) /\ at_ c' (pre ++ x) rest'.
Proof.
  intros (Hb & Hi & Had) Hr. unfold read_u32 in Hr. destruct (checked_add (c_i c) 4) as [e|] eqn:He; [|done].
  destruct (get_range _ _ _) as [x|] eqn:Hx; [|done]. injection Hr as <- <-.
  unfold checked_add in He. destruct (_ <? _); [|done]. injection He as <-.
  apply get_range_Some in Hx as (Hle & Hx & Hlx). rewrite Hi in *. rewrite Hb, Nat2N.id, drop_app_length in Hx.
  assert (length x = 4%nat) as Hl4 by lia.
  replace (N.to_nat (N.of_nat (length pre) + 4 - N.of_nat (length pre))) with 4%nat in Hx by lia.
  exists x, (drop 4 rest). assert (rest = x ++ drop 4 rest) as Hrest by (rewrite Hx; by rewrite take_drop).
  split_and!; [done|done|done|]. unfold at_. cbn [c_bytes c_i]. rewrite <-app_assoc, <-Hrest.
  split_and!; [done|rewrite length_app; lia|done].
Qed.

Lemma read_bytes_inv c pre rest f c' :
  at_ c pre rest -> read_bytes c = (Some f, c') ->
  exists rest', rest = len32 f ++ f ++ rest' /\ short f /\ at_ c' (pre ++ len32 f ++ f) rest'.
Proof.
  intros Hat Hr. unfold read_bytes in Hr. destruct (read_u32 c) as [[w|] c1] eqn:Hu; [|done].
  destruct (read_u32_inv _ _ _ _ _ Hat Hu) as (x & rest1 & -> & Hx & Hw & (Hb & Hi & Had)).
  destruct (checked_add (c_i c1) _) as [e|] eqn:He; [|done].
  destruct (get_range _ _ _) as [f'|] eqn:Hf; [|done]. injection Hr as <- <-.
  unfold checked_add in He. destruct (_ <? _); [|done]. injection He as <-.
  apply get_range_Some in Hf as (Hle & Hf & Hlf). rewrite Hi in *. rewrite Hb, Nat2N.id, drop_app_length in Hf.
  replace (N.of_nat (length (pre ++ x)) + w - N.of_nat (length (pre ++ x))) with (wval w) in * by lia.
  assert (len32 f' = x) as Hlen.
  { unfold len32. rewrite Hlf, wrap_wval, Hw, wval_wrap, N.mod_small.
    - rewrite <-Hx. apply le_bytes_value.
    - pose proof (le_value_bound x) as Hbound. by rewrite Hx in Hbound. }
  assert (rest1 = f' ++ drop (N.to_nat w) rest1) as Hrest by (rewrite Hf; by rewrite take_drop).
  exists (drop (N.to_nat w) rest1). rewrite Hlen, <-Hrest. split_and!; [done| |].
  - unfold short. rewrite Hlf. apply word_lt.
  - unfold at_. cbn [c_bytes c_i]. rewrite <-!app_assoc in *. rewrite <-Hrest.
    split_and!; [done| |done]. rewrite !length_app in *. lia.
Qed.

Lemma read_fields_inv n c pre rest fs c' :
  at_ c pre rest -> read_fields n c = (Some fs, c') ->
  exists rest', rest = framed fs ++ rest' /\ length fs = n /\ Forall short fs /\ at_ c' (pre ++ framed fs) rest'.
Proof.
  revert c pre rest fs. induction n as [|n IH]; intros c pre rest fs Hat Hr; cbn [read_fields] in Hr.
  - injection Hr as <- <-. exists rest. unfold framed. cbn. by rewrite app_nil_r.
  - destruct (read_bytes c) as [[f|] c1] eqn:Hf; [|done].
    destruct (read_bytes_inv _ _ _ _ _ Hat Hf) as (rest1 & -> & Hs & Hat1).
    destruct (read_fields n c1) as [[fs1|] c2] eqn:Hfs; [|done]. injection Hr as <- <-.
    destruct (IH _ _ _ _ Hat1 Hfs) as (rest2 & -> & Hlen & Hss & Hat2).
    exists rest2. rewrite framed_cons, <-!app_assoc in *. split_and!; [done|cbn; by rewrite Hlen|by constructor|done].
Qed.

Lemma unframe_inv b n fs :
  addressable b -> unframe b n = Some fs -> b = frame fs /\ length fs = n /\ Forall short fs.
Proof.
  intros Had Hu. unfold unframe in Hu. destruct (read_fields n (cursor_new b)) as [[fs'|] c] eqn:Hr; [|done].
  destruct (read_fields_inv _ _ _ _ _ _ (at_start b Had) Hr) as (rest & Hb & Hlen & Hs & (Hcb & Hci & _)).
  unfold is_done in Hu. destruct (c_i c =? _) eqn:Hdone; [|done]. injection Hu as <-.
  apply N.eqb_eq in Hdone. rewrite Hcb, Hci in Hdone. cbn [app] in Hdone.
  rewrite length_app in Hdone. assert (rest = []) as -> by (destruct rest; [done|cbn [length] in Hdone; lia]).
  rewrite frame_framed. by rewrite app_nil_r in Hb.
Qed.

(** ** The storage *)

Lemma read_values_at kvs m c pre rest :
  at_ c pre (framed (concat (map (fun kv => [kv.1; kv.2]) kvs)) ++ rest) ->
  Forall (fun kv => short kv.1 /\ short kv.2) kvs ->
  exists c', read_values (length kvs) m c = (Some (foldl (fun m kv => <[kv.1 := kv.2]> m) m kvs), c') /\
    at_ c' (pre ++ framed (concat (map (fun kv => [kv.1; kv.2]) kvs))) rest.
Proof.
  revert m c pre. induction kvs as [|[k v] kvs IH]; intros m c pre Hat Hs.
  - exists c. unfold framed in *. cbn in *. by rewrite app_nil_r.
  - apply Forall_cons in Hs as [[Hk Hv] Hs]. cbn [fst snd] in Hk, Hv.
    cbn [map concat app fst snd] in *. rewrite !framed_cons, <-!app_assoc in Hat.
    destruct (read_bytes_at _ _ _ _ Hat Hk) as (c1 & Hr1 & Hat1).
    destruct (read_bytes_at _ _ _ _ Hat1 Hv) as (c2 & Hr2 & Hat2).
    destruct (IH (<[k := v]> m) c2 _ Hat2 Hs) as (c3 & Hr3 & Hat3).
    exists c3. cbn [length read_values foldl fst snd]. rewrite Hr1, Hr2. split; [done|].
    rewrite !framed_cons, <-!app_assoc in *. done.
Qed.

Definition storable (values : list (bytes * bytes)) : Prop :=
  N.of_nat (length values) < 2 ^ 32 /\ Forall (fun kv => short kv.1 /\ short kv.2) values /\
  addressable (store_bytes values).

Lemma read_storage_bytes (values : list (bytes * bytes)) (m : gmap bytes bytes) :
  values ≡ₚ map_to_list m -> storable values -> read_storage (store_bytes values) = Some m.
Proof.
  intros Hp (Hn & Hs & Had). unfold read_storage. pose proof (at_start _ Had) as Hat.
  rewrite store_bytes_framed in Hat |- *.
  destruct (read_u32_at _ _ _ _ Hat (length_le_bytes _ _)) as (c1 & -> & Hat1).
  assert (N.to_nat (wrap 32 (le_value (le_bytes 4 (wrap 32 (N.of_nat (length values)))))) = length values) as ->.
  { rewrite le_value_bytes, !wval_wrap. change (256 ^ N.of_nat 4) with (2 ^ 32).
    rewrite !N.Div0.mod_mod, N.mod_small by done. lia. }
  rewrite <-(app_nil_r (framed _)) in Hat1.
  destruct (read_values_at values ∅ c1 _ [] Hat1 Hs) as (c2 & -> & Hat2).
  rewrite (at_end_done _ _ Hat2). f_equal.
  change (btree_collect values = m). rewrite btree_collect_list_to_map.
  - transitivity (list_to_map (M := gmap bytes bytes) (map_to_list m)); [|apply list_to_map_to_list].
    apply list_to_map_proper; [|done]. rewrite Hp. apply NoDup_fst_map_to_list.
  - rewrite Hp. apply NoDup_fst_map_to_list.
Qed.

Definition exportable (values : list (bytes * bytes)) (c : GroupClient) : Prop :=
  values ≡ₚ map_to_list (gc_storage c) /\ storable values /\ short (gc_identity c) /\
  short (signer_public (gc_signer c)) /\ short (store_bytes values) /\ addressable (export_state values c).

(** C34: a client survives [export_state] and [import_state]: whatever order
    the storage is iterated in, the import rebuilds the same storage, identity
    and signer, given that the library reads back the key pair it stored under
    its public key. *)
Theorem group_state_roundtrip values c :
  exportable values c -> signer_read (gc_storage c) (signer_public (gc_signer c)) = Some (gc_signer c) ->
  import_state (export_state values c) = Ok c.
Proof.
  intros (Hp & Hst & Hid & Hpub & Hsb & Had) Hread. unfold import_state, export_state.
  pose proof (unframe_frame [gc_identity c; signer_public (gc_signer c); store_bytes values]) as Hu.
  cbn [length] in Hu. rewrite Hu; [|by repeat constructor|exact Had].
  rewrite (read_storage_bytes values (gc_storage c) Hp Hst). cbn [ok_or rbind]. rewrite Hread. cbn [ok_or rbind].
  by destruct c.
Qed.

(** C33: what is not a whole export is refused with [Error::State], the only
    error of an import: bytes that unframe are the framing of exactly three
    fields, so that an export cut short anywhere, or with anything appended, is
    refused. *)
Theorem group_state_rejects values c k junk :
  exportable values c -> addressable (export_state values c ++ junk) ->
  (forall b e, import_state b = Err e -> e = State) /\
  ((k < length (export_state values c))%nat -> import_state (take k (export_state values c)) = Err State) /\
  (junk <> [] -> import_state (export_state values c ++ junk) = Err State).
Proof.
  intros (Hp & Hst & Hid & Hpub & Hsb & Had) Hadj.
  set (fields := [gc_identity c; signer_public (gc_signer c); store_bytes values]).
  assert (Forall short fields) as Hs by (by repeat constructor).
  assert (forall b, unframe b 3 = None -> import_state b = Err State) as Hnone.
  { intros b Hb. unfold import_state. by rewrite Hb. }
  split_and!.
  - intros b e. unfold import_state.
    destruct (unframe b 3) as [[|i [|p [|st [|? ?]]]]|]; try (by intros [= <-]).
    destruct (read_storage st); cbn; [|by intros [= <-]]. destruct (signer_read _ _); cbn; [done|by intros [= <-]].
  - intros Hk. apply Hnone. destruct (unframe _ 3) as [fs|] eqn:Hu; [exfalso|done].
    apply unframe_inv in Hu as (Hb & Hlen & Hss).
    2:{ unfold addressable in *. rewrite length_take. lia. }
    unfold export_state in *. rewrite frame_framed in *. fold fields in Hb, Hk.
    destruct (framed_prefix_free fs fields (drop k (framed fields)) Hlen Hss Hs) as [_ Hnil].
    { rewrite <-(take_drop k (framed fields)) at 2. f_equal. by rewrite <-frame_framed, <-Hb. }
    apply (f_equal length) in Hnil. rewrite length_drop in Hnil. cbn [length] in Hnil. lia.
  - intros Hj. apply Hnone. destruct (unframe _ 3) as [fs|] eqn:Hu; [exfalso|done].
    apply unframe_inv in Hu as (Hb & Hlen & Hss); [|done].
    unfold export_state in Hb. rewrite !frame_framed in Hb. fold fields in Hb.
    destruct (framed_prefix_free fields fs junk) as [_ Hnil]; [by rewrite Hlen|done|done|done|done].
Qed.
End Client.

(** A concrete key store: a key pair is filed under its public key. *)
Module GroupDemo.
Definition signer_read (storage : gmap bytes bytes) (public : bytes) : option (bytes * bytes) :=
  (fun private => (public, private)) <$> storage !! public.

Definition b (l : list N) : bytes := map (wrap 8) l.
Definition signer : bytes * bytes := (b [7; 8; 9], b [1; 2]).
Definition values : list (bytes * bytes) := [(b [7; 8; 9], b [1; 2]); (b [], b [5]); (b [4], b [])].
Definition client : GroupClient := mkClient (list_to_map values) signer (b [65; 66]).

Lemma exports : exportable fst values client.
Proof.
  assert (NoDup values.*1) as Hnd.
  { apply (bool_decide_unpack _). by vm_compute. }
  assert (Forall (fun kv => short kv.1 /\ short kv.2) values) as Hs.
  { repeat (apply Forall_cons; split; [by vm_compute|]). by apply Forall_nil. }
  unfold exportable, storable.
  assert (values ≡ₚ map_to_list (gc_storage client)) as Hp by (symmetry; by apply map_to_list_to_map).
  split_and!; [exact Hp|by vm_compute|exact Hs|by vm_compute..].
Qed.
End GroupDemo.

Lemma group_state_roundtrip_witness :
  import_state GroupDemo.signer_read (export_state fst GroupDemo.values GroupDemo.client) = Ok GroupDemo.client.
Proof.
  refine (group_state_roundtrip fst GroupDemo.signer_read GroupDemo.values GroupDemo.client GroupDemo.exports _).
  by vm_compute.
Defined.

Lemma group_state_rejects_witness :
  import_state GroupDemo.signer_read
    (take 30 (export_state fst GroupDemo.values GroupDemo.client)) = Err State /\
  import_state GroupDemo.signer_read
    (export_state fst GroupDemo.values GroupDemo.client ++ [wrap 8 0]) = Err State.
Proof.
  assert (addressable (export_state fst GroupDemo.values GroupDemo.client ++ [wrap 8 0])) as Had
    by (by vm_compute).
  destruct (group_state_rejects fst GroupDemo.signer_read GroupDemo.values GroupDemo.client 30 [wrap 8 0]
    GroupDemo.exports Had) as (_ & Hcut & Hmore).
  split; [apply Hcut; apply Nat.ltb_lt; by vm_compute|by apply Hmore].
Defined.
