(* ===== verification/Group.v ===== *)
(** * Group messaging (group/src/lib.rs)

    The operations of a client and of a group. OpenMLS is the interface [OpenMls]:
    its types, and one operation per call the code makes. The provider is reached
    through a shared reference with a lock inside, so the storage of the client is
    part of the state of every call that takes it. An error of the library is the
    text of its debug rendering; [Rand] is what a call draws. *)
From S2P Require Import Prelude Words Primitives Demo GroupState.

Record Member (Credential : Type) := mkMember { mb_index : u32; mb_credential : Credential }.
Arguments mkMember {_} _ _.
Arguments mb_index {_} _.
Arguments mb_credential {_} _.

Abbreviation Storage := (gmap bytes bytes).

Inductive MlsMessageBodyIn (W : Type) : Type := BodyWelcome (w : W) | BodyOther.
Arguments BodyWelcome {_} _.
Arguments BodyOther {_}.

Inductive ProcessedMessageContent (C : Type) : Type :=
| ApplicationMessage (app : bytes)
| StagedCommitMessage (staged : C)
| ProposalMessage
| ExternalJoinProposalMessage.
Arguments ApplicationMessage {_} _.
Arguments StagedCommitMessage {_} _.
Arguments ProposalMessage {_}.
Arguments ExternalJoinProposalMessage {_}.

Class OpenMls := {
  Rand : Type;
  Signer : Type;
  Credential : Type;
  CredentialWithKey : Type;
  KeyPackage : Type;
  KeyPackageIn : Type;
  MlsMessageOut : Type;
  MlsMessageIn : Type;
  Welcome : Type;
  StagedWelcome : Type;
  ProtocolMessage : Type;
  ProcessedMessage : Type;
  StagedCommit : Type;
  MlsGroup : Type;
  (** credentials and signature keys *)
  signer_new : Rand -> result string Signer;
  signer_store : Signer -> mut Storage string unit;
  signer_read : Storage -> bytes -> option Signer;
  signer_public : Signer -> bytes;
  basic_credential : bytes -> Credential;
  as_basic : Credential -> option bytes;           (** [BasicCredential::try_from(..)], then [identity()] *)
  with_key : Credential -> bytes -> CredentialWithKey;
  (** key packages *)
  key_package_build : Rand -> Signer -> CredentialWithKey -> mut Storage string KeyPackage;
  key_package_bytes : KeyPackage -> result string bytes;
  key_package_in : bytes -> result string KeyPackageIn;
  key_package_validate : KeyPackageIn -> result string KeyPackage;
  (** messages *)
  message_bytes : MlsMessageOut -> result string bytes;
  message_in : bytes -> result string MlsMessageIn;
  message_extract : MlsMessageIn -> MlsMessageBodyIn Welcome;
  as_protocol_message : MlsMessageIn -> result string ProtocolMessage;
  (** groups; the ratchet tree extension is on in both configurations *)
  group_new : Rand -> Signer -> bytes -> CredentialWithKey -> mut Storage string MlsGroup;
  staged_welcome_new : Welcome -> mut Storage string StagedWelcome;
  welcome_into_group : StagedWelcome -> mut Storage string MlsGroup;
  group_load : Storage -> bytes -> result string (option MlsGroup);
  mls_group_id : MlsGroup -> bytes;
  mls_members : MlsGroup -> list (Member Credential);
  add_members : Rand -> Signer -> list KeyPackage ->
    mut (MlsGroup * Storage) string (MlsMessageOut * MlsMessageOut);
  remove_members : Rand -> Signer -> list u32 -> mut (MlsGroup * Storage) string MlsMessageOut;
  merge_pending_commit : mut (MlsGroup * Storage) string unit;
  create_message : Rand -> Signer -> bytes -> mut (MlsGroup * Storage) string MlsMessageOut;
  process_message : ProtocolMessage -> mut (MlsGroup * Storage) string ProcessedMessage;
  processed_credential : ProcessedMessage -> Credential;
  processed_content : ProcessedMessage -> ProcessedMessageContent StagedCommit;
  merge_staged_commit : StagedCommit -> mut (MlsGroup * Storage) string unit
}.

Section Group.
Context `{OpenMls}.

Abbreviation GroupClient := (GroupState.GroupClient (Signer := Signer)).

Definition mls {A} (r : result string A) : result Error A := map_err Mls r.
Definition codec {A} (r : result string A) : result Error A := map_err Codec r.

(** [mls] around a call that changes the state. *)
Definition mls_call {S A} (m : mut S string A) : mut S Error A := fun s =>
  let '(r, s) := m s in (mls r, s).

Definition credential (c : GroupClient) : CredentialWithKey :=
  with_key (basic_credential (gc_identity c)) (signer_public (gc_signer c)).

Definition set_storage (c : GroupClient) (s : Storage) : GroupClient :=
  mkClient s (gc_signer c) (gc_identity c).

(** ** Groups *)

Record Group := mkGroup { mls_group : MlsGroup }.
Record AddResult : Set := mkAddResult { commit : bytes; welcome : bytes }.
Inductive GroupEvent : Set :=
| Application (sender plaintext : bytes)
| MembershipChanged
| Proposal.

(** A call on the storage of a client, and one on a group and its client. *)
Definition on_provider {A} (m : mut Storage string A) : mut GroupClient Error A := fun c =>
  let '(r, s) := mls_call m (gc_storage c) in (r, set_storage c s).
Definition on_group {A} (m : mut (MlsGroup * Storage) string A) : mut (Group * GroupClient) Error A := fun gc =>
  let '(r, (g, s)) := mls_call m (mls_group gc.1, gc_storage gc.2) in (r, (mkGroup g, set_storage gc.2 s)).

Definition basic_identity (c : Credential) : option bytes := as_basic c.

(** ** Operations of a client *)

(** The provider starts empty, and is dropped when a call fails. *)
Definition client_generate (rand : Rand) (identity : bytes) : result Error GroupClient :=
  signer <-? mls (signer_new rand);
  match mls_call (signer_store signer) ∅ with
  | (Err e, _) => Err e
  | (Ok _, storage) => Ok (mkClient storage signer identity)
  end.

Definition client_identity (c : GroupClient) : bytes := gc_identity c.

Definition key_package (rand : Rand) : mut GroupClient Error bytes := fun c =>
  (let! kp := on_provider (key_package_build rand (gc_signer c) (credential c)) in
   slift (codec (key_package_bytes kp))) c.

Definition create_group (rand : Rand) (id : bytes) : mut GroupClient Error Group := fun c =>
  (let! g := on_provider (group_new rand (gc_signer c) id (credential c)) in
   sret (mkGroup g)) c.

Definition join_group (welcome : bytes) : mut GroupClient Error Group :=
  let! message := slift (codec (message_in welcome)) in
  match message_extract message with
  | BodyWelcome w =>
      let! staged := on_provider (staged_welcome_new w) in
      let! g := on_provider (welcome_into_group staged) in
      sret (mkGroup g)
  | BodyOther => sthrow (Mls "expected a welcome message")
  end.

Definition load_group (id : bytes) (c : GroupClient) : result Error (option Group) :=
  loaded <-? mls (group_load (gc_storage c) id);
  Ok (mkGroup <$> loaded).

(** ** Operations of a group *)

Definition group_id (g : Group) : bytes := mls_group_id (mls_group g).

Definition members (g : Group) : list bytes :=
  omap (fun m => basic_identity (mb_credential m)) (mls_members (mls_group g)).

Definition add_member (rand : Rand) (key_package : bytes) : mut (Group * GroupClient) Error AddResult := fun gc =>
  (let! kp_in := slift (codec (key_package_in key_package)) in
   let! kp := slift (mls (key_package_validate kp_in)) in
   let! out := on_group (add_members rand (gc_signer gc.2) [kp]) in
   on_group merge_pending_commit ;!
   let! commit := slift (codec (message_bytes out.1)) in
   let! welcome := slift (codec (message_bytes out.2)) in
   sret (mkAddResult commit welcome)) gc.

Definition remove_member (rand : Rand) (member_index : u32) : mut (Group * GroupClient) Error bytes := fun gc =>
  (let! out := on_group (remove_members rand (gc_signer gc.2) [member_index]) in
   on_group merge_pending_commit ;!
   slift (codec (message_bytes out))) gc.

(** [find_map] over the members. *)
Fixpoint find_index (identity : bytes) (ms : list (Member Credential)) : option u32 :=
  match ms with
  | [] => None
  | m :: ms =>
      if decide (basic_identity (mb_credential m) = Some identity) then Some (mb_index m)
      else find_index identity ms
  end.
Definition member_index (identity : bytes) (g : Group) : option u32 :=
  find_index identity (mls_members (mls_group g)).

Definition group_send (rand : Rand) (plaintext : bytes) : mut (Group * GroupClient) Error bytes := fun gc =>
  (let! out := on_group (create_message rand (gc_signer gc.2) plaintext) in
   slift (codec (message_bytes out))) gc.

Definition group_process (message : bytes) : mut (Group * GroupClient) Error GroupEvent :=
  let! msg := slift (codec (message_in message)) in
  let! protocol := slift (mls (as_protocol_message msg)) in
  let! processed := on_group (process_message protocol) in
  let sender := default [] (basic_identity (processed_credential processed)) in
  match processed_content processed with
  | ApplicationMessage app => sret (Application sender app)
  | StagedCommitMessage staged =>
      on_group (merge_staged_commit staged) ;! sret MembershipChanged
  | ProposalMessage | ExternalJoinProposalMessage => sret Proposal
  end.

End Group.
