(* ===== verification/GroupProps.v ===== *)
(** * Agreement of group members (group/src/lib.rs)

    What OpenMLS documents of the calls the code makes, stated on a view of a
    group (its epoch, the roster of that epoch, the commit it has pending, the
    messages of the epoch it has sent and opened), and the theorem that members
    which follow one order of commits agree. *)
From S2P Require Import Prelude Words Primitives Demo GroupState Group.

(** ** The documented behaviour of OpenMLS

    An epoch stands for all that the members of a group share between two
    commits. [live g s]: the client is still a member of [g], and its storage [s]
    holds the private keys of the epoch of [g]; [sent g]: how many application
    messages it has written in the epoch; [heard g l]: the numbers of those of the
    member at leaf [l] it has opened; [committed g l]: it has opened a commit of
    that member.
    [leads m e l e']: [m] is the commit of the member at leaf [l] from [e] to [e'];
    [timely m]: the key packages in the commit [m] are within their lifetime;
    [invites m kp l e]: [m] is the welcome that seats the owner of [kp] at leaf [l]
    of [e]; [speaks m e l k pt]: [m] is the application message number [k] of the
    member at leaf [l]; [stages sc e e']: [sc] is a verified commit, not merged yet;
    [carries i m]: [i] is [m] as it was received. *)
Class MlsView `{OpenMls} := {
  Epoch : Type;
  epoch_of : MlsGroup -> Epoch;
  roster : Epoch -> list (Member Credential);
  pending : MlsGroup -> option Epoch;
  own_leaf : MlsGroup -> u32;
  live : MlsGroup -> Storage -> Prop;
  sent : MlsGroup -> nat;
  heard : MlsGroup -> u32 -> list nat;
  committed : MlsGroup -> u32 -> Prop;
  credential_of : CredentialWithKey -> Credential;
  kp_credential : KeyPackage -> Credential;
  leads : MlsMessageOut -> Epoch -> u32 -> Epoch -> Prop;
  timely : MlsMessageOut -> Prop;
  invites : MlsMessageOut -> KeyPackage -> u32 -> Epoch -> Prop;
  speaks : MlsMessageOut -> Epoch -> u32 -> nat -> bytes -> Prop;
  stages : StagedCommit -> Epoch -> Epoch -> Prop;
  carries : MlsMessageIn -> MlsMessageOut -> Prop
}.

(** The defaults of [SenderRatchetConfiguration], which neither configuration of
    the code changes: how far back a message can still be opened, and how many can
    be skipped. *)
Definition OUT_OF_ORDER_TOLERANCE : nat := 5.
Definition MAXIMUM_FORWARD_DISTANCE : nat := N.to_nat 1000.

Definition ratchet_head (ks : list nat) : nat := foldr (fun k h => Nat.max (S k) h) 0 ks.

(** Of a member of which the messages [ks] of an epoch were opened, number [k] can be. *)
Definition openable (k : nat) (ks : list nat) : Prop :=
  (k ∉ ks) /\ ratchet_head ks <= k + OUT_OF_ORDER_TOLERANCE /\ k <= ratchet_head ks + MAXIMUM_FORWARD_DISTANCE.
#[export] Instance openable_dec k ks : Decision (openable k ks).
Proof. unfold openable. apply _. Defined.

Section View.
Context `{MlsView}.

Definition same_seat (g g' : MlsGroup) : Prop :=
  epoch_of g' = epoch_of g /\ pending g' = pending g /\ own_leaf g' = own_leaf g.

(** At the start of an epoch. *)
Definition fresh (g : MlsGroup) (s : Storage) : Prop :=
  live g s /\ sent g = 0 /\ (forall l, heard g l = []) /\ (forall l, ~ committed g l).

(** The member could go on as before. *)
Definition still_live (g : MlsGroup) (s : Storage) (g' : MlsGroup) (s' : Storage) : Prop :=
  (live g s -> live g' s') /\ forall l, committed g' l -> committed g l.
End View.

Class OpenMlsLaws `{MlsView} : Prop := {
  as_basic_credential id : as_basic (basic_credential id) = Some id;
  credential_of_with_key c k : credential_of (with_key c k) = c;
  members_roster g : mls_members g = roster (epoch_of g);
  roster_nodup e : NoDup (mb_index <$> roster e);
  (** what is encoded is decoded *)
  key_package_carried kp b ki kp' :
    key_package_bytes kp = Ok b -> key_package_in b = Ok ki -> key_package_validate ki = Ok kp' -> kp' = kp;
  message_carried m b : message_bytes m = Ok b -> exists i, message_in b = Ok i /\ carries i m;
  (** a new key package bears the credential it was built with, and is stored
      beside the keys of the groups *)
  key_package_built r sg c s kp s' :
    key_package_build r sg c s = (Ok kp, s') ->
    kp_credential kp = credential_of c /\ forall g, live g s -> live g s';
  (** the creator of a group sits alone, at leaf 0 *)
  group_created r sg id c s g s' :
    group_new r sg id c s = (Ok g, s') ->
    roster (epoch_of g) = [mkMember (wrap 32 0) (credential_of c)] /\ pending g = None /\
    own_leaf g = wrap 32 0 /\ fresh g s';
  (** a commit is only pending until it is merged *)
  members_added r sg kp g s m wl g' s' :
    add_members r sg [kp] (g, s) = (Ok (m, wl), (g', s')) -> pending g = None ->
    exists e l, pending g' = Some e /\ epoch_of g' = epoch_of g /\ own_leaf g' = own_leaf g /\
      leads m (epoch_of g) (own_leaf g) e /\ invites wl kp l e /\
      forall x, x ∈ roster e <-> x = mkMember l (kp_credential kp) \/ x ∈ roster (epoch_of g);
  members_removed r sg i g s m g' s' :
    remove_members r sg [i] (g, s) = (Ok m, (g', s')) -> pending g = None ->
    exists e, pending g' = Some e /\ epoch_of g' = epoch_of g /\ own_leaf g' = own_leaf g /\
      leads m (epoch_of g) (own_leaf g) e /\ i <> own_leaf g /\
      forall x, x ∈ roster e <-> mb_index x <> i /\ x ∈ roster (epoch_of g);
  pending_merged g s g' s' e :
    merge_pending_commit (g, s) = (Ok tt, (g', s')) -> pending g = Some e ->
    epoch_of g' = e /\ pending g' = None /\ own_leaf g' = own_leaf g /\ fresh g' s';
  (** a welcome seats the newcomer in the epoch it was made for *)
  welcome_joined i m kp l e w s st s1 g s2 :
    carries i m -> invites m kp l e -> message_extract i = BodyWelcome w ->
    staged_welcome_new w s = (Ok st, s1) -> welcome_into_group st s1 = (Ok g, s2) ->
    epoch_of g = e /\ pending g = None /\ own_leaf g = l /\ fresh g s2;
  (** application messages are numbered within the epoch of their sender *)
  message_created r sg pt g s m g' s' :
    create_message r sg pt (g, s) = (Ok m, (g', s')) ->
    speaks m (epoch_of g) (own_leaf g) (sent g) pt /\ same_seat g g' /\ still_live g s g' s' /\
    sent g' = S (sent g) /\ forall l, heard g' l = heard g l;
  (** processing a message does not change the epoch *)
  process_keeps p g s r g' s' : process_message p (g, s) = (r, (g', s')) -> same_seat g g';
  (** an application message that is opened has its text and its sender, and its
      secret is used up *)
  message_opened i m e l k pt p g s pm g' s' :
    carries i m -> speaks m e l k pt -> as_protocol_message i = Ok p ->
    process_message p (g, s) = (Ok pm, (g', s')) ->
    processed_content pm = ApplicationMessage pt /\ mkMember l (processed_credential pm) ∈ roster e /\
    still_live g s g' s' /\ sent g' = sent g /\
    forall l', heard g' l' = if decide (l' = l) then k :: heard g l else heard g l';
  (** one of another member, of the same epoch, that is within the window of its
      sender is opened *)
  message_accepted i m l k pt g s :
    carries i m -> speaks m (epoch_of g) l k pt -> live g s -> own_leaf g <> l -> openable k (heard g l) ->
    exists p pm gs', as_protocol_message i = Ok p /\ process_message p (g, s) = (Ok pm, gs');
  (** a commit of the epoch is verified by every other live member of it that has
      none of its own pending and has opened none of that sender *)
  commit_accepted i m l e' g s :
    carries i m -> leads m (epoch_of g) l e' -> timely m -> live g s -> pending g = None ->
    own_leaf g <> l -> ~ committed g l ->
    exists p pm g' s', as_protocol_message i = Ok p /\
      process_message p (g, s) = (Ok pm, (g', s')) /\ live g' s';
  (** one of another epoch is refused *)
  commit_staged i m e l e' p g s pm g' s' :
    carries i m -> leads m e l e' -> as_protocol_message i = Ok p ->
    process_message p (g, s) = (Ok pm, (g', s')) ->
    epoch_of g = e /\ exists sc, processed_content pm = StagedCommitMessage sc /\ stages sc e e';
  (** a verified commit can be merged, and who is still seated starts the new epoch *)
  staged_merges sc e' g s :
    stages sc (epoch_of g) e' -> live g s -> pending g = None ->
    exists gs', merge_staged_commit sc (g, s) = (Ok tt, gs');
  staged_merged sc e' g s g' s' :
    stages sc (epoch_of g) e' -> pending g = None -> merge_staged_commit sc (g, s) = (Ok tt, (g', s')) ->
    pending g' = None /\ own_leaf g' = own_leaf g /\
    forall c, mkMember (own_leaf g) c ∈ roster (epoch_of g) -> mkMember (own_leaf g) c ∈ roster e' ->
      epoch_of g' = e' /\ fresh g' s'
}.

Section GroupProps.
Context `{OpenMlsLaws}.

Abbreviation GroupClient := (GroupState.GroupClient (Signer := Signer)).

Definition seat (g : Group) : Epoch := epoch_of (mls_group g).
Definition settled (g : Group) : Prop := pending (mls_group g) = None.
Definition leaf (g : Group) : u32 := own_leaf (mls_group g).
Definition new_epoch (g : Group) (c : GroupClient) : Prop := fresh (mls_group g) (gc_storage c).

(** ** What the operations do, in terms of the view *)

Lemma on_group_Ok {A} (m : mut (MlsGroup * Storage) string A) g c a gc :
  on_group m (g, c) = (Ok a, gc) ->
  exists g' s', m (mls_group g, gc_storage c) = (Ok a, (g', s')) /\ gc = (mkGroup g', set_storage c s').
Proof.
  unfold on_group, mls_call, mls. cbn [fst snd].
  destruct (m _) as [[x|x] [g' s']]; cbn; [|done]. intros [= -> <-]. eauto.
Qed.

Lemma on_provider_Ok {A} (m : mut Storage string A) c a c' :
  on_provider m c = (Ok a, c') ->
  exists s', m (gc_storage c) = (Ok a, s') /\ c' = set_storage c s'.
Proof.
  unfold on_provider, mls_call, mls.
  destruct (m _) as [[x|x] s']; cbn; [|done]. intros [= -> <-]. eauto.
Qed.

Lemma slift_Ok {S E A} (r : result E A) (s s' : S) a : slift r s = (Ok a, s') -> r = Ok a /\ s' = s.
Proof. unfold slift. by intros [= -> ->]. Qed.

Lemma codec_Ok {A} (r : result string A) a : codec r = Ok a -> r = Ok a.
Proof. apply map_err_Ok. Qed.
Lemma mls_Ok {A} (r : result string A) a : mls r = Ok a -> r = Ok a.
Proof. apply map_err_Ok. Qed.

Lemma sret_Ok {S E A} (a b : A) (s s' : S) : (sret a s : result E A * S) = (Ok b, s') -> a = b /\ s' = s.
Proof. unfold sret. by intros [= -> ->]. Qed.

(** Follows a call that succeeded through its steps. *)
Ltac follow :=
  repeat match goal with
  | Hr : sbind _ _ _ = (Ok _, _) |- _ => apply sbind_Ok in Hr as (? & ? & ? & ?)
  | Hr : slift _ _ = (Ok _, _) |- _ => apply slift_Ok in Hr as [? ?]; simplify_eq
  | Hr : sret _ _ = (Ok _, _) |- _ => apply sret_Ok in Hr as [? ?]; simplify_eq
  | Hr : codec _ = Ok _ |- _ => apply codec_Ok in Hr
  | Hr : mls _ = Ok _ |- _ => apply mls_Ok in Hr
  | Hr : on_group _ _ = (Ok _, _) |- _ => apply on_group_Ok in Hr as (? & ? & Hr & ?); simplify_eq; cbn [mls_group set_storage gc_storage] in Hr
  | Hr : on_provider _ _ = (Ok _, _) |- _ => apply on_provider_Ok in Hr as (? & Hr & ?); simplify_eq; cbn [set_storage gc_storage] in Hr
  | u : unit |- _ => destruct u
  end.

Lemma members_seat g : members g = omap (fun m => basic_identity (mb_credential m)) (roster (seat g)).
Proof. unfold members. by rewrite members_roster. Qed.

Lemma key_package_spec r c b c' :
  key_package r c = (Ok b, c') ->
  gc_identity c' = gc_identity c /\ (forall g, live g (gc_storage c) -> live g (gc_storage c')) /\
  exists kp, key_package_bytes kp = Ok b /\ kp_credential kp = basic_credential (gc_identity c).
Proof.
  unfold key_package. intros Hr. follow.
  match goal with Hk : key_package_build _ _ _ _ = _ |- _ => destruct (key_package_built _ _ _ _ _ _ Hk) as [Hcred Hlive] end.
  split_and!; [done|done|]. eexists. split; [eassumption|]. rewrite Hcred. apply credential_of_with_key.
Qed.

Lemma create_group_spec r id c g c' :
  create_group r id c = (Ok g, c') ->
  gc_identity c' = gc_identity c /\ settled g /\ new_epoch g c' /\
  mkMember (leaf g) (basic_credential (gc_identity c)) ∈ roster (seat g).
Proof.
  unfold create_group. intros Hr. follow.
  match goal with Hg : group_new _ _ _ _ _ = _ |- _ => destruct (group_created _ _ _ _ _ _ _ Hg) as (Hro & Hp & Hl & Hf) end.
  unfold settled, leaf, seat, new_epoch. cbn [mls_group]. split_and!; [done|done|exact Hf|]. rewrite Hro, Hl.
  unfold credential. rewrite credential_of_with_key. by left.
Qed.

Lemma join_group_spec b m kp l e c g c' :
  join_group b c = (Ok g, c') -> message_bytes m = Ok b -> invites m kp l e ->
  gc_identity c' = gc_identity c /\ settled g /\ leaf g = l /\ seat g = e /\ new_epoch g c'.
Proof.
  unfold join_group. intros Hr Hm Hinv. apply sbind_Ok in Hr as (i & c1 & Hi & Hr). follow.
  destruct (message_carried _ _ Hm) as (i' & Hi' & Hc).
  assert (i' = i) as -> by congruence.
  destruct (message_extract i) as [w|] eqn:Hw; [|done]. follow.
  edestruct welcome_joined as (He & Hp & Hl & Hf); [exact Hc|exact Hinv|exact Hw|eassumption..|].
  by split_and!.
Qed.

Lemma add_member_spec r kpb kp g c res g' c' :
  add_member r kpb (g, c) = (Ok res, (g', c')) -> settled g -> key_package_bytes kp = Ok kpb ->
  gc_identity c' = gc_identity c /\ settled g' /\ leaf g' = leaf g /\ new_epoch g' c' /\
  exists m wl l, message_bytes m = Ok (commit res) /\ message_bytes wl = Ok (welcome res) /\
    leads m (seat g) (leaf g) (seat g') /\ invites wl kp l (seat g') /\
    forall x, x ∈ roster (seat g') <-> x = mkMember l (kp_credential kp) \/ x ∈ roster (seat g).
Proof.
  unfold add_member. intros Hr Hs Hkp. follow. cbn [fst snd] in *. follow.
  match goal with Hv : key_package_validate _ = _ |- _ => pose proof (key_package_carried _ _ _ _ Hkp ltac:(eassumption) Hv) as -> end.
  match goal with Ha : add_members _ _ _ _ = (Ok ?out, _) |- _ => destruct out as [m wl];
    destruct (members_added _ _ _ _ _ _ _ _ _ Ha Hs) as (e & l & Hp & He & Hl & Hlead & Hinv & Hro) end.
  match goal with Hm : merge_pending_commit _ = _ |- _ => destruct (pending_merged _ _ _ _ _ Hm Hp) as (He' & Hp' & Hl' & Hf') end.
  unfold settled, leaf, seat, new_epoch in *. subst. cbn in *. split_and!; [done|done|congruence|done|].
  exists m, wl, l. split_and!; try done; apply Hro.
Qed.

Lemma remove_member_spec r i g c b g' c' :
  remove_member r i (g, c) = (Ok b, (g', c')) -> settled g ->
  gc_identity c' = gc_identity c /\ settled g' /\ leaf g' = leaf g /\ new_epoch g' c' /\ i <> leaf g /\
  exists m, message_bytes m = Ok b /\ leads m (seat g) (leaf g) (seat g') /\
    forall x, x ∈ roster (seat g') <-> mb_index x <> i /\ x ∈ roster (seat g).
Proof.
  unfold remove_member. intros Hr Hs. follow. cbn [fst snd] in *. follow.
  match goal with Ha : remove_members _ _ _ _ = _ |- _ =>
    destruct (members_removed _ _ _ _ _ _ _ _ Ha Hs) as (e & Hp & He & Hl & Hlead & Hi & Hro) end.
  match goal with Hm : merge_pending_commit _ = _ |- _ => destruct (pending_merged _ _ _ _ _ Hm Hp) as (He' & Hp' & Hl' & Hf') end.
  unfold settled, leaf, seat, new_epoch in *. subst. cbn in *. split_and!; [done|done|congruence|done|done|].
  eexists. split_and!; [done|done|apply Hro].
Qed.

Lemma group_send_spec r pt g c b g' c' :
  group_send r pt (g, c) = (Ok b, (g', c')) ->
  gc_identity c' = gc_identity c /\ same_seat (mls_group g) (mls_group g') /\
  still_live (mls_group g) (gc_storage c) (mls_group g') (gc_storage c') /\
  sent (mls_group g') = S (sent (mls_group g)) /\ (forall l, heard (mls_group g') l = heard (mls_group g) l) /\
  exists m, message_bytes m = Ok b /\ speaks m (seat g) (leaf g) (sent (mls_group g)) pt.
Proof.
  unfold group_send. intros Hr. follow. cbn in *.
  match goal with Ha : create_message _ _ _ _ = _ |- _ =>
    destruct (message_created _ _ _ _ _ _ _ _ Ha) as (? & ? & ? & ? & ?) end.
  split_and!; try done. by eexists.
Qed.

Lemma on_group_run {A} (m : mut (MlsGroup * Storage) string A) g c a g' s' :
  m (mls_group g, gc_storage c) = (Ok a, (g', s')) -> on_group m (g, c) = (Ok a, (mkGroup g', set_storage c s')).
Proof. intros Hm. unfold on_group, mls_call. cbn [fst snd]. by rewrite Hm. Qed.

(** What processing does once the message is decoded. *)
Lemma process_decoded b m i p g c :
  message_bytes m = Ok b -> message_in b = Ok i -> as_protocol_message i = Ok p ->
  group_process b (g, c)
  = (let! processed := on_group (process_message p) in
     let sender := default [] (basic_identity (processed_credential processed)) in
     match processed_content processed with
     | ApplicationMessage app => sret (Application sender app)
     | StagedCommitMessage staged =>
         on_group (merge_staged_commit staged) ;! sret MembershipChanged
     | ProposalMessage | ExternalJoinProposalMessage => sret Proposal
     end) (g, c).
Proof.
  intros Hm Hi Hp. unfold group_process. rewrite (sbind_ok _ _ _ i (g, c)) by (unfold slift; by rewrite Hi).
  by rewrite (sbind_ok _ _ _ p (g, c)) by (unfold slift; by rewrite Hp).
Qed.

(** A commit that is applied was one of the group's epoch. *)
Lemma process_commit_spec b m e l e' g c ev g' c' :
  group_process b (g, c) = (Ok ev, (g', c')) -> message_bytes m = Ok b -> leads m e l e' -> settled g ->
  ev = MembershipChanged /\ seat g = e /\
  gc_identity c' = gc_identity c /\ settled g' /\ leaf g' = leaf g /\
  forall cr, mkMember (leaf g) cr ∈ roster e -> mkMember (leaf g) cr ∈ roster e' -> seat g' = e' /\ new_epoch g' c'.
Proof.
  unfold group_process. intros Hr Hm Hlead Hs. apply sbind_Ok in Hr as (i & gc & Hi & Hr). follow.
  destruct (message_carried _ _ Hm) as (i' & Hi' & Hc). assert (i' = i) as -> by congruence.
  match goal with Hp : process_message _ _ = _ |- _ =>
    destruct (commit_staged _ _ _ _ _ _ _ _ _ _ _ Hc Hlead ltac:(eassumption) Hp) as (He & sc & Hcon & Hst);
    destruct (process_keeps _ _ _ _ _ _ Hp) as (He1 & Hp1 & Hl1); rewrite Hcon in * end.
  follow. cbn [mls_group] in *.
  match goal with Hg : merge_staged_commit _ _ = _ |- _ =>
    destruct (staged_merged sc e' _ _ _ _ ltac:(by rewrite He1) ltac:(by rewrite Hp1) Hg) as (Hp2 & Hl2 & Hmove) end.
  unfold settled, leaf, seat, new_epoch in *. cbn [mls_group]. rewrite Hl1, He1 in Hmove. rewrite Hl2, Hl1.
  by split_and!.
Qed.

(** The next commit is applied. *)
Lemma process_commit_accepted b m l e' g c :
  message_bytes m = Ok b -> leads m (seat g) l e' -> timely m -> live (mls_group g) (gc_storage c) ->
  settled g -> leaf g <> l -> ~ committed (mls_group g) l ->
  exists g' c', group_process b (g, c) = (Ok MembershipChanged, (g', c')).
Proof.
  intros Hm Hlead Ht Hlive Hs Hl Hn. destruct (message_carried _ _ Hm) as (i & Hi & Hc).
  destruct (commit_accepted i m l e' (mls_group g) (gc_storage c) Hc Hlead Ht Hlive Hs Hl Hn)
    as (p & pm & g1 & s1 & Hp & Hpm & Hlive1).
  destruct (commit_staged _ _ _ _ _ _ _ _ _ _ _ Hc Hlead Hp Hpm) as (_ & sc & Hcon & Hst).
  destruct (process_keeps _ _ _ _ _ _ Hpm) as (He1 & Hp1 & _).
  destruct (staged_merges sc e' g1 s1 ltac:(by rewrite He1) Hlive1 ltac:(by rewrite Hp1)) as ([g2 s2] & Hmg).
  exists (mkGroup g2), (set_storage c s2). rewrite (process_decoded b m i p) by done.
  erewrite sbind_ok by (by apply on_group_run). rewrite Hcon. by erewrite sbind_ok by (by apply on_group_run).
Qed.

(** What an application message can turn out to be. *)
Lemma process_message_spec b m e l k pt g c ev g' c' :
  group_process b (g, c) = (Ok ev, (g', c')) -> message_bytes m = Ok b -> speaks m e l k pt ->
  gc_identity c' = gc_identity c /\ same_seat (mls_group g) (mls_group g') /\
  still_live (mls_group g) (gc_storage c) (mls_group g') (gc_storage c') /\
  sent (mls_group g') = sent (mls_group g) /\
  (forall l', heard (mls_group g') l' = if decide (l' = l) then k :: heard (mls_group g) l else heard (mls_group g) l') /\
  exists cr, ev = Application (default [] (as_basic cr)) pt /\ mkMember l cr ∈ roster e.
Proof.
  unfold group_process. intros Hr Hm Hs. apply sbind_Ok in Hr as (i & gc & Hi & Hr). follow.
  destruct (message_carried _ _ Hm) as (i' & Hi' & Hc). assert (i' = i) as -> by congruence.
  match goal with Hp : process_message _ _ = _ |- _ =>
    destruct (message_opened _ _ _ _ _ _ _ _ _ _ _ _ Hc Hs ltac:(eassumption) Hp) as (Hcon & Hin & Hl & Hsent & Hh);
    pose proof (process_keeps _ _ _ _ _ _ Hp) as Hkeep; rewrite Hcon in * end.
  follow. split_and!; try done. by eexists.
Qed.

(** One within the window of its sender is opened. *)
Lemma process_message_accepted b m l k pt g c :
  message_bytes m = Ok b -> speaks m (seat g) l k pt -> live (mls_group g) (gc_storage c) -> leaf g <> l ->
  openable k (heard (mls_group g) l) -> exists ev gc', group_process b (g, c) = (Ok ev, gc').
Proof.
  intros Hm Hsp Hlive Hl Hk. destruct (message_carried _ _ Hm) as (i & Hi & Hc).
  destruct (message_accepted i m l k pt (mls_group g) (gc_storage c) Hc Hsp Hlive Hl Hk) as (p & pm & [g1 s1] & Hp & Hpm).
  destruct (message_opened _ _ _ _ _ _ _ _ _ _ _ _ Hc Hsp Hp Hpm) as (Hcon & _).
  rewrite (process_decoded b m i p) by done. erewrite sbind_ok by (by apply on_group_run). rewrite Hcon. by eexists _, _.
Qed.

(** ** A group of clients

    Every client has a name, its identity bytes. The delivery service keeps the
    commits in one order; a client with a seat has followed the first [pl_at] of
    them, and has since written [pl_said] messages and read those in [pl_heard]
    (leaf and number of each). It commits only when it is up to date, and is not sent
    its own commits; one that receives its own removal has left. Key packages and
    welcomes are handed over as they are made, and messages are delivered to
    anybody, at any time, any number of times. The steps are the calls that
    succeed. *)
Record place := mkPlace { pl_group : Group; pl_at : nat; pl_said : nat; pl_heard : list (u32 * nat) }.
Definition arrives (g : Group) (n : nat) : place := mkPlace g n 0 [].

Record peer := mkPeer { p_client : GroupClient; p_seat : option place }.
Record entry : Set := mkEntry { en_commit : bytes; en_author : nat; en_gone : option u32 }.
Record speech : Set := mkSpeech {
  sp_author : nat; sp_text : bytes; sp_bytes : bytes; sp_at : nat; sp_leaf : u32; sp_number : nat
}.
Record world := mkWorld {
  peers : gmap nat peer;
  log : list entry;
  packages : list (nat * bytes);
  invitations : list (nat * bytes * nat);
  traffic : list speech
}.

(** The numbers of the messages from leaf [l]. *)
Definition numbers (l : u32) (hs : list (u32 * nat)) : list nat := (filter (fun x => x.1 = l) hs).*2.

Definition put (a : nat) (p : peer) (w : world) : world :=
  mkWorld (<[a := p]> (peers w)) (log w) (packages w) (invitations w) (traffic w).

(** What the steps change beside the client that takes them. *)
Definition offer (a : nat) (kpb : bytes) (w : world) : world :=
  mkWorld (peers w) (log w) ((a, kpb) :: packages w) (invitations w) (traffic w).
Definition ordered (en : entry) (inv : list (nat * bytes * nat)) (w : world) : world :=
  mkWorld (peers w) (log w ++ [en]) (packages w) (inv ++ invitations w) (traffic w).
Definition spread (x : speech) (w : world) : world :=
  mkWorld (peers w) (log w) (packages w) (invitations w) (x :: traffic w).

(** Where a client is after the commit [en], and after it wrote or read a message. *)
Definition follows (en : entry) (pl : place) (g' : Group) : option place :=
  if decide (en_gone en = Some (leaf (pl_group pl))) then None else Some (arrives g' (S (pl_at pl))).
Definition spoke (pl : place) (g' : Group) : place := mkPlace g' (pl_at pl) (S (pl_said pl)) (pl_heard pl).
Definition listened (x : speech) (pl : place) (g' : Group) : place :=
  mkPlace g' (pl_at pl) (pl_said pl) ((sp_leaf x, sp_number x) :: pl_heard pl).
Definition speech_of (a : nat) (pt b : bytes) (pl : place) : speech :=
  mkSpeech a pt b (pl_at pl) (leaf (pl_group pl)) (pl_said pl).

Inductive group_step : world -> world -> Prop :=
| step_publish a p r b c w :
    peers w !! a = Some p -> key_package r (p_client p) = (Ok b, c) ->
    group_step w (put a (mkPeer c (p_seat p)) (offer a b w))
| step_add a p pl r b kpb res g' c w :
    peers w !! a = Some p -> p_seat p = Some pl -> pl_at pl = length (log w) -> (b, kpb) ∈ packages w ->
    add_member r kpb (pl_group pl, p_client p) = (Ok res, (g', c)) ->
    group_step w (put a (mkPeer c (Some (arrives g' (S (pl_at pl)))))
      (ordered (mkEntry (commit res) a None) [(b, welcome res, S (pl_at pl))] w))
| step_remove a p pl r i cb g' c w :
    peers w !! a = Some p -> p_seat p = Some pl -> pl_at pl = length (log w) ->
    remove_member r i (pl_group pl, p_client p) = (Ok cb, (g', c)) ->
    group_step w (put a (mkPeer c (Some (arrives g' (S (pl_at pl))))) (ordered (mkEntry cb a (Some i)) [] w))
| step_join a p b n g c w :
    peers w !! a = Some p -> p_seat p = None -> (a, b, n) ∈ invitations w ->
    join_group b (p_client p) = (Ok g, c) -> group_step w (put a (mkPeer c (Some (arrives g n))) w)
| step_follow a p pl en ev g' c w :
    peers w !! a = Some p -> p_seat p = Some pl -> log w !! pl_at pl = Some en -> en_author en <> a ->
    group_process (en_commit en) (pl_group pl, p_client p) = (Ok ev, (g', c)) ->
    group_step w (put a (mkPeer c (follows en pl g')) w)
| step_speak a p pl r pt b g' c w :
    peers w !! a = Some p -> p_seat p = Some pl -> group_send r pt (pl_group pl, p_client p) = (Ok b, (g', c)) ->
    group_step w (put a (mkPeer c (Some (spoke pl g'))) (spread (speech_of a pt b pl) w))
| step_hear a p pl x ev g' c w :
    peers w !! a = Some p -> p_seat p = Some pl -> x ∈ traffic w ->
    group_process (sp_bytes x) (pl_group pl, p_client p) = (Ok ev, (g', c)) ->
    group_step w (put a (mkPeer c (Some (listened x pl g'))) w).

(** ** Running a group *)

Inductive act : Type :=
| Publish (a : nat) (r : Rand)
| Add (a b : nat) (r : Rand)
| Remove (a : nat) (r : Rand) (i : u32)
| Join (a : nat)
| Follow (a : nat)
| Speak (a : nat) (r : Rand) (pt : bytes)
| Hear (a i : nat).

Definition of_client {A} (i : nat) (l : list (nat * A)) : option A := snd <$> head (filter (fun x => x.1 = i) l).

(** The state after a call that succeeds. *)
Definition success {A S} (r : result Error A * S) : option (A * S) :=
  match r with (Ok a, s) => Some (a, s) | (Err _, _) => None end.

Definition perform (x : act) (w : world) : option world :=
  match x with
  | Publish a r =>
      p ← peers w !! a;
      '(b, c) ← success (key_package r (p_client p));
      Some (put a (mkPeer c (p_seat p)) (offer a b w))
  | Add a b r =>
      p ← peers w !! a;
      pl ← p_seat p;
      kpb ← of_client b (packages w);
      guard (pl_at pl = length (log w));;
      '(res, (g', c)) ← success (add_member r kpb (pl_group pl, p_client p));
      Some (put a (mkPeer c (Some (arrives g' (S (pl_at pl)))))
        (ordered (mkEntry (commit res) a None) [(b, welcome res, S (pl_at pl))] w))
  | Remove a r i =>
      p ← peers w !! a;
      pl ← p_seat p;
      guard (pl_at pl = length (log w));;
      '(cb, (g', c)) ← success (remove_member r i (pl_group pl, p_client p));
      Some (put a (mkPeer c (Some (arrives g' (S (pl_at pl))))) (ordered (mkEntry cb a (Some i)) [] w))
  | Join a =>
      p ← peers w !! a;
      '(b, n) ← of_client a (map (fun '(a, b, n) => (a, (b, n))) (invitations w));
      guard (p_seat p = None);;
      '(g, c) ← success (join_group b (p_client p));
      Some (put a (mkPeer c (Some (arrives g n))) w)
  | Follow a =>
      p ← peers w !! a;
      pl ← p_seat p;
      en ← log w !! pl_at pl;
      guard (en_author en <> a);;
      '(ev, (g', c)) ← success (group_process (en_commit en) (pl_group pl, p_client p));
      Some (put a (mkPeer c (follows en pl g')) w)
  | Speak a r pt =>
      p ← peers w !! a;
      pl ← p_seat p;
      '(b, (g', c)) ← success (group_send r pt (pl_group pl, p_client p));
      Some (put a (mkPeer c (Some (spoke pl g'))) (spread (speech_of a pt b pl) w))
  | Hear a i =>
      p ← peers w !! a;
      pl ← p_seat p;
      x ← traffic w !! i;
      '(ev, (g', c)) ← success (group_process (sp_bytes x) (pl_group pl, p_client p));
      Some (put a (mkPeer c (Some (listened x pl g'))) w)
  end.

Lemma of_client_elem {A} i (l : list (nat * A)) x : of_client i l = Some x -> (i, x) ∈ l.
Proof.
  unfold of_client. destruct (head _) as [[j y]|] eqn:Hh; cbn; [|done]. intros [= <-].
  apply head_Some_elem_of in Hh. by apply list_elem_of_filter in Hh as [<- Hin].
Qed.

Lemma of_client_invited a w x :
  of_client a (map (fun '(a, b, n) => (a, (b, n))) (invitations w)) = Some x -> (a, x.1, x.2) ∈ invitations w.
Proof. by intros ([[a' b'] n'] & [= -> ->] & Hin)%of_client_elem%list_elem_of_fmap. Qed.

Lemma success_Some {A S} (r : result Error A * S) x : success r = Some x -> r = (Ok x.1, x.2).
Proof. destruct r as [[a|e] s]; cbn; [|done]. by intros [= <-]. Qed.

Lemma perform_step x w w' : perform x w = Some w' -> group_step w w'.
Proof.
  destruct x as [a r|a b r|a r i|a|a|a r pt|a i]; cbn [perform]; intros Hx;
    repeat match type of Hx with
    | (_ ≫= _) = Some _ => apply bind_Some in Hx as (? & ? & Hx); destruct_and?
    | (let '_ := ?y in _) = Some _ => destruct y; simplify_eq/=
    end; simplify_option_eq;
    repeat match goal with Hd : success _ = Some _ |- _ => apply success_Some in Hd; cbn [fst snd] in Hd end;
    repeat match goal with Hc : of_client _ (map _ _) = Some _ |- _ => apply of_client_invited in Hc; cbn [fst snd] in Hc end;
    econstructor; solve [eauto using of_client_elem, list_elem_of_lookup_2].
Qed.

Definition perform_all (xs : list act) (w : world) : option world :=
  foldl (fun o x => w ← o; perform x w) (Some w) xs.

Lemma perform_all_star xs w w' : perform_all xs w = Some w' -> star group_step w w'.
Proof.
  unfold perform_all. revert w'. induction xs as [|x xs IH] using rev_ind; intros w'.
  - intros [= <-]. apply star_refl.
  - rewrite foldl_snoc. destruct (foldl _ _ xs) as [w1|]; [|done]. cbn. intros Hx.
    eapply star_step; [by apply IH|]. by eapply perform_step.
Qed.

Lemma perform_all_reaches xs w :
  match perform_all xs w with Some _ => true | None => false end = true -> star group_step w (default w (perform_all xs w)).
Proof. destruct (perform_all xs w) eqn:Hx; [|done]. intros _. by apply (perform_all_star xs). Qed.

(** ** The invariant *)

Section Agreement.
Context (name : nat -> bytes) `{!Inj (=) (=) name}.

(** The seat of client [a] in an epoch. *)
Definition seat_of (a : nat) (l : u32) : Member Credential := mkMember l (basic_credential (name a)).

(** A place among the epochs [es], of the client [a] with [c]. *)
Record placed (es : list Epoch) (a : nat) (c : GroupClient) (pl : place) : Prop := {
  pc_at : es !! pl_at pl = Some (seat (pl_group pl));
  pc_settled : settled (pl_group pl);
  pc_seat : seat_of a (leaf (pl_group pl)) ∈ roster (seat (pl_group pl));
  pc_live : live (mls_group (pl_group pl)) (gc_storage c);
  pc_committed l : ~ committed (mls_group (pl_group pl)) l;
  pc_said : sent (mls_group (pl_group pl)) = pl_said pl;
  pc_heard l : heard (mls_group (pl_group pl)) l = numbers l (pl_heard pl)
}.

Lemma placed_arrives es a c g n :
  es !! n = Some (seat g) -> settled g -> seat_of a (leaf g) ∈ roster (seat g) -> new_epoch g c ->
  placed es a c (arrives g n).
Proof. intros He Hs Hr (Hl & Hsent & Hh & Hc). by constructor. Qed.

(** The epochs the commits lead through, one more than there are commits. *)
Record agreed (w : world) (es : list Epoch) : Prop := {
  ag_length : length es = S (length (log w));
  ag_log n en : log w !! n = Some en ->
    exists e e' m l, es !! n = Some e /\ es !! S n = Some e' /\
      message_bytes m = Ok (en_commit en) /\ leads m e l e' /\ seat_of (en_author en) l ∈ roster e /\
      forall x, x ∈ roster e -> en_gone en <> Some (mb_index x) -> x ∈ roster e';
  ag_name a p : peers w !! a = Some p -> gc_identity (p_client p) = name a;
  ag_seat a p pl : peers w !! a = Some p -> p_seat p = Some pl -> placed es a (p_client p) pl;
  ag_packages a b : (a, b) ∈ packages w ->
    exists kp, key_package_bytes kp = Ok b /\ kp_credential kp = basic_credential (name a);
  ag_invitations a b n : (a, b, n) ∈ invitations w ->
    exists m kp l e, message_bytes m = Ok b /\ invites m kp l e /\ es !! n = Some e /\ seat_of a l ∈ roster e;
  ag_traffic x : x ∈ traffic w ->
    exists m e, message_bytes m = Ok (sp_bytes x) /\ speaks m e (sp_leaf x) (sp_number x) (sp_text x) /\
      es !! sp_at x = Some e /\ seat_of (sp_author x) (sp_leaf x) ∈ roster e
}.

Lemma seat_unique e l c c' : mkMember l c ∈ roster e -> mkMember l c' ∈ roster e -> c = c'.
Proof.
  intros (i & Hi)%list_elem_of_lookup (j & Hj)%list_elem_of_lookup. pose proof (roster_nodup e) as Hnd.
  assert (i = j) as ->.
  { eapply NoDup_lookup; [exact Hnd|by rewrite list_lookup_fmap, Hi|by rewrite list_lookup_fmap, Hj]. }
  congruence.
Qed.

Lemma basic_credential_inj a b : basic_credential a = basic_credential b -> a = b.
Proof. intros Hab. apply (f_equal as_basic) in Hab. rewrite !as_basic_credential in Hab. congruence. Qed.

(** Two clients in one epoch sit at different leaves. *)
Lemma seats_differ e a b l : a <> b -> seat_of a l ∈ roster e -> ~ seat_of b l ∈ roster e.
Proof.
  intros Hab Ha Hb. apply Hab, (inj name), basic_credential_inj. by eapply seat_unique.
Qed.

Lemma placed_grow es e a c pl : placed es a c pl -> placed (es ++ [e]) a c pl.
Proof. intros []. constructor; try done. by apply lookup_app_l_Some. Qed.

(** A client whose state changes. *)
Lemma agreed_put w es a p c s :
  agreed w es -> peers w !! a = Some p -> gc_identity c = gc_identity (p_client p) ->
  (forall pl, s = Some pl -> placed es a c pl) -> agreed (put a (mkPeer c s) w) es.
Proof.
  intros Hag Ha Hc Hs. constructor; try apply Hag; cbn [put peers].
  - intros b q. rewrite lookup_insert_Some. intros [[<- <-]|[_ Hb]]; [|by apply Hag].
    cbn [p_client]. rewrite Hc. by eapply ag_name.
  - intros b q pl. rewrite lookup_insert_Some. intros [[<- <-]|[_ Hb]]; [apply Hs|by apply Hag].
Qed.

(** A new commit, by a client that is up to date. *)
Lemma agreed_grow w es e en inv :
  agreed w es ->
  (exists e0 m l, last es = Some e0 /\ message_bytes m = Ok (en_commit en) /\ leads m e0 l e /\
     seat_of (en_author en) l ∈ roster e0 /\
     forall x, x ∈ roster e0 -> en_gone en <> Some (mb_index x) -> x ∈ roster e) ->
  (forall a b n, (a, b, n) ∈ inv -> exists m kp l, message_bytes m = Ok b /\ invites m kp l e /\
     n = length es /\ seat_of a l ∈ roster e) ->
  agreed (ordered en inv w) (es ++ [e]).
Proof.
  intros Hag (e0 & m & l & Hlast & Hm & Hlead & Hau & Hkeep) Hinv.
  pose proof (ag_length _ _ Hag) as Hlen. rewrite last_lookup, Hlen in Hlast. cbn in Hlast.
  constructor; cbn [ordered peers log packages invitations traffic]; try apply Hag.
  - rewrite !length_app. cbn. lia.
  - intros n x. rewrite lookup_snoc_Some. intros [[Hn Hx]|[-> <-]].
    + destruct (ag_log _ _ Hag n x Hx) as (e1 & e2 & m' & l' & He1 & He2 & Hrest).
      exists e1, e2, m', l'. by rewrite !lookup_app_l by lia.
    + exists e0, e, m, l. rewrite lookup_app_l by lia. split_and!; try done.
      by rewrite <-Hlen, lookup_app_r, Nat.sub_diag by lia.
  - intros a p pl Ha Hs. by eapply placed_grow, ag_seat.
  - intros a b n. rewrite elem_of_app. intros [Hin|Hin].
    + destruct (Hinv a b n Hin) as (m' & kp & l' & Hb & Hi & -> & Hr). exists m', kp, l', e.
      by rewrite lookup_app_r, Nat.sub_diag by lia.
    + destruct (ag_invitations _ _ Hag a b n Hin) as (m' & kp & l' & e1 & Hb & Hi & He & Hr).
      exists m', kp, l', e1. split_and!; try done. by apply lookup_app_l_Some.
  - intros x Hx. destruct (ag_traffic _ _ Hag x Hx) as (m' & e1 & ? & ? & ? & ?). exists m', e1.
    split_and!; try done. by apply lookup_app_l_Some.
Qed.

Lemma agreed_publish w es a b kp :
  agreed w es -> key_package_bytes kp = Ok b -> kp_credential kp = basic_credential (name a) ->
  agreed (offer a b w) es.
Proof.
  intros Hag Hb Hc. constructor; try apply Hag. cbn [offer packages]. intros a' b'.
  rewrite elem_of_cons. intros [[= -> ->]|Hin]; [by exists kp|by apply Hag].
Qed.

Lemma agreed_speak w es x m e :
  agreed w es -> message_bytes m = Ok (sp_bytes x) -> speaks m e (sp_leaf x) (sp_number x) (sp_text x) ->
  es !! sp_at x = Some e -> seat_of (sp_author x) (sp_leaf x) ∈ roster e -> agreed (spread x w) es.
Proof.
  intros Hag Hb Hs He Hr. constructor; try apply Hag. cbn [spread traffic]. intros y.
  rewrite elem_of_cons. intros [->|Hin]; [by exists m, e|by apply Hag].
Qed.

Lemma agreed_last w es a p pl :
  agreed w es -> peers w !! a = Some p -> p_seat p = Some pl -> pl_at pl = length (log w) ->
  last es = Some (seat (pl_group pl)).
Proof.
  intros Hag Ha Hs Hat. rewrite last_lookup, (ag_length _ _ Hag). cbn. rewrite <-Hat.
  apply (ag_seat _ _ Hag a p pl Ha Hs).
Qed.

(** A client that applied the commit after its place. *)
Lemma followed w es a p pl en ev g' c' :
  agreed w es -> peers w !! a = Some p -> p_seat p = Some pl -> log w !! pl_at pl = Some en ->
  group_process (en_commit en) (pl_group pl, p_client p) = (Ok ev, (g', c')) ->
  ev = MembershipChanged /\ gc_identity c' = gc_identity (p_client p) /\
  forall pl', follows en pl g' = Some pl' -> placed es a c' pl'.
Proof.
  intros Hag Ha Hs Hn Hr. destruct (ag_seat _ _ Hag a p pl Ha Hs) as [He Hset Hin _ _ _ _].
  destruct (ag_log _ _ Hag _ en Hn) as (e & e' & m & l & He0 & He' & Hm & Hlead & Hl & Hkeep).
  assert (e = seat (pl_group pl)) as -> by congruence.
  destruct (process_commit_spec _ _ _ _ _ _ _ _ _ _ Hr Hm Hlead Hset) as (-> & _ & Hc & Hset' & Hleaf & Hmove).
  split_and!; [done|done|]. unfold follows. intros pl'. case_decide as Hgone; [done|]. intros [= <-].
  pose proof (Hkeep _ Hin Hgone) as Hin'. destruct (Hmove _ Hin Hin') as [Heq Hnew].
  apply placed_arrives; [by rewrite Heq|done|by rewrite Hleaf, Heq|done].
Qed.

(** What a message it wrote or read leaves a client with. *)
Lemma placed_stays es a c pl c' pl' :
  placed es a c pl -> same_seat (mls_group (pl_group pl)) (mls_group (pl_group pl')) ->
  still_live (mls_group (pl_group pl)) (gc_storage c) (mls_group (pl_group pl')) (gc_storage c') ->
  pl_at pl' = pl_at pl -> sent (mls_group (pl_group pl')) = pl_said pl' ->
  (forall l, heard (mls_group (pl_group pl')) l = numbers l (pl_heard pl')) -> placed es a c' pl'.
Proof.
  intros [He Hset Hin Hlive Hcom _ _] (Hs1 & Hs2 & Hs3) (Hl & Hc) Hat Hsaid Hheard.
  unfold seat, settled, leaf in *. constructor; unfold seat, settled, leaf; rewrite ?Hs1, ?Hs2, ?Hs3, ?Hat; try done.
  - by apply Hl.
  - intros l Hcl. by apply (Hcom l), Hc.
Qed.

Lemma numbers_cons l l' k hs : numbers l ((l', k) :: hs) = if decide (l = l') then k :: numbers l' hs else numbers l hs.
Proof.
  unfold numbers. rewrite filter_cons. cbn [fst]. by repeat case_decide; subst.
Qed.

Lemma placed_heard es a c pl x m e ev g' c' :
  placed es a c pl -> message_bytes m = Ok (sp_bytes x) -> speaks m e (sp_leaf x) (sp_number x) (sp_text x) ->
  group_process (sp_bytes x) (pl_group pl, c) = (Ok ev, (g', c')) ->
  gc_identity c' = gc_identity c /\ placed es a c' (listened x pl g').
Proof.
  intros Hpl Hm Hsp Hr.
  destruct (process_message_spec _ _ _ _ _ _ _ _ _ _ _ Hr Hm Hsp) as (Hc & Hseat & Hl & Hsent & Hh & _).
  split; [done|]. apply (placed_stays es a c pl); try done; cbn [listened pl_group pl_said pl_heard].
  - rewrite Hsent. apply Hpl.
  - intros l. rewrite Hh, numbers_cons. case_decide; f_equal; apply Hpl.
Qed.

Lemma agreed_step w w' es : agreed w es -> group_step w w' -> exists es', agreed w' es'.
Proof.
  intros Hag Hstep. pose proof (ag_length _ _ Hag) as Hlen.
  destruct Hstep as [a p r b c w Ha Hr|a p pl r b kpb res g' c w Ha Hs Hat Hb Hr|a p pl r i cb g' c w Ha Hs Hat Hr
    |a p b n g c w Ha Hs Hb Hr|a p pl en ev g' c w Ha Hs Hn Hau Hr|a p pl r pt b g' c w Ha Hs Hr
    |a p pl x ev g' c w Ha Hs Hx Hr].
  - exists es. destruct (key_package_spec _ _ _ _ Hr) as (Hc & Hlive & kp & Hb & Hkp).
    rewrite (ag_name _ _ Hag a p Ha) in Hkp.
    apply (agreed_put _ _ a p); [by eapply agreed_publish|done|done|]. intros pl Hs.
    destruct (ag_seat _ _ Hag a p pl Ha Hs). constructor; try done. by apply Hlive.
  - destruct (ag_packages _ _ Hag b kpb Hb) as (kp & Hkpb & Hkp).
    destruct (ag_seat _ _ Hag _ _ _ Ha Hs) as [He Hset Hin _ _ _ _].
    destruct (add_member_spec _ _ _ _ _ _ _ _ Hr Hset Hkpb)
      as (Hc & Hset' & Hleaf & Hnew & m & wl & l & Hm & Hw & Hlead & Hinv & Hro).
    exists (es ++ [seat g']). apply (agreed_put _ _ a p); [|done|done|].
    + apply (agreed_grow w es); [done| |].
      * exists (seat (pl_group pl)), m, (leaf (pl_group pl)). split_and!; [by eapply agreed_last|done|done|done|].
        intros x Hx _. apply Hro. by right.
      * intros a' b' n' [= -> -> ->]%list_elem_of_singleton. exists wl, kp, l.
        split_and!; [done|done|by rewrite Hlen, Hat|]. apply Hro. left. unfold seat_of. by rewrite Hkp.
    + intros pl' [= <-]. apply placed_arrives; [|done|rewrite Hleaf; apply Hro; by right|done].
      by rewrite Hat, <-Hlen, lookup_app_r, Nat.sub_diag by lia.
  - destruct (ag_seat _ _ Hag _ _ _ Ha Hs) as [He Hset Hin _ _ _ _].
    destruct (remove_member_spec _ _ _ _ _ _ _ Hr Hset) as (Hc & Hset' & Hleaf & Hnew & Hi & m & Hm & Hlead & Hro).
    exists (es ++ [seat g']). apply (agreed_put _ _ a p); [|done|done|].
    + apply (agreed_grow w es); [done| |by intros ??? ?%elem_of_nil].
      exists (seat (pl_group pl)), m, (leaf (pl_group pl)). split_and!; [by eapply agreed_last|done|done|done|].
      intros x Hx Hg. apply Hro. split; [|done]. intros <-. by apply Hg.
    + intros pl' [= <-]. apply placed_arrives; [|done| |done].
      * by rewrite Hat, <-Hlen, lookup_app_r, Nat.sub_diag by lia.
      * rewrite Hleaf. apply Hro. split; [cbn; congruence|done].
  - exists es. destruct (ag_invitations _ _ Hag a b n Hb) as (m & kp & l & e & Hm & Hinv & He & Hin).
    destruct (join_group_spec _ _ _ _ _ _ _ _ Hr Hm Hinv) as (Hc & Hset & Hl & Hse & Hnew).
    apply (agreed_put _ _ a p); [done|done|done|]. intros pl' [= <-].
    apply placed_arrives; rewrite ?Hse, ?Hl; done.
  - exists es. destruct (followed _ _ _ _ _ _ _ _ _ Hag Ha Hs Hn Hr) as (_ & Hc & Hmove).
    by apply (agreed_put _ _ a p).
  - exists es. destruct (group_send_spec _ _ _ _ _ _ _ Hr) as (Hc & Hseat & Hl & Hsent & Hh & m & Hm & Hsp).
    pose proof (ag_seat _ _ Hag _ _ _ Ha Hs) as Hpl.
    apply (agreed_put _ _ a p); [|done|done|].
    + apply (agreed_speak _ _ _ m (seat (pl_group pl))); [done|done| |apply Hpl|apply Hpl].
      cbn [speech_of sp_leaf sp_number sp_text]. by rewrite <-(pc_said _ _ _ _ Hpl).
    + intros pl' [= <-]. apply (placed_stays es a (p_client p) pl); try done; cbn [spoke pl_group pl_said pl_heard].
      * rewrite Hsent. f_equal. apply Hpl.
      * intros l. rewrite Hh. apply Hpl.
  - exists es. destruct (ag_traffic _ _ Hag x Hx) as (m & e & Hm & Hsp & _).
    destruct (placed_heard _ _ _ _ _ _ _ _ _ _ (ag_seat _ _ Hag _ _ _ Ha Hs) Hm Hsp Hr) as [Hc Hpl].
    apply (agreed_put _ _ a p); [done|done|done|]. by intros pl' [= <-].
Qed.

(** A client that has just created the group, and others without a seat. *)
Definition starts (w : world) : Prop :=
  log w = [] /\ packages w = [] /\ invitations w = [] /\ traffic w = [] /\
  (forall a p, peers w !! a = Some p -> gc_identity (p_client p) = name a) /\
  exists creator r id c g c', create_group r id c = (Ok g, c') /\
    peers w !! creator = Some (mkPeer c' (Some (arrives g 0))) /\
    forall a p, peers w !! a = Some p -> a <> creator -> p_seat p = None.

Lemma agreed_start w : starts w -> exists es, agreed w es.
Proof.
  intros (Hlog & Hpk & Hinv & Htr & Hname & a0 & r & id & c & g & c' & Hg & Ha0 & Hothers).
  destruct (create_group_spec _ _ _ _ _ Hg) as (Hc & Hset & Hnew & Hin).
  assert (gc_identity c = name a0) as Hid by (rewrite <-Hc; apply (Hname a0 _ Ha0)).
  rewrite Hid in Hin. exists [seat g].
  constructor; rewrite ?Hlog, ?Hpk, ?Hinv, ?Htr; try done.
  - intros a p pl Ha Hs. destruct (decide (a = a0)) as [->|Hne].
    + rewrite Ha0 in Ha. injection Ha as <-. injection Hs as <-. by apply placed_arrives.
    + by rewrite (Hothers a p Ha Hne) in Hs.
  - by intros a b ?%elem_of_nil.
  - by intros a b n ?%elem_of_nil.
  - by intros x ?%elem_of_nil.
Qed.

Lemma agreed_reachable w0 w : starts w0 -> star group_step w0 w -> exists es, agreed w es.
Proof.
  intros H0s Hstar. apply (star_invariant group_step (fun w => exists es, agreed w es)) with (2 := Hstar).
  - intros v v' (es & Hag). by eapply agreed_step.
  - by apply agreed_start.
Qed.

(** What the commit of a log entry is made of is still within its lifetime. *)
Definition in_force (en : entry) : Prop := forall m, message_bytes m = Ok (en_commit en) -> timely m.

(** C19: members of a group agree. Whatever the calls of a group of clients with
    distinct identities do -- adding, removing, joining, sending, following the
    commits at their own pace, reading messages in any order --, as long as the
    delivery service keeps the commits in one order and they commit only when up to
    date: two clients that have followed the same commits list the same members,
    themselves among them; a client is never stuck: the next commit, if another
    client's and its key packages have not expired, is applied, and puts it, unless
    it is the one removed, with the clients that are already there; a message of
    another client in the same epoch is opened, if it was not before and is at most
    five behind the latest that was opened of that client, or a thousand ahead; and
    one that is opened, whichever, whenever, is reported as the text that was sent
    with the identity of the client that sent it. *)
Theorem group_agreement w0 w :
  starts w0 -> star group_step w0 w ->
  (forall a b pa pb la lb, peers w !! a = Some pa -> p_seat pa = Some la ->
     peers w !! b = Some pb -> p_seat pb = Some lb -> pl_at la = pl_at lb ->
     members (pl_group la) = members (pl_group lb) /\ name a ∈ members (pl_group lb)) /\
  (forall a p pl en, peers w !! a = Some p -> p_seat p = Some pl ->
     log w !! pl_at pl = Some en -> en_author en <> a -> in_force en ->
     exists g' c', group_process (en_commit en) (pl_group pl, p_client p) = (Ok MembershipChanged, (g', c')) /\
       forall b pb lb, en_gone en <> Some (leaf (pl_group pl)) -> peers w !! b = Some pb -> p_seat pb = Some lb ->
         pl_at lb = S (pl_at pl) -> members g' = members (pl_group lb)) /\
  (forall x b p pl, x ∈ traffic w -> peers w !! b = Some p -> p_seat p = Some pl -> sp_at x = pl_at pl ->
     sp_author x <> b -> openable (sp_number x) (numbers (sp_leaf x) (pl_heard pl)) ->
     exists s', group_process (sp_bytes x) (pl_group pl, p_client p)
                = (Ok (Application (name (sp_author x)) (sp_text x)), s')) /\
  (forall x b p pl ev s', x ∈ traffic w -> peers w !! b = Some p -> p_seat p = Some pl ->
     group_process (sp_bytes x) (pl_group pl, p_client p) = (Ok ev, s') ->
     ev = Application (name (sp_author x)) (sp_text x)).
Proof.
  intros H0s Hstar. destruct (agreed_reachable _ _ H0s Hstar) as (es & Hag).
  assert (forall x b p pl ev s', x ∈ traffic w -> peers w !! b = Some p -> p_seat p = Some pl ->
     group_process (sp_bytes x) (pl_group pl, p_client p) = (Ok ev, s') ->
     ev = Application (name (sp_author x)) (sp_text x)) as Hright.
  { intros x b p pl ev [g' c'] Hx Hb Hs Hr. destruct (ag_traffic _ _ Hag _ Hx) as (m & e & Hm & Hsp & _ & Hl).
    destruct (process_message_spec _ _ _ _ _ _ _ _ _ _ _ Hr Hm Hsp) as (_ & _ & _ & _ & _ & cr & -> & Hcr).
    by rewrite (seat_unique _ _ _ _ Hcr Hl), as_basic_credential. }
  split_and!; [| | |exact Hright].
  - intros a b pa pb la lb Ha Hsa Hb Hsb Hat.
    destruct (ag_seat _ _ Hag _ _ _ Ha Hsa) as [Hea _ Hina _ _ _ _].
    destruct (ag_seat _ _ Hag _ _ _ Hb Hsb) as [Heb _ _ _ _ _ _].
    assert (seat (pl_group la) = seat (pl_group lb)) as Heq by congruence. rewrite !members_seat, <-Heq. split; [done|].
    apply list_elem_of_omap. exists (seat_of a (leaf (pl_group la))). split; [done|]. apply as_basic_credential.
  - intros a p pl en Ha Hs Hn Hau Hforce. pose proof (ag_seat _ _ Hag _ _ _ Ha Hs) as Hpl.
    destruct (ag_log _ _ Hag _ en Hn) as (e & e' & m & l & He0 & He' & Hm & Hlead & Hl & _).
    assert (e = seat (pl_group pl)) as -> by (pose proof (pc_at _ _ _ _ Hpl); congruence).
    destruct (process_commit_accepted (en_commit en) m l e' (pl_group pl) (p_client p) Hm Hlead (Hforce _ Hm))
      as (g' & c' & Hr); [apply Hpl|apply Hpl| |apply Hpl|].
    { intros <-. apply (seats_differ _ _ _ _ Hau Hl), Hpl. }
    destruct (followed _ _ _ _ _ _ _ _ _ Hag Ha Hs Hn Hr) as (_ & _ & Hmove).
    exists g', c'. split; [done|]. intros b pb lb Hgone Hb Hsb Hat.
    destruct (Hmove (arrives g' (S (pl_at pl)))) as [He _ _ _ _ _ _]; [unfold follows; by rewrite decide_False|].
    destruct (ag_seat _ _ Hag _ _ _ Hb Hsb) as [Heb _ _ _ _ _ _]. cbn [arrives pl_at pl_group] in He.
    rewrite !members_seat. by assert (seat g' = seat (pl_group lb)) as -> by congruence.
  - intros x b p pl Hx Hb Hs Hat Hau Hk. pose proof (ag_seat _ _ Hag _ _ _ Hb Hs) as Hpl.
    destruct (ag_traffic _ _ Hag x Hx) as (m & e & Hm & Hsp & He & Hl).
    assert (e = seat (pl_group pl)) as -> by (pose proof (pc_at _ _ _ _ Hpl); congruence).
    destruct (process_message_accepted (sp_bytes x) m (sp_leaf x) (sp_number x) (sp_text x) (pl_group pl) (p_client p)
      Hm Hsp) as (ev & s' & Hr); [apply Hpl| |by rewrite (pc_heard _ _ _ _ Hpl)|].
    { intros Heq. apply (seats_differ _ _ _ _ Hau Hl). rewrite <-Heq. apply Hpl. }
    exists s'. by rewrite <-(Hright x b p pl ev s' Hx Hb Hs Hr).
Qed.

End Agreement.
End GroupProps.

(** ** A concrete library

    An epoch is a number and the seats; a group's storage has an entry for each
    epoch whose keys it holds. *)
Module MlsDemo.
Import Demo.

Abbreviation bytes := (list u8).
Abbreviation Seats := (gmap u32 bytes).
Abbreviation Epoch := (nat * Seats)%type.

Inductive Msg : Set :=
| MCommit (from : Epoch) (author : u32) (to : Epoch)
| MWelcome (seat : u32) (to : Epoch)
| MApp (at_ : Epoch) (author : u32) (number : nat) (text : bytes).

#[export] Instance nat_codec : Codec nat :=
  iso_codec (fun n => replicate n tt) length (fun n => length_replicate n tt).
#[export] Instance seats_codec : Codec Seats :=
  iso_codec map_to_list list_to_map (list_to_map_to_list (M := gmap u32)).

Definition msg_sum (m : Msg) : (Epoch * (u32 * Epoch)) + ((u32 * Epoch) + (Epoch * (u32 * (nat * bytes)))) :=
  match m with
  | MCommit e l e' => inl (e, (l, e'))
  | MWelcome l e => inr (inl (l, e))
  | MApp e l k t => inr (inr (e, (l, (k, t))))
  end.
Definition sum_msg (s : (Epoch * (u32 * Epoch)) + ((u32 * Epoch) + (Epoch * (u32 * (nat * bytes))))) : Msg :=
  match s with
  | inl (e, (l, e')) => MCommit e l e'
  | inr (inl (l, e)) => MWelcome l e
  | inr (inr (e, (l, (k, t)))) => MApp e l k t
  end.
Lemma sum_msg_sum m : sum_msg (msg_sum m) = m.
Proof. by destruct m. Qed.
#[export] Instance msg_codec : Codec Msg := iso_codec msg_sum sum_msg sum_msg_sum.

Record TGroup : Set := mkT {
  t_id : bytes; t_epoch : Epoch; t_leaf : u32; t_pending : option Epoch;
  t_sent : nat; t_heard : list (u32 * nat); t_committed : list u32
}.
Definition t_members (e : Epoch) : list (Member bytes) := (fun '(l, c) => mkMember l c) <$> map_to_list e.2.

(** A group at the start of an epoch, and the storage with the keys of one. *)
Definition t_arrive (id : bytes) (e : Epoch) (l : u32) : TGroup := mkT id e l None 0 [] [].
Definition with_keys (e : Epoch) (s : Storage) : Storage := <[enc e := []]> s.
Definition t_live (g : TGroup) (s : Storage) : Prop :=
  is_Some (s !! enc (t_epoch g)) /\ is_Some ((t_epoch g).2 !! t_leaf g).

Definition with_pending (g : TGroup) (e : Epoch) : TGroup :=
  mkT (t_id g) (t_epoch g) (t_leaf g) (Some e) (t_sent g) (t_heard g) (t_committed g).

Definition t_add (kps : list bytes) (gs : TGroup * Storage) : result string (Msg * Msg) * (TGroup * Storage) :=
  let '(g, s) := gs in
  let '(n, ms) := t_epoch g in
  let l := u32_of (size ms) in
  match kps, ms !! l with
  | [kp], None =>
      let e := (S n, <[l := kp]> ms) in
      (Ok (MCommit (t_epoch g) (t_leaf g) e, MWelcome l e), (with_pending g e, s))
  | _, _ => (Err "add"%string, gs)
  end.
Definition t_remove (idx : list u32) (gs : TGroup * Storage) : result string Msg * (TGroup * Storage) :=
  let '(g, s) := gs in
  match idx with
  | [i] =>
      if decide (i = t_leaf g) then (Err "remove"%string, gs)
      else let e := (S (t_epoch g).1, delete i (t_epoch g).2) in
           (Ok (MCommit (t_epoch g) (t_leaf g) e), (with_pending g e, s))
  | _ => (Err "remove"%string, gs)
  end.
Definition t_merge (gs : TGroup * Storage) : result string unit * (TGroup * Storage) :=
  let '(g, s) := gs in
  match t_pending g with
  | None => (Ok tt, gs)
  | Some e =>
      if decide (is_Some (e.2 !! t_leaf g)) then (Ok tt, (t_arrive (t_id g) e (t_leaf g), with_keys e s))
      else (Err "merge"%string, gs)
  end.
Definition t_create (text : bytes) (gs : TGroup * Storage) : result string Msg * (TGroup * Storage) :=
  let '(g, s) := gs in
  if decide (is_Some ((t_epoch g).2 !! t_leaf g)) then
    (Ok (MApp (t_epoch g) (t_leaf g) (t_sent g) text),
     (mkT (t_id g) (t_epoch g) (t_leaf g) (t_pending g) (S (t_sent g)) (t_heard g) (t_committed g), s))
  else (Err "create"%string, gs).
Definition t_process (m : Msg) (gs : TGroup * Storage)
  : result string (bytes * ProcessedMessageContent (Epoch * Epoch)) * (TGroup * Storage) :=
  let '(g, s) := gs in
  match m with
  | MCommit e l e' =>
      if decide (e = t_epoch g /\ t_leaf g <> l /\ (l ∉ t_committed g) /\ t_live g s) then
        (Ok ([], StagedCommitMessage (e, e')),
         (mkT (t_id g) (t_epoch g) (t_leaf g) (t_pending g) (t_sent g) (t_heard g) (l :: t_committed g), s))
      else (Err "commit"%string, gs)
  | MWelcome _ _ => (Err "welcome"%string, gs)
  | MApp e l k t =>
      match e.2 !! l with
      | Some c =>
          if decide (e = t_epoch g /\ t_leaf g <> l /\ openable k (numbers l (t_heard g))) then
            (Ok (c, ApplicationMessage t),
             (mkT (t_id g) (t_epoch g) (t_leaf g) (t_pending g) (t_sent g) ((l, k) :: t_heard g) (t_committed g), s))
          else (Err "message"%string, gs)
      | None => (Err "sender"%string, gs)
      end
  end.
Definition t_staged (sc : Epoch * Epoch) (gs : TGroup * Storage) : result string unit * (TGroup * Storage) :=
  (Ok tt, (t_arrive (t_id gs.1) sc.2 (t_leaf gs.1), with_keys sc.2 gs.2)).

#[export] Instance openmls : OpenMls := {
  Rand := unit;
  Group.Signer := bytes;
  Credential := bytes;
  CredentialWithKey := bytes * bytes;
  KeyPackage := bytes;
  KeyPackageIn := bytes;
  MlsMessageOut := Msg;
  MlsMessageIn := Msg;
  Welcome := u32 * Epoch;
  StagedWelcome := u32 * Epoch;
  ProtocolMessage := Msg;
  ProcessedMessage := bytes * ProcessedMessageContent (Epoch * Epoch);
  StagedCommit := Epoch * Epoch;
  MlsGroup := TGroup;
  signer_new _ := Ok [];
  signer_store _ := sret tt;
  Group.signer_read _ k := Some k;
  Group.signer_public k := k;
  basic_credential id := id;
  as_basic c := Some c;
  with_key c k := (c, k);
  key_package_build _ _ c := sret c.1;
  key_package_bytes kp := Ok kp;
  key_package_in b := Ok b;
  key_package_validate kp := Ok kp;
  message_bytes m := Ok (enc m);
  message_in b := bincode_deserialize b;
  message_extract m := match m with MWelcome l e => BodyWelcome (l, e) | _ => BodyOther end;
  as_protocol_message m := Ok m;
  group_new _ _ id c s :=
    let e := (0, {[wrap 32 0 := c.1]}) in (Ok (t_arrive id e (wrap 32 0)), with_keys e s);
  staged_welcome_new w := sret w;
  welcome_into_group w s := (Ok (t_arrive [] w.2 w.1), with_keys w.2 s);
  group_load _ _ := Ok None;
  mls_group_id := t_id;
  mls_members g := t_members (t_epoch g);
  add_members _ _ := t_add;
  remove_members _ _ := t_remove;
  merge_pending_commit := t_merge;
  create_message _ _ := t_create;
  process_message := t_process;
  processed_credential := fst;
  processed_content := snd;
  merge_staged_commit := t_staged
}.

#[export] Instance mls_view : MlsView := {
  GroupProps.Epoch := Epoch;
  epoch_of := t_epoch;
  roster := t_members;
  pending := t_pending;
  own_leaf := t_leaf;
  live := t_live;
  sent := t_sent;
  heard g l := numbers l (t_heard g);
  committed g l := l ∈ t_committed g;
  credential_of := fst;
  kp_credential kp := kp;
  leads m e l e' := m = MCommit e l e';
  timely _ := True;
  invites m kp l e := m = MWelcome l e /\ is_Some (e.2 !! l);
  speaks m e l k t := m = MApp e l k t /\ is_Some (e.2 !! l);
  stages sc e e' := sc = (e, e');
  carries i m := i = m
}.

Lemma elem_t_members e l c : mkMember l c ∈ t_members e <-> e.2 !! l = Some c.
Proof.
  unfold t_members. rewrite list_elem_of_fmap. split.
  - intros ([l' c'] & [= -> ->] & Hin). by apply elem_of_map_to_list.
  - intros He. exists (l, c). split; [done|]. by apply elem_of_map_to_list.
Qed.

Lemma msg_decodes (m : Msg) : bincode_deserialize (enc m) = Ok m.
Proof. exact (@bincode_roundtrip Msg _ codec_bincode_laws m). Qed.

Lemma fresh_arrive id e l s : is_Some (e.2 !! l) -> fresh (t_arrive id e l : @MlsGroup openmls) (with_keys e s).
Proof.
  intros Hl. split_and!; [|done|done|by intros l' ?%elem_of_nil]. split; [|done].
  cbn [t_arrive t_epoch]. unfold with_keys. rewrite lookup_insert_eq. by eexists.
Qed.

#[export] Instance openmls_laws : OpenMlsLaws.
Proof.
  constructor; cbn [as_basic basic_credential credential_of with_key mls_members roster epoch_of openmls mls_view
    key_package_bytes key_package_in key_package_validate message_bytes message_in carries key_package_build
    kp_credential group_new pending own_leaf leads invites speaks stages add_members remove_members
    merge_pending_commit message_extract staged_welcome_new welcome_into_group create_message process_message
    as_protocol_message processed_content processed_credential merge_staged_commit same_seat
    live sent heard committed timely].
  - done.
  - done.
  - done.
  - intros e. unfold t_members. rewrite <-list_fmap_compose.
    rewrite (list_fmap_ext _ fst) by (by intros ? [? ?]). apply NoDup_fst_map_to_list.
  - congruence.
  - intros m b Hb. exists m. split; [|done]. pose proof (msg_decodes m) as Hm.
    assert (b = enc m) as -> by (by injection Hb). exact Hm.
  - intros r sg c s kp s' [= <- <-]. done.
  - intros r sg id c s g s' [= <- <-]. split_and!; [|done|done|].
    + unfold t_members. cbn [t_arrive t_epoch snd]. by rewrite map_to_list_singleton.
    + apply fresh_arrive. cbn [snd]. rewrite lookup_singleton_eq. by eexists.
  - intros r sg kp g s m wl g' s' Hr Hp. unfold t_add in Hr. destruct (t_epoch g) as [n ms] eqn:He.
    set (l := u32_of _) in Hr. destruct (ms !! l) as [c|] eqn:Hl; [done|]. injection Hr as <- <- <- <-.
    exists (S n, <[l := kp]> ms), l. cbn [with_pending t_pending t_epoch t_leaf]. split_and!; try done.
    + cbn [snd]. rewrite lookup_insert_eq. by eexists.
    + intros [l' c]. rewrite !elem_t_members. cbn [snd]. rewrite lookup_insert_Some. naive_solver.
  - intros r sg i g s m g' s' Hr Hp. unfold t_remove in Hr. case_decide as Hi; [done|]. injection Hr as <- <- <-.
    eexists. cbn [with_pending t_pending t_epoch t_leaf]. split_and!; [done..|].
    intros [l' c]. rewrite !elem_t_members. cbn [snd]. rewrite lookup_delete_Some. naive_solver.
  - intros g s g' s' e Hr Hp. unfold t_merge in Hr. rewrite Hp in Hr. case_decide as Hl; [|done].
    injection Hr as <- <-. split_and!; [done..|]. by apply fresh_arrive.
  - intros i m kp l e w s st s1 g s2 -> [-> Hl] [= <-] [= <- _] [= <- <-]. split_and!; [done..|]. by apply fresh_arrive.
  - intros r sg pt g s m g' s' Hr. unfold t_create in Hr. case_decide as Hl; [|done]. injection Hr as <- <- <-.
    by split_and!.
  - intros p g s r g' s'. unfold t_process. repeat case_match; by intros [= _ <- _].
  - intros i m e l k pt p g s pm g' s' -> [-> Hl] [= <-] Hr. unfold t_process in Hr.
    case_match eqn:Hc; [|discriminate Hr]. case_decide; [|discriminate Hr].
    injection Hr as <- <- <-. split_and!; [done|by apply elem_t_members|done|done|].
    intros l'. cbn [t_heard]. by rewrite numbers_cons.
  - intros i m l k pt g s -> [-> [c Hl]] _ Hown Hk. eexists _, _, _. split; [done|].
    cbn [t_process]. by rewrite Hl, decide_True.
  - intros i m l e' g s -> -> _ Hlive Hp Hl Hn. eexists _, _, _, s. split; [done|].
    cbn [t_process]. rewrite decide_True by done. by split.
  - intros i m e l e' p g s pm g' s' -> -> [= <-] Hr. unfold t_process in Hr.
    case_decide as Hd; [|discriminate Hr]. injection Hr as <- <- <-. split; [by destruct Hd|]. by eexists.
  - intros sc e' g s -> Hlive Hp. by eexists.
  - intros sc e' g s g' s' -> Hp [= <- <-]. split_and!; [done..|]. intros c _ Hc. split; [done|].
    apply fresh_arrive. eexists. by apply elem_t_members.
Qed.

(** Three clients: the first creates a group, the second is added and adds the
    third, then the first writes twice, the second reads the later message, and the
    third is removed. *)
Definition name (n : nat) : bytes := replicate n (wrap 8 7).
#[export] Instance name_inj : Inj (=) (=) name.
Proof. intros n m Hnm. apply (f_equal length) in Hnm. unfold name in Hnm. by rewrite !length_replicate in Hnm. Qed.

Definition client (n : nat) : GroupState.GroupClient (Signer := bytes) := mkClient ∅ [] (name n).
Definition text : bytes := Demo.bytes [104; 105]%N.
Definition creation := create_group (tt : @Rand openmls) text (client 0).
Definition nowhere : Group := mkGroup (t_arrive [] (0, ∅) (wrap 32 0) : @MlsGroup openmls).
Definition founder : Group * _ := match creation with (Ok g, c) => (g, c) | (Err _, c) => (nowhere, c) end.
Definition outset : world :=
  mkWorld {[0 := mkPeer founder.2 (Some (arrives founder.1 0)); 1 := mkPeer (client 1) None; 2 := mkPeer (client 2) None]}
    [] [] [] [].
Definition history : list (@act openmls) :=
  [Publish 1 tt; Publish 2 tt; Add 0 1 tt; Join 1; Add 1 2 tt; Join 2; Follow 0; Speak 0 tt text; Speak 0 tt (name 3);
   Hear 1 0; Remove 1 tt (wrap 32 2); Speak 1 tt text].
Definition present : world := default outset (perform_all history outset).

Lemma outset_starts : starts name outset.
Proof.
  unfold starts. split_and!; try done.
  - intros a p. cbn [peers outset]. rewrite !lookup_insert_Some, lookup_singleton_Some.
    intros [[<- <-]|[_ [[<- <-]|[_ [<- <-]]]]]; reflexivity.
  - exists 0, tt, text, (client 0), founder.1, founder.2. split_and!; [reflexivity|reflexivity|].
    intros a p. cbn [peers outset]. rewrite !lookup_insert_Some, lookup_singleton_Some.
    intros [[<- <-]|[_ [[<- <-]|[_ [<- <-]]]]]; [done|reflexivity|reflexivity].
Qed.

Lemma present_reached : star group_step outset present.
Proof. apply perform_all_reaches. vm_compute. reflexivity. Qed.

(** The place of a client. *)
Definition place_at (a : nat) (w : world) : place := default (arrives nowhere 0) (peers w !! a ≫= p_seat).
Definition client_at (a : nat) (w : world) := from_option p_client (client a) (peers w !! a).
Definition peer_at (a : nat) (w : world) : peer := mkPeer (client_at a w) (Some (place_at a w)).
Definition is_placed (a : nat) (w : world) : bool :=
  match peers w !! a ≫= p_seat with Some _ => true | None => false end.

Lemma is_placed_Some a w :
  is_placed a w = true -> peers w !! a = Some (peer_at a w).
Proof.
  unfold is_placed, peer_at, place_at, client_at. destruct (peers w !! a) as [[c s]|]; [|done].
  by destruct s.
Qed.

Definition commit_at (n : nat) : entry := nth n (log present) (mkEntry [] 0 None).
Definition speech_at (i : nat) : speech := nth i (traffic present) (mkSpeech 0 [] [] 0 (wrap 32 0) 0).

Lemma commit_at_Some n : n < length (log present) -> log present !! n = Some (commit_at n).
Proof.
  intros Hn. unfold commit_at. destruct (nth_lookup_or_length (log present) n (mkEntry [] 0 None)) as [|?]; [done|lia].
Qed.
Lemma speech_at_in i : i < length (traffic present) -> speech_at i ∈ traffic present.
Proof.
  intros Hi. apply list_elem_of_lookup. exists i. unfold speech_at.
  destruct (nth_lookup_or_length (traffic present) i (mkSpeech 0 [] [] 0 (wrap 32 0) 0)) as [|?]; [done|lia].
Qed.
End MlsDemo.

Import MlsDemo.

(** The first client is about to follow the removal of the third, and does; the
    third can still read the messages of the first, in either order. *)
Lemma group_agreement_witness :
  (exists g' c', group_process (en_commit (commit_at 2)) (pl_group (place_at 0 present), client_at 0 present)
     = (Ok MembershipChanged, (g', c')) /\ members g' = members (pl_group (place_at 1 present))) /\
  (exists s', group_process (sp_bytes (speech_at 2)) (pl_group (place_at 2 present), client_at 2 present)
     = (Ok (Application (name 0) text), s')) /\
  length (members (pl_group (place_at 1 present))) = 2.
Proof.
  destruct (group_agreement name outset present outset_starts present_reached) as (_ & Hcommit & Hopen & _).
  assert (pl_at (place_at 0 present) = 2) as Hat by (vm_compute; reflexivity).
  assert (length (log present) = 3) as Hlog by (vm_compute; reflexivity).
  assert (length (traffic present) = 3) as Htraffic by (vm_compute; reflexivity).
  split_and!; [| |vm_compute; reflexivity].
  - destruct (Hcommit 0 (peer_at 0 present) (place_at 0 present) (commit_at 2)) as (g' & c' & Hr & Hm).
    + apply is_placed_Some. vm_compute. reflexivity.
    + done.
    + rewrite Hat. apply commit_at_Some. lia.
    + vm_compute. discriminate.
    + intros m _. exact I.
    + exists g', c'. split; [exact Hr|].
      apply (Hm 1 (peer_at 1 present)); [|apply is_placed_Some; vm_compute; reflexivity|done|].
      * apply (bool_decide_unpack _). vm_compute. exact I.
      * rewrite Hat. vm_compute. reflexivity.
  - assert (sp_author (speech_at 2) = 0) as Ha by (vm_compute; reflexivity).
    assert (sp_text (speech_at 2) = text) as Ht by (apply (bool_decide_unpack _); vm_compute; exact I).
    rewrite <-Ha, <-Ht. apply (Hopen (speech_at 2) 2 (peer_at 2 present) (place_at 2 present)).
    + apply speech_at_in. lia.
    + apply is_placed_Some. vm_compute. reflexivity.
    + done.
    + vm_compute. reflexivity.
    + rewrite Ha. discriminate.
    + apply (bool_decide_unpack _). vm_compute. exact I.
Defined.
