(* ===== verification/GroupFork.v ===== *)
(** * Two commits at once (group/src/lib.rs)

    [add_member] and [remove_member] merge their own commit before anybody has put
    it in an order. [GroupProps.group_agreement] is about clients whose delivery
    service keeps one order and lets only an up-to-date client commit; here is what
    becomes of two members that commit in the same epoch. *)
From S2P Require Import Prelude Words Primitives Demo GroupState Group GroupProps.

Section GroupFork.
Context `{OpenMlsLaws}.

Abbreviation GroupClient := (GroupState.GroupClient (Signer := Signer)).

Lemma elem_members g id :
  id ∈ members g <-> exists x, x ∈ roster (seat g) /\ basic_identity (mb_credential x) = Some id.
Proof. by rewrite members_seat, list_elem_of_omap. Qed.

(** A commit of another epoch is refused, and the group stays where it is, so
    that it is refused again whenever it comes. *)
Lemma process_other_epoch b m e l e' g c :
  message_bytes m = Ok b -> leads m e l e' -> seat g <> e ->
  exists er g' c', group_process b (g, c) = (Err er, (g', c')) /\ seat g' = seat g.
Proof.
  intros Hm Hlead He. destruct (message_carried _ _ Hm) as (i & Hi & Hc). unfold group_process.
  rewrite (sbind_ok _ _ _ i (g, c)) by (unfold slift; by rewrite Hi).
  destruct (as_protocol_message i) as [p|er] eqn:Hp.
  2:{ exists (Mls er), g, c. split; [|done]. by rewrite (sbind_err _ _ _ (Mls er) (g, c)). }
  rewrite (sbind_ok _ _ _ p (g, c)) by done.
  destruct (process_message p (mls_group g, gc_storage c)) as [res [g' s']] eqn:Hpm.
  destruct res as [pm|er]; [by destruct (commit_staged _ _ _ _ _ _ _ _ _ _ _ Hc Hlead Hp Hpm) as [? _]|].
  destruct (process_keeps _ _ _ _ _ _ Hpm) as (Hseat & _).
  exists (Mls er), (mkGroup g'), (set_storage c s'). split; [|exact Hseat].
  rewrite (sbind_err _ _ _ (Mls er) (mkGroup g', set_storage c s')); [done|].
  unfold on_group, mls_call. cbn [fst snd]. by rewrite Hpm.
Qed.

(** One of the two members that add somebody in the same epoch. *)
Lemma one_side r kp kpb id g c res g' c' r' kp' kpb' id' h d res' h' d' :
  settled g -> settled h -> seat g = seat h ->
  key_package_bytes kp = Ok kpb -> basic_identity (kp_credential kp) = Some id ->
  key_package_bytes kp' = Ok kpb' -> basic_identity (kp_credential kp') = Some id' ->
  id <> id' -> (id ∉ members g) -> (id' ∉ members g) ->
  add_member r kpb (g, c) = (Ok res, (g', c')) -> add_member r' kpb' (h, d) = (Ok res', (h', d')) ->
  id ∈ members g' /\ (id ∉ members h') /\
  exists er g2 c2, group_process (commit res') (g', c') = (Err er, (g2, c2)) /\ seat g2 = seat g'.
Proof.
  intros Hg Hh Hseat Hkp Hid Hkp' Hid' Hne Hnew Hnew' Ha Ha'.
  destruct (add_member_spec _ _ _ _ _ _ _ _ Ha Hg Hkp) as (_ & _ & _ & _ & m & wl & l & _ & _ & _ & _ & Hro).
  destruct (add_member_spec _ _ _ _ _ _ _ _ Ha' Hh Hkp') as (_ & _ & _ & _ & m' & wl' & l' & Hm' & _ & Hlead' & _ & Hro').
  assert (id ∈ members g') as Hin.
  { apply elem_members. exists (mkMember l (kp_credential kp)). split; [apply Hro; by left|done]. }
  split; [done|]. split.
  - intros (x & Hx & Hxid)%elem_members. apply Hro' in Hx as [->|Hx]; [cbn in Hxid; congruence|].
    apply Hnew, elem_members. exists x. by rewrite Hseat.
  - apply (process_other_epoch _ m' (seat h) (leaf h) (seat h')); [done|done|].
    intros Heq. apply Hnew. rewrite elem_members, Hseat, <-Heq. by apply elem_members.
Qed.

(** Two members that each add a newcomer in the same epoch split the group:
    both calls succeed and merge; afterwards each lists its own newcomer and not the
    other's, and each refuses the other's commit, now and whenever it is delivered
    again. *)
Theorem concurrent_adds_fork r kp kpb id g c res g' c' r' kp' kpb' id' h d res' h' d' :
  settled g -> settled h -> seat g = seat h ->
  key_package_bytes kp = Ok kpb -> basic_identity (kp_credential kp) = Some id ->
  key_package_bytes kp' = Ok kpb' -> basic_identity (kp_credential kp') = Some id' ->
  id <> id' -> (id ∉ members g) -> (id' ∉ members g) ->
  add_member r kpb (g, c) = (Ok res, (g', c')) -> add_member r' kpb' (h, d) = (Ok res', (h', d')) ->
  (id ∈ members g' /\ (id ∉ members h')) /\ (id' ∈ members h' /\ (id' ∉ members g')) /\
  (exists er g2 c2, group_process (commit res') (g', c') = (Err er, (g2, c2)) /\ seat g2 = seat g') /\
  (exists er h2 d2, group_process (commit res) (h', d') = (Err er, (h2, d2)) /\ seat h2 = seat h').
Proof.
  intros Hg Hh Hseat Hkp Hid Hkp' Hid' Hne Hnew Hnew' Ha Ha'.
  destruct (one_side r kp kpb id g c res g' c' r' kp' kpb' id' h d res' h' d') as (? & ? & ?); try done.
  assert (members h = members g) as Hmem by (by rewrite !members_seat, Hseat).
  destruct (one_side r' kp' kpb' id' h d res' h' d' r kp kpb id g c res g' c') as (? & ? & ?);
    rewrite ?Hmem; try done.
Qed.
End GroupFork.

Module ForkDemo.
Import MlsDemo.

(** The first two clients of [GroupProps], seated together. *)
Definition seated_at (l : u32) : Group :=
  mkGroup (t_arrive text (0, {[wrap 32 0 := name 0; wrap 32 1 := name 1]}) l : @MlsGroup openmls).
Definition adds (a : nat) (l : u32) (n : nat) :=
  add_member (tt : @Rand openmls) (name n) (seated_at l, client a).
Definition outcome (a : nat) (l : u32) (n : nat) : AddResult * (Group * _) :=
  match adds a l n with
  | (Ok res, gc) => (res, gc)
  | (Err _, gc) => (mkAddResult [] [], gc)
  end.
End ForkDemo.

Import MlsDemo ForkDemo.

(** The first adds a third client while the second adds a fourth. *)
Lemma concurrent_adds_fork_witness :
  let '(res, (g, c)) := outcome 0 (wrap 32 0) 2 in
  let '(res', (h, d)) := outcome 1 (wrap 32 1) 3 in
  (name 2 ∈ members g /\ (name 2 ∉ members h)) /\ (name 3 ∈ members h /\ (name 3 ∉ members g)) /\
  (exists er g2 c2, group_process (commit res') (g, c) = (Err er, (g2, c2)) /\ seat g2 = seat g) /\
  (exists er h2 d2, group_process (commit res) (h, d) = (Err er, (h2, d2)) /\ seat h2 = seat h).
Proof.
  assert (exists res gc, adds 0 (wrap 32 0) 2 = (Ok res, gc)) as (res & [g c] & Ha) by (eexists _, _; reflexivity).
  assert (exists res gc, adds 1 (wrap 32 1) 3 = (Ok res, gc)) as (res' & [h d] & Ha') by (eexists _, _; reflexivity).
  unfold outcome. rewrite Ha, Ha'. unfold adds in Ha, Ha'.
  refine (concurrent_adds_fork tt (name 2) (name 2) (name 2) _ _ res g c tt (name 3) (name 3) (name 3) _ _ res' h d
    _ _ _ _ _ _ _ _ _ _ Ha Ha').
  - reflexivity.
  - reflexivity.
  - reflexivity.
  - reflexivity.
  - reflexivity.
  - reflexivity.
  - reflexivity.
  - intros Heq%name_inj. discriminate.
  - apply (bool_decide_unpack _). vm_compute. exact I.
  - apply (bool_decide_unpack _). vm_compute. exact I.
Defined.
