(* ===== verification/Url.v ===== *)
(** * The request line (relay/src/server.rs)

    [split_once], [query_param] and [url_decode]. A Rust [&str] is its bytes; a
    slice off a character boundary panics, and a panic is an error of its own. *)
From S2P Require Import Prelude Words.
From Stdlib Require Import Ascii.

Local Open Scope char_scope.

Inductive panic : Set := Panic.

(** A string of one character given by its code point below 256, as UTF-8. *)
Definition push_latin1 (c : N) : string :=
  if (c <? 128)%N then String (ascii_of_N c) EmptyString
  else String (ascii_of_N (192 + c / 64)) (String (ascii_of_N (128 + c mod 64)) EmptyString).

(** [str::is_char_boundary] at the start of [rest]. *)
Definition char_boundary (rest : string) : bool :=
  match rest with
  | EmptyString => true
  | String c _ => ((N_of_ascii c <? 128) || (192 <=? N_of_ascii c))%N
  end.

(** [char::to_digit(16)] *)
Definition hex_digit (c : ascii) : option N :=
  let n := N_of_ascii c in
  if ((48 <=? n) && (n <=? 57))%N then Some (n - 48)%N
  else if ((65 <=? n) && (n <=? 70))%N then Some (n - 55)%N
  else if ((97 <=? n) && (n <=? 102))%N then Some (n - 87)%N
  else None.

(** [u8::from_str_radix(s, 16)] of a string of two bytes: a leading plus sign
    is allowed. *)
Definition from_hex2 (a b : ascii) : option N :=
  if Ascii.eqb a "+" then hex_digit b
  else match hex_digit a, hex_digit b with
       | Some x, Some y => Some (16 * x + y)%N
       | _, _ => None
       end.

Fixpoint url_decode (s : string) : result panic string :=
  match s with
  | EmptyString => Ok EmptyString
  | String c tail =>
      let other :=
        if Ascii.eqb c "+" then
          out <-? url_decode tail; Ok (String " " out)
        else
          out <-? url_decode tail; Ok (push_latin1 (N_of_ascii c) +:+ out) in
      match tail with
      | String a (String b rest) =>
          if Ascii.eqb c "%" then
            if char_boundary rest then
              match from_hex2 a b with
              | Some byte => out <-? url_decode rest; Ok (push_latin1 byte +:+ out)
              | None => out <-? url_decode tail; Ok (String "%" out)
              end
            else Err Panic
          else other
      | _ => other
      end
  end.

(** [str::split_once(c)], [str::split(c)] and [str::splitn(2, c)]. *)
Fixpoint split_once (c : ascii) (s : string) : option (string * string) :=
  match s with
  | EmptyString => None
  | String x s =>
      if Ascii.eqb x c then Some (EmptyString, s)
      else match split_once c s with Some (a, b) => Some (String x a, b) | None => None end
  end.

Fixpoint split (c : ascii) (s : string) : list string :=
  match s with
  | EmptyString => [EmptyString]
  | String x s =>
      if Ascii.eqb x c then EmptyString :: split c s
      else match split c s with [] => [String x EmptyString] | a :: l => String x a :: l end
  end.

Definition splitn2 (c : ascii) (s : string) : string * option string :=
  match split_once c s with Some (a, b) => (a, Some b) | None => (s, None) end.

Fixpoint find_param (pairs : list string) (key : string) : result panic (option string) :=
  match pairs with
  | [] => Ok None
  | p :: pairs =>
      let '(k, v) := splitn2 "=" p in
      if decide (k = key)
      then let raw := default EmptyString v in
           s <-? url_decode raw; Ok (Some s)
      else find_param pairs key
  end.

Definition query_param (query key : string) : result panic (option string) :=
  find_param (split "&" query) key.

(** ** What it decodes *)

(** The WHATWG form encoding of one byte, as URL libraries document it. *)
Definition unreserved (c : ascii) : bool :=
  let n := N_of_ascii c in
  (((48 <=? n) && (n <=? 57)) || ((65 <=? n) && (n <=? 90)) || ((97 <=? n) && (n <=? 122)) ||
   (n =? 42) || (n =? 45) || (n =? 46) || (n =? 95))%N.

Definition hex_char (n : N) : ascii := ascii_of_N (if (n <? 10)%N then 48 + n else 55 + n).

Definition form_byte (c : ascii) : string :=
  if unreserved c then String c EmptyString
  else if Ascii.eqb c " " then String "+" EmptyString
  else String "%" (String (hex_char (N_of_ascii c / 16)) (String (hex_char (N_of_ascii c mod 16)) EmptyString)).

Fixpoint form_encoded (s : string) : string :=
  match s with
  | EmptyString => EmptyString
  | String c s => form_byte c +:+ form_encoded s
  end.

Fixpoint ascii_string (s : string) : Prop :=
  match s with
  | EmptyString => True
  | String c s => (N_of_ascii c < 128)%N /\ ascii_string s
  end.

(** Facts about single characters are checked on all 256 of them. *)
Definition all_ascii (P : ascii -> bool) : bool := forallb (fun n => P (ascii_of_nat n)) (seq 0 256).

Lemma all_ascii_spec P : all_ascii P = true -> forall c, P c = true.
Proof.
  intros Hall c. rewrite <-(ascii_nat_embedding c). apply (proj1 (forallb_forall _ _) Hall).
  apply in_seq. split; [lia|]. apply nat_ascii_bounded.
Qed.

Definition decodes_byte (c : ascii) : bool :=
  match form_byte c with
  | String x EmptyString =>
      negb (Ascii.eqb x "%") && (if Ascii.eqb x "+" then Ascii.eqb c " " else Ascii.eqb c x) &&
      (N_of_ascii x <? 128)%N
  | String p (String a (String b EmptyString)) =>
      Ascii.eqb p "%" && bool_decide (from_hex2 a b = Some (N_of_ascii c)) && (N_of_ascii a <? 128)%N &&
      (N_of_ascii b <? 128)%N
  | _ => false
  end.

Lemma decodes_all c : decodes_byte c = true.
Proof. revert c. apply all_ascii_spec. by vm_compute. Qed.

Lemma push_ascii c : (N_of_ascii c < 128)%N -> push_latin1 (N_of_ascii c) = String c EmptyString.
Proof.
  intros Hc. unfold push_latin1. rewrite (proj2 (N.ltb_lt _ _) Hc). by rewrite ascii_N_embedding.
Qed.

(** A string of ASCII characters starts at a character boundary. *)
Lemma ascii_boundary s : ascii_string s -> char_boundary s = true.
Proof.
  destruct s as [|c s]; [done|]. intros [Hc _]. cbn. by rewrite (proj2 (N.ltb_lt _ _) Hc).
Qed.

Lemma append_cons c s t : String c s +:+ t = String c (s +:+ t).
Proof. done. Qed.
Lemma append_nil t : EmptyString +:+ t = t.
Proof. done. Qed.

Lemma ascii_string_app s t : ascii_string (s +:+ t) <-> ascii_string s /\ ascii_string t.
Proof. induction s as [|c s IH]; [cbn; tauto|]. rewrite append_cons. cbn [ascii_string]. rewrite IH. tauto. Qed.

Lemma form_byte_cases c :
  (exists x, form_byte c = String x EmptyString /\ x <> "%" /\ c = (if Ascii.eqb x "+" then " " else x) /\
     (N_of_ascii x < 128)%N) \/
  (exists a b, form_byte c = String "%" (String a (String b EmptyString)) /\
     from_hex2 a b = Some (N_of_ascii c) /\ (N_of_ascii a < 128)%N /\ (N_of_ascii b < 128)%N).
Proof.
  pose proof (decodes_all c) as Hd. unfold decodes_byte in Hd.
  destruct (form_byte c) as [|x [|a [|b [|? ?]]]]; try done.
  - left. exists x. rewrite !andb_true_iff, negb_true_iff, N.ltb_lt in Hd. destruct Hd as [[Hp Hc] Hx].
    split_and!; [done|by apply Ascii.eqb_neq|by destruct (Ascii.eqb x "+"); apply Ascii.eqb_eq|done].
  - right. exists a, b. rewrite !andb_true_iff, !N.ltb_lt, bool_decide_eq_true in Hd.
    destruct Hd as [[[Hx Hh] Ha] Hb]. apply Ascii.eqb_eq in Hx as ->. by split_and!.
Qed.

Lemma form_encoded_ascii s : ascii_string (form_encoded s).
Proof.
  induction s as [|c s IH]; [done|]. cbn [form_encoded]. apply ascii_string_app. split; [|done].
  destruct (form_byte_cases c) as [(x & -> & _ & _ & Hx)|(a & b & -> & _ & Ha & Hb)]; cbn; by split_and!.
Qed.

Lemma url_decode_form s : ascii_string s -> url_decode (form_encoded s) = Ok s.
Proof.
  induction s as [|c s IH]; [done|]. intros [Hc Hs]. specialize (IH Hs). cbn [form_encoded].
  destruct (form_byte_cases c) as [(x & -> & Hp & Hx & Hlt)|(a & b & -> & Hh & _)].
  - rewrite append_cons, append_nil. cbn [url_decode]. rewrite IH.
    apply Ascii.eqb_neq in Hp. rewrite Hp.
    assert ((if Ascii.eqb x "+" then out <-? Ok s; Ok (String " " out)
             else out <-? Ok s; Ok (push_latin1 (N_of_ascii x) +:+ out)) = @Ok panic _ (String c s)) as ->.
    { cbn [rbind]. rewrite Hx. destruct (Ascii.eqb x "+"); [done|]. by rewrite push_ascii. }
    by destruct (form_encoded s) as [|? [|? ?]].
  - rewrite !append_cons, append_nil. cbn [url_decode Ascii.eqb Bool.eqb]. rewrite ascii_boundary by apply form_encoded_ascii.
    rewrite Hh, IH. cbn [rbind]. by rewrite push_ascii.
Qed.

(** On ASCII it never panics. *)
Lemma url_decode_total s : ascii_string s -> exists t, url_decode s = Ok t.
Proof.
  induction s as [s IH] using (induction_ltof1 _ String.length). unfold ltof in IH.
  destruct s as [|c s]; [by eexists|]. intros [Hc Hs].
  destruct (IH s) as [t Ht]; [cbn; lia|done|].
  assert (exists t, (if Ascii.eqb c "+" then out <-? url_decode s; Ok (String " " out)
                     else out <-? url_decode s; Ok (push_latin1 (N_of_ascii c) +:+ out)) = @Ok panic _ t) as Hother.
  { rewrite Ht. cbn [rbind]. destruct (Ascii.eqb c "+"); by eexists. }
  destruct s as [|a [|b rest]]; [exact Hother|exact Hother|].
  change (url_decode (String c (String a (String b rest)))) with
    (if Ascii.eqb c "%" then
       if char_boundary rest then
         match from_hex2 a b with
         | Some byte => out <-? url_decode rest; Ok (push_latin1 byte +:+ out)
         | None => out <-? url_decode (String a (String b rest)); Ok (String "%" out)
         end
       else Err Panic
     else if Ascii.eqb c "+" then out <-? url_decode (String a (String b rest)); Ok (String " " out)
          else out <-? url_decode (String a (String b rest)); Ok (push_latin1 (N_of_ascii c) +:+ out)).
  destruct (Ascii.eqb c "%"); [|exact Hother]. destruct Hs as (Ha & Hb & Hrest).
  rewrite ascii_boundary by done. destruct (from_hex2 a b).
  - destruct (IH rest) as [t' ->]; [cbn; lia|done|]. by eexists.
  - rewrite Ht. by eexists.
Qed.

(** ** Query strings *)

Fixpoint absent (c : ascii) (s : string) : bool :=
  match s with EmptyString => true | String x s => negb (Ascii.eqb x c) && absent c s end.

Lemma absent_app c s t : absent c (s +:+ t) = absent c s && absent c t.
Proof.
  induction s as [|x s IH]; [by rewrite append_nil|].
  rewrite append_cons. cbn [absent]. by rewrite IH, andb_assoc.
Qed.

Lemma split_once_absent c s t : absent c s = true -> split_once c (s +:+ String c t) = Some (s, t).
Proof.
  induction s as [|x s IH]; cbn [absent]; intros Hs.
  - rewrite append_nil. cbn. by rewrite Ascii.eqb_refl.
  - apply andb_true_iff in Hs as [Hx Hs]. rewrite append_cons. cbn [split_once].
    apply negb_true_iff in Hx. by rewrite Hx, (IH Hs).
Qed.

Lemma split_absent c s : absent c s = true -> split c s = [s].
Proof.
  induction s as [|x s IH]; cbn [absent]; intros Hs; [done|].
  apply andb_true_iff in Hs as [Hx Hs]. cbn [split]. apply negb_true_iff in Hx. by rewrite Hx, (IH Hs).
Qed.

Lemma split_app c s t : absent c s = true -> split c (s +:+ String c t) = s :: split c t.
Proof.
  induction s as [|x s IH]; cbn [absent]; intros Hs.
  - rewrite append_nil. cbn. by rewrite Ascii.eqb_refl.
  - apply andb_true_iff in Hs as [Hx Hs]. rewrite append_cons. cbn [split].
    apply negb_true_iff in Hx. by rewrite Hx, (IH Hs).
Qed.

Definition safe_byte (c : ascii) : bool :=
  absent "&" (form_byte c) && absent "=" (form_byte c) && absent "?" (form_byte c).

Lemma safe_all c : safe_byte c = true.
Proof. revert c. apply all_ascii_spec. by vm_compute. Qed.

Lemma form_encoded_absent s :
  absent "&" (form_encoded s) = true /\ absent "=" (form_encoded s) = true /\ absent "?" (form_encoded s) = true.
Proof.
  induction s as [|c s IH]; [done|]. cbn [form_encoded]. rewrite !absent_app.
  pose proof (safe_all c) as Hc. unfold safe_byte in Hc. rewrite !andb_true_iff in *. tauto.
Qed.

(** A client's query: the encoded parameters joined by ampersands. *)
Definition param_text (kv : string * string) : string :=
  form_encoded kv.1 +:+ String "=" (form_encoded kv.2).
Fixpoint query_text (kvs : list (string * string)) : string :=
  match kvs with
  | [] => EmptyString
  | [kv] => param_text kv
  | kv :: kvs => param_text kv +:+ String "&" (query_text kvs)
  end.

Lemma param_text_absent kv : absent "&" (param_text kv) = true.
Proof.
  unfold param_text. rewrite absent_app. cbn [absent]. by rewrite !(proj1 (form_encoded_absent _)).
Qed.

Lemma split_query kvs : kvs <> [] -> split "&" (query_text kvs) = map param_text kvs.
Proof.
  induction kvs as [|kv [|kv' kvs] IH]; intros Hne; [done| |].
  - cbn. by apply split_absent, param_text_absent.
  - change (query_text (kv :: kv' :: kvs)) with (param_text kv +:+ String "&" (query_text (kv' :: kvs))).
    rewrite split_app by apply param_text_absent. by rewrite IH.
Qed.

(** A key that is encoded as itself, as every key of the API. *)
Definition plain (s : string) : Prop := form_encoded s = s.

Lemma find_param_text kvs key :
  Forall (fun kv => plain kv.1 /\ ascii_string kv.2) kvs ->
  find_param (map param_text kvs) key = Ok (snd <$> List.find (fun kv => bool_decide (kv.1 = key)) kvs).
Proof.
  intros Hkvs. induction Hkvs as [|[k v] kvs [Hk Hv] Hkvs IH]; [done|].
  cbn [map find_param List.find fst snd] in *. unfold splitn2 at 1, param_text at 1. cbn [fst snd].
  rewrite split_once_absent by apply form_encoded_absent. rewrite Hk.
  case_decide as Heq.
  - rewrite bool_decide_true by done. cbn [from_option id]. rewrite url_decode_form by done. done.
  - rewrite bool_decide_false by done. exact IH.
Qed.

(** The query of a request with one parameter. *)
Lemma query_param_one key v :
  plain key -> ascii_string v -> query_param (query_text [(key, v)]) key = Ok (Some v).
Proof.
  intros Hk Hv. unfold query_param. rewrite split_query by done.
  rewrite find_param_text by (by repeat constructor). cbn. by rewrite bool_decide_true.
Qed.

(** C35: a query written by any client that follows the URL standard is read
    back: whatever parameters it carries, in whatever order, [query_param] returns
    the value of the first one with the given key, percent-decoded to exactly the
    ASCII text the client passed -- the plus, slash and equals signs of base64
    included --, and nothing if the key is missing. *)
Theorem query_param_reads kvs key :
  Forall (fun kv => plain kv.1 /\ ascii_string kv.2) kvs -> key <> EmptyString ->
  query_param (query_text kvs) key
  = Ok (snd <$> List.find (fun kv => bool_decide (kv.1 = key)) kvs).
Proof.
  intros Hkvs Hkey. unfold query_param. destruct (decide (kvs = [])) as [->|Hne].
  { cbn. by rewrite decide_False. }
  rewrite split_query by done. by apply find_param_text.
Qed.

Local Open Scope string_scope.

Lemma query_param_reads_witness :
  query_param (query_text [("v", "1 + 1"); ("identity", "AB+/cd==")]) "identity" = Ok (Some "AB+/cd==") /\
  query_text [("v", "1 + 1"); ("identity", "AB+/cd==")] = "v=1+%2B+1&identity=AB%2B%2Fcd%3D%3D".
Proof.
  split; [|by vm_compute].
  refine (query_param_reads [("v", "1 + 1"); ("identity", "AB+/cd==")] "identity" _ _); [|discriminate].
  repeat (apply Forall_cons; split; [split; [by vm_compute|by repeat split]|]). by apply Forall_nil.
Defined.
