(* ===== verification/RelayServer.v ===== *)
(** * The relay's HTTP front-end (relay/src/server.rs, relay/src/protocol.rs)

    The rate limiter, the request handlers and one turn of the request loop.
    JSON, base64 and the TCP side of HTTP are libraries: JSON and base64 are
    classes, a request is what the HTTP library hands over and a response what is
    given back to it. Every reading of a clock is an argument. *)
From S2P Require Import Prelude Words Primitives Wire PqKem Identity RelayStore Url.
From Stdlib Require Import Ascii.

Local Open Scope string_scope.

Definition MAX_BODY_BYTES : N := 4 * 1024 * 1024.
Definition SWEEP_INTERVAL_SECS : N := 60 * 60.

(** ** The libraries *)

(** [serde_json] at one type: [to_string], [to_value] sent as text by the
    client, and [from_str]; the error is its text. *)
Class Json (A : Type) := {
  json_to_string : A -> result string string;
  json_value_text : A -> result string string;
  json_from_str : string -> result string A
}.

(** The standard base64 engine. *)
Class Base64 := {
  b64 : list u8 -> string;
  b64_decode : string -> result string (list u8)
}.

(** ** protocol.rs *)

Record OneTimePrekey : Set := mkOneTime { otp_id : u32; otp_public : string }.
Record PublishRequest : Set := mkPublish { pr_bundle : string; pr_one_time : list OneTimePrekey }.
Record BundleResponse : Set := mkBundleResponse { br_bundle : string }.
Record SendRequest : Set := mkSend { sr_recipient : string; sr_message : string }.
Record PollResponse : Set := mkPoll { po_messages : list string }.

Section Protocol.
Context `{Base64}.

Definition unb64 (s : string) : result string (list u8) := b64_decode s.

Definition unb64_key (s : string) : result string key32 :=
  bytes <-? unb64 s;
  ok_or (array_of 32 bytes) "expected 32-byte key".
End Protocol.

(** [e.to_string()] of the core's errors. *)
Definition display_error (e : Wire.Error) : string :=
  match e with
  | BadSignature => "signature verification failed"
  | MalformedKey => "malformed key or ciphertext"
  | Decrypt => "decryption failed"
  | UnknownPrekey => "unknown prekey id"
  | Wire.Wire m => "wire encoding error: " +:+ m
  | UnexpectedMessage => "unexpected message for session state"
  end.

(** ** The rate limiter *)

Inductive IpAddr : Set := V4 (octets : array 4) | V6 (octets : array 16).

#[export] Instance IpAddr_eq_dec : EqDecision IpAddr.
Proof. solve_decision. Defined.
#[export] Program Instance IpAddr_countable : Countable IpAddr :=
  inj_countable' (fun ip => match ip with V4 a => inl a | V6 a => inr a end)
    (fun s => match s with inl a => V4 a | inr a => V6 a end) _.
Next Obligation. by intros []. Qed.

Record RateLimiter : Set := mkLimiter {
  rl_limit : u32;
  rl_windows : gmap IpAddr (u64 * u32);
  rl_started : Instant
}.

Definition limiter_new (now : Instant) (limit : u32) : RateLimiter := mkLimiter limit ∅ now.

Definition WINDOWS_CAP : nat := N.to_nat 10000.
Arguments WINDOWS_CAP : simpl never.

(** [now] is the clock reading of [started.elapsed()]. *)
Definition allow (now : Instant) (ip : IpAddr) (l : RateLimiter) : bool * RateLimiter :=
  let minute := wrap 64 (elapsed_secs now (rl_started l) / 60) in
  let windows := rl_windows l in
  let windows := if decide (WINDOWS_CAP < size windows)
                 then filter (fun kv : IpAddr * (u64 * u32) => kv.2.1 = minute) windows else windows in
  let entry := default (minute, wrap 32 0) (windows !! ip) in
  let entry := if decide (entry.1 <> minute) then (minute, wrap 32 0) else entry in
  let entry := (entry.1, wsucc entry.2) in
  ((wval entry.2 <=? wval (rl_limit l))%N,
   mkLimiter (rl_limit l) (<[ip := entry]> windows) (rl_started l)).

Record ServeOptions : Set := mkOptions { rate_limit_per_min : option u32 }.
Definition ServeOptions_default : ServeOptions := mkOptions None.

(** ** Requests and responses *)

Inductive Method : Set := Get | Post | OtherMethod.
#[export] Instance Method_eq_dec : EqDecision Method.
Proof. solve_decision. Defined.

Record Request : Set := mkRequest {
  rq_method : Method;
  rq_url : string;
  rq_body : string;
  rq_remote : option IpAddr
}.

Record Response : Set := mkResponse { rs_status : N; rs_text : string }.

Definition respond_text (status : N) (text : string) : Response := mkResponse status text.

(** [None] is a request dropped without an answer. *)
Definition respond_json `{!Json A} (status : N) (body : A) : option Response :=
  match json_to_string body with Ok json => Some (mkResponse status json) | Err _ => None end.

Record RequestError : Set := mkRequestError { re_status : N; re_message : string }.
Definition bad (message : string) : RequestError := mkRequestError 400 message.
(** [From<io::Error>]; [message] is the error's text. *)
Definition from_io (message : string) : RequestError := mkRequestError 400 message.
Definition respond_error (e : RequestError) : Response := respond_text (re_status e) (re_message e).

(** [io::Read::take]: the first [n] bytes. *)
Fixpoint take_bytes (n : N) (s : string) : string :=
  match s with
  | EmptyString => EmptyString
  | String c s => if (n =? 0)%N then EmptyString else String c (take_bytes (n - 1) s)
  end.

(** [from_utf8] succeeds. *)
Definition cont (c : ascii) : bool := ((128 <=? N_of_ascii c) && (N_of_ascii c <=? 191))%N.
Fixpoint utf8_valid (s : string) : bool :=
  match s with
  | EmptyString => true
  | String a s =>
      let n := N_of_ascii a in
      if (n <? 128)%N then utf8_valid s
      else match s with
      | EmptyString => false
      | String b s =>
          let m := N_of_ascii b in
          if ((194 <=? n) && (n <=? 223))%N then cont b && utf8_valid s
          else match s with
          | EmptyString => false
          | String c s =>
              if (n =? 224)%N then ((160 <=? m) && (m <=? 191))%N && cont c && utf8_valid s
              else if (n =? 237)%N then ((128 <=? m) && (m <=? 159))%N && cont c && utf8_valid s
              else if ((225 <=? n) && (n <=? 239))%N then cont b && cont c && utf8_valid s
              else match s with
              | EmptyString => false
              | String d s =>
                  if (n =? 240)%N then ((144 <=? m) && (m <=? 191))%N && cont c && cont d && utf8_valid s
                  else if ((241 <=? n) && (n <=? 243))%N then cont b && cont c && cont d && utf8_valid s
                  else if (n =? 244)%N then ((128 <=? m) && (m <=? 143))%N && cont c && cont d && utf8_valid s
                  else false
              end
          end
      end
  end.

(** The [io::Error] of a body becomes a 400. *)
Definition read_json `{!Json A} (body : string) : result RequestError A :=
  let text := take_bytes MAX_BODY_BYTES body in
  if utf8_valid text then map_err from_io (json_from_str text)
  else Err (from_io "stream did not contain valid UTF-8").

(** ** The handlers *)
Section Handlers.
Context `{!Base64, !Bincode PreKeyBundle, !Bincode Snapshot}.
Context `{!Json PublishRequest, !Json BundleResponse, !Json SendRequest, !Json PollResponse}.

(** The loop of [handle_publish] over the uploaded prekeys. *)
Fixpoint decode_one_time (otps : list OneTimePrekey) : result RequestError (list (u32 * key32)) :=
  match otps with
  | [] => Ok []
  | otp :: otps =>
      key <-? map_err bad (unb64_key (otp_public otp));
      rest <-? decode_one_time otps;
      Ok ((otp_id otp, key) :: rest)
  end.

Definition handle_publish (body : string) : mut RelayStore RequestError unit :=
  let! req := slift (read_json (A := PublishRequest) body) in
  let! bundle_bytes := slift (map_err bad (unb64 (pr_bundle req))) in
  let! bundle := slift (map_err (fun e => bad (display_error e)) (bundle_decode bundle_bytes)) in
  let! one_time := slift (decode_one_time (pr_one_time req)) in
  smodify (publish bundle one_time).

(** [query_param(query, name).and_then(|s| unb64_key(&s).ok())] *)
Definition key_param (query name : string) : result panic (option key32) :=
  p <-? query_param query name;
  Ok (match p with Some s => ok (unb64_key s) | None => None end).

Definition handle_bundle (query : string) : mut RelayStore panic (option Response) :=
  let! identity := slift (key_param query "identity") in
  match identity with
  | None => sret (Some (respond_text 400 "missing identity"))
  | Some identity => fun store =>
      match fetch_bundle identity store with
      | (Some bundle, store) => (Ok (respond_json 200 (mkBundleResponse (b64 (bundle_encode bundle)))), store)
      | (None, store) => (Ok (Some (respond_text 404 "unknown identity")), store)
      end
  end.

Definition handle_send (unix : u64) (body : string) : mut RelayStore RequestError unit :=
  let! req := slift (read_json (A := SendRequest) body) in
  let! recipient := slift (map_err bad (unb64_key (sr_recipient req))) in
  let! message := slift (map_err bad (unb64 (sr_message req))) in
  fun store =>
    let '(res, store) := enqueue unix recipient message store in
    (map_err (fun e => match e with MessageTooLarge => mkRequestError 413 "message too large" end) res, store).

Definition handle_poll (unix : u64) (query : string) : mut RelayStore panic (option Response) :=
  let! recipient := slift (key_param query "recipient") in
  match recipient with
  | None => sret (Some (respond_text 400 "missing recipient"))
  | Some recipient => fun store =>
      let '(messages, store) := poll unix recipient store in
      (Ok (respond_json 200 (mkPoll (map b64 messages))), store)
  end.

(** [match handle_x(..) { Ok(()) => 200, Err(e) => respond_error }] *)
Definition answered (m : mut RelayStore RequestError unit) : mut RelayStore panic (option Response) := fun store =>
  match m store with
  | (Ok _, store) => (Ok (Some (respond_text 200 "ok")), store)
  | (Err e, store) => (Ok (Some (respond_error e)), store)
  end.

Definition handle (unix : u64) (r : Request) : mut RelayStore panic (option Response) :=
  let '(path, query) :=
    match split_once "?" (rq_url r) with Some (p, q) => (p, q) | None => (rq_url r, "") end in
  if decide (rq_method r = Get /\ path = "/health") then sret (Some (respond_text 200 "ok"))
  else if decide (rq_method r = Post /\ path = "/publish") then answered (handle_publish (rq_body r))
  else if decide (rq_method r = Get /\ path = "/bundle") then handle_bundle query
  else if decide (rq_method r = Post /\ path = "/send") then answered (handle_send unix (rq_body r))
  else if decide (rq_method r = Get /\ path = "/poll") then handle_poll unix query
  else sret (Some (respond_text 404 "not found")).

(** ** The request loop *)

Record Server := mkServer {
  sv_store : RelayStore;
  sv_limiter : option RateLimiter;
  sv_last_sweep : Instant
}.

(** The start of [serve_on_with]. *)
Definition serve_start (now now' : Instant) (options : ServeOptions) (store : RelayStore) : Server :=
  mkServer store (option_map (limiter_new now) (rate_limit_per_min options)) now'.
Definition serve_on (now now' : Instant) (store : RelayStore) : Server := serve_start now now' ServeOptions_default store.

(** The clocks one turn reads, in the order it reads them, and the outcomes of
    the disk operations of its flush. *)
Record Clocks := mkClocks {
  ck_limiter : Instant;
  ck_unix : u64;
  ck_sweep : Instant;
  ck_sweep_unix : u64;
  ck_swept : Instant;
  ck_flush : Instant;
  ck_io : disk_op -> option IoError
}.

Definition admit_request (now : Instant) (r : Request) (limiter : option RateLimiter) : bool * option RateLimiter :=
  match limiter, rq_remote r with
  | Some l, Some ip => let '(ok, l) := allow now ip l in (ok, Some l)
  | _, _ => (true, limiter)
  end.

Definition serve_step (ck : Clocks) (r : Request) : mut Server panic (option Response) := fun sv =>
  let '(ok, limiter) := admit_request (ck_limiter ck) r (sv_limiter sv) in
  if negb ok
  then (Ok (Some (respond_text 429 "rate limited")), mkServer (sv_store sv) limiter (sv_last_sweep sv))
  else
    match handle (ck_unix ck) r (sv_store sv) with
    | (Err Panic, store) => (Err Panic, mkServer store limiter (sv_last_sweep sv))
    | (Ok response, store) =>
        let '(store, last_sweep) :=
          if (SWEEP_INTERVAL_SECS <=? elapsed_secs (ck_sweep ck) (sv_last_sweep sv))%N
          then ((sweep_expired (ck_sweep_unix ck) store).2, ck_swept ck)
          else (store, sv_last_sweep sv) in
        let store := (maybe_flush (ck_flush ck) (ck_io ck) store).1.2 in
        (Ok response, mkServer store limiter last_sweep)
    end.

End Handlers.
