(* ===== verification/RelayServerProps.v ===== *)
(** * Properties of the relay's front-end (relay/src/server.rs)

    The rate limiter against its specification, the request loop as a client of
    the store, and the answers to requests that fail. *)
From S2P Require Import Prelude Words Primitives Wire PqKem Identity RelayStore RelayStoreProps Url RelayServer.
From S2P Require Import Demo.
From Stdlib Require Import Ascii.

Local Open Scope string_scope.
Local Open Scope nat_scope.

(** ** The rate limiter *)

Definition minute_of (start now : Instant) : u64 := wrap 64 (elapsed_secs now start / 60).

Fixpoint admit_all (calls : list (Instant * IpAddr)) (l : RateLimiter) : list bool :=
  match calls with
  | [] => []
  | (now, ip) :: calls => let '(ok, l) := allow now ip l in ok :: admit_all calls l
  end.

(** How often [ip] called in the minute [m]. *)
Definition calls_in (start : Instant) (ip : IpAddr) (m : u64) (calls : list (Instant * IpAddr)) : nat :=
  length (filter (fun c : Instant * IpAddr => c.2 = ip /\ minute_of start c.1 = m) calls).

(** What the limiter has counted for [ip] in the minute [m]. *)
Definition counted (l : RateLimiter) (ip : IpAddr) (m : u64) : nat :=
  match rl_windows l !! ip with
  | Some (w, c) => if decide (w = m) then cnt c else 0
  | None => 0
  end.

(** The windows after the pruning step of [allow]. *)
Definition pruned (m : u64) (windows : gmap IpAddr (u64 * u32)) : gmap IpAddr (u64 * u32) :=
  if decide (WINDOWS_CAP < size windows)
  then filter (fun kv : IpAddr * (u64 * u32) => kv.2.1 = m) windows else windows.

Lemma pruned_lookup m windows ip :
  pruned m windows !! ip = windows !! ip \/
  (exists w c, windows !! ip = Some (w, c) /\ w <> m /\ pruned m windows !! ip = None).
Proof.
  unfold pruned. case_decide; [|by left].
  destruct (windows !! ip) as [[w c]|] eqn:Hip.
  - destruct (decide (w = m)) as [->|Hne].
    + left. by apply map_lookup_filter_Some.
    + right. exists w, c. split_and!; [done|done|]. apply map_lookup_filter_None. right.
      intros x Hx. rewrite Hip in Hx. by injection Hx as <-.
  - left. apply map_lookup_filter_None. by left.
Qed.

Lemma allow_eq now ip l :
  let m := minute_of (rl_started l) now in
  let c := match rl_windows l !! ip with Some (w, c) => if decide (w = m) then c else wrap 32 0 | None => wrap 32 0 end in
  allow now ip l
  = ((wval (wsucc c) <=? wval (rl_limit l))%N,
     mkLimiter (rl_limit l) (<[ip := (m, wsucc c)]> (pruned m (rl_windows l))) (rl_started l)).
Proof.
  intros m c. unfold allow. fold (minute_of (rl_started l) now). fold m. fold (pruned m (rl_windows l)).
  set (e := default (m, wrap 32 0) (pruned m (rl_windows l) !! ip)).
  assert ((if decide (e.1 <> m) then (m, wrap 32 0) else e) = (m, c)) as ->; [|done].
  subst e c. destruct (pruned_lookup m (rl_windows l) ip) as [->|(w & c & -> & Hne & ->)].
  - destruct (rl_windows l !! ip) as [[w c]|]; cbn.
    + destruct (decide (w = m)) as [->|Hne]; [by rewrite decide_False by tauto|by rewrite decide_True].
    + by rewrite decide_False by tauto.
  - cbn. by rewrite decide_False by tauto; rewrite decide_False.
Qed.

(** The specification of the counters: on the current and later minutes they
    are the number of calls. *)
Definition counters_ok (past : list (Instant * IpAddr)) (l : RateLimiter) : Prop :=
  forall ip m, Forall (fun c => (wval (minute_of (rl_started l) c.1) <= wval m)%N) past ->
    counted l ip m = calls_in (rl_started l) ip m past.

Lemma calls_in_snoc start ip m past now ip0 :
  calls_in start ip m (past ++ [(now, ip0)])
  = calls_in start ip m past + (if decide (ip0 = ip /\ minute_of start now = m) then 1 else 0).
Proof. unfold calls_in. rewrite filter_app, length_app. f_equal. cbn. by case_decide. Qed.

Lemma calls_in_later start ip (m : u64) past (m0 : u64) :
  Forall (fun c => (wval (minute_of start c.1) <= wval m0)%N) past -> (wval m0 < wval m)%N ->
  calls_in start ip m past = 0.
Proof.
  intros Hpast Hm. unfold calls_in. induction Hpast as [|c past Hc _ IH]; [done|].
  rewrite filter_cons, decide_False; [done|]. intros [_ <-]. lia.
Qed.

Lemma calls_in_le start ip m past : calls_in start ip m past <= length past.
Proof. unfold calls_in. apply length_filter. Qed.

Lemma allow_counters past now ip l :
  counters_ok past l -> fits32 (S (length past)) ->
  Forall (fun c => (wval (minute_of (rl_started l) c.1) <= wval (minute_of (rl_started l) now))%N) past ->
  let m := minute_of (rl_started l) now in
  (allow now ip l).1 = bool_decide (calls_in (rl_started l) ip m past < cnt (rl_limit l)) /\
  counters_ok (past ++ [(now, ip)]) (allow now ip l).2.
Proof.
  intros Hok Hfits Hpast m. pose proof (Hok ip m Hpast) as Hip. unfold counted in Hip.
  rewrite (allow_eq now ip l). fold m. cbn [fst snd].
  set (c := match rl_windows l !! ip with Some (w, c) => if decide (w = m) then c else wrap 32 0 | None => wrap 32 0 end).
  assert (cnt c = calls_in (rl_started l) ip m past) as Hc.
  { rewrite <-Hip. unfold c. destruct (rl_windows l !! ip) as [[w c']|]; [|done]. by case_decide. }
  assert (wval (wsucc c) = N.of_nat (S (calls_in (rl_started l) ip m past))) as Hs.
  { rewrite wval_wsucc; rewrite <-Hc in *; unfold cnt, fits32 in *; [lia|].
    pose proof (calls_in_le (rl_started l) ip m past). lia. }
  split.
  - apply eq_true_iff_eq. rewrite N.leb_le, bool_decide_eq_true, Hs. unfold cnt. lia.
  - intros ip' m' Hm'. cbn [rl_started] in *. apply Forall_app in Hm' as [Hpast' Hnow].
    apply Forall_cons in Hnow as [Hnow _]. cbn [fst] in Hnow. rewrite calls_in_snoc.
    unfold counted. cbn [rl_windows]. destruct (decide (ip = ip')) as [<-|Hne].
    + rewrite lookup_insert_eq. unfold m. destruct (decide (minute_of (rl_started l) now = m')) as [<-|Hm].
      * rewrite decide_True by done. unfold cnt. rewrite Hs. fold m. lia.
      * rewrite decide_False by tauto. rewrite (calls_in_later _ _ _ _ _ Hpast); [done|].
        enough (wval (minute_of (rl_started l) now) <> wval m') by lia. intros Heq%word_eq. done.
    + rewrite lookup_insert_ne by done. rewrite decide_False by tauto.
      rewrite Nat.add_0_r, <-(Hok ip' m' Hpast'). unfold counted.
      destruct (pruned_lookup m (rl_windows l) ip') as [->|(w & c' & Hw & Hwm & ->)]; [done|].
      rewrite Hw. case_decide as Heq; [subst w|done].
      pose proof (Hok ip' m' Hpast') as Hcount. unfold counted in Hcount. rewrite Hw, decide_True in Hcount by done.
      rewrite Hcount. symmetry. apply (calls_in_later _ _ _ _ _ Hpast).
      enough (wval m <> wval m') by (unfold m in *; lia). intros Heq%word_eq. done.
Qed.

Lemma minute_of_mono start now now' :
  (elapsed_secs now' start < 2 ^ 64)%N -> (now <= now')%N ->
  (wval (minute_of start now) <= wval (minute_of start now'))%N.
Proof.
  intros Hb Hle. assert (elapsed_secs now start <= elapsed_secs now' start)%N as He.
  { unfold elapsed_secs. apply N.Div0.div_le_mono. lia. }
  unfold minute_of. pose proof (N.Div0.div_le_upper_bound (elapsed_secs now' start) 60 (elapsed_secs now' start)).
  rewrite !wval_wrap_small by (pose proof (N.Div0.div_le_mono _ _ 60 He); lia). by apply N.Div0.div_le_mono.
Qed.

(** Readings of the monotonic clock since [start], in order. *)
Definition clock_ok (start : Instant) (times : list Instant) : Prop :=
  Sorted N.le times /\ Forall (fun now => (elapsed_secs now start < 2 ^ 64)%N) times.

Lemma admit_all_counts calls past l i now ip :
  counters_ok past l -> fits32 (length past + length calls) ->
  clock_ok (rl_started l) (map fst (past ++ calls)) -> calls !! i = Some (now, ip) ->
  admit_all calls l !! i
  = Some (bool_decide (calls_in (rl_started l) ip (minute_of (rl_started l) now) (past ++ take i calls)
                       < cnt (rl_limit l))).
Proof.
  revert past l i. induction calls as [|[now0 ip0] calls IH]; intros past l i Hok Hfits Hclock Hi; [done|].
  assert (Forall (fun c => (wval (minute_of (rl_started l) c.1) <= wval (minute_of (rl_started l) now0))%N) past)
    as Hpast.
  { destruct Hclock as [Hsort Hbound]. apply Forall_forall. intros c Hc. apply minute_of_mono.
    - apply (proj1 (Forall_forall _ _) Hbound). apply list_elem_of_fmap. exists (now0, ip0).
      split; [done|]. apply elem_of_app. right. by left.
    - apply Sorted_StronglySorted in Hsort; [|intros x y z; apply N.le_trans].
      rewrite map_app in Hsort. apply StronglySorted_app in Hsort as (Hall & _ & _).
      apply Hall; [by apply list_elem_of_fmap_2|by left]. }
  assert (fits32 (S (length past))) as Hf by (cbn in Hfits; fits).
  destruct (allow_counters past now0 ip0 l Hok Hf Hpast) as [Hres Hok'].
  cbn [admit_all]. destruct (allow now0 ip0 l) as [ok l'] eqn:Hallow. cbn [fst snd] in *.
  assert (rl_started l' = rl_started l /\ rl_limit l' = rl_limit l) as [Hst Hlim].
  { rewrite allow_eq in Hallow. by injection Hallow as _ <-. }
  destruct i as [|i]; cbn [lookup list_lookup take] in *.
  - injection Hi as -> ->. by rewrite app_nil_r, Hres.
  - rewrite (cons_middle (now0, ip0) past), app_assoc. rewrite <-Hst, <-Hlim.
    apply IH; [done| |rewrite Hst; by rewrite <-app_assoc|done].
    rewrite length_app. cbn in *. fits.
Qed.

(** C12: the rate limiter is exact: on any sequence of fewer than 2^32 calls with a
    clock that does not go back, a call is admitted if and only if fewer than the limit of
    the earlier calls came from the same address in the same minute since the
    start -- whatever other addresses do, however the windows of past minutes are
    pruned, and whether or not the earlier calls were admitted. *)
Theorem rate_limiter_exact start limit calls i now ip :
  clock_ok start (map fst calls) -> fits32 (length calls) -> calls !! i = Some (now, ip) ->
  admit_all calls (limiter_new start limit) !! i
  = Some (bool_decide (calls_in start ip (minute_of start now) (take i calls) < cnt limit)).
Proof.
  intros Hclock Hfits Hi. apply (admit_all_counts calls [] (limiter_new start limit)); [|done..].
  intros ip' m' _. unfold counted. cbn. by rewrite lookup_empty.
Qed.

(** ** The handlers *)
Section Handlers.
Context `{!Base64, !Bincode PreKeyBundle, !Bincode Snapshot}.
Context `{!Json PublishRequest, !Json BundleResponse, !Json SendRequest, !Json PollResponse}.

Lemma split_once_ascii c s a b : split_once c s = Some (a, b) -> ascii_string s -> ascii_string b.
Proof.
  revert a b. induction s as [|x s IH]; intros a b; cbn; [done|].
  destruct (Ascii.eqb x c); [by intros [= <- <-] [_ ?]|].
  destruct (split_once c s) as [[a' b']|]; [|done]. intros [= <- <-] [_ ?]. by eapply IH.
Qed.

Lemma split_ascii c s : ascii_string s -> Forall ascii_string (split c s).
Proof.
  induction s as [|x s IH]; cbn; [intros _; by repeat constructor|]. intros [Hx Hs]. specialize (IH Hs).
  destruct (Ascii.eqb x c); [by constructor|].
  destruct (split c s); [by repeat constructor|]. apply Forall_cons in IH as [? ?]. by constructor.
Qed.

Lemma query_param_total query key : ascii_string query -> exists p, query_param query key = Ok p.
Proof.
  intros Hq. unfold query_param. pose proof (split_ascii "&"%char query Hq) as Hall.
  induction Hall as [|p pairs Hp _ IH]; [by eexists|]. cbn [find_param].
  destruct (splitn2 _ p) as [k v] eqn:Hsplit. case_decide; [|exact IH].
  assert (ascii_string (default EmptyString v)) as Hv.
  { unfold splitn2 in Hsplit. destruct (split_once _ p) as [[a b]|] eqn:Hs; injection Hsplit as <- <-; [|done].
    by apply (split_once_ascii _ _ _ _ Hs). }
  destruct (url_decode_total _ Hv) as [t ->]. by eexists.
Qed.

Lemma key_param_total query name : ascii_string query -> exists p, key_param query name = Ok p.
Proof. intros Hq. unfold key_param. destruct (query_param_total query name Hq) as [p ->]. by eexists. Qed.

(** What a handler may have done to the store when it returns. *)
Definition handled (store : RelayStore) (r : result panic (option Response) * RelayStore) : Prop :=
  (r.2 = store \/ store_op store r.2) /\
  match r.1 with
  | Ok (Some resp) => rs_status resp ∈ [200; 400; 404; 413]%N /\ (rs_status resp <> 200%N -> r.2 = store)
  | Ok None => True
  | Err Panic => r.2 = store
  end.

Lemma handled_text store status text :
  status ∈ [200; 400; 404; 413]%N -> handled store (Ok (Some (respond_text status text)), store).
Proof. intros Hs. split; [by left|]. done. Qed.

Lemma handled_json `{!Json A} store store' (body : A) :
  store' = store \/ store_op store store' -> handled store (Ok (respond_json 200 body), store').
Proof.
  intros Hop. split; [exact Hop|]. unfold respond_json. cbn [fst]. destruct (json_to_string body); [|done].
  split; [by left|]. by intros [].
Qed.

(** A handler of requests with a body changes the store last. *)
Definition body_handler (m : mut RelayStore RequestError unit) : Prop :=
  forall store, match m store with
    | (Ok _, store') => store_op store store'
    | (Err e, store') => store' = store /\ re_status e ∈ [400; 413]%N
    end.

Lemma body_handler_slift {A} (r : result RequestError A) (k : A -> mut RelayStore RequestError unit) :
  (forall e, r = Err e -> re_status e = 400%N) -> (forall a, body_handler (k a)) -> body_handler (sbind (slift r) k).
Proof.
  intros He Hk store. unfold sbind, slift. destruct r as [a|e]; [apply Hk|].
  split; [done|]. rewrite (He e eq_refl). by left.
Qed.

Lemma handled_answered m store : body_handler m -> handled store (answered m store).
Proof.
  intros Hm. specialize (Hm store). unfold answered. destruct (m store) as [[[]|e] store'].
  - split; [by right|]. split; [by left|]. by intros [].
  - destruct Hm as [-> He]. split; [by left|]. cbn. split; [|done].
    apply elem_of_cons. right. set_solver.
Qed.

Lemma map_err_bad {E A} (f : E -> string) (r : result E A) e :
  map_err (fun e => bad (f e)) r = Err e -> re_status e = 400%N.
Proof. destruct r; cbn; [done|]. by intros [= <-]. Qed.

Lemma read_json_bad `{!Json A} body e : read_json (A := A) body = Err e -> re_status e = 400%N.
Proof.
  unfold read_json. destruct (utf8_valid _); [|by intros [= <-]]. apply (map_err_bad (fun m => m)).
Qed.

Lemma decode_one_time_bad otps e : decode_one_time otps = Err e -> re_status e = 400%N.
Proof.
  revert e. induction otps as [|otp otps IH]; cbn; intros e; [done|].
  destruct (map_err bad _) as [k|e'] eqn:Hk; cbn; [|intros [= <-]; by apply (map_err_bad (fun m => m)) in Hk].
  destruct (decode_one_time otps) as [l|e']; cbn; [done|]. intros [= <-]. by apply IH.
Qed.

Lemma publish_handler body : body_handler (handle_publish body).
Proof.
  apply body_handler_slift; [apply read_json_bad|intros req].
  apply body_handler_slift; [apply (map_err_bad (fun m => m))|intros bytes].
  apply body_handler_slift; [apply map_err_bad|intros b].
  apply body_handler_slift; [apply decode_one_time_bad|intros pool store]. apply so_publish.
Qed.

Lemma send_handler unix body : body_handler (handle_send unix body).
Proof.
  apply body_handler_slift; [apply read_json_bad|intros req].
  apply body_handler_slift; [apply (map_err_bad (fun m => m))|intros recipient].
  apply body_handler_slift; [apply (map_err_bad (fun m => m))|intros message store].
  pose proof (so_enqueue recipient message unix store) as Hop. revert Hop.
  unfold enqueue, enqueue_at. case_decide; cbn; [|done]. intros _. split; [done|]. right. by left.
Qed.

Lemma bundle_handler query store : handled store (handle_bundle query store).
Proof.
  unfold handle_bundle, sbind, slift. destruct (key_param query "identity") as [[id|]|[]].
  - pose proof (so_fetch id store) as Hop. destruct (fetch_bundle id store) as [[b|] store'] eqn:Hf; cbn in Hop.
    + apply handled_json. by right.
    + assert (store' = store) as ->; [|apply handled_text; set_solver].
      unfold fetch_bundle in Hf. destruct (keys (inner store) !! id) as [k|]; [|by injection Hf].
      by destruct (one_time k) as [|[i p] rest].
  - apply handled_text. set_solver.
  - split; [by left|done].
Qed.

Lemma poll_handler unix query store : handled store (handle_poll unix query store).
Proof.
  unfold handle_poll, poll, sbind, slift. destruct (key_param query "recipient") as [[id|]|[]].
  - pose proof (so_poll id unix store) as Hop. destruct (poll_at id unix store) as [ms store']; cbn in Hop.
    apply handled_json. by right.
  - apply handled_text. set_solver.
  - split; [by left|done].
Qed.

Lemma handle_handled unix r store : handled store (handle unix r store).
Proof.
  unfold handle. destruct (match split_once _ _ with Some _ => _ | None => _ end) as [path query].
  repeat case_decide; auto using handled_answered, publish_handler, send_handler, bundle_handler, poll_handler;
    apply handled_text; set_solver.
Qed.

(** C13: a request that fails changes nothing: every request that gets an answer
    gets one of the statuses 200, 400, 404 and 413; if it is not 200 -- an unknown
    path, a body that is not UTF-8, JSON, base64 or a bundle, a missing or
    malformed key, an unknown identity, a message too large -- the store is
    exactly as before; otherwise the request has performed one operation of the
    store or none. (A request that is dropped without an answer, when a response does
    not encode, may have performed one too.) The thread can only panic on a URL that is not ASCII, and even
    then the store is unchanged. *)
Theorem failed_request_changes_nothing unix r store :
  let '(res, store') := handle unix r store in
  (store' = store \/ store_op store store') /\
  (forall resp, res = Ok (Some resp) ->
     rs_status resp ∈ [200; 400; 404; 413]%N /\ (rs_status resp <> 200%N -> store' = store)) /\
  (res = Err Panic -> store' = store /\ ~ ascii_string (rq_url r)).
Proof.
  pose proof (handle_handled unix r store) as [Hop Hres]. destruct (handle unix r store) as [res store'] eqn:Hh.
  cbn [fst snd] in *. split_and!; [done|by intros resp ->|]. intros ->. split; [done|]. intros Hascii.
  revert Hh. unfold handle. set (pq := match split_once _ _ with Some _ => _ | None => _ end).
  assert (ascii_string pq.2) as Hq.
  { subst pq. destruct (split_once _ (rq_url r)) as [[p q]|] eqn:Hs; [|done]. by apply (split_once_ascii _ _ _ _ Hs). }
  destruct pq as [path query]. cbn [snd] in Hq.
  assert (forall m store0, (answered m store0).1 <> Err Panic) as Hans.
  { intros m store0. unfold answered. by destruct (m store0) as [[]]. }
  repeat case_decide; try done.
  - intros Heq. by apply (Hans (handle_publish (rq_body r)) store); rewrite Heq.
  - unfold handle_bundle, sbind, slift. destruct (key_param_total query "identity" Hq) as [[id|] ->]; [|done].
    by destruct (fetch_bundle id store) as [[b|] s'].
  - intros Heq. by apply (Hans (handle_send unix (rq_body r)) store); rewrite Heq.
  - unfold handle_poll, poll, sbind, slift. destruct (key_param_total query "recipient" Hq) as [[id|] ->]; [|done].
    by destruct (poll_at id unix store) as [ms s'].
Qed.

(** ** The request loop *)

Definition serve_turn (sv sv' : Server) : Prop := exists ck r, (serve_step ck r sv).2 = sv'.

Lemma handled_star store r : handled store r -> star store_op store r.2.
Proof. intros [[->|Hop] _]; [apply star_refl|]. eapply star_step; [apply star_refl|exact Hop]. Qed.

Lemma serve_turn_star sv sv' : serve_turn sv sv' -> star store_op (sv_store sv) (sv_store sv').
Proof.
  intros (ck & r & <-). unfold serve_step. destruct (admit_request _ _ _) as [ok limiter].
  destruct ok; cbn [negb]; [|apply star_refl].
  pose proof (handled_star _ _ (handle_handled (ck_unix ck) r (sv_store sv))) as Hstar.
  destruct (handle _ _ _) as [[resp|[]] store]; cbn [fst snd] in *; [|exact Hstar].
  destruct (_ <=? _)%N; cbn [sv_store]; (eapply star_step; [|apply so_maybe_flush]); [|exact Hstar].
  eapply star_step; [exact Hstar|apply so_sweep].
Qed.

(** C14: the front-end is a client of the store: from an empty store kept in memory,
    whatever requests arrive, with whatever clocks, the store behind the loop only
    ever goes through operations of the store, so no mailbox exceeds the limits it
    was made with; and a request over the rate limit is answered with 429 without
    the store, the sweep or the snapshot being touched. *)
Theorem serve_refines_store now now' options l sv :
  star serve_turn (serve_start now now' options (with_limits l)) sv ->
  star store_op (with_limits l) (sv_store sv) /\
  (forall r q, queues (inner (sv_store sv)) !! r = Some q -> mailbox_ok l q) /\
  (forall ck r lim ip, sv_limiter sv = Some lim -> rq_remote r = Some ip ->
     (allow (ck_limiter ck) ip lim).1 = false ->
     serve_step ck r sv = (Ok (Some (mkResponse 429 "rate limited")),
       mkServer (sv_store sv) (Some (allow (ck_limiter ck) ip lim).2) (sv_last_sweep sv))).
Proof.
  intros Hstar.
  assert (star store_op (with_limits l) (sv_store sv)) as Hops.
  { eapply (star_invariant serve_turn (fun sv => star store_op (with_limits l) (sv_store sv)));
      [|exact Hstar|apply star_refl].
    intros a b Ha Hab. eapply star_trans; [exact Ha|by apply serve_turn_star]. }
  assert (store_ok (sv_store sv) /\ limits (sv_store sv) = l) as [Hok Hl].
  { apply (star_invariant store_op (fun s => store_ok s /\ limits s = l)) with (2 := Hops).
    - intros a b [Ha Hla] Hop. destruct (store_op_ok _ _ Hop Ha) as [? ->]. done.
    - split; [|done]. by intros r q. }
  split_and!; [exact Hops|by rewrite <-Hl|].
  intros ck r lim ip Hlim Hip Hno. unfold serve_step, admit_request. rewrite Hlim, Hip.
  destruct (allow _ ip lim) as [ok lim']. cbn in *. by subst ok.
Qed.
End Handlers.

(** ** Concrete libraries: bytes as pairs of letters, and JSON as such a text *)
Module HttpDemo.
Import Demo WireDemo RelayDemo.

Fixpoint letters (l : list u8) : string :=
  match l with
  | [] => EmptyString
  | b :: l => String (ascii_of_N (65 + b / 16)) (String (ascii_of_N (65 + b mod 16)) (letters l))
  end.

Fixpoint unletters (s : string) : option (list u8) :=
  match s with
  | EmptyString => Some []
  | String a (String b s) =>
      match unletters s with
      | Some l => Some (wrap 8 (16 * (N_of_ascii a - 65) + (N_of_ascii b - 65)) :: l)
      | None => None
      end
  | _ => None
  end.

Lemma nibble_ascii n : (n < 16)%N -> N_of_ascii (ascii_of_N (65 + n)) = (65 + n)%N.
Proof. intros Hn. apply N_ascii_embedding. lia. Qed.

Lemma byte_nibbles (b : u8) : (b / 16 < 16 /\ b mod 16 < 16)%N.
Proof.
  pose proof (word_lt b) as Hb. change (2 ^ 8)%N with 256%N in Hb. split; [|by apply N.mod_lt].
  apply N.Div0.div_lt_upper_bound. lia.
Qed.

Lemma unletters_letters l : unletters (letters l) = Some l.
Proof.
  induction l as [|b l IH]; [done|]. cbn [letters unletters]. rewrite IH.
  destruct (byte_nibbles b) as [Hd Hm]. rewrite !nibble_ascii by done. do 2 f_equal. apply word_eq.
  rewrite !(N.add_comm 65), !N.add_sub. rewrite <-N.div_mod by done. by rewrite wrap_wval.
Qed.

Lemma letters_ascii l : ascii_string (letters l).
Proof.
  induction l as [|b l IH]; [done|]. destruct (byte_nibbles b) as [Hd Hm].
  cbn [letters ascii_string]. rewrite !nibble_ascii by done. split_and!; [lia|lia|done].
Qed.

#[export] Instance base64 : Base64 := {
  b64 := letters;
  b64_decode s := ok_or (unletters s) "invalid base64"%string
}.

Lemma string_bytes s : String.string_of_list_ascii (map Words.ascii_of_byte (bytes_of_string s)) = s.
Proof.
  unfold bytes_of_string. rewrite map_map. rewrite <-(String.string_of_list_ascii_of_string s) at 2. f_equal.
  rewrite <-(map_id (String.list_ascii_of_string s)) at 2. apply map_ext. intros c.
  unfold Words.ascii_of_byte, Words.byte_of_ascii. rewrite wval_wrap_small; [apply ascii_N_embedding|].
  apply N_ascii_bounded.
Qed.

#[export] Instance string_codec : Codec string :=
  iso_codec bytes_of_string (fun l => String.string_of_list_ascii (map Words.ascii_of_byte l)) string_bytes.
#[export] Instance one_time_codec : Codec OneTimePrekey :=
  iso_codec (fun o => (otp_id o, otp_public o)) (fun '(a, b) => mkOneTime a b) ltac:(by intros []).
#[export] Instance publish_codec : Codec PublishRequest :=
  iso_codec (fun r => (pr_bundle r, pr_one_time r)) (fun '(a, b) => mkPublish a b) ltac:(by intros []).
#[export] Instance bundle_response_codec : Codec BundleResponse :=
  iso_codec br_bundle mkBundleResponse ltac:(by intros []).
#[export] Instance send_codec : Codec SendRequest :=
  iso_codec (fun r => (sr_recipient r, sr_message r)) (fun '(a, b) => mkSend a b) ltac:(by intros []).
#[export] Instance poll_codec : Codec PollResponse := iso_codec po_messages mkPoll ltac:(by intros []).

#[export] Instance codec_json `{Codec A} : Json A := {
  json_to_string x := Ok (letters (enc x));
  json_value_text x := Ok (letters (enc x));
  json_from_str s :=
    match unletters s with
    | Some l => match dec l with Some (x, _) => Ok x | None => Err "not the type"%string end
    | None => Err "not JSON"%string
    end
}.

Lemma json_letters `{Codec A} (x : A) : json_from_str (letters (enc x)) = Ok x.
Proof. cbn. rewrite unletters_letters, <-(app_nil_r (enc x)). by rewrite dec_enc. Qed.

Definition visitor : IpAddr := V4 (fill_array 4 (wrap 8 9)).
End HttpDemo.
Import Demo WireDemo RelayDemo HttpDemo.

(** Two calls a minute: the third of a minute is refused, the next minute is
    open again. *)
Lemma rate_limiter_exact_witness :
  let calls := [(1000000000, visitor); (2000000000, visitor); (3000000000, visitor); (61000000000, visitor)]%N in
  admit_all calls (limiter_new 0%N (wrap 32 2)) !! 2 = Some false /\
  admit_all calls (limiter_new 0%N (wrap 32 2)) !! 3 = Some true.
Proof.
  set (calls := [(1000000000, visitor); (2000000000, visitor); (3000000000, visitor); (61000000000, visitor)]%N).
  cbv zeta.
  assert (clock_ok 0%N (map fst calls)) as Hclock.
  { split; [by repeat constructor; unfold N.le|]. by repeat constructor. }
  assert (fits32 (length calls)) as Hfits by done.
  pose proof (rate_limiter_exact 0%N (wrap 32 2) calls 2 3000000000%N visitor Hclock Hfits eq_refl) as H2.
  pose proof (rate_limiter_exact 0%N (wrap 32 2) calls 3 61000000000%N visitor Hclock Hfits eq_refl) as H3.
  rewrite H2, H3. split; f_equal; by vm_compute.
Defined.

(** A message sent to a relay that admits one request a minute. *)
Lemma serve_refines_store_witness :
  let sv := serve_start 0%N 0%N (mkOptions (Some (wrap 32 1))) (with_limits small) in
  let send := mkRequest Post "/send" (letters (enc (mkSend (letters (abytes (key 1))) (letters (bytes [1; 2]%N))))) (Some visitor) in
  let ck := mkClocks 0%N (wrap 64 100) 0%N (wrap 64 100) 0%N 0%N (fun _ => None) in
  let sv' := (serve_step ck send sv).2 in
  (forall r q, queues (inner (sv_store sv')) !! r = Some q -> mailbox_ok small q) /\
  (serve_step ck send sv').1 = Ok (Some (mkResponse 429 "rate limited")).
Proof.
  intros sv send ck sv'.
  assert (star serve_turn sv sv') as Hstar.
  { eapply star_step; [apply star_refl|]. exists ck, send. reflexivity. }
  destruct (serve_refines_store 0%N 0%N (mkOptions (Some (wrap 32 1))) small sv' Hstar) as (_ & Hcaps & Hlim).
  split; [exact Hcaps|].
  assert (match sv_limiter sv' with Some lim => (allow 0%N visitor lim).1 | None => true end = false) as Hno
    by (by vm_compute).
  destruct (sv_limiter sv') as [lim|] eqn:Heq; [|done].
  by rewrite (Hlim ck send lim visitor eq_refl eq_refl Hno).
Defined.
