(* ===== verification/RelayMain.v ===== *)
(** * The relay program (relay/src/main.rs)

    The command line, and what [main] does with it up to the request loop of
    [RelayServer]. What is printed is not modelled. Arithmetic is that of the
    release build, where an overflow wraps around. *)
From S2P Require Import Prelude Words Primitives Wire PqKem Identity RelayStore Url RelayServer.
From Stdlib Require Import Ascii.

Local Open Scope string_scope.

(** ** Numbers: [str::parse] at an unsigned type of [w] bits *)

Definition digit_value (c : ascii) : option N :=
  let n := N_of_ascii c in if ((48 <=? n) && (n <=? 57))%N then Some (n - 48)%N else None.

Fixpoint digits_value (acc : N) (s : string) : option N :=
  match s with
  | EmptyString => Some acc
  | String c s => match digit_value c with Some d => digits_value (acc * 10 + d)%N s | None => None end
  end.

Definition parse_uint (w : N) (s : string) : option (word w) :=
  let digits := match s with String "+" s => s | _ => s end in
  match digits with
  | EmptyString => None
  | _ => match digits_value 0 digits with
         | Some n => if (n <? 2 ^ w)%N then Some (wrap w n) else None
         | None => None
         end
  end.

(** ** The arguments *)

Record Config : Set := mkConfig {
  cf_addr : string;
  cf_state_path : option string;
  cf_limits : StoreLimits;
  cf_rate_limit : u32
}.

Definition config_default : Config := mkConfig "0.0.0.0:8080" None StoreLimits_default (wrap 32 240).

Definition set_ttl (days : u64) (l : StoreLimits) : StoreLimits :=
  {| mail_ttl_secs := wrap 64 (wval days * 24 * 60 * 60);
     max_message_bytes := max_message_bytes l;
     max_mailbox_messages := max_mailbox_messages l;
     max_mailbox_bytes := max_mailbox_bytes l |}.

(** Reading the arguments ends in a configuration, in the usage text or with an
    exit code. *)
Inductive Parsed : Set := Run (c : Config) | Help | Exit (code : Z).

Definition expect_value (value : option string) : string + Z :=
  match value with Some v => inl v | None => inr 2%Z end.
Definition parse_value (w : N) (value : option string) : word w + Z :=
  match expect_value value with
  | inl v => match parse_uint w v with Some n => inl n | None => inr 2%Z end
  | inr code => inr code
  end.

(** The arguments after the one [args.next()] takes. *)
Definition after (args : list string) : list string := match args with [] => args | _ :: l => l end.

Fixpoint parse_args (args : list string) (c : Config) : Parsed :=
  match args with
  | [] => Run c
  | arg :: args =>
      if String.eqb arg "--state" then
        match expect_value (head args) with
        | inl p => parse_args (after args) (mkConfig (cf_addr c) (Some p) (cf_limits c) (cf_rate_limit c))
        | inr code => Exit code
        end
      else if String.eqb arg "--ttl-days" then
        match parse_value 64 (head args) with
        | inl days => parse_args (after args)
            (mkConfig (cf_addr c) (cf_state_path c) (set_ttl days (cf_limits c)) (cf_rate_limit c))
        | inr code => Exit code
        end
      else if String.eqb arg "--rate-limit" then
        match parse_value 32 (head args) with
        | inl n => parse_args (after args) (mkConfig (cf_addr c) (cf_state_path c) (cf_limits c) n)
        | inr code => Exit code
        end
      else if String.eqb arg "--help" || String.eqb arg "-h" then Help
      else if String.prefix "--" arg then Exit 2
      else parse_args args (mkConfig arg (cf_state_path c) (cf_limits c) (cf_rate_limit c))
  end.

(** ** [main]

    [open path] is the state file as [RelayStore::open] finds it; [bound] says
    whether the address could be bound. What runs then is the request loop. *)
Inductive Outcome := Returned | Exited (code : Z) | Serving (addr : string) (s : Server).

Section Main.
Context `{!Bincode Snapshot} (path_of : string -> Path).

Definition serve_with (bound : string -> bool) (now now' : Instant) (store : RelayStore) (addr : string)
    (options : ServeOptions) : option Server :=
  if bound addr then Some (serve_start now now' options store) else None.

Definition serve (bound : string -> bool) (now now' : Instant) (store : RelayStore) (addr : string) : option Server :=
  serve_with bound now now' store addr ServeOptions_default.

Definition run_config (c : Config) (disk : Disk) (bound : string -> bool) (now now' now'' : Instant) : Outcome :=
  let store :=
    match cf_state_path c with
    | Some path => match store_open disk now (path_of path) (cf_limits c) with
                   | Ok store => Some store
                   | Err _ => None
                   end
    | None => Some (with_limits (cf_limits c))
    end in
  match store with
  | None => Exited 1
  | Some store =>
      let options := mkOptions (if (0 <? wval (cf_rate_limit c))%N then Some (cf_rate_limit c) else None) in
      match serve_with bound now' now'' store (cf_addr c) options with
      | Some s => Serving (cf_addr c) s
      | None => Exited 1
      end
  end.

Definition main (args : list string) (disk : Disk) (bound : string -> bool) (now now' now'' : Instant) : Outcome :=
  match parse_args args config_default with
  | Exit code => Exited code
  | Help => Returned
  | Run c => run_config c disk bound now now' now''
  end.
End Main.

(** ** What the command line means *)
Local Open Scope list_scope.

(** A setting, as it is written. *)
Inductive setting : Set :=
| SetState (path : string)
| SetTtl (text : string) (days : u64)
| SetRate (text : string) (n : u32)
| SetAddr (addr : string).

Definition written (x : setting) : list string :=
  match x with
  | SetState p => ["--state"; p]
  | SetTtl text _ => ["--ttl-days"; text]
  | SetRate text _ => ["--rate-limit"; text]
  | SetAddr a => [a]
  end.

Definition well_written (x : setting) : Prop :=
  match x with
  | SetState _ => True
  | SetTtl text days => parse_uint 64 text = Some days
  | SetRate text n => parse_uint 32 text = Some n
  | SetAddr a => String.prefix "--" a = false /\ a <> "-h"
  end.

Definition apply_setting (c : Config) (x : setting) : Config :=
  match x with
  | SetState p => mkConfig (cf_addr c) (Some p) (cf_limits c) (cf_rate_limit c)
  | SetTtl _ days => mkConfig (cf_addr c) (cf_state_path c) (set_ttl days (cf_limits c)) (cf_rate_limit c)
  | SetRate _ n => mkConfig (cf_addr c) (cf_state_path c) (cf_limits c) n
  | SetAddr a => mkConfig a (cf_state_path c) (cf_limits c) (cf_rate_limit c)
  end.

Definition states (x : setting) : option string := match x with SetState p => Some p | _ => None end.
Definition ttls (x : setting) : option u64 := match x with SetTtl _ d => Some d | _ => None end.
Definition rates (x : setting) : option u32 := match x with SetRate _ n => Some n | _ => None end.
Definition addrs (x : setting) : option string := match x with SetAddr a => Some a | _ => None end.

Lemma parse_written x rest c :
  well_written x -> parse_args (written x ++ rest) c = parse_args rest (apply_setting c x).
Proof.
  destruct x as [p|text d|text n|a]; cbn [well_written written app]; intros Hx.
  - done.
  - cbn. unfold parse_value. cbn. by rewrite Hx.
  - cbn. unfold parse_value. cbn. by rewrite Hx.
  - destruct Hx as [Hp Hh]. cbn [parse_args].
    assert (forall s, String.prefix "--" s = true -> String.eqb a s = false) as Hne.
    { intros s Hs. apply String.eqb_neq. intros ->. by rewrite Hp in Hs. }
    rewrite !Hne by reflexivity. rewrite (proj2 (String.eqb_neq a "-h") Hh), Hp. done.
Qed.

Lemma parse_all_written xs rest c :
  Forall well_written xs ->
  parse_args (concat (map written xs) ++ rest) c = parse_args rest (foldl apply_setting c xs).
Proof.
  intros Hxs. revert c. induction Hxs as [|x xs Hx _ IH]; intros c; [done|].
  cbn [map concat foldl]. by rewrite <-app_assoc, parse_written, IH.
Qed.

Lemma parsed_run args c c' :
  parse_args args c = Run c' ->
  exists xs, Forall well_written xs /\ args = concat (map written xs) /\ c' = foldl apply_setting c xs.
Proof.
  remember (length args) as n eqn:Hn. revert args c Hn.
  induction (lt_wf n) as [n _ IH]. intros args c -> Hrun.
  assert (forall x rest, well_written x -> args = written x ++ rest ->
    exists xs, Forall well_written xs /\ args = concat (map written xs) /\ c' = foldl apply_setting c xs) as Hstep.
  { intros x rest Hx ->. rewrite parse_written in Hrun by done.
    destruct (IH (length rest)) with (args := rest) (c := apply_setting c x) as (xs & Hxs & -> & ->); [|done|done|].
    - rewrite length_app. destruct x; cbn; lia.
    - exists (x :: xs). by split_and!; [constructor|..]. }
  destruct args as [|arg args]; [injection Hrun as <-; by exists []|].
  cbn [parse_args] in Hrun.
  destruct (String.eqb_spec arg "--state") as [->|H1]; [destruct args as [|p args]; [done|by apply (Hstep (SetState p) args)]|].
  destruct (String.eqb_spec arg "--ttl-days") as [->|H2].
  { destruct args as [|p args]; [done|]. unfold parse_value in Hrun. cbn [head expect_value] in Hrun.
    destruct (parse_uint 64 p) as [d|] eqn:Hp; [|done]. by apply (Hstep (SetTtl p d) args). }
  destruct (String.eqb_spec arg "--rate-limit") as [->|H3].
  { destruct args as [|p args]; [done|]. unfold parse_value in Hrun. cbn [head expect_value] in Hrun.
    destruct (parse_uint 32 p) as [d|] eqn:Hp; [|done]. by apply (Hstep (SetRate p d) args). }
  destruct (String.eqb_spec arg "--help") as [->|H4]; [done|].
  destruct (String.eqb_spec arg "-h") as [->|H5]; [done|]. cbn [orb] in Hrun.
  destruct (String.prefix "--" arg) eqn:Hp; [done|]. by apply (Hstep (SetAddr arg) args).
Qed.

Definition last_or {A} (xs : list setting) (f : setting -> option A) (d : A) : A := default d (last (omap f xs)).

(** The configuration that settings mean: of each kind, the last one. *)
Definition meaning (xs : list setting) : Config :=
  mkConfig (last_or xs addrs (cf_addr config_default)) (last (omap states xs))
    (match last (omap ttls xs) with Some d => set_ttl d StoreLimits_default | None => StoreLimits_default end)
    (last_or xs rates (cf_rate_limit config_default)).

Lemma omap_snoc {A B} (f : A -> option B) xs x : omap f (xs ++ [x]) = omap f xs ++ match f x with Some y => [y] | None => [] end.
Proof. rewrite omap_app. cbn. by destruct (f x). Qed.

Lemma set_ttl_ttl d d' l : set_ttl d (set_ttl d' l) = set_ttl d l.
Proof. reflexivity. Qed.

Lemma apply_settings xs : foldl apply_setting config_default xs = meaning xs.
Proof.
  induction xs as [|x xs IH] using rev_ind; [done|]. rewrite foldl_snoc, IH.
  unfold meaning, last_or. destruct x; rewrite !omap_snoc; cbn [states ttls rates addrs];
    rewrite ?app_nil_r, ?last_snoc; cbn [apply_setting cf_addr cf_state_path cf_limits cf_rate_limit];
    try reflexivity. destruct (last (omap ttls xs)); [by rewrite set_ttl_ttl|reflexivity].
Qed.

Section Meaning.
Context `{!Bincode Snapshot} (path_of : string -> Path).

Lemma store_open_limits disk now p l s : store_open disk now p l = Ok s -> limits s = l.
Proof.
  unfold store_open. destruct (read_file _ _) as [b|[]]; [|by intros [= <-]|done|done].
  rewrite rbind_Ok. intros (sn & _ & Hs). case_decide; [done|]. by injection Hs as <-.
Qed.

Lemma served_config disk bound now now' now'' addr s c :
  run_config path_of c disk bound now now' now'' = Serving addr s ->
  addr = cf_addr c /\ bound addr = true /\
  match cf_state_path c with
  | Some p => store_open disk now (path_of p) (limits (sv_store s)) = Ok (sv_store s)
  | None => sv_store s = with_limits (limits (sv_store s))
  end /\
  limits (sv_store s) = cf_limits c /\
  sv_limiter s = (if decide (wval (cf_rate_limit c) = 0%N) then None else Some (limiter_new now' (cf_rate_limit c))).
Proof.
  unfold run_config, serve_with, serve_start. destruct (match cf_state_path c with Some _ => _ | None => _ end)
    as [store|] eqn:Hst; [|done]. destruct (bound (cf_addr c)) eqn:Hb; [|done]. intros [= <- <-].
  cbn [sv_store sv_limiter rate_limit_per_min]. split; [done|]. split; [done|].
  assert (limits store = cf_limits c) as Hlim.
  { destruct (cf_state_path c) as [p|]; [|by injection Hst as <-].
    destruct (store_open _ _ _ _) as [s'|e] eqn:Ho; [|done]. injection Hst as <-. by eapply store_open_limits. }
  rewrite Hlim. split_and!; [|done|].
  - destruct (cf_state_path c) as [p|]; [|by injection Hst as <-].
    destruct (store_open _ _ _ _) as [s'|e] eqn:Ho; [by injection Hst as <-|done].
  - case_decide as H0.
    + by rewrite H0.
    + rewrite (proj2 (N.ltb_lt _ _)) by lia. done.
Qed.

(** C20: a command line is accepted exactly when it is a sequence of settings,
    each with its value and numbers that fit; whatever their order, of each kind
    the last one counts. The program serves only then, on the address given and if
    it can be bound, from the state file as it opens -- or from an empty store when
    none is named --, under the time to live given, exactly unless its seconds
    overflow, the other limits being the default ones; and requests are limited
    exactly when the rate is not 0. *)
Theorem command_line_means args :
  (forall c, parse_args args config_default = Run c <->
     exists xs, Forall well_written xs /\ args = concat (map written xs) /\ c = meaning xs) /\
  (forall disk bound now now' now'' addr s,
     main path_of args disk bound now now' now'' = Serving addr s ->
     exists xs, Forall well_written xs /\ args = concat (map written xs) /\
       addr = cf_addr (meaning xs) /\ bound addr = true /\
       match last (omap states xs) with
       | Some p => store_open disk now (path_of p) (limits (sv_store s)) = Ok (sv_store s)
       | None => sv_store s = with_limits (limits (sv_store s))
       end /\
       limits (sv_store s) = cf_limits (meaning xs) /\
       (forall d, last (omap ttls xs) = Some d -> (wval d * 86400 < 2 ^ 64)%N ->
          wval (mail_ttl_secs (limits (sv_store s))) = (wval d * 86400)%N) /\
       sv_limiter s = (if decide (wval (last_or xs rates (wrap 32 240)) = 0%N) then None
                       else Some (limiter_new now' (last_or xs rates (wrap 32 240))))).
Proof.
  assert (forall c, parse_args args config_default = Run c <->
     exists xs, Forall well_written xs /\ args = concat (map written xs) /\ c = meaning xs) as Hparse.
  { intros c. split.
    - intros (xs & Hxs & Hargs & ->)%parsed_run. exists xs. by rewrite apply_settings.
    - intros (xs & Hxs & -> & ->). rewrite <-(app_nil_r (concat _)), parse_all_written by done.
      cbn [parse_args]. by rewrite apply_settings. }
  split; [exact Hparse|]. intros disk bound now now' now'' addr s. unfold main.
  destruct (parse_args args config_default) as [c| |] eqn:Hc; [|done|done].
  destruct (proj1 (Hparse c) eq_refl) as (xs & Hxs & Hargs & ->). intros Hmain. exists xs.
  destruct (served_config disk bound now now' now'' addr s (meaning xs) Hmain)
    as (Haddr & Hb & Hst & Hlim & Hrate).
  split_and!; [done|done|done|done|exact Hst|done| |exact Hrate].
  intros d Hd Hsmall. rewrite Hlim. cbn [meaning cf_limits]. rewrite Hd. cbn [set_ttl mail_ttl_secs].
  rewrite wval_wrap_small by lia. lia.
Qed.
End Meaning.

(** A time to live in days is kept as its seconds modulo 2^64: exact below
    213503982334602 days, which is taken for 17 hours. *)
Theorem ttl_days_wraps :
  (forall text days, parse_uint 64 text = Some days ->
     exists c, parse_args ["--ttl-days"; text] config_default = Run c /\
       wval (mail_ttl_secs (cf_limits c)) = ((wval days * 86400) mod 2 ^ 64)%N) /\
  exists c, parse_args ["--ttl-days"; "213503982334602"] config_default = Run c /\
    wval (mail_ttl_secs (cf_limits c)) = 61184%N.
Proof.
  assert (forall text days, parse_uint 64 text = Some days ->
     exists c, parse_args ["--ttl-days"; text] config_default = Run c /\
       wval (mail_ttl_secs (cf_limits c)) = ((wval days * 86400) mod 2 ^ 64)%N) as Hall.
  { intros text days Hd. pose proof (parse_written (SetTtl text days) [] config_default Hd) as Hp.
    cbn [written app] in Hp. eexists. split; [exact Hp|]. cbn [apply_setting cf_limits set_ttl mail_ttl_secs].
    rewrite wval_wrap. f_equal. lia. }
  split; [exact Hall|].
  destruct (Hall "213503982334602" (wrap 64 213503982334602) ltac:(vm_compute; reflexivity)) as (c & Hc & Hv).
  exists c. split; [exact Hc|]. rewrite Hv. vm_compute. reflexivity.
Qed.
