(* ===== verification/Net.v ===== *)
(** * The relay transport (net/src/lib.rs)

    The client side of the relay's API. The HTTP agent is a library: an operation
    from calls to responses on whatever state is behind it. [served] puts the
    relay's own request handler behind it, so that the two halves of the protocol
    meet. *)
From S2P Require Import Prelude Words Primitives Wire PqKem Identity RelayStore Url RelayServer Mesh.
From Stdlib Require Import Ascii.

Local Open Scope string_scope.

Inductive NetError : Set :=
| Config (message : string)
| Http (message : string)
| Decode (message : string)
| JsonError (message : string)
| Io (message : string).

(** [e.to_string()] *)
Definition display_net_error (e : NetError) : string :=
  match e with
  | Config m => "transport config error: " +:+ m
  | Http m => "relay request failed: " +:+ m
  | Decode m => "response decode error: " +:+ m
  | JsonError m => "json error: " +:+ m
  | Io m => "io error: " +:+ m
  end.

(** [From<serde_json::Error>] and [From<io::Error>], on the text of the error. *)
Definition net_from_json (e : string) : NetError := JsonError e.
Definition net_from_io (e : string) : NetError := Io e.

(** ** The HTTP agent *)

Record HttpCall : Set := mkCall {
  hc_method : Method;
  hc_url : string;
  hc_query : list (string * string);
  hc_body : string
}.

(** [ureq::Error]: a status of 400 and above, or a failure to talk at all. *)
Inductive UreqError : Set :=
| Status (code : N) (response : Response)
| Transport (message : string).

Class HttpAgent (St : Type) := {
  http_call : HttpCall -> mut St UreqError Response;
  ureq_display : UreqError -> string
}.

(** [ureq::Proxy::new] *)
Class ProxyParser := { proxy_new : string -> result string unit }.

Section Client.
Context {St : Type} `{!HttpAgent St, !Base64, !Bincode PreKeyBundle}.
Context `{!Json PublishRequest, !Json BundleResponse, !Json SendRequest, !Json PollResponse}.

Record RelayTransport : Set := mkTransport { base_url : string }.

(** The proxy, if any, is part of the agent: [over_tor] only differs in failing
    if the library refuses the proxy address. *)
Definition direct (base : string) : RelayTransport := mkTransport base.
Definition over_tor `{!ProxyParser} (base socks_addr : string) : result NetError RelayTransport :=
  match proxy_new ("socks5://" +:+ socks_addr) with
  | Ok _ => Ok (mkTransport base)
  | Err e => Err (Config e)
  end.

(** [trim_end_matches('/')] *)
Fixpoint trim_slashes (s : string) : string :=
  match s with
  | EmptyString => EmptyString
  | String c s =>
      match trim_slashes s with
      | EmptyString => if Ascii.eqb c "/" then EmptyString else String c EmptyString
      | t => String c t
      end
  end.

Definition url (t : RelayTransport) (path : string) : string := trim_slashes (base_url t) +:+ path.

Definition boxed (e : UreqError) : NetError := Http (ureq_display e).
Definition net_unb64 (s : string) : result NetError (list u8) := map_err Decode (b64_decode s).

Definition call_boxed (c : HttpCall) : mut St NetError Response := fun s =>
  let '(res, s) := http_call c s in (map_err boxed res, s).

Definition net_publish (t : RelayTransport) (base_bundle : PreKeyBundle) (one_time : list (u32 * key32))
  : mut St NetError unit :=
  let req := mkPublish (b64 (bundle_encode base_bundle))
               (map (fun '(id, public) => mkOneTime id (b64 (abytes public))) one_time) in
  let! body := slift (map_err net_from_json (json_value_text req)) in
  let! _ := call_boxed (mkCall Post (url t "/publish") [] body) in
  sret tt.

Definition net_fetch_bundle (t : RelayTransport) (identity : key32) : mut St NetError (option PreKeyBundle) := fun s =>
  let '(res, s) := http_call (mkCall Get (url t "/bundle") [("identity", b64 (abytes identity))] "") s in
  match res with
  | Ok resp =>
      (body <-? map_err net_from_io (json_from_str (A := BundleResponse) (rs_text resp));
       bytes <-? net_unb64 (br_bundle body);
       b <-? map_err (fun e => Decode (display_error e)) (bundle_decode bytes);
       Ok (Some b), s)
  | Err (Status code r) => if decide (code = 404%N) then (Ok None, s) else (Err (boxed (Status code r)), s)
  | Err e => (Err (boxed e), s)
  end.

Definition net_send (t : RelayTransport) (recipient : key32) (message : list u8) : mut St NetError unit :=
  let req := mkSend (b64 (abytes recipient)) (b64 message) in
  let! body := slift (map_err net_from_json (json_value_text req)) in
  let! _ := call_boxed (mkCall Post (url t "/send") [] body) in
  sret tt.

(** [iter().map(unb64).collect()] into a [Result]. *)
Fixpoint collect_unb64 (ms : list string) : result NetError (list (list u8)) :=
  match ms with
  | [] => Ok []
  | m :: ms => b <-? net_unb64 m; bs <-? collect_unb64 ms; Ok (b :: bs)
  end.

Definition net_poll (t : RelayTransport) (recipient : key32) : mut St NetError (list (list u8)) :=
  let! resp := call_boxed (mkCall Get (url t "/poll") [("recipient", b64 (abytes recipient))] "") in
  slift (body <-? map_err net_from_io (json_from_str (A := PollResponse) (rs_text resp));
         collect_unb64 (po_messages body)).

(** [map_err(|e| TransportError(e.to_string()))] *)
Definition as_transport {A} (m : mut St NetError A) : mut St TransportError A := fun s =>
  let '(res, s) := m s in (map_err display_net_error res, s).

Definition relay_transport (t : RelayTransport) : MessageTransport St unit := {|
  send _ recipient payload := as_transport (net_send t recipient payload);
  receive me := as_transport (net_poll t me)
|}.
End Client.

(** ** The relay behind the agent *)

(** What the documentation of the libraries promises: base64 is ASCII and
    decodes back; JSON text is UTF-8 and parses back, whichever way it was
    written; a query is encoded as the URL standard says. *)
Class Base64Laws `{Base64} : Prop := {
  b64_roundtrip l : b64_decode (b64 l) = Ok l;
  b64_ascii l : ascii_string (b64 l)
}.

Class JsonLaws (A : Type) `{Json A} : Prop := {
  json_roundtrip x : exists s, json_to_string x = Ok s /\ json_from_str s = Ok x;
  json_value_roundtrip x : exists s, json_value_text x = Ok s /\ json_from_str s = Ok x /\ utf8_valid s = true
}.

Class QueryEncoder := { encode_query : list (string * string) -> string }.
Class QueryEncoderLaws `{QueryEncoder} : Prop := { encode_query_spec kvs : encode_query kvs = query_text kvs }.

Fixpoint strip_origin (origin url : string) : option string :=
  match origin, url with
  | EmptyString, _ => Some url
  | String c o, String d u => if Ascii.eqb c d then strip_origin o u else None
  | String _ _, EmptyString => None
  end.

Section Served.
Context `{!Base64, !Bincode PreKeyBundle, !Bincode Snapshot, !QueryEncoder}.
Context `{!Json PublishRequest, !Json BundleResponse, !Json SendRequest, !Json PollResponse}.
Variables (origin : string) (unix : u64) (display : UreqError -> string).

(** The relay at [origin] at the time [unix]: the target of a request is its
    URL without the origin, with the query; a request dropped without an answer, in
    a panic too, is answered with 500 by the HTTP library. *)
Definition served_call (c : HttpCall) : mut RelayStore UreqError Response := fun store =>
  match strip_origin origin (hc_url c) with
  | None => (Err (Transport "unknown host"), store)
  | Some path =>
      let target := match hc_query c with [] => path | kvs => path +:+ String "?" (encode_query kvs) end in
      match handle unix (mkRequest (hc_method c) target (hc_body c) None) store with
      | (Ok (Some resp), store) =>
          (if (rs_status resp <? 400)%N then Ok resp else Err (Status (rs_status resp) resp), store)
      | (Ok None, store) => (Err (Status 500 (mkResponse 500 "")), store)
      | (Err Panic, store) => (Err (Status 500 (mkResponse 500 "")), store)
      end
  end.

Definition served : HttpAgent RelayStore := {| http_call := served_call; ureq_display := display |}.
End Served.
