(* ===== verification/NetProps.v ===== *)
(** * The two halves of the relay protocol together (net/src/lib.rs, relay/src/server.rs)

    The client's calls, sent through HTTP to the relay's own handler, are the
    operations of the relay's store. *)
From S2P Require Import Prelude Words Primitives Wire PqKem Identity RelayStore Url RelayServer Mesh Net.
From Stdlib Require Import Ascii.

Local Open Scope string_scope.

Lemma strip_origin_app o p : strip_origin o (o +:+ p) = Some p.
Proof.
  induction o as [|c o IH]; [by rewrite append_nil|]. rewrite append_cons. cbn [strip_origin].
  by rewrite Ascii.eqb_refl.
Qed.

Lemma take_bytes_all n s : (N.of_nat (String.length s) <= n)%N -> take_bytes n s = s.
Proof.
  revert n. induction s as [|c s IH]; intros n Hn; [done|]. cbn [take_bytes String.length] in *.
  destruct (n =? 0)%N eqn:Hz; [apply N.eqb_eq in Hz; lia|]. f_equal. apply IH. lia.
Qed.

Section Transparent.
Context `{!Base64, !Base64Laws, !QueryEncoder, !QueryEncoderLaws, !Bincode PreKeyBundle, !BincodeLaws PreKeyBundle}.
Context `{!Bincode Snapshot}.
Context `{!Json PublishRequest, !Json BundleResponse, !Json SendRequest, !Json PollResponse}.
Context `{!JsonLaws PublishRequest, !JsonLaws BundleResponse, !JsonLaws SendRequest, !JsonLaws PollResponse}.
Variables (origin : string) (unix : u64) (display : UreqError -> string).
Variable t : RelayTransport.
Hypothesis at_origin : trim_slashes (base_url t) = origin.

#[local] Instance relay_agent : HttpAgent RelayStore := served origin unix display.

Lemma unb64_b64 l : unb64 (b64 l) = Ok l.
Proof. apply b64_roundtrip. Qed.

Lemma unb64_key_b64 (k : key32) : unb64_key (b64 (abytes k)) = Ok k.
Proof. unfold unb64_key. rewrite unb64_b64. cbn [rbind]. by rewrite array_of_abytes. Qed.

Lemma net_unb64_b64 l : net_unb64 (b64 l) = Ok l.
Proof. unfold net_unb64. by rewrite b64_roundtrip. Qed.

Lemma collect_unb64_b64 ms : collect_unb64 (map b64 ms) = Ok ms.
Proof.
  induction ms as [|m ms IH]; [done|]. cbn [map collect_unb64]. rewrite net_unb64_b64. cbn [rbind]. by rewrite IH.
Qed.

(** A request body the server reads whole. *)
Definition sendable `{!Json A} (x : A) : Prop :=
  forall text, json_value_text x = Ok text -> (N.of_nat (String.length text) <= MAX_BODY_BYTES)%N.

Lemma read_json_sent `{!Json A, !JsonLaws A} (x : A) :
  sendable x -> exists text, json_value_text x = Ok text /\ read_json text = Ok x.
Proof.
  intros Hs. destruct (json_value_roundtrip x) as (text & Htext & Hparse & Hutf). exists text. split; [done|].
  unfold read_json. rewrite take_bytes_all by (by apply Hs). by rewrite Hutf, Hparse.
Qed.

(** The response to a call, for each of the paths. *)
Lemma served_path store c path :
  hc_url c = url t path -> hc_query c = [] ->
  served_call origin unix c store
  = match handle unix (mkRequest (hc_method c) path (hc_body c) None) store with
    | (Ok (Some resp), store) =>
        (if (rs_status resp <? 400)%N then Ok resp else Err (Status (rs_status resp) resp), store)
    | (Ok None, store) => (Err (Status 500 (mkResponse 500 "")), store)
    | (Err Panic, store) => (Err (Status 500 (mkResponse 500 "")), store)
    end.
Proof. intros Hurl Hq. unfold served_call. rewrite Hurl, Hq. unfold url. by rewrite at_origin, strip_origin_app. Qed.

Lemma served_query store c path name (k : key32) :
  hc_url c = url t path -> hc_query c = [(name, b64 (abytes k))] ->
  served_call origin unix c store
  = match handle unix (mkRequest (hc_method c) (path +:+ String "?" (query_text [(name, b64 (abytes k))])) (hc_body c) None) store with
    | (Ok (Some resp), store) =>
        (if (rs_status resp <? 400)%N then Ok resp else Err (Status (rs_status resp) resp), store)
    | (Ok None, store) => (Err (Status 500 (mkResponse 500 "")), store)
    | (Err Panic, store) => (Err (Status 500 (mkResponse 500 "")), store)
    end.
Proof.
  intros Hurl Hq. unfold served_call. rewrite Hurl, Hq, encode_query_spec. unfold url.
  by rewrite at_origin, strip_origin_app.
Qed.

Lemma key_param_sent name (k : key32) :
  plain name -> name <> "" -> key_param (query_text [(name, b64 (abytes k))]) name = Ok (Some k).
Proof.
  intros Hname Hne. unfold key_param. rewrite query_param_one by (done || apply b64_ascii).
  cbn [rbind]. by rewrite unb64_key_b64.
Qed.

Lemma decode_one_time_sent pool :
  decode_one_time (map (fun '(id, public) => mkOneTime id (b64 (abytes public))) pool) = Ok pool.
Proof.
  induction pool as [|[id k] pool IH]; [done|]. cbn [map decode_one_time otp_public otp_id].
  rewrite unb64_key_b64. cbn [map_err rbind]. by rewrite IH.
Qed.

(** The four routes. *)
Lemma handle_at_publish body store :
  handle unix (mkRequest Post "/publish" body None) store = answered (handle_publish body) store.
Proof. reflexivity. Qed.
Lemma handle_at_send body store :
  handle unix (mkRequest Post "/send" body None) store = answered (handle_send unix body) store.
Proof. reflexivity. Qed.
Lemma handle_at_bundle q body store :
  handle unix (mkRequest Get ("/bundle" +:+ String "?" q) body None) store = handle_bundle q store.
Proof. reflexivity. Qed.
Lemma handle_at_poll q body store :
  handle unix (mkRequest Get ("/poll" +:+ String "?" q) body None) store = handle_poll unix q store.
Proof. reflexivity. Qed.

Definition publish_request (b : PreKeyBundle) (pool : list (u32 * key32)) : PublishRequest :=
  mkPublish (b64 (bundle_encode b)) (map (fun '(id, public) => mkOneTime id (b64 (abytes public))) pool).
Definition send_request (r : key32) (m : list u8) : SendRequest := mkSend (b64 (abytes r)) (b64 m).

Lemma net_publish_served b pool store :
  sendable (publish_request b pool) -> net_publish t b pool store = (Ok tt, publish b pool store).
Proof.
  intros Hs. destruct (read_json_sent _ Hs) as (text & Htext & Hread).
  unfold net_publish. fold (publish_request b pool). rewrite Htext. unfold sbind, slift, call_boxed. cbn [map_err].
  cbn [http_call relay_agent served]. rewrite (served_path _ _ "/publish") by done. cbn [hc_method hc_body].
  rewrite handle_at_publish. unfold answered, handle_publish, sbind, slift. rewrite Hread.
  cbn [publish_request pr_bundle pr_one_time]. rewrite unb64_b64. cbn [map_err].
  rewrite bundle_decode_encode. cbn [map_err]. by rewrite decode_one_time_sent.
Qed.

Lemma net_fetch_served id store :
  net_fetch_bundle t id store = (Ok (fetch_bundle id store).1, (fetch_bundle id store).2).
Proof.
  unfold net_fetch_bundle. cbn [http_call relay_agent served].
  rewrite (served_query _ _ "/bundle" "identity" id) by done. cbn [hc_method hc_body].
  rewrite handle_at_bundle. unfold handle_bundle, sbind, slift. rewrite key_param_sent by (by vm_compute || done).
  destruct (fetch_bundle id store) as [[b|] store']; [|done].
  unfold respond_json. destruct (json_roundtrip (mkBundleResponse (b64 (bundle_encode b)))) as (text & -> & Hparse).
  cbn [rs_status]. change (200 <? 400)%N with true. cbn [rs_text].
  rewrite Hparse. cbn [map_err rbind br_bundle]. rewrite net_unb64_b64. cbn [rbind].
  by rewrite bundle_decode_encode.
Qed.

Lemma net_send_served r m store :
  sendable (send_request r m) ->
  net_send t r m store
  = (map_err (fun _ => Http (display (Status 413 (mkResponse 413 "message too large")))) (enqueue_at r m unix store).1,
     (enqueue_at r m unix store).2).
Proof.
  intros Hs. destruct (read_json_sent _ Hs) as (text & Htext & Hread).
  unfold net_send. fold (send_request r m). rewrite Htext. unfold sbind, slift, call_boxed. cbn [map_err].
  cbn [http_call relay_agent served]. rewrite (served_path _ _ "/send") by done. cbn [hc_method hc_body].
  rewrite handle_at_send. unfold answered, handle_send, enqueue, sbind, slift. rewrite Hread.
  cbn [send_request sr_recipient sr_message]. rewrite unb64_key_b64, unb64_b64. cbn [map_err].
  by destruct (enqueue_at r m unix store) as [[[]|[]] store'].
Qed.

Lemma net_poll_served r store :
  net_poll t r store = (Ok (poll_at r unix store).1, (poll_at r unix store).2).
Proof.
  unfold net_poll, sbind, slift, call_boxed. cbn [http_call relay_agent served].
  rewrite (served_query _ _ "/poll" "recipient" r) by done. cbn [hc_method hc_body].
  rewrite handle_at_poll. unfold handle_poll, poll, sbind, slift. rewrite key_param_sent by (by vm_compute || done).
  destruct (poll_at r unix store) as [ms store']. unfold respond_json.
  destruct (json_roundtrip (mkPoll (map b64 ms))) as (text & -> & Hparse).
  cbn [rs_status]. change (200 <? 400)%N with true. cbn [map_err rs_text]. rewrite Hparse.
  cbn [map_err rbind po_messages fst snd]. by rewrite collect_unb64_b64.
Qed.

(** C9: the HTTP layer is transparent: each call of the client whose body is within
    the 4 MiB the relay reads, through its
    encoding, the relay's routing, decoding and response, is the operation of the
    relay's store, with its result and its effect, and nothing else: the bundle
    fetched is the bundle dispensed, an unknown identity is [None], the messages
    polled are the mailbox, and the only failure is the relay's refusal of an
    oversized message. *)
Theorem relay_transparent b pool id r m store :
  sendable (publish_request b pool) -> sendable (send_request r m) ->
  net_publish t b pool store = (Ok tt, publish b pool store) /\
  net_fetch_bundle t id store = (Ok (fetch_bundle id store).1, (fetch_bundle id store).2) /\
  net_send t r m store
    = (map_err (fun _ => Http (display (Status 413 (mkResponse 413 "message too large")))) (enqueue_at r m unix store).1,
       (enqueue_at r m unix store).2) /\
  net_poll t r store = (Ok (poll_at r unix store).1, (poll_at r unix store).2) /\
  (@receive _ _ (relay_transport t) r store).1 = Ok (poll_at r unix store).1.
Proof.
  intros Hpub Hsend. split_and!; [by apply net_publish_served|apply net_fetch_served|by apply net_send_served|
    apply net_poll_served|].
  cbn [receive relay_transport]. unfold as_transport. by rewrite net_poll_served.
Qed.
End Transparent.

(** ** The concrete libraries *)
From S2P Require Import Demo IdentityProps RelayStoreProps RelayServerProps.

Module NetDemo.
Import Demo WireDemo IdentityDemo RelayDemo HttpDemo.

Lemma ascii_utf8 s : ascii_string s -> utf8_valid s = true.
Proof.
  induction s as [|c s IH]; [done|]. intros [Hc Hs]. cbn [utf8_valid].
  rewrite (proj2 (N.ltb_lt _ _) Hc). by apply IH.
Qed.

#[export] Instance base64_laws : Base64Laws.
Proof.
  split; intros l; [|apply letters_ascii]. cbn. by rewrite unletters_letters.
Qed.

#[export] Instance json_laws `{Codec A} : JsonLaws A.
Proof.
  split; intros x; exists (letters (enc x)).
  - split; [done|apply json_letters].
  - split_and!; [done|apply json_letters|apply ascii_utf8, letters_ascii].
Qed.

#[export] Instance query_encoder : QueryEncoder := { encode_query := query_text }.
#[export] Instance query_encoder_laws : QueryEncoderLaws.
Proof. by split. Qed.

Definition sendable_b `{Codec A} (x : A) : bool :=
  (N.of_nat (String.length (letters (enc x))) <=? MAX_BODY_BYTES)%N.
Lemma sendable_demo `{Codec A} (x : A) : sendable_b x = true -> sendable x.
Proof.
  intros Hx text Htext. assert (letters (enc x) = text) as <- by (by injection Htext).
  by apply N.leb_le.
Qed.

Definition relay : RelayTransport := mkTransport "http://relay/".
Definition origin : string := "http://relay".
Definition display (e : UreqError) : string := "status".
End NetDemo.

Import Demo WireDemo IdentityDemo RelayDemo HttpDemo NetDemo.

Lemma relay_transparent_witness :
  let store := RelayDemo.served in
  let agent := Net.served origin (wrap 64 30) display in
  @net_publish RelayStore agent _ _ _ relay (bundle bob) [(wrap 32 7, key 5)] store
  = (Ok tt, publish (bundle bob) [(wrap 32 7, key 5)] store) /\
  @net_poll RelayStore agent _ _ relay (key 1) store
  = (Ok (poll_at (key 1) (wrap 64 30) store).1, (poll_at (key 1) (wrap 64 30) store).2).
Proof.
  intros store agent.
  assert (sendable (publish_request (bundle bob) [(wrap 32 7, key 5)])) as Hpub.
  { apply sendable_demo. by vm_compute. }
  assert (sendable (send_request (key 1) (bytes [1; 2]%N))) as Hsend.
  { apply sendable_demo. by vm_compute. }
  pose proof (relay_transparent origin (wrap 64 30) display relay eq_refl (bundle bob) [(wrap 32 7, key 5)]
    (key 3) (key 1) (bytes [1; 2]%N) store Hpub Hsend) as (H1 & _ & _ & H4 & _).
  split; [exact H1|exact H4].
Defined.
