(* ===== verification/Transports.v ===== *)
(** * One envelope over either transport (core/src/transport.rs)

    core/transport.rs is the seam behind which an application picks the relay or
    the mesh for the same opaque payloads: over the relay it routes by the rotating
    inbox, in the mesh by identity. Here an envelope goes each way, through the
    implementations of [MessageTransport], from the bytes handed to [send] to those
    that come out of [receive]. *)
From S2P Require Import Prelude Words Primitives Wire PqKem Identity IdentityProps Inbox Envelope.
From S2P Require Import RelayStore RelayStoreProps Url RelayServer RelayServerProps Mesh MeshProps MeshFlood Net NetProps Demo.

(** Asking at each address in turn. *)
Fixpoint collect {T draw} `{M : !MessageTransport T draw} (rs : list key32) : mut T TransportError (list (list u8)) :=
  match rs with
  | [] => sret []
  | r :: rs => let! ms := receive r in let! rest := collect rs in sret (ms ++ rest)
  end.

(** ** The relay

    The client's transport, with the relay's handler and store behind its HTTP
    agent. *)
Section Relay.
Context `{!Base64, !Base64Laws, !QueryEncoder, !QueryEncoderLaws, !Bincode PreKeyBundle, !BincodeLaws PreKeyBundle}.
Context `{!Bincode Snapshot}.
Context `{!Json PublishRequest, !Json BundleResponse, !Json SendRequest, !Json PollResponse}.
Context `{!JsonLaws PublishRequest, !JsonLaws BundleResponse, !JsonLaws SendRequest, !JsonLaws PollResponse}.
Variables (origin : string) (display : UreqError -> string) (t : RelayTransport).
Hypothesis at_origin : trim_slashes (base_url t) = origin.

(** The transport while the relay's clock reads [unix]. *)
Definition over_relay (unix : u64) : MessageTransport RelayStore unit :=
  @relay_transport RelayStore (served origin unix display) _ _ _ t.

(** The request is one the relay reads whole, the message fits the caps of its
    mailbox, and is not expired when the relay's clock reads [read_at]. *)
Definition room_for (sent_at read_at : u64) (r : key32) (p : list u8) (s : RelayStore) : Prop :=
  sendable (send_request r p) /\ length p <= max_message_bytes (limits s) /\
  within_caps (limits s) (mailbox s r ++ [mkQueued sent_at p]) = true /\
  fresh_enough (cutoff read_at s) (mkQueued sent_at p) = true.

Lemma relay_receives unix r s :
  receive (MessageTransport := over_relay unix) r s = (Ok (poll_at r unix s).1, (poll_at r unix s).2).
Proof.
  cbn [receive over_relay relay_transport]. unfold as_transport.
  pose proof (net_poll_served origin unix display t at_origin r s) as Hpoll. unfold relay_agent in Hpoll.
  by rewrite Hpoll.
Qed.

Lemma poll_elsewhere r r' now now' s : r' <> r -> (poll_at r now (poll_at r' now' s).2).1 = (poll_at r now s).1.
Proof.
  intros Hne. unfold poll_at at 2. destruct (queues (inner s) !! r') as [q|]; [|done]. unfold poll_at.
  cbn [snd inner mark_dirty set_inner set_persistence set_queues queues limits].
  rewrite lookup_delete_ne by done. by destruct (queues (inner s) !! r).
Qed.

Lemma relay_send_waits sent_at read_at r p s :
  room_for sent_at read_at r p s ->
  exists s', send (MessageTransport := over_relay sent_at) tt r p s = (Ok tt, s') /\ p ∈ (poll_at r read_at s').1.
Proof.
  intros (Hsend & Hlen & Hcaps & Hfresh). exists (enqueue_at r p sent_at s).2. split.
  - cbn [send over_relay relay_transport]. unfold as_transport.
    pose proof (net_send_served origin sent_at display t at_origin r p s Hsend) as Hserved.
    unfold relay_agent in Hserved. by rewrite Hserved, enqueue_ok.
  - pose proof (enqueue_all_mailbox r [mkQueued sent_at p] s) as Henq.
    cbn [enqueue_all foldl qm_bytes enqueued_at] in Henq.
    destruct Henq as (Hbox & Hlim & _ & Hsome & _); [by constructor|done|].
    destruct (Hsome ltac:(done)) as [q Hq]. unfold poll_at.
    unfold mailbox in Hbox at 1. rewrite Hq in Hbox |- *. cbn [from_option id default] in Hbox. subst q.
    cbn [fst]. rewrite Hlim. fold (cutoff read_at s). rewrite List.filter_app, map_app. cbn [List.filter].
    rewrite Hfresh. apply elem_of_app. right. by left.
Qed.

(** What waits at one of the addresses is collected. *)
Lemma relay_collects read_at r p rs s :
  (p ∈ (poll_at r read_at s).1 -> r ∈ rs ->
   exists ms s', collect (M := over_relay read_at) rs s = (Ok ms, s') /\ p ∈ ms) /\
  exists ms s', collect (M := over_relay read_at) rs s = (Ok ms, s').
Proof.
  revert s. induction rs as [|r' rs IH]; intros s.
  { split; [by intros _ ?%elem_of_nil|by eexists _, _]. }
  cbn [collect]. rewrite (sbind_ok _ _ _ _ _ (relay_receives read_at r' s)).
  destruct (IH (poll_at r' read_at s).2) as [Hin (rest & s' & Hc)]. split.
  2:{ rewrite (sbind_ok _ _ _ _ _ Hc). by eexists _, _. }
  intros Hp Hr. destruct (decide (r' = r)) as [->|Hne].
  - rewrite (sbind_ok _ _ _ _ _ Hc). eexists _, _. split; [done|]. apply elem_of_app. by left.
  - apply elem_of_cons in Hr as [->|Hr]; [done|].
    destruct Hin as (rest' & s2 & Hc' & Hp'); [by rewrite poll_elsewhere|done|].
    rewrite (sbind_ok _ _ _ _ _ Hc'). eexists _, _. split; [done|]. apply elem_of_app. by right.
Qed.
End Relay.

(** ** The mesh

    Phones in range of one another hand over the bytes they broadcast. *)
Section Mesh.
Context `{!Bincode MeshFrame, !BincodeLaws MeshFrame}.

Definition ingest_all (broadcast : list (list u8)) (n : MeshNode) : MeshNode :=
  foldl (fun n b => (ingest b n).2) n broadcast.
Definition in_radio_range (ns : list MeshNode) (c : nat * nat) : list MeshNode :=
  match ns !! c.1, ns !! c.2 with
  | Some n, Some m => <[c.2 := ingest_all (pending_broadcast n) m]> ns
  | _, _ => ns
  end.
Definition radio (l : list (nat * nat)) (ns : list MeshNode) : list MeshNode := foldl in_radio_range ns l.

Lemma ingest_broadcast n m : ingest_all (pending_broadcast n) m = hear (outbound n) m.
Proof.
  unfold pending_broadcast. generalize (outbound n). intros fs. revert m.
  induction fs as [|f fs IH]; intros m; [done|].
  change (hear (f :: fs) m) with (hear fs (handle_incoming f m).2). rewrite <-IH. cbn [map ingest_all foldl].
  unfold ingest at 2, frame_decode, frame_encode. rewrite bincode_roundtrip. cbn [map_err].
  by destruct (handle_incoming f m).
Qed.

Lemma radio_meetings l ns : radio l ns = meetings l ns.
Proof.
  revert ns. induction l as [|c l IH]; intros ns; [done|]. cbn [radio meetings foldl].
  assert (in_radio_range ns c = meet ns c) as ->; [|apply IH].
  unfold in_radio_range, meet. destruct (ns !! c.1), (ns !! c.2); try done. by rewrite ingest_broadcast.
Qed.

(** A network that [mesh_eventually_delivers] is about: [n] is its phone [a],
    [m] its phone [u], and the contacts [l] contain a route. *)
Definition within_reach (w : network) (a u : nat) (n m : MeshNode) (l : list (nat * nat)) : Prop :=
  (exists ids ttl, star net_step (mkNetwork (map (fun x => with_ttl x ttl) ids) ∅) w /\
     length ids <= S (cnt (node_ttl n))) /\
  nodes w !! a = Some n /\ nodes w !! u = Some m /\ u <> a /\
  size (origins w) < STORE_CAP /\ forallb (in_range (nodes w)) l = true /\
  exists ls, route a ls u /\ sublist ls l.

Lemma mesh_carries w a u n m l id r p :
  within_reach w a u n m l -> origins w !! id = None -> me m = r ->
  exists n' m', send id r p n = (Ok tt, n') /\ radio l (<[a := n']> (nodes w)) !! u = Some m' /\ p ∈ inbox m'.
Proof.
  intros ((ids & ttl & Hw & Hbig) & Ha & Hu & Hne & Hsize & Hrange & ls & Hroute & Hsub) Hid Hme.
  exists (originate id r p n).2. cbn [send mesh_transport]. rewrite radio_meetings.
  set (ns := <[a := (originate id r p n).2]> (nodes w)). set (o := <[id := (r, p, node_ttl n)]> (origins w)).
  assert (trace (mkNetwork ns o) l [] (mkNetwork (meetings l ns) o)) as Htrace.
  { apply (meetings_trace (mkNetwork ns o) [] [] (mkNetwork ns o) l); [apply trace_start|].
    cbn [nodes]. unfold in_range, ns in *. by rewrite length_insert. }
  destruct (flood_spreads ids ttl w a n id r p l [] _ Hw Ha Hid Hbig Htrace) as [Hsp Hall].
  { cbn [origins]. unfold o. rewrite map_size_insert, Hid. cbn. lia. }
  destruct (Hall ls u Hroute Hsub) as (m' & Hm' & Hseen). cbn [nodes] in Hm'.
  assert (ns !! u = Some m) as Hns by (unfold ns; by rewrite list_lookup_insert_ne).
  destruct (meetings_me l ns u m Hns) as (m2 & Hm2 & Hme2). assert (m2 = m') as -> by congruence.
  exists m'. split_and!; [done|done|].
  destruct (sp_inbox _ _ _ _ _ _ _ _ Hsp u m' Hm' Hseen Hne ltac:(congruence)) as [Hin|Hin]; [done|].
  by apply elem_of_nil in Hin.
Qed.
End Mesh.

(** ** The same envelope, either way *)
Section Either.
Context `{X : X25519, Sym : SymCrypto, Ed : Ed25519, Kem : MlKem, !X25519Laws, !SymCryptoLaws}.
Context `{!Base64, !Base64Laws, !QueryEncoder, !QueryEncoderLaws, !Bincode PreKeyBundle, !BincodeLaws PreKeyBundle}.
Context `{!Bincode Snapshot, !Bincode MeshFrame, !BincodeLaws MeshFrame}.
Context `{!Json PublishRequest, !Json BundleResponse, !Json SendRequest, !Json PollResponse}.
Context `{!JsonLaws PublishRequest, !JsonLaws BundleResponse, !JsonLaws SendRequest, !JsonLaws PollResponse}.

(** C5: the relay and the mesh are interchangeable: one envelope, sealed to an
    account, reaches it over either implementation of the transport. Through
    [RelayTransport] (encoding, HTTP, handler, store), sent to the inbox of the
    sender's day, it is accepted if there is room for it, and is among what the
    recipient collects from its inboxes between the day before its last look and the
    day after now, if the clocks of the two are at most a day apart. Through
    [MeshTransport], sent to the recipient's identity, it is accepted, and is among
    what the recipient receives once the phones have exchanged their broadcasts along
    contacts that contain a route, in a network where nothing overflows and flooding
    is never starved. Either way it opens to exactly the sender's identity keys and the
    payload. *)
Theorem either_transport_delivers eph (alice bob : Account) payload :
  (blen payload < 2 ^ 32)%N ->
  let blob := seal_envelope eph alice (identity_dh_public bob) payload in
  let opens x := open_envelope bob x = Ok (mkOpened (identity_public alice) (identity_dh_public alice) payload) in
  (forall display t (sent_at read_at sent last now : u64) store,
     let r := inbox_id (identity_public bob) (epoch_for_unix sent) in
     let at_time := over_relay (trim_slashes (base_url t)) display t in
     (last <= sent + INBOX_EPOCH_SECONDS)%N -> (sent <= now + INBOX_EPOCH_SECONDS)%N ->
     (now + INBOX_EPOCH_SECONDS < 2 ^ 64)%N -> (last <= now)%N -> room_for sent_at read_at r blob store ->
     exists s1 ms s2, send (MessageTransport := at_time sent_at) tt r blob store = (Ok tt, s1) /\
       collect (M := at_time read_at) (window_around (identity_public bob) last now) s1 = (Ok ms, s2) /\
       exists x, x ∈ ms /\ opens x) /\
  (forall w a u n m l id,
     within_reach w a u n m l -> origins w !! id = None -> me m = identity_public bob ->
     exists n' m' ms m2, send (MessageTransport := mesh_transport) id (identity_public bob) blob n = (Ok tt, n') /\
       radio l (<[a := n']> (nodes w)) !! u = Some m' /\
       receive (MessageTransport := mesh_transport) (identity_public bob) m' = (Ok ms, m2) /\
       exists x, x ∈ ms /\ opens x).
Proof.
  intros Hlen blob opens.
  assert (opens blob) as Hopens by (unfold opens, blob; by rewrite open_seal_envelope, take_short).
  split.
  - intros display t sent_at read_at sent last now store r at_time Hl Hs Hmax Hle Hroom.
    destruct (relay_send_waits _ display t eq_refl sent_at read_at r blob store Hroom) as (s1 & Hsend & Hw).
    pose proof (window_around_covers (identity_public bob) last now sent Hl Hs Hmax Hle) as Hcov.
    destruct (proj1 (relay_collects _ display t eq_refl read_at r blob _ s1) Hw Hcov) as (ms & s2 & Hc & Hin).
    exists s1, ms, s2. split_and!; [done|done|]. by exists blob.
  - intros w a u n m l id Hreach Hid Hme.
    destruct (mesh_carries w a u n m l id _ blob Hreach Hid Hme) as (n' & m' & Hsend & Hm' & Hin).
    exists n', m', (inbox m'), (take_inbox m').2. split_and!; [done|done|done|]. by exists blob.
Qed.
End Either.

(** ** The two at work *)
Module TransportDemo.
Import Demo WireDemo IdentityDemo RelayDemo HttpDemo NetDemo MeshDemo.

(** Written on day 1, read on day 2 by a reader that last looked on day 1. *)
Definition sent : u64 := wrap 64 100000.
Definition last : u64 := wrap 64 90000.
Definition now : u64 := wrap 64 180000.

Definition hi : list u8 := bytes [104; 105]%N.
Definition blob : list u8 := seal_envelope (secret 36) alice (identity_dh_public bob) hi.
Definition ib : key32 := inbox_id (identity_public bob) (epoch_for_unix sent).
Definition store : RelayStore := with_limits (mkLimits (wrap 64 100000) (N.to_nat 2000) 4 (N.to_nat 4000)).

(** Three phones with two hops to live, the last one the recipient's, which the
    first never meets. *)
Definition ids : list key32 := [key 1; key 2; identity_public bob].
Definition quiet : network := mkNetwork (map (fun x => with_ttl x (wrap 8 2)) ids) ∅.
Definition contacts : list (nat * nat) := [(1, 2); (0, 1); (1, 2)].

Lemma room : room_for sent now ib blob store.
Proof.
  split; [apply sendable_demo; vm_compute; reflexivity|].
  split; [apply (bool_decide_unpack _); vm_compute; exact I|]. split; vm_compute; reflexivity.
Qed.

Lemma reach : within_reach quiet 0 2 (with_ttl (key 1) (wrap 8 2)) (with_ttl (identity_public bob) (wrap 8 2)) contacts.
Proof.
  split; [exists ids, (wrap 8 2); split; [apply star_refl|apply Nat.leb_le; vm_compute; reflexivity]|].
  split; [reflexivity|]. split; [reflexivity|]. split; [discriminate|].
  split; [apply Nat.ltb_lt; reflexivity|]. split; [reflexivity|]. exists [(0, 1); (1, 2)].
  split; [apply (route_on 0 [(0, 1)] 1 2), (route_on 0 [] 0 1), route_here|]. repeat constructor.
Qed.
End TransportDemo.

Import Demo WireDemo IdentityDemo RelayDemo HttpDemo NetDemo MeshDemo TransportDemo.

(** One message, over the relay and over the mesh. *)
Lemma either_transport_delivers_witness :
  let b := seal_envelope (secret 36) alice (identity_dh_public bob) hi in
  let opens x := open_envelope bob x = Ok (mkOpened (identity_public alice) (identity_dh_public alice) hi) in
  let at_time := over_relay (trim_slashes (base_url NetDemo.relay)) display NetDemo.relay in
  (exists s1 ms s2,
     send (MessageTransport := at_time sent) tt (inbox_id (identity_public bob) (epoch_for_unix sent)) b store = (Ok tt, s1) /\
     collect (M := at_time now) (window_around (identity_public bob) last now) s1 = (Ok ms, s2) /\
     exists x, x ∈ ms /\ opens x) /\
  (exists n' m' ms m2, send (tag16 7) (identity_public bob) b (with_ttl (key 1) (wrap 8 2)) = (Ok tt, n') /\
     radio contacts (<[0 := n']> (nodes quiet)) !! 2 = Some m' /\
     receive (MessageTransport := mesh_transport) (identity_public bob) m' = (Ok ms, m2) /\
       exists x, x ∈ ms /\ opens x).
Proof.
  destruct (either_transport_delivers (secret 36) alice bob hi ltac:(reflexivity)) as [Hrelay Hmesh]. split.
  - apply (Hrelay display NetDemo.relay sent now sent last now store).
    + discriminate.
    + discriminate.
    + reflexivity.
    + discriminate.
    + exact room.
  - apply (Hmesh quiet 0 2 _ _ contacts (tag16 7) reach); reflexivity.
Defined.
