(* ===== verification/NetSession.v ===== *)
(** * A conversation starts over the relay (net, relay and core together)

    Publication, fetch, session initiation, the first message, polling and the
    response, through every layer between the two users. *)
From S2P Require Import Prelude Words Primitives Wire Kdf PqKem Identity Ratchet Handshake Session.
From S2P Require Import IdentityProps SessionProps RelayStore RelayStoreProps Url RelayServer Mesh Net NetProps.

Section OverRelay.
Context `{X : X25519, Sym : SymCrypto, Ed : Ed25519, Kem : MlKem}.
Context `{!X25519Laws, !SymCryptoLaws, !Ed25519Laws, !MlKemLaws}.
Context `{!Bincode RatchetHeader, !Bincode Message, !BincodeLaws Message}.
Context `{!Base64, !Base64Laws, !QueryEncoder, !QueryEncoderLaws, !Bincode PreKeyBundle, !BincodeLaws PreKeyBundle}.
Context `{!Bincode Snapshot}.
Context `{!Json PublishRequest, !Json BundleResponse, !Json SendRequest, !Json PollResponse}.
Context `{!JsonLaws PublishRequest, !JsonLaws BundleResponse, !JsonLaws SendRequest, !JsonLaws PollResponse}.
Variables (origin : string) (unix : u64) (display : UreqError -> string) (t : RelayTransport).
Hypothesis at_origin : trim_slashes (base_url t) = origin.

#[local] Instance session_agent : HttpAgent RelayStore := served origin unix display.

(** What is fetched right after the publication is the account's own bundle. *)
Lemma fetch_published bob store :
  let '(base, pool) := split_bundle bob in
  exists store', fetch_bundle (identity_public bob) (publish base pool store) = (Some (bundle bob), store') /\
    (forall r, mailbox store' r = mailbox store r) /\ limits store' = limits store.
Proof.
  unfold split_bundle, fetch_bundle, publish. cbn [inner mark_dirty set_inner set_persistence set_keys keys].
  assert (pb_identity_ed (without_one_time (bundle bob)) = identity_public bob) as ->.
  { unfold bundle. by destruct (match btree_iter _ _ with [] => _ | _ => _ end). }
  rewrite lookup_insert_eq. cbn [one_time base_bundle]. unfold one_time_prekey_publics, bundle.
  destruct (btree_iter wle (one_time_prekeys bob)) as [|[id sk] l]; cbn [map]; eexists; by split_and!.
Qed.

(** The first message an initiator sends. *)
Lemma initiator_sends ephemeral seed fresh alice bob root hs pt :
  Handshake.initiate ephemeral seed alice (bundle bob) = Ok (root, hs, pb_signed_prekey (bundle bob)) ->
  let sa := mkSession (init_initiator fresh root (pb_signed_prekey (bundle bob)))
              (ad_prefix (hs_identity_ed hs) (pb_identity_ed (bundle bob))) (Some hs) in
  exists sa', session_encrypt pt sa = (Ok (first_message fresh root bob (with_identity_ed hs (hs_identity_ed hs)) 0 pt), sa').
Proof.
  intros Hhs sa.
  assert (pb_signed_prekey (bundle bob) = public_of (signed_prekey bob) /\
    pb_identity_ed (bundle bob) = identity_public bob) as [Hspk Hed].
  { unfold bundle. by destruct (match btree_iter _ _ with [] => _ | _ => _ end). }
  set (ck := (kdf_rk root (Ratchet.dh fresh (public_of (signed_prekey bob)))).2).
  assert (chain_send (ratchet sa) = Some (chain_at ck 0) /\ n_send (ratchet sa) = u32_of 0 /\
    dh_self_pub (ratchet sa) = public_of fresh /\ pn (ratchet sa) = wrap 32 0) as (Hck & Hns & Hpub & Hpn).
  { subst sa. cbn [ratchet]. rewrite Hspk. unfold init_initiator, ck. by destruct (kdf_rk root _). }
  eexists. rewrite (session_encrypt_ok _ _ _ _ _ (encrypt_ok pt (ad_prefix_of sa) (ratchet sa) ck 0 Hck Hns)).
  rewrite Hpub, Hpn. subst sa. cbn [pending_handshake ad_prefix_of]. rewrite Hed.
  unfold first_message. cbn [hs_identity_ed with_identity_ed]. by destruct hs.
Qed.

(** A message that fits is polled last. *)
Lemma sent_is_polled r m store :
  length m <= max_message_bytes (limits store) ->
  within_caps (limits store) (mailbox store r ++ [mkQueued unix m]) = true ->
  let store1 := (enqueue_at r m unix store).2 in
  (enqueue_at r m unix store).1 = Ok tt /\
  (exists earlier, (poll_at r unix store1).1 = earlier ++ [m]) /\ mailbox (poll_at r unix store1).2 r = [].
Proof.
  intros Hlen Hcaps store1. pose proof (enqueue_all_mailbox r [mkQueued unix m] store) as Henq.
  cbn [enqueue_all foldl qm_bytes enqueued_at] in Henq. fold store1 in Henq.
  destruct Henq as (Hbox & Hlim & _ & Hsome & _); [by constructor|done|].
  split; [by rewrite enqueue_ok|]. destruct (Hsome ltac:(done)) as [q Hq].
  unfold poll_at. unfold mailbox in Hbox at 1. rewrite Hq in Hbox |- *. cbn [from_option id] in Hbox. subst q.
  cbn [fst snd]. split.
  - set (c := wsat_sub unix _). assert (fresh_enough c (mkQueued unix m) = true) as Hf.
    { unfold fresh_enough, c. cbn [enqueued_at]. apply N.leb_le. rewrite wval_wsat_sub. lia. }
    exists (map qm_bytes (List.filter (fresh_enough c) (mailbox store r))).
    rewrite List.filter_app, map_app. f_equal. cbn [List.filter]. by rewrite Hf.
  - unfold mailbox. cbn. by rewrite lookup_delete_eq.
Qed.

(** A conversation starts over the relay: Bob publishes his prekeys, Alice
    fetches them by his identity, gets a bundle that verifies, initiates a session
    and sends its first message to a mailbox; whatever was in the relay before,
    what Bob polls from that mailbox ends with her message, which he decodes and
    answers by a session that gives him her plaintext, both sessions bound to the
    two identities, and the one-time prekey he had published spent. Every step
    crosses the client, HTTP, the relay's handler and its store. *)
Theorem session_over_relay ephemeral seed fresh fresh' alice bob r pt store :
  let base := (split_bundle bob).1 in
  let pool := (split_bundle bob).2 in
  is_Some (kem_encapsulate (encapsulation_key (kyber_decap (kyber bob))) seed) ->
  sendable (publish_request base pool) ->
  exists s1 s2 sa sa' m,
    net_publish t base pool store = (Ok tt, s1) /\
    net_fetch_bundle t (identity_public bob) s1 = (Ok (Some (bundle bob)), s2) /\
    session_initiate ephemeral seed fresh alice (bundle bob) = Ok sa /\
    session_encrypt pt sa = (Ok m, sa') /\
    (sendable (send_request r (message_encode m)) ->
     length (message_encode m) <= max_message_bytes (limits store) ->
     within_caps (limits store) (mailbox store r ++ [mkQueued unix (message_encode m)]) = true ->
     exists s3 s4 earlier m' sb,
       net_send t r (message_encode m) s2 = (Ok tt, s3) /\
       net_poll t r s3 = (Ok (earlier ++ [message_encode m]), s4) /\ mailbox s4 r = [] /\
       message_decode (message_encode m) = Ok m' /\
       session_respond fresh' m' bob = (Ok (sb, pt), spend_offered (bundle bob) bob) /\
       ad_prefix_of sb = ad_prefix (identity_public alice) (identity_public bob) /\
       ad_prefix_of sb = ad_prefix_of sa).
Proof.
  intros base pool Hkem Hpub. pose proof (fetch_published bob store) as Hfetch.
  destruct (split_bundle bob) as [base' pool'] eqn:Hsplit. cbn [fst snd] in base, pool. subst base pool.
  destruct Hfetch as (s2 & Hfetch & Hbox & Hlim).
  destruct (initiate_total ephemeral seed alice bob (bundle bob) (bundle_of_bundle bob) Hkem) as (root & hs & Hhs).
  destruct (initiator_sends ephemeral seed fresh alice bob root hs pt Hhs) as [sa' Hsent].
  set (sa := mkSession _ _ _) in Hsent. set (m := first_message _ _ _ _ _ _) in Hsent.
  exists (publish base' pool' store), s2, sa, sa', m. split_and!.
  - by apply (net_publish_served origin unix display).
  - etransitivity; [apply (net_fetch_served origin unix display t at_origin)|]. by rewrite Hfetch.
  - unfold session_initiate. rewrite verify_bundle_bundle, Hhs. reflexivity.
  - exact Hsent.
  - intros Hsend Hlen Hcaps. rewrite <-Hlim in Hlen, Hcaps. rewrite <-Hbox in Hcaps.
    destruct (sent_is_polled r (message_encode m) s2 Hlen Hcaps) as (Henq & [earlier Hpoll] & Hempty).
    destruct (initiate_identity _ _ _ _ _ _ _ Hhs) as (Hided & _).
    assert (pb_identity_ed (bundle bob) = identity_public bob) as Hbobed.
    { unfold bundle. by destruct (match btree_iter _ _ with [] => _ | _ => _ end). }
    exists (enqueue_at r (message_encode m) unix s2).2.
    eexists _, earlier, m, _. split_and!.
    + etransitivity; [by apply (net_send_served origin unix display t at_origin)|]. by rewrite Henq.
    + etransitivity; [apply (net_poll_served origin unix display t at_origin)|]. by rewrite Hpoll.
    + exact Hempty.
    + apply message_decode_encode.
    + unfold m. apply (first_message_opens _ _ _ _ _ _ _ _ _ _ _ _ _ (bundle_of_bundle bob) Hhs); [lia|done].
    + cbn [ad_prefix_of]. by rewrite Hided.
    + cbn [ad_prefix_of sa]. by rewrite Hbobed.
Qed.
End OverRelay.

From S2P Require Import Demo RelayServerProps.
Import Demo WireDemo IdentityDemo SessionDemo RelayDemo HttpDemo NetDemo.

(** Bob publishes three one-time prekeys; Alice writes to him. *)
Lemma session_over_relay_witness :
  let store := with_limits StoreLimits_default in
  let agent := Net.served origin (wrap 64 30) display in
  exists s1 s2 sa,
    @net_publish RelayStore agent _ _ _ relay (split_bundle bob).1 (split_bundle bob).2 store = (Ok tt, s1) /\
    @net_fetch_bundle RelayStore agent _ _ _ relay (identity_public bob) s1 = (Ok (Some (bundle bob)), s2) /\
    session_initiate (secret 31) seed (secret 33) alice (bundle bob) = Ok sa.
Proof.
  intros store agent.
  assert (sendable (publish_request (split_bundle bob).1 (split_bundle bob).2)) as Hpub.
  { apply sendable_demo. by vm_compute. }
  pose proof (session_over_relay origin (wrap 64 30) display relay eq_refl (secret 31) seed (secret 33) (secret 34)
    alice bob (key 6) (hello 1) store bob_encapsulates Hpub) as (s1 & s2 & sa & _ & _ & Hp & Hf & Hi & _).
  exists s1, s2, sa. split; [exact Hp|]. split; [exact Hf|exact Hi].
Defined.
