(* ===== verification/DemoPeer.v ===== *)
(** * The command-line peer (net/examples/demo_peer.rs)

    A second user for exercising a running application through a relay: its
    arguments, the connection, the message it sends in a sealed envelope to the
    recipient's rotating inbox, and the loop that polls its own inboxes. What it
    prints is kept as the list of the values in each line. *)
From S2P Require Import Prelude Words Primitives Wire Kdf PqKem Identity Ratchet Handshake Session.
From S2P Require Import Envelope Inbox RelayStore Url RelayServer RelayMain Mesh Net.
From Stdlib Require Import Ascii.
From stdpp Require Import strings.


Local Open Scope string_scope.

(** ** [serde_json::Value] *)
#[warnings="-register-all"]
Inductive Value :=
| Null
| Bool (b : bool)
| Number (z : Z)
| Float (text : string)
| Str (s : string)
| Array (l : list Value)
| Object (m : gmap string Value).

(** [v[key]]: [Null] when there is no such key or [v] is no object. *)
Definition value_index (v : Value) (key : string) : Value :=
  match v with Object m => default Null (m !! key) | _ => Null end.
Definition as_str (v : Value) : option string := match v with Str s => Some s | _ => None end.

(** [v == n] for an [i32] and [v == s] for a [&str] *)
Definition value_eq_int (v : Value) (n : Z) : bool := match v with Number z => (z =? n)%Z | _ => false end.
Definition value_eq_str (v : Value) (s : string) : bool := match v with Str t => String.eqb t s | _ => false end.

(** [value.to_string()] and [serde_json::from_slice::<Value>] *)
Class ValueText := {
  value_text : Value -> string;
  value_from_slice : list u8 -> result string Value
}.

(** [json!({"v": 1, "t": "text", "body": text})], and the control the application
    sends to set a retention time. *)
Definition text_content (text : string) : Value :=
  Object {[ "v" := Number 1; "t" := Str "text"; "body" := Str text ]}.
Definition timer_content (seconds : Z) : Value :=
  Object {[ "v" := Number 1; "t" := Str "timer"; "seconds" := Number seconds ]}.

Definition has_type (v : Value) (t : string) : bool :=
  value_eq_int (value_index v "v") 1 && value_eq_str (value_index v "t") t.

(** ** [str::trim] *)

(** The UTF-8 encodings of the characters with the property White_Space. *)
Definition white_spaces : list (list u8) :=
  map (map (wrap 8))
    ([[9]; [10]; [11]; [12]; [13]; [32]; [194; 133]; [194; 160]; [225; 154; 128]] ++
     map (fun n => [226; 128; n]) [128; 129; 130; 131; 132; 133; 134; 135; 136; 137; 138; 168; 169; 175] ++
     [[226; 129; 159]; [227; 128; 128]])%N%list.

Definition strip_one (p l : list u8) : option (list u8) :=
  if decide (take (length p) l = p) then Some (drop (length p) l) else None.

Fixpoint strip_any (ps : list (list u8)) (l : list u8) : option (list u8) :=
  match ps with
  | [] => None
  | p :: ps => match strip_one p l with Some l => Some l | None => strip_any ps l end
  end.

(** Every step removes a character, so the length is fuel enough. *)
Fixpoint strip_all (fuel : nat) (ps : list (list u8)) (l : list u8) : list u8 :=
  match fuel with
  | O => l
  | S fuel => match strip_any ps l with Some l => strip_all fuel ps l | None => l end
  end.

Definition trim_bytes (l : list u8) : list u8 :=
  let l := strip_all (length l) white_spaces l in
  reverse (strip_all (length l) (map (fun p => reverse p) white_spaces) (reverse l)).

Definition string_of_bytes (l : list u8) : string := String.string_of_list_ascii (map Words.ascii_of_byte l).

Definition trim (s : string) : string := string_of_bytes (trim_bytes (bytes_of_string s)).

(** ** The program's state *)
Local Open Scope list_scope.

(** A line of the output, with the values in it. *)
Inductive Line :=
| FetchedBundle
| MyIdentity (id_b64 : string)
| Sent (epoch : u64) (text : string)
| Polling (secs : u64)
| Reply (sender_b64 body : string)
| TimerControl (sender_b64 : string) (seconds : Value)
| RawReply (sender_b64 : string) (plain : list u8)
| Undecryptable (e : Error)
| NoReply (secs : u64).

(** How the program ends: [main] returns, [exit(code)], or a panic with the text
    of its [expect]. It does not when a call on the relay never returns
    ([Blocked]); [StillPolling] is for when the turns given run out. *)
Inductive Ending :=
| Done
| ExitCode (code : Z)
| Panicked (text : string)
| Blocked
| StillPolling.

(** Time as it passes for the program: the reading of its monotonic clock, and
    how long each of its next calls on the relay takes, with the program's own
    work since the call before. [None] is a call that never
    returns: the HTTP client of the source sets no limit on the time it waits for an
    answer. *)
Record Clock := mkClock {
  ck_now : Instant;
  ck_waits : nat -> option N
}.

Definition passes (ns : N) (c : Clock) : Clock := mkClock (ck_now c + ns)%N (ck_waits c).

Section DemoPeer.
Context `{X : X25519, Sym : SymCrypto, Ed : Ed25519, Kem : MlKem}.
Context `{!Bincode RatchetHeader, !Bincode Message, !Bincode PreKeyBundle}.
Context {St : Type} `{!HttpAgent St, !Base64, !ValueText}.
Context `{!Json PublishRequest, !Json BundleResponse, !Json SendRequest, !Json PollResponse}.

(** A call on the relay: it takes its time, or forever. *)
Definition on_net {A} (m : mut St NetError A) : mut (St * Clock) Ending (result NetError A) := fun '(n, c) =>
  match ck_waits c 0 with
  | None => (Err Blocked, (n, c))
  | Some ns => let '(res, n) := m n in (Ok res, (n, mkClock (ck_now c + ns)%N (fun i => ck_waits c (S i))))
  end.

(** What the connected program works on: the network and the time, its session,
    the ratchet secrets still to be drawn and the lines printed so far. *)
Record Peer := mkPeer {
  pr_net : St * Clock;
  pr_session : Session;
  pr_draws : nat -> StaticSecret;
  pr_out : list Line
}.

Definition say (l : Line) : mut Peer Ending unit :=
  smodify (fun p => mkPeer (pr_net p) (pr_session p) (pr_draws p) (pr_out p ++ [l])).

(** A call on the network or the session whose result the program looks at. *)
Definition polling {A} (m : mut St NetError A) : mut Peer Ending (result NetError A) := fun p =>
  let '(res, n) := on_net m (pr_net p) in (res, mkPeer n (pr_session p) (pr_draws p) (pr_out p)).
Definition decrypting (m : Message) : mut Peer Ending (result Error (list u8)) := fun p =>
  let '(res, s) := session_decrypt (pr_draws p 0) m (pr_session p) in
  (Ok res, mkPeer (pr_net p) s (fun i => pr_draws p (S i)) (pr_out p)).

(** [for x in xs { .. }], where [return] in the body leaves the program. *)
Fixpoint for_each {A} (xs : list A) (body : A -> mut Peer Ending unit) : mut Peer Ending unit :=
  match xs with
  | [] => sret tt
  | x :: xs => body x ;! for_each xs body
  end.

(** ** The polling loop *)

(** The [match] on the decrypted text. *)
Definition show_plain (sender : string) (plain : list u8) : mut Peer Ending unit :=
  match value_from_slice plain with
  | Ok v =>
      if has_type v "text" then
        say (Reply sender (default "" (as_str (value_index v "body")))) ;! sthrow Done
      else if has_type v "timer" then say (TimerControl sender (value_index v "seconds"))
      else say (RawReply sender plain) ;! sthrow Done
  | Err _ => say (RawReply sender plain) ;! sthrow Done
  end.

Definition handle_envelope (me : Account) (raw : list u8) : mut Peer Ending unit :=
  match open_envelope me raw with
  | Err _ => sret tt
  | Ok opened =>
      match message_decode (oe_payload opened) with
      | Err _ => sret tt
      | Ok msg =>
          let! res := decrypting msg in
          match res with
          | Ok plain => show_plain (b64 (abytes (oe_sender_identity_ed opened))) plain
          | Err e => say (Undecryptable e)
          end
      end
  end.

Definition poll_inbox (me : Account) (relay : RelayTransport) (ib : key32) : mut Peer Ending unit :=
  let! res := polling (net_poll relay ib) in
  match res with
  | Ok envelopes => for_each envelopes (handle_envelope me)
  | Err _ => sret tt
  end.

(** [unix_now()]: [None] is a system clock before 1970. *)
Definition unix_now (reading : option u64) : result Ending u64 :=
  ok_or reading (Panicked "system clock before 1970").

Definition poll_round (me : Account) (relay : RelayTransport) (reading : option u64) : mut Peer Ending unit :=
  let! now := slift (unix_now reading) in
  let now_epoch := epoch_for_unix now in
  for_each (inbox_window (identity_public me) (wsat_sub now_epoch (wrap 64 1)) (wsucc now_epoch))
    (poll_inbox me relay).

(** One turn of the [while]: the time the program's own work takes before the
    condition reads the clock, the time from there until its body goes on after
    [sleep], the time of day the body reads, and what everyone else does to the
    network in between. *)
Record Turn := mkTurn {
  tn_lag : N;
  tn_sleep : N;
  tn_unix : option u64;
  tn_world : St -> St
}.

Definition SLEEP_NANOS : N := 2000000000.

(** The program and the world up to the condition, and over the sleep. *)
Definition before_turn (t : Turn) (p : Peer) : Peer :=
  mkPeer ((pr_net p).1, passes (tn_lag t) (pr_net p).2) (pr_session p) (pr_draws p) (pr_out p).
Definition asleep (t : Turn) (p : Peer) : Peer :=
  mkPeer (tn_world t (pr_net p).1, passes (tn_sleep t) (pr_net p).2) (pr_session p) (pr_draws p) (pr_out p).

Fixpoint poll_loop (me : Account) (relay : RelayTransport) (deadline : Instant) (poll_secs : u64)
    (turns : list Turn) (p : Peer) : Ending * Peer :=
  match turns with
  | [] => (StillPolling, p)
  | t :: turns =>
      let p := before_turn t p in
      if decide (ck_now (pr_net p).2 < deadline)%N then
        match poll_round me relay (tn_unix t) (asleep t p) with
        | (Ok _, p) => poll_loop me relay deadline poll_secs turns p
        | (Err e, p) => (e, p)
        end
      else
        let p := (say (NoReply poll_secs) p).2 in
        (ExitCode 2, p)
  end.

(** ** Up to the loop *)

Definition DEFAULT_POLL_SECS : u64 := wrap 64 120.

(** The relay's URL, the other user's identity in base64, the text, the time. *)
Definition parse_peer_args (args : list string) : result Ending (string * string * string * u64) :=
  match args with
  | [] => Err (Panicked "relay url")
  | [_] => Err (Panicked "their identity (base64)")
  | [_; _] => Err (Panicked "message text")
  | relay_url :: their_id_b64 :: text :: rest =>
      let poll_secs := default DEFAULT_POLL_SECS (match rest with s :: _ => parse_uint 64 s | [] => None end) in
      Ok (relay_url, their_id_b64, text, poll_secs)
  end.

Definition decode_identity (their_id_b64 : string) : result Ending key32 :=
  match b64_decode (trim their_id_b64) with
  | Err _ => Err (Panicked "valid base64")
  | Ok bytes => ok_or (array_of 32 bytes) (Panicked "identity must be 32 bytes")
  end.

(** [result.expect(text)] *)
Definition expect {E A} (text : string) (r : result E A) : result Ending A :=
  map_err (fun _ => Panicked text) r.
Definition expect_net {A} (text : string) (m : mut St NetError A) : mut (St * Clock) Ending A :=
  let! res := on_net m in slift (expect text res).

(** The random draws of a run, in order: the account, the session, the envelope,
    and what the ratchet turns on. *)
Record Draws := mkDraws {
  dw_account : Account;            (** of [Account::generate()] *)
  dw_ephemeral : StaticSecret;
  dw_seed : EncapSeed;
  dw_ratchet : StaticSecret;
  dw_envelope : StaticSecret;
  dw_replies : nat -> StaticSecret
}.

Definition connect (their_id : key32) (text : string) (reading : option u64) (relay : RelayTransport) (d : Draws)
  : mut (St * Clock) Ending (Session * list Line) :=
  let! fetched := expect_net "relay reachable" (net_fetch_bundle relay their_id) in
  let! bundle := slift (ok_or fetched (Panicked "no bundle published for that identity")) in
  let me := dw_account d in
  let my_id := identity_public me in
  let! session := slift (expect "bundle verified + session opened"
    (session_initiate (dw_ephemeral d) (dw_seed d) (dw_ratchet d) me bundle)) in
  let content := value_text (text_content text) in
  let '(sealed, session) := session_encrypt (bytes_of_string content) session in
  let! message := slift (expect "encrypt" sealed) in
  let wire := message_encode message in
  let! now := slift (unix_now reading) in
  let epoch := epoch_for_unix now in
  let blob := seal_envelope (dw_envelope d) me (pb_identity_dh bundle) wire in
  let! _ := expect_net "send" (net_send relay (inbox_id their_id epoch) blob) in
  sret (session, [FetchedBundle; MyIdentity (b64 (abytes my_id)); Sent epoch text]).

(** [Instant::now() + Duration::from_secs(secs)], which panics past the last
    instant the platform can represent. *)
Definition deadline_of (last_instant start : Instant) (secs : u64) : option Instant :=
  let d := (start + secs * 1000000000)%N in
  if decide (d <= last_instant)%N then Some d else None.

(** [main]; the lines printed before [connect] panics are not kept. *)
Definition peer_main (args : list string) (d : Draws) (reading : option u64) (last_instant : Instant)
    (turns : list Turn) (net : St * Clock) : Ending * (St * Clock * list Line) :=
  match (a <-? parse_peer_args args;
         let '(relay_url, their_id_b64, text, poll_secs) := a in
         their_id <-? decode_identity their_id_b64;
         Ok (relay_url, their_id, text, poll_secs)) with
  | Err e => (e, (net, []))
  | Ok (relay_url, their_id, text, poll_secs) =>
      let relay := direct relay_url in
      match connect their_id text reading relay d net with
      | (Err e, net) => (e, (net, []))
      | (Ok (session, lines), net) =>
          let p := mkPeer net session (dw_replies d) (lines ++ [Polling poll_secs]) in
          match deadline_of last_instant (ck_now (pr_net p).2) poll_secs with
          | None => (Panicked "overflow when adding duration to instant", (pr_net p, pr_out p))
          | Some deadline =>
              let '(e, p) := poll_loop (dw_account d) relay deadline poll_secs turns p in
              (e, (pr_net p, pr_out p))
          end
      end
  end.
End DemoPeer.
