(* ===== verification/DemoPeerProps.v ===== *)
(** * Properties of the command-line peer (net/examples/demo_peer.rs)

    The whole exchange of the program with an application on the other side of
    the relay, through every layer: arguments, HTTP, the relay's store, rotating
    inboxes, sealed envelopes, sessions, content; and when its loop ends. *)
From S2P Require Import Prelude Words Primitives Wire Kdf PqKem Identity Ratchet Handshake Session.
From S2P Require Import IdentityProps SessionProps SessionExchange Envelope Inbox RelayStore RelayStoreProps Url RelayServer.
From S2P Require Import RelayMain Mesh Net NetProps NetSession DemoPeer.
From stdpp Require Import strings.

Local Open Scope list_scope.

(** ** Trimming *)

Lemma strip_one_shorter p l l' : p <> [] -> strip_one p l = Some l' -> length l' < length l.
Proof.
  intros Hp. unfold strip_one. case_decide as Ht; [|done]. intros [= <-]. rewrite length_drop.
  apply (f_equal length) in Ht. rewrite length_take in Ht.
  assert (0 < length p) by (by destruct p; [|cbn; lia]). lia.
Qed.

Lemma strip_any_shorter ps l l' : Forall (fun p => p <> []) ps -> strip_any ps l = Some l' -> length l' < length l.
Proof.
  intros Hps. induction Hps as [|p ps Hp Hps IH]; cbn; [done|].
  destruct (strip_one p l) eqn:Hs; [|done]. intros [= <-]. by eapply strip_one_shorter.
Qed.

(** With the length for fuel nothing is left to strip. *)
Lemma strip_all_done fuel ps l :
  Forall (fun p => p <> []) ps -> length l <= fuel -> strip_any ps (strip_all fuel ps l) = None.
Proof.
  intros Hps. revert l. induction fuel as [|fuel IH]; intros l Hl; cbn [strip_all].
  - destruct (strip_any ps l) eqn:Hs; [|done]. apply strip_any_shorter in Hs; [lia|done].
  - destruct (strip_any ps l) as [l'|] eqn:Hs; [|done]. apply IH. apply strip_any_shorter in Hs; [lia|done].
Qed.

(** ** Mailboxes *)

Lemma poll_at_mailbox r now s :
  (poll_at r now s).1 = map qm_bytes (List.filter (fresh_enough (cutoff now s)) (mailbox s r)) /\
  mailbox (poll_at r now s).2 r = [] /\ limits (poll_at r now s).2 = limits s /\
  (forall r', r' <> r -> mailbox (poll_at r now s).2 r' = mailbox s r').
Proof.
  unfold poll_at, mailbox, cutoff. destruct (queues (inner s) !! r) as [q|] eqn:Hq; cbn.
  - split_and!; [done|by rewrite lookup_delete_eq|done|]. intros r' Hne. by rewrite lookup_delete_ne.
  - rewrite Hq. by split_and!.
Qed.

Lemma fetch_bundle_mail id s r :
  mailbox (fetch_bundle id s).2 r = mailbox s r /\ limits (fetch_bundle id s).2 = limits s.
Proof. unfold fetch_bundle. destruct (keys (inner s) !! id) as [k|]; [|done]. by destruct (one_time k) as [|[]]. Qed.

(** The relay takes [m] for [r] and keeps everything it has for [r]. *)
Definition room_for (r : key32) (m : list u8) (now : u64) (s : RelayStore) : Prop :=
  length m <= max_message_bytes (limits s) /\
  within_caps (limits s) (mailbox s r ++ [mkQueued now m]) = true.

Lemma enqueue_room r m now s :
  room_for r m now s ->
  (enqueue_at r m now s).1 = Ok tt /\
  mailbox (enqueue_at r m now s).2 r = mailbox s r ++ [mkQueued now m] /\
  limits (enqueue_at r m now s).2 = limits s /\
  (forall r', r' <> r -> mailbox (enqueue_at r m now s).2 r' = mailbox s r').
Proof.
  intros [Hlen Hcaps]. destruct (enqueue_all_mailbox r [mkQueued now m] s) as (Hbox & Hlim & _ & _ & Ho);
    [by constructor|done|]. cbn [enqueue_all foldl qm_bytes enqueued_at] in *.
  split_and!; [by rewrite enqueue_ok|done|done|]. intros r' Hne. unfold mailbox. by rewrite Ho.
Qed.

(** What [m], queued at [sent], is to a poll at [now]. *)
Lemma fresh_sent (now sent : u64) m s :
  (now <= sent + mail_ttl_secs (limits s))%N -> fresh_enough (cutoff now s) (mkQueued sent m) = true.
Proof. intros Hle. unfold fresh_enough, cutoff. cbn [enqueued_at]. apply N.leb_le. rewrite wval_wsat_sub. lia. Qed.

(** ** Mail that is not for the reader *)
Section Junk.
Context `{X : X25519, Sym : SymCrypto, Ed : Ed25519, Kem : MlKem, !Bincode Message}.

Definition readable (me : Account) (raw : list u8) : option (OpenedEnvelope * Message) :=
  match open_envelope me raw with
  | Err _ => None
  | Ok o => match message_decode (oe_payload o) with Err _ => None | Ok m => Some (o, m) end
  end.

(** Neither a sealed envelope for [me] nor a message in one. *)
Definition junk (me : Account) (raw : list u8) : Prop := readable me raw = None.

(** In the mailboxes of the inboxes [ibs] there is nothing but junk. *)
Definition junk_in (me : Account) (ibs : list key32) (s : RelayStore) : Prop :=
  forall ib q, ib ∈ ibs -> q ∈ mailbox s ib -> junk me (qm_bytes q).

(** There, the only other message is [blob], queued at [sent], last in the mailbox [at_ib]. *)
Definition awaits (me : Account) (ibs : list key32) (at_ib : key32) (sent : u64) (blob : list u8)
    (s : RelayStore) : Prop :=
  at_ib ∈ ibs /\
  (exists q0, mailbox s at_ib = q0 ++ [mkQueued sent blob] /\ forall q, q ∈ q0 -> junk me (qm_bytes q)) /\
  (forall ib q, ib ∈ ibs -> ib <> at_ib -> q ∈ mailbox s ib -> junk me (qm_bytes q)).

Lemma enqueue_awaits me ibs at_ib sent blob s :
  junk_in me ibs s -> at_ib ∈ ibs -> room_for at_ib blob sent s ->
  awaits me ibs at_ib sent blob (enqueue_at at_ib blob sent s).2.
Proof.
  intros Hjunk Hin Hroom. destruct (enqueue_room _ _ _ _ Hroom) as (_ & Hbox & _ & Ho).
  split_and!; [done| |].
  - exists (mailbox s at_ib). split; [done|]. intros q Hq. by eapply Hjunk.
  - intros ib q Hib Hne. rewrite Ho by done. by apply Hjunk.
Qed.

(** A poll of one of the inboxes gives junk, and [blob] after it from its own. *)
Lemma poll_junk me ibs ib now s :
  junk_in me ibs s -> ib ∈ ibs -> Forall (junk me) (poll_at ib now s).1.
Proof.
  intros Hjunk Hib. destruct (poll_at_mailbox ib now s) as (-> & _).
  apply Forall_map, Forall_forall. intros q [_ Hq]%list_elem_of_In%filter_In%and_comm.
  apply list_elem_of_In in Hq. by eapply Hjunk.
Qed.

Lemma poll_awaited me ibs at_ib (sent : u64) blob (now : u64) s :
  awaits me ibs at_ib sent blob s -> (now <= sent + mail_ttl_secs (limits s))%N ->
  exists early, Forall (junk me) early /\ (poll_at at_ib now s).1 = early ++ [blob].
Proof.
  intros (_ & (q0 & Hbox & Hq0) & _) Hle. destruct (poll_at_mailbox at_ib now s) as (-> & _).
  rewrite Hbox, List.filter_app, map_app. cbn [List.filter]. rewrite fresh_sent by done.
  eexists. split; [|done]. apply Forall_map, Forall_forall. intros q Hq. apply Hq0.
  apply list_elem_of_In, filter_In in Hq as [Hq _]. by apply list_elem_of_In.
Qed.

Lemma poll_other me ib ibs at_ib sent blob now s :
  awaits me (ib :: ibs) at_ib sent blob s -> ib <> at_ib ->
  Forall (junk me) (poll_at ib now s).1 /\ awaits me ibs at_ib sent blob (poll_at ib now s).2.
Proof.
  intros (Hin & (q0 & Hbox & Hq0) & Hother) Hne.
  destruct (poll_at_mailbox ib now s) as (-> & Hempty & _ & Ho). split.
  - apply Forall_map, Forall_forall. intros q Hq. apply (Hother ib); [by left|done|].
    apply list_elem_of_In, filter_In in Hq as [Hq _]. by apply list_elem_of_In.
  - apply elem_of_cons in Hin as [->|Hin]; [done|]. split_and!; [done| |].
    + exists q0. by rewrite Ho by done.
    + intros ib' q Hib Hne' Hq. destruct (decide (ib' = ib)) as [->|Hne2].
      * by rewrite Hempty in Hq; apply elem_of_nil in Hq.
      * rewrite Ho in Hq by done. apply (Hother ib'); [by right|done|done].
Qed.
End Junk.

(** ** A relay whose clock moves *)
Section Moving.
Context `{!Base64, !Base64Laws, !QueryEncoder, !QueryEncoderLaws, !Bincode PreKeyBundle, !BincodeLaws PreKeyBundle}.
Context `{!Bincode Snapshot}.
Context `{!Json PublishRequest, !Json BundleResponse, !Json SendRequest, !Json PollResponse}.
Context `{!JsonLaws PublishRequest, !JsonLaws BundleResponse, !JsonLaws SendRequest, !JsonLaws PollResponse}.
Variables (origin : string) (display : UreqError -> string).

(** The network is the relay's time and its store. *)
Definition moving_call (c : HttpCall) : mut (u64 * RelayStore) UreqError Response := fun '(now, store) =>
  let '(res, store) := served_call origin now c store in (res, (now, store)).
Definition moving : HttpAgent (u64 * RelayStore) := {| http_call := moving_call; ureq_display := display |}.
#[local] Instance moving_agent : HttpAgent (u64 * RelayStore) := moving.

Variable t : RelayTransport.
Hypothesis at_origin : trim_slashes (base_url t) = origin.

Lemma moving_fetch id now store :
  net_fetch_bundle t id (now, store) = (Ok (fetch_bundle id store).1, (now, (fetch_bundle id store).2)).
Proof.
  pose proof (net_fetch_served origin now display t at_origin id store) as Hf.
  unfold net_fetch_bundle in *. cbn [http_call moving_agent moving relay_agent served moving_call] in *.
  destruct (served_call _ _ _ _) as [res store']. destruct res as [resp|[code r|m]]; [|case_decide|];
    (done || by injection Hf as -> ->).
Qed.

Lemma moving_poll r now store :
  net_poll t r (now, store) = (Ok (poll_at r now store).1, (now, (poll_at r now store).2)).
Proof.
  pose proof (net_poll_served origin now display t at_origin r store) as Hf.
  unfold net_poll, sbind, slift, call_boxed in *.
  cbn [http_call moving_agent moving relay_agent served moving_call] in *.
  destruct (served_call _ _ _ _) as [[resp|e] store']; cbn [map_err] in *;
    (done || by injection Hf as -> ->).
Qed.

Lemma moving_send r m now store :
  sendable (send_request r m) ->
  (enqueue_at r m now store).1 = Ok tt ->
  net_send t r m (now, store) = (Ok tt, (now, (enqueue_at r m now store).2)).
Proof.
  intros Hs Hok. pose proof (net_send_served origin now display t at_origin r m store Hs) as Hf.
  rewrite Hok in Hf. cbn [map_err] in Hf. unfold net_send, sbind, slift, call_boxed in *.
  destruct (map_err net_from_json _) as [text|e]; [|done].
  cbn [http_call moving_agent moving relay_agent served moving_call] in *.
  destruct (served_call _ _ _ _) as [[resp|e] store']; cbn [map_err] in *; [|done].
  by injection Hf as ->.
Qed.
End Moving.

(** ** The polling loop *)
Section Loop.
Context `{X : X25519, Sym : SymCrypto, Ed : Ed25519, Kem : MlKem}.
Context `{!Bincode RatchetHeader, !Bincode Message, !ValueText}.
Context `{!Base64, !Base64Laws, !QueryEncoder, !QueryEncoderLaws, !Bincode PreKeyBundle, !BincodeLaws PreKeyBundle}.
Context `{!Bincode Snapshot}.
Context `{!Json PublishRequest, !Json BundleResponse, !Json SendRequest, !Json PollResponse}.
Context `{!JsonLaws PublishRequest, !JsonLaws BundleResponse, !JsonLaws SendRequest, !JsonLaws PollResponse}.
Variables (origin : string) (display : UreqError -> string).
#[local] Instance loop_agent : HttpAgent (u64 * RelayStore) := moving origin display.
Variable t : RelayTransport.
Hypothesis at_origin : trim_slashes (base_url t) = origin.

Lemma has_type_text body : has_type (text_content body) "text" = true.
Proof. reflexivity. Qed.
Lemma text_body body : default "" (as_str (value_index (text_content body) "body")) = body.
Proof. reflexivity. Qed.

Lemma handle_junk me raw (p : Peer (St := u64 * RelayStore)) :
  junk me raw -> handle_envelope me raw p = (Ok tt, p).
Proof.
  unfold junk, readable, handle_envelope. destruct (open_envelope me raw) as [o|e]; [|done].
  by destruct (message_decode (oe_payload o)).
Qed.

Lemma handle_all_junk me l l' (p : Peer (St := u64 * RelayStore)) :
  Forall (junk me) l -> for_each (l ++ l') (handle_envelope me) p = for_each l' (handle_envelope me) p.
Proof.
  intros Hl. induction Hl as [|raw l Hraw Hl IH]; [done|]. cbn [app for_each].
  by rewrite (sbind_ok _ _ _ _ _ (handle_junk me raw p Hraw)).
Qed.

(** Every call on the relay returns, sooner or later. *)
Definition answering (c : Clock) : Prop := forall i, is_Some (ck_waits c i).

(** The time once the next call returned. *)
Definition after_call (c : Clock) : Clock :=
  mkClock (ck_now c + default 0 (ck_waits c 0))%N (fun i => ck_waits c (S i)).

Lemma answering_after c : answering c -> answering (after_call c).
Proof. intros Hc i. apply (Hc (S i)). Qed.

Lemma on_net_answered {St A} (m : mut St NetError A) n c res n' :
  answering c -> m n = (res, n') -> on_net m (n, c) = (Ok res, (n', after_call c)).
Proof. intros Hc Hm. unfold on_net, after_call. destruct (Hc 0) as [ns ->]. by rewrite Hm. Qed.

Lemma expect_net_answered {St A} text (m : mut St NetError A) n c a n' :
  answering c -> m n = (Ok a, n') -> expect_net text m (n, c) = (Ok a, (n', after_call c)).
Proof. intros Hc Hm. unfold expect_net. by rewrite (sbind_ok _ _ _ _ _ (on_net_answered _ _ _ _ _ Hc Hm)). Qed.

(** The program after it showed a reply. *)
Definition replied (sender body : string) (p p' : Peer (St := u64 * RelayStore)) : Prop :=
  pr_out p' = pr_out p ++ [Reply sender body].

Lemma handle_reply me raw o m plain s' body (p : Peer (St := u64 * RelayStore)) :
  readable me raw = Some (o, m) ->
  session_decrypt (pr_draws p 0) m (pr_session p) = (Ok plain, s') ->
  value_from_slice plain = Ok (text_content body) ->
  exists p', handle_envelope me raw p = (Err Done, p') /\
    replied (b64 (abytes (oe_sender_identity_ed o))) body p p' /\ pr_net p' = pr_net p.
Proof.
  unfold readable, handle_envelope. destruct (open_envelope me raw) as [o'|e]; [|done].
  destruct (message_decode (oe_payload o')) as [m'|e]; [|done]. intros [= -> ->] Hdec Hval.
  unfold sbind at 1, decrypting. rewrite Hdec. unfold show_plain. rewrite Hval, has_type_text.
  cbn [pr_net pr_session pr_draws pr_out]. eexists. split; [reflexivity|]. by rewrite text_body.
Qed.

Lemma poll_inbox_served me ib now store c (p : Peer) :
  pr_net p = ((now, store), c) -> answering c ->
  poll_inbox me t ib p
  = for_each (poll_at ib now store).1 (handle_envelope me)
      (mkPeer ((now, (poll_at ib now store).2), after_call c) (pr_session p) (pr_draws p) (pr_out p)).
Proof.
  intros Hnet Hc.
  pose proof (on_net_answered _ _ _ _ _ Hc (moving_poll origin display t at_origin ib now store)) as Hon.
  unfold poll_inbox, sbind at 1, polling. rewrite Hnet.
  match goal with |- context [on_net ?m ?n] => replace (on_net m n) with
    (Ok (E := Ending) (Ok (E := NetError) (poll_at ib now store).1), ((now, (poll_at ib now store).2), after_call c)) end.
  done.
Qed.

(** The awaited reply is found whichever inboxes are polled before its own. *)
Lemma round_finds me ibs at_ib (sent now : u64) blob o m plain s' body store c (p : Peer) :
  awaits me ibs at_ib sent blob store -> (now <= sent + mail_ttl_secs (limits store))%N ->
  pr_net p = ((now, store), c) -> answering c ->
  readable me blob = Some (o, m) ->
  session_decrypt (pr_draws p 0) m (pr_session p) = (Ok plain, s') ->
  value_from_slice plain = Ok (text_content body) ->
  exists p', for_each ibs (poll_inbox me t) p = (Err Done, p') /\
    replied (b64 (abytes (oe_sender_identity_ed o))) body p p'.
Proof.
  intros Haw Hle Hnet Hc Hread Hdec Hval. revert store c p Haw Hle Hnet Hc Hdec.
  induction ibs as [|ib ibs IH]; intros store c p Haw Hle Hnet Hc Hdec; [by destruct Haw as [?%elem_of_nil _]|].
  cbn [for_each]. pose proof (poll_inbox_served me ib now store c p Hnet Hc) as Hp. set (c' := after_call c) in Hp.
  pose proof (answering_after c Hc : answering c') as Hc'.
  destruct (decide (ib = at_ib)) as [->|Hne].
  - destruct (poll_awaited me _ at_ib sent blob now store Haw Hle) as (early & Hearly & Hpoll).
    rewrite Hpoll, handle_all_junk in Hp by done. cbn [for_each] in Hp.
    destruct (handle_reply me blob o m plain s' body
      (mkPeer ((now, (poll_at at_ib now store).2), c') (pr_session p) (pr_draws p) (pr_out p)) Hread Hdec Hval)
      as (p' & Hh & Hrep & _).
    rewrite (sbind_err _ _ _ _ _ Hh) in Hp. rewrite (sbind_err _ _ _ _ _ Hp).
    exists p'. split; [done|exact Hrep].
  - destruct (poll_other me ib ibs at_ib sent blob now store Haw Hne) as [Hjunk Haw'].
    rewrite <-(app_nil_r (poll_at ib now store).1), handle_all_junk in Hp by done. cbn [for_each] in Hp.
    rewrite (sbind_ok _ _ _ _ _ Hp).
    destruct (poll_at_mailbox ib now store) as (_ & _ & Hlim & _).
    destruct (IH (poll_at ib now store).2 c'
      (mkPeer ((now, (poll_at ib now store).2), c') (pr_session p) (pr_draws p) (pr_out p)) Haw')
      as (p' & Hp' & Hrep); [by rewrite Hlim|done|done|exact Hdec|].
    exists p'. split; [exact Hp'|exact Hrep].
Qed.
End Loop.

(** ** The application at the other end

    What its user's device does when it looks at its mail, in the core's
    operations: poll the window of inboxes, take the first message that opens,
    decodes and makes a session, and answer it with a text that may depend on who
    wrote what. *)
Section Recipient.
Context `{X : X25519, Sym : SymCrypto, Ed : Ed25519, Kem : MlKem}.
Context `{!Bincode RatchetHeader, !Bincode Message, !ValueText}.

Definition window (id : key32) (clock : u64) : list key32 :=
  inbox_window id (wsat_sub (epoch_for_unix clock) (wrap 64 1)) (wsucc (epoch_for_unix clock)).

Fixpoint poll_all (ibs : list key32) (now : u64) (s : RelayStore) : list (list u8) * RelayStore :=
  match ibs with
  | [] => ([], s)
  | ib :: ibs =>
      let '(ms, s) := poll_at ib now s in
      let '(ms', s) := poll_all ibs now s in
      (ms ++ ms', s)
  end.

Fixpoint first_contact (fresh : StaticSecret) (blobs : list (list u8)) (bob : Account)
  : option (OpenedEnvelope * Session * list u8) :=
  match blobs with
  | [] => None
  | raw :: blobs =>
      match readable bob raw with
      | None => first_contact fresh blobs bob
      | Some (o, m) =>
          match session_respond fresh m bob with
          | (Ok (ses, pt), _) => Some (o, ses, pt)
          | (Err _, bob) => first_contact fresh blobs bob
          end
      end
  end.

(** The inbox and the envelope of the answer to what [o] brought. *)
Definition answer_to (eph : StaticSecret) (bob : Account) (clock : u64) (o : OpenedEnvelope) (wire : list u8)
  : key32 * list u8 :=
  (inbox_id (oe_sender_identity_ed o) (epoch_for_unix clock),
   seal_envelope eph bob (oe_sender_identity_dh o) wire).

Definition app_answers (bob : Account) (fresh eph : StaticSecret) (reply : key32 -> list u8 -> string)
    (clock now : u64) (s : RelayStore) : RelayStore :=
  let '(blobs, s) := poll_all (window (identity_public bob) clock) now s in
  match first_contact fresh blobs bob with
  | None => s
  | Some (o, ses, pt) =>
      let content := value_text (text_content (reply (oe_sender_identity_ed o) pt)) in
      match session_encrypt (bytes_of_string content) ses with
      | (Ok m, _) =>
          let '(ib, blob) := answer_to eph bob clock o (message_encode m) in
          (enqueue_at ib blob now s).2
      | (Err _, _) => s
      end
  end.

Lemma poll_all_mailbox ibs now s :
  limits (poll_all ibs now s).2 = limits s /\
  (forall ib, ib ∈ ibs -> mailbox (poll_all ibs now s).2 ib = []) /\
  (forall ib, ib ∉ ibs -> mailbox (poll_all ibs now s).2 ib = mailbox s ib).
Proof.
  revert s. induction ibs as [|ib ibs IH]; intros s; cbn [poll_all].
  { split_and!; [done| |done]. by intros ib ?%elem_of_nil. }
  destruct (poll_at_mailbox ib now s) as (_ & Hempty & Hlim & Ho).
  destruct (poll_at ib now s) as [ms s1] eqn:E. cbn [snd] in *.
  destruct (IH s1) as (Hlim' & Hin & Hout). destruct (poll_all ibs now s1) as [ms' s2]. cbn [snd] in *.
  split_and!; [congruence| |].
  - intros ib' Hib. destruct (decide (ib' ∈ ibs)) as [?|Hn]; [by apply Hin|].
    apply elem_of_cons in Hib as [->|?]; [by rewrite Hout|done].
  - intros ib' [Hne Hn]%not_elem_of_cons. by rewrite Hout, Ho.
Qed.

Lemma poll_all_awaited me ibs at_ib (sent : u64) blob (now : u64) s :
  awaits me ibs at_ib sent blob s -> (now <= sent + mail_ttl_secs (limits s))%N ->
  exists early late, (poll_all ibs now s).1 = early ++ blob :: late /\ Forall (junk me) early.
Proof.
  revert s. induction ibs as [|ib ibs IH]; intros s Haw Hle; [by destruct Haw as [?%elem_of_nil _]|].
  cbn [poll_all]. destruct (decide (ib = at_ib)) as [->|Hne].
  - destruct (poll_awaited me _ at_ib sent blob now s Haw Hle) as (early & Hearly & Hpoll).
    destruct (poll_at at_ib now s) as [ms s1]. destruct (poll_all ibs now s1) as [late s2]. cbn [fst] in *.
    exists early, late. split; [|done]. by rewrite Hpoll, <-app_assoc.
  - destruct (poll_other me ib ibs at_ib sent blob now s Haw Hne) as [Hjunk Haw'].
    destruct (poll_at_mailbox ib now s) as (_ & _ & Hlim & _).
    destruct (poll_at ib now s) as [ms s1]. cbn [fst snd] in *.
    destruct (IH s1 Haw') as (early & late & Hrest & Hearly); [by rewrite Hlim|].
    destruct (poll_all ibs now s1) as [ms' s2]. cbn [fst] in *.
    exists (ms ++ early), late. split; [by rewrite Hrest, <-app_assoc|by apply Forall_app].
Qed.

Lemma first_contact_found fresh bob early blob late o m ses pt bob' :
  Forall (junk bob) early -> readable bob blob = Some (o, m) ->
  session_respond fresh m bob = (Ok (ses, pt), bob') ->
  first_contact fresh (early ++ blob :: late) bob = Some (o, ses, pt).
Proof.
  intros He Hread Hresp. induction He as [|raw early Hraw He IH]; cbn [app first_contact].
  - by rewrite Hread, Hresp.
  - by rewrite Hraw.
Qed.

Context `{!X25519Laws, !SymCryptoLaws, !BincodeLaws Message}.

Lemma readable_sealed eph sender recipient m :
  (blen (message_encode m) < 2 ^ 32)%N ->
  readable recipient (seal_envelope eph sender (identity_dh_public recipient) (message_encode m))
  = Some (mkOpened (identity_public sender) (identity_dh_public sender) (message_encode m), m).
Proof.
  intros Hlen. unfold readable. rewrite open_seal_envelope, take_short by done.
  cbn [oe_payload]. by rewrite message_decode_encode.
Qed.

Lemma in_window id (clock sent : u64) :
  (clock <= sent + INBOX_EPOCH_SECONDS)%N -> (sent <= clock + INBOX_EPOCH_SECONDS)%N ->
  (clock + INBOX_EPOCH_SECONDS < 2 ^ 64)%N -> inbox_id id (epoch_for_unix sent) ∈ window id clock.
Proof. intros. by apply (window_around_covers id clock clock sent). Qed.
End Recipient.

(** ** The exchange *)

(** serde_json gives back the content it wrote. *)
Class ContentLaws `{ValueText} : Prop := {
  content_roundtrip text :
    utf8_valid text = true ->
    value_from_slice (bytes_of_string (value_text (text_content text))) = Ok (text_content text)
}.

Section Exchange.
Context `{X : X25519, Sym : SymCrypto, Ed : Ed25519, Kem : MlKem}.
Context `{!X25519Laws, !SymCryptoLaws, !Ed25519Laws, !MlKemLaws}.
Context `{!Bincode RatchetHeader, !Bincode Message, !BincodeLaws Message, !ValueText, !ContentLaws}.
Context `{!Base64, !Base64Laws, !QueryEncoder, !QueryEncoderLaws, !Bincode PreKeyBundle, !BincodeLaws PreKeyBundle}.
Context `{!Bincode Snapshot}.
Context `{!Json PublishRequest, !Json BundleResponse, !Json SendRequest, !Json PollResponse}.
Context `{!JsonLaws PublishRequest, !JsonLaws BundleResponse, !JsonLaws SendRequest, !JsonLaws PollResponse}.
Variables (origin : string) (display : UreqError -> string).
#[local] Instance exchange_agent : HttpAgent (u64 * RelayStore) := moving origin display.

Definition content (text : string) : list u8 := bytes_of_string (value_text (text_content text)).

(** The relay hands out [b] for [bob], a bundle of his. *)
Record published (bob : Account) (b : PreKeyBundle) (store : RelayStore) : Prop := mkPublished {
  pd_fetched : (fetch_bundle (identity_public bob) store).1 = Some b;
  pd_bundle : bundle_of bob b;
  pd_identity : pb_identity_ed b = identity_public bob;
  pd_verifies : verify_bundle b = Ok tt
}.

(** The relay takes the message [wire] in the envelope [blob]. *)
Definition mailable (ib : key32) (wire blob : list u8) (now : u64) (store : RelayStore) : Prop :=
  (blen wire < 2 ^ 32)%N /\ room_for ib blob now store.

Lemma room_for_emptier r m now s s' :
  limits s' = limits s -> mailbox s' r = mailbox s r \/ mailbox s' r = [] ->
  room_for r m now s -> room_for r m now s'.
Proof.
  intros Hlim Hbox [Hlen Hcaps]. unfold room_for. rewrite Hlim. split; [done|].
  destruct Hbox as [->| ->]; [done|]. unfold within_caps in *.
  rewrite length_app, total_bytes_app in Hcaps. cbn [app length total_bytes sum_list_with] in *.
  rewrite andb_true_iff, !Nat.leb_le in *. lia.
Qed.

Lemma connect_sends bob b store d text u0 r0 url sa m sa' :
  trim_slashes url = origin -> published bob b store ->
  session_initiate (dw_ephemeral d) (dw_seed d) (dw_ratchet d) (dw_account d) b = Ok sa ->
  session_encrypt (content text) sa = (Ok m, sa') ->
  let ib := inbox_id (identity_public bob) (epoch_for_unix u0) in
  let blob := seal_envelope (dw_envelope d) (dw_account d) (pb_identity_dh b) (message_encode m) in
  mailable ib (message_encode m) blob r0 store -> sendable (send_request ib blob) ->
  forall c, answering c -> exists lines,
    connect (identity_public bob) text (Some u0) (direct url) d ((r0, store), c)
    = (Ok (sa', lines),
       ((r0, (enqueue_at ib blob r0 (fetch_bundle (identity_public bob) store).2).2), after_call (after_call c))).
Proof.
  intros Hurl [Hfetch Hb Hed Hv] Hinit Hsend ib blob [Hlen Hroom] Hsendable c Hc.
  destruct (fetch_bundle_mail (identity_public bob) store ib) as [Hbox Hlim].
  pose proof (moving_fetch origin display (direct url) Hurl (identity_public bob) r0 store) as Hf.
  rewrite Hfetch in Hf.
  assert (room_for ib blob r0 (fetch_bundle (identity_public bob) store).2) as Hroom1
    by (apply (room_for_emptier _ _ _ store); [done|by left|done]).
  pose proof (moving_send origin display (direct url) Hurl ib blob r0 _ Hsendable (proj1 (enqueue_room _ _ _ _ Hroom1)))
    as Hs.
  unfold connect. rewrite (sbind_ok _ _ _ _ _ (expect_net_answered "relay reachable" _ _ _ _ _ Hc Hf)).
  unfold sbind at 1, slift at 1. cbn [ok_or]. unfold sbind at 1, slift at 1. rewrite Hinit. cbn [expect map_err].
  fold (content text). rewrite Hsend. unfold sbind at 1, slift at 1. cbn [expect map_err].
  unfold sbind at 1, slift at 1. cbn [unix_now ok_or]. fold ib blob.
  rewrite (sbind_ok _ _ _ _ _ (expect_net_answered "send" _ _ _ _ _ (answering_after c Hc) Hs)).
  by eexists.
Qed.

(** What the application leaves in the relay's store: its answer, last in the
    inbox it picked, and nothing else in the inboxes [ibs] that was not there. *)
Lemma app_answers_awaits bob me fresh eph reply (clock now sent : u64) ibs at_ib blob o m ses pt bob' m' ses' s :
  awaits bob (window (identity_public bob) clock) at_ib sent blob s ->
  (now <= sent + mail_ttl_secs (limits s))%N ->
  readable bob blob = Some (o, m) -> session_respond fresh m bob = (Ok (ses, pt), bob') ->
  session_encrypt (content (reply (oe_sender_identity_ed o) pt)) ses = (Ok m', ses') ->
  (forall ib q, ib ∈ ibs -> ib <> at_ib -> q ∈ mailbox s ib -> junk me (qm_bytes q)) ->
  let ans := answer_to eph bob clock o (message_encode m') in
  ans.1 ∈ ibs -> room_for ans.1 ans.2 now (poll_all (window (identity_public bob) clock) now s).2 ->
  limits (app_answers bob fresh eph reply clock now s) = limits s /\
  awaits me ibs ans.1 now ans.2 (app_answers bob fresh eph reply clock now s).
Proof.
  intros Haw Hle Hread Hresp Henc Hjunk ans Hans Hroom.
  destruct (poll_all_awaited bob _ _ _ _ now s Haw Hle) as (early & late & Hpoll & Hearly).
  destruct (poll_all_mailbox (window (identity_public bob) clock) now s) as (Hlim & Hin & Hout).
  unfold app_answers. destruct (poll_all _ now s) as [blobs s1]. cbn [fst snd] in *. subst blobs.
  rewrite (first_contact_found _ _ _ _ _ _ _ _ _ _ Hearly Hread Hresp). fold (content (reply (oe_sender_identity_ed o) pt)).
  rewrite Henc. fold ans. rewrite (surjective_pairing ans) at 1. cbv beta iota zeta.
  destruct (enqueue_room _ _ _ _ Hroom) as (_ & _ & Hlim' & _).
  split; [by destruct ans; rewrite Hlim', Hlim|].
  destruct ans as [ib ab]. cbn [fst snd] in *. apply enqueue_awaits; [|done|done].
  intros ib' q Hib Hq. destruct (decide (ib' ∈ window (identity_public bob) clock)) as [Hw|Hw].
  - rewrite Hin in Hq by done. by apply elem_of_nil in Hq.
  - rewrite Hout in Hq by done. apply (Hjunk ib'); [done| |done]. intros ->. by apply Hw, Haw.
Qed.

(** The store once a message was left in it after a fetch. *)
Lemma left_in_inbox me ibs ib blob r0 id store :
  room_for ib blob r0 store -> junk_in me ibs store -> ib ∈ ibs ->
  let s := (enqueue_at ib blob r0 (fetch_bundle id store).2).2 in
  limits s = limits store /\ (forall r, r <> ib -> mailbox s r = mailbox store r) /\
  awaits me ibs ib r0 blob s.
Proof.
  intros Hroom Hjunk Hin s. set (s1 := (fetch_bundle id store).2) in *.
  assert (forall r, mailbox s1 r = mailbox store r /\ limits s1 = limits store) as Hs1
    by (intros r; apply fetch_bundle_mail).
  assert (room_for ib blob r0 s1) as Hroom1.
  { apply (room_for_emptier _ _ _ store); [apply (Hs1 ib)|left; apply Hs1|done]. }
  destruct (enqueue_room _ _ _ _ Hroom1) as (_ & _ & Hlim & Ho). split_and!.
  - unfold s. rewrite Hlim. apply (Hs1 ib).
  - intros r Hne. unfold s. rewrite Ho by done. apply Hs1.
  - apply enqueue_awaits; [|done|done]. intros ib' q Hib. rewrite (proj1 (Hs1 ib')). by apply Hjunk.
Qed.

(** Polling a window only makes room. *)
Lemma room_after_poll ibs ib r m now now' s store :
  limits s = limits store -> (forall r, r <> ib -> mailbox s r = mailbox store r) -> ib ∈ ibs ->
  room_for r m now store -> room_for r m now (poll_all ibs now' s).2.
Proof.
  intros Hlim Ho Hib. destruct (poll_all_mailbox ibs now' s) as (Hl & Hin & Hout).
  apply room_for_emptier; [by rewrite Hl|].
  destruct (decide (r ∈ ibs)) as [Hw|Hw]; [right; by apply Hin|left].
  rewrite Hout, Ho; [done| |done]. by intros ->.
Qed.

(** The clocks: what the sender's reads when it writes, the relay's when it gets
    the message, the recipient's and the relay's at the answer, the sender's and
    the relay's at the next poll. Users' clocks that matter to each other are at
    most one day apart, and nothing waits longer than the time to live. *)
Record clocks_near (ttl u0 r0 ub r1 u1 r2 : u64) : Prop := mkClocks {
  cn_there : (ub <= u0 + INBOX_EPOCH_SECONDS /\ u0 <= ub + INBOX_EPOCH_SECONDS)%N;
  cn_back : (u1 <= ub + INBOX_EPOCH_SECONDS /\ ub <= u1 + INBOX_EPOCH_SECONDS)%N;
  cn_far : (ub + INBOX_EPOCH_SECONDS < 2 ^ 64 /\ u1 + INBOX_EPOCH_SECONDS < 2 ^ 64)%N;
  cn_kept : (r1 <= r0 + ttl /\ r2 <= r1 + ttl)%N
}.

(** C2: the whole exchange, from the command line to the printed reply: the
    program reads its arguments, fetches the recipient's bundle, opens a session,
    seals its typed message to the recipient and leaves it in the recipient's
    inbox of the day; the recipient's device, with a clock at most one day off,
    finds it in its window among any mail there that is not a message sealed to it,
    learns from the envelope who
    wrote and from the session what, and leaves a sealed answer in the writer's
    inbox; the program's next round of polling, if its first turn starts in time
    and the relay's answers come, finds the answer among any mail there that is not
    a message sealed to it, prints who wrote and what, and ends. The answer is any
    function of the sender and plaintext the recipient saw, so the line printed
    shows that both were exact. Every step crosses the client, HTTP, the relay's
    handler and its store. *)
Theorem demo_peer_round_trip args url id64 text secs d bob b store fresh eph reply
    (u0 r0 ub r1 u1 r2 : u64) last c lag sleep rest :
  let me := dw_account d in
  let answer := reply (identity_public me) (content text) in
  let ib := inbox_id (identity_public bob) (epoch_for_unix u0) in
  let back := inbox_id (identity_public me) (epoch_for_unix ub) in
  parse_peer_args args = Ok (url, id64, text, secs) ->
  decode_identity id64 = Ok (identity_public bob) ->
  trim_slashes url = origin ->
  published bob b store ->
  is_Some (kem_encapsulate (encapsulation_key (kyber_decap (kyber bob))) (dw_seed d)) ->
  public_of fresh <> public_of (signed_prekey bob) ->
  utf8_valid answer = true ->
  junk_in bob (window (identity_public bob) ub) store ->
  junk_in me (window (identity_public me) u1) store ->
  clocks_near (mail_ttl_secs (limits store)) u0 r0 ub r1 u1 r2 ->
  answering c -> is_Some (deadline_of last (ck_now (after_call (after_call c))) secs) -> (lag < secs * 1000000000)%N ->
  (forall sa m sa', session_initiate (dw_ephemeral d) (dw_seed d) (dw_ratchet d) me b = Ok sa ->
     session_encrypt (content text) sa = (Ok m, sa') ->
     let blob := seal_envelope (dw_envelope d) me (pb_identity_dh b) (message_encode m) in
     mailable ib (message_encode m) blob r0 store /\ sendable (send_request ib blob) /\
     forall sb bob' m' sb', session_respond fresh m bob = (Ok (sb, content text), bob') ->
       session_encrypt (content answer) sb = (Ok m', sb') ->
       mailable back (message_encode m') (seal_envelope eph bob (identity_dh_public me) (message_encode m')) r1 store) ->
  exists net lines,
    peer_main args d (Some u0) last
      (mkTurn lag sleep (Some u1) (fun '(_, s) => (r2, app_answers bob fresh eph reply ub r1 s)) :: rest)
      ((r0, store), c)
    = (Done, (net, lines ++ [Reply (b64 (abytes (identity_public bob))) answer])).
Proof.
  intros me answer ib back Hargs Hid Hurl Hpub Hkem Hfresh Hutf Hjb Hjm [[] [] [] []] Hc [dl Hdl] Hi Hmail.
  pose proof Hpub as [_ Hb Hed Hv].
  destruct (initiate_total (dw_ephemeral d) (dw_seed d) me bob b Hb Hkem) as (root & hs & Hhs).
  assert (exists sa, session_initiate (dw_ephemeral d) (dw_seed d) (dw_ratchet d) me b = Ok sa) as [sa Hinit].
  { unfold session_initiate. rewrite Hv, Hhs. by eexists. }
  destruct (first_exchange _ _ _ fresh _ _ _ _ (content text) Hb Hed Hinit Hfresh)
    as (m & sa' & sb & Hsend & Hresp & _ & _ & Hreply).
  destruct (Hreply (content answer)) as (m' & sb' & Hback & Hopen).
  destruct (Hmail sa m sa' Hinit Hsend) as (Hfit & Hsendable & Hfit').
  specialize (Hfit' _ _ _ _ Hresp Hback).
  destruct (connect_sends bob b store d text u0 r0 url sa m sa' Hurl Hpub Hinit Hsend Hfit Hsendable c Hc)
    as [lines Hconn].
  pose proof (answering_after _ (answering_after c Hc)) as Hc'.
  revert Hc' Hdl Hconn. generalize (after_call (after_call c)). intros c' Hc' Hdl Hconn.
  assert (pb_identity_dh b = identity_dh_public bob) as Hdh by apply Hb.
  fold ib in Hconn. rewrite Hdh in Hconn, Hfit. fold me in Hconn.
  set (blob := seal_envelope _ me _ _) in *.
  destruct (left_in_inbox bob (window (identity_public bob) ub) ib blob r0 (identity_public bob) store
    (proj2 Hfit) Hjb ltac:(by apply in_window)) as (Hl2 & Ho2 & Haw).
  set (s2 := (enqueue_at ib blob r0 _).2) in *.
  destruct (app_answers_awaits bob me fresh eph reply ub r1 r0 (window (identity_public me) u1) ib blob
    _ m sb (content text) _ m' sb' s2 Haw ltac:(by rewrite Hl2) (readable_sealed _ _ _ _ (proj1 Hfit)) Hresp Hback)
    as [Hl3 Haw3].
  { intros ib' q Hib Hne. rewrite Ho2 by done. by apply Hjm. }
  { by apply in_window. }
  { apply (room_after_poll _ ib _ _ _ _ _ store); [done|done|apply Haw|apply Hfit']. }
  unfold peer_main. rewrite Hargs. cbn [rbind]. rewrite Hid. cbn [rbind]. rewrite Hconn. cbv zeta.
  cbn [pr_net snd]. rewrite Hdl.
  cbn [poll_loop before_turn asleep passes tn_lag tn_sleep tn_unix tn_world pr_net pr_session pr_draws pr_out fst snd ck_now].
  unfold deadline_of in Hdl. case_decide as Hlast; [injection Hdl as <-|done]. rewrite decide_True by lia.
  destruct (Hopen (dw_replies d 0)) as [sa'' Hdec].
  destruct (round_finds origin display (direct url) Hurl me _ _ r1 r2 _ _ _ _ sa'' answer _
    (passes sleep (passes lag c'))
    (mkPeer ((r2, app_answers bob fresh eph reply ub r1 s2), passes sleep (passes lag c')) sa' (dw_replies d)
      (lines ++ [Polling secs]))
    Haw3 ltac:(by rewrite Hl3, Hl2) eq_refl Hc' (readable_sealed _ _ _ _ (proj1 Hfit')) Hdec
    (content_roundtrip answer Hutf)) as (p' & Hround & Hout).
  unfold poll_round, sbind at 1, slift at 1. cbn [unix_now ok_or].
  fold (window (identity_public me) u1).
  match goal with |- context [for_each ?l ?f ?q] => replace (for_each l f q) with (Err (A := unit) Done, p') end.
  eexists _, _. by rewrite Hout.
Qed.
End Exchange.

(** ** How it ends *)

(** Every call on the relay returns within [limit]. *)
Definition answers_within (limit : N) (c : Clock) : Prop :=
  forall i, exists w, ck_waits c i = Some w /\ (w <= limit)%N.

(** The time [c'] is reached from [c] over at most [k] calls. *)
Definition later (k : nat) (c c' : Clock) : Prop :=
  exists j, j <= k /\ (forall i, ck_waits c' i = ck_waits c (j + i)) /\ (ck_now c <= ck_now c')%N /\
    forall limit, answers_within limit c -> (ck_now c' <= ck_now c + N.of_nat k * limit)%N.

Lemma later_refl c : later 0 c c.
Proof. exists 0. split_and!; [lia|done|lia|lia]. Qed.

Lemma answers_later limit k c c' : answers_within limit c -> later k c c' -> answers_within limit c'.
Proof. intros Hc (j & _ & Hw & _) i. rewrite Hw. apply Hc. Qed.

Lemma later_trans j k c c1 c2 : later j c c1 -> later k c1 c2 -> later (j + k) c c2.
Proof.
  intros H1 H2. pose proof H1 as (i1 & Hi1 & Hw1 & Hle1 & Hb1). destruct H2 as (i2 & Hi2 & Hw2 & Hle2 & Hb2).
  exists (i1 + i2). split_and!; [lia| |lia|].
  - intros i. by rewrite Hw2, Hw1, Nat.add_assoc.
  - intros limit Hc. specialize (Hb1 _ Hc). specialize (Hb2 _ (answers_later _ _ _ _ Hc H1)). lia.
Qed.

Lemma later_mono j k c c' : j <= k -> later j c c' -> later k c c'.
Proof.
  intros Hjk (i & Hi & Hw & Hle & Hb). exists i. split_and!; [lia|done|done|].
  intros limit Hc. specialize (Hb _ Hc). nia.
Qed.

Section Ends.
Context `{X : X25519, Sym : SymCrypto, Ed : Ed25519, Kem : MlKem}.
Context `{!Bincode RatchetHeader, !Bincode Message, !Bincode PreKeyBundle}.
Context {St : Type} `{!HttpAgent St, !Base64, !ValueText}.
Context `{!Json PublishRequest, !Json BundleResponse, !Json SendRequest, !Json PollResponse}.

Lemma later_call {A} (m : mut St NetError A) n c r n' c' :
  on_net m (n, c) = (r, (n', c')) ->
  later 1 c c' /\ forall e, r = Err e -> e = Blocked /\ ck_waits c' 0 = None.
Proof.
  unfold on_net. destruct (ck_waits c 0) as [ns|] eqn:Hw.
  - destruct (m n) as [res n1]. intros [= <- <- <-]. split; [|done]. exists 1. cbn [ck_now ck_waits].
    split_and!; [lia|done|lia|]. intros limit Hc. destruct (Hc 0) as (w & Hw0 & ?). simplify_eq. lia.
  - intros [= <- <- <-]. split; [by apply (later_mono 0), later_refl; lia|]. by intros e [= <-].
Qed.

Definition shows_reply (l : Line) : Prop :=
  match l with Reply _ _ | RawReply _ _ => True | _ => False end.

Definition time_of (p : Peer (St := St)) : Clock := (pr_net p).2.

(** Leaving the loop from within: with a reply on the last line, by the one
    panic of the body, or never. *)
Definition left_with (e : Ending) (p : Peer (St := St)) : Prop :=
  (e = Done /\ exists l, last (pr_out p) = Some l /\ shows_reply l) \/
  e = Panicked "system clock before 1970" \/
  (e = Blocked /\ ck_waits (time_of p) 0 = None).

(** A part of the body, with at most [k] calls. *)
Definition leaves_well (k : nat) (m : mut (Peer (St := St)) Ending unit) : Prop :=
  forall p r p', m p = (r, p') ->
    later k (time_of p) (time_of p') /\ forall e, r = Err e -> left_with e p'.

Lemma leaves_for_each {A} k (xs : list A) body :
  (forall x, leaves_well k (body x)) -> leaves_well (length xs * k) (for_each xs body).
Proof.
  intros Hbody. induction xs as [|x xs IH]; intros p r p'; cbn [for_each length Nat.mul].
  { intros [= <- <-]. split; [apply later_refl|done]. }
  unfold sbind. destruct (body x p) as [[[]|e'] p1] eqn:Hx; apply Hbody in Hx as [Hl He].
  - intros Hxs. apply IH in Hxs as [Hl' He']. split; [by eapply later_trans|done].
  - intros [= <- <-]. split; [by apply (later_mono k); [lia|]|]. intros e [= <-]. by apply He.
Qed.

Lemma leaves_say_and_stop l : shows_reply l -> leaves_well 0 (say l ;! sthrow Done).
Proof.
  intros Hl p r p'. cbn. intros [= <- <-]. split; [apply later_refl|]. intros e [= <-]. left. split; [done|].
  exists l. split; [|done]. cbn [pr_out]. by rewrite last_snoc.
Qed.

Lemma leaves_quietly (m : mut (Peer (St := St)) Ending unit) :
  (forall p, exists p', m p = (Ok tt, p') /\ pr_net p' = pr_net p) -> leaves_well 0 m.
Proof.
  intros Hm p r p' Hp. destruct (Hm p) as (p1 & Hp1 & Hnet). rewrite Hp1 in Hp. injection Hp as <- <-.
  split; [|done]. unfold time_of. rewrite Hnet. apply later_refl.
Qed.

Lemma leaves_show sender plain : leaves_well 0 (show_plain sender plain).
Proof.
  unfold show_plain. destruct (value_from_slice plain) as [v|]; [|by apply leaves_say_and_stop].
  destruct (has_type v "text"); [by apply leaves_say_and_stop|].
  destruct (has_type v "timer"); [|by apply leaves_say_and_stop].
  apply leaves_quietly. intros p. by eexists.
Qed.

Lemma leaves_handle me raw : leaves_well 0 (handle_envelope me raw).
Proof.
  unfold handle_envelope. destruct (open_envelope me raw) as [o|]; [|apply leaves_quietly; by eexists].
  destruct (message_decode (oe_payload o)) as [m|]; [|apply leaves_quietly; by eexists].
  intros p r p'. unfold sbind at 1, decrypting. destruct (session_decrypt _ m _) as [[plain|e'] s].
  - intros Hs. by apply leaves_show in Hs.
  - intros [= <- <-]. split; [apply later_refl|done].
Qed.

Lemma leaves_inbox me relay ib : leaves_well 1 (poll_inbox me relay ib).
Proof.
  intros p r p'. unfold poll_inbox, sbind at 1, polling.
  destruct (on_net (net_poll relay ib) (pr_net p)) as [res [n c]] eqn:Hon.
  rewrite (surjective_pairing (pr_net p)) in Hon. apply later_call in Hon as [Hl He].
  destruct res as [[ms|e']|e'].
  - intros Hms. apply (leaves_for_each 0) in Hms as [Hl' He']; [|intros raw; apply leaves_handle].
    split; [|done]. rewrite Nat.mul_0_r in Hl'. apply (later_trans 1 0 _ c); [exact Hl|exact Hl'].
  - intros [= <- <-]. split; [exact Hl|done].
  - intros [= <- <-]. split; [exact Hl|]. intros e [= <-]. right; right. by apply He.
Qed.

(** The epochs of yesterday, today and tomorrow. *)
Lemma window_three me now :
  length (inbox_window (identity_public me) (wsat_sub (epoch_for_unix now) (wrap 64 1))
            (wsucc (epoch_for_unix now))) <= 3.
Proof.
  unfold inbox_window, epoch_range. destruct (N.ltb_spec (wsucc (epoch_for_unix now))
    (wsat_sub (epoch_for_unix now) (wrap 64 1))) as [|Hle]; [cbn; lia|].
  rewrite !length_map, length_seq.
  assert (wval (wsucc (epoch_for_unix now)) <= epoch_for_unix now + 1)%N as H1.
  { rewrite wval_wsucc; [lia|]. rewrite epoch_for_unix_val. pose proof (word_lt now).
    apply (N.le_lt_trans _ (2 ^ 64 / INBOX_EPOCH_SECONDS + 1)); [|reflexivity].
    apply N.add_le_mono_r, N.Div0.div_le_mono. lia. }
  rewrite wval_wsat_sub in *. change (wval (wrap 64 1)) with 1%N in *. lia.
Qed.

Lemma leaves_round me relay reading : leaves_well 3 (poll_round me relay reading).
Proof.
  intros p r p'. unfold poll_round, sbind at 1, slift at 1. destruct reading as [now|]; cbn [unix_now ok_or].
  - intros Hr. apply (leaves_for_each 1) in Hr as [Hl He]; [|intros ib; apply leaves_inbox].
    split; [|done]. eapply later_mono; [|exact Hl]. pose proof (window_three me now). lia.
  - intros [= <- <-]. split; [by apply (later_mono 0), later_refl; lia|]. intros e [= <-]. by right; left.
Qed.

(** [sleep] sleeps at least as long as it is asked to. *)
Definition paced (tn : Turn (St := St)) : Prop := (SLEEP_NANOS <= tn_sleep tn)%N.
(** The program's own work takes at most [work] before each look at the clock,
    and [sleep] oversleeps by as much. *)
Definition busy (work : N) (tn : Turn (St := St)) : Prop :=
  (tn_lag tn <= work /\ tn_sleep tn <= SLEEP_NANOS + work)%N.

(** How the loop ends, and when. *)
Definition loop_end (dl : Instant) (secs : u64) (turns : list Turn) (p : Peer) (e : Ending) (p' : Peer) : Prop :=
  (left_with e p' \/ (e = ExitCode 2 /\ last (pr_out p') = Some (NoReply secs) /\ (dl <= ck_now (time_of p'))%N)) /\
  (exists j, forall i, ck_waits (time_of p') i = ck_waits (time_of p) (j + i)) /\
  forall limit work, let late := (SLEEP_NANOS + work + 3 * limit)%N in
    answers_within limit (time_of p) -> Forall (busy work) turns ->
    (ck_now (time_of p) <= dl + late -> ck_now (time_of p') <= dl + late + work)%N.

Lemma poll_loop_ends me relay dl secs turns p :
  Forall paced turns -> (dl <= ck_now (time_of p) + SLEEP_NANOS * (N.of_nat (length turns) - 1))%N -> 0 < length turns ->
  let '(e, p') := poll_loop me relay dl secs turns p in loop_end dl secs turns p e p'.
Proof.
  intros Hpaced. revert p. induction Hpaced as [|tn turns Htn Hpaced IH]; intros p Hdl Hlen; [cbn in Hlen; lia|].
  cbn [poll_loop]. set (p0 := before_turn tn p).
  assert (ck_now (time_of p0) = ck_now (time_of p) + tn_lag tn)%N as Hn0 by done.
  fold (time_of p0). case_decide as Hlt.
  - assert (ck_now (time_of (asleep tn p0)) = ck_now (time_of p0) + tn_sleep tn)%N as Hn1 by done.
    destruct (poll_round me relay (tn_unix tn) _) as [r p1] eqn:Hr. apply leaves_round in Hr as [Hl He].
    pose proof Hl as (j & _ & Hw & Hle & Hb). unfold paced in Htn.
    assert (forall limit work, answers_within limit (time_of p) -> Forall (busy work) (tn :: turns) ->
      (ck_now (time_of p1) <= dl + (SLEEP_NANOS + work + 3 * limit))%N) as Hmid.
    { intros limit work Hc [[? ?] _]%Forall_cons. specialize (Hb limit Hc). lia. }
    destruct r as [[]|e].
    + destruct turns as [|tn' turns]; [unfold SLEEP_NANOS in *; cbn [length] in Hdl; lia|].
      specialize (IH p1). destruct (poll_loop _ _ _ _ _ p1) as [e p2].
      destruct IH as (Hend & (j' & Hw') & Hb'); [unfold SLEEP_NANOS in *; cbn [length] in *; lia|cbn; lia|]. split_and!; [done| |].
      * exists (j + j'). intros i. rewrite Hw', Hw. by rewrite Nat.add_assoc.
      * intros limit work late Hc Hbusy _. apply Hb'; [by eapply (answers_later limit), Hl| |by apply Hmid].
        by apply Forall_cons in Hbusy as [_ ?].
    + split_and!; [left; by apply He|by exists j|]. intros limit work late Hc Hbusy _.
      specialize (Hmid _ _ Hc Hbusy). unfold late. lia.
  - split_and!; [right; split_and!; [done|cbn; by rewrite last_snoc|cbn in *; lia]|by exists 0|].
    intros limit work late Hc [[? ?] _]%Forall_cons Hp. cbn in *. lia.
Qed.

Definition panics : list string :=
  ["relay url"; "their identity (base64)"; "message text"; "valid base64"; "identity must be 32 bytes";
   "relay reachable"; "no bundle published for that identity"; "bundle verified + session opened"; "encrypt";
   "send"; "system clock before 1970"; "overflow when adding duration to instant"]%string.

Definition panicked (e : Ending) : Prop := exists text, e = Panicked text /\ text ∈ panics.

Lemma panicked_in text : bool_decide (text ∈ panics) = true -> panicked (Panicked text).
Proof. intros Hin%bool_decide_eq_true. by exists text. Qed.

(** A part of [connect] with at most [k] calls. *)
Definition connects (k : nat) {A} (m : mut (St * Clock) Ending A) : Prop :=
  forall n r n', m n = (r, n') ->
    later k n.2 n'.2 /\ forall e, r = Err e -> panicked e \/ (e = Blocked /\ ck_waits n'.2 0 = None).

Lemma connects_bind {A B} j k (m : mut (St * Clock) Ending A) (f : A -> mut (St * Clock) Ending B) :
  connects j m -> (forall a, connects k (f a)) -> connects (j + k) (sbind m f).
Proof.
  intros Hm Hf n r n'. unfold sbind. destruct (m n) as [[a|e] n1] eqn:H1; apply Hm in H1 as [Hl He].
  - intros H2. apply Hf in H2 as [Hl' He']. split; [by eapply later_trans|done].
  - intros [= <- <-]. split; [by apply (later_mono j); [lia|]|]. intros e' [= <-]. by apply He.
Qed.

Lemma connects_lift {A} (r : result Ending A) : (forall e, r = Err e -> panicked e) -> connects 0 (slift r).
Proof. intros Hr n res n' [= <- <-]. split; [apply later_refl|]. intros e He. left. by apply Hr. Qed.

Lemma connects_expect {A E} text (r : result E A) :
  bool_decide (text ∈ panics) = true -> connects 0 (slift (expect text r)).
Proof. intros Hin. apply connects_lift. destruct r; cbn; [done|]. intros ? [= <-]. by apply panicked_in. Qed.

Lemma connects_net {A} text (m : mut St NetError A) :
  bool_decide (text ∈ panics) = true -> connects 1 (expect_net text m).
Proof.
  intros Hin. apply (connects_bind 1 0); [|intros a; by apply connects_expect].
  intros [n c] r [n' c'] Hon. apply later_call in Hon as [Hl He]. split; [done|]. intros e ->. right. by apply He.
Qed.

Lemma connects_connect their_id text reading relay d : connects 2 (connect (St := St) their_id text reading relay d).
Proof.
  unfold connect. apply (connects_bind 1 1); [by apply connects_net|]. intros fetched.
  apply (connects_bind 0 1). { apply connects_lift. destruct fetched; cbn; [done|]. intros ? [= <-]. by apply panicked_in. }
  intros b. apply (connects_bind 0 1); [by apply connects_expect|]. intros ses.
  destruct (session_encrypt _ ses) as [sealed ses']. apply (connects_bind 0 1); [by apply connects_expect|]. intros m.
  apply (connects_bind 0 1). { apply connects_lift. destruct reading; cbn; [done|]. intros ? [= <-]. by apply panicked_in. }
  intros now. apply (connects_bind 1 0); [by apply connects_net|]. intros []. by apply connects_lift.
Qed.

(** The seconds asked for on the command line. *)
Definition asked (args : list string) : N :=
  match parse_peer_args args with Ok (_, _, _, secs) => wval secs | Err _ => 0%N end.

(** The endings of a run from [c] to [c'], with what it printed. *)
Definition ended (args : list string) (c : Clock) (e : Ending) (c' : Clock) (lines : list Line) : Prop :=
  match e with
  | Done => exists l, last lines = Some l /\ shows_reply l
  | ExitCode code =>
      code = 2%Z /\ (exists secs, wval secs = asked args /\ last lines = Some (NoReply secs)) /\
      (ck_now c + asked args * 1000000000 <= ck_now c')%N
  | Panicked text => text ∈ panics
  | Blocked => exists i, ck_waits c i = None
  | StillPolling => False
  end.

Definition in_time (args : list string) (c : Clock) (turns : list (Turn (St := St))) (c' : Clock) : Prop :=
  forall limit work, answers_within limit c -> Forall (busy work) turns ->
    (ck_now c' <= ck_now c + asked args * 1000000000 + SLEEP_NANOS + 5 * limit + 2 * work)%N.

Lemma ended_panicked args c turns e c' lines :
  panicked e -> (forall limit, answers_within limit c -> ck_now c' <= ck_now c + 2 * limit)%N ->
  ended args c e c' lines /\ in_time args c turns c'.
Proof.
  intros (tx & -> & Hin) Hb. split; [done|]. intros limit work Hc _. specialize (Hb _ Hc). lia.
Qed.

Lemma peer_main_ends args d reading last_instant turns net c :
  Forall paced turns -> (asked args <= 2 * (N.of_nat (length turns) - 1))%N -> 0 < length turns ->
  let '(e, (_, c', lines)) := peer_main args d reading last_instant turns (net, c) in
  ended args c e c' lines /\ in_time args c turns c'.
Proof.
  intros Hpaced Hsecs Hlen. unfold peer_main.
  destruct (parse_peer_args args) as [[[[url id] text] secs]|e] eqn:Hargs; cbn [rbind].
  2:{ apply ended_panicked; [|lia]. unfold parse_peer_args in Hargs. repeat case_match; simplify_eq; by apply panicked_in. }
  assert (asked args = wval secs) as Hasked by (unfold asked; by rewrite Hargs).
  destruct (decode_identity id) as [their_id|e] eqn:Hid; cbn [rbind].
  2:{ apply ended_panicked; [|lia]. unfold decode_identity in Hid. destruct (b64_decode _) as [l|t].
      - destruct (array_of 32 l); cbn in Hid; simplify_eq; by apply panicked_in.
      - simplify_eq; by apply panicked_in. }
  destruct (connect their_id text reading (direct url) d (net, c)) as [r [net' c1]] eqn:Hconn.
  apply connects_connect in Hconn as [Hl He]. cbn [snd] in Hl, He. pose proof Hl as (j & _ & Hw & Hle & Hb).
  destruct r as [[ses lines]|e].
  2:{ destruct (He e eq_refl) as [Hp|[-> Hnone]]; [apply ended_panicked; [done|exact Hb]|].
      split; [exists (j + 0); by rewrite <-Hw|]. intros limit work Hc _. specialize (Hb _ Hc). lia. }
  cbv zeta. cbn [pr_net pr_out snd]. unfold deadline_of.
  case_decide as Hlast; [|apply ended_panicked; [by apply panicked_in|exact Hb]].
  set (p := mkPeer _ _ _ _).
  pose proof (poll_loop_ends (dw_account d) (direct url) (ck_now c1 + secs * 1000000000) secs turns p Hpaced) as Hloop.
  destruct (poll_loop _ _ _ _ _ p) as [e [[net2 c2] ses2 draws2 lines2]].
  destruct Hloop as (Hend & (j' & Hw') & Hb'); [unfold SLEEP_NANOS; cbn [time_of p pr_net snd]; lia|done|].
  unfold time_of in *. cbn [p pr_net pr_out snd] in *.
  unfold ended, in_time. rewrite Hasked. split.
  - destruct Hend as [[(-> & Hl2)|[->|[-> Hnone]]]|(-> & Hl2 & Hdl)].
    + done.
    + by apply (bool_decide_unpack _).
    + exists (j + (j' + 0)). by rewrite <-Hw, <-Hw'.
    + split_and!; [done|by exists secs|lia].
  - intros limit work Hc Hbusy. specialize (Hb _ Hc). unfold SLEEP_NANOS in *.
    specialize (Hb' limit work (answers_later _ _ _ _ Hc Hl) Hbusy). lia.
Qed.
(** Arguments that pass the checks before the relay is asked anything. *)
Definition in_order (args : list string) : Prop :=
  exists url id text secs their_id,
    parse_peer_args args = Ok (url, id, text, secs) /\ decode_identity id = Ok their_id.

Lemma silent_relay_blocks args d reading last_instant turns net c :
  in_order args -> ck_waits c 0 = None -> (peer_main args d reading last_instant turns (net, c)).1 = Blocked.
Proof.
  intros (url & id & text & secs & their_id & Hargs & Hid) Hc. unfold peer_main. rewrite Hargs. cbn [rbind].
  rewrite Hid. cbn [rbind]. unfold connect, expect_net, on_net, sbind. by rewrite Hc.
Qed.

(** C16: how the program ends, whatever the relay answers. It runs on only if the
    relay leaves one of its calls without an answer for good -- and then it does, if
    that is its first call and the arguments are in order --, since no call has a
    limit on its time. Otherwise it ends: when it returns, the last line printed is
    a reply; when it exits, it is with code 2, after saying that no reply came, and
    never before the seconds asked for have passed; else it stopped at one of the
    [expect]s of the source, or at a deadline no clock can show. And it ends in
    bounded time: if no call takes longer than [limit], and the program's own work
    and oversleeping no longer than [work] in a turn, then at most one sleep of two
    seconds, five calls (the two before the loop and the three of the last turn) and
    the work of two turns after the seconds asked for. *)
Theorem demo_peer_ends args d reading last_instant turns net c :
  Forall paced turns -> (asked args <= 2 * (N.of_nat (length turns) - 1))%N -> 0 < length turns ->
  let '(e, (_, c', lines)) := peer_main args d reading last_instant turns (net, c) in
  ended args c e c' lines /\ in_time args c turns c' /\
  (in_order args -> ck_waits c 0 = None -> e = Blocked).
Proof.
  intros Hpaced Hsecs Hlen.
  pose proof (peer_main_ends args d reading last_instant turns net c Hpaced Hsecs Hlen) as Hends.
  pose proof (silent_relay_blocks args d reading last_instant turns net c) as Hblocks.
  destruct (peer_main _ _ _ _ _ _) as [e [[net' c'] lines]]. by destruct Hends.
Qed.
End Ends.

(** ** A concrete exchange *)
From S2P Require Import Demo RelayServerProps.
From Stdlib Require Import Ascii.

Module PeerDemo.
Import Demo WireDemo IdentityDemo SessionDemo RelayDemo HttpDemo NetDemo.

(** Text contents only. *)
#[export] Instance value_codec : ValueText := {
  value_text v := match as_str (value_index v "body") with Some s => ("T" +:+ s)%string | None => "?"%string end;
  value_from_slice l := match string_of_bytes l with
                        | String "T"%char s => Ok (text_content s)
                        | _ => Err "expected value"%string
                        end
}.
#[export] Instance value_codec_laws : ContentLaws.
Proof. split. intros text _. cbn [value_from_slice value_codec]. unfold string_of_bytes. by rewrite string_bytes. Qed.

(** The answer quotes the message and the first byte of the writer's identity. *)
Definition reply (id : key32) (pt : list u8) : string := string_of_bytes (drop 1 pt ++ take 1 id).

Definition demo_limits : StoreLimits := mkLimits (wrap 64 100) (N.to_nat 20000) 4 (N.to_nat 40000).
Definition store : RelayStore := publish (split_bundle bob).1 (split_bundle bob).2 (with_limits demo_limits).
Definition draws : Draws :=
  mkDraws alice (secret 31) seed (secret 33) (secret 36) (fun i => secret (40 + N.of_nat i)).
Definition args : list string := ["http://relay/"; " " +:+ b64 (abytes (identity_public bob)); "hello"; "10"]%string.
Definition at_time (n : N) : u64 := wrap 64 n.
Definition last_moment : Instant := 1000000000000%N.

Definition sa : Session :=
  match session_initiate (secret 31) seed (secret 33) alice (bundle bob) with
  | Ok s => s
  | Err _ => mkSession (init_responder (key 0) (secret 0)) [] None
  end.
Definition m : Message :=
  match session_encrypt (content "hello") sa with (Ok m, _) => m | _ => sample end.
Definition sb : Session :=
  match session_respond (secret 34) m bob with (Ok (s, _), _) => s | _ => sa end.
Definition m' : Message :=
  match session_encrypt (content (reply (identity_public alice) (content "hello"))) sb with
  | (Ok m, _) => m
  | _ => sample
  end.

Definition ib : key32 := inbox_id (identity_public bob) (epoch_for_unix (at_time 100000)).
Definition blob : list u8 := seal_envelope (secret 36) alice (pb_identity_dh (bundle bob)) (message_encode m).
Definition back : key32 := inbox_id (identity_public alice) (epoch_for_unix (at_time 90000)).
Definition blob' : list u8 := seal_envelope (secret 35) bob (identity_dh_public alice) (message_encode m').

#[export] Instance mailable_dec r wire b now s : Decision (mailable r wire b now s).
Proof. unfold mailable, room_for. apply _. Defined.

Lemma blob_mailable : mailable ib (message_encode m) blob (at_time 5) store.
Proof. apply (bool_decide_unpack _). vm_compute. exact I. Qed.
Lemma blob'_mailable : mailable back (message_encode m') blob' (at_time 6) store.
Proof. apply (bool_decide_unpack _). vm_compute. exact I. Qed.
Lemma blob_sendable : sendable (send_request ib blob).
Proof. apply sendable_demo. vm_compute. reflexivity. Qed.

Lemma store_published : published bob (bundle bob) store.
Proof.
  split; [|apply bundle_of_bundle|reflexivity|apply verify_bundle_bundle].
  pose proof (fetch_published bob (with_limits demo_limits)) as Hf. unfold store.
  destruct (split_bundle bob) as [base pool]. cbn [fst snd]. destruct Hf as (s' & -> & _). done.
Qed.

Lemma no_mail me ibs : junk_in me ibs store.
Proof.
  intros r q _ Hq. unfold mailbox in Hq. change (queues (inner store)) with (∅ : gmap key32 (list QueuedMessage)) in Hq.
  rewrite lookup_empty in Hq. by apply elem_of_nil in Hq.
Qed.
End PeerDemo.

Import Demo WireDemo IdentityDemo SessionDemo RelayDemo HttpDemo NetDemo PeerDemo.

(** Nobody is in a hurry: every call takes half a second. *)
Definition half_seconds : Clock := mkClock 0%N (fun _ => Some 500000000%N).

Lemma demo_peer_round_trip_witness :
  exists net lines,
    @peer_main _ _ _ _ _ _ _ (u64 * RelayStore) (moving origin display) _ _ _ _ _ args draws
      (Some (at_time 100000)) last_moment
      [mkTurn 7%N SLEEP_NANOS (Some (at_time 100000))
         (fun '(_, s) => (at_time 7, app_answers bob (secret 34) (secret 35) reply (at_time 90000) (at_time 6) s))]
      ((at_time 5, store), half_seconds)
    = (Done, (net, lines ++ [Reply (b64 (abytes (identity_public bob)))
                               (reply (identity_public alice) (content "hello"))])).
Proof.
  apply (demo_peer_round_trip origin display args "http://relay/" (" " +:+ b64 (abytes (identity_public bob)))
    "hello" (wrap 64 10) draws bob (bundle bob) store (secret 34) (secret 35) reply
    (at_time 100000) (at_time 5) (at_time 90000) (at_time 6) (at_time 100000) (at_time 7)
    last_moment half_seconds 7%N SLEEP_NANOS).
  - vm_compute. reflexivity.
  - vm_compute. reflexivity.
  - reflexivity.
  - exact store_published.
  - exact bob_encapsulates.
  - apply keys_differ. vm_compute. reflexivity.
  - vm_compute. reflexivity.
  - apply no_mail.
  - apply no_mail.
  - split; vm_compute; split; discriminate || reflexivity.
  - intros i. by eexists.
  - by eexists.
  - reflexivity.
  - intros sa1 m1 sa2 Hi Hs.
    assert (sa1 = sa) as -> by (unfold sa; cbn [dw_ephemeral dw_seed dw_ratchet draws dw_account] in Hi; by rewrite Hi).
    assert (m1 = m) as -> by (unfold m; by rewrite Hs).
    split; [exact blob_mailable|]. split; [exact blob_sendable|].
    intros sb1 bob1 m2 sb2 Hr He.
    assert (sb1 = sb) as -> by (unfold sb; by rewrite Hr).
    assert (m2 = m') as -> by (unfold m'; cbn [dw_account draws] in He; by rewrite He).
    exact blob'_mailable.
Defined.

(** Nobody answers, in the two seconds of one turn: the program has waited for
    five calls of half a second when it gives up. *)
Lemma demo_peer_ends_witness :
  let args := ["http://relay/"; b64 (abytes (identity_public bob)); "hello"; "2"]%string in
  let turn := mkTurn (St := u64 * RelayStore) 1%N SLEEP_NANOS (Some (at_time 100000)) id in
  let '(e, (_, c', lines)) := @peer_main _ _ _ _ _ _ _ (u64 * RelayStore) (moving origin display) _ _ _ _ _ args draws
      (Some (at_time 100000)) last_moment [turn; turn] ((at_time 5, store), half_seconds) in
  ended args half_seconds e c' lines /\
  (ck_now c' <= ck_now half_seconds + asked args * 1000000000 + SLEEP_NANOS + 5 * 500000000 + 2 * 1)%N.
Proof.
  intros args turn.
  assert (forall r : Ending * (u64 * RelayStore * Clock * list Line), (let '(e, (_, c', lines)) := r in
      ended args half_seconds e c' lines /\ in_time args half_seconds [turn; turn] c' /\
      (in_order args -> ck_waits half_seconds 0 = None -> e = Blocked)) ->
    let '(e, (_, c', lines)) := r in ended args half_seconds e c' lines /\
      (ck_now c' <= ck_now half_seconds + asked args * 1000000000 + SLEEP_NANOS + 5 * 500000000 + 2 * 1)%N) as Hin.
  { intros [e [[n c'] lines]] (He & Ht & _). split; [done|]. apply Ht.
    - intros i. by eexists.
    - repeat constructor; cbn; unfold SLEEP_NANOS; lia. }
  apply Hin, demo_peer_ends.
  - repeat constructor; unfold paced; cbn; lia.
  - vm_compute. discriminate.
  - cbn. lia.
Defined.
