(* ===== verification/Ffi.v ===== *)
(** * The C interface (ffi/src/lib.rs, ffi/src/mesh_ffi.rs, ffi/src/transport_ffi.rs)

    The heap of boxes the library hands out handles to, and every exported
    function on it. A handle is a nullable address; using an address that holds no
    live box of the right type is undefined behaviour, which is an error of its
    own. A region the host passes is [None] for a null pointer and its bytes
    otherwise; an out-parameter is whether it is non-null, and what is written
    through it is part of the result. Where the allocator puts a box is a
    parameter, and so are the values that operations draw. *)
From S2P Require Import Prelude Words Primitives Wire PqKem Identity Ratchet Session Envelope Inbox Safety.
From S2P Require Import Mesh GroupState RelayStore RelayServer Net.

Inductive ub : Set := UndefinedBehaviour.

(** ** Buffers *)

(** The box of an empty vector has no allocation, only a dangling address. *)
Inductive BufPtr : Set := BufNull | BufDangling | BufAt (p : positive).
Record ClarityBuffer : Set := mkBuffer { buf_ptr : BufPtr; buf_len : N }.
Definition buffer_null : ClarityBuffer := mkBuffer BufNull 0.

Definition Handle : Set := option positive.
Definition Region : Set := option (list u8).
Definition as_slice (r : Region) : list u8 := default [] r.

(** [CStr::from_ptr(p).to_str().ok()] *)
Definition cstr (p : option string) : option string :=
  match p with Some s => if utf8_valid s then Some s else None | None => None end.

Definition encode_byte_list (items : list (list u8)) : list u8 :=
  foldl (fun out item => out ++ len32 item ++ item)
    (le_bytes 4 (wrap 32 (N.of_nat (length items)))) items.

(** [serde_json::Value] as far as it is used: the text of an array of objects
    with an id and a key, and what the accessors find in each entry of a parsed
    array. *)
Record JsonEntry : Set := mkEntry { je_id : option u64; je_public : option string }.
Class JsonArray := {
  json_array_text : list (u32 * string) -> string;
  json_array_read : list u8 -> option (list JsonEntry)
}.

Section Ffi.
Context `{X : X25519, Sym : SymCrypto, Ed : Ed25519, Kem : MlKem}.

Inductive object :=
| OAccount (a : Account)
| OSession (s : Session)
| OTransport (t : RelayTransport)
| ONode (n : MeshNode)
| OBytes (l : list u8)
| OString (s : string).

Definition as_account (o : object) : option Account := match o with OAccount a => Some a | _ => None end.
Definition as_session (o : object) : option Session := match o with OSession s => Some s | _ => None end.
Definition as_relay (o : object) : option RelayTransport := match o with OTransport t => Some t | _ => None end.
Definition as_node (o : object) : option MeshNode := match o with ONode n => Some n | _ => None end.
Definition as_string (o : object) : option string := match o with OString s => Some s | _ => None end.

Context {St : Type} (malloc : gmap positive object -> positive).

(** The library's heap, and the network behind the transports. *)
Record Ffi := mkFfi { cells : gmap positive object; world : St }.

Abbreviation ffi A := (mut Ffi ub A).

Definition set_cells (f : Ffi) (c : gmap positive object) : Ffi := mkFfi c (world f).

(** [Box::into_raw(Box::new(o))] *)
Definition into_raw (o : object) : ffi Handle := fun f =>
  let p := malloc (cells f) in (Ok (Some p), set_cells f (<[p := o]> (cells f))).

(** [ptr.as_ref()] and [ptr.as_mut()]; [set_box] is the write through the latter. *)
Definition as_ref {A} (proj : object -> option A) (h : Handle) : ffi (option A) := fun f =>
  match h with
  | None => (Ok None, f)
  | Some p =>
      match cells f !! p ≫= proj with
      | Some a => (Ok (Some a), f)
      | None => (Err UndefinedBehaviour, f)
      end
  end.
Definition set_box (h : Handle) (o : object) : ffi unit := fun f =>
  match h with
  | Some p => (Ok tt, set_cells f (<[p := o]> (cells f)))
  | None => (Err UndefinedBehaviour, f)
  end.

(** [if !p.is_null() { drop(Box::from_raw(p)) }] *)
Definition free_box {A} (proj : object -> option A) (h : Handle) : ffi unit := fun f =>
  match h with
  | None => (Ok tt, f)
  | Some p =>
      match cells f !! p ≫= proj with
      | Some _ => (Ok tt, set_cells f (delete p (cells f)))
      | None => (Err UndefinedBehaviour, f)
      end
  end.

Definition from_vec (v : list u8) : ffi ClarityBuffer :=
  match v with
  | [] => sret (mkBuffer BufDangling 0)
  | _ :: _ => fun f =>
      let p := malloc (cells f) in
      (Ok (mkBuffer (BufAt p) (N.of_nat (length v))), set_cells f (<[p := OBytes v]> (cells f)))
  end.

(** The layout given back to the allocator must be that of the allocation. *)
Definition clarity_buffer_free (buf : ClarityBuffer) : ffi unit := fun f =>
  match buf_ptr buf with
  | BufNull => (Ok tt, f)
  | BufDangling => if (buf_len buf =? 0)%N then (Ok tt, f) else (Err UndefinedBehaviour, f)
  | BufAt p =>
      match cells f !! p with
      | Some (OBytes l) =>
          if (buf_len buf =? N.of_nat (length l))%N then (Ok tt, set_cells f (delete p (cells f)))
          else (Err UndefinedBehaviour, f)
      | _ => (Err UndefinedBehaviour, f)
      end
  end.

Definition clarity_string_free (s : Handle) : ffi unit := free_box as_string s.

(** ** Accounts *)
Context `{!Bincode PreKeyBundle, !Bincode Message, !Bincode RatchetHeader, !Bincode MeshFrame}.
Context `{!Bincode StoredAccount, !Bincode StoredRatchet, !Bincode StoredSession, !Base64}.

Definition clarity_account_generate (ed : SigningKey) (dh spk : StaticSecret) (ky : KyberKeyPair)
    (rng : nat -> StaticSecret) : ffi Handle :=
  into_raw (OAccount (generate ed dh spk ky rng)).

Definition clarity_account_free (acct : Handle) : ffi unit := free_box as_account acct.

Definition clarity_account_serialize (acct : Handle) : ffi ClarityBuffer :=
  let! a := as_ref as_account acct in
  match a with Some a => from_vec (to_bytes a) | None => sret buffer_null end.

Definition clarity_account_deserialize (r : Region) : ffi Handle :=
  match from_bytes (as_slice r) with Ok a => into_raw (OAccount a) | Err _ => sret None end.

Definition clarity_account_identity_public (acct : Handle) (out : bool) : ffi (option key32) :=
  let! a := as_ref as_account acct in
  match a, out with Some a, true => sret (Some (identity_public a)) | _, _ => sret None end.

Definition clarity_account_bundle_base (acct : Handle) : ffi ClarityBuffer :=
  let! a := as_ref as_account acct in
  match a with Some a => from_vec (bundle_encode (without_one_time (bundle a))) | None => sret buffer_null end.

Definition clarity_account_one_time_remaining (acct : Handle) : ffi u32 :=
  let! a := as_ref as_account acct in
  match a with
  | Some a => sret (wrap 32 (N.of_nat (one_time_prekeys_remaining a)))
  | None => sret (wrap 32 0)
  end.

Definition clarity_account_replenish_prekeys (acct : Handle) (count : u32) (rng : nat -> StaticSecret)
  : ffi Z :=
  let! a := as_ref as_account acct in
  match a with
  | Some a =>
      let '(_, a) := replenish_one_time_prekeys count rng a in
      set_box acct (OAccount a) ;! sret 0%Z
  | None => sret (-1)%Z
  end.

(** ** Sessions *)

Definition clarity_session_initiate (ephemeral : StaticSecret) (seed : EncapSeed) (fresh : StaticSecret)
    (acct : Handle) (bundle_region : Region) : ffi Handle :=
  let! account := as_ref as_account acct in
  match account with
  | None => sret None
  | Some account =>
      match bundle_decode (as_slice bundle_region) with
      | Err _ => sret None
      | Ok b =>
          match session_initiate ephemeral seed fresh account b with
          | Ok s => into_raw (OSession s)
          | Err _ => sret None
          end
      end
  end.

(** The second component is what [out_plaintext] holds, if it is not null. *)
Definition clarity_session_respond (fresh : StaticSecret) (acct : Handle) (msg : Region) (out_plaintext : bool)
  : ffi (Handle * option ClarityBuffer) :=
  let failed : Handle * option ClarityBuffer := (None, if out_plaintext then Some buffer_null else None) in
  let! account := as_ref as_account acct in
  match account with
  | None => sret failed
  | Some account =>
      match message_decode (as_slice msg) with
      | Err _ => sret failed
      | Ok message =>
          let '(res, account) := session_respond fresh message account in
          set_box acct (OAccount account) ;!
          match res with
          | Ok (session, plaintext) =>
              let! out := if out_plaintext then (let! b := from_vec plaintext in sret (Some b)) else sret None in
              let! h := into_raw (OSession session) in
              sret (h, out)
          | Err _ => sret failed
          end
      end
  end.

Definition clarity_session_encrypt (sess : Handle) (pt : Region) : ffi ClarityBuffer :=
  let! s := as_ref as_session sess in
  match s with
  | Some s =>
      let '(res, s) := session_encrypt (as_slice pt) s in
      set_box sess (OSession s) ;!
      match res with Ok msg => from_vec (message_encode msg) | Err _ => sret buffer_null end
  | None => sret buffer_null
  end.

Definition clarity_session_decrypt (fresh : StaticSecret) (sess : Handle) (msg : Region) : ffi ClarityBuffer :=
  let! s := as_ref as_session sess in
  match s with
  | None => sret buffer_null
  | Some s =>
      match message_decode (as_slice msg) with
      | Err _ => sret buffer_null
      | Ok message =>
          let '(res, s) := session_decrypt fresh message s in
          set_box sess (OSession s) ;!
          match res with Ok pt => from_vec pt | Err _ => sret buffer_null end
      end
  end.

Definition clarity_session_free (sess : Handle) : ffi unit := free_box as_session sess.

Definition clarity_session_serialize (sess : Handle) : ffi ClarityBuffer :=
  let! s := as_ref as_session sess in
  match s with Some s => from_vec (session_serialize s) | None => sret buffer_null end.

Definition clarity_session_deserialize (r : Region) : ffi Handle :=
  match session_deserialize (as_slice r) with Ok s => into_raw (OSession s) | Err _ => sret None end.

(** ** Safety numbers, inboxes and envelopes *)

(** [CString::new] refuses a string with a NUL in it. *)
Definition c_string (s : list Ascii.ascii) : option string :=
  if existsb (Ascii.eqb Ascii.zero) s then None else Some (String.string_of_list_ascii s).

Definition clarity_safety_number (id_a id_b : option key32) : ffi Handle :=
  match id_a, id_b with
  | Some a, Some b =>
      match c_string (safety_number a b) with Some s => into_raw (OString s) | None => sret None end
  | _, _ => sret None
  end.

Definition clarity_epoch_for_unix (unix_seconds : u64) : ffi u64 := sret (epoch_for_unix unix_seconds).

Definition clarity_inbox_id (identity : option key32) (epoch : u64) (out : bool) : ffi (option key32) :=
  match identity, out with Some id, true => sret (Some (inbox_id id epoch)) | _, _ => sret None end.

(** The result code, and the two keys written. *)
Definition clarity_bundle_identity_keys (bundle_region : Region) (out_identity_ed out_identity_dh : bool)
  : ffi (Z * option (key32 * key32)) :=
  if negb out_identity_ed || negb out_identity_dh then sret ((-1)%Z, None)
  else
    match bundle_decode (as_slice bundle_region) with
    | Err _ => sret ((-1)%Z, None)
    | Ok b =>
        match verify_bundle b with
        | Err _ => sret ((-1)%Z, None)
        | Ok _ => sret (0%Z, Some (pb_identity_ed b, pb_identity_dh b))
        end
    end.

Definition clarity_seal_envelope (eph : StaticSecret) (acct : Handle) (recipient_identity_dh : option key32)
    (payload : Region) : ffi ClarityBuffer :=
  let! account := as_ref as_account acct in
  match account, recipient_identity_dh with
  | Some account, Some dh => from_vec (seal_envelope eph account dh (as_slice payload))
  | _, _ => sret buffer_null
  end.

Definition clarity_open_envelope (acct : Handle) (blob : Region) (out_sender_ed out_sender_dh : bool)
  : ffi (ClarityBuffer * option (key32 * key32)) :=
  let! account := as_ref as_account acct in
  match account with
  | None => sret (buffer_null, None)
  | Some account =>
      if negb out_sender_ed || negb out_sender_dh then sret (buffer_null, None)
      else
        match open_envelope account (as_slice blob) with
        | Ok opened =>
            let! b := from_vec (oe_payload opened) in
            sret (b, Some (oe_sender_identity_ed opened, oe_sender_identity_dh opened))
        | Err _ => sret (buffer_null, None)
        end
  end.

(** ** mesh_ffi.rs *)

Definition clarity_mesh_node_new (me : option key32) : ffi Handle :=
  match me with Some id => into_raw (ONode (node_new id)) | None => sret None end.

Definition clarity_mesh_node_free (node : Handle) : ffi unit := free_box as_node node.

Definition clarity_mesh_originate (msg_id : id16) (node : Handle) (recipient : option key32) (payload : Region)
  : ffi ClarityBuffer :=
  let! n := as_ref as_node node in
  match n, recipient with
  | Some n, Some recipient =>
      let '(frame, n) := originate msg_id recipient (as_slice payload) n in
      set_box node (ONode n) ;!
      from_vec (frame_encode frame)
  | _, _ => sret buffer_null
  end.

Definition clarity_mesh_ingest (node : Handle) (frame : Region) : ffi Z :=
  let! n := as_ref as_node node in
  match n with
  | None => sret (-1)%Z
  | Some n =>
      match frame_decode (as_slice frame) with
      | Ok f => let '(_, n) := handle_incoming f n in set_box node (ONode n) ;! sret 0%Z
      | Err _ => sret (-1)%Z
      end
  end.

Definition clarity_mesh_pending_broadcast (node : Handle) : ffi ClarityBuffer :=
  let! n := as_ref as_node node in
  match n with
  | Some n => from_vec (encode_byte_list (map frame_encode (outbound n)))
  | None => sret buffer_null
  end.

Definition clarity_mesh_take_inbox (node : Handle) : ffi ClarityBuffer :=
  let! n := as_ref as_node node in
  match n with
  | Some n =>
      let '(payloads, n) := take_inbox n in
      set_box node (ONode n) ;!
      from_vec (encode_byte_list payloads)
  | None => sret buffer_null
  end.

(** ** transport_ffi.rs *)
Context `{!HttpAgent St, !ProxyParser}.
Context `{!Json PublishRequest, !Json BundleResponse, !Json SendRequest, !Json PollResponse}.

(** A call on the network behind a transport; the heap is not touched. *)
Definition on_network {A} (m : mut St NetError A) : ffi (result NetError A) := fun f =>
  let '(res, w) := m (world f) in (Ok res, mkFfi (cells f) w).

Definition code {A} (r : result NetError A) : Z := match r with Ok _ => 0 | Err _ => -1 end.

Definition clarity_relay_transport_direct (url : option string) : ffi Handle :=
  match cstr url with Some u => into_raw (OTransport (direct u)) | None => sret None end.

Definition clarity_relay_transport_tor (url socks_addr : option string) : ffi Handle :=
  match cstr url, cstr socks_addr with
  | Some u, Some s =>
      match over_tor u s with Ok t => into_raw (OTransport t) | Err _ => sret None end
  | _, _ => sret None
  end.

Definition clarity_relay_transport_free (t : Handle) : ffi unit := free_box as_relay t.

Definition clarity_relay_publish_account (t account : Handle) : ffi Z :=
  let! transport := as_ref as_relay t in
  let! a := as_ref as_account account in
  match transport, a with
  | Some transport, Some a =>
      let base := without_one_time (bundle a) in
      let one_time := one_time_prekey_publics a in
      let! res := on_network (net_publish transport base one_time) in
      sret (code res)
  | _, _ => sret (-1)%Z
  end.

(** One entry of the uploaded array, as the JSON library reads it: the two
    members if they are there and of the right type; the id is cut to 32 bits. *)
Definition read_entry (e : JsonEntry) : option (u32 * key32) :=
  match je_id e with
  | None => None
  | Some id =>
      match je_public e with
      | None => None
      | Some s =>
          match b64_decode s with
          | Err _ => None
          | Ok bytes =>
              match array_of 32 bytes with
              | Some key => Some (wrap 32 (wval id), key)
              | None => None
              end
          end
      end
  end.

Fixpoint read_entries (es : list JsonEntry) : option (list (u32 * key32)) :=
  match es with
  | [] => Some []
  | e :: es =>
      match read_entry e with
      | None => None
      | Some k => match read_entries es with Some ks => Some (k :: ks) | None => None end
      end
  end.

Context `{!JsonArray}.

Definition clarity_account_one_time_publics (acct : Handle) : ffi ClarityBuffer :=
  let! a := as_ref as_account acct in
  match a with
  | Some a =>
      let entries := map (fun '(id, public) => (id, b64 (abytes public))) (one_time_prekey_publics a) in
      from_vec (bytes_of_string (json_array_text entries))
  | None => sret buffer_null
  end.

Definition clarity_relay_publish (t : Handle) (bundle_region one_time_json : Region) : ffi Z :=
  let! transport := as_ref as_relay t in
  match transport with
  | None => sret (-1)%Z
  | Some transport =>
      match bundle_decode (as_slice bundle_region) with
      | Err _ => sret (-1)%Z
      | Ok b =>
          match json_array_read (as_slice one_time_json) with
          | None => sret (-1)%Z
          | Some parsed =>
              match read_entries parsed with
              | None => sret (-1)%Z
              | Some one_time =>
                  let! res := on_network (net_publish transport b one_time) in
                  sret (code res)
              end
          end
      end
  end.

Definition clarity_relay_fetch_bundle (t : Handle) (identity : option key32) : ffi ClarityBuffer :=
  let! transport := as_ref as_relay t in
  match transport, identity with
  | Some transport, Some id =>
      let! res := on_network (net_fetch_bundle transport id) in
      match res with
      | Ok (Some b) => from_vec (bundle_encode b)
      | Ok None => from_vec []
      | Err _ => sret buffer_null
      end
  | _, _ => sret buffer_null
  end.

Definition clarity_relay_send (t : Handle) (recipient : option key32) (msg : Region) : ffi Z :=
  let! transport := as_ref as_relay t in
  match transport, recipient with
  | Some transport, Some recipient =>
      let! res := on_network (net_send transport recipient (as_slice msg)) in
      sret (code res)
  | _, _ => sret (-1)%Z
  end.

Definition clarity_relay_poll (t : Handle) (recipient : option key32) : ffi ClarityBuffer :=
  let! transport := as_ref as_relay t in
  match transport, recipient with
  | Some transport, Some recipient =>
      let! res := on_network (net_poll transport recipient) in
      match res with
      | Ok messages => from_vec (encode_byte_list messages)
      | Err _ => sret buffer_null
      end
  | _, _ => sret buffer_null
  end.

End Ffi.
