(* ===== verification/FfiProps.v ===== *)
(** * Properties of the C interface (ffi/src/lib.rs, mesh_ffi.rs, transport_ffi.rs)

    The ownership rules of the interface as a table of what each function may be
    given, what it frees and what it hands out; the theorem that a host that keeps
    to them never causes undefined behaviour; and the agreement of the two ways to
    publish an account. *)
From S2P Require Import Prelude Words Primitives Wire PqKem Identity Ratchet Session Envelope Inbox Safety.
From S2P Require Import Mesh GroupState RelayStore RelayServer Net Ffi.

(** The array the JSON library writes is read back entry by entry. *)
Class JsonArrayLaws `{JsonArray} : Prop := {
  json_array_roundtrip l :
    json_array_read (bytes_of_string (json_array_text l))
    = Some (map (fun '(id, s) => mkEntry (Some (wrap 64 (wval id))) (Some s)) l)
}.

Section FfiProps.
Context `{X : X25519, Sym : SymCrypto, Ed : Ed25519, Kem : MlKem}.
Context `{!Bincode PreKeyBundle, !Bincode Message, !Bincode RatchetHeader, !Bincode MeshFrame}.
Context `{!Bincode StoredAccount, !Bincode StoredRatchet, !Bincode StoredSession, !Base64}.
Context {St : Type} `{!HttpAgent St, !ProxyParser, !JsonArray}.
Context `{!Json PublishRequest, !Json BundleResponse, !Json SendRequest, !Json PollResponse}.
Variable malloc : gmap positive object -> positive.
(** The allocator returns an address that is not in use. *)
Hypothesis malloc_fresh : forall c, c !! malloc c = None.

Abbreviation Ffi := (Ffi.Ffi (St := St)).
Abbreviation ffi A := (mut Ffi ub A).

(** ** Ownership *)

Inductive kind : Set := KAccount | KSession | KTransport | KNode | KBytes (len : N) | KString.

Definition kind_of (o : object) : kind :=
  match o with
  | OAccount _ => KAccount
  | OSession _ => KSession
  | OTransport _ => KTransport
  | ONode _ => KNode
  | OBytes l => KBytes (N.of_nat (length l))
  | OString _ => KString
  end.

(** What is live, and of which kind. *)
Definition kinds (f : Ffi) : gmap positive kind := kind_of <$> cells f.

(** A handle that may be passed where one of kind [k] is expected. *)
Definition holds (owned : gmap positive kind) (h : Handle) (k : kind) : Prop :=
  match h with None => True | Some p => owned !! p = Some k end.

Definition holds_buffer (owned : gmap positive kind) (b : ClarityBuffer) : Prop :=
  match buf_ptr b with
  | BufNull => True
  | BufDangling => buf_len b = 0%N
  | BufAt p => owned !! p = Some (KBytes (buf_len b))
  end.

Abbreviation grant := (list (positive * kind)).
Definition of_handle (k : kind) (h : Handle) : grant := match h with Some p => [(p, k)] | None => [] end.
Definition of_buffer (b : ClarityBuffer) : grant :=
  match buf_ptr b with BufAt p => [(p, KBytes (buf_len b))] | _ => [] end.
Definition of_respond (r : Handle * option ClarityBuffer) : grant :=
  of_handle KSession r.1 ++ match r.2 with Some b => of_buffer b | None => [] end.
Definition nothing {A} (_ : A) : grant := [].

Definition release (freed : option positive) (owned : gmap positive kind) : gmap positive kind :=
  match freed with Some p => delete p owned | None => owned end.
Definition acquire (g : grant) (owned : gmap positive kind) : gmap positive kind :=
  foldr (fun pk owned => <[pk.1 := pk.2]> owned) owned g.

(** ** Running a call *)

(** The call returns, what it hands out is newly allocated, and nothing else
    comes into being, disappears or changes its kind. *)
Definition grows {A} (f : Ffi) (m : ffi A) (g : A -> grant) : Prop :=
  exists r f', m f = (Ok r, f') /\ kinds f' = acquire (g r) (kinds f) /\
    Forall (fun pk => kinds f !! pk.1 = None) (g r) /\ NoDup (g r).*1.

Lemma grows_sret {A} f (r : A) g : g r = [] -> grows f (sret r) g.
Proof. intros Hg. exists r, f. rewrite Hg. by split_and!; try constructor. Qed.

Lemma kinds_lookup f p k : kinds f !! p = Some k -> exists o, cells f !! p = Some o /\ kind_of o = k.
Proof. unfold kinds. rewrite lookup_fmap. destruct (cells f !! p) as [o|]; cbn; [intros [= <-]; eauto|done]. Qed.


Lemma grows_as_ref {A B} f (proj : object -> option B) (inj : B -> object) k h (cont : option B -> ffi A) g :
  (forall o, kind_of o = k -> exists b, o = inj b /\ proj o = Some b) ->
  holds (kinds f) h k -> grows f (cont None) g ->
  (forall p b, h = Some p -> cells f !! p = Some (inj b) -> grows f (cont (Some b)) g) ->
  grows f (sbind (as_ref proj h) cont) g.
Proof.
  intros Hproj Hh Hnone Hsome. unfold grows, sbind, as_ref. destruct h as [p|]; [|exact Hnone].
  destruct (kinds_lookup _ _ _ Hh) as (o & Ho & Hk). destruct (Hproj o Hk) as (b & -> & Hb).
  rewrite Ho. cbn. rewrite Hb. by apply (Hsome p).
Qed.

Lemma kinds_set f p o o' :
  cells f !! p = Some o' -> kind_of o = kind_of o' -> kinds (set_cells f (<[p := o]> (cells f))) = kinds f.
Proof.
  intros Ho Hk. unfold kinds, set_cells. cbn [cells]. rewrite fmap_insert, Hk.
  apply insert_id. by rewrite lookup_fmap, Ho.
Qed.

Lemma grows_set_box {A} f p o o' (cont : unit -> ffi A) g :
  cells f !! p = Some o' -> kind_of o = kind_of o' ->
  grows (set_cells f (<[p := o]> (cells f))) (cont tt) g -> grows f (sbind (set_box (Some p) o) cont) g.
Proof.
  intros Ho Hk Hcont. unfold grows in *. rewrite (kinds_set f p o o' Ho Hk) in Hcont. exact Hcont.
Qed.

Lemma kinds_alloc f o :
  kinds (set_cells f (<[malloc (cells f) := o]> (cells f))) = <[malloc (cells f) := kind_of o]> (kinds f) /\
  kinds f !! malloc (cells f) = None.
Proof.
  unfold kinds, set_cells. cbn [cells]. rewrite fmap_insert. split; [done|].
  by rewrite lookup_fmap, malloc_fresh.
Qed.

Lemma grows_into_raw f o k : kind_of o = k -> grows f (into_raw malloc o) (of_handle k).
Proof.
  intros <-. destruct (kinds_alloc f o) as [Hk Hn]. eexists _, _. split; [reflexivity|]. cbn.
  split_and!; [exact Hk|by repeat constructor|]. apply NoDup_singleton.
Qed.

Lemma grows_from_vec f v : grows f (from_vec malloc v) of_buffer.
Proof.
  destruct v as [|b v]; [by apply grows_sret|]. destruct (kinds_alloc f (OBytes (b :: v))) as [Hk Hn].
  eexists _, _. split; [reflexivity|]. cbn. split_and!; [exact Hk|by repeat constructor|]. apply NoDup_singleton.
Qed.

Lemma grows_on_network {A B} f (m : mut St NetError B) (cont : result NetError B -> ffi A) g :
  (forall r w, grows (mkFfi (cells f) w) (cont r) g) -> grows f (sbind (on_network m) cont) g.
Proof.
  intros Hcont. unfold grows, sbind, on_network in *. destruct (m (world f)) as [r w]. exact (Hcont r w).
Qed.

Lemma holds_set f p o o' h k :
  cells f !! p = Some o' -> kind_of o = kind_of o' -> holds (kinds f) h k ->
  holds (kinds (set_cells f (<[p := o]> (cells f)))) h k.
Proof. intros Ho Hk. by rewrite (kinds_set f p o o' Ho Hk). Qed.

Lemma is_account o : kind_of o = KAccount -> exists b, o = OAccount b /\ as_account o = Some b.
Proof. destruct o; try done. intros _. by eexists. Qed.
Lemma is_session o : kind_of o = KSession -> exists b, o = OSession b /\ as_session o = Some b.
Proof. destruct o; try done. intros _. by eexists. Qed.
Lemma is_transport o : kind_of o = KTransport -> exists b, o = OTransport b /\ as_relay o = Some b.
Proof. destruct o; try done. intros _. by eexists. Qed.
Lemma is_node o : kind_of o = KNode -> exists b, o = ONode b /\ as_node o = Some b.
Proof. destruct o; try done. intros _. by eexists. Qed.
Lemma is_string o : kind_of o = KString -> exists b, o = OString b /\ as_string o = Some b.
Proof. destruct o; try done. intros _. by eexists. Qed.

(** A call that returns, frees [freed] and hands out what [g] says. *)
Definition obeys {A} (f : Ffi) (m : ffi A) (freed : option positive) (g : A -> grant) : Prop :=
  exists r f', m f = (Ok r, f') /\ kinds f' = acquire (g r) (release freed (kinds f)) /\
    Forall (fun pk => kinds f !! pk.1 = None) (g r) /\ NoDup (g r).*1.

Lemma grows_obeys {A} f (m : ffi A) g : grows f m g -> obeys f m None g.
Proof. done. Qed.

Lemma free_box_obeys {B} f (proj : object -> option B) (inj : B -> object) k h :
  (forall o, kind_of o = k -> exists b, o = inj b /\ proj o = Some b) ->
  holds (kinds f) h k -> obeys f (free_box proj h) h nothing.
Proof.
  intros Hproj Hh. unfold obeys, free_box, nothing. destruct h as [p|].
  - destruct (kinds_lookup _ _ _ Hh) as (o & Ho & Hk). destruct (Hproj o Hk) as (b & -> & Hb).
    rewrite Ho. cbn. rewrite Hb. eexists _, _. split; [reflexivity|]. cbn. split_and!; try constructor.
    unfold kinds. cbn. by rewrite fmap_delete.
  - eexists _, _. split; [reflexivity|]. by split_and!; try constructor.
Qed.

Definition freed_buffer (b : ClarityBuffer) : option positive :=
  match buf_ptr b with BufAt p => Some p | _ => None end.

Lemma buffer_free_obeys f b : holds_buffer (kinds f) b -> obeys f (clarity_buffer_free b) (freed_buffer b) nothing.
Proof.
  unfold holds_buffer, obeys, clarity_buffer_free, freed_buffer, nothing. destruct b as [[| |p] n]; cbn.
  - intros _. eexists _, _. split; [reflexivity|]. by split_and!; try constructor.
  - intros ->. eexists _, _. split; [reflexivity|]. by split_and!; try constructor.
  - intros (o & Ho & Hk)%kinds_lookup. rewrite Ho. destruct o as [| | | |l|]; try done. injection Hk as <-.
    rewrite N.eqb_refl. eexists _, _. split; [reflexivity|]. cbn. split_and!; try constructor.
    unfold kinds. cbn. by rewrite fmap_delete.
Qed.

(** ** The exported functions *)

(** Each with what the host must hold to call it, what it frees, and what it
    hands out. Null handles are allowed everywhere. *)
Inductive exported : forall {A}, ffi A -> (gmap positive kind -> Prop) -> option positive -> (A -> grant) -> Prop :=
| ex_buffer_free b :
    exported (clarity_buffer_free b) (fun o => holds_buffer o b) (freed_buffer b) nothing
| ex_string_free h : exported (clarity_string_free h) (fun o => holds o h KString) h nothing
| ex_account_generate ed dh spk ky rng :
    exported (clarity_account_generate malloc ed dh spk ky rng) (fun _ => True) None (of_handle KAccount)
| ex_account_free h : exported (clarity_account_free h) (fun o => holds o h KAccount) h nothing
| ex_account_serialize h :
    exported (clarity_account_serialize malloc h) (fun o => holds o h KAccount) None of_buffer
| ex_account_deserialize r :
    exported (clarity_account_deserialize malloc r) (fun _ => True) None (of_handle KAccount)
| ex_account_identity_public h out :
    exported (clarity_account_identity_public h out) (fun o => holds o h KAccount) None nothing
| ex_account_bundle_base h :
    exported (clarity_account_bundle_base malloc h) (fun o => holds o h KAccount) None of_buffer
| ex_account_one_time_publics h :
    exported (clarity_account_one_time_publics malloc h) (fun o => holds o h KAccount) None of_buffer
| ex_account_one_time_remaining h :
    exported (clarity_account_one_time_remaining h) (fun o => holds o h KAccount) None nothing
| ex_account_replenish_prekeys h n rng :
    exported (clarity_account_replenish_prekeys h n rng) (fun o => holds o h KAccount) None nothing
| ex_session_initiate e sd fr h r :
    exported (clarity_session_initiate malloc e sd fr h r) (fun o => holds o h KAccount) None (of_handle KSession)
| ex_session_respond fr h r out :
    exported (clarity_session_respond malloc fr h r out) (fun o => holds o h KAccount) None of_respond
| ex_session_encrypt h r :
    exported (clarity_session_encrypt malloc h r) (fun o => holds o h KSession) None of_buffer
| ex_session_decrypt fr h r :
    exported (clarity_session_decrypt malloc fr h r) (fun o => holds o h KSession) None of_buffer
| ex_session_free h : exported (clarity_session_free h) (fun o => holds o h KSession) h nothing
| ex_session_serialize h :
    exported (clarity_session_serialize malloc h) (fun o => holds o h KSession) None of_buffer
| ex_session_deserialize r :
    exported (clarity_session_deserialize malloc r) (fun _ => True) None (of_handle KSession)
| ex_safety_number a b : exported (clarity_safety_number malloc a b) (fun _ => True) None (of_handle KString)
| ex_epoch_for_unix t : exported (clarity_epoch_for_unix t) (fun _ => True) None nothing
| ex_inbox_id i e out : exported (clarity_inbox_id i e out) (fun _ => True) None nothing
| ex_bundle_identity_keys r o1 o2 :
    exported (clarity_bundle_identity_keys r o1 o2) (fun _ => True) None nothing
| ex_seal_envelope e h k r :
    exported (clarity_seal_envelope malloc e h k r) (fun o => holds o h KAccount) None of_buffer
| ex_open_envelope h r o1 o2 :
    exported (clarity_open_envelope malloc h r o1 o2) (fun o => holds o h KAccount) None (fun r => of_buffer r.1)
| ex_mesh_node_new k : exported (clarity_mesh_node_new malloc k) (fun _ => True) None (of_handle KNode)
| ex_mesh_node_free h : exported (clarity_mesh_node_free h) (fun o => holds o h KNode) h nothing
| ex_mesh_originate i h k r :
    exported (clarity_mesh_originate malloc i h k r) (fun o => holds o h KNode) None of_buffer
| ex_mesh_ingest h r : exported (clarity_mesh_ingest h r) (fun o => holds o h KNode) None nothing
| ex_mesh_pending_broadcast h :
    exported (clarity_mesh_pending_broadcast malloc h) (fun o => holds o h KNode) None of_buffer
| ex_mesh_take_inbox h :
    exported (clarity_mesh_take_inbox malloc h) (fun o => holds o h KNode) None of_buffer
| ex_relay_transport_direct u :
    exported (clarity_relay_transport_direct malloc u) (fun _ => True) None (of_handle KTransport)
| ex_relay_transport_tor u s :
    exported (clarity_relay_transport_tor malloc u s) (fun _ => True) None (of_handle KTransport)
| ex_relay_transport_free h : exported (clarity_relay_transport_free h) (fun o => holds o h KTransport) h nothing
| ex_relay_publish_account h a :
    exported (clarity_relay_publish_account h a) (fun o => holds o h KTransport /\ holds o a KAccount) None nothing
| ex_relay_publish h b j : exported (clarity_relay_publish h b j) (fun o => holds o h KTransport) None nothing
| ex_relay_fetch_bundle h k :
    exported (clarity_relay_fetch_bundle malloc h k) (fun o => holds o h KTransport) None of_buffer
| ex_relay_send h k r : exported (clarity_relay_send h k r) (fun o => holds o h KTransport) None nothing
| ex_relay_poll h k : exported (clarity_relay_poll malloc h k) (fun o => holds o h KTransport) None of_buffer.

(** The function at the head of an application. *)
Ltac head_of t := match t with ?f _ => head_of f | _ => t end.

(** One step of the symbolic run of a call. *)
Ltac grow_step :=
  match goal with
  | |- grows _ (sret _) _ => apply grows_sret; reflexivity
  | |- grows _ (into_raw _ _) _ => apply grows_into_raw; reflexivity
  | |- grows _ (from_vec _ _) _ => apply grows_from_vec
  | |- grows _ (sbind (on_network _) _) _ => apply grows_on_network; intros ? ?
  | |- grows _ (sbind (set_box (Some _) _) _) _ =>
      eapply grows_set_box; [eassumption|reflexivity|]
  | |- grows _ (sbind (as_ref as_account _) _) _ =>
      eapply (grows_as_ref _ _ OAccount KAccount); [exact is_account|assumption| |intros ? ? -> ?]
  | |- grows _ (sbind (as_ref as_session _) _) _ =>
      eapply (grows_as_ref _ _ OSession KSession); [exact is_session|assumption| |intros ? ? -> ?]
  | |- grows _ (sbind (as_ref as_relay _) _) _ =>
      eapply (grows_as_ref _ _ OTransport KTransport); [exact is_transport|assumption| |intros ? ? -> ?]
  | |- grows _ (sbind (as_ref as_node _) _) _ =>
      eapply (grows_as_ref _ _ ONode KNode); [exact is_node|assumption| |intros ? ? -> ?]
  | |- grows _ (match ?x with _ => _ end) _ => destruct x eqn:?
  | |- grows _ (let '(_, _) := ?x in _) _ => destruct x eqn:?
  end.

Lemma acquire_None g owned p : acquire g owned !! p = None <-> (p ∉ g.*1) /\ owned !! p = None.
Proof.
  induction g as [|[q k] g IH]; cbn.
  - split; [|by intros [_ ?]]. split; [by apply not_elem_of_nil|done].
  - rewrite lookup_insert_None, IH, not_elem_of_cons. naive_solver.
Qed.

(** A second allocation after a first. *)
Lemma grows_bind {A B} f (m : ffi B) (cont : B -> ffi A) (g1 : B -> grant) (g : A -> grant) :
  grows f m g1 ->
  (forall b f1, exists r f2 h, cont b f1 = (Ok r, f2) /\ kinds f2 = acquire h (kinds f1) /\
     Forall (fun pk => kinds f1 !! pk.1 = None) h /\ NoDup h.*1 /\ g r = h ++ g1 b) ->
  grows f (sbind m cont) g.
Proof.
  intros (b & f1 & Hm & Hk & Hfresh & Hnd) Hcont. unfold grows, sbind. rewrite Hm.
  destruct (Hcont b f1) as (r & f2 & h & -> & Hk2 & Hfresh2 & Hnd2 & Hg).
  exists r, f2. rewrite Hg. unfold acquire in *. rewrite foldr_app, Hk2, Hk. split_and!; [done|done| |].
  - apply Forall_app. split; [|done]. eapply Forall_impl; [exact Hfresh2|].
    intros pk. cbn. rewrite Hk. by intros [_ ?]%acquire_None.
  - rewrite fmap_app. apply NoDup_app. split_and!; [done| |done].
    intros p (pk & -> & Hpk)%list_elem_of_fmap. apply (proj1 (Forall_forall _ _) Hfresh2) in Hpk.
    cbn in Hpk. rewrite Hk in Hpk. by apply acquire_None in Hpk as [? _].
Qed.

Lemma grows_assoc {A B C} f (m : ffi C) (k : C -> ffi B) (h : B -> ffi A) g :
  grows f (sbind m (fun c => sbind (k c) h)) g -> grows f (sbind (sbind m k) h) g.
Proof. unfold grows. by setoid_rewrite sbind_assoc. Qed.

Lemma respond_grows f fr h r out :
  holds (kinds f) h KAccount -> grows f (clarity_session_respond malloc fr h r out) of_respond.
Proof.
  intros Hh. unfold clarity_session_respond.
  assert (forall f, grows f (sret (None, if out then Some buffer_null else None)) of_respond) as Hfailed.
  { intros f0. apply grows_sret. by destruct out. }
  grow_step; [apply Hfailed|]. destruct (message_decode _) as [m|]; [|apply Hfailed].
  destruct (session_respond fr m _) as [[[s pt]|e] a]; (eapply grows_set_box; [eassumption|done|]); [|apply Hfailed].
  set (f1 := set_cells f _). destruct out.
  - apply grows_assoc.
    eapply (grows_bind _ _ _ of_buffer); [apply grows_from_vec|]. intros buf f2.
    destruct (grows_into_raw f2 (OSession s) KSession eq_refl) as (h' & f3 & Hraw & Hk & Hfresh & Hnd).
    exists (h', Some buf), f3, (of_handle KSession h').
    unfold sbind, sret. rewrite Hraw. by split_and!.
  - unfold sbind at 1, sret at 1.
    destruct (grows_into_raw f1 (OSession s) KSession eq_refl) as (h' & f3 & Hraw & Hk & Hfresh & Hnd).
    exists (h', None), f3. unfold sbind, sret, of_respond. cbn [fst snd]. rewrite Hraw, app_nil_r. by split_and!.
Qed.

Lemma open_envelope_grows f h r o1 o2 :
  holds (kinds f) h KAccount -> grows f (clarity_open_envelope malloc h r o1 o2) (fun r => of_buffer r.1).
Proof.
  intros Hh. unfold clarity_open_envelope. grow_step; [grow_step|].
  destruct (_ || _); [grow_step|]. destruct (open_envelope _ _) as [o|e]; [|grow_step].
  eapply (grows_bind _ _ _ of_buffer); [apply grows_from_vec|]. intros buf f2.
  eexists _, f2, []. split; [reflexivity|]. cbn. by split_and!; try constructor.
Qed.

Lemma exported_obeys {A} f (m : ffi A) pre freed g :
  exported m pre freed g -> pre (kinds f) -> obeys f m freed g.
Proof.
  intros Hexp. destruct Hexp; intros Hpre;
    try (by eapply free_box_obeys; [first [exact is_account|exact is_session|exact is_transport|exact is_node|exact is_string]|]);
    try (apply grows_obeys; by apply respond_grows); try (apply grows_obeys; by apply open_envelope_grows);
    try (by apply buffer_free_obeys); apply grows_obeys.
  all: cbv beta in Hpre; try match type of Hpre with _ /\ _ => destruct Hpre as [Hpre Hpre'] end.
  all: match goal with |- grows _ ?m _ => (let h := head_of m in unfold h) end.
  all: repeat grow_step.
Qed.

(** ** A host *)

(** A host that holds [owned] makes one call: its part of the contract, and what
    it holds afterwards. *)
Inductive host_turn : Ffi * gmap positive kind -> Ffi * gmap positive kind -> Prop :=
| host_call A (m : ffi A) pre freed g f owned r f' :
    exported m pre freed g -> pre owned -> m f = (Ok r, f') ->
    host_turn (f, owned) (f', acquire (g r) (release freed owned)).

Lemma host_turn_kinds c c' : host_turn c c' -> c.2 = kinds c.1 -> c'.2 = kinds c'.1.
Proof.
  intros Hturn Hown. destruct Hturn as [A m pre freed g f owned r f' Hexp Hpre Hm]. cbn in *. subst owned.
  destruct (exported_obeys f m pre freed g Hexp Hpre) as (r' & f'' & Hm' & Hk & _).
  rewrite Hm in Hm'. by injection Hm' as <- <-.
Qed.

(** C15: the C interface is memory safe for a host that keeps to its ownership
    rules: starting with nothing, whatever calls it makes, in whatever order --
    each handle and buffer it passes being null or one it was given, of the right
    type, and not freed since --, what it holds is exactly what is live, so no call
    it may make next is undefined; every call returns, hands out only boxes that
    are new and distinct, and leaves every other box live and of its type; and once
    it has freed all it was given nothing is leaked. *)
Theorem ffi_memory_safe w f owned :
  star host_turn (mkFfi ∅ w, ∅) (f, owned) ->
  owned = kinds f /\ (owned = ∅ -> cells f = ∅) /\
  (forall A (m : ffi A) pre freed g, exported m pre freed g -> pre owned ->
     exists r f', m f = (Ok r, f') /\ kinds f' = acquire (g r) (release freed owned) /\
       Forall (fun pk => owned !! pk.1 = None) (g r) /\ NoDup (g r).*1).
Proof.
  intros Hstar. assert (owned = kinds f) as Hown.
  { apply (star_invariant host_turn (fun c => c.2 = kinds c.1)) with (2 := Hstar).
    - intros a b Ha Hab. by apply (host_turn_kinds a b).
    - unfold kinds. cbn. by rewrite fmap_empty. }
  split; [done|]. split.
  - rewrite Hown. unfold kinds. apply fmap_empty_inv.
  - intros A m pre freed g Hexp Hpre. rewrite Hown in Hpre |- *. by apply (exported_obeys f m pre freed g).
Qed.

(** ** Publishing an account in two steps *)

Context `{!Base64Laws, !BincodeLaws PreKeyBundle, !JsonArrayLaws}.

Lemma read_entries_published pool :
  read_entries (map (fun '(id, s) => mkEntry (Some (wrap 64 (wval id))) (Some s))
                 (map (fun '(id, public) => (id, b64 (abytes public))) pool)) = Some pool.
Proof.
  induction pool as [|[id k] pool IH]; [done|]. cbn [map read_entries].
  unfold read_entry at 1. cbn [je_id je_public]. rewrite b64_roundtrip, array_of_abytes, IH. do 3 f_equal.
  pose proof (word_lt id) as Hid. apply word_eq.
  rewrite (wval_wrap_small 64) by (eapply N.lt_trans; [exact Hid|done]). by rewrite wrap_wval.
Qed.

(** What the host reads through a buffer. *)
Definition contents (f : Ffi) (buf : ClarityBuffer) : Region :=
  match buf_ptr buf with
  | BufNull => None
  | BufDangling => Some []
  | BufAt p => match cells f !! p with Some (OBytes l) => Some l | _ => None end
  end.

Lemma from_vec_contents v f :
  exists buf f', from_vec malloc v f = (Ok buf, f') /\ contents f' buf = Some v /\ world f' = world f /\
    (forall p o, cells f !! p = Some o -> cells f' !! p = Some o) /\
    (forall buf' l, contents f buf' = Some l -> contents f' buf' = Some l).
Proof.
  destruct v as [|x v]; [by eexists _, _|]. eexists _, _. split; [reflexivity|].
  pose proof (malloc_fresh (cells f)) as Hfresh.
  assert (forall p o, cells f !! p = Some o ->
    <[malloc (cells f) := OBytes (x :: v)]> (cells f) !! p = Some o) as Hkeep.
  { intros p o Ho. rewrite lookup_insert_ne; [done|]. intros Heq. by rewrite <-Heq, Hfresh in Ho. }
  split_and!; [|done|exact Hkeep|].
  - unfold contents, set_cells. cbn [buf_ptr cells]. by rewrite lookup_insert_eq.
  - intros [[| |p] n] l; unfold contents; cbn [buf_ptr cells set_cells]; [done|done|].
    destruct (cells f !! p) as [o|] eqn:Hp; [|done]. by rewrite (Hkeep p o Hp).
Qed.

(** C18: the two ways to publish agree: a host without the account in reach that
    hands the two buffers the account exported -- its base bundle and the JSON of
    its one-time prekeys -- to [clarity_relay_publish] has exactly the effect, on
    the network and on the heap, and gets exactly the code of
    [clarity_relay_publish_account] on the account itself. *)
Theorem publish_from_bytes_agrees f t acct account transport :
  cells f !! acct = Some (OAccount account) -> cells f !! t = Some (OTransport transport) ->
  exists bundle_buf f1 json_buf f2,
    clarity_account_bundle_base malloc (Some acct) f = (Ok bundle_buf, f1) /\
    clarity_account_one_time_publics malloc (Some acct) f1 = (Ok json_buf, f2) /\
    clarity_relay_publish (Some t) (contents f2 bundle_buf) (contents f2 json_buf) f2
    = clarity_relay_publish_account (Some t) (Some acct) f2.
Proof.
  intros Hacct Ht.
  destruct (from_vec_contents (bundle_encode (without_one_time (bundle account))) f)
    as (buf1 & f1 & Hv1 & Hc1 & _ & Hkeep1 & _).
  pose proof (Hkeep1 _ _ Hacct) as Hacct1. pose proof (Hkeep1 _ _ Ht) as Ht1.
  set (json := bytes_of_string (json_array_text
    (map (fun '(id, public) => (id, b64 (abytes public))) (one_time_prekey_publics account)))).
  destruct (from_vec_contents json f1) as (buf2 & f2 & Hv2 & Hc2 & _ & Hkeep2 & Hbuf2).
  pose proof (Hkeep2 _ _ Hacct1) as Hacct2. pose proof (Hkeep2 _ _ Ht1) as Ht2.
  exists buf1, f1, buf2, f2. split_and!.
  - unfold clarity_account_bundle_base, sbind, as_ref. by rewrite Hacct.
  - unfold clarity_account_one_time_publics, sbind, as_ref. by rewrite Hacct1.
  - rewrite (Hbuf2 _ _ Hc1), Hc2. unfold clarity_relay_publish, clarity_relay_publish_account, as_slice.
    cbn [from_option id]. unfold json. rewrite bundle_decode_encode, json_array_roundtrip, read_entries_published.
    unfold sbind, as_ref. rewrite Ht2. cbn [mbind option_bind as_relay]. by rewrite Hacct2.
Qed.

(** ** Lists of messages *)

(** A reference reader of the encoded lists, as a host has one. *)
Definition decode_byte_list (b : list u8) : option (list (list u8)) :=
  match read_u32 (cursor_new b) with
  | (Some n, c) =>
      match read_fields (N.to_nat n) c with
      | (Some items, c) => if is_done c then Some items else None
      | (None, _) => None
      end
  | (None, _) => None
  end.

Definition encodable (items : list (list u8)) : Prop :=
  (N.of_nat (length items) < 2 ^ 32)%N /\ Forall short items /\ addressable (encode_byte_list items).

Lemma encode_byte_list_framed items :
  encode_byte_list items = le_bytes 4 (wrap 32 (N.of_nat (length items))) ++ framed items.
Proof. unfold encode_byte_list, framed. apply (foldl_app (fun f => len32 f ++ f)). Qed.

Lemma decode_encode_byte_list items : encodable items -> decode_byte_list (encode_byte_list items) = Some items.
Proof.
  intros (Hn & Hs & Had). unfold decode_byte_list. pose proof (at_start _ Had) as Hat.
  rewrite encode_byte_list_framed in Hat |- *.
  destruct (read_u32_at _ _ _ _ Hat (length_le_bytes _ _)) as (c1 & -> & Hat1).
  assert (N.to_nat (wrap 32 (le_value (le_bytes 4 (wrap 32 (N.of_nat (length items)))))) = length items) as ->.
  { rewrite le_value_bytes, !wval_wrap. change (256 ^ N.of_nat 4)%N with (2 ^ 32)%N.
    rewrite !N.Div0.mod_mod, N.mod_small by done. lia. }
  rewrite <-(app_nil_r (framed items)) in Hat1.
  destruct (read_fields_at items c1 _ [] Hat1 Hs) as (c2 & -> & Hat2). by rewrite (at_end_done _ _ Hat2).
Qed.

(** Lists of messages cross the interface whole: what a host reads from the
    buffer that [clarity_mesh_take_inbox] returns is, split at the encoded
    lengths, exactly the node's inbox, message by message and in order, and the
    inbox is empty afterwards; likewise the frames to broadcast, which leave the
    node as it is; no two lists have the same encoding. *)
Theorem message_lists_cross f node n items items' :
  cells f !! node = Some (ONode n) -> encodable (inbox n) -> encodable (map frame_encode (outbound n)) ->
  (exists buf f', clarity_mesh_take_inbox malloc (Some node) f = (Ok buf, f') /\
     (contents f' buf ≫= decode_byte_list) = Some (inbox n) /\
     cells f' !! node = Some (ONode (set_inbox n []))) /\
  (exists buf f', clarity_mesh_pending_broadcast malloc (Some node) f = (Ok buf, f') /\
     (contents f' buf ≫= decode_byte_list) = Some (map frame_encode (outbound n)) /\
     cells f' !! node = Some (ONode n)) /\
  (encodable items -> encodable items' -> encode_byte_list items = encode_byte_list items' -> items = items').
Proof.
  intros Hn Hin Hout. split_and!.
  - set (f1 := set_cells f (<[node := ONode (set_inbox n [])]> (cells f))).
    destruct (from_vec_contents (encode_byte_list (inbox n)) f1) as (buf & f' & Hv & Hc & _ & Hkeep & _).
    exists buf, f'. split_and!.
    + unfold clarity_mesh_take_inbox, sbind, as_ref. by rewrite Hn.
    + rewrite Hc. by apply decode_encode_byte_list.
    + apply Hkeep. unfold f1, set_cells. cbn [cells]. by rewrite lookup_insert_eq.
  - destruct (from_vec_contents (encode_byte_list (map frame_encode (outbound n))) f)
      as (buf & f' & Hv & Hc & _ & Hkeep & _).
    exists buf, f'. split_and!.
    + unfold clarity_mesh_pending_broadcast, sbind, as_ref. by rewrite Hn.
    + rewrite Hc. by apply decode_encode_byte_list.
    + by apply Hkeep.
  - intros Hi Hi' Heq. apply (f_equal decode_byte_list) in Heq.
    rewrite !decode_encode_byte_list in Heq by done. by injection Heq.
Qed.
End FfiProps.

(** ** A concrete host *)
From S2P Require Import Demo IdentityProps SessionProps RelayStoreProps RelayServerProps NetProps MeshProps.

Module FfiDemo.
Import Demo WireDemo IdentityDemo SessionDemo RelayDemo HttpDemo NetDemo MeshDemo.

Definition malloc (c : gmap positive object) : positive := fresh (dom c : gset positive).
Lemma malloc_fresh c : c !! malloc c = None.
Proof.
  unfold malloc. apply (not_elem_of_dom (D := gset positive) c).
  exact (is_fresh (dom c : gset positive)).
Qed.

#[export] Instance proxy_parser : ProxyParser := { proxy_new s := Ok tt }.
#[export] Instance json_array : JsonArray := {
  json_array_text l := letters (enc l);
  json_array_read bytes :=
    match unletters (String.string_of_list_ascii (map Words.ascii_of_byte bytes)) with
    | Some l =>
        match dec (A := list (u32 * string)) l with
        | Some (l, _) => Some (map (fun '(id, s) => mkEntry (Some (wrap 64 (wval id))) (Some s)) l)
        | None => None
        end
    | None => None
    end
}.
#[export] Instance json_array_laws : JsonArrayLaws.
Proof.
  split. intros l. cbn [json_array_read json_array_text json_array]. rewrite string_bytes, unletters_letters.
  rewrite <-(app_nil_r (enc l)). by rewrite dec_enc.
Qed.

#[export] Instance agent : HttpAgent RelayStore := Net.served origin (wrap 64 30) display.
Definition empty : Ffi.Ffi (St := RelayStore) := mkFfi ∅ (with_limits small).
End FfiDemo.

Import Demo WireDemo IdentityDemo SessionDemo RelayDemo HttpDemo NetDemo MeshDemo FfiDemo.

(** An account made, used and freed: nothing is left. *)
Lemma ffi_memory_safe_witness :
  let generated := clarity_account_generate FfiDemo.malloc (signing 11) (secret 12) (secret 13) (kyber_pair 14) (draws 40) FfiDemo.empty in
  exists h f1 f2, generated = (Ok h, f1) /\ clarity_account_free h f1 = (Ok tt, f2) /\ cells f2 = ∅.
Proof.
  intros generated.
  set (f1 := set_cells FfiDemo.empty (<[FfiDemo.malloc ∅ := OAccount (generate (signing 11) (secret 12) (secret 13) (kyber_pair 14) (draws 40))]> ∅)).
  set (f2 := set_cells f1 (delete (FfiDemo.malloc ∅) (cells f1))).
  assert (clarity_account_free (Some (FfiDemo.malloc ∅)) f1 = (Ok tt, f2)) as Hfree.
  { unfold clarity_account_free, free_box. subst f1. cbn [cells set_cells]. by rewrite lookup_insert_eq. }
  exists (Some (FfiDemo.malloc ∅)), f1, f2. split; [reflexivity|]. split; [exact Hfree|].
  assert (star (host_turn FfiDemo.malloc) (mkFfi ∅ (with_limits small), ∅)
            (f2, acquire [] (release (Some (FfiDemo.malloc ∅)) (acquire (of_handle KAccount (Some (FfiDemo.malloc ∅))) ∅))))
    as Hstar.
  { eapply star_step; [eapply star_step; [apply star_refl|]|].
    - eapply (host_call _ _ _ _ None (of_handle KAccount)); [apply ex_account_generate|done|reflexivity].
    - eapply (host_call _ _ _ _ (Some (FfiDemo.malloc ∅)) nothing); [apply ex_account_free| |exact Hfree].
      cbn. by rewrite lookup_insert_eq. }
  destruct (ffi_memory_safe FfiDemo.malloc FfiDemo.malloc_fresh _ _ _ Hstar) as (_ & Hleak & _).
  apply Hleak. cbn. by rewrite delete_insert_id.
Defined.

Lemma publish_from_bytes_agrees_witness :
  let f := mkFfi (<[1%positive := OAccount bob]> (<[2%positive := OTransport relay]> ∅)) (with_limits small) in
  exists bundle_buf f1 json_buf f2,
    clarity_account_bundle_base FfiDemo.malloc (Some 1%positive) f = (Ok bundle_buf, f1) /\
    clarity_account_one_time_publics FfiDemo.malloc (Some 1%positive) f1 = (Ok json_buf, f2) /\
    clarity_relay_publish (Some 2%positive) (contents f2 bundle_buf) (contents f2 json_buf) f2
    = clarity_relay_publish_account (Some 2%positive) (Some 1%positive) f2.
Proof.
  intros f.
  exact (publish_from_bytes_agrees FfiDemo.malloc FfiDemo.malloc_fresh f 2 1 bob relay eq_refl eq_refl).
Defined.

Lemma message_lists_cross_witness :
  let n := mkNode (key 1) (wrap 8 3) ∅ [] ∅ [] [bytes [1; 2]%N; []; bytes [3]%N] in
  let f := mkFfi (<[5%positive := ONode n]> ∅) (with_limits small) in
  exists buf f', clarity_mesh_take_inbox FfiDemo.malloc (Some 5%positive) f = (Ok buf, f') /\
    (contents f' buf ≫= decode_byte_list) = Some [bytes [1; 2]%N; []; bytes [3]%N].
Proof.
  intros n f.
  assert (encodable (inbox n)) as Hin.
  { split; [done|]. split; [|by vm_compute]. cbn [inbox n]. repeat (apply Forall_cons; split; [by vm_compute|]). by apply Forall_nil. }
  assert (encodable (map frame_encode (outbound n))) as Hout.
  { split; [done|]. split; [by apply Forall_nil|by vm_compute]. }
  destruct (message_lists_cross FfiDemo.malloc FfiDemo.malloc_fresh f 5 n [] [] eq_refl Hin Hout)
    as ((buf & f' & Ht & Hd & _) & _).
  by exists buf, f'.
Defined.
