(* ===== verification/FfiSession.v ===== *)
(** * Conversations through the C interface (ffi/src/lib.rs)

    Two hosts, each with a heap of its own behind the C interface, keep up a
    conversation: what they do is calls of the exported functions on handles, what
    travels is what they read from buffers. Every such step is a step of the two
    applications of [SessionConversation], so what holds of sessions holds of the
    handles. *)
From S2P Require Import Prelude Words Primitives Wire Kdf PqKem Identity IdentityProps Handshake.
From S2P Require Import Ratchet Session SessionProps Conversation SessionConversation.
From S2P Require Import Mesh RelayStore RelayServer Net Ffi FfiProps.

Section FfiSession.
Context `{X : X25519, Sym : SymCrypto, Ed : Ed25519, Kem : MlKem}.
Context `{!Bincode PreKeyBundle, !Bincode Message, !Bincode RatchetHeader}.
Context `{!Bincode StoredAccount, !Bincode StoredRatchet, !Bincode StoredSession}.
Context {St : Type}.
Variable malloc : gmap positive object -> positive.
Hypothesis malloc_fresh : forall c, c !! malloc c = None.

Abbreviation Ffi := (Ffi.Ffi (St := St)).
Abbreviation ffi A := (mut Ffi ub A).

(** ** What a host does with the functions *)

(** Copy what a buffer holds and give it back; a null buffer is a failure. *)
Definition take_buffer (buf : ClarityBuffer) : ffi Region := fun f =>
  (clarity_buffer_free buf ;! sret (contents f buf)) f.

Definition host_encrypt (h : Handle) (pt : list u8) : ffi Region :=
  let! buf := clarity_session_encrypt malloc h (Some pt) in take_buffer buf.
Definition host_decrypt (fresh : StaticSecret) (h : Handle) (msg : list u8) : ffi Region :=
  let! buf := clarity_session_decrypt malloc fresh h (Some msg) in take_buffer buf.
Definition host_respond (fresh : StaticSecret) (acct : Handle) (msg : list u8) : ffi (Handle * Region) :=
  let! r := clarity_session_respond malloc fresh acct (Some msg) true in
  let! pt := match r.2 with Some buf => take_buffer buf | None => sret None end in
  sret (r.1, pt).

(** A restart: the session is written out and freed, and read in again. *)
Definition host_reload (h : Handle) : ffi Handle :=
  let! buf := clarity_session_serialize malloc h in
  let! bytes := take_buffer buf in
  clarity_session_free h ;!
  clarity_session_deserialize malloc bytes.

(** ** The calls, on live handles *)

Lemma take_from_vec v (f : Ffi) : (let! buf := from_vec malloc v in take_buffer buf) f = (Ok (Some v), f).
Proof.
  destruct v as [|b v]; [done|]. unfold sbind at 1, from_vec, take_buffer, sbind, clarity_buffer_free.
  cbn [buf_ptr buf_len cells set_cells contents]. rewrite lookup_insert_eq, N.eqb_refl.
  cbn [sret]. do 2 f_equal. destruct f as [c w]. unfold set_cells. cbn [cells world].
  by rewrite delete_insert_id.
Qed.

Lemma take_null (f : Ffi) : take_buffer buffer_null f = (Ok None, f).
Proof. done. Qed.

Definition with_cell (p : positive) (o : object) (f : Ffi) : Ffi := set_cells f (<[p := o]> (cells f)).

Lemma host_encrypt_live p s pt f :
  cells f !! p = Some (OSession s) ->
  host_encrypt (Some p) pt f
  = (Ok match (session_encrypt pt s).1 with Ok m => Some (message_encode m) | Err _ => None end,
     with_cell p (OSession (session_encrypt pt s).2) f).
Proof.
  intros Hp. unfold host_encrypt, clarity_session_encrypt. rewrite sbind_assoc.
  unfold sbind at 1, as_ref. rewrite Hp. cbn [mbind option_bind as_session as_slice from_option id].
  destruct (session_encrypt pt s) as [[m|e] s']; cbn [fst snd]; rewrite sbind_assoc;
    unfold sbind at 1, set_box; fold (with_cell p (OSession s') f).
  - apply take_from_vec.
  - apply take_null.
Qed.

Lemma host_decrypt_live fresh p s m msg f :
  cells f !! p = Some (OSession s) -> message_decode msg = Ok m ->
  host_decrypt fresh (Some p) msg f
  = (Ok match (session_decrypt fresh m s).1 with Ok pt => Some pt | Err _ => None end,
     with_cell p (OSession (session_decrypt fresh m s).2) f).
Proof.
  intros Hp Hm. unfold host_decrypt, clarity_session_decrypt. rewrite sbind_assoc.
  unfold sbind at 1, as_ref. rewrite Hp. cbn [mbind option_bind as_session as_slice from_option id]. rewrite Hm.
  destruct (session_decrypt fresh m s) as [[pt|e] s']; cbn [fst snd]; rewrite sbind_assoc;
    unfold sbind at 1, set_box; fold (with_cell p (OSession s') f).
  - apply take_from_vec.
  - apply take_null.
Qed.

Lemma host_respond_live fresh p a m msg f :
  cells f !! p = Some (OAccount a) -> message_decode msg = Ok m ->
  let f1 := with_cell p (OAccount (session_respond fresh m a).2) f in
  match (session_respond fresh m a).1 with
  | Ok (s, pt) => exists q, cells f1 !! q = None /\
      host_respond fresh (Some p) msg f = (Ok (Some q, Some pt), with_cell q (OSession s) f1)
  | Err _ => host_respond fresh (Some p) msg f = (Ok (None, None), f1)
  end.
Proof.
  intros Hp Hm f1. unfold host_respond, clarity_session_respond.
  destruct (session_respond fresh m a) as [[[s pt]|e] a'] eqn:Hr; cbn [fst snd] in *.
  2:{ rewrite sbind_assoc. unfold sbind at 1, as_ref. rewrite Hp. cbn [mbind option_bind as_account as_slice from_option id].
      rewrite Hm, Hr, sbind_assoc. reflexivity. }
  assert (forall q, with_cell q (OSession s) f1 = mkFfi (<[q := OSession s]> (cells f1)) (world f)) as Hwith by done.
  destruct pt as [|x pt].
  - exists (malloc (cells f1)). split; [apply malloc_fresh|]. rewrite sbind_assoc. unfold sbind at 1, as_ref. rewrite Hp.
    cbn [mbind option_bind as_account as_slice from_option id]. rewrite Hm, Hr. reflexivity.
  - set (q0 := malloc (cells f1)). set (c1 := <[q0 := OBytes (x :: pt)]> (cells f1)). set (q := malloc c1).
    assert (c1 !! q = None) as Hq by apply malloc_fresh.
    assert (cells f1 !! q0 = None) as Hq0 by apply malloc_fresh.
    apply lookup_insert_None in Hq as [Hq Hne].
    exists q. split; [done|]. rewrite sbind_assoc. unfold sbind at 1, as_ref. rewrite Hp.
    cbn [mbind option_bind as_account as_slice from_option id]. rewrite Hm, Hr.
    unfold sbind, set_box, sret, from_vec, into_raw, take_buffer, clarity_buffer_free.
    fold (with_cell p (OAccount a') f). fold f1. fold q0. cbn [set_cells cells]. fold c1. fold q.
    cbn [snd fst buf_ptr buf_len set_cells cells contents]. unfold sbind, sret. cbn [set_cells cells].
    rewrite !lookup_insert_ne by done. unfold c1 at 1 2. rewrite !lookup_insert_eq, N.eqb_refl.
    do 2 f_equal; [unfold c1; by rewrite lookup_insert_eq|].
    unfold with_cell, set_cells. cbn [cells world]. f_equal. unfold c1. rewrite delete_insert_ne by done. by rewrite delete_insert_id.
Qed.

Lemma host_reload_live p s f `{!X25519Laws, !BincodeLaws StoredRatchet, !BincodeLaws StoredSession} :
  cells f !! p = Some (OSession s) ->
  exists q, delete p (cells f) !! q = None /\
    host_reload (Some p) f = (Ok (Some q), set_cells f (<[q := OSession s]> (delete p (cells f)))).
Proof.
  intros Hp. exists (malloc (delete p (cells f))). split; [apply malloc_fresh|].
  unfold host_reload, clarity_session_serialize. rewrite sbind_assoc. unfold sbind at 1, as_ref. rewrite Hp.
  cbn [mbind option_bind as_session]. rewrite <-sbind_assoc.
  rewrite (sbind_ok _ _ _ _ _ (take_from_vec (session_serialize s) f)).
  unfold sbind at 1, clarity_session_free, free_box. rewrite Hp. cbn [mbind option_bind as_session].
  unfold clarity_session_deserialize, as_slice. cbn [from_option id]. by rewrite session_deserialize_serialize.
Qed.

(** ** The two hosts *)

(** What one host wrote and the other is to read, with the plaintext. *)
Record wire := mkWire { w_from : bool; w_bytes : list u8; w_plain : list u8 }.

Record hosts := mkHosts {
  host_a : Ffi;
  sess_a : positive;            (** the initiator's session *)
  host_b : Ffi;
  acct_b : positive;            (** the responder's account *)
  sess_b : option positive;     (** its session, once there is one *)
  wires : list wire;
  dealt : list key32            (** the ratchet public keys drawn so far *)
}.

Definition heap_of (s : bool) (w : hosts) : Ffi := if s then host_a w else host_b w.
Definition handle_of (s : bool) (w : hosts) : Handle := if s then Some (sess_a w) else sess_b w.
Definition put_heap (s : bool) (f : Ffi) (w : hosts) : hosts :=
  if s then mkHosts f (sess_a w) (host_b w) (acct_b w) (sess_b w) (wires w) (dealt w)
  else mkHosts (host_a w) (sess_a w) f (acct_b w) (sess_b w) (wires w) (dealt w).
Definition put_handle (s : bool) (p : positive) (w : hosts) : hosts :=
  if s then mkHosts (host_a w) p (host_b w) (acct_b w) (sess_b w) (wires w) (dealt w)
  else mkHosts (host_a w) (sess_a w) (host_b w) (acct_b w) (Some p) (wires w) (dealt w).
Definition put_result (h : Handle) (w : hosts) : hosts :=
  match h with Some p => put_handle false p w | None => w end.
Definition with_wires (l : list wire) (w : hosts) : hosts :=
  mkHosts (host_a w) (sess_a w) (host_b w) (acct_b w) (sess_b w) l (dealt w).
Definition with_dealt (d : list key32) (w : hosts) : hosts :=
  mkHosts (host_a w) (sess_a w) (host_b w) (acct_b w) (sess_b w) (wires w) d.

(** The objects of the conversation. *)
Definition ours (s : bool) (w : hosts) (p : positive) : Prop :=
  handle_of s w = Some p \/ (s = false /\ p = acct_b w).

(** The limits of the code, on the session behind the handle. *)
Definition may_send (s : bool) (w : hosts) : Prop :=
  forall p ses, handle_of s w = Some p -> cells (heap_of s w) !! p = Some (OSession ses) ->
    fits32 (S (cnt (n_send (ratchet ses)))).
Definition may_take (s : bool) (w : hosts) (bytes : list u8) : Prop :=
  forall m, message_decode bytes = Ok m ->
  match handle_of s w with
  | Some p => forall ses, cells (heap_of s w) !! p = Some (OSession ses) ->
      within_limits (ratchet ses) (message_header m)
  | None => cnt (rh_n (message_header m)) <= N.to_nat MAX_SKIP
  end.
Definition may_replenish (w : hosts) (count : u32) : Prop :=
  forall a, cells (host_b w) !! acct_b w = Some (OAccount a) -> (wval (next_opk_id a) + wval count < 2 ^ 32)%N.

Variable offered : option u32.

Inductive hosts_step : hosts -> hosts -> Prop :=
| hs_encrypt s p pt bytes f' w :
    handle_of s w = Some p -> may_send s w ->
    host_encrypt (Some p) pt (heap_of s w) = (Ok (Some bytes), f') ->
    hosts_step w (with_wires (mkWire s bytes pt :: wires w) (put_heap s f' w))
| hs_decrypt c rest p fresh r f' w :
    wires w ≡ₚ c :: rest -> handle_of (negb (w_from c)) w = Some p ->
    public_of fresh ∉ dealt w -> may_take (negb (w_from c)) w (w_bytes c) ->
    host_decrypt fresh (Some p) (w_bytes c) (heap_of (negb (w_from c)) w) = (Ok r, f') ->
    hosts_step w (with_dealt (public_of fresh :: dealt w) (with_wires rest (put_heap (negb (w_from c)) f' w)))
| hs_respond c rest fresh h r f' w :
    wires w ≡ₚ c :: rest -> w_from c = true -> sess_b w = None ->
    public_of fresh ∉ dealt w -> may_take false w (w_bytes c) ->
    host_respond fresh (Some (acct_b w)) (w_bytes c) (host_b w) = (Ok (h, r), f') ->
    hosts_step w (with_dealt (public_of fresh :: dealt w) (with_wires rest (put_result h (put_heap false f' w))))
| hs_lose c rest w :
    wires w ≡ₚ c :: rest -> hosts_step w (with_wires rest w)
| hs_reload s p p' f' w :
    handle_of s w = Some p -> host_reload (Some p) (heap_of s w) = (Ok (Some p'), f') ->
    hosts_step w (put_handle s p' (put_heap s f' w))
| hs_other_peer fresh msg m r f' w :
    message_decode msg = Ok m -> (forall id, offered = Some id -> prekey_of m <> Some id) ->
    host_respond fresh (Some (acct_b w)) msg (host_b w) = (Ok r, f') ->
    hosts_step w (put_heap false f' w)
| hs_replenish count rng code f' w :
    may_replenish w count ->
    clarity_account_replenish_prekeys (Some (acct_b w)) count rng (host_b w) = (Ok code, f') ->
    hosts_step w (put_heap false f' w)
| hs_elsewhere s f' w :
    (forall p, ours s w p -> cells f' !! p = cells (heap_of s w) !! p) ->
    hosts_step w (put_heap s f' w).

(** ** The hosts are the applications *)

Definition wire_for (p : parcel) : wire := mkWire (c_from p) (message_encode (c_msg p)) (c_plain p).

Record view (w : hosts) (v : apps) : Prop := mkView {
  vw_session s : match handle_of s w with
                 | Some p => exists ses, session_of s v = Some ses /\ cells (heap_of s w) !! p = Some (OSession ses)
                 | None => session_of s v = None
                 end;
  vw_account : cells (host_b w) !! acct_b w = Some (OAccount (account v));
  vw_wires : wires w = wire_for <$> transit v;
  vw_dealt : dealt w = drawn v
}.

(** A step that changes one host's heap and session. *)
Lemma view_move w v w' v' s p ses :
  view w v -> handle_of s w' = Some p -> session_of s v' = Some ses ->
  cells (heap_of s w') !! p = Some (OSession ses) ->
  handle_of (negb s) w' = handle_of (negb s) w -> session_of (negb s) v' = session_of (negb s) v ->
  heap_of (negb s) w' = heap_of (negb s) w ->
  cells (host_b w') !! acct_b w' = Some (OAccount (account v')) ->
  wires w' = wire_for <$> transit v' -> dealt w' = drawn v' -> view w' v'.
Proof.
  intros [Hs _ _ _] Hh Hses Hcell Hh' Hses' Hheap Hacc Hw Hd. split; [|done|done|done].
  intros s'. destruct (decide (s' = s)) as [->|Hne]; [rewrite Hh; by exists ses|].
  assert (s' = negb s) as -> by (by destruct s, s'). rewrite Hh', Hses', Hheap. apply Hs.
Qed.

Lemma session_live w v s p :
  view w v -> handle_of s w = Some p ->
  exists ses, session_of s v = Some ses /\ cells (heap_of s w) !! p = Some (OSession ses).
Proof. intros Hv Hp. pose proof (vw_session _ _ Hv s) as Hs. by rewrite Hp in Hs. Qed.

(** The account is another object than the session. *)
Lemma account_kept w v s p (ses : Session) o :
  view w v -> handle_of s w = Some p -> cells (heap_of s w) !! p = Some (OSession ses) ->
  cells (host_b (put_heap s (with_cell p o (heap_of s w)) w)) !! acct_b w = Some (OAccount (account v)).
Proof.
  intros Hv Hp Hses. pose proof (vw_account _ _ Hv) as Ha. destruct s; [exact Ha|].
  cbn in *. rewrite lookup_insert_ne; [done|]. intros ->. by rewrite Hses in Ha.
Qed.

Context `{!X25519Laws, !SymCryptoLaws, !Ed25519Laws, !MlKemLaws, !BincodeLaws Message,
          !BincodeLaws StoredAccount, !BincodeLaws StoredRatchet, !BincodeLaws StoredSession}.

Lemma view_encrypt w v s p pt bytes f' :
  view w v -> handle_of s w = Some p -> may_send s w ->
  host_encrypt (Some p) pt (heap_of s w) = (Ok (Some bytes), f') ->
  exists v', app_step offered v v' /\
    view (with_wires (mkWire s bytes pt :: wires w) (put_heap s f' w)) v'.
Proof.
  intros Hv Hp Hmay Hcall. destruct (session_live _ _ _ _ Hv Hp) as (ses & Hses & Hcell).
  rewrite (host_encrypt_live _ _ _ _ Hcell) in Hcall.
  destruct (session_encrypt pt ses) as [[m|e] ses'] eqn:Henc; [|done]. injection Hcall as <- <-.
  cbn [snd]. exists (with_transit (mkParcel s m pt :: transit v) (put_session s ses' v)). split.
  - apply (app_send offered s pt m ses ses' v); [done|by eapply Hmay|done].
  - pose proof (account_kept _ _ _ _ _ (OSession ses') Hv Hp Hcell) as Hacc.
    apply (view_move w v _ _ s p ses' Hv); try (by destruct s).
    + destruct s; apply lookup_insert_eq.
    + destruct s; cbn; by rewrite (vw_wires _ _ Hv).
    + by destruct s; cbn; rewrite (vw_dealt _ _ Hv).
Qed.

Lemma wires_perm w v c rest :
  view w v -> wires w ≡ₚ c :: rest ->
  exists q l, transit v ≡ₚ q :: l /\ c = wire_for q /\ rest = wire_for <$> l.
Proof.
  intros Hv Hc. rewrite (vw_wires _ _ Hv) in Hc. symmetry in Hc.
  destruct (Permutation_map_inv _ _ Hc) as ([|q l] & Heq & Hp); [done|]. injection Heq as -> ->.
  by exists q, l.
Qed.

(** The limits seen through the handle are those of the session. *)
Lemma may_take_acceptable w v s m :
  view w v -> may_take s w (message_encode m) -> acceptable s v (message_header m).
Proof.
  intros Hv Hmay. specialize (Hmay m (message_decode_encode m)). unfold acceptable.
  pose proof (vw_session _ _ Hv s) as Hs. destruct (handle_of s w) as [p|].
  - destruct Hs as (ses & -> & Hcell). by apply Hmay.
  - by rewrite Hs.
Qed.

Lemma view_decrypt w v c rest p fresh r f' :
  view w v -> wires w ≡ₚ c :: rest -> handle_of (negb (w_from c)) w = Some p ->
  public_of fresh ∉ dealt w -> may_take (negb (w_from c)) w (w_bytes c) ->
  host_decrypt fresh (Some p) (w_bytes c) (heap_of (negb (w_from c)) w) = (Ok r, f') ->
  exists v', app_step offered v v' /\
    view (with_dealt (public_of fresh :: dealt w) (with_wires rest (put_heap (negb (w_from c)) f' w))) v'.
Proof.
  intros Hv Hperm Hp Hfresh Hmay Hcall.
  destruct (wires_perm _ _ _ _ Hv Hperm) as (q & l & Ht & -> & ->). cbn [wire_for w_from w_bytes] in *.
  destruct (session_live _ _ _ _ Hv Hp) as (ses & Hses & Hcell).
  rewrite (host_decrypt_live _ _ _ _ _ _ Hcell (message_decode_encode _)) in Hcall. injection Hcall as <- <-.
  eexists. split.
  - apply (app_receive offered q l fresh v Ht); [by rewrite <-(vw_dealt _ _ Hv)|by eapply may_take_acceptable].
  - unfold take_in. rewrite message_decode_encode, Hses.
    destruct (session_decrypt fresh (c_msg q) ses) as [res ses'] eqn:Hdec. cbn [snd].
    set (s := negb (c_from q)) in *.
    pose proof (account_kept _ _ _ _ _ (OSession ses') Hv Hp Hcell) as Hacc.
    apply (view_move w v _ _ s p ses' Hv); try (by destruct s).
    + destruct s; apply lookup_insert_eq.
    + by destruct s; cbn; rewrite (vw_dealt _ _ Hv).
Qed.

Lemma session_b_none w v : view w v -> sess_b w = None -> session_b v = None.
Proof. intros Hv Hb. pose proof (vw_session _ _ Hv false) as Hs. cbn in Hs. by rewrite Hb in Hs. Qed.

(** Before the responder has a session. *)
Lemma view_respond w v c rest fresh h r f' :
  view w v -> wires w ≡ₚ c :: rest -> w_from c = true -> sess_b w = None ->
  public_of fresh ∉ dealt w -> may_take false w (w_bytes c) ->
  host_respond fresh (Some (acct_b w)) (w_bytes c) (host_b w) = (Ok (h, r), f') ->
  exists v', app_step offered v v' /\
    view (with_dealt (public_of fresh :: dealt w) (with_wires rest (put_result h (put_heap false f' w)))) v'.
Proof.
  intros Hv Hperm Hfrom Hnone Hfresh Hmay Hcall.
  destruct (wires_perm _ _ _ _ Hv Hperm) as (q & l & Ht & -> & ->). cbn [wire_for w_from w_bytes] in *.
  pose proof (session_b_none _ _ Hv Hnone) as Hvb.
  pose proof (host_respond_live fresh _ _ _ _ _ (vw_account _ _ Hv) (message_decode_encode (c_msg q))) as Hlive.
  eexists. split.
  - apply (app_receive offered q l fresh v Ht); rewrite ?Hfrom; cbn [negb];
      [by rewrite <-(vw_dealt _ _ Hv)|by eapply may_take_acceptable].
  - unfold take_in. rewrite message_decode_encode, Hfrom. cbn [negb session_of]. rewrite Hvb.
    destruct (session_respond fresh (c_msg q) (account v)) as [[[ses pt]|e] a]; cbn [fst snd] in *.
    + destruct Hlive as (p & Hp & Hlive). rewrite Hlive in Hcall. injection Hcall as <- <- <-.
      apply (view_move w v _ _ false p ses Hv); try done.
      * apply lookup_insert_eq.
      * cbn. rewrite lookup_insert_ne; [by apply lookup_insert_eq|].
        intros ->. cbn in Hp. by rewrite lookup_insert_eq in Hp.
      * cbn. by rewrite (vw_dealt _ _ Hv).
    + rewrite Hlive in Hcall. injection Hcall as <- <- <-. destruct Hv as [Hs Ha Hw Hd].
      split; [|apply lookup_insert_eq|done|by cbn; rewrite Hd].
      intros []; [exact (Hs true)|].
      change (match sess_b w with Some p => exists ses, session_b v = Some ses /\
        cells (with_cell (acct_b w) (OAccount a) (host_b w)) !! p = Some (OSession ses)
        | None => session_b v = None end). by rewrite Hnone.
Qed.

(** A call of the responder's that changes its account's box to [a] and makes
    new boxes, as one step of the application's account. *)
Lemma view_account w v a f' :
  view w v -> cells f' !! acct_b w = Some (OAccount a) ->
  (forall p, p <> acct_b w -> is_Some (cells (host_b w) !! p) -> cells f' !! p = cells (host_b w) !! p) ->
  view (put_heap false f' w) (put_account a v).
Proof.
  intros Hv Ha Hkeep. pose proof Hv as [Hs Hacc Hw Hd]. split; [|done|done|done].
  intros []; [exact (Hs true)|]. specialize (Hs false). cbn in *. destruct (sess_b w) as [p|]; [|done].
  destruct Hs as (ses & Hses & Hcell). exists ses. split; [done|]. rewrite Hkeep; [done| |by rewrite Hcell].
  intros ->. by rewrite Hcell in Hacc.
Qed.

Lemma view_other_peer w v fresh msg m r f' :
  view w v -> message_decode msg = Ok m -> (forall id, offered = Some id -> prekey_of m <> Some id) ->
  host_respond fresh (Some (acct_b w)) msg (host_b w) = (Ok r, f') ->
  exists v', app_step offered v v' /\ view (put_heap false f' w) v'.
Proof.
  intros Hv Hm Hother Hcall. eexists. split; [apply app_account; by apply (acc_other_peer offered fresh m)|].
  pose proof (host_respond_live fresh _ _ _ _ _ (vw_account _ _ Hv) Hm) as Hlive.
  destruct (session_respond fresh m (account v)) as [[[ses pt]|e] a]; cbn [fst snd] in *.
  - destruct Hlive as (p & Hp & Hlive). rewrite Hlive in Hcall. injection Hcall as _ <-.
    cbn [cells with_cell set_cells] in Hp. apply lookup_insert_None in Hp as [Hp Hne].
    apply view_account; [done| |].
    + cbn. by rewrite lookup_insert_ne, lookup_insert_eq.
    + intros p' Hne' [o Ho]. cbn. rewrite !lookup_insert_ne; [done|done|]. intros ->. by rewrite Hp in Ho.
  - rewrite Hlive in Hcall. injection Hcall as _ <-. apply view_account; [done|apply lookup_insert_eq|].
    intros p' Hne' _. cbn. by rewrite lookup_insert_ne.
Qed.

Lemma view_replenish w v count rng code f' :
  view w v -> may_replenish w count ->
  clarity_account_replenish_prekeys (Some (acct_b w)) count rng (host_b w) = (Ok code, f') ->
  exists v', app_step offered v v' /\ view (put_heap false f' w) v'.
Proof.
  intros Hv Hmay Hcall. pose proof (vw_account _ _ Hv) as Ha.
  eexists. split; [apply app_account, (acc_replenish offered count rng); by apply Hmay|].
  unfold clarity_account_replenish_prekeys, sbind at 1, as_ref in Hcall. rewrite Ha in Hcall.
  cbn [mbind option_bind as_account] in Hcall.
  destruct (replenish_one_time_prekeys count rng (account v)) as [ids a]. cbn in Hcall. injection Hcall as _ <-.
  apply view_account; [done|apply lookup_insert_eq|]. intros p Hne _. cbn. by rewrite lookup_insert_ne.
Qed.

Lemma view_reload w v s p p' f' :
  view w v -> handle_of s w = Some p -> host_reload (Some p) (heap_of s w) = (Ok (Some p'), f') ->
  view (put_handle s p' (put_heap s f' w)) v.
Proof.
  intros Hv Hp Hcall. destruct (session_live _ _ _ _ Hv Hp) as (ses & Hses & Hcell).
  destruct (host_reload_live _ _ _ Hcell) as (q & Hq & Hlive). rewrite Hlive in Hcall. injection Hcall as <- <-.
  pose proof (vw_account _ _ Hv) as Ha.
  apply (view_move w v _ _ s q ses Hv); try (by destruct s); try done.
  - destruct s; apply lookup_insert_eq.
  - destruct s; [exact Ha|]. cbn in *.
    assert (acct_b w <> p) as Hne by (intros <-; by rewrite Hcell in Ha).
    rewrite lookup_insert_ne; [by rewrite lookup_delete_ne by done|].
    intros ->. by rewrite lookup_delete_ne, Ha in Hq.
  - destruct s; apply (vw_wires _ _ Hv).
  - destruct s; apply (vw_dealt _ _ Hv).
Qed.

Lemma view_elsewhere w v s f' :
  view w v -> (forall p, ours s w p -> cells f' !! p = cells (heap_of s w) !! p) ->
  view (put_heap s f' w) v.
Proof.
  intros Hv Hkeep. pose proof Hv as [Hs Ha Hw Hd]. split; [|destruct s|by destruct s|by destruct s].
  - intros s'. specialize (Hs s'). destruct (decide (s' = s)) as [->|Hne].
    + assert (handle_of s (put_heap s f' w) = handle_of s w) as -> by (by destruct s).
      assert (heap_of s (put_heap s f' w) = f') as -> by (by destruct s).
      destruct (handle_of s w) as [p|] eqn:Hp; [|done]. rewrite Hkeep by (by left). exact Hs.
    + assert (s' = negb s) as -> by (by destruct s, s'). destruct s; exact Hs.
  - exact Ha.
  - cbn. rewrite Hkeep by (by right). exact Ha.
Qed.

(** Every call sequence of the hosts is a step of the applications or none. *)
Lemma view_step w w' v : view w v -> hosts_step w w' -> exists v', star (app_step offered) v v' /\ view w' v'.
Proof.
  assert (forall w, (exists v', app_step offered v v' /\ view w v') ->
    exists v', star (app_step offered) v v' /\ view w v') as Hone.
  { intros w0 (v' & Hv & ?). exists v'. split; [|done]. eapply star_step; [apply star_refl|exact Hv]. }
  intros Hv Hstep. revert Hv.
  destruct Hstep as [s p pt bytes f' w Hp Hmay Hc|c rest p fresh r f' w Hperm Hp Hf Hmay Hc
    |c rest fresh h r f' w Hperm Hfrom Hb Hf Hmay Hc|c rest w Hperm|s p p' f' w Hp Hc
    |fresh msg m r f' w Hm Ho Hc|count rng code f' w Hmay Hc|s f' w Hkeep]; intros Hv.
  - apply Hone. by eapply view_encrypt.
  - apply Hone. by eapply view_decrypt.
  - apply Hone. by eapply view_respond.
  - destruct (wires_perm _ _ _ _ Hv Hperm) as (q & l & Ht & -> & ->). apply Hone.
    exists (with_transit l v). split; [by apply (app_lose offered q l v)|].
    destruct Hv as [Hs Ha Hw Hd]. split; [|done|done|done]. intros s. destruct s; [exact (Hs true)|exact (Hs false)].
  - exists v. split; [apply star_refl|]. by eapply view_reload.
  - apply Hone. by eapply view_other_peer.
  - apply Hone. by eapply view_replenish.
  - exists v. split; [apply star_refl|]. by apply view_elsewhere.
Qed.
End FfiSession.

Section Delivery.
Context `{X : X25519, Sym : SymCrypto, Ed : Ed25519, Kem : MlKem}.
Context `{!Bincode PreKeyBundle, !Bincode Message, !Bincode RatchetHeader}.
Context `{!Bincode StoredAccount, !Bincode StoredRatchet, !Bincode StoredSession}.
Context `{!X25519Laws, !SymCryptoLaws, !Ed25519Laws, !MlKemLaws, !BincodeLaws PreKeyBundle, !BincodeLaws Message,
          !BincodeLaws StoredAccount, !BincodeLaws StoredRatchet, !BincodeLaws StoredSession}.
Context {St : Type}.
Variable malloc : gmap positive object -> positive.
Hypothesis malloc_fresh : forall c, c !! malloc c = None.

(** The hosts before the first message: one holds what [clarity_session_initiate]
    returned, the other its account. *)
Definition hosts_start (fa : Ffi (St := St)) (p : positive) (fb : Ffi (St := St)) (acct : positive)
    (bob : Account) (fresh : StaticSecret) : hosts :=
  mkHosts fa p fb acct None [] [public_of fresh; public_of (signed_prekey bob)].

Lemma initiate_live ephemeral seed fresh h me b p (f f' : Ffi (St := St)) :
  cells f !! h = Some (OAccount me) ->
  clarity_session_initiate malloc ephemeral seed fresh (Some h) (Some (bundle_encode b)) f = (Ok (Some p), f') ->
  exists s, session_initiate ephemeral seed fresh me b = Ok s /\ cells f' !! p = Some (OSession s).
Proof.
  intros Hh. unfold clarity_session_initiate, sbind, as_ref. rewrite Hh.
  cbn [mbind option_bind as_account as_slice from_option id]. rewrite bundle_decode_encode.
  destruct (session_initiate ephemeral seed fresh me b) as [s|e]; [|done].
  unfold into_raw. intros [= <- <-]. exists s. split; [done|]. apply lookup_insert_eq.
Qed.

(** C3: a conversation through the C interface: once a host has got a session
    handle from [clarity_session_initiate] on the bytes of a bundle of the other
    host's account, then whatever the two hosts do with the exported functions --
    encrypt, decrypt, respond, serialize and free and deserialize, replenish,
    answer other peers, and any other calls that leave these objects alone -- in
    whatever order, with their bytes lost, delayed and reordered: every message
    still on its way is taken by its reader's next call, [clarity_session_decrypt]
    on its session handle or [clarity_session_respond] on its account if it has no
    session yet, and the buffer that comes back holds exactly the plaintext that
    was written, within the limits and for fresh secrets. *)
Theorem ffi_sessions_deliver ephemeral seed fresh0 acct_a me bob b (fa f0 fb : Ffi (St := St)) p acct_b w c fresh :
  cells fa !! acct_a = Some (OAccount me) -> cells fb !! acct_b = Some (OAccount bob) ->
  bundle_of bob b -> pb_identity_ed b = identity_public bob -> pool_ok bob ->
  clarity_session_initiate malloc ephemeral seed fresh0 (Some acct_a) (Some (bundle_encode b)) fa = (Ok (Some p), f0) ->
  public_of fresh0 <> public_of (signed_prekey bob) ->
  star (hosts_step malloc (pb_one_time_prekey_id b)) (hosts_start f0 p fb acct_b bob fresh0) w ->
  c ∈ wires w -> public_of fresh ∉ dealt w -> may_take (negb (w_from c)) w (w_bytes c) ->
  match handle_of (negb (w_from c)) w with
  | Some q => exists f', host_decrypt malloc fresh (Some q) (w_bytes c) (heap_of (negb (w_from c)) w)
                = (Ok (Some (w_plain c)), f')
  | None => exists q f', host_respond malloc fresh (Some (FfiSession.acct_b w)) (w_bytes c) (host_b w)
                = (Ok (Some q, Some (w_plain c)), f')
  end.
Proof.
  intros Ha Hbob Hb Hed Hpool Hcall Hne Hstar Hc Hfresh Hmay.
  destruct (initiate_live _ _ _ _ _ _ _ _ _ Ha Hcall) as (sa & Hinit & Hsa).
  assert (exists v, star (app_step (pb_one_time_prekey_id b)) (opening sa bob fresh0) v /\ view w v) as (v & Hv & Hview).
  { refine (star_invariant (hosts_step malloc (pb_one_time_prekey_id b)) (fun w => exists v,
      star (app_step (pb_one_time_prekey_id b)) (opening sa bob fresh0) v /\ view w v) _ _ _ Hstar _).
    - intros w1 w2 (v & Hv & Hview) Hstep.
      destruct (view_step malloc malloc_fresh _ _ _ _ Hview Hstep) as (v' & Hv' & Hview').
      exists v'. split; [by eapply star_trans|done].
    - exists (opening sa bob fresh0). split; [apply star_refl|]. split; [|done|done|done].
      intros []; cbn; [by exists sa|done]. }
  rewrite (vw_wires _ _ Hview) in Hc. apply list_elem_of_fmap in Hc as (q & -> & Hq).
  cbn [wire_for w_from w_bytes w_plain] in *. rewrite (vw_dealt _ _ Hview) in Hfresh.
  pose proof (apps_take_in _ _ _ _ _ _ _ _ _ _ Hb Hed Hpool Hinit Hne Hv Hq Hfresh
    (may_take_acceptable _ _ _ _ Hview Hmay)) as Htake.
  unfold take_in in Htake. rewrite message_decode_encode in Htake.
  pose proof (vw_session _ _ Hview (negb (c_from q))) as Hs.
  destruct (handle_of (negb (c_from q)) w) as [h|] eqn:Hh.
  - destruct Hs as (ses & Hses & Hcell). rewrite Hses in Htake.
    rewrite (host_decrypt_live malloc malloc_fresh _ _ _ _ _ _ Hcell (message_decode_encode _)).
    destruct (session_decrypt fresh (c_msg q) ses) as [res ses']. cbn [fst] in *. subst res. by eexists.
  - rewrite Hs in Htake. destruct (negb (c_from q)); [done|].
    pose proof (host_respond_live malloc malloc_fresh fresh _ _ _ _ _ (vw_account _ _ Hview)
      (message_decode_encode (c_msg q))) as Hlive.
    destruct (session_respond fresh (c_msg q) (account v)) as [[[ses pt]|e] a]; cbn [fst] in *; [|done].
    injection Htake as ->. destruct Hlive as (q' & _ & ->). by eexists _, _.
Qed.
End Delivery.

(** ** Running the hosts *)
Section Script.
Context `{X : X25519, Sym : SymCrypto, Ed : Ed25519, Kem : MlKem}.
Context `{!Bincode PreKeyBundle, !Bincode Message, !Bincode RatchetHeader}.
Context `{!Bincode StoredAccount, !Bincode StoredRatchet, !Bincode StoredSession}.
Context {St : Type} (malloc : gmap positive object -> positive) (offered : option u32).

Definition session_at (s : bool) (w : hosts (St := St)) : option Session :=
  match handle_of s w with
  | Some p => match cells (heap_of s w) !! p with Some (OSession ses) => Some ses | _ => None end
  | None => None
  end.
Definition may_send_b (s : bool) (w : hosts (St := St)) : bool :=
  match session_at s w with Some ses => bool_decide (fits32 (S (cnt (n_send (ratchet ses))))) | None => true end.
Definition may_take_b (s : bool) (w : hosts (St := St)) (bytes : list u8) : bool :=
  match message_decode bytes with
  | Ok m => match session_at s w with
            | Some ses => bool_decide (within_limits (ratchet ses) (message_header m))
            | None => bool_decide (cnt (rh_n (message_header m)) <= N.to_nat MAX_SKIP)
            end
  | Err _ => true
  end.

Lemma may_send_b_ok s w : may_send_b s w = true -> may_send s w.
Proof.
  unfold may_send_b, may_send, session_at. intros Hb p ses Hp Hses. rewrite Hp, Hses in Hb.
  by apply bool_decide_eq_true in Hb.
Qed.

Lemma may_take_b_ok s w bytes : may_take_b s w bytes = true -> may_take s w bytes.
Proof.
  unfold may_take_b, may_take, session_at. intros Hb m Hm. rewrite Hm in Hb.
  destruct (handle_of s w) as [p|]; [|by apply bool_decide_eq_true in Hb].
  intros ses Hses. rewrite Hses in Hb. by apply bool_decide_eq_true in Hb.
Qed.

Inductive host_action :=
| Encrypts (s : bool) (pt : list u8)
| Takes (i : nat) (fresh : StaticSecret)
| Restarts (s : bool).

(** [None] when the action is not a step. *)
Definition host_act (a : host_action) (w : hosts (St := St)) : option hosts :=
  match a with
  | Encrypts s pt =>
      match handle_of s w with
      | Some p =>
          match host_encrypt malloc (Some p) pt (heap_of s w) with
          | (Ok (Some bytes), f') =>
              if may_send_b s w then Some (with_wires (mkWire s bytes pt :: wires w) (put_heap s f' w)) else None
          | _ => None
          end
      | None => None
      end
  | Takes i fresh =>
      match wires w !! i with
      | Some c =>
          if bool_decide (public_of fresh ∉ dealt w) && may_take_b (negb (w_from c)) w (w_bytes c) then
            match handle_of (negb (w_from c)) w with
            | Some p =>
                match host_decrypt malloc fresh (Some p) (w_bytes c) (heap_of (negb (w_from c)) w) with
                | (Ok r, f') => Some (with_dealt (public_of fresh :: dealt w)
                                        (with_wires (delete i (wires w)) (put_heap (negb (w_from c)) f' w)))
                | _ => None
                end
            | None =>
                match host_respond malloc fresh (Some (acct_b w)) (w_bytes c) (host_b w) with
                | (Ok (h, r), f') => Some (with_dealt (public_of fresh :: dealt w)
                                        (with_wires (delete i (wires w)) (put_result h (put_heap false f' w))))
                | _ => None
                end
            end
          else None
      | None => None
      end
  | Restarts s =>
      match handle_of s w with
      | Some p =>
          match host_reload malloc (Some p) (heap_of s w) with
          | (Ok (Some p'), f') => Some (put_handle s p' (put_heap s f' w))
          | _ => None
          end
      | None => None
      end
  end.

Lemma host_act_step a w w' : host_act a w = Some w' -> hosts_step malloc offered w w'.
Proof.
  destruct a as [s pt|i fresh|s]; unfold host_act.
  - destruct (handle_of s w) as [p|] eqn:Hp; [|done].
    destruct (host_encrypt _ _ _ _) as [[[bytes|]|[]] f'] eqn:Hc; try done.
    destruct (may_send_b s w) eqn:Hb; [|done]. intros [= <-].
    eapply hs_encrypt; [done|by apply may_send_b_ok|exact Hc].
  - destruct (wires w !! i) as [c|] eqn:Hi; [|done].
    destruct (bool_decide _ && _) eqn:Hb; [|done]. apply andb_true_iff in Hb as [Hf%bool_decide_eq_true Hb].
    apply may_take_b_ok in Hb. apply delete_Permutation in Hi.
    destruct (handle_of (negb (w_from c)) w) as [p|] eqn:Hp.
    + destruct (host_decrypt _ _ _ _ _) as [[r|[]] f'] eqn:Hc; [|done]. intros [= <-]. by eapply hs_decrypt.
    + destruct (host_respond _ _ _ _ _) as [[[h r]|[]] f'] eqn:Hc; [|done]. intros [= <-].
      destruct (w_from c) eqn:Hfrom; [|done]. by eapply hs_respond.
  - destruct (handle_of s w) as [p|] eqn:Hp; [|done].
    destruct (host_reload _ _ _) as [[[p'|]|[]] f'] eqn:Hc; try done. intros [= <-]. by eapply hs_reload.
Qed.

End Script.

From S2P Require Import Demo NetProps.

Module HostsDemo.
Import Demo WireDemo IdentityDemo SessionDemo FfiDemo.

(** Two messages, the second arrives first; a restart; a reply; the first is
    still under way. *)
Definition acts : list host_action :=
  [Encrypts true (hello 0); Encrypts true (hello 1); Takes 0 (secret 71); Restarts false; Encrypts false (hello 2)].
Definition heap_a : Ffi (St := unit) := mkFfi {[ 1%positive := OAccount alice ]} tt.
Definition heap_b : Ffi (St := unit) := mkFfi {[ 1%positive := OAccount bob ]} tt.
Definition initiated : result ub Handle * Ffi (St := unit) :=
  clarity_session_initiate FfiDemo.malloc (secret 31) seed (secret 33) (Some 1%positive)
    (Some (bundle_encode (bundle bob))) heap_a.
Definition handle_in {F} (x : result ub Handle * F) : positive := match x.1 with Ok (Some p) => p | _ => 1%positive end.
Lemma handle_in_ok {F} (x : result ub Handle * F) :
  match x.1 with Ok (Some _) => true | _ => false end = true -> x = (Ok (Some (handle_in x)), x.2).
Proof. destruct x as [[[p|]|e] f]; done. Qed.

Definition begun : hosts := hosts_start initiated.2 (handle_in initiated) heap_b 1 bob (secret 33).
Definition now : hosts := script_end (host_act FfiDemo.malloc) acts begun.
Definition oldest : wire := default (mkWire true [] []) (last (wires now)).

Lemma hosts_reach_now : star (hosts_step FfiDemo.malloc (pb_one_time_prekey_id (bundle bob))) begun now.
Proof.
  unfold now. generalize (pb_one_time_prekey_id (bundle bob)). intros o.
  refine (script_reaches (host_act FfiDemo.malloc) _ (host_act_step FfiDemo.malloc o) acts begun _). vm_compute. reflexivity.
Qed.

Lemma initiated_ok : initiated = (Ok (Some (handle_in initiated)), initiated.2).
Proof. apply handle_in_ok. vm_compute. reflexivity. Qed.

Lemma last_in {A} (x : A) l : (1 <=? length l) = true -> default x (last l) ∈ l.
Proof.
  intros Hl. destruct (last l) as [y|] eqn:Hlast; [by apply last_Some_elem_of in Hlast|].
  apply last_None in Hlast. by subst l.
Qed.
End HostsDemo.

Import Demo WireDemo IdentityDemo SessionDemo FfiDemo HostsDemo.

Lemma ffi_sessions_deliver_witness :
  map (fun c => (w_from c, w_plain c)) (wires now) = [(false, hello 2); (true, hello 0)] /\
  match handle_of (negb (w_from oldest)) now with
  | Some q => exists f', host_decrypt FfiDemo.malloc (secret 72) (Some q) (w_bytes oldest) (heap_of (negb (w_from oldest)) now)
                = (Ok (Some (w_plain oldest)), f')
  | None => exists q f', host_respond FfiDemo.malloc (secret 72) (Some (acct_b now)) (w_bytes oldest) (host_b now)
                = (Ok (Some q, Some (w_plain oldest)), f')
  end.
Proof.
  split; [vm_compute; reflexivity|].
  apply (ffi_sessions_deliver FfiDemo.malloc FfiDemo.malloc_fresh (secret 31) seed (secret 33) 1 alice bob (bundle bob)
    heap_a initiated.2 heap_b (handle_in initiated) 1 now oldest (secret 72)).
  - reflexivity.
  - reflexivity.
  - exact (bundle_of_bundle bob).
  - reflexivity.
  - apply generate_pool_ok.
  - exact initiated_ok.
  - apply keys_differ. vm_compute. reflexivity.
  - exact hosts_reach_now.
  - apply last_in. vm_compute. reflexivity.
  - apply (bool_decide_unpack _). vm_compute. exact I.
  - apply may_take_b_ok. vm_compute. reflexivity.
Defined.
